(* ===== verification/_CoqProject ===== *)
-Q . S2P
Prelude.v
Text.v
Wire.v
Protocol.v
Blocks.v
Sha256.v
Hmac.v
XXHash.v
Handshake.v
ByteChannel.v
Backpressure.v
PosixPath.v
Ring.v
FileSink.v
Codec.v
Upload.v
StorageReader.v
Snapshot.v
ReadAhead.v
Worker.v
EndToEnd.v
AcceptMode.v
Net.v
ConnUrl.v
NetClient.v
Contexts.v
Listener.v
UploadSafety.v
Reports.v
Affinity.v
Scheduler.v
Filter.v
Walk.v
Backup.v
SinkCalls.v
Interleave.v
Concurrent.v
Http.v
CNum.v
JsonDump.v
JsonLex.v
JsonText.v
JsonParse.v
JsonRound.v
JsonValue.v
Db.v
Cli.v
Router.v
Examples.v
Archive.v
Download.v
Server.v
DbTool.v
ServerMain.v
Connection.v
ConnLife.v
ConnTeardown.v
ConnHandshake.v
ConnTls.v
