(* ===== verification/Prelude.v ===== *)
(** * dicker: a verification development

    dicker is a backup program: a client that walks directories and sends the
    files over several compressed connections, and a server that stores them per
    session, lists them and hands them out as archives. This development models
    both ends, from the wire up to the composition of the whole, and proves what
    each part promises to the next. [bytes] is [list byte]; an unsigned integer
    of w bits is a [Z] with its wrap-around written out ([wrap w]); what a C++
    function may fail to return is an [option] or a pair with a [bool], as in the
    source. Names are the source's. Code outside src/ enters as a class of
    operations, with a second class of laws for what its documentation promises
    and a concrete instance that satisfies them.

    ** The parts, and the files that model them

    Shared by both ends (src/shared/): [Wire] is wire.h, [Protocol] protocol.h,
    [Sha256] sha256.h, [Hmac] hmac_sha256.h, [XXHash] the XXH64 part of
    xxhash.h; [Blocks] is what the two incremental hashers have in common, [Text]
    and [PosixPath] are the parts of std::string and std::filesystem::path that
    the sources use.

    The server (src/server/):
    - [Connection] (connection.cxx, tls_layer.cxx): the loop thread. Every
      handler is a function on the record [Connection]; libuv is the relation
      [step], which calls a handler whenever its contract allows. [ConnLife] is
      the invariant of its reachable states, [ConnTeardown] how a connection
      ends, [ConnHandshake] and [ConnTls] a client's first bytes, plain and
      behind TLS (wolfSSL is [SslLib], its laws [SslLaws]).
    - [Handshake] (handshake.cxx and the client's side in worker.h).
    - [ByteChannel] (byte_channel.cxx) between the loop thread and the consumer
      thread, and [Backpressure], the two threads as one transition system.
    - [Upload] (consumer_main and what it calls in connection.cxx) over [Codec]
      (the decompressors and compressors; zstd and lz4 are [LibDecoder] and
      [LibEncoder]; making and freeing their contexts, and those of wolfSSL, on
      both ends is [Contexts]) and [FileSink] (file_sink.cxx; the system calls are
      [FsOps]).
    - [Http] (http.cxx), [Router] (router.cxx, middleware, controllers;
      what they use of a connection is [ConnOps], which [Connection]
      implements), [Db] (db.cxx, dbtool.cxx; AES-GCM and POSIX are classes),
      [Archive] and [Download] (archive.cxx), [Server] (server.cxx).
    - The part of cxx_modules/json.hpp that these print and read JSON with:
      [JsonDump] (the class serializer), [JsonLex] (lexer), [JsonParse] (parser
      and json_sax_dom_parser). [JsonText] relates the automaton of the printer,
      the ranges of the scanner and UTF-8, [JsonRound] prints integers and scans
      them back, [JsonValue] does so for whole values and is what [Db] uses.
    - [Examples] (example.cxx of the server and of the client): the counters, a
      filter that keeps state, routes.
    - [ServerMain] (main.cxx, and listen, run, stop and the destructor of
      server.cxx as a transition system) and [DbTool] (dbtool.cxx).

    The client (src/client/):
    - [Filter] and [Walk] (scheduler.h: rules, the regular expressions made of
      them, the walk), [Scheduler] (choosing a worker, dispatching, chunks),
      [Affinity] (affinity.h).
    - [Ring] (ring.h and the semaphore of storage.h), [Snapshot] (the rest of
      storage.h: the volume snapshot of Windows), [StorageReader] and
      [ReadAhead] (storageReader.h): reading a file, and the reader thread with
      the worker over two rings and four buffers.
    - [Worker] (worker.h), over the network as the class [NetOps]; [Net] (net.h,
      net_io.h, tls.h) over the socket calls as [SockOps], [NetClient] the
      instance that joins them, [ConnUrl] (conn.h), [Listener] (listener.h).
    - [Cli] (cli.cxx, config.h): from the arguments to the queues; [CNum] has
      the C library's strtoul, atoi and strtod, with doubles as the Standard
      Library's [spec_float], and [parseSize].

    Compositions: [EndToEnd] runs a worker against the server's consumer,
    [AcceptMode] does so in accept mode, where the worker asks first,
    [UploadSafety] runs the consumer on arbitrary input, [Reports] accounts for
    what it reports there, [Backup] goes from the
    client's disk to the server's, connection by connection. [SinkCalls] has the
    consumer's operations as programs that make one call at a time, and the pool
    of a session's consumer threads, which take turns call by call and share the
    sink and its mutex; [Interleave] is the protocol the threads keep to and the
    invariant of the pool; [Concurrent] is the backup whose connections are all
    served at once.

    ** What is proved

    - From disk to disk, whatever turns the consumer threads take, without
      deadlock: [Concurrent.concurrent_backup_arrives], on
      [Interleave.step_preserves] and [Concurrent.handle_upload_runs]; one
      connection after another: [Backup.backup_arrives]. What arrives is the
      file, but for a chunked one that has shrunk since an earlier backup into
      the same session, which keeps its old end ([Backup.rebuilt]: chunk files
      are not truncated). They rest on
      [EndToEnd.upload_session_stored] (wire, codec, sink; behind probes and a
      filter: [AcceptMode.accept_session_stored]) and
      [Walk.start_queues_wanted] (rules, walk, queues, chunks). The same from
      the command line on: [Cli.cli_queues_wanted], [Cli.cli_options_typed],
      [CNum.parse_size_exact].
    - Nothing else is ever written: [UploadSafety.upload_confined],
      [FileSink.resolve_safe_path_confined]; and the consumer ends whatever it
      is sent ([UploadSafety.handle_upload_terminates]), and its events and
      counters agree ([Reports.reports_account]).
    - Who gets in: [Handshake.handshake_ok_iff],
      [ConnTeardown.consumer_behind_handshake], [Router.uploads_need_token],
      [Router.download_exactly_when]; the handshake does not depend on how the
      network cuts the stream, nor on TLS ([ConnHandshake.handshake_any_cut],
      [ConnTls.tls_handshake_any_cut]).
    - Threads: the ring, the byte channel, back-pressure and the read-ahead
      deliver in order, wake up, and end ([Ring], [ByteChannel],
      [Backpressure], [ReadAhead]); a connection's teardown ends and its
      deletion is final ([ConnTeardown]). The cases where a wait is not ended, or
      a buffer is lost, are theorems as well: [Backpressure.large_read_loses_resume],
      [ConnHandshake.lost_reply_hangs] (the one case that
      [ConnTeardown.teardown_terminates] leaves), [Ring.second_producer_loses] and
      [ReadAhead.buffer_lost] (two threads push to [spare]).
    - Reference definitions: [Sha256.sha256_is_fips],
      [Hmac.hmac_sha256_is_rfc2104], [XXHash.XXH64_streaming_one_shot],
      [Filter.keep_is_first_glob].
    - Stored and read back: [Db] (tokens, session rows, the atomic
      replacement, what a torn row does), [Server], [Download] (an archive
      holds the directory), [Http] and [ConnUrl] (what is printed parses).
    - JSON: what is printed is read back, what is read can be printed again,
      printing throws on what is not UTF-8 and on nothing else, parsing ends, the
      buffer of the printer is large enough ([JsonValue.json_round_trip],
      [parsed_reprints], [dump_throws], [parse_terminates],
      [JsonText.string_buffer_bound]); so the session list is always answered
      ([ConnTeardown.uploads_listing]), and a token that is not UTF-8 ends the tool
      ([Db.add_token_aborts]).
    - The token tool and the running server: [DbTool.dbtool_governs_server],
      [DbTool.dbtool_keeps_store]; a server's handles, and that stop ends run:
      [ServerMain.server_life].
    - The client's network: [Net.socks5_connects], [Net.network_client_no_leak];
      the listener, [Listener.listener_no_leak].
    - What is taken is given back: [Contexts.contexts_no_leak] (library
      contexts), [Snapshot.snapshot_given_back], and
      [Snapshot.late_failure_keeps_com], where it is not.

    ** Fuel and bounds

    Loops that are not structural take fuel, and no statement rests on its
    running out: [upload_loop] and [read_blocks] have the unread bytes plus one
    ([handle_upload_terminates]: more changes nothing); [chunk_loop] has the
    file's size, enough for any chunk size above 0; [recv_loop] and [send_loop]
    the bytes left, as every call moves one; [zstd_loop] and [lz4_loop] what the
    library's progress law bounds; [pump] and [refill_raw] [steps_left];
    [accept_loop] and [read_plain_loop] [ssl_calls], which the laws of [SslLib]
    bound from below; [parse_terms] the length of the text plus one;
    [sax_parse_internal] the length of the text plus two, as every round but the
    last takes a token ([parse_terminates]), and [scan_string_loop] the text's
    length; [count_digits] and [digit_pairs] five and ten rounds, enough below
    2^64 ([dump_integer_spec]). Teardown
    and read-ahead have measures in place of fuel; the consumer threads' programs
    are inductive, so their pool ends ([SinkCalls.pool_terminates]).

    ** What is not modelled

    Memory orders weaker than sequential consistency; allocation failures, but
    for those of library contexts and of the scheduler's vectors; logging; the libuv loop itself (its rules are the relations of [Connection]
    and [ServerMain]); the Windows branches other than the volume snapshot; what
    the programs print to the terminal; the rest of json.hpp and the parts of
    xxhash.h that are not XXH64. For how many workers there is memory is a
    parameter of [Cli]. The filter of a consumer is a function of the probe; one that keeps
    state is modelled on its own, in [Examples]. Consumer threads take turns in the
    plain mode only; behind probes a connection is modelled on its own. *)

From Stdlib Require Export ZArith Lia.
From Stdlib Require Export Strings.Byte.
From Stdlib Require Strings.String.
Export String.StringSyntax.
From stdpp Require Export base tactics list numbers gmap.

#[global] Open Scope Z_scope.

(** ** Bytes *)

(** [bytes] stands for a [std::uint8_t] buffer, a [std::vector] of bytes and a
    [std::string] alike. *)
Abbreviation bytes := (list byte).

(** The value of a byte, and the C++ cast [static_cast<std::uint8_t>]. *)
Definition b2z (b : byte) : Z := Z.of_N (Byte.to_N b).

Definition z2b (z : Z) : byte :=
  match Byte.of_N (Z.to_N (z mod 256)) with
  | Some b => b
  | None => x00
  end.

(** A w-bit unsigned integer is a [Z] kept below [2^w] by [wrap w]. *)
Definition wrap (w z : Z) : Z := z mod 2 ^ w.

Definition is_word (w z : Z) : Prop := 0 <= z < 2 ^ w.

(** [p[i]] of a byte pointer. *)
Definition byte_at (p : bytes) (i : nat) : Z := b2z (nth i p x00).

Declare Scope dicker_scope.
Delimit Scope dicker_scope with dicker.
Notation "p .[ i ]" := (byte_at p i) (at level 1, left associativity, format "p .[ i ]") : dicker_scope.
#[global] Open Scope dicker_scope.

#[global] Instance byte_eq_dec : EqDecision byte := Byte.byte_eq_dec.

#[global] Instance byte_countable : Countable byte.
Proof.
  refine (inj_countable Byte.to_N Byte.of_N _).
  intros b. apply Byte.of_to_N.
Defined.

(** String literals of the source, as bytes. *)
Definition str (s : String.string) : bytes := String.list_byte_of_string s.
Arguments str s%_string_scope.

(** ** Proof automation *)

Create HintDb dicker.
Create Rewrite HintDb dicker.

(** Linear arithmetic with [/] and [mod] by constants. *)
Ltac zdm := Z.div_mod_to_equations; lia.

(** Splits every boolean test of the goal and of the context. *)
Ltac split_ifs :=
  repeat match goal with
    | |- context [if ?b then _ else _] => destruct b eqn:?
    | H : context [if ?b then _ else _] |- _ => destruct b eqn:?
    end.

(** Turns boolean comparisons on [Z] and [nat] into propositions. *)
Ltac bool_to_prop :=
  repeat match goal with
    | H : _ && _ = true |- _ => apply andb_prop in H; destruct H
    | H : _ || _ = false |- _ => apply orb_false_elim in H; destruct H
    | H : negb _ = true |- _ => apply negb_true_iff in H
    | H : negb _ = false |- _ => apply negb_false_iff in H
    | H : (_ <? _) = true |- _ => apply Z.ltb_lt in H
    | H : (_ <? _) = false |- _ => apply Z.ltb_ge in H
    | H : (_ <=? _) = true |- _ => apply Z.leb_le in H
    | H : (_ <=? _) = false |- _ => apply Z.leb_gt in H
    | H : (_ =? _) = true |- _ => apply Z.eqb_eq in H
    | H : (_ =? _) = false |- _ => apply Z.eqb_neq in H
    | H : (_ <? _)%nat = true |- _ => apply Nat.ltb_lt in H
    | H : (_ <? _)%nat = false |- _ => apply Nat.ltb_ge in H
    | H : (_ <=? _)%nat = true |- _ => apply Nat.leb_le in H
    | H : (_ <=? _)%nat = false |- _ => apply Nat.leb_gt in H
    | H : (_ =? _)%nat = true |- _ => apply Nat.eqb_eq in H
    | H : (_ =? _)%nat = false |- _ => apply Nat.eqb_neq in H
    | H : bool_decide _ = true |- _ => apply bool_decide_eq_true in H
    | H : bool_decide _ = false |- _ => apply bool_decide_eq_false in H
    end.

(** ** Bytes and words *)

Lemma b2z_range b : 0 <= b2z b < 256.
Proof.
  unfold b2z. pose proof (Byte.to_N_bounded b). lia.
Qed.

Lemma b2z_inj b c : b2z b = b2z c -> b = c.
Proof.
  unfold b2z. intros H%N2Z.inj.
  pose proof (Byte.of_to_N b) as Hb. pose proof (Byte.of_to_N c) as Hc. congruence.
Qed.

Lemma b2z_z2b z : b2z (z2b z) = z mod 256.
Proof.
  unfold b2z, z2b. pose proof (Z.mod_pos_bound z 256 eq_refl).
  destruct (Byte.of_N _) as [b|] eqn:E.
  - apply Byte.to_of_N in E. rewrite E. lia.
  - apply Byte.of_N_None_iff in E. lia.
Qed.

Lemma z2b_b2z b : z2b (b2z b) = b.
Proof.
  apply b2z_inj. rewrite b2z_z2b. pose proof (b2z_range b). apply Z.mod_small. lia.
Qed.

Lemma b2z_z2b_small z : 0 <= z < 256 -> b2z (z2b z) = z.
Proof. intros. rewrite b2z_z2b. by apply Z.mod_small. Qed.

Lemma z2b_mod z : z2b (z mod 256) = z2b z.
Proof. apply b2z_inj. rewrite !b2z_z2b. by rewrite Z.mod_mod. Qed.

Lemma byte_at_range p i : 0 <= p.[i] < 256.
Proof. apply b2z_range. Qed.

Lemma byte_at_lookup p i b : p !! i = Some b -> p.[i] = b2z b.
Proof. intros H. unfold byte_at. by rewrite (nth_lookup_Some _ _ _ _ H). Qed.

Lemma wrap_range w z : 0 <= w -> 0 <= wrap w z < 2 ^ w.
Proof. intros. apply Z.mod_pos_bound. by apply Z.pow_pos_nonneg. Qed.

Lemma wrap_small w z : is_word w z -> wrap w z = z.
Proof. apply Z.mod_small. Qed.

Lemma wrap_wrap w z : wrap w (wrap w z) = wrap w z.
Proof. unfold wrap. by rewrite Z.mod_mod_divide by (exists 1; lia). Qed.

Lemma wrap_add_l w a b : wrap w (wrap w a + b) = wrap w (a + b).
Proof. apply Zplus_mod_idemp_l. Qed.

Lemma wrap_add_r w a b : wrap w (a + wrap w b) = wrap w (a + b).
Proof. apply Zplus_mod_idemp_r. Qed.

Lemma wrap_add_l2 w a b c : wrap w (wrap w a + b + c) = wrap w (a + b + c).
Proof. rewrite <- !Z.add_assoc. apply wrap_add_l. Qed.

Lemma wrap_add_l3 w a b c d : wrap w (wrap w a + b + c + d) = wrap w (a + b + c + d).
Proof. rewrite <- !Z.add_assoc. apply wrap_add_l. Qed.

#[export] Hint Resolve b2z_range byte_at_range wrap_range : dicker.
#[export] Hint Rewrite b2z_z2b z2b_b2z z2b_mod wrap_wrap : dicker.

(** A byte or-ed below a shifted word is their sum: the two do not overlap. *)
Lemma lor_shiftl_add a b k :
  0 <= k -> 0 <= a < 2 ^ k -> Z.lor a (Z.shiftl b k) = a + b * 2 ^ k.
Proof.
  intros Hk Ha.
  assert (Hland : Z.land a (Z.shiftl b k) = 0).
  { apply Z.bits_inj'. intros n Hn. rewrite Z.land_spec, Z.bits_0.
    destruct (decide (n < k)).
    - rewrite (Z.shiftl_spec_low b k n) by lia. apply andb_false_r.
    - replace a with (a mod 2 ^ k) by (by apply Z.mod_small).
      rewrite Z.mod_pow2_bits_high by lia. done. }
  rewrite <- Z.lxor_lor, <- Z.add_nocarry_lxor by done.
  by rewrite Z.shiftl_mul_pow2.
Qed.

Lemma land_ones_wrap w z : 0 <= w -> Z.land z (Z.ones w) = wrap w z.
Proof. intros. by apply Z.land_ones. Qed.

(** ** Lists *)

Lemma filter_all {A} (P : A -> Prop) `{!forall x, Decision (P x)} l : Forall P l -> filter P l = l.
Proof. induction 1 as [|x l Hx _ IH]; [done|]. by rewrite filter_cons, decide_True, IH. Qed.

Lemma take_take_min {A} (l : list A) n m : take n (take m l) = take (n `min` m) l.
Proof. apply take_take. Qed.

(** The bytes [p[k..k+n)] that [memcpy(out, p + k, n)] copies. *)
Definition sub (k n : nat) (p : bytes) : bytes := take n (drop k p).

Lemma length_sub k n p : (k + n <= length p)%nat -> length (sub k n p) = n.
Proof. intros. unfold sub. rewrite length_take, length_drop. lia. Qed.

Lemma sub_app_r k n p q : sub (length p + k) n (p ++ q) = sub k n q.
Proof. unfold sub. by rewrite drop_app_add. Qed.

Lemma sub_all p q r k n :
  k = length p -> n = length q -> sub k n (p ++ q ++ r) = q.
Proof. intros -> ->. unfold sub. by rewrite drop_app_length, take_app_length. Qed.

(** [memcpy(buf + pos, data, n)] into a fixed-size array. *)
Definition memcpy (buf : bytes) (pos : nat) (data : bytes) : bytes :=
  take pos buf ++ data ++ drop (pos + length data) buf.

Lemma length_memcpy buf pos data :
  (pos + length data <= length buf)%nat -> length (memcpy buf pos data) = length buf.
Proof. intros. unfold memcpy. rewrite !length_app, length_take, length_drop. lia. Qed.

Lemma take_memcpy buf pos data :
  (pos <= length buf)%nat ->
  take (pos + length data) (memcpy buf pos data) = take pos buf ++ data.
Proof.
  intros. unfold memcpy. rewrite app_assoc.
  apply take_app_length'. rewrite length_app, length_take. lia.
Qed.

(** Big-endian bytes of a word, most significant first. *)
Definition be32 (v : Z) : bytes :=
  [z2b (Z.shiftr v 24); z2b (Z.shiftr v 16); z2b (Z.shiftr v 8); z2b v].

Definition be64 (v : Z) : bytes :=
  map (fun i => z2b (Z.shiftr v (56 - Z.of_nat i * 8))) (seq 0 8).

Lemma fold_left_ext_in {A B} (f g : A -> B -> A) l a :
  (forall a b, b ∈ l -> f a b = g a b) -> fold_left f l a = fold_left g l a.
Proof.
  revert a. induction l as [|x l IH]; intros a H; [done|]. simpl.
  rewrite H by set_solver. apply IH. intros. apply H. set_solver.
Qed.

Lemma fold_left_map {A B C} (f : A -> C -> A) (g : B -> C) l a :
  fold_left f (g <$> l) a = fold_left (fun a b => f a (g b)) l a.
Proof. revert a. induction l as [|x l IH]; intros a; [done|]. apply IH. Qed.

(** A word above [k] zero bits or-ed with a word of [k] bits is their sum. *)
Lemma lor_mul_add m y k : 0 <= k -> 0 <= y < 2 ^ k -> Z.lor (m * 2 ^ k) y = m * 2 ^ k + y.
Proof.
  intros. rewrite Z.lor_comm, <- Z.shiftl_mul_pow2, lor_shiftl_add by done.
  rewrite Z.shiftl_mul_pow2 by done. lia.
Qed.
