(* ===== verification/Text.v ===== *)
(** * Text: the [std::string] operations the parsers are written with

    [find], [rfind], [substr], [compare] on a prefix, [std::to_string],
    [std::atoi] and [std::tolower], on byte lists, with the lemmas that locate
    the first separator of a text. *)

From S2P Require Import Prelude.

Definition CR : byte := x0d.
Definition LF : byte := x0a.
Definition CRLF : bytes := [CR; LF].
Definition sp : byte := x20.
Definition tab : byte := x09.

(** [s.compare(0, p.size(), p) == 0], for an [s] that is long enough or not. *)
Definition starts_with (p s : bytes) : bool := bool_decide (take (length p) s = p).

(** [s.find(pat)]; [None] is [std::string::npos]. *)
Fixpoint find_str (pat s : bytes) : option nat :=
  if starts_with pat s then Some 0%nat
  else match s with [] => None | _ :: s => S <$> find_str pat s end.

(** [s.find(pat, pos)], for a pattern that is not empty. *)
Definition find_at (pat s : bytes) (pos : nat) : option nat :=
  (fun i => (pos + i)%nat) <$> find_str pat (drop pos s).

(** [s.rfind(c)]. *)
Fixpoint rfind_char (c : byte) (s : bytes) : option nat :=
  match s with
  | [] => None
  | b :: s =>
      match rfind_char c s with
      | Some i => Some (S i)
      | None => if bool_decide (b = c) then Some 0%nat else None
      end
  end.

Definition substr (s : bytes) (pos n : nat) : bytes := take n (drop pos s).

(** [std::tolower] in the C locale. *)
Definition tolower (b : byte) : byte :=
  if (65 <=? b2z b) && (b2z b <=? 90) then z2b (b2z b + 32) else b.

Definition is_digit (b : byte) : bool := (48 <=? b2z b) && (b2z b <=? 57).
Definition digit (z : Z) : byte := z2b (48 + z).

(** The value of a hexadecimal digit. *)
Definition nibble (c : byte) : option Z :=
  let v := b2z c in
  if (48 <=? v) && (v <=? 57) then Some (v - 48)
  else if (97 <=? v) && (v <=? 102) then Some (v - 97 + 10)
  else if (65 <=? v) && (v <=? 70) then Some (v - 65 + 10)
  else None.

(** [std::to_string]: the digits of a number, most significant first. A number
    below [2^k] has at most [k] digits, so the fuel is never used up. *)
Fixpoint dec_digits (fuel : nat) (z : Z) (acc : bytes) : bytes :=
  match fuel with
  | O => acc
  | S fuel =>
      let acc := digit (z mod 10) :: acc in
      if z <? 10 then acc else dec_digits fuel (z / 10) acc
  end.

Definition to_string (z : Z) : bytes :=
  let digits n := dec_digits (S (Z.to_nat (Z.log2 n))) n [] in
  if z <? 0 then x2d :: digits (- z) else digits z.

(** [std::atoi] after the sign: the value of the leading digits. *)
Fixpoint atoi_digits (s : bytes) (acc : Z) : Z :=
  match s with
  | b :: s => if is_digit b then atoi_digits s (acc * 10 + (b2z b - 48)) else acc
  | [] => acc
  end.

(** ** Searching *)

Lemma starts_with_spec p s : starts_with p s = true <-> exists r, s = p ++ r.
Proof.
  unfold starts_with. rewrite bool_decide_eq_true. split.
  - intros H. exists (drop (length p) s). by rewrite <- H at 1; rewrite take_drop.
  - intros [r ->]. apply take_app_length.
Qed.

Lemma starts_with_app p r : starts_with p (p ++ r) = true.
Proof. apply starts_with_spec. by exists r. Qed.

Lemma starts_with_cons c p b s :
  starts_with (c :: p) (b :: s) = bool_decide (c = b) && starts_with p s.
Proof.
  unfold starts_with. cbn [length take]. destruct (decide (c = b)) as [->|n].
  - rewrite (bool_decide_eq_true_2 (b = b)) by done. cbn [andb].
    apply bool_decide_ext. split; congruence.
  - rewrite (bool_decide_eq_false_2 (c = b)) by done.
    apply bool_decide_eq_false_2. congruence.
Qed.

Lemma starts_with_nil c p : starts_with (c :: p) [] = false.
Proof. done. Qed.

Lemma find_str_Some pat s i :
  find_str pat s = Some i <->
  starts_with pat (drop i s) = true /\ (i <= length s)%nat /\
  forall j, (j < i)%nat -> starts_with pat (drop j s) = false.
Proof.
  revert i. induction s as [|b s IH]; intros i; cbn [find_str].
  - destruct (starts_with pat []) eqn:E.
    + split.
      * intros [= <-]. repeat split; [done|cbn;lia|lia].
      * intros (_ & H & _). cbn in H. assert (i = 0%nat) as -> by lia. done.
    + split; [done|]. intros (H & Hi & _). cbn in Hi. assert (i = 0%nat) as -> by lia.
      cbn in H. congruence.
  - destruct (starts_with pat (b :: s)) eqn:E.
    + split.
      * intros [= <-]. repeat split; [done|cbn; lia|lia].
      * intros (_ & _ & H). destruct i as [|i]; [done|]. specialize (H 0%nat ltac:(lia)).
        cbn in H. congruence.
    + destruct i as [|i].
      * split; [by destruct (find_str pat s)|]. intros (H & _). cbn in H. congruence.
      * rewrite fmap_Some. split.
        -- intros (k & Hk & [= <-]). apply IH in Hk as (H1 & H2 & H3).
           repeat split; [done|cbn; lia|]. intros [|j] Hj; [done|]. apply H3. lia.
        -- intros (H1 & H2 & H3). exists i. split; [|done]. apply IH. cbn in H1, H2.
           repeat split; [done|lia|]. intros j Hj. apply (H3 (S j)). lia.
Qed.

Lemma find_str_None pat s :
  find_str pat s = None <-> forall j, starts_with pat (drop j s) = false.
Proof.
  induction s as [|b s IH]; cbn [find_str].
  - destruct (starts_with pat []) eqn:E; split; try done.
    + intros H. specialize (H 0%nat). cbn in H. congruence.
    + intros _ j. by rewrite drop_nil.
  - destruct (starts_with pat (b :: s)) eqn:E.
    + split; [done|]. intros H. specialize (H 0%nat). cbn in H. congruence.
    + rewrite fmap_None, IH. split.
      * intros H [|j]; [done|apply H].
      * intros H j. apply (H (S j)).
Qed.

Lemma find_str_bound pat s i : find_str pat s = Some i -> (i + length pat <= length s)%nat.
Proof.
  intros ((r & H)%starts_with_spec & Hi & _)%find_str_Some.
  apply (f_equal length) in H. rewrite length_drop, length_app in H. lia.
Qed.

(** The first occurrence of a pattern is behind a text that avoids its first
    character. *)
Lemma find_str_app c pat a r :
  c ∉ a -> find_str (c :: pat) (a ++ (c :: pat) ++ r) = Some (length a).
Proof.
  induction a as [|b a IH]; intros Hc.
  - cbn [app length find_str]. change (c :: pat ++ r) with ((c :: pat) ++ r).
    by rewrite starts_with_app.
  - apply not_elem_of_cons in Hc as [Hb Hc]. cbn [app length find_str].
    rewrite starts_with_cons, bool_decide_eq_false_2 by done. cbn [andb].
    specialize (IH Hc). cbn [app] in IH. by rewrite IH.
Qed.

Lemma find_str_absent c pat a : c ∉ a -> find_str (c :: pat) a = None.
Proof.
  induction a as [|b a IH]; intros Hc; [done|].
  apply not_elem_of_cons in Hc as [Hb Hc]. cbn [find_str].
  rewrite starts_with_cons, bool_decide_eq_false_2 by done. cbn [andb].
  by rewrite (IH Hc).
Qed.

Lemma rfind_char_app c a r : c ∉ r -> rfind_char c (a ++ c :: r) = Some (length a).
Proof.
  intros Hr. assert (Hn : rfind_char c r = None).
  { induction r as [|b r IH]; [done|]. apply not_elem_of_cons in Hr as [Hb Hr].
    cbn [rfind_char]. rewrite (IH Hr). by rewrite bool_decide_eq_false_2. }
  induction a as [|b a IH]; cbn [app rfind_char length].
  - by rewrite Hn, bool_decide_eq_true_2.
  - by rewrite IH.
Qed.

Lemma rfind_char_absent c r : c ∉ r -> rfind_char c r = None.
Proof.
  induction r as [|b r IH]; [done|]. intros [Hb Hr]%not_elem_of_cons.
  cbn [rfind_char]. rewrite (IH Hr). by rewrite bool_decide_eq_false_2.
Qed.

(** ** Numbers *)

Lemma digit_value z : 0 <= z < 10 -> b2z (digit z) = 48 + z.
Proof. intros. unfold digit. apply b2z_z2b_small. lia. Qed.

Lemma digit_is_digit z : 0 <= z < 10 -> is_digit (digit z) = true.
Proof. intros H. unfold is_digit. rewrite digit_value by done. lia. Qed.

Lemma dec_digits_all fuel z acc :
  0 <= z -> forallb is_digit acc = true -> forallb is_digit (dec_digits fuel z acc) = true.
Proof.
  revert z acc. induction fuel as [|fuel IH]; intros z acc Hz Hacc; [done|].
  cbn [dec_digits]. pose proof (Z.mod_pos_bound z 10 eq_refl).
  assert (forallb is_digit (digit (z mod 10) :: acc) = true).
  { cbn [forallb]. by rewrite digit_is_digit by lia. }
  destruct (z <? 10); [done|]. apply IH; [|done]. by apply Z.div_pos.
Qed.

Lemma to_string_digits z : 0 <= z -> forallb is_digit (to_string z) = true.
Proof.
  intros. unfold to_string. replace (z <? 0) with false by lia. by apply dec_digits_all.
Qed.

Lemma atoi_app_digit s z acc :
  atoi_digits (dec_digits 1 z s) acc = atoi_digits (digit (z mod 10) :: s) acc.
Proof. cbn [dec_digits]. by destruct (z <? 10). Qed.

Lemma dec_digits_spec fuel z acc v :
  0 <= z < 2 ^ Z.of_nat fuel -> (fuel <> 0)%nat ->
  exists k, 0 <= k /\ atoi_digits (dec_digits fuel z acc) v = atoi_digits acc (v * 10 ^ k + z).
Proof.
  revert z acc. induction fuel as [|fuel IH]; intros z acc Hz Hf; [done|].
  cbn [dec_digits]. pose proof (Z.mod_pos_bound z 10 eq_refl).
  assert (Hone : forall w, atoi_digits (digit (z mod 10) :: acc) w =
    atoi_digits acc (w * 10 + z mod 10)).
  { intros w. cbn [atoi_digits]. rewrite digit_is_digit, digit_value by lia. f_equal. lia. }
  destruct (Z.ltb_spec z 10).
  - exists 1. split; [lia|]. rewrite Hone. f_equal. rewrite Z.mod_small by lia. lia.
  - rewrite Nat2Z.inj_succ, Z.pow_succ_r in Hz by lia.
    assert (fuel <> 0%nat) by (intros ->; cbn in Hz; lia).
    destruct (IH (z / 10) (digit (z mod 10) :: acc)) as (k & Hk & E).
    { split; [by apply Z.div_pos; lia|]. apply Z.div_lt_upper_bound; lia. }
    { done. }
    exists (k + 1). split; [lia|]. rewrite E, Hone. f_equal.
    rewrite Z.pow_add_r by lia. pose proof (Z.div_mod z 10 ltac:(lia)). lia.
Qed.

Lemma to_string_atoi z rest :
  0 <= z -> (forall b, head rest = Some b -> is_digit b = false) ->
  atoi_digits (to_string z ++ rest) 0 = z.
Proof.
  intros Hz Hrest. unfold to_string. replace (z <? 0) with false by lia.
  assert (Happ : forall s t v, forallb is_digit s = true ->
    (forall b, head t = Some b -> is_digit b = false) ->
    atoi_digits (s ++ t) v = atoi_digits s v).
  { clear. intros s t. induction s as [|b s IH]; intros v H Ht; cbn [app atoi_digits].
    - destruct t as [|c t]; [done|]. cbn [atoi_digits]. by rewrite (Ht c eq_refl).
    - cbn [forallb] in H. apply andb_prop in H as [H1 H2]. rewrite H1. by apply IH. }
  rewrite Happ by (try done; by apply dec_digits_all).
  destruct (dec_digits_spec (S (Z.to_nat (Z.log2 z))) z [] 0) as (k & _ & E).
  { split; [done|]. destruct (Z.eq_dec z 0) as [->|]; [done|].
    pose proof (Z.log2_spec z ltac:(lia)). pose proof (Z.log2_nonneg z).
    rewrite Nat2Z.inj_succ, Z2Nat.id by lia. lia. }
  { done. }
  rewrite E. cbn [atoi_digits]. lia.
Qed.

Lemma forallb_not_elem (f : byte -> bool) s b :
  forallb f s = true -> f b = false -> b ∉ s.
Proof.
  intros H Hb Hin. rewrite forallb_forall in H.
  apply list_elem_of_In in Hin. specialize (H _ Hin). congruence.
Qed.

Lemma to_string_avoids z b : 0 <= z -> is_digit b = false -> b ∉ to_string z.
Proof. intros. eapply forallb_not_elem; [by apply to_string_digits|done]. Qed.

(** ** The order of [std::string] *)

(** [a <= b], byte by byte as unsigned characters. *)
Fixpoint bytes_leb (a b : bytes) : bool :=
  match a, b with
  | [], _ => true
  | _ :: _, [] => false
  | x :: a, y :: b => if b2z x =? b2z y then bytes_leb a b else b2z x <? b2z y
  end.

Lemma bytes_leb_refl a : bytes_leb a a = true.
Proof. induction a as [|x a IH]; [done|]. cbn. by rewrite Z.eqb_refl. Qed.

Lemma bytes_leb_total a b : bytes_leb a b = true \/ bytes_leb b a = true.
Proof.
  revert b. induction a as [|x a IH]; intros [|y b]; cbn; [by left..|by right|].
  rewrite (Z.eqb_sym (b2z y)). destruct (Z.eqb_spec (b2z x) (b2z y)); [apply IH|lia].
Qed.

Lemma bytes_leb_antisym a b : bytes_leb a b = true -> bytes_leb b a = true -> a = b.
Proof.
  revert b. induction a as [|x a IH]; intros [|y b]; cbn; try done.
  rewrite (Z.eqb_sym (b2z y)). destruct (Z.eqb_spec (b2z x) (b2z y)) as [E|]; [|lia].
  apply b2z_inj in E as ->. intros. f_equal. by apply IH.
Qed.

Lemma bytes_leb_trans a b c : bytes_leb a b = true -> bytes_leb b c = true -> bytes_leb a c = true.
Proof.
  revert b c. induction a as [|x a IH]; intros [|y b] [|z c]; cbn; try done.
  destruct (Z.eqb_spec (b2z x) (b2z y)); destruct (Z.eqb_spec (b2z y) (b2z z));
    destruct (Z.eqb_spec (b2z x) (b2z z)); try lia. apply IH.
Qed.

Definition bytes_le (a b : bytes) : Prop := bytes_leb a b = true.

#[global] Instance bytes_le_dec a b : Decision (bytes_le a b).
Proof. unfold bytes_le. apply _. Defined.

#[global] Instance bytes_le_total : Total bytes_le.
Proof. intros a b. apply bytes_leb_total. Qed.

#[global] Instance bytes_le_partial_order : PartialOrder bytes_le.
Proof.
  split; [split|].
  - intros a. apply bytes_leb_refl.
  - intros a b c. apply bytes_leb_trans.
  - intros a b. apply bytes_leb_antisym.
Qed.
