(* ===== verification/Wire.v ===== *)
(** * Wire integers (src/shared/wire.h)

    Little-endian reads from and writes to a byte buffer, and the [append_*]
    helpers of both the client and the server. *)

From S2P Require Import Prelude.

Definition read_u16_le (p : bytes) : Z :=
  Z.lor p.[0] (Z.shiftl p.[1] 8).

Definition read_u32_le (p : bytes) : Z :=
  Z.lor (Z.lor (Z.lor p.[0] (Z.shiftl p.[1] 8)) (Z.shiftl p.[2] 16)) (Z.shiftl p.[3] 24).

Definition read_u64_le (p : bytes) : Z :=
  Z.lor (Z.lor (Z.lor (Z.lor (Z.lor (Z.lor (Z.lor p.[0] (Z.shiftl p.[1] 8))
    (Z.shiftl p.[2] 16)) (Z.shiftl p.[3] 24)) (Z.shiftl p.[4] 32)) (Z.shiftl p.[5] 40))
    (Z.shiftl p.[6] 48)) (Z.shiftl p.[7] 56).

(** The writers fill the first bytes at [p]; they are given here as the bytes
    written. *)
Definition write_u16_le (v : Z) : bytes :=
  [z2b v; z2b (Z.shiftr v 8)].

Definition write_u32_le (v : Z) : bytes :=
  [z2b v; z2b (Z.shiftr v 8); z2b (Z.shiftr v 16); z2b (Z.shiftr v 24)].

Definition write_u64_le (v : Z) : bytes :=
  [z2b v; z2b (Z.shiftr v 8); z2b (Z.shiftr v 16); z2b (Z.shiftr v 24);
   z2b (Z.shiftr v 32); z2b (Z.shiftr v 40); z2b (Z.shiftr v 48); z2b (Z.shiftr v 56)].

Definition append_u16 (out : bytes) (value : Z) : bytes := out ++ write_u16_le value.

Definition append_u64 (out : bytes) (value : Z) : bytes := out ++ write_u64_le value.

(** ** The reference definition: base-256 digits, least significant first *)

Fixpoint le_combine (l : bytes) : Z :=
  match l with
  | [] => 0
  | b :: l => b2z b + 256 * le_combine l
  end.

Fixpoint le_split (n : nat) (v : Z) : bytes :=
  match n with
  | O => []
  | S n => z2b v :: le_split n (v / 256)
  end.

Lemma length_le_split n v : length (le_split n v) = n.
Proof. revert v; induction n; intros; simpl; by rewrite ?IHn. Qed.

Lemma le_combine_range l : 0 <= le_combine l < 256 ^ Z.of_nat (length l).
Proof.
  induction l as [|b l IH]; cbn [le_combine length]; [lia|].
  rewrite Nat2Z.inj_succ, Z.pow_succ_r by lia. pose proof (b2z_range b). lia.
Qed.

Lemma le_combine_split n v : le_combine (le_split n v) = v mod 256 ^ Z.of_nat n.
Proof.
  revert v; induction n as [|n IH]; intros v; cbn [le_combine le_split].
  - by rewrite Z.mod_1_r.
  - rewrite IH, b2z_z2b, Nat2Z.inj_succ, Z.pow_succ_r by lia.
    rewrite Z.rem_mul_r by lia. lia.
Qed.

Lemma le_split_combine l : le_split (length l) (le_combine l) = l.
Proof.
  induction l as [|b l IH]; cbn [le_combine le_split length]; [done|].
  pose proof (b2z_range b). f_equal.
  - apply b2z_inj. rewrite b2z_z2b. zdm.
  - replace ((b2z b + 256 * le_combine l) / 256) with (le_combine l) by zdm. done.
Qed.

(** ** The reads and writes against the reference *)

Local Ltac shift_to_div :=
  rewrite ?Z.shiftr_div_pow2 by lia; rewrite ?Z.div_div by lia.

Lemma write_u16_le_spec v : write_u16_le v = le_split 2 v.
Proof. unfold write_u16_le; cbn [le_split]. by shift_to_div. Qed.

Lemma write_u32_le_spec v : write_u32_le v = le_split 4 v.
Proof. unfold write_u32_le; cbn [le_split]. by shift_to_div. Qed.

Lemma write_u64_le_spec v : write_u64_le v = le_split 8 v.
Proof. unfold write_u64_le; cbn [le_split]. by shift_to_div. Qed.

Lemma lor_step a b k :
  0 <= k -> 0 <= a < 2 ^ k -> 0 <= b < 256 ->
  Z.lor a (Z.shiftl b k) = a + b * 2 ^ k /\ 0 <= a + b * 2 ^ k < 2 ^ (k + 8).
Proof.
  intros Hk Ha Hb. split; [by apply lor_shiftl_add|].
  rewrite Z.pow_add_r by lia. nia.
Qed.

(** Or-ing the next byte above the [k] bits read so far adds it. *)
Local Ltac or_byte p i k :=
  match goal with
  | |- context [Z.lor ?a (Z.shiftl (byte_at p i) k)] =>
      let E := fresh in
      destruct (lor_step a (byte_at p i) k) as [E ?];
      [lia|lia|apply byte_at_range|rewrite E; clear E]
  end.

Lemma read_u16_le_sum p : read_u16_le p = p.[0] + 256 * p.[1].
Proof. pose proof (byte_at_range p 0). unfold read_u16_le. or_byte p 1%nat 8. lia. Qed.

Lemma read_u32_le_sum p :
  read_u32_le p = p.[0] + 256 * (p.[1] + 256 * (p.[2] + 256 * p.[3])).
Proof. 
  pose proof (byte_at_range p 0). unfold read_u32_le.
  or_byte p 1%nat 8. or_byte p 2%nat 16. or_byte p 3%nat 24. lia.
 Qed.

Lemma read_u64_le_sum p :
  read_u64_le p = p.[0] + 256 * (p.[1] + 256 * (p.[2] + 256 * (p.[3] + 256 *
    (p.[4] + 256 * (p.[5] + 256 * (p.[6] + 256 * p.[7])))))).
Proof. 
  pose proof (byte_at_range p 0). unfold read_u64_le.
  or_byte p 1%nat 8. or_byte p 2%nat 16. or_byte p 3%nat 24. or_byte p 4%nat 32.
  or_byte p 5%nat 40. or_byte p 6%nat 48. or_byte p 7%nat 56. lia.
 Qed.

Local Ltac uncons p H := destruct p as [|? p]; [simpl in H; lia|].
Local Ltac digits := unfold byte_at; cbn [nth take firstn le_combine]; rewrite take_0; cbn [le_combine]; lia.

Lemma read_u16_le_spec p : (2 <= length p)%nat -> read_u16_le p = le_combine (take 2 p).
Proof. intros H. rewrite read_u16_le_sum. do 2 uncons p H. digits. Qed.

Lemma read_u32_le_spec p : (4 <= length p)%nat -> read_u32_le p = le_combine (take 4 p).
Proof. intros H. rewrite read_u32_le_sum. do 4 uncons p H. digits. Qed.

Lemma read_u64_le_spec p : (8 <= length p)%nat -> read_u64_le p = le_combine (take 8 p).
Proof. intros H. rewrite read_u64_le_sum. do 8 uncons p H. digits. Qed.

Lemma read_u16_le_range p : 0 <= read_u16_le p < 2 ^ 16.
Proof.
  rewrite read_u16_le_sum. pose proof (byte_at_range p 0). pose proof (byte_at_range p 1). lia.
Qed.

Lemma read_u32_le_range p : 0 <= read_u32_le p < 2 ^ 32.
Proof.
  rewrite read_u32_le_sum.
  pose proof (byte_at_range p 0). pose proof (byte_at_range p 1).
  pose proof (byte_at_range p 2). pose proof (byte_at_range p 3). lia.
Qed.

Lemma read_u64_le_range p : 0 <= read_u64_le p < 2 ^ 64.
Proof.
  rewrite read_u64_le_sum.
  pose proof (byte_at_range p 0). pose proof (byte_at_range p 1).
  pose proof (byte_at_range p 2). pose proof (byte_at_range p 3).
  pose proof (byte_at_range p 4). pose proof (byte_at_range p 5).
  pose proof (byte_at_range p 6). pose proof (byte_at_range p 7). lia.
Qed.

(** ** Round trips, with whatever follows in the stream *)

Lemma read_write_u16 v rest : is_word 16 v -> read_u16_le (write_u16_le v ++ rest) = v.
Proof.
  intros Hv. rewrite read_u16_le_spec by (simpl; lia). rewrite write_u16_le_spec.
  rewrite take_app_length' by (by rewrite length_le_split).
  rewrite le_combine_split. by apply Z.mod_small.
Qed.

Lemma read_write_u32 v rest : is_word 32 v -> read_u32_le (write_u32_le v ++ rest) = v.
Proof.
  intros Hv. rewrite read_u32_le_spec by (simpl; lia). rewrite write_u32_le_spec.
  rewrite take_app_length' by (by rewrite length_le_split).
  rewrite le_combine_split. by apply Z.mod_small.
Qed.

Lemma read_write_u64 v rest : is_word 64 v -> read_u64_le (write_u64_le v ++ rest) = v.
Proof.
  intros Hv. rewrite read_u64_le_spec by (simpl; lia). rewrite write_u64_le_spec.
  rewrite take_app_length' by (by rewrite length_le_split).
  rewrite le_combine_split. by apply Z.mod_small.
Qed.

Lemma read_write_u16' v : is_word 16 v -> read_u16_le (write_u16_le v) = v.
Proof. intros. rewrite <- (app_nil_r (write_u16_le v)). by apply read_write_u16. Qed.

Lemma read_write_u32' v : is_word 32 v -> read_u32_le (write_u32_le v) = v.
Proof. intros. rewrite <- (app_nil_r (write_u32_le v)). by apply read_write_u32. Qed.

Lemma read_write_u64' v : is_word 64 v -> read_u64_le (write_u64_le v) = v.
Proof. intros. rewrite <- (app_nil_r (write_u64_le v)). by apply read_write_u64. Qed.

Lemma write_read_u64 p : length p = 8%nat -> write_u64_le (read_u64_le p) = p.
Proof.
  intros Hp. rewrite write_u64_le_spec, read_u64_le_spec, take_ge by lia.
  rewrite <- Hp. apply le_split_combine.
Qed.

Lemma length_write_u16_le v : length (write_u16_le v) = 2%nat.
Proof. done. Qed.

Lemma length_write_u32_le v : length (write_u32_le v) = 4%nat.
Proof. done. Qed.

Lemma length_write_u64_le v : length (write_u64_le v) = 8%nat.
Proof. done. Qed.

#[export] Hint Rewrite length_write_u16_le length_write_u32_le length_write_u64_le : dicker.
#[export] Hint Resolve read_u16_le_range read_u32_le_range read_u64_le_range : dicker.

#[global] Opaque read_u16_le read_u32_le read_u64_le write_u16_le write_u32_le write_u64_le.

(** The little-endian codecs are mutually inverse. A word written with
    [write_u16_le], [write_u32_le] or [write_u64_le] reads back as itself whatever
    bytes follow it in the buffer, and eight bytes read as a word are written back
    unchanged. *)
Theorem wire_round_trip (v16 v32 v64 : Z) (rest p : bytes) :
  is_word 16 v16 -> is_word 32 v32 -> is_word 64 v64 -> length p = 8%nat ->
  read_u16_le (write_u16_le v16 ++ rest) = v16 /\
  read_u32_le (write_u32_le v32 ++ rest) = v32 /\
  read_u64_le (write_u64_le v64 ++ rest) = v64 /\
  write_u64_le (read_u64_le p) = p.
Proof.
  intros. by rewrite read_write_u16, read_write_u32, read_write_u64, write_read_u64.
Qed.

Lemma wire_round_trip_witness :
  read_u16_le (write_u16_le 0xbeef ++ [x01]) = 0xbeef /\
  read_u32_le (write_u32_le 0xdeadbeef ++ [x01]) = 0xdeadbeef /\
  read_u64_le (write_u64_le 0xfedcba9876543210 ++ [x01]) = 0xfedcba9876543210 /\
  write_u64_le (read_u64_le (str "abcdefgh")) = str "abcdefgh".
Proof. apply wire_round_trip; unfold is_word; first [lia | reflexivity]. Defined.
