(* ===== verification/Protocol.v ===== *)
(** * Protocol constants and enumerations (src/shared/protocol.h)

    Each [enum struct X : std::uint8_t] is an inductive type with the source's
    constructors, its numbers ([x_to_byte], the cast to [std::uint8_t]) and the
    cast from a byte ([x_of_byte], [None] for a byte that names no
    enumerator: the code compares such a value with the enumerators and finds
    it different from all of them). *)

From S2P Require Import Prelude.

Definition kMagic : bytes := str "DKR1".
Definition kProtocolVersion : Z := 2.
Definition kMinProtocolVersion : Z := 1.

Inductive Cmd := Upload.

Inductive CompressionAlgo := AlgoNone | Lz4 | Zstd.

Inductive UnitType := File | Chunk | Probe | Accepted | End.

Inductive ServerMode := ModeAccept | HashFirst.

Inductive ProbeDecision := DecisionAccept | DecisionReject.

Inductive BlockType := EndOfUnit | Data.

Inductive HandshakeFlag := IntegrityChecks.

Inductive HandshakeStatus :=
  Ok | BadMagic | BadVersion | AuthFailed | BadAlgo | ServerError.

#[global] Instance UnitType_eq_dec : EqDecision UnitType.
Proof. solve_decision. Defined.

#[global] Instance CompressionAlgo_eq_dec : EqDecision CompressionAlgo.
Proof. solve_decision. Defined.

#[global] Instance HandshakeStatus_eq_dec : EqDecision HandshakeStatus.
Proof. solve_decision. Defined.

Definition cmd_to_byte (c : Cmd) : byte := match c with Upload => z2b 0x33 end.

Definition cmd_of_byte (b : byte) : option Cmd :=
  if b2z b =? 0x33 then Some Upload else None.

Definition algo_to_byte (a : CompressionAlgo) : byte :=
  match a with AlgoNone => z2b 0 | Lz4 => z2b 1 | Zstd => z2b 2 end.

Definition algo_of_byte (b : byte) : option CompressionAlgo :=
  match b2z b with
  | 0 => Some AlgoNone
  | 1 => Some Lz4
  | 2 => Some Zstd
  | _ => None
  end.

Definition unit_type_to_byte (t : UnitType) : byte :=
  match t with
  | File => z2b 0
  | Chunk => z2b 1
  | Probe => z2b 2
  | Accepted => z2b 3
  | End => z2b 0xFF
  end.

Definition unit_type_of_byte (b : byte) : option UnitType :=
  match b2z b with
  | 0 => Some File
  | 1 => Some Chunk
  | 2 => Some Probe
  | 3 => Some Accepted
  | 255 => Some End
  | _ => None
  end.

Definition mode_bit (m : ServerMode) : Z :=
  match m with ModeAccept => Z.shiftl 1 0 | HashFirst => Z.shiftl 1 1 end.

Definition decision_to_byte (d : ProbeDecision) : byte :=
  match d with DecisionAccept => z2b 0 | DecisionReject => z2b 1 end.

Definition block_type_to_byte (t : BlockType) : byte :=
  match t with EndOfUnit => z2b 0 | Data => z2b 1 end.

Definition block_type_of_byte (b : byte) : option BlockType :=
  match b2z b with
  | 0 => Some EndOfUnit
  | 1 => Some Data
  | _ => None
  end.

Definition flag_bit (f : HandshakeFlag) : Z :=
  match f with IntegrityChecks => Z.shiftl 1 0 end.

Definition status_to_byte (s : HandshakeStatus) : byte :=
  match s with
  | Ok => z2b 0
  | BadMagic => z2b 1
  | BadVersion => z2b 2
  | AuthFailed => z2b 3
  | BadAlgo => z2b 4
  | ServerError => z2b 5
  end.

Definition kSessionIdSize : nat := 16.
Definition kHmacSize : nat := 32.
Definition kHandshakeSignedPrefixSize : nat := length kMagic + 2 + 1 + 1 + kSessionIdSize.
Definition kHandshakeRequestSize : nat := kHandshakeSignedPrefixSize + kHmacSize.
Definition kHandshakeReplySize : nat := length kMagic + 1.
Definition kHandshakeModeSize : nat := 1.
Definition kProbeHashSize : nat := 32.
Definition kProbeReplySize : nat := 1 + 8.
Definition kMaxPathLength : Z := 4096.
Definition kMaxBlockSize : Z := 64 * 1024 * 1024.

Definition has_flag (flags : Z) (flag : HandshakeFlag) : bool :=
  negb (Z.land flags (flag_bit flag) =? 0).

Definition has_mode (mode : Z) (flag : ServerMode) : bool :=
  negb (Z.land mode (mode_bit flag) =? 0).

(** ** Casts *)

Lemma unit_type_of_to_byte t : unit_type_of_byte (unit_type_to_byte t) = Some t.
Proof. by destruct t. Qed.

Lemma unit_type_to_of_byte b t : unit_type_of_byte b = Some t -> unit_type_to_byte t = b.
Proof.
  intros H. apply b2z_inj. unfold unit_type_of_byte in H.
  destruct (b2z b) as [|p|p] eqn:E; [by simplify_eq| |discriminate].
  repeat (destruct p as [p|p|]; try discriminate); by simplify_eq.
Qed.

Lemma algo_of_to_byte a : algo_of_byte (algo_to_byte a) = Some a.
Proof. by destruct a. Qed.

Lemma block_type_of_to_byte t : block_type_of_byte (block_type_to_byte t) = Some t.
Proof. by destruct t. Qed.

Lemma cmd_of_to_byte c : cmd_of_byte (cmd_to_byte c) = Some c.
Proof. by destruct c. Qed.

Lemma status_to_byte_inj s s' : status_to_byte s = status_to_byte s' -> s = s'.
Proof. by destruct s, s'. Qed.

#[export] Hint Rewrite unit_type_of_to_byte algo_of_to_byte block_type_of_to_byte
  cmd_of_to_byte : dicker.
