(* ===== verification/Blocks.v ===== *)
(** * Block absorption

    What SHA-256 and XXH64 share: data is consumed in whole blocks of [n]
    bytes and the rest waits in a buffer. [absorb] is the reference for both
    incremental hashers; its laws say that the way the data is cut does not
    matter. *)

From S2P Require Import Prelude.

Section Blocks.
Context {A : Type}.
Variable n : nat.
Variable step : A -> bytes -> A.
Hypothesis n_pos : (0 < n)%nat.

Fixpoint absorb_fuel (fuel : nat) (st : A) (data : bytes) : A * bytes :=
  match fuel with
  | O => (st, data)
  | S fuel =>
      if (length data <? n)%nat then (st, data)
      else absorb_fuel fuel (step st (take n data)) (drop n data)
  end.

Definition absorb (st : A) (data : bytes) : A * bytes := absorb_fuel (length data) st data.

Lemma absorb_fuel_enough f1 f2 st data :
  (length data <= f1)%nat -> (length data <= f2)%nat ->
  absorb_fuel f1 st data = absorb_fuel f2 st data.
Proof using n_pos.
  revert f2 st data. induction f1 as [|f1 IH]; intros [|f2] st data H1 H2; simpl.
  - done.
  - destruct (Nat.ltb_spec (length data) n); [done|lia].
  - destruct (Nat.ltb_spec (length data) n); [done|lia].
  - destruct (Nat.ltb_spec (length data) n); [done|].
    apply IH; rewrite length_drop; lia.
Qed.

Lemma absorb_short st data : (length data < n)%nat -> absorb st data = (st, data).
Proof using n_pos.
  intros H. unfold absorb. destruct data as [|b data]; [done|]. cbn [length absorb_fuel].
  destruct (Nat.ltb_spec (S (length data)) n); [done|simpl in *; lia].
Qed.

Lemma absorb_long st data :
  (n <= length data)%nat -> absorb st data = absorb (step st (take n data)) (drop n data).
Proof using n_pos.
  intros H. unfold absorb. destruct (length data) as [|k] eqn:E; [lia|].
  cbn [absorb_fuel]. rewrite E. destruct (Nat.ltb_spec (S k) n); [lia|].
  apply absorb_fuel_enough; rewrite length_drop; lia.
Qed.

(** Induction on the number of whole blocks. *)
Lemma absorb_ind (P : A -> bytes -> Prop) :
  (forall st data, (length data < n)%nat -> P st data) ->
  (forall st data, (n <= length data)%nat -> P (step st (take n data)) (drop n data) -> P st data) ->
  forall st data, P st data.
Proof using n_pos.
  intros Hs Hl st data. remember (length data) as k eqn:E. revert st data E.
  induction (lt_wf k) as [k _ IH]. intros st data ->.
  destruct (Nat.lt_ge_cases (length data) n); [by apply Hs|].
  apply Hl; [done|]. eapply IH; [|done]. rewrite length_drop. lia.
Qed.

Lemma absorb_app st a b :
  absorb st (a ++ b) = let '(st', r) := absorb st a in absorb st' (r ++ b).
Proof using n_pos.
  revert st a. apply absorb_ind; intros st a H.
  - by rewrite (absorb_short _ _ H).
  - intros IH. rewrite absorb_long by (rewrite length_app; lia).
    rewrite (absorb_long st a) by done.
    rewrite take_app_le, drop_app_le by done. apply IH.
Qed.

Lemma absorb_rest_length st data :
  (length (absorb st data).2 < n)%nat /\
  length (absorb st data).2 = (length data mod n)%nat.
Proof using n_pos.
  revert st data. apply absorb_ind; intros st data H.
  - rewrite absorb_short by done. simpl. rewrite Nat.mod_small by done. done.
  - intros [IH1 IH2]. rewrite absorb_long by done. split; [done|]. rewrite IH2, length_drop.
    replace (length data) with (length data - n + 1 * n)%nat at 2 by lia.
    by rewrite Nat.Div0.mod_add.
Qed.

(** A remainder in front of a multiple of the block size absorbs to nothing. *)
Lemma absorb_exact st data :
  (length data mod n = 0)%nat -> (absorb st data).2 = [].
Proof using n_pos.
  intros H. destruct (absorb_rest_length st data) as [_ H']. rewrite H in H'.
  by apply nil_length_inv.
Qed.

(** On whole blocks, absorption is a fold over the block indices. *)
Lemma absorb_fold st data k :
  length data = (n * k)%nat ->
  absorb st data =
  (fold_left (fun s i => step s (sub (n * i) n data)) (seq 0 k) st, []).
Proof using n_pos.
  revert st data. induction k as [|k IH]; intros st data Hk.
  - rewrite Nat.mul_0_r in Hk. apply nil_length_inv in Hk as ->. done.
  - rewrite absorb_long by lia. rewrite IH by (rewrite length_drop; lia).
    f_equal. cbn [seq fold_left]. rewrite <- fmap_S_seq.
    rewrite fold_left_map.
    replace (sub (n * 0) n data) with (take n data)
      by (unfold sub; by rewrite Nat.mul_0_r, drop_0).
    apply fold_left_ext_in. intros a i _. f_equal. unfold sub.
    rewrite drop_drop. do 2 f_equal. lia.
Qed.

End Blocks.

Arguments absorb {A} n step st data.
