(* ===== verification/Sha256.v ===== *)
(** * SHA-256 (src/shared/sha256.h)

    The incremental hasher of the source -- a 64-byte buffer, a bit counter
    and eight 32-bit words -- against the one-shot definition of FIPS 180-4:
    message schedule by recurrence, padding as a list of bytes, and a fold over
    the blocks of the padded message. *)

From S2P Require Import Prelude Blocks.

(** ** The source *)

Definition kSha256DigestSize : nat := 32.
Definition kSha256BlockSize : nat := 64.

Definition kRoundConstants : list Z :=
  [0x428A2F98; 0x71374491; 0xB5C0FBCF; 0xE9B5DBA5; 0x3956C25B; 0x59F111F1; 0x923F82A4; 0xAB1C5ED5;
   0xD807AA98; 0x12835B01; 0x243185BE; 0x550C7DC3; 0x72BE5D74; 0x80DEB1FE; 0x9BDC06A7; 0xC19BF174;
   0xE49B69C1; 0xEFBE4786; 0x0FC19DC6; 0x240CA1CC; 0x2DE92C6F; 0x4A7484AA; 0x5CB0A9DC; 0x76F988DA;
   0x983E5152; 0xA831C66D; 0xB00327C8; 0xBF597FC7; 0xC6E00BF3; 0xD5A79147; 0x06CA6351; 0x14292967;
   0x27B70A85; 0x2E1B2138; 0x4D2C6DFC; 0x53380D13; 0x650A7354; 0x766A0ABB; 0x81C2C92E; 0x92722C85;
   0xA2BFE8A1; 0xA81A664B; 0xC24B8B70; 0xC76C51A3; 0xD192E819; 0xD6990624; 0xF40E3585; 0x106AA070;
   0x19A4C116; 0x1E376C08; 0x2748774C; 0x34B0BCB5; 0x391C0CB3; 0x4ED8AA4A; 0x5B9CCA4F; 0x682E6FF3;
   0x748F82EE; 0x78A5636F; 0x84C87814; 0x8CC70208; 0x90BEFFFA; 0xA4506CEB; 0xBEF9A3F7; 0xC67178F2].

Definition rotate_right (value bits : Z) : Z :=
  Z.lor (Z.shiftr value bits) (wrap 32 (Z.shiftl value (32 - bits))).

(** A [std::array] read; every index of the source is in range. *)
Definition word_at (l : list Z) (i : nat) : Z := nth i l 0.

(** The first loop of [process_block]: sixteen big-endian words. *)
Definition load_words (block : bytes) : list Z :=
  map (fun i => Z.lor (Z.lor (Z.lor (Z.shiftl block.[i * 4] 24) (Z.shiftl block.[i * 4 + 1] 16))
                             (Z.shiftl block.[i * 4 + 2] 8)) block.[i * 4 + 3]) (seq 0 16).

(** The second loop: [w[i]] from four earlier words. *)
Definition schedule_step (w : list Z) (i : nat) : list Z :=
  let w15 := word_at w (i - 15) in
  let w2 := word_at w (i - 2) in
  let s0 := Z.lxor (Z.lxor (rotate_right w15 7) (rotate_right w15 18)) (Z.shiftr w15 3) in
  let s1 := Z.lxor (Z.lxor (rotate_right w2 17) (rotate_right w2 19)) (Z.shiftr w2 10) in
  w ++ [wrap 32 (word_at w (i - 16) + s0 + word_at w (i - 7) + s1)].

Definition schedule (block : bytes) : list Z :=
  fold_left schedule_step (seq 16 48) (load_words block).

Record vars := Vars { va : Z; vb : Z; vc : Z; vd : Z; ve : Z; vf : Z; vg : Z; vh : Z }.

(** The body of the 64-round loop. *)
Definition round (w : list Z) (s : vars) (i : nat) : vars :=
  let '(Vars a b c d e f g h) := s in
  let big_s1 := Z.lxor (Z.lxor (rotate_right e 6) (rotate_right e 11)) (rotate_right e 25) in
  let choose := Z.lxor (Z.land e f) (Z.land (wrap 32 (Z.lnot e)) g) in
  let temp1 := wrap 32 (h + big_s1 + choose + word_at kRoundConstants i + word_at w i) in
  let big_s0 := Z.lxor (Z.lxor (rotate_right a 2) (rotate_right a 13)) (rotate_right a 22) in
  let majority := Z.lxor (Z.lxor (Z.land a b) (Z.land a c)) (Z.land b c) in
  let temp2 := wrap 32 (big_s0 + majority) in
  Vars (wrap 32 (temp1 + temp2)) a b c (wrap 32 (d + temp1)) e f g.

Definition vars_of_state (st : list Z) : vars :=
  Vars (word_at st 0) (word_at st 1) (word_at st 2) (word_at st 3)
       (word_at st 4) (word_at st 5) (word_at st 6) (word_at st 7).

Definition process_block (st : list Z) (block : bytes) : list Z :=
  let s := fold_left (round (schedule block)) (seq 0 64) (vars_of_state st) in
  [wrap 32 (word_at st 0 + va s); wrap 32 (word_at st 1 + vb s);
   wrap 32 (word_at st 2 + vc s); wrap 32 (word_at st 3 + vd s);
   wrap 32 (word_at st 4 + ve s); wrap 32 (word_at st 5 + vf s);
   wrap 32 (word_at st 6 + vg s); wrap 32 (word_at st 7 + vh s)].

Record Sha256 := {
  state_ : list Z;
  bit_count_ : Z;
  buffer_ : bytes;
  buffer_len_ : nat;
}.

Definition initial_state : list Z :=
  [0x6a09e667; 0xbb67ae85; 0x3c6ef372; 0xa54ff53a; 0x510e527f; 0x9b05688c; 0x1f83d9ab; 0x5be0cd19].

(** [reset] leaves [buffer_] as it is; a fresh object's buffer is
    uninitialised, so its contents are an argument. *)
Definition reset (s : Sha256) : Sha256 :=
  {| state_ := initial_state; bit_count_ := 0; buffer_ := buffer_ s; buffer_len_ := 0 |}.

Definition new_sha256 (uninit : bytes) : Sha256 :=
  reset {| state_ := []; bit_count_ := 0; buffer_ := uninit; buffer_len_ := 0 |}.

(** One iteration of the [while (len > 0)] loop: the new object and the rest
    of the data. *)
Definition update_step (s : Sha256) (data : bytes) : Sha256 * bytes :=
  let space := (kSha256BlockSize - buffer_len_ s)%nat in
  let tk := if (length data <? space)%nat then length data else space in
  let buf := memcpy (buffer_ s) (buffer_len_ s) (take tk data) in
  let len := (buffer_len_ s + tk)%nat in
  if (len =? kSha256BlockSize)%nat
  then ({| state_ := process_block (state_ s) buf; bit_count_ := bit_count_ s;
           buffer_ := buf; buffer_len_ := 0 |}, drop tk data)
  else ({| state_ := state_ s; bit_count_ := bit_count_ s;
           buffer_ := buf; buffer_len_ := len |}, drop tk data).

Fixpoint update_loop (fuel : nat) (s : Sha256) (data : bytes) : Sha256 :=
  match fuel, data with
  | S fuel, _ :: _ => let '(s, data) := update_step s data in update_loop fuel s data
  | _, _ => s
  end.

Definition update (s : Sha256) (data : bytes) : Sha256 :=
  update_loop (length data)
    {| state_ := state_ s;
       bit_count_ := wrap 64 (bit_count_ s + wrap 64 (Z.of_nat (length data) * 8));
       buffer_ := buffer_ s; buffer_len_ := buffer_len_ s |} data.

(** [while (buffer_len_ != kSha256BlockSize - 8) update(&zero, 1);] *)
Fixpoint pad_loop (fuel : nat) (s : Sha256) : Sha256 :=
  match fuel with
  | O => s
  | S fuel => if (buffer_len_ s =? kSha256BlockSize - 8)%nat then s
              else pad_loop fuel (update s [x00])
  end.

Definition state_bytes (st : list Z) : bytes :=
  flat_map (fun i => be32 (word_at st i)) (seq 0 8).

Definition finish (s : Sha256) : bytes :=
  let total_bits := bit_count_ s in
  let s := update s [z2b 0x80] in
  let s := pad_loop 64 s in
  let s := update s (be64 total_bits) in
  state_bytes (state_ s).

Definition sha256 (uninit : bytes) (data : bytes) : bytes :=
  finish (update (new_sha256 uninit) data).

Example sha256_abc :
  sha256 (repeat x00 64) (str "abc") =
  map z2b [0xba; 0x78; 0x16; 0xbf; 0x8f; 0x01; 0xcf; 0xea; 0x41; 0x41; 0x40; 0xde; 0x5d; 0xae;
           0x22; 0x23; 0xb0; 0x03; 0x61; 0xa3; 0x96; 0x17; 0x7a; 0x9c; 0xb4; 0x10; 0xff; 0x61;
           0xf2; 0x00; 0x15; 0xad].
Proof. vm_compute. reflexivity. Qed.

(** ** FIPS 180-4 *)

Module Fips.

Definition add32 (x y : Z) : Z := wrap 32 (x + y).

Definition ROTR (n x : Z) : Z := Z.lor (Z.shiftr x n) (wrap 32 (Z.shiftl x (32 - n))).
Definition SHR (n x : Z) : Z := Z.shiftr x n.
Definition Ch (x y z : Z) : Z := Z.lxor (Z.land x y) (Z.land (wrap 32 (Z.lnot x)) z).
Definition Maj (x y z : Z) : Z := Z.lxor (Z.lxor (Z.land x y) (Z.land x z)) (Z.land y z).
Definition Sigma0 (x : Z) : Z := Z.lxor (Z.lxor (ROTR 2 x) (ROTR 13 x)) (ROTR 22 x).
Definition Sigma1 (x : Z) : Z := Z.lxor (Z.lxor (ROTR 6 x) (ROTR 11 x)) (ROTR 25 x).
Definition sigma0 (x : Z) : Z := Z.lxor (Z.lxor (ROTR 7 x) (ROTR 18 x)) (SHR 3 x).
Definition sigma1 (x : Z) : Z := Z.lxor (Z.lxor (ROTR 17 x) (ROTR 19 x)) (SHR 10 x).

(** The [t]-th big-endian word of a block. *)
Definition M (block : bytes) (t : nat) : Z :=
  block.[t * 4] * 2 ^ 24 + block.[t * 4 + 1] * 2 ^ 16 + block.[t * 4 + 2] * 2 ^ 8
  + block.[t * 4 + 3].

(** The message schedule, by its recurrence; [S t] is enough fuel for word [t]. *)
Fixpoint W_fuel (fuel : nat) (block : bytes) (t : nat) : Z :=
  match fuel with
  | O => 0
  | S fuel =>
      if (t <? 16)%nat then M block t
      else add32 (add32 (add32 (sigma1 (W_fuel fuel block (t - 2))) (W_fuel fuel block (t - 7)))
                        (sigma0 (W_fuel fuel block (t - 15)))) (W_fuel fuel block (t - 16))
  end.

Definition W (block : bytes) (t : nat) : Z := W_fuel (S t) block t.

Definition K (t : nat) : Z := word_at kRoundConstants t.

Definition compress (block : bytes) (s : vars) (t : nat) : vars :=
  let '(Vars a b c d e f g h) := s in
  let T1 := add32 (add32 (add32 (add32 h (Sigma1 e)) (Ch e f g)) (K t)) (W block t) in
  let T2 := add32 (Sigma0 a) (Maj a b c) in
  Vars (add32 T1 T2) a b c (add32 d T1) e f g.

Definition hash_block (H : list Z) (block : bytes) : list Z :=
  let s := fold_left (compress block) (seq 0 64) (vars_of_state H) in
  zip_with add32 (take 8 H) [va s; vb s; vc s; vd s; ve s; vf s; vg s; vh s].

(** The number of zero bytes: the least [k] with [l + 1 + k = 56] modulo 64. *)
Definition zeros (l : nat) : nat := ((119 - l mod 64) mod 64)%nat.

Definition pad (m : bytes) : bytes :=
  m ++ [x80] ++ repeat x00 (zeros (length m)) ++ be64 (wrap 64 (Z.of_nat (length m) * 8)).

Definition hash (m : bytes) : bytes :=
  state_bytes (fold_left (fun H i => hash_block H (sub (64 * i) 64 (pad m)))
                         (seq 0 (length (pad m) / 64)) initial_state).

End Fips.

(** ** The schedule and the rounds *)

Lemma or_words a b c d :
  0 <= b < 256 -> 0 <= c < 256 -> 0 <= d < 256 ->
  Z.lor (Z.lor (Z.lor (Z.shiftl a 24) (Z.shiftl b 16)) (Z.shiftl c 8)) d =
  a * 2 ^ 24 + b * 2 ^ 16 + c * 2 ^ 8 + d.
Proof.
  intros. rewrite !Z.shiftl_mul_pow2 by lia.
  rewrite (lor_mul_add a (b * 2 ^ 16) 24) by lia.
  replace (a * 2 ^ 24 + b * 2 ^ 16) with ((a * 2 ^ 8 + b) * 2 ^ 16) by lia.
  rewrite (lor_mul_add _ (c * 2 ^ 8) 16) by lia.
  replace ((a * 2 ^ 8 + b) * 2 ^ 16 + c * 2 ^ 8) with (((a * 2 ^ 8 + b) * 2 ^ 8 + c) * 2 ^ 8) by lia.
  rewrite lor_mul_add; lia.
Qed.

Lemma load_words_M block t : (t < 16)%nat -> word_at (load_words block) t = Fips.M block t.
Proof.
  intros Ht. unfold word_at, load_words. apply nth_lookup_Some.
  rewrite list_lookup_fmap, lookup_seq_lt by done. simpl. f_equal.
  apply or_words; apply byte_at_range.
Qed.

Lemma length_schedule_fold block k :
  length (fold_left schedule_step (seq 16 k) (load_words block)) = (16 + k)%nat.
Proof.
  induction k as [|k IH]; [done|].
  rewrite seq_S, fold_left_app. cbn [fold_left]. unfold schedule_step at 1.
  rewrite length_app, IH. simpl. lia.
Qed.

Lemma W_fuel_enough f1 f2 block t :
  (t < f1)%nat -> (t < f2)%nat -> Fips.W_fuel f1 block t = Fips.W_fuel f2 block t.
Proof.
  revert f2 t. induction f1 as [|f1 IH]; intros [|f2] t H1 H2; [lia..|].
  cbn [Fips.W_fuel]. destruct (Nat.ltb_spec t 16); [done|].
  rewrite !(IH f2) by lia. done.
Qed.

Lemma W_step block t :
  (16 <= t)%nat ->
  Fips.W block t = wrap 32 (Fips.W block (t - 16) + Fips.sigma0 (Fips.W block (t - 15))
                            + Fips.W block (t - 7) + Fips.sigma1 (Fips.W block (t - 2))).
Proof.
  intros Ht. unfold Fips.W at 1. cbn [Fips.W_fuel].
  destruct (Nat.ltb_spec t 16); [lia|].
  rewrite (W_fuel_enough t (S (t - 2)) block (t - 2)) by lia.
  rewrite (W_fuel_enough t (S (t - 7)) block (t - 7)) by lia.
  rewrite (W_fuel_enough t (S (t - 15)) block (t - 15)) by lia.
  rewrite (W_fuel_enough t (S (t - 16)) block (t - 16)) by lia.
  unfold Fips.W. change Fips.add32 with (fun x y => wrap 32 (x + y)). cbn beta.
  rewrite !wrap_add_l, !wrap_add_l2. f_equal. lia.
Qed.

Lemma schedule_step_fips w i :
  schedule_step w i =
  w ++ [wrap 32 (word_at w (i - 16) + Fips.sigma0 (word_at w (i - 15))
                 + word_at w (i - 7) + Fips.sigma1 (word_at w (i - 2)))].
Proof. reflexivity. Qed.

Lemma word_at_app_l w w' i : (i < length w)%nat -> word_at (w ++ w') i = word_at w i.
Proof. intros. unfold word_at. by rewrite app_nth1. Qed.

Lemma word_at_snoc w x i : i = length w -> word_at (w ++ [x]) i = x.
Proof. intros ->. unfold word_at. by rewrite app_nth2, Nat.sub_diag by lia. Qed.

(** Entry [t] of the array is word [t] of the recurrence. *)
Lemma schedule_step_W block w t i :
  (forall t, (t < length w)%nat -> word_at w t = Fips.W block t) ->
  i = length w -> (16 <= i)%nat -> (t < S i)%nat ->
  word_at (schedule_step w i) t = Fips.W block t.
Proof.
  intros IH Hi H16 Ht. rewrite schedule_step_fips. destruct (decide (t < i)%nat).
  - rewrite word_at_app_l by lia. apply IH. lia.
  - assert (t = i) as -> by lia. rewrite word_at_snoc by done.
    rewrite (IH (i - 16)%nat), (IH (i - 15)%nat), (IH (i - 7)%nat), (IH (i - 2)%nat) by lia.
    symmetry. by apply W_step.
Qed.

Lemma schedule_W block k t :
  (t < 16 + k)%nat ->
  word_at (fold_left schedule_step (seq 16 k) (load_words block)) t = Fips.W block t.
Proof.
  revert t. induction k as [|k IH]; intros t Ht.
  - cbn [seq fold_left]. rewrite load_words_M by lia. unfold Fips.W. cbn [Fips.W_fuel].
    by destruct (Nat.ltb_spec t 16); [|lia].
  - pose proof (length_schedule_fold block k) as Hlen.
    rewrite seq_S, fold_left_app. cbn [fold_left].
    apply schedule_step_W; [|lia..]. intros t' Ht'. apply IH. lia.
Qed.

Lemma add32_5 a b c d e :
  Fips.add32 (Fips.add32 (Fips.add32 (Fips.add32 a b) c) d) e = wrap 32 (a + b + c + d + e).
Proof.
  change Fips.add32 with (fun x y => wrap 32 (x + y)). cbn beta.
  rewrite !wrap_add_l, ?wrap_add_l2, ?wrap_add_l3. done.
Qed.

Lemma round_compress block s i :
  (i < 64)%nat -> round (schedule block) s i = Fips.compress block s i.
Proof.
  intros Hi. destruct s as [a b c d e f g h]. unfold round, Fips.compress.
  unfold schedule. rewrite schedule_W by done.
  rewrite (add32_5 h (Fips.Sigma1 e) (Fips.Ch e f g) (Fips.K i)).
  unfold Fips.add32, Fips.Sigma0, Fips.Sigma1, Fips.Ch, Fips.Maj, Fips.ROTR, Fips.K,
    rotate_right.
  reflexivity.
Qed.

Lemma process_block_fips st block :
  length st = 8%nat -> process_block st block = Fips.hash_block st block.
Proof.
  intros Hst. unfold process_block, Fips.hash_block.
  rewrite (fold_left_ext_in (round (schedule block)) (Fips.compress block)).
  - do 8 (destruct st as [|? st]; [done|]). by destruct st.
  - intros s i Hi%elem_of_seq. apply round_compress. lia.
Qed.

Lemma length_process_block st block : length (process_block st block) = 8%nat.
Proof. done. Qed.

(** ** The incremental hasher refines block absorption *)

Abbreviation absorb64 := (absorb 64 process_block).

(** [s] has compressed down to [st] and holds [pend] in its buffer. *)
Definition sha_rep (s : Sha256) (st : list Z) (pend : bytes) : Prop :=
  length (buffer_ s) = 64%nat /\ (buffer_len_ s < 64)%nat /\
  state_ s = st /\ take (buffer_len_ s) (buffer_ s) = pend.

Lemma sha_rep_length s st pend : sha_rep s st pend -> buffer_len_ s = length pend.
Proof. intros (? & ? & ? & <-). rewrite length_take. lia. Qed.

Lemma update_step_rep s st pend data :
  sha_rep s st pend -> data <> [] ->
  exists st' pend', sha_rep (update_step s data).1 st' pend' /\
    absorb64 st (pend ++ data) = absorb64 st' (pend' ++ (update_step s data).2) /\
    (length (update_step s data).2 < length data)%nat /\
    bit_count_ (update_step s data).1 = bit_count_ s.
Proof.
  intros Hrep Hdata. pose proof (sha_rep_length _ _ _ Hrep) as Hlen.
  destruct Hrep as (Hbuf & Hlt & <- & Hpend).
  assert (0 < length data)%nat by (destruct data; simpl; [done|lia]).
  unfold update_step, kSha256BlockSize.
  destruct (Nat.ltb_spec (length data) (64 - buffer_len_ s)) as [Hsmall|Hbig].
  - destruct (Nat.eqb_spec (buffer_len_ s + length data) 64); [lia|].
    exists (state_ s), (pend ++ data). rewrite drop_all, take_ge by lia. cbn [fst snd].
    split; [|by rewrite app_nil_r]. repeat split; cbn [buffer_ buffer_len_].
    + rewrite length_memcpy; lia.
    + lia.
    + rewrite take_memcpy by lia. by rewrite Hpend.
  - destruct (Nat.eqb_spec (buffer_len_ s + (64 - buffer_len_ s)) 64); [|lia].
    set (tk := (64 - buffer_len_ s)%nat) in *.
    assert (Htk : length (take tk data) = tk) by (rewrite length_take; lia).
    assert (Hmem : memcpy (buffer_ s) (buffer_len_ s) (take tk data) = pend ++ take tk data).
    { rewrite <- Hpend, <- take_memcpy by lia. symmetry. apply take_ge.
      rewrite length_memcpy; lia. }
    rewrite Hmem. cbn [fst snd].
    exists (process_block (state_ s) (pend ++ take tk data)), [].
    split; [|split; [|split]].
    + repeat split; cbn [buffer_ buffer_len_]; [|lia].
      rewrite length_app. lia.
    + rewrite app_nil_l, (absorb_long 64) by (rewrite ?length_app; lia).
      rewrite take_app, drop_app, take_ge, (drop_ge pend) by lia.
      by replace (64 - length pend)%nat with tk by lia.
    + rewrite length_drop. lia.
    + done.
Qed.

Lemma update_loop_rep fuel s st pend data :
  (length data <= fuel)%nat -> sha_rep s st pend ->
  sha_rep (update_loop fuel s data) (absorb64 st (pend ++ data)).1 (absorb64 st (pend ++ data)).2 /\
  bit_count_ (update_loop fuel s data) = bit_count_ s.
Proof.
  revert s st pend data. induction fuel as [|fuel IH]; intros s st pend data Hf Hrep.
  - apply Nat.le_0_r, nil_length_inv in Hf as ->. rewrite app_nil_r.
    rewrite absorb_short; [done|lia|]. rewrite <- (sha_rep_length _ _ _ Hrep). apply Hrep.
  - destruct data as [|b data].
    + rewrite app_nil_r. rewrite absorb_short; [done|lia|].
      rewrite <- (sha_rep_length _ _ _ Hrep). apply Hrep.
    + destruct (update_step_rep s st pend (b :: data)) as (st' & pend' & Hrep' & -> & Hlt & Hbc);
        [done..|].
      cbn [update_loop]. destruct (update_step s (b :: data)) as [s' rest]. cbn [fst snd] in *.
      rewrite <- Hbc. apply IH; [lia|done].
Qed.

Lemma update_rep s st pend data :
  sha_rep s st pend ->
  sha_rep (update s data) (absorb64 st (pend ++ data)).1 (absorb64 st (pend ++ data)).2 /\
  bit_count_ (update s data) = wrap 64 (bit_count_ s + Z.of_nat (length data) * 8).
Proof.
  intros Hrep. unfold update. rewrite wrap_add_r. by apply update_loop_rep.
Qed.

Lemma pad_loop_rep k fuel s st pend :
  (k <= fuel)%nat -> (k < 64)%nat -> ((length pend + k) mod 64 = 56)%nat ->
  sha_rep s st pend ->
  sha_rep (pad_loop fuel s) (absorb64 st (pend ++ repeat x00 k)).1
                            (absorb64 st (pend ++ repeat x00 k)).2.
Proof.
  revert fuel s st pend. induction k as [|k IH]; intros fuel s st pend Hf Hk Hmod Hrep;
    pose proof (sha_rep_length _ _ _ Hrep) as Hlen; pose proof Hrep as (_ & Hlt & _).
  - rewrite Nat.add_0_r, Nat.mod_small in Hmod by lia.
    cbn [repeat]. rewrite app_nil_r, absorb_short by lia. cbn [fst snd].
    destruct fuel; cbn [pad_loop]; [done|].
    destruct (Nat.eqb_spec (buffer_len_ s) (kSha256BlockSize - 8)); [done|].
    unfold kSha256BlockSize in *. lia.
  - destruct fuel as [|fuel]; [lia|]. cbn [pad_loop].
    destruct (Nat.eqb_spec (buffer_len_ s) (kSha256BlockSize - 8)) as [E|_].
    { unfold kSha256BlockSize in E. exfalso.
      replace (length pend) with 56%nat in Hmod by lia.
      destruct (decide (k < 7)%nat).
      - rewrite Nat.mod_small in Hmod; lia.
      - replace (56 + S k)%nat with (S k - 8 + 1 * 64)%nat in Hmod by lia.
        rewrite Nat.Div0.mod_add, Nat.mod_small in Hmod; lia. }
    destruct (update_rep s st pend [x00] Hrep) as [Hrep' _].
    replace (pend ++ repeat x00 (S k)) with ((pend ++ [x00]) ++ repeat x00 k)
      by (by rewrite <- app_assoc).
    rewrite absorb_app by lia.
    pose proof (absorb_rest_length 64 process_block ltac:(lia) st (pend ++ [x00])) as [_ Hr].
    destruct (absorb64 st (pend ++ [x00])) as [st' pend']. cbn [fst snd] in *.
    apply IH; [lia..| |done]. rewrite Hr, length_app. cbn [length].
    rewrite Nat.Div0.add_mod_idemp_l. etrans; [|exact Hmod]. f_equal. lia.
Qed.

Lemma zeros_spec l : ((l + 1 + Fips.zeros l) mod 64 = 56)%nat /\ (Fips.zeros l < 64)%nat.
Proof.
  unfold Fips.zeros. split; [|apply Nat.mod_upper_bound; lia].
  rewrite Nat.Div0.add_mod_idemp_r.
  pose proof (Nat.mod_upper_bound l 64 ltac:(lia)).
  rewrite (Nat.div_mod_eq l 64) at 1.
  replace (64 * (l / 64) + l mod 64 + 1 + (119 - l mod 64))%nat
    with (120 + (l / 64) * 64)%nat by lia.
  by rewrite Nat.Div0.mod_add.
Qed.

Lemma length_pad m : (length (Fips.pad m) mod 64 = 0)%nat.
Proof.
  unfold Fips.pad. rewrite !length_app, repeat_length. cbn [length].
  destruct (zeros_spec (length m)) as [Hz _].
  replace (length (be64 _)) with 8%nat by done.
  replace (length m + (1 + (Fips.zeros (length m) + 8)))%nat
    with ((length m + 1 + Fips.zeros (length m)) + 8)%nat by lia.
  by rewrite <- Nat.Div0.add_mod_idemp_l, Hz.
Qed.

Lemma new_sha256_rep uninit :
  length uninit = 64%nat -> sha_rep (new_sha256 uninit) initial_state [].
Proof. intros. repeat split; simpl; [done|lia]. Qed.

(** Finishing after any sequence of updates that add up to [m] hashes [m]. *)
Lemma finish_rep s m :
  sha_rep s (absorb64 initial_state m).1 (absorb64 initial_state m).2 ->
  bit_count_ s = wrap 64 (Z.of_nat (length m) * 8) ->
  finish s = state_bytes (absorb64 initial_state (Fips.pad m)).1.
Proof.
  intros Hrep Hbits. unfold finish. rewrite Hbits. f_equal.
  pose proof (absorb_rest_length 64 process_block ltac:(lia) initial_state (m ++ [x80])) as [_ Hr].
  unfold Fips.pad. rewrite !(app_assoc _ _ (_ ++ _)), app_assoc.
  rewrite (absorb_app 64 _ ltac:(lia) _ ((m ++ [x80]) ++ _)), (absorb_app 64 _ ltac:(lia) _ (m ++ [x80])).
  rewrite (absorb_app 64 _ ltac:(lia) _ m [x80]) in Hr |- *.
  destruct (absorb64 initial_state m) as [st0 p0]. cbn [fst snd] in *.
  destruct (update_rep s st0 p0 [z2b 0x80] Hrep) as [Hrep1 _].
  change (z2b 0x80) with x80 in *.
  destruct (absorb64 st0 (p0 ++ [x80])) as [st1 p1]. cbn [fst snd] in *.
  destruct (zeros_spec (length m)) as [Hz Hzlt].
  pose proof (pad_loop_rep (Fips.zeros (length m)) 64 (update s [x80]) st1 p1 ltac:(lia) Hzlt) as Hrep2.
  specialize (Hrep2 ltac:(rewrite Hr, length_app, Nat.Div0.add_mod_idemp_l; exact Hz) Hrep1).
  destruct (absorb64 st1 (p1 ++ repeat x00 (Fips.zeros (length m)))) as [st2 p2].
  cbn [fst snd] in *. by destruct (update_rep _ _ _ (be64 (wrap 64 (Z.of_nat (length m) * 8))) Hrep2)
    as [(_ & _ & -> & _) _].
Qed.

Lemma absorb_fips m :
  absorb64 initial_state (Fips.pad m) =
  (fold_left (fun H i => Fips.hash_block H (sub (64 * i) 64 (Fips.pad m)))
             (seq 0 (length (Fips.pad m) / 64)) initial_state, []).
Proof.
  set (k := (length (Fips.pad m) / 64)%nat).
  assert (Hk : length (Fips.pad m) = (64 * k)%nat).
  { pose proof (length_pad m). pose proof (Nat.div_mod_eq (length (Fips.pad m)) 64). unfold k. lia. }
  rewrite (absorb_fold 64 process_block ltac:(lia) _ _ k Hk). f_equal.
  assert (H : forall l st, length st = 8%nat ->
    fold_left (fun s i => process_block s (sub (64 * i) 64 (Fips.pad m))) l st =
    fold_left (fun H i => Fips.hash_block H (sub (64 * i) 64 (Fips.pad m))) l st).
  { induction l as [|i l IH]; intros st Hst; [done|]. cbn [fold_left].
    rewrite <- process_block_fips by done. by apply IH. }
  by apply H.
Qed.

(** The hasher fed piece by piece. *)
Definition update_all (s : Sha256) (pieces : list bytes) : Sha256 := fold_left update pieces s.

Lemma update_all_rep uninit pieces :
  length uninit = 64%nat ->
  sha_rep (update_all (new_sha256 uninit) pieces)
          (absorb64 initial_state (concat pieces)).1 (absorb64 initial_state (concat pieces)).2 /\
  bit_count_ (update_all (new_sha256 uninit) pieces) =
    wrap 64 (Z.of_nat (length (concat pieces)) * 8).
Proof.
  intros Hu. induction pieces as [|p pieces [IH1 IH2]] using rev_ind.
  - unfold update_all. cbn [fold_left concat]. rewrite absorb_short by (simpl; lia). split; [by apply new_sha256_rep|done].
  - unfold update_all in *. rewrite fold_left_app, concat_app. cbn [fold_left concat].
    rewrite app_nil_r. destruct (update_rep _ _ _ p IH1) as [H1 H2].
    rewrite (absorb_app 64 _ ltac:(lia)).
    destruct (absorb64 initial_state (concat pieces)) as [st r]. split; [exact H1|].
    rewrite H2, IH2, wrap_add_l, length_app. f_equal. lia.
Qed.

Lemma sha256_pieces uninit pieces :
  length uninit = 64%nat ->
  finish (update_all (new_sha256 uninit) pieces) = Fips.hash (concat pieces).
Proof.
  intros Hu. destruct (update_all_rep uninit pieces Hu) as [H1 H2].
  rewrite (finish_rep _ _ H1 H2), absorb_fips. done.
Qed.

Lemma sha256_hash uninit m : length uninit = 64%nat -> sha256 uninit m = Fips.hash m.
Proof.
  intros Hu. pose proof (sha256_pieces uninit [m] Hu) as H. simpl in H. by rewrite app_nil_r in H.
Qed.

Lemma length_state_bytes st : length (state_bytes st) = 32%nat.
Proof. done. Qed.

Lemma length_hash m : length (Fips.hash m) = 32%nat.
Proof. done. Qed.

(** C24: the incremental SHA-256 is the FIPS 180-4 hash. Whatever the buffer holds
    before construction and however the message is cut into [update] calls,
    [finish] gives the FIPS digest of the concatenation. *)
Theorem sha256_is_fips (uninit : bytes) (pieces : list bytes) :
  length uninit = 64%nat ->
  finish (update_all (new_sha256 uninit) pieces) = Fips.hash (concat pieces).
Proof. apply sha256_pieces. Qed.

Lemma sha256_is_fips_witness :
  finish (update_all (new_sha256 (repeat xff 64)) [str "a"; []; str "bc"]) = Fips.hash (str "abc").
Proof. apply (sha256_is_fips (repeat xff 64) [str "a"; []; str "bc"]). reflexivity. Defined.
