(* ===== verification/Hmac.v ===== *)
(** * HMAC-SHA256 and constant-time comparison (src/shared/hmac_sha256.h) *)

From S2P Require Import Prelude Sha256.

(** [^] on a byte. *)
Definition xor_byte (b : byte) (v : Z) : byte := z2b (Z.lxor (b2z b) v).

(** The source's locals are a 64-byte [block_key], the two pads and the
    [inner_digest]; [uninit] is the uninitialised buffer of each hasher. *)
Definition hmac_sha256 (uninit : bytes) (key message : bytes) : bytes :=
  let block_key := repeat x00 kSha256BlockSize in
  let block_key :=
    if (kSha256BlockSize <? length key)%nat
    then memcpy block_key 0 (sha256 uninit key)
    else memcpy block_key 0 key in
  let inner_pad := map (fun i => xor_byte (nth i block_key x00) 0x36) (seq 0 kSha256BlockSize) in
  let outer_pad := map (fun i => xor_byte (nth i block_key x00) 0x5c) (seq 0 kSha256BlockSize) in
  let inner := new_sha256 uninit in
  let inner := update inner inner_pad in
  let inner := update inner message in
  let inner_digest := finish inner in
  let outer := new_sha256 uninit in
  let outer := update outer outer_pad in
  let outer := update outer inner_digest in
  finish outer.

(** [difference |= a[i] ^ b[i]] over the first [len] bytes. *)
Definition constant_time_equal (a b : bytes) (len : nat) : bool :=
  fold_left (fun difference i => Z.lor difference (Z.lxor a.[i] b.[i])) (seq 0 len) 0 =? 0.

(** ** RFC 2104 over the FIPS hash *)

Definition hmac_key (key : bytes) : bytes :=
  let k := if (64 <? length key)%nat then Fips.hash key else key in
  k ++ repeat x00 (64 - length k).

Definition hmac_rfc2104 (key message : bytes) : bytes :=
  let k0 := hmac_key key in
  Fips.hash (map (fun b => xor_byte b 0x5c) k0 ++
             Fips.hash (map (fun b => xor_byte b 0x36) k0 ++ message)).

Lemma map_nth_seq {B} (f : byte -> B) (l : bytes) n :
  length l = n -> map (fun i => f (nth i l x00)) (seq 0 n) = map f l.
Proof.
  intros <-. apply list_eq. intros i.
  rewrite !list_lookup_fmap. destruct (decide (i < length l)%nat) as [Hi|Hi].
  - rewrite lookup_seq_lt by done. destruct (lookup_lt_is_Some_2 l i Hi) as [x Hx].
    rewrite Hx. simpl. by rewrite (nth_lookup_Some _ _ _ _ Hx).
  - rewrite lookup_seq_ge, lookup_ge_None_2 by lia. done.
Qed.

Lemma memcpy_zeros k : (length k <= 64)%nat ->
  memcpy (repeat x00 64) 0 k = k ++ repeat x00 (64 - length k).
Proof.
  intros. unfold memcpy. rewrite take_0, app_nil_l, Nat.add_0_l. f_equal.
  replace 64%nat with (length k + (64 - length k))%nat at 1 by lia.
  rewrite repeat_app. apply drop_app_length'. by rewrite repeat_length.
Qed.

Lemma length_hmac_key key : length (hmac_key key) = 64%nat.
Proof.
  unfold hmac_key. rewrite length_app, repeat_length.
  destruct (Nat.ltb_spec 64 (length key)); [by rewrite length_hash|lia].
Qed.

Lemma hmac_sha256_rfc uninit key message :
  length uninit = 64%nat -> hmac_sha256 uninit key message = hmac_rfc2104 key message.
Proof.
  intros Hu. unfold hmac_sha256, kSha256BlockSize.
  assert (Hk : (if (64 <? length key)%nat then memcpy (repeat x00 64) 0 (sha256 uninit key)
                else memcpy (repeat x00 64) 0 key) = hmac_key key).
  { unfold hmac_key. destruct (Nat.ltb_spec 64 (length key)).
    - rewrite sha256_hash by done. apply memcpy_zeros. rewrite length_hash. lia.
    - by apply memcpy_zeros. }
  rewrite Hk.
  rewrite (map_nth_seq (fun b => xor_byte b 0x36)), (map_nth_seq (fun b => xor_byte b 0x5c))
    by apply length_hmac_key.
  pose proof (sha256_pieces uninit [map (fun b => xor_byte b 0x36) (hmac_key key); message] Hu) as Hi.
  cbn [update_all fold_left concat] in Hi. rewrite app_nil_r in Hi.
  unfold update_all in Hi. cbn [fold_left] in Hi. rewrite Hi.
  pose proof (sha256_pieces uninit [map (fun b => xor_byte b 0x5c) (hmac_key key);
    Fips.hash (map (fun b => xor_byte b 0x36) (hmac_key key) ++ message)] Hu) as Ho.
  unfold update_all in Ho. cbn [fold_left concat] in Ho. rewrite app_nil_r in Ho. exact Ho.
Qed.

Lemma length_hmac uninit key message : length (hmac_sha256 uninit key message) = 32%nat.
Proof. done. Qed.

Lemma lor_fold_zero (f : nat -> Z) l d :
  fold_left (fun d i => Z.lor d (f i)) l d = 0 <-> d = 0 /\ forall i, i ∈ l -> f i = 0.
Proof.
  revert d. induction l as [|x l IH]; intros d; cbn [fold_left].
  - split; [intros ->; split; [done|set_solver]|by intros [-> _]].
  - rewrite IH, Z.lor_eq_0_iff. setoid_rewrite elem_of_cons. naive_solver.
Qed.

Lemma constant_time_equal_spec a b len :
  (len <= length a)%nat -> (len <= length b)%nat ->
  constant_time_equal a b len = true <-> take len a = take len b.
Proof.
  intros Ha Hb. unfold constant_time_equal. rewrite Z.eqb_eq, lor_fold_zero.
  split.
  - intros [_ H]. apply list_eq. intros i. destruct (decide (i < len)%nat) as [Hi|Hi].
    + rewrite !lookup_take_lt by done.
      destruct (lookup_lt_is_Some_2 a i ltac:(lia)) as [x Hx].
      destruct (lookup_lt_is_Some_2 b i ltac:(lia)) as [y Hy].
      specialize (H i ltac:(apply elem_of_seq; lia)).
      rewrite (byte_at_lookup _ _ _ Hx), (byte_at_lookup _ _ _ Hy) in H.
      apply Z.lxor_eq, b2z_inj in H. congruence.
    + by rewrite !lookup_take_ge by lia.
  - intros H. split; [done|]. intros i [_ Hi]%elem_of_seq. simpl in Hi.
    unfold byte_at. rewrite !nth_lookup.
    rewrite <- (lookup_take_lt a len i), <- (lookup_take_lt b len i), H by done.
    apply Z.lxor_nilpotent.
Qed.

Lemma constant_time_equal_iff a b len :
  length a = len -> length b = len -> constant_time_equal a b len = true <-> a = b.
Proof.
  intros Ha Hb. rewrite constant_time_equal_spec by lia. by rewrite !take_ge by lia.
Qed.

(** The MAC both sides compute; by [hmac_sha256_rfc] the uninitialised buffers
    do not matter. *)
Definition hmac (key message : bytes) : bytes := hmac_sha256 (repeat x00 64) key message.

Lemma hmac_uninit uninit key message :
  length uninit = 64%nat -> hmac_sha256 uninit key message = hmac key message.
Proof. intros. unfold hmac. by rewrite !hmac_sha256_rfc. Qed.

Lemma hmac_length key message : length (hmac key message) = kSha256DigestSize.
Proof. done. Qed.

#[global] Opaque hmac.

(** [hmac_sha256] is the HMAC of RFC 2104 over SHA-256, for keys of every
    length and whatever the hashers' buffers hold before construction. *)
Theorem hmac_sha256_is_rfc2104 (uninit key message : bytes) :
  length uninit = 64%nat -> hmac_sha256 uninit key message = hmac_rfc2104 key message.
Proof. apply hmac_sha256_rfc. Qed.

Lemma hmac_sha256_is_rfc2104_witness :
  hmac_sha256 (repeat xff 64) (repeat x6b 100) (str "msg") = hmac_rfc2104 (repeat x6b 100) (str "msg").
Proof. apply hmac_sha256_is_rfc2104. reflexivity. Defined.

(** [constant_time_equal] decides equality of the compared bytes although it
    never branches on them. *)
Theorem constant_time_equal_decides (a b : bytes) (len : nat) :
  (len <= length a)%nat -> (len <= length b)%nat ->
  constant_time_equal a b len = true <-> take len a = take len b.
Proof. apply constant_time_equal_spec. Qed.

Lemma constant_time_equal_decides_witness :
  constant_time_equal (str "abcX") (str "abcY") 3 = true <->
  take 3 (str "abcX") = take 3 (str "abcY").
Proof. apply constant_time_equal_decides; simpl; lia. Defined.
