(* ===== verification/XXHash.v ===== *)
(** * XXH64 (src/shared/xxhash.h)

    The checksum of the integrity option: the streaming interface
    ([XXH64_reset], [XXH64_update], [XXH64_digest]) that the client's worker and
    the server's unit sink call, and the one-shot [XXH64] that the protocol
    document names. *)

From S2P Require Import Prelude Wire Blocks.

Definition XXH_PRIME64_1 : Z := 0x9E3779B185EBCA87.
Definition XXH_PRIME64_2 : Z := 0xC2B2AE3D27D4EB4F.
Definition XXH_PRIME64_3 : Z := 0x165667B19E3779F9.
Definition XXH_PRIME64_4 : Z := 0x85EBCA77C2B2AE63.
Definition XXH_PRIME64_5 : Z := 0x27D4EB2F165667C5.

Definition XXH_rotl64 (x r : Z) : Z :=
  Z.lor (wrap 64 (Z.shiftl x r)) (Z.shiftr x (64 - r)).

(** The byte-shift loads are the ones of the wire format. *)
Definition XXH_readLE64 (p : bytes) : Z := read_u64_le p.
Definition XXH_readLE32 (p : bytes) : Z := read_u32_le p.

Definition XXH64_round (acc input : Z) : Z :=
  let acc := wrap 64 (acc + wrap 64 (input * XXH_PRIME64_2)) in
  let acc := XXH_rotl64 acc 31 in
  wrap 64 (acc * XXH_PRIME64_1).

Definition XXH64_mergeRound (acc val : Z) : Z :=
  let val := XXH64_round 0 val in
  let acc := Z.lxor acc val in
  wrap 64 (wrap 64 (acc * XXH_PRIME64_1) + XXH_PRIME64_4).

Definition XXH64_avalanche (hash : Z) : Z :=
  let hash := Z.lxor hash (Z.shiftr hash 33) in
  let hash := wrap 64 (hash * XXH_PRIME64_2) in
  let hash := Z.lxor hash (Z.shiftr hash 29) in
  let hash := wrap 64 (hash * XXH_PRIME64_3) in
  Z.lxor hash (Z.shiftr hash 32).

(** The three loops of [XXH64_finalize]. At most 31 bytes are left, so four
    iterations of the first and of the last are enough. *)
Fixpoint finalize8 (fuel : nat) (hash : Z) (ptr : bytes) (len : nat) : Z * bytes * nat :=
  match fuel with
  | O => (hash, ptr, len)
  | S fuel =>
      if (8 <=? len)%nat then
        let k1 := XXH64_round 0 (XXH_readLE64 ptr) in
        let hash := Z.lxor hash k1 in
        let hash := wrap 64 (wrap 64 (XXH_rotl64 hash 27 * XXH_PRIME64_1) + XXH_PRIME64_4) in
        finalize8 fuel hash (drop 8 ptr) (len - 8)
      else (hash, ptr, len)
  end.

Definition finalize4 (hash : Z) (ptr : bytes) (len : nat) : Z * bytes * nat :=
  if (4 <=? len)%nat then
    let hash := Z.lxor hash (wrap 64 (XXH_readLE32 ptr * XXH_PRIME64_1)) in
    let hash := wrap 64 (wrap 64 (XXH_rotl64 hash 23 * XXH_PRIME64_2) + XXH_PRIME64_3) in
    (hash, drop 4 ptr, (len - 4)%nat)
  else (hash, ptr, len).

Fixpoint finalize1 (fuel : nat) (hash : Z) (ptr : bytes) (len : nat) : Z :=
  match fuel with
  | O => hash
  | S fuel =>
      if (0 <? len)%nat then
        let hash := Z.lxor hash (wrap 64 (ptr.[0] * XXH_PRIME64_5)) in
        let hash := wrap 64 (XXH_rotl64 hash 11 * XXH_PRIME64_1) in
        finalize1 fuel hash (drop 1 ptr) (len - 1)
      else hash
  end.

Definition XXH64_finalize (hash : Z) (ptr : bytes) (len : Z) : Z :=
  let len := Z.to_nat (Z.land len 31) in
  let '(hash, ptr, len) := finalize8 4 hash ptr len in
  let '(hash, ptr, len) := finalize4 hash ptr len in
  XXH64_avalanche (finalize1 4 hash ptr len).

(** ** One-shot *)

Definition lanes := (Z * Z * Z * Z)%type.

(** Four rounds over the 32 bytes at [p]. *)
Definition rounds4 (v : lanes) (p : bytes) : lanes :=
  let '(v1, v2, v3, v4) := v in
  (XXH64_round v1 (XXH_readLE64 p), XXH64_round v2 (XXH_readLE64 (drop 8 p)),
   XXH64_round v3 (XXH_readLE64 (drop 16 p)), XXH64_round v4 (XXH_readLE64 (drop 24 p))).

(** [do ... while] over whole 32-byte stripes: the lanes and what is left. *)
Fixpoint stripes (fuel : nat) (v : lanes) (p : bytes) : lanes * bytes :=
  match fuel with
  | O => (v, p)
  | S fuel =>
      let v := rounds4 v p in
      let p := drop 32 p in
      if (32 <=? length p)%nat then stripes fuel v p else (v, p)
  end.

Definition initial_lanes (seed : Z) : lanes :=
  (wrap 64 (wrap 64 (seed + XXH_PRIME64_1) + XXH_PRIME64_2), wrap 64 (seed + XXH_PRIME64_2),
   wrap 64 (seed + 0), wrap 64 (seed - XXH_PRIME64_1)).

Definition merge_lanes (v : lanes) : Z :=
  let '(v1, v2, v3, v4) := v in
  let h64 := wrap 64 (XXH_rotl64 v1 1 + XXH_rotl64 v2 7 + XXH_rotl64 v3 12 + XXH_rotl64 v4 18) in
  let h64 := XXH64_mergeRound h64 v1 in
  let h64 := XXH64_mergeRound h64 v2 in
  let h64 := XXH64_mergeRound h64 v3 in
  XXH64_mergeRound h64 v4.

Definition XXH64_endian_align (input : bytes) (seed : Z) : Z :=
  let len := Z.of_nat (length input) in
  let '(h64, rest) :=
    if (32 <=? length input)%nat then
      let '(v, rest) := stripes (length input) (initial_lanes seed) input in
      (merge_lanes v, rest)
    else (wrap 64 (seed + XXH_PRIME64_5), input) in
  let h64 := wrap 64 (h64 + wrap 64 len) in
  XXH64_finalize h64 rest len.

Definition XXH64 (input : bytes) (seed : Z) : Z := XXH64_endian_align input seed.

(** ** Streaming *)

Record XXH64_state := {
  total_len : Z;
  v : lanes;
  mem64 : bytes;
  memsize : nat;
}.

Definition XXH64_reset (seed : Z) : XXH64_state :=
  {| total_len := 0; v := initial_lanes seed; mem64 := repeat x00 32; memsize := 0 |}.

Definition XXH64_update (state : XXH64_state) (input : bytes) : XXH64_state :=
  let len := length input in
  let total := wrap 64 (total_len state + Z.of_nat len) in
  if (memsize state + len <? 32)%nat then
    {| total_len := total; v := v state;
       mem64 := memcpy (mem64 state) (memsize state) input;
       memsize := memsize state + len |}
  else
    let '(vs, mem, size, p) :=
      if (memsize state =? 0)%nat then (v state, mem64 state, memsize state, input)
      else
        let fill := (32 - memsize state)%nat in
        let mem := memcpy (mem64 state) (memsize state) (take fill input) in
        (rounds4 (v state) mem, mem, 0%nat, drop fill input) in
    let '(vs, p) := if (32 <=? length p)%nat then stripes (length p) vs p else (vs, p) in
    if (0 <? length p)%nat then
      {| total_len := total; v := vs; mem64 := memcpy mem 0 p; memsize := length p |}
    else {| total_len := total; v := vs; mem64 := mem; memsize := size |}.

Definition XXH64_digest (state : XXH64_state) : Z :=
  let h64 :=
    if 32 <=? total_len state then merge_lanes (v state)
    else wrap 64 ((v state).1.2 + XXH_PRIME64_5) in
  let h64 := wrap 64 (h64 + total_len state) in
  XXH64_finalize h64 (mem64 state) (total_len state).

Example XXH64_empty : XXH64 [] 0 = 0xEF46DB3751D8E999.
Proof. vm_compute. reflexivity. Qed.

Example XXH64_long :
  XXH64 (str "Nobody inspects the spammish repetition") 0 = 0xFBCEA83C8A378BF1.
Proof. vm_compute. reflexivity. Qed.

(** ** Reads stay inside the bytes that count *)

Lemma read64_take n p : (8 <= n)%nat -> (8 <= length p)%nat ->
  XXH_readLE64 (take n p) = XXH_readLE64 p.
Proof.
  intros. unfold XXH_readLE64. rewrite !read_u64_le_spec by (rewrite ?length_take; lia).
  by rewrite take_take, Nat.min_l by lia.
Qed.

Lemma read32_take n p : (4 <= n)%nat -> (4 <= length p)%nat ->
  XXH_readLE32 (take n p) = XXH_readLE32 p.
Proof.
  intros. unfold XXH_readLE32. rewrite !read_u32_le_spec by (rewrite ?length_take; lia).
  by rewrite take_take, Nat.min_l by lia.
Qed.

Lemma rounds4_take vs p : (32 <= length p)%nat -> rounds4 vs (take 32 p) = rounds4 vs p.
Proof.
  intros. destruct vs as [[[v1 v2] v3] v4]. unfold rounds4.
  rewrite !skipn_firstn_comm.
  rewrite !read64_take by (rewrite ?length_drop; lia). done.
Qed.

Lemma finalize8_take fuel hash p len :
  (len <= length p)%nat ->
  finalize8 fuel hash (take len p) len =
  let '(h, q, l) := finalize8 fuel hash p len in (h, take l q, l).
Proof.
  revert hash p len. induction fuel as [|fuel IH]; intros hash p len Hp; cbn [finalize8]; [done|].
  destruct (Nat.leb_spec 8 len); [|done].
  rewrite read64_take by lia. rewrite skipn_firstn_comm.
  apply IH. rewrite length_drop. lia.
Qed.

Lemma finalize8_length fuel hash p len :
  (len <= length p)%nat ->
  let '(_, q, l) := finalize8 fuel hash p len in (l <= length q)%nat.
Proof.
  revert hash p len. induction fuel as [|fuel IH]; intros hash p len Hp; cbn [finalize8]; [done|].
  destruct (Nat.leb_spec 8 len); [|done]. apply IH. rewrite length_drop. lia.
Qed.

Lemma finalize1_take fuel hash p len :
  (len <= length p)%nat -> finalize1 fuel hash (take len p) len = finalize1 fuel hash p len.
Proof.
  revert hash p len. induction fuel as [|fuel IH]; intros hash p len Hp; cbn [finalize1]; [done|].
  destruct (Nat.ltb_spec 0 len); [|done]. rewrite skipn_firstn_comm.
  replace ((take len p).[0]) with (p.[0]); [apply IH; rewrite length_drop; lia|].
  unfold byte_at. destruct p, len; simpl in *; done || lia.
Qed.

(** The tail hash depends on the first [len mod 32] bytes only. *)
Lemma finalize_take hash p len :
  (Z.to_nat (len mod 32) <= length p)%nat ->
  XXH64_finalize hash p len = XXH64_finalize hash (take (Z.to_nat (len mod 32)) p) len.
Proof.
  intros Hp. unfold XXH64_finalize. change 31 with (Z.ones 5).
  rewrite land_ones_wrap by lia. unfold wrap. change (2 ^ 5) with 32.
  rewrite finalize8_take by done.
  pose proof (finalize8_length 4 hash p _ Hp) as Hl.
  destruct (finalize8 4 hash p _) as [[h q] l]. unfold finalize4.
  destruct (Nat.leb_spec 4 l).
  - rewrite read32_take by lia. rewrite skipn_firstn_comm.
    by rewrite finalize1_take by (rewrite length_drop; lia).
  - by rewrite finalize1_take by lia.
Qed.

(** ** The stripes are block absorption *)

Abbreviation absorb32 := (absorb 32 rounds4).

Lemma stripes_absorb fuel vs p :
  (length p <= fuel)%nat -> (32 <= length p)%nat -> stripes fuel vs p = absorb32 vs p.
Proof.
  revert vs p. induction fuel as [|fuel IH]; intros vs p Hf Hp; [lia|]. cbn [stripes].
  rewrite absorb_long, rounds4_take by lia.
  destruct (Nat.leb_spec 32 (length (drop 32 p))) as [H|H].
  - apply IH; [|done]. rewrite length_drop. lia.
  - by rewrite absorb_short by lia.
Qed.

(** The guarded loop of both interfaces. *)
Lemma stripes_guarded vs p :
  (if (32 <=? length p)%nat then stripes (length p) vs p else (vs, p)) = absorb32 vs p.
Proof.
  destruct (Nat.leb_spec 32 (length p)); [by apply stripes_absorb|].
  by rewrite absorb_short by lia.
Qed.

Definition xxh_rep (s : XXH64_state) (vs : lanes) (pend : bytes) (total : Z) : Prop :=
  length (mem64 s) = 32%nat /\ (memsize s < 32)%nat /\ v s = vs /\
  take (memsize s) (mem64 s) = pend /\ total_len s = wrap 64 total.

Lemma xxh_rep_length s vs pend total : xxh_rep s vs pend total -> memsize s = length pend.
Proof. intros (? & ? & ? & <- & _). rewrite length_take. lia. Qed.

(** Storing what the loop left, in an otherwise empty buffer. *)
Lemma store_rest_rep total vs mem size p :
  length mem = 32%nat -> (length p < 32)%nat -> size = 0%nat ->
  xxh_rep (if (0 <? length p)%nat
           then {| total_len := wrap 64 total; v := vs; mem64 := memcpy mem 0 p; memsize := length p |}
           else {| total_len := wrap 64 total; v := vs; mem64 := mem; memsize := size |})
          vs p total.
Proof.
  intros Hm Hp ->. destruct (Nat.ltb_spec 0 (length p)).
  - repeat split; cbn [mem64 memsize]; [|done|].
    + rewrite length_memcpy; lia.
    + pose proof (take_memcpy mem 0 p ltac:(lia)) as H'. by rewrite Nat.add_0_l in H'.
  - destruct p; [|simpl in *; lia]. repeat split; simpl; [done|lia].
Qed.

Lemma XXH64_update_rep s vs pend total data :
  xxh_rep s vs pend total ->
  xxh_rep (XXH64_update s data) (absorb32 vs (pend ++ data)).1 (absorb32 vs (pend ++ data)).2
          (total + Z.of_nat (length data)).
Proof.
  intros Hrep. pose proof (xxh_rep_length _ _ _ _ Hrep) as Hlen.
  destruct Hrep as (Hmem & Hlt & <- & Hpend & Htot).
  unfold XXH64_update. rewrite Htot, wrap_add_l.
  destruct (Nat.ltb_spec (memsize s + length data) 32) as [Hs|Hb].
  - rewrite absorb_short by (rewrite ?length_app; lia).
    repeat split; cbn [mem64 memsize fst snd]; [|done|].
    + rewrite length_memcpy; lia.
    + rewrite take_memcpy by lia. by rewrite Hpend.
  - destruct (Nat.eqb_spec (memsize s) 0) as [Hz|Hnz].
    + destruct pend; [|simpl in *; lia]. rewrite app_nil_l, stripes_guarded.
      pose proof (absorb_rest_length 32 rounds4 ltac:(lia) (v s) data) as [Hr _].
      destruct (absorb32 (v s) data) as [vs p]. by apply store_rest_rep.
    + rewrite stripes_guarded. set (fill := (32 - memsize s)%nat).
      assert (Hfill : length (take fill data) = fill) by (rewrite length_take; lia).
      assert (Hcp : memcpy (mem64 s) (memsize s) (take fill data) = pend ++ take fill data).
      { rewrite <- Hpend, <- take_memcpy by lia. symmetry. apply take_ge.
        rewrite length_memcpy; lia. }
      rewrite Hcp, (absorb_long 32 rounds4 ltac:(lia) (v s) (pend ++ data))
        by (rewrite length_app; lia).
      rewrite take_app, drop_app, (take_ge pend), (drop_ge pend), app_nil_l by lia.
      replace (32 - length pend)%nat with fill by lia.
      pose proof (absorb_rest_length 32 rounds4 ltac:(lia) (rounds4 (v s) (pend ++ take fill data))
        (drop fill data)) as [Hr _].
      destruct (absorb32 _ (drop fill data)) as [vs p]. apply store_rest_rep; [|done..].
      rewrite length_app. lia.
Qed.

Definition XXH64_update_all (s : XXH64_state) (pieces : list bytes) : XXH64_state :=
  fold_left XXH64_update pieces s.

Lemma XXH64_update_all_rep seed pieces :
  xxh_rep (XXH64_update_all (XXH64_reset seed) pieces)
          (absorb32 (initial_lanes seed) (concat pieces)).1
          (absorb32 (initial_lanes seed) (concat pieces)).2
          (Z.of_nat (length (concat pieces))).
Proof.
  induction pieces as [|p pieces IH] using rev_ind.
  - unfold XXH64_update_all. cbn [fold_left concat]. rewrite absorb_short by (simpl; lia).
    repeat split; simpl; lia.
  - unfold XXH64_update_all in *. rewrite fold_left_app, concat_app. cbn [fold_left concat].
    rewrite app_nil_r. apply (XXH64_update_rep _ _ _ _ p) in IH.
    rewrite (absorb_app 32 _ ltac:(lia)), length_app, Nat2Z.inj_add.
    by destruct (absorb32 (initial_lanes seed) (concat pieces)).
Qed.

(** Streaming in any pieces computes the one-shot hash of their concatenation. *)
Lemma XXH64_streaming seed pieces :
  is_word 64 seed -> Z.of_nat (length (concat pieces)) < 2 ^ 64 ->
  XXH64_digest (XXH64_update_all (XXH64_reset seed) pieces) = XXH64 (concat pieces) seed.
Proof.
  intros Hseed Hlen. pose proof (XXH64_update_all_rep seed pieces) as Hrep.
  pose proof (absorb_rest_length 32 rounds4 ltac:(lia) (initial_lanes seed) (concat pieces)) as [Hr1 Hr2].
  pose proof (xxh_rep_length _ _ _ _ Hrep) as Hms.
  destruct Hrep as (Hmem & Hlt & Hv & Hpend & Htot).
  set (m := concat pieces) in *. set (s := XXH64_update_all _ _) in *.
  assert (Htl : total_len s = Z.of_nat (length m)) by (rewrite Htot; apply wrap_small; split; lia).
  assert (Hmod : Z.to_nat (Z.of_nat (length m) mod 32) = memsize s).
  { rewrite Hms, Hr2. change 32 with (Z.of_nat 32). by rewrite <- Nat2Z.inj_mod, Nat2Z.id. }
  unfold XXH64_digest, XXH64, XXH64_endian_align.
  rewrite finalize_take by (rewrite Htl, Hmod; lia). rewrite Htl, Hmod, Hpend, Hv.
  rewrite (wrap_small 64 (Z.of_nat (length m))) by (split; lia).
  destruct (Nat.leb_spec 32 (length m)) as [Hge|Hlt32].
  - rewrite stripes_absorb by lia.
    destruct (absorb32 (initial_lanes seed) m) as [vs rest]. cbn [fst snd] in *.
    by destruct (Z.leb_spec 32 (Z.of_nat (length m))); [|lia].
  - rewrite absorb_short in * by lia. cbn [fst snd] in *.
    destruct (Z.leb_spec 32 (Z.of_nat (length m))); [lia|].
    do 2 f_equal. unfold initial_lanes. cbn [fst snd]. by rewrite wrap_add_l, Z.add_0_r.
Qed.

Lemma XXH64_avalanche_range h : is_word 64 (XXH64_avalanche h).
Proof.
  unfold XXH64_avalanche. cbv zeta. set (x := wrap 64 (_ * XXH_PRIME64_3)).
  assert (Hx : 0 <= x < 2 ^ 64) by (by apply wrap_range).
  assert (H0 : 0 <= Z.lxor x (Z.shiftr x 32)).
  { apply Z.lxor_nonneg. rewrite Z.shiftr_nonneg. lia. }
  split; [done|]. apply Z.bounded_iff_bits_nonneg; [lia|done|]. intros l Hl.
  rewrite Z.lxor_spec, Z.shiftr_spec by lia.
  by rewrite !(proj1 (Z.bounded_iff_bits_nonneg 64 x ltac:(lia) ltac:(lia)) (proj2 Hx)) by lia.
Qed.

Lemma XXH64_digest_range s : is_word 64 (XXH64_digest s).
Proof.
  unfold XXH64_digest, XXH64_finalize. destruct (finalize8 _ _ _ _) as [[? ?] ?].
  destruct (finalize4 _ _ _) as [[? ?] ?]. apply XXH64_avalanche_range.
Qed.

(** C25: the streaming XXH64 of the upload path (reset, any number of updates,
    digest) computes the one-shot hash of the concatenated pieces, for inputs
    below [2^64] bytes. *)
Theorem XXH64_streaming_one_shot (seed : Z) (pieces : list bytes) :
  is_word 64 seed -> Z.of_nat (length (concat pieces)) < 2 ^ 64 ->
  XXH64_digest (XXH64_update_all (XXH64_reset seed) pieces) = XXH64 (concat pieces) seed.
Proof. apply XXH64_streaming. Qed.

Lemma XXH64_streaming_one_shot_witness :
  XXH64_digest (XXH64_update_all (XXH64_reset 0) [repeat x61 20; repeat x62 30]) =
  XXH64 (concat [repeat x61 20; repeat x62 30]) 0.
Proof. apply XXH64_streaming_one_shot; [split; lia|]. vm_compute. reflexivity. Defined.
