(* ===== verification/Handshake.v ===== *)
(** * The handshake (src/server/handshake.cxx, src/client/worker.h)

    The 56-byte request the client builds ([handshake]) and the server checks
    ([parse_and_verify_handshake]), the reply the server sends and the client
    reads, and the session id's hexadecimal name. *)

From S2P Require Import Prelude Wire Protocol Sha256 Hmac.

(** ** Server side *)

Record HandshakeRequest := {
  version : Z;
  flags : Z;
  algo : option CompressionAlgo;
  session_id : bytes;
}.

Definition magic_matches (buffer : bytes) : bool :=
  bool_decide (take (length kMagic) buffer = kMagic).

Definition algo_supported (a : option CompressionAlgo) : bool :=
  match a with Some Lz4 => true | Some Zstd => true | _ => false end.

(** The output parameter is the second component: the caller's value when the
    function returns before filling it in. *)
Definition parse_and_verify_handshake (buffer key : bytes) (out : HandshakeRequest) :
  HandshakeStatus * HandshakeRequest :=
  if negb (magic_matches buffer) then (BadMagic, out)
  else
    let expected_hmac := hmac key (take kHandshakeSignedPrefixSize buffer) in
    let provided_hmac := drop kHandshakeSignedPrefixSize buffer in
    if negb (constant_time_equal expected_hmac provided_hmac kHmacSize) then (AuthFailed, out)
    else
      let version := read_u16_le (drop (length kMagic) buffer) in
      if (version <? kMinProtocolVersion) || (kProtocolVersion <? version) then (BadVersion, out)
      else
        let out := {| version := version;
                      flags := buffer.[length kMagic + 2];
                      algo := algo_of_byte (nth (length kMagic + 2 + 1) buffer x00);
                      session_id := sub (length kMagic + 2 + 2) kSessionIdSize buffer |} in
        if negb (algo_supported (algo out)) then (BadAlgo, out) else (Ok, out).

Definition hex_digits : bytes := str "0123456789abcdef".

Definition hex_digit (n : Z) : byte := nth (Z.to_nat n) hex_digits x00.

(** The two digits of a byte, shared by every hexadecimal printer of the source. *)
Definition hex_byte (b : byte) : bytes :=
  [hex_digit (Z.shiftr (b2z b) 4); hex_digit (Z.land (b2z b) 0x0f)].

Definition session_id_to_hex (session_id : bytes) : bytes := flat_map hex_byte session_id.

(** [Connection::send_handshake_reply]: the bytes of the reply. *)
Definition handshake_reply (status : HandshakeStatus) (protocol_version mode : Z) : bytes :=
  kMagic ++ [status_to_byte status] ++
  (if bool_decide (status = Ok) && (2 <=? protocol_version) then [z2b mode] else []).

(** ** Client side *)

(** [Worker::handshake]: the request, with the command byte behind it. *)
Definition handshake (version : Z) (flags : Z) (algo : CompressionAlgo)
    (sessionId key : bytes) : bytes :=
  let out := kMagic in
  let out := out ++ write_u16_le version in
  let out := out ++ [z2b flags] in
  let out := out ++ [algo_to_byte algo] in
  let out := out ++ sessionId in
  let mac := hmac key out in
  let out := out ++ take kHmacSize mac in
  out ++ [cmd_to_byte Upload].

(** ** Layout of a request *)

Section Request.
Variables (v : Z) (f : Z) (a : CompressionAlgo) (sid key : bytes).
Hypothesis v_word : is_word 16 v.
Hypothesis f_byte : 0 <= f < 256.
Hypothesis sid_length : length sid = kSessionIdSize.

Definition signed_prefix : bytes :=
  kMagic ++ write_u16_le v ++ [z2b f] ++ [algo_to_byte a] ++ sid.

Lemma handshake_layout rest :
  handshake v f a sid key ++ rest =
  signed_prefix ++ hmac key signed_prefix ++ cmd_to_byte Upload :: rest.
Proof using Type.
  unfold handshake, signed_prefix. rewrite !take_ge by (rewrite hmac_length; done).
  rewrite <- !app_assoc. done.
Qed.

Lemma length_signed_prefix : length signed_prefix = kHandshakeSignedPrefixSize.
Proof using sid_length. unfold signed_prefix. rewrite !length_app, sid_length. done. Qed.
End Request.

Lemma byte_at_app_r p q i : byte_at (p ++ q) (length p + i) = byte_at q i.
Proof. unfold byte_at. rewrite app_nth2_plus. done. Qed.

Lemma nth_app_length (p : bytes) b q d : nth (length p) (p ++ b :: q) d = b.
Proof. by rewrite nth_middle. Qed.

Lemma algo_supported_inv a :
  algo_supported a = true <-> a = Some Lz4 \/ a = Some Zstd.
Proof. destruct a as [[]|]; simpl; naive_solver. Qed.

(** What a well-formed request parses to, whatever bytes follow it. *)
Lemma parse_request v f a sid key out tail :
  is_word 16 v -> kMinProtocolVersion <= v <= kProtocolVersion -> 0 <= f < 256 ->
  length sid = kSessionIdSize -> algo_supported (Some a) = true ->
  parse_and_verify_handshake (signed_prefix v f a sid ++ hmac key (signed_prefix v f a sid) ++ tail) key out =
  (Ok, {| version := v; flags := f; algo := Some a; session_id := sid |}).
Proof.
  intros Hv Hver Hf Hsid Ha.
  pose proof (length_signed_prefix v f a sid Hsid) as Hlen. set (mac := hmac key (signed_prefix v f a sid)).
  unfold parse_and_verify_handshake.
  replace (magic_matches _) with true.
  2: { symmetry. apply bool_decide_eq_true. unfold signed_prefix. by rewrite <- !app_assoc. }
  rewrite take_app_length', drop_app_length' by done. cbn [negb].
  replace (constant_time_equal _ _ _) with true.
  2: { symmetry. apply constant_time_equal_spec.
       - rewrite hmac_length. unfold kHmacSize, kSha256DigestSize. lia.
       - rewrite length_app. unfold mac. rewrite hmac_length. unfold kHmacSize, kSha256DigestSize. lia.
       - rewrite take_app_le; [done|]. unfold mac. rewrite hmac_length. done. }
  cbn [negb]. unfold signed_prefix. rewrite <- !app_assoc.
  rewrite drop_app_length, read_write_u16 by done.
  replace ((v <? kMinProtocolVersion) || (kProtocolVersion <? v)) with false.
  2: { symmetry. apply orb_false_intro; [apply Z.ltb_ge|apply Z.ltb_ge]; lia. }
  set (p := kMagic ++ write_u16_le v).
  assert (Hp : length p = (length kMagic + 2)%nat) by done.
  rewrite !app_assoc. fold p. rewrite <- !app_assoc.
  replace (byte_at _ (length kMagic + 2)) with f.
  2: { rewrite <- Hp. unfold byte_at. cbn [app]. rewrite nth_middle. by rewrite b2z_z2b_small. }
  replace (nth (length kMagic + 2 + 1) _ x00) with (algo_to_byte a).
  2: { rewrite <- Hp. rewrite app_nth2_plus. done. }
  rewrite algo_of_to_byte.
  replace (sub _ _ _) with sid.
  2: { rewrite !(app_assoc p), !(app_assoc (p ++ _)). symmetry. apply sub_all.
       - by rewrite !length_app, Hp.
       - done. }
  cbn [algo]. by rewrite Ha.
Qed.

Lemma parse_handshake v f a sid key out rest :
  is_word 16 v -> kMinProtocolVersion <= v <= kProtocolVersion -> 0 <= f < 256 ->
  length sid = kSessionIdSize -> algo_supported (Some a) = true ->
  parse_and_verify_handshake (handshake v f a sid key ++ rest) key out =
  (Ok, {| version := v; flags := f; algo := Some a; session_id := sid |}).
Proof. rewrite handshake_layout. apply parse_request. Qed.

(** ** When the server says Ok *)

Lemma parse_ok_iff buffer key out :
  (kHandshakeRequestSize <= length buffer)%nat ->
  (parse_and_verify_handshake buffer key out).1 = Ok <->
  take 4 buffer = kMagic /\
  sub kHandshakeSignedPrefixSize kHmacSize buffer =
    hmac key (take kHandshakeSignedPrefixSize buffer) /\
  kMinProtocolVersion <= read_u16_le (drop 4 buffer) <= kProtocolVersion /\
  algo_supported (algo_of_byte (nth 7 buffer x00)) = true.
Proof.
  intros Hlen. unfold kHandshakeRequestSize, kHmacSize in Hlen.
  set (pre := kHandshakeSignedPrefixSize) in *.
  assert (Heq : constant_time_equal (hmac key (take pre buffer)) (drop pre buffer) kHmacSize = true <->
          sub pre kHmacSize buffer = hmac key (take pre buffer)).
  { rewrite constant_time_equal_spec by (rewrite ?hmac_length, ?length_drop;
      unfold kHmacSize, kSha256DigestSize; lia).
    rewrite (take_ge (hmac _ _)) by (rewrite hmac_length; done). unfold sub. done. }
  unfold parse_and_verify_handshake. fold pre. unfold magic_matches. change (length kMagic) with 4%nat.
  destruct (bool_decide_reflect (take 4 buffer = kMagic)) as [Hm|Hm]; cbn [negb].
  2: { split; [done|]. by intros [? _]. }
  destruct (constant_time_equal _ _ _) eqn:Hc; cbn [negb].
  2: { split; [done|]. intros (_ & H & _). by apply Heq in H. }
  pose proof (proj1 Heq eq_refl) as Hmac.
  destruct ((_ <? _) || (_ <? _)) eqn:Hv.
  { split; [done|]. intros (_ & _ & H & _). apply orb_true_iff in Hv. rewrite !Z.ltb_lt in Hv. lia. }
  apply orb_false_iff in Hv. rewrite !Z.ltb_ge in Hv. cbn [algo].
  destruct (algo_supported _); cbn [negb fst]; split.
  - intros _. split; [exact Hm|]. split; [exact Hmac|]. split; [lia|reflexivity].
  - reflexivity.
  - discriminate.
  - intros (_ & _ & _ & ?). discriminate.
Qed.

(** The HMAC is checked before the version and the algorithm, so an
    unauthenticated peer learns neither. *)
Lemma parse_status buffer key out :
  (kHandshakeRequestSize <= length buffer)%nat ->
  take 4 buffer = kMagic ->
  sub kHandshakeSignedPrefixSize kHmacSize buffer <>
    hmac key (take kHandshakeSignedPrefixSize buffer) ->
  parse_and_verify_handshake buffer key out = (AuthFailed, out).
Proof.
  intros Hlen Hm Hmac. unfold parse_and_verify_handshake, magic_matches.
  change (length kMagic) with 4%nat. rewrite bool_decide_eq_true_2 by done. cbn [negb].
  destruct (constant_time_equal _ _ _) eqn:Hc; [|done]. exfalso. apply Hmac.
  unfold kHandshakeRequestSize in Hlen.
  apply constant_time_equal_spec in Hc; [|rewrite ?hmac_length, ?length_drop;
    unfold kHmacSize, kSha256DigestSize in *; lia..].
  rewrite take_ge in Hc by (rewrite hmac_length; done). done.
Qed.

(** ** Hexadecimal session names *)

Definition is_hex_char (c : byte) : bool :=
  ((0x30 <=? b2z c) && (b2z c <=? 0x39)) || ((0x61 <=? b2z c) && (b2z c <=? 0x66)).

Lemma nibble_cases n (P : Z -> Prop) :
  0 <= n < 16 -> (forall k, (k < 16)%nat -> P (Z.of_nat k)) -> P n.
Proof. intros Hn H. specialize (H (Z.to_nat n) ltac:(lia)). by rewrite Z2Nat.id in H by lia. Qed.

Lemma hex_digit_inj m n :
  0 <= m < 16 -> 0 <= n < 16 -> hex_digit m = hex_digit n -> m = n.
Proof.
  intros Hm Hn H.
  assert (Hd : NoDup hex_digits) by (apply (bool_decide_unpack _); vm_compute; exact I).
  unfold hex_digit in H.
  assert (Z.to_nat m = Z.to_nat n); [|lia].
  eapply (proj1 (NoDup_nth hex_digits x00)); [by apply NoDup_ListNoDup| | |done]; simpl; lia.
Qed.

Lemma hex_digit_is_hex n : 0 <= n < 16 -> is_hex_char (hex_digit n) = true.
Proof.
  intros Hn. apply (nibble_cases n (fun n => is_hex_char (hex_digit n) = true) Hn). intros k Hk.
  do 16 (destruct k as [|k]; [reflexivity|]). lia.
Qed.

Lemma nibbles b :
  0 <= Z.shiftr (b2z b) 4 < 16 /\ 0 <= Z.land (b2z b) 0x0f < 16 /\
  b2z b = 16 * Z.shiftr (b2z b) 4 + Z.land (b2z b) 0x0f.
Proof.
  pose proof (b2z_range b). change 0x0f with (Z.ones 4).
  rewrite land_ones_wrap, Z.shiftr_div_pow2 by lia. unfold wrap. change (2 ^ 4) with 16. zdm.
Qed.

Lemma hex_byte_inj b c : hex_byte b = hex_byte c -> b = c.
Proof.
  intros H. unfold hex_byte in H. injection H as H1 H2.
  destruct (nibbles b) as (? & ? & ?), (nibbles c) as (? & ? & ?).
  apply hex_digit_inj in H1, H2; [|done..]. apply b2z_inj. lia.
Qed.

Lemma length_flat_hex l : length (flat_map hex_byte l) = (2 * length l)%nat.
Proof. induction l as [|b l IH]; [done|]. simpl. rewrite IH. lia. Qed.

Lemma flat_hex_inj l l' : flat_map hex_byte l = flat_map hex_byte l' -> l = l'.
Proof.
  revert l'. induction l as [|b l IH]; intros [|b' l'] H; [done|discriminate|discriminate|].
  cbn [flat_map] in H. apply app_inj_1 in H as [Hb Hl]; [|done].
  apply hex_byte_inj in Hb as ->. f_equal. by apply IH.
Qed.

Lemma flat_hex_chars l : Forall (fun c => is_hex_char c = true) (flat_map hex_byte l).
Proof.
  induction l as [|b l IH]; [by constructor|].
  destruct (nibbles b) as (? & ? & _). simpl. by repeat constructor; try apply hex_digit_is_hex.
Qed.

(** ** Properties *)

(** C6: handshake round trip. The request a client builds with the server's token
    is accepted and parses to the client's version, flags, algorithm and session
    id, whatever follows it on the connection (the command byte included). *)
Theorem handshake_round_trip (v f : Z) (a : CompressionAlgo) (sid key rest : bytes)
    (out : HandshakeRequest) :
  is_word 16 v -> kMinProtocolVersion <= v <= kProtocolVersion -> 0 <= f < 256 ->
  length sid = kSessionIdSize -> algo_supported (Some a) = true ->
  parse_and_verify_handshake (handshake v f a sid key ++ rest) key out =
  (Ok, {| version := v; flags := f; algo := Some a; session_id := sid |}).
Proof. apply parse_handshake. Qed.

Lemma handshake_round_trip_witness :
  let out := {| version := 0; flags := 0; algo := None; session_id := [] |} in
  parse_and_verify_handshake (handshake 2 1 Zstd (repeat xab 16) (str "secret") ++ str "rest")
    (str "secret") out =
  (Ok, {| version := 2; flags := 1; algo := Some Zstd; session_id := repeat xab 16 |}).
Proof.
  apply (handshake_round_trip 2 1 Zstd (repeat xab 16)); [split; lia|split; discriminate|lia|reflexivity|reflexivity].
Defined.

(** C7: the server answers Ok exactly to requests with the magic, a valid HMAC
    over the signed prefix, a supported version and a supported algorithm. *)
Theorem handshake_ok_iff (buffer key : bytes) (out : HandshakeRequest) :
  (kHandshakeRequestSize <= length buffer)%nat ->
  (parse_and_verify_handshake buffer key out).1 = Ok <->
  take 4 buffer = kMagic /\
  sub kHandshakeSignedPrefixSize kHmacSize buffer =
    hmac key (take kHandshakeSignedPrefixSize buffer) /\
  kMinProtocolVersion <= read_u16_le (drop 4 buffer) <= kProtocolVersion /\
  algo_supported (algo_of_byte (nth 7 buffer x00)) = true.
Proof. apply parse_ok_iff. Qed.

Lemma handshake_ok_iff_witness :
  let buffer := kMagic ++ repeat x01 52 in
  let out := {| version := 0; flags := 0; algo := None; session_id := [] |} in
  (parse_and_verify_handshake buffer [] out).1 = Ok <->
  take 4 buffer = kMagic /\
  sub kHandshakeSignedPrefixSize kHmacSize buffer = hmac [] (take kHandshakeSignedPrefixSize buffer) /\
  kMinProtocolVersion <= read_u16_le (drop 4 buffer) <= kProtocolVersion /\
  algo_supported (algo_of_byte (nth 7 buffer x00)) = true.
Proof. apply handshake_ok_iff. vm_compute. repeat constructor. Defined.

(** The HMAC is checked before anything else the peer controls: without a
    valid one the answer is AuthFailed and no field of the request is stored, so
    an unauthenticated peer learns neither the versions nor the algorithms. *)
Theorem handshake_auth_first (buffer key : bytes) (out : HandshakeRequest) :
  (kHandshakeRequestSize <= length buffer)%nat ->
  take 4 buffer = kMagic ->
  sub kHandshakeSignedPrefixSize kHmacSize buffer <>
    hmac key (take kHandshakeSignedPrefixSize buffer) ->
  parse_and_verify_handshake buffer key out = (AuthFailed, out).
Proof. apply parse_status. Qed.

Lemma handshake_auth_first_witness :
  let out := {| version := 0; flags := 0; algo := None; session_id := [] |} in
  parse_and_verify_handshake (kMagic ++ repeat x01 52) [] out = (AuthFailed, out).
Proof.
  apply handshake_auth_first; [vm_compute; repeat constructor|reflexivity|].
  intros H. apply (f_equal (nth 0)) in H. apply (f_equal (fun f => f x00)) in H.
  vm_compute in H. discriminate.
Defined.

(** Session directories do not collide. [session_id_to_hex] gives 32 lower-case
    hexadecimal digits for a 16-byte id, so a directory name without separators or
    dots, and different ids give different names. *)
Theorem session_hex_injective (a b : bytes) :
  length a = kSessionIdSize -> length b = kSessionIdSize ->
  length (session_id_to_hex a) = (2 * kSessionIdSize)%nat /\
  Forall (fun c => is_hex_char c = true) (session_id_to_hex a) /\
  (session_id_to_hex a = session_id_to_hex b -> a = b).
Proof.
  intros Ha Hb. unfold session_id_to_hex. split; [by rewrite length_flat_hex, Ha|].
  split; [apply flat_hex_chars|apply flat_hex_inj].
Qed.

Lemma session_hex_injective_witness :
  length (session_id_to_hex (repeat xab 16)) = (2 * kSessionIdSize)%nat /\
  Forall (fun c => is_hex_char c = true) (session_id_to_hex (repeat xab 16)) /\
  (session_id_to_hex (repeat xab 16) = session_id_to_hex (repeat xac 16) ->
   repeat xab 16 = repeat xac 16).
Proof. apply session_hex_injective; reflexivity. Defined.
