(* ===== verification/ByteChannel.v ===== *)
(** * The byte channel (src/server/byte_channel.h, src/server/byte_channel.cxx)

    A connection's loop thread pushes the blocks it receives and its consumer
    thread reads exact counts out of them. The channel keeps the blocks in a
    deque with an offset into the first one; what it promises is a FIFO of
    bytes. [read_exact] holds the mutex except while it waits, so one call is a
    sequence of runs between waits; [read_iter] is one iteration of its loop. *)

From S2P Require Import Prelude.

Record ByteChannel := {
  blocks_ : list bytes;
  front_offset_ : nat;
  buffered_ : nat;
  low_water_mark_ : nat;
  closed_ : bool;
}.

Definition new_channel (low_water_mark : nat) : ByteChannel :=
  {| blocks_ := []; front_offset_ := 0; buffered_ := 0;
     low_water_mark_ := low_water_mark; closed_ := false |}.

Definition push (c : ByteChannel) (data : bytes) : ByteChannel :=
  if (length data =? 0)%nat then c
  else if closed_ c then c
  else {| blocks_ := blocks_ c ++ [data]; front_offset_ := front_offset_ c;
          buffered_ := buffered_ c + length data;
          low_water_mark_ := low_water_mark_ c; closed_ := closed_ c |}.

Definition close (c : ByteChannel) : ByteChannel :=
  {| blocks_ := blocks_ c; front_offset_ := front_offset_ c; buffered_ := buffered_ c;
     low_water_mark_ := low_water_mark_ c; closed_ := true |}.

Definition buffered_bytes (c : ByteChannel) : nat := buffered_ c.

(** The locals of a [read_exact] in progress: [count], the bytes copied to
    [out] so far ([copied] is their number) and [signaled]. *)
Record Reading := {
  count : nat;
  out : bytes;
  signaled : bool;
}.

Definition copied (r : Reading) : nat := length (out r).

Definition start_read (n : nat) : Reading := {| count := n; out := []; signaled := false |}.

(** What one pass through the loop condition and body does. *)
Inductive iter_result :=
  | Returned (r : bool)                                  (** [return r] *)
  | Waiting                                              (** [data_available_.wait] *)
  | Continue (c : ByteChannel) (r : Reading) (notified : bool).

Definition read_iter (c : ByteChannel) (r : Reading) : iter_result :=
  if (count r <=? copied r)%nat then Returned true
  else
    match blocks_ c with
    | [] => if closed_ c then Returned false else Waiting
    | front :: rest =>
        let available := (length front - front_offset_ c)%nat in
        let needed := (count r - copied r)%nat in
        let tk := if (needed <? available)%nat then needed else available in
        let out := out r ++ take tk (drop (front_offset_ c) front) in
        let offset := (front_offset_ c + tk)%nat in
        let buffered := (buffered_ c - tk)%nat in
        let '(blocks, offset) :=
          if (offset =? length front)%nat then (rest, 0%nat) else (front :: rest, offset) in
        let notify := negb (signaled r) && (buffered <=? low_water_mark_ c)%nat in
        Continue {| blocks_ := blocks; front_offset_ := offset; buffered_ := buffered;
                    low_water_mark_ := low_water_mark_ c; closed_ := closed_ c |}
                 {| count := count r; out := out; signaled := signaled r || notify |} notify
    end.

(** A run with the mutex held: iterations until the call returns or waits.
    [inl b] is a return of [b], [inr r] a wait in state [r]; the number counts
    the calls of [resume_notifier_]. Every iteration copies a byte, so [count]
    iterations are enough (the extra one sees the loop condition fail). *)
Fixpoint read_run (fuel : nat) (c : ByteChannel) (r : Reading) :
  ByteChannel * (bool * bytes + Reading) * nat :=
  match fuel with
  | O => (c, inr r, 0%nat)
  | S fuel =>
      match read_iter c r with
      | Returned b => (c, inl (b, out r), 0%nat)
      | Waiting => (c, inr r, 0%nat)
      | Continue c' r' notified =>
          let '(c', res, k) := read_run fuel c' r' in
          (c', res, ((if notified then 1 else 0) + k)%nat)
      end
  end.

Definition read_exact (c : ByteChannel) (n : nat) := read_run (S n) c (start_read n).

(** ** The FIFO it implements *)

Definition contents (c : ByteChannel) : bytes := drop (front_offset_ c) (concat (blocks_ c)).

Record chan_inv (c : ByteChannel) : Prop := {
  inv_blocks : Forall (fun b => b <> []) (blocks_ c);
  inv_offset : match blocks_ c with
               | [] => front_offset_ c = 0%nat
               | front :: _ => (front_offset_ c < length front)%nat
               end;
  inv_buffered : buffered_ c = length (contents c);
}.

Lemma contents_nil c : chan_inv c -> contents c = [] <-> blocks_ c = [].
Proof.
  intros [_ Ho _]. unfold contents. destruct (blocks_ c) as [|front rest] eqn:E.
  - cbn [concat]. by rewrite drop_nil.
  - split; [|done]. intros H. apply (f_equal length) in H.
    cbn [concat] in H. rewrite length_drop, length_app in H. simpl in H. lia.
Qed.

Lemma new_channel_inv low : chan_inv (new_channel low).
Proof. by repeat constructor. Qed.

Lemma push_contents c data :
  chan_inv c -> closed_ c = false -> contents (push c data) = contents c ++ data.
Proof.
  intros [_ Ho _] Hc. unfold push. destruct (Nat.eqb_spec (length data) 0) as [H|_].
  - apply nil_length_inv in H as ->. by rewrite app_nil_r.
  - rewrite Hc. unfold contents. cbn [blocks_ front_offset_].
    rewrite concat_app. cbn [concat]. rewrite app_nil_r, drop_app_le; [done|].
    destruct (blocks_ c); simpl; [lia|]. rewrite length_app. lia.
Qed.

Lemma push_closed c data : closed_ c = true -> push c data = c.
Proof. intros Hc. unfold push. rewrite Hc. by destruct (_ =? _)%nat. Qed.

Lemma push_inv c data : chan_inv c -> chan_inv (push c data).
Proof.
  intros Hinv. destruct (closed_ c) eqn:Hc; [by rewrite push_closed|].
  pose proof (push_contents c data Hinv Hc) as Hcont. destruct Hinv as [Hb Ho Hbuf].
  unfold push in *. destruct (Nat.eqb_spec (length data) 0); [done|].
  rewrite Hc in *. constructor; cbn [blocks_ front_offset_ buffered_].
  - apply Forall_app. split; [done|]. constructor; [|done]. by intros ->.
  - destruct (blocks_ c) eqn:E; [|done]. simpl. lia.
  - rewrite Hcont, length_app. lia.
Qed.

Lemma close_inv c : chan_inv c -> chan_inv (close c).
Proof. by intros [? ? ?]. Qed.

(** One iteration moves [1 <= tk] bytes from the front of the FIFO to [out]. *)
Lemma read_iter_continue c r c' r' n :
  chan_inv c -> read_iter c r = Continue c' r' n ->
  exists tk, (0 < tk)%nat /\ (copied r + tk <= count r)%nat /\ (tk <= buffered_ c)%nat /\
    out r' = out r ++ take tk (contents c) /\ contents c' = drop tk (contents c) /\
    buffered_ c' = (buffered_ c - tk)%nat /\ count r' = count r /\
    closed_ c' = closed_ c /\ low_water_mark_ c' = low_water_mark_ c /\
    signaled r' = signaled r || n /\
    n = negb (signaled r) && (buffered_ c' <=? low_water_mark_ c)%nat /\
    chan_inv c'.
Proof.
  intros [Hb Ho Hbuf] H. unfold read_iter in H.
  destruct (Nat.leb_spec (count r) (copied r)); [done|].
  destruct (blocks_ c) as [|front rest] eqn:E; [by destruct (closed_ c)|].
  set (tk := if (_ <? _)%nat then _ else _) in H.
  assert (Htk : (0 < tk <= length front - front_offset_ c)%nat /\ (copied r + tk <= count r)%nat).
  { unfold tk. destruct (Nat.ltb_spec (count r - copied r) (length front - front_offset_ c)); lia. }
  assert (Hcont : contents c = drop (front_offset_ c) front ++ concat rest).
  { unfold contents. rewrite E. cbn [concat]. by rewrite drop_app_le by lia. }
  assert (Htake : take tk (contents c) = take tk (drop (front_offset_ c) front)).
  { rewrite Hcont, take_app_le; [done|]. rewrite length_drop. lia. }
  assert (Hdrop : drop tk (contents c) = drop (front_offset_ c + tk) (front ++ concat rest)).
  { rewrite Hcont, drop_app_le by (rewrite length_drop; lia).
    rewrite drop_drop, drop_app_le by lia. done. }
  assert (Hbuf' : (tk <= buffered_ c)%nat).
  { rewrite Hbuf, Hcont, length_app, length_drop. lia. }
  exists tk. split; [lia|]. split; [lia|]. split; [done|].
  destruct (Nat.eqb_spec (front_offset_ c + tk) (length front)) as [Heq|Hne];
    injection H as <- <- <-; (split; [by rewrite Htake|]);
    unfold contents at 1; cbn [blocks_ front_offset_ buffered_ closed_ low_water_mark_ concat].
  - assert (Hc' : concat rest = drop tk (contents c)) by (by rewrite Hdrop, Heq, drop_app_length).
    rewrite drop_0. do 7 (split; [done|]).
    apply Forall_cons_1 in Hb as [_ Hb].
    constructor; cbn [blocks_ front_offset_ buffered_]; [done| |].
    + destruct rest as [|b rest]; [done|].
      apply Forall_cons_1 in Hb as [Hb _]. destruct b; [done|simpl; lia].
    + unfold contents at 1. cbn [blocks_ front_offset_]. by rewrite drop_0, Hc', length_drop, Hbuf.
  - rewrite <- Hdrop. do 7 (split; [done|]).
    constructor; cbn [blocks_ front_offset_ buffered_]; [done|lia|].
    unfold contents at 1. cbn [blocks_ front_offset_ concat]. by rewrite <- Hdrop, length_drop, Hbuf.
Qed.

(** Outcomes of a run, by how much the FIFO holds. *)
Lemma read_run_enough fuel c r :
  chan_inv c -> (copied r <= count r)%nat -> (count r - copied r < fuel)%nat ->
  (count r - copied r <= length (contents c))%nat ->
  exists c' k, read_run fuel c r =
    (c', inl (true, out r ++ take (count r - copied r) (contents c)), k) /\
    contents c' = drop (count r - copied r) (contents c) /\ chan_inv c' /\
    closed_ c' = closed_ c /\ low_water_mark_ c' = low_water_mark_ c.
Proof.
  revert c r. induction fuel as [|fuel IH]; intros c r Hinv Hle Hfuel Hen; [lia|].
  cbn [read_run]. destruct (read_iter c r) as [b| |c' r' n] eqn:E.
  - unfold read_iter in E. destruct (Nat.leb_spec (count r) (copied r)).
    + injection E as <-. exists c, 0%nat. replace (count r - copied r)%nat with 0%nat by lia.
      rewrite take_0, drop_0, app_nil_r. done.
    + destruct (blocks_ c) eqn:Eb; [|by destruct (if (_ : bool) then _ else _) in E].
      apply contents_nil in Eb; [|done]. rewrite Eb in Hen. simpl in Hen. lia.
  - unfold read_iter in E. destruct (Nat.leb_spec (count r) (copied r)); [done|].
    destruct (blocks_ c) eqn:Eb; [|by destruct (if (_ : bool) then _ else _) in E].
    apply contents_nil in Eb; [|done]. rewrite Eb in Hen. simpl in Hen. lia.
  - destruct (read_iter_continue _ _ _ _ _ Hinv E)
      as (tk & Htk & Hcnt & Hb & Hout & Hcont & Hbuf & Hc & Hcl & Hlow & _ & _ & Hinv').
    assert (Hcop : copied r' = (copied r + tk)%nat).
    { unfold copied. rewrite Hout, length_app, length_take. rewrite (inv_buffered _ Hinv) in Hb. lia. }
    destruct (IH c' r') as (c2 & k & -> & Hc2 & Hinv2 & Hcl2 & Hlow2);
      [done|lia|lia|rewrite Hcont, length_drop; lia|].
    exists c2. eexists. rewrite Hc2, Hcont, Hout, Hc, Hcop, Hcl2, Hlow2, <- app_assoc, drop_drop.
    split; [|split; [f_equal; lia|done]]. do 4 f_equal. rewrite take_take_drop. do 2 f_equal. lia.
Qed.

(** With less than it needs, a run drains the FIFO and then waits, or returns
    false once the channel is closed. *)
Lemma read_run_short fuel c r :
  chan_inv c -> (count r - copied r < fuel)%nat ->
  (length (contents c) < count r - copied r)%nat ->
  exists c' k, read_run fuel c r =
    (c', (if closed_ c then inl (false, out r ++ contents c)
          else inr {| count := count r; out := out r ++ contents c;
                      signaled := signaled r || (0 <? k)%nat |}), k) /\
    contents c' = [] /\ chan_inv c' /\
    closed_ c' = closed_ c /\ low_water_mark_ c' = low_water_mark_ c.
Proof.
  revert c r. induction fuel as [|fuel IH]; intros c r Hinv Hfuel Hsh; [lia|].
  cbn [read_run]. destruct (blocks_ c) as [|front rest] eqn:Eb.
  - assert (Hc : contents c = []) by (by apply contents_nil).
    unfold read_iter. destruct (Nat.leb_spec (count r) (copied r)); [lia|].
    rewrite Eb, Hc, app_nil_r. exists c, 0%nat. cbn [Nat.ltb]. rewrite orb_false_r.
    by destruct (closed_ c), r.
  - assert (exists c' r' n, read_iter c r = Continue c' r' n) as (c' & r' & n & E).
    { unfold read_iter. destruct (Nat.leb_spec (count r) (copied r)); [lia|]. rewrite Eb.
      destruct (if (_ =? _)%nat then _ else _). eauto. }
    rewrite E. destruct (read_iter_continue _ _ _ _ _ Hinv E)
      as (tk & Htk & Hcnt & Hb & Hout & Hcont & Hbuf & Hc & Hcl & Hlow & Hsig & _ & Hinv').
    rewrite (inv_buffered _ Hinv) in Hb.
    assert (Hcop : copied r' = (copied r + tk)%nat).
    { unfold copied. rewrite Hout, length_app, length_take. lia. }
    destruct (IH c' r') as (c2 & k & -> & Hc2 & Hinv2 & Hcl2 & Hlow2);
      [done|lia|rewrite Hcont, length_drop; lia|].
    exists c2. eexists. rewrite Hc2, Hout, Hc, Hcl, Hcont, Hsig, <- app_assoc, take_drop.
    split; [|by rewrite Hcl2, Hlow2, Hcl]. destruct (closed_ c); [done|]. do 4 f_equal.
    destruct n; cbn [Nat.add]; [by rewrite orb_true_r, !orb_true_l, orb_true_r|].
    by rewrite orb_false_r.
Qed.

(** ** [read_exact] as seen by its caller *)

Lemma read_exact_enough c n :
  chan_inv c -> (n <= length (contents c))%nat ->
  exists c' k, read_exact c n = (c', inl (true, take n (contents c)), k) /\
    contents c' = drop n (contents c) /\ chan_inv c' /\ closed_ c' = closed_ c.
Proof.
  intros Hinv Hn. unfold read_exact.
  destruct (read_run_enough (S n) c (start_read n)) as (c' & k & H & Hc & Hi & Hcl & _);
    cbn [copied start_read out count length] in *; [done|lia..|].
  rewrite Nat.sub_0_r in *. eauto 10.
Qed.

Lemma read_exact_closed c n :
  chan_inv c -> closed_ c = true -> (length (contents c) < n)%nat ->
  exists c' k, read_exact c n = (c', inl (false, contents c), k) /\
    contents c' = [] /\ chan_inv c' /\ closed_ c' = true.
Proof.
  intros Hinv Hcl Hn. unfold read_exact.
  destruct (read_run_short (S n) c (start_read n)) as (c' & k & H & Hc & Hi & Hcl' & _);
    cbn [copied start_read out count length] in *; [done|lia..|].
  rewrite Hcl in *. eauto 10.
Qed.

(** ** The stream a consumer sees

    Once the loop thread has pushed everything and closed the channel, a
    consumer's successive reads see the pushed bytes as one stream: [stream_read]
    is the specification the parsers of the upload protocol are written
    against. *)

Definition stream_read (n : nat) (s : bytes) : option (bytes * bytes) :=
  if (n <=? length s)%nat then Some (take n s, drop n s) else None.

Definition push_all (c : ByteChannel) (blocks : list bytes) : ByteChannel := fold_left push blocks c.

Lemma push_all_contents c blocks :
  chan_inv c -> closed_ c = false ->
  contents (push_all c blocks) = contents c ++ concat blocks /\
  chan_inv (push_all c blocks) /\ closed_ (push_all c blocks) = false.
Proof.
  revert c. induction blocks as [|b blocks IH]; intros c Hinv Hc.
  - by rewrite app_nil_r.
  - destruct (IH (push c b)) as (H1 & H2 & H3).
    + by apply push_inv.
    + unfold push. by destruct (_ =? _)%nat; rewrite ?Hc.
    + change (push_all c (b :: blocks)) with (push_all (push c b) blocks).
      cbn [concat]. rewrite H1, push_contents by done. by rewrite <- app_assoc.
Qed.

Lemma read_exact_stream c n :
  chan_inv c -> closed_ c = true ->
  match stream_read n (contents c) with
  | Some (data, rest) =>
      exists c' k, read_exact c n = (c', inl (true, data), k) /\
        contents c' = rest /\ chan_inv c' /\ closed_ c' = true
  | None =>
      exists c' k partial, read_exact c n = (c', inl (false, partial), k) /\
        contents c' = [] /\ chan_inv c' /\ closed_ c' = true
  end.
Proof.
  intros Hinv Hcl. unfold stream_read. destruct (Nat.leb_spec n (length (contents c))).
  - destruct (read_exact_enough c n Hinv H) as (c' & k & E & Hc & Hi & Hcl').
    exists c', k. by rewrite E, Hcl', Hcl.
  - destruct (read_exact_closed c n Hinv Hcl H) as (c' & k & E & Hrest). eauto 10.
Qed.

(** ** Interleavings of the two threads

    The loop thread pushes and closes, the consumer thread starts a [read_exact]
    when none is in progress, and a read that waits runs on when it is woken
    (by a push, a close, or spuriously). A run holds the mutex from start to
    return or wait, so every interleaving is a sequence of these operations. *)

Inductive chan_op :=
  | OpPush (data : bytes)
  | OpClose
  | OpRead (n : nat)
  | OpWake.

(** The channel with the [read_exact] that waits in it. *)
Record ChanState := { st_chan : ByteChannel; st_read : option Reading }.

Definition new_state (low : nat) : ChanState := {| st_chan := new_channel low; st_read := None |}.

(** One run of the consumer: [Some] of what [read_exact] returned, [None] if it waits. *)
Definition consumer_run (c : ByteChannel) (r : Reading) : ChanState * option (bool * bytes) :=
  match read_run (S (count r)) c r with
  | (c, inl res, _) => ({| st_chan := c; st_read := None |}, Some res)
  | (c, inr r, _) => ({| st_chan := c; st_read := Some r |}, None)
  end.

Definition chan_step (s : ChanState) (op : chan_op) : ChanState * option (bool * bytes) :=
  match op, st_read s with
  | OpPush data, _ => ({| st_chan := push (st_chan s) data; st_read := st_read s |}, None)
  | OpClose, _ => ({| st_chan := close (st_chan s); st_read := st_read s |}, None)
  | OpRead n, None => consumer_run (st_chan s) (start_read n)
  | OpWake, Some r => consumer_run (st_chan s) r
  | OpRead _, Some _ | OpWake, None => (s, None)
  end.

(** The queue the channel stands for: its unread bytes, whether it is shut, and
    the number of bytes the consumer waits for. *)
Record Fifo := { queue : bytes; shut : bool; wanted : option nat }.

Definition new_fifo : Fifo := {| queue := []; shut := false; wanted := None |}.

(** The first [n] bytes once there are as many; all there are, with [false],
    when there will be no more; otherwise the reader waits. *)
Definition fifo_get (f : Fifo) (n : nat) : Fifo * option (bool * bytes) :=
  if (n <=? length (queue f))%nat then
    ({| queue := drop n (queue f); shut := shut f; wanted := None |}, Some (true, take n (queue f)))
  else if shut f then
    ({| queue := []; shut := true; wanted := None |}, Some (false, queue f))
  else ({| queue := queue f; shut := false; wanted := Some n |}, None).

Definition fifo_step (f : Fifo) (op : chan_op) : Fifo * option (bool * bytes) :=
  match op, wanted f with
  | OpPush data, w =>
      ({| queue := if shut f then queue f else queue f ++ data; shut := shut f; wanted := w |}, None)
  | OpClose, w => ({| queue := queue f; shut := true; wanted := w |}, None)
  | OpRead n, None | OpWake, Some n => fifo_get f n
  | OpRead _, Some _ | OpWake, None => (f, None)
  end.

(** The answers to a sequence of operations, one each. *)
Fixpoint run_ops {S : Type} (step : S -> chan_op -> S * option (bool * bytes)) (s : S) (ops : list chan_op) :
  S * list (option (bool * bytes)) :=
  match ops with
  | [] => (s, [])
  | op :: ops =>
      let '(s, answer) := step s op in
      let '(s, answers) := run_ops step s ops in
      (s, answer :: answers)
  end.

(** The bytes pushed before the channel was closed. *)
Fixpoint pushed_bytes (ops : list chan_op) : bytes :=
  match ops with
  | OpPush data :: ops => data ++ pushed_bytes ops
  | OpClose :: _ | [] => []
  | _ :: ops => pushed_bytes ops
  end.

Definition answered (answers : list (option (bool * bytes))) : bytes :=
  concat (map (fun a => match a with Some (_, data) => data | None => [] end) answers).

(** Bytes a waiting read has copied already are still unread ones. *)
Definition in_flight (s : ChanState) : bytes :=
  match st_read s with Some r => out r | None => [] end.

Record represents (s : ChanState) (f : Fifo) : Prop := {
  rep_inv : chan_inv (st_chan s);
  rep_queue : queue f = in_flight s ++ contents (st_chan s);
  rep_shut : shut f = closed_ (st_chan s);
  rep_wanted : wanted f = count <$> st_read s;
  rep_copied : forall r, st_read s = Some r -> (copied r <= count r)%nat;
}.

Lemma consumer_run_get c r f s' answer :
  chan_inv c -> (copied r <= count r)%nat -> queue f = out r ++ contents c -> shut f = closed_ c ->
  consumer_run c r = (s', answer) ->
  exists f', fifo_get f (count r) = (f', answer) /\ represents s' f'.
Proof.
  intros Hi Hle Hq Hs E. unfold consumer_run in E. unfold fifo_get. rewrite Hs, Hq, length_app.
  unfold copied in *.
  destruct (Nat.leb_spec (count r) (length (out r) + length (contents c))) as [H|H].
  - destruct (read_run_enough (S (count r)) c r) as (c' & k & E2 & Hc & Hi' & Hcl & _);
      unfold copied; [done|done|lia|lia|].
    rewrite E2 in E. injection E as <- <-. eexists. unfold copied.
    rewrite take_app_ge, drop_app_ge by lia. split; [reflexivity|]. by constructor.
  - destruct (read_run_short (S (count r)) c r) as (c' & k & E2 & Hc & Hi' & Hcl & _);
      unfold copied; [done|lia|lia|].
    rewrite E2 in E. destruct (closed_ c) eqn:Ecl; injection E as <- <-; eexists; (split; [reflexivity|]).
    + by constructor.
    + constructor; cbn [queue shut wanted st_chan st_read]; try done.
      * unfold in_flight. cbn [st_read out]. by rewrite Hc, app_nil_r.
      * intros r' [= <-]. unfold copied. cbn [out count]. rewrite length_app. lia.
Qed.

Lemma chan_step_refines s f op s' answer :
  represents s f -> chan_step s op = (s', answer) ->
  exists f', fifo_step f op = (f', answer) /\ represents s' f'.
Proof.
  intros [Hi Hq Hs Hw Hc] E. destruct op as [data| |n|]; cbn [chan_step fifo_step] in *.
  - injection E as <- <-. eexists. split; [reflexivity|]. constructor; cbn [st_chan st_read queue shut wanted].
    + by apply push_inv.
    + rewrite Hq, Hs. unfold in_flight. cbn [st_read]. destruct (closed_ (st_chan s)) eqn:Ecl.
      * by rewrite push_closed.
      * by rewrite push_contents, app_assoc.
    + rewrite Hs. unfold push. repeat (case_match; try done).
    + done.
    + done.
  - injection E as <- <-. eexists. split; [reflexivity|].
    constructor; cbn [st_chan st_read queue shut wanted]; [by apply close_inv|done..].
  - rewrite Hw. destruct (st_read s) as [r|] eqn:Er; cbn [fmap option_fmap option_map].
    + injection E as <- <-. exists f. split; [done|]. by constructor; rewrite ?Er.
    + apply (consumer_run_get (st_chan s) (start_read n) f); [done|cbn; lia| |done|done].
      unfold in_flight in Hq. by rewrite Er in Hq.
  - rewrite Hw. destruct (st_read s) as [r|] eqn:Er; cbn [fmap option_fmap option_map].
    + apply (consumer_run_get (st_chan s) r f); [done|by apply Hc| |done|done].
      unfold in_flight in Hq. by rewrite Er in Hq.
    + injection E as <- <-. exists f. split; [done|]. by constructor; rewrite ?Er.
Qed.

Lemma run_ops_refines ops : forall s f s' answers,
  represents s f -> run_ops chan_step s ops = (s', answers) ->
  exists f', run_ops fifo_step f ops = (f', answers) /\ represents s' f'.
Proof.
  induction ops as [|op ops IH]; intros s f s' answers H E; cbn [run_ops] in *.
  - injection E as <- <-. by exists f.
  - destruct (chan_step s op) as [s1 a] eqn:E1. destruct (run_ops chan_step s1 ops) as [s2 l] eqn:E2.
    injection E as <- <-. destruct (chan_step_refines _ _ _ _ _ H E1) as (f1 & -> & H1).
    destruct (IH _ _ _ _ H1 E2) as (f2 & -> & H2). by exists f2.
Qed.

Lemma fifo_get_bytes f n f' answer :
  fifo_get f n = (f', answer) -> shut f' = shut f /\ answered [answer] ++ queue f' = queue f.
Proof.
  unfold fifo_get, answered.
  destruct (_ <=? _)%nat; [|destruct (shut f) eqn:Es]; intros [= <- <-]; cbn; rewrite ?app_nil_r;
    split; try done. by rewrite take_drop.
Qed.

(** A shut queue only hands out what it holds; an open one also what is pushed. *)
Lemma fifo_bytes ops : forall f f' answers,
  run_ops fifo_step f ops = (f', answers) ->
  answered answers ++ queue f' = queue f ++ (if shut f then [] else pushed_bytes ops).
Proof.
  induction ops as [|op ops IH]; intros f f' answers E; cbn [run_ops] in E.
  { injection E as <- <-. cbn. by destruct (shut f); rewrite app_nil_r. }
  destruct (fifo_step f op) as [f1 a] eqn:E1. destruct (run_ops fifo_step f1 ops) as [f2 l] eqn:E2.
  injection E as <- <-. specialize (IH _ _ _ E2).
  assert (Hkeep : shut f1 = shut f -> answered [a] ++ queue f1 = queue f ->
    pushed_bytes (op :: ops) = pushed_bytes ops ->
    answered (a :: l) ++ queue f2 = queue f ++ (if shut f then [] else pushed_bytes (op :: ops))).
  { intros Hs Hq Hp. unfold answered in *. cbn [map concat] in *. rewrite app_nil_r in Hq.
    by rewrite <- app_assoc, IH, Hs, app_assoc, Hq, Hp. }
  destruct op as [data| |n|]; cbn [fifo_step] in E1.
  - injection E1 as <- <-. cbn [shut queue] in IH. change (answered (None :: l)) with (answered l).
    rewrite IH. cbn [pushed_bytes]. destruct (shut f); [done|]. by rewrite <- app_assoc.
  - injection E1 as <- <-. cbn [shut queue] in IH. change (answered (None :: l)) with (answered l).
    rewrite IH. cbn [pushed_bytes]. by destruct (shut f).
  - destruct (wanted f); [injection E1 as <- <-; by apply Hkeep|].
    apply fifo_get_bytes in E1 as [? ?]. by apply Hkeep.
  - destruct (wanted f); [|injection E1 as <- <-; by apply Hkeep].
    apply fifo_get_bytes in E1 as [? ?]. by apply Hkeep.
Qed.

(** ** Properties *)

(** C8: the channel is a FIFO of bytes, under every interleaving of its two
    threads. For any sequence of pushes, closes, started reads and wake-ups of a
    waiting read, the calls of [read_exact] return what the queue [Fifo] returns:
    a read of [n] bytes gives the next [n] as soon as there are as many, else it
    waits, and once the channel is closed it gives false with what is left.
    What the reads have handed out, followed by what is still in the
    channel, is what was pushed before the close: nothing is lost, repeated or
    reordered, [buffered_] counts what is left, and push boundaries cannot be
    seen. *)
Theorem channel_is_fifo (low : nat) (ops : list chan_op) :
  let '(s, answers) := run_ops chan_step (new_state low) ops in
  let '(f, expected) := run_ops fifo_step new_fifo ops in
  answers = expected /\
  queue f = in_flight s ++ contents (st_chan s) /\ wanted f = count <$> st_read s /\
  answered answers ++ in_flight s ++ contents (st_chan s) = pushed_bytes ops /\
  buffered_bytes (st_chan s) = length (contents (st_chan s)).
Proof.
  destruct (run_ops chan_step (new_state low) ops) as [s answers] eqn:E.
  destruct (run_ops_refines ops (new_state low) new_fifo s answers) as (f & Ef & [Hi Hq Hs Hw _]);
    [by constructor; [apply new_channel_inv|..]|done|].
  rewrite Ef. split; [done|]. split; [done|]. split; [done|].
  split; [|apply (inv_buffered _ Hi)]. rewrite <- Hq. by rewrite (fifo_bytes _ _ _ _ Ef).
Qed.

Example fifo_run :
  (run_ops chan_step (new_state 0)
    [OpPush (str "ab"); OpRead 3; OpWake; OpPush (str "cd"); OpWake; OpRead 2; OpClose; OpWake]).2 =
  [None; None; None; None; Some (true, str "abc"); None; None; Some (false, str "d")].
Proof. reflexivity. Qed.
