(* ===== verification/Backpressure.v ===== *)
(** * Back-pressure between the loop thread and the consumer
      (src/server/connection.cxx: handle_data, apply_backpressure,
      on_resume_async; src/server/byte_channel.cxx)

    The loop thread pushes received data and stops reading the socket once the
    channel holds [channel_high_water] bytes; the consumer's [read_exact] asks
    for the socket to be resumed when it has drained the channel to
    [channel_low_water]. The two threads are a labelled transition system whose
    steps are the critical sections of the source; [pushed] and [delivered] are
    the history of the bytes that went in and came out. *)

From S2P Require Import Prelude ByteChannel.

Record Link := {
  chan : ByteChannel;
  reading : option Reading;     (** the consumer's [read_exact] in progress *)
  paused : bool;                (** [paused_]: the socket is not being read *)
  resume_pending : bool;        (** [uv_async_send(&resume_async_)] not yet handled *)
  check_due : bool;             (** between [push] and [apply_backpressure] *)
  streaming : bool;             (** [state_ == State::Streaming] *)
  pushed : bytes;
  delivered : bytes;
}.

Definition new_link (low : nat) : Link :=
  {| chan := new_channel low; reading := None; paused := false; resume_pending := false;
     check_due := false; streaming := true; pushed := []; delivered := [] |}.

Inductive label := LPush | LCheck | LResume | LClose | LStart | LIter | LReturn.

(** The two halves of [handle_data] in the streaming state. *)
Definition handle_data_push (s : Link) (data : bytes) : Link :=
  {| chan := push (chan s) data; reading := reading s; paused := paused s;
     resume_pending := resume_pending s; check_due := true; streaming := streaming s;
     pushed := pushed s ++ data; delivered := delivered s |}.

Definition apply_backpressure (high : nat) (s : Link) : Link :=
  {| chan := chan s; reading := reading s;
     paused := if negb (paused s) && (high <=? buffered_bytes (chan s))%nat then true else paused s;
     resume_pending := resume_pending s; check_due := false; streaming := streaming s;
     pushed := pushed s; delivered := delivered s |}.

Definition on_resume_async (s : Link) : Link :=
  {| chan := chan s; reading := reading s;
     paused := if streaming s && paused s then false else paused s;
     resume_pending := false; check_due := check_due s; streaming := streaming s;
     pushed := pushed s; delivered := delivered s |}.

(** [begin_teardown] with a consumer: the state becomes Closing and the channel
    is closed. *)
Definition teardown (s : Link) : Link :=
  {| chan := close (chan s); reading := reading s; paused := paused s;
     resume_pending := resume_pending s; check_due := check_due s; streaming := false;
     pushed := pushed s; delivered := delivered s |}.

Definition set_reading (s : Link) (c : ByteChannel) (r : option Reading) (notified : bool)
    (got : bytes) : Link :=
  {| chan := c; reading := r; paused := paused s;
     resume_pending := resume_pending s || notified; check_due := check_due s;
     streaming := streaming s; pushed := pushed s; delivered := delivered s ++ got |}.

(** [high] is the high-water mark, [max_read] the largest count the consumer
    ever asks for. A push is allowed even while paused: one TLS record batch
    may be pushed in several pieces. *)
Inductive step (high max_read : nat) : label -> Link -> Link -> Prop :=
  | step_push s data :
      check_due s = false -> streaming s = true ->
      step high max_read LPush s (handle_data_push s data)
  | step_check s :
      check_due s = true -> step high max_read LCheck s (apply_backpressure high s)
  | step_resume s :
      resume_pending s = true -> check_due s = false ->
      step high max_read LResume s (on_resume_async s)
  | step_close s :
      check_due s = false -> step high max_read LClose s (teardown s)
  | step_start s n :
      reading s = None -> (n <= max_read)%nat ->
      step high max_read LStart s (set_reading s (chan s) (Some (start_read n)) false [])
  | step_iter s r c' r' notified :
      reading s = Some r -> read_iter (chan s) r = Continue c' r' notified ->
      step high max_read LIter s (set_reading s c' (Some r') notified [])
  | step_return s r b :
      reading s = Some r -> read_iter (chan s) r = Returned b ->
      step high max_read LReturn s (set_reading s (chan s) None false (out r)).

Definition any_step (high max_read : nat) (s s' : Link) : Prop :=
  exists l, step high max_read l s s'.

Definition reachable (high max_read low : nat) (s : Link) : Prop :=
  rtc (any_step high max_read) (new_link low) s.

(** The consumer sleeps in [data_available_.wait]. *)
Definition waiting (s : Link) : Prop :=
  exists r, reading s = Some r /\ read_iter (chan s) r = Waiting.

(** ** Invariants *)

Definition in_flight (s : Link) : bytes :=
  match reading s with Some r => out r | None => [] end.

(** Without a pending resume, a paused link still holds enough bytes for the
    current call to notice the low-water mark again, or for the next one to. *)
Definition resume_due (s : Link) : Prop :=
  match reading s with
  | None => (0 < buffered_ (chan s))%nat
  | Some r =>
      if signaled r then (count r - copied r < buffered_ (chan s))%nat
      else (0 < buffered_ (chan s))%nat
  end.

Record link_inv (high max_read : nat) (s : Link) : Prop := {
  link_chan : chan_inv (chan s);
  link_fifo : delivered s ++ in_flight s ++ contents (chan s) = pushed s;
  link_open : closed_ (chan s) = negb (streaming s);
  link_read : forall r, reading s = Some r ->
    (count r <= max_read)%nat /\ (copied r <= count r)%nat /\
    (signaled r = true -> (0 < copied r)%nat);
  link_resume : streaming s = true -> paused s = true -> resume_pending s = false -> resume_due s;
}.

Section Invariant.
Variables high max_read : nat.
Hypothesis high_pos : (0 < high)%nat.
Hypothesis read_small : (max_read <= high)%nat.

Abbreviation inv := (link_inv high max_read).

Lemma new_link_inv low : inv (new_link low).
Proof. by constructor. Qed.

Lemma inv_push s data : inv s -> streaming s = true -> inv (handle_data_push s data).
Proof.
  intros [Hc Hf Ho Hr Hp] Hs. specialize (Hp Hs). rewrite Hs in Ho. cbn [negb] in Ho.
  pose proof (push_contents _ data Hc Ho) as Hcont.
  constructor; cbn [handle_data_push chan reading pushed delivered streaming paused resume_pending].
  - by apply push_inv.
  - change (in_flight (handle_data_push s data)) with (in_flight s).
    rewrite Hcont, <- Hf, <- !app_assoc. done.
  - rewrite Hs. unfold push. by destruct (_ =? _)%nat; rewrite ?Ho.
  - done.
  - intros _ H1 H2. specialize (Hp H1 H2). unfold resume_due in *.
    cbn [handle_data_push chan reading].
    assert (buffered_ (chan s) <= buffered_ (push (chan s) data))%nat.
    { rewrite (inv_buffered _ Hc), (inv_buffered _ (push_inv _ data Hc)), Hcont, length_app. lia. }
    destruct (reading s) as [r|]; [destruct (signaled r)|]; lia.
Qed.

Lemma inv_check s : inv s -> inv (apply_backpressure high s).
Proof.
  intros [Hc Hf Ho Hr Hp].
  constructor; cbn [apply_backpressure chan reading pushed delivered streaming paused resume_pending];
    [done..|].
  intros Hs H1 H2. change (resume_due (apply_backpressure high s)) with (resume_due s).
  destruct (paused s); [by apply Hp|]. cbn [negb andb] in H1.
  destruct (Nat.leb_spec high (buffered_bytes (chan s))) as [Hh|]; [|done].
  unfold buffered_bytes in Hh. unfold resume_due.
  destruct (reading s) as [r|]; [|lia]. destruct (Hr r eq_refl) as (H & _ & Hsig).
  destruct (signaled r); [|lia]. specialize (Hsig eq_refl). lia.
Qed.

Lemma inv_iter s r c' r' n :
  inv s -> reading s = Some r -> read_iter (chan s) r = Continue c' r' n ->
  inv (set_reading s c' (Some r') n []).
Proof.
  intros [Hc Hf Ho Hr Hp] Er E.
  destruct (read_iter_continue _ _ _ _ _ Hc E)
    as (tk & Htk & Hcnt & Hb & Hout & Hcont & Hbuf & Hcount & Hcl & Hlow & Hsig & Hn & Hinv').
  destruct (Hr r Er) as (Hmax & _ & Hs).
  assert (Hcop : copied r' = (copied r + tk)%nat).
  { unfold copied. rewrite Hout, length_app, length_take. rewrite (inv_buffered _ Hc) in Hb. lia. }
  constructor; cbn [set_reading chan reading pushed delivered streaming paused resume_pending].
  - done.
  - unfold in_flight in *. cbn [reading set_reading]. rewrite Er in Hf.
    rewrite Hout, Hcont, app_nil_r, <- (app_assoc (out r)), take_drop. done.
  - by rewrite Hcl.
  - intros ? [= <-]. rewrite Hcount, Hcop. split; [done|]. split; [lia|]. intros _. lia.
  - intros Hst H1 [H2 ->]%orb_false_iff. specialize (Hp Hst H1 H2). unfold resume_due in *.
    cbn [set_reading chan reading]. rewrite Er in Hp. rewrite Hsig, orb_false_r, Hcount, Hcop, Hbuf.
    destruct (signaled r); [lia|]. symmetry in Hn. rewrite andb_true_l in Hn.
    apply Nat.leb_gt in Hn. rewrite Hbuf in Hn. lia.
Qed.

Lemma inv_return s r b :
  inv s -> reading s = Some r -> read_iter (chan s) r = Returned b ->
  inv (set_reading s (chan s) None false (out r)).
Proof.
  intros [Hc Hf Ho Hr Hp] Er E.
  constructor; cbn [set_reading chan reading pushed delivered streaming paused resume_pending]; try done.
  - unfold in_flight in *. cbn [reading set_reading]. rewrite Er in Hf.
    by rewrite app_nil_l, <- app_assoc.
  - intros Hst H1 H2. rewrite orb_false_r in H2. specialize (Hp Hst H1 H2).
    unfold resume_due in *. cbn [set_reading chan reading]. rewrite Er in Hp.
    destruct (signaled r); lia.
Qed.

Lemma inv_resume s : inv s -> inv (on_resume_async s).
Proof.
  intros [Hc Hf Ho Hr Hp]. constructor; try done.
  cbn [on_resume_async paused resume_pending streaming]. intros Hs Hpa _. rewrite Hs in Hpa.
  by destruct (paused s).
Qed.

Lemma inv_start s n : inv s -> reading s = None -> (n <= max_read)%nat ->
  inv (set_reading s (chan s) (Some (start_read n)) false []).
Proof.
  intros [Hc Hf Ho Hr Hp] Er Hn.
  constructor; cbn [set_reading chan reading pushed delivered streaming paused resume_pending]; try done.
  - unfold in_flight in *. rewrite Er in Hf. cbn [reading set_reading start_read out].
    by rewrite app_nil_r.
  - intros ? [= <-]. unfold copied. simpl. split; [done|]. split; [lia|done].
  - intros Hst H1 H2. rewrite orb_false_r in H2. specialize (Hp Hst H1 H2).
    unfold resume_due in *. by rewrite Er in Hp.
Qed.

Lemma inv_close s : inv s -> inv (teardown s).
Proof. intros [Hc Hf Ho Hr Hp]. constructor; try done. by apply close_inv. Qed.

Lemma inv_step l s s' : inv s -> step high max_read l s s' -> inv s'.
Proof.
  intros Hinv Hst. destruct Hst; eauto using inv_push, inv_check, inv_resume, inv_close,
    inv_start, inv_iter, inv_return.
Qed.

Lemma reachable_inv low s : reachable high max_read low s -> inv s.
Proof.
  intros Hr. unfold reachable in Hr.
  assert (H0 : inv (new_link low)) by apply new_link_inv.
  induction Hr as [s|s s' s'' [l Hst] _ IH]; [done|]. apply IH. by eapply inv_step.
Qed.

Lemma waiting_inv s : inv s -> waiting s -> closed_ (chan s) = false /\ buffered_ (chan s) = 0%nat.
Proof.
  intros [Hc _ _ _ _] (r & Er & E). unfold read_iter in E.
  destruct (_ <=? _)%nat; [done|]. destruct (blocks_ (chan s)) eqn:Eb.
  - destruct (closed_ (chan s)); [done|]. split; [done|].
    rewrite (inv_buffered _ Hc), (proj2 (contents_nil _ Hc) Eb). done.
  - by destruct (if (_ : bool) then _ else _).
Qed.

(** A consumer asleep on an empty channel never faces a stopped socket without
    a resume on its way. *)
Lemma waiting_resumes low s :
  reachable high max_read low s -> waiting s -> paused s = true -> resume_pending s = true.
Proof.
  intros Hr Hw Hp. pose proof (reachable_inv _ _ Hr) as Hinv.
  destruct (waiting_inv _ Hinv Hw) as [Hcl Hb]. destruct Hw as (r & Er & E).
  destruct (resume_pending s) eqn:Erp; [done|]. exfalso.
  pose proof (link_open _ _ _ Hinv) as Ho. rewrite Hcl in Ho. symmetry in Ho.
  apply negb_false_iff in Ho.
  pose proof (link_resume _ _ _ Hinv Ho Hp Erp) as Hd. unfold resume_due in Hd.
  rewrite Er, Hb in Hd. destruct (signaled r); lia.
Qed.

End Invariant.

(** ** When reads are larger than the high-water mark

    [signaled] is never reset inside one call, so a call that already notified
    and then drains a full channel does not notify again. *)

Section LostResume.
Variables high low : nat.
Hypothesis high_pos : (0 < high)%nat.

Definition lost_byte : bytes := [x00].
Definition lost_rest : bytes := repeat x00 high.

Definition lost1 : Link := apply_backpressure high (handle_data_push (new_link low) lost_byte).
Definition lost2 : Link :=
  set_reading lost1 (chan lost1) (Some (start_read (S high))) false [].

(** The state in which everything has stopped. *)
Definition lost_state : Link :=
  {| chan := {| blocks_ := []; front_offset_ := 0; buffered_ := 0;
                low_water_mark_ := low; closed_ := false |};
     reading := Some (start_read 1); paused := true; resume_pending := false;
     check_due := false; streaming := true;
     pushed := lost_byte ++ lost_rest; delivered := lost_byte ++ lost_rest |}.

Lemma lost_iter1 :
  read_iter (chan lost1) (start_read (S high)) =
  Continue (new_channel low) {| count := S high; out := lost_byte; signaled := true |} true.
Proof. by destruct high as [|[|h]]. Qed.

Definition lost3 : Link :=
  set_reading lost2 (new_channel low)
    (Some {| count := S high; out := lost_byte; signaled := true |}) true [].
Definition lost4 : Link := apply_backpressure high (handle_data_push (on_resume_async lost3) lost_rest).

Lemma lost_iter2 :
  read_iter (chan lost4) {| count := S high; out := lost_byte; signaled := true |} =
  Continue (new_channel low) {| count := S high; out := lost_byte ++ lost_rest; signaled := true |} false.
Proof.
  unfold read_iter, lost4. cbn [apply_backpressure handle_data_push on_resume_async chan lost3 set_reading].
  unfold push, lost_rest. rewrite repeat_length. destruct (Nat.eqb_spec high 0); [lia|].
  cbn [new_channel closed_ blocks_ app front_offset_ buffered_ low_water_mark_ count out signaled negb andb].
  unfold copied. cbn [out length lost_byte]. destruct (Nat.leb_spec (S high) 1); [lia|].
  rewrite repeat_length, Nat.sub_0_r, drop_0.
  replace (S high - 1)%nat with high by lia. rewrite Nat.ltb_irrefl, Nat.add_0_l, Nat.eqb_refl.
  rewrite (take_ge (repeat _ _)) by (by rewrite repeat_length).
  rewrite Nat.sub_diag. done.
Qed.

Lemma lost_paused : paused lost4 = true.
Proof.
  unfold lost4, apply_backpressure, buffered_bytes. cbn [paused chan handle_data_push on_resume_async].
  replace (buffered_ _) with high; [rewrite Nat.leb_refl|].
  - cbn [lost3 set_reading streaming paused lost2 lost1 apply_backpressure handle_data_push new_link].
    by destruct high as [|[|h]].
  - cbn [lost3 set_reading chan]. unfold push, lost_rest. rewrite repeat_length.
    by destruct (Nat.eqb_spec high 0).
Qed.

Lemma lost_reachable max_read : (high < max_read)%nat -> reachable high max_read low lost_state.
Proof.
  intros Hmax. unfold reachable.
  eapply rtc_l; [exists LPush; apply (step_push _ _ _ lost_byte); done|].
  eapply rtc_l; [exists LCheck; by apply step_check|].
  eapply rtc_l; [exists LStart; apply (step_start _ _ _ (S high)); [done|lia]|].
  eapply rtc_l; [exists LIter; eapply step_iter; [done|apply lost_iter1]|].
  eapply rtc_l; [exists LResume; by apply step_resume|].
  eapply rtc_l; [exists LPush; by apply (step_push _ _ _ lost_rest)|].
  eapply rtc_l; [exists LCheck; by apply step_check|].
  eapply rtc_l; [exists LIter; eapply step_iter; [done|apply lost_iter2]|].
  eapply rtc_l; [exists LReturn; eapply step_return; [done|]|].
  { unfold read_iter, copied. cbn [set_reading chan count out length]. unfold lost_rest.
    rewrite length_app, repeat_length. cbn [length lost_byte].
    destruct (Nat.leb_spec (S high) (1 + high)); [done|lia]. }
  eapply rtc_l; [exists LStart; apply (step_start _ _ _ 1); [done|lia]|].
  match goal with |- rtc _ ?s _ => replace s with lost_state; [apply rtc_refl|] end.
  unfold lost_state, set_reading. f_equal.
  - symmetry. apply lost_paused.
  - cbn [delivered app]. by rewrite app_nil_r.
Qed.

Lemma lost_stuck max_read l s' :
  step high max_read l lost_state s' -> l = LPush \/ l = LClose.
Proof. intros Hst. inversion Hst; subst; auto; simplify_eq/=; try done. Qed.

Lemma lost_waiting : waiting lost_state.
Proof. by exists (start_read 1). Qed.
End LostResume.

(** ** Properties *)

(** Under every interleaving of the loop thread and the consumer, the bytes
    the consumer has received, the ones of its read in progress and the ones still
    buffered are, in this order, exactly the bytes pushed. *)
Theorem link_delivers_in_order (high max_read low : nat) (s : Link) :
  (0 < high)%nat -> (max_read <= high)%nat -> reachable high max_read low s ->
  delivered s ++ in_flight s ++ contents (chan s) = pushed s.
Proof. intros H1 H2 H3. by eapply link_fifo, reachable_inv. Qed.

Lemma link_delivers_in_order_witness :
  let s := handle_data_push (new_link 1) (str "abc") in
  delivered s ++ in_flight s ++ contents (chan s) = pushed s.
Proof.
  apply (link_delivers_in_order 4 4 1); [lia|lia|].
  eapply rtc_l; [exists LPush; by apply step_push|apply rtc_refl].
Defined.

(** C9: no lost resume. While no read is larger than the high-water mark, a
    consumer asleep on an empty channel never faces a stopped socket unless the
    message that restarts it is already queued. *)
Theorem no_lost_resume (high max_read low : nat) (s : Link) :
  (0 < high)%nat -> (max_read <= high)%nat -> reachable high max_read low s ->
  waiting s -> paused s = true -> resume_pending s = true.
Proof. intros H1 H2. by apply waiting_resumes. Qed.

(** The first byte fills a channel with high-water mark 1, and the read of it
    asks for the resume. *)
Definition resumed_link : Link :=
  let s := apply_backpressure 1 (handle_data_push (new_link 0) [x00]) in
  let s := set_reading s (chan s) (Some (start_read 1)) false [] in
  let s := set_reading s (new_channel 0) (Some {| count := 1; out := [x00]; signaled := true |}) true [] in
  let s := set_reading s (chan s) None false [x00] in
  set_reading s (chan s) (Some (start_read 1)) false [].

Lemma no_lost_resume_witness :
  waiting resumed_link /\ paused resumed_link = true /\ resume_pending resumed_link = true.
Proof.
  assert (Hw : waiting resumed_link) by (exists (start_read 1); split; reflexivity).
  split; [exact Hw|]. split; [reflexivity|].
  apply (no_lost_resume 1 1 0); [lia|lia| |exact Hw|reflexivity].
  eapply rtc_l; [exists LPush; apply (step_push _ _ _ [x00]); reflexivity|].
  eapply rtc_l; [exists LCheck; apply step_check; reflexivity|].
  eapply rtc_l; [exists LStart; apply (step_start _ _ _ 1); [reflexivity|lia]|].
  eapply rtc_l; [exists LIter; eapply step_iter; reflexivity|].
  eapply rtc_l; [exists LReturn; eapply step_return; reflexivity|].
  eapply rtc_l; [exists LStart; apply (step_start _ _ _ 1); [reflexivity|lia]|].
  apply rtc_refl.
Defined.

(** The bound of the previous property is needed. As soon as a read may be
    larger than the high-water mark, a state is reachable in which the socket is
    stopped, the consumer waits on an empty channel and no resume is queued: the
    consumer can take no step, and the loop thread none but a push, for which the
    stopped socket gives it no data, and the teardown. *)
Theorem large_read_loses_resume (high max_read low : nat) :
  (0 < high < max_read)%nat ->
  exists s, reachable high max_read low s /\
    streaming s = true /\ paused s = true /\ resume_pending s = false /\ waiting s /\
    forall l s', step high max_read l s s' -> l = LPush \/ l = LClose.
Proof.
  intros H. exists (lost_state high low). split; [apply lost_reachable; lia|].
  do 3 (split; [done|]). split; [apply lost_waiting|]. intros l s'. by apply lost_stuck.
Qed.

Lemma large_read_loses_resume_witness :
  exists s, reachable 1 2 0 s /\
    streaming s = true /\ paused s = true /\ resume_pending s = false /\ waiting s /\
    forall l s', step 1 2 l s s' -> l = LPush \/ l = LClose.
Proof. apply (large_read_loses_resume 1 2 0). lia. Defined.
