(* ===== verification/PosixPath.v ===== *)
(** * [std::filesystem::path] on POSIX, as far as the server uses it

    A path is kept as what its string parses to: whether it starts at the root
    directory, its file names, and whether a separator follows the last one.
    [path_elements] is the sequence its iterators visit, [lexically_normal] the
    normal form of [fs.path.generic], [path_append] is [operator/] and
    [path_string] the string of a path in normal form. *)

From S2P Require Import Prelude.

Definition slash : byte := z2b 0x2f.
Definition backslash : byte := z2b 0x5c.
Definition dot : bytes := str ".".
Definition dotdot : bytes := str "..".

Record path := {
  absolute : bool;
  names : list bytes;
  trailing : bool;
}.

#[global] Instance path_eq_dec : EqDecision path.
Proof. solve_decision. Defined.

(** Splits at every separator: [n + 1] fields for [n] separators. *)
Fixpoint split_slash (s : bytes) : list bytes :=
  match s with
  | [] => [[]]
  | c :: s =>
      if bool_decide (c = slash) then [] :: split_slash s
      else match split_slash s with
           | [] => [[c]]
           | f :: fs => (c :: f) :: fs
           end
  end.

Definition path_of_string (s : bytes) : path :=
  let ns := filter (fun f => f <> []) (split_slash s) in
  {| absolute := match s with c :: _ => bool_decide (c = slash) | [] => false end;
     names := ns;
     trailing := match last s with
                 | Some c => bool_decide (c = slash) && negb (bool_decide (ns = []))
                 | None => false
                 end |}.

Definition path_empty (p : path) : bool :=
  negb (absolute p) && bool_decide (names p = []).

Definition path_elements (p : path) : list bytes :=
  (if absolute p then [[slash]] else []) ++ names p ++ (if trailing p then [[]] else []).

(** One name of the normalisation, on the stack of names kept so far (innermost
    first) and the flag that a separator may have to follow the last one. *)
Definition normal_step (abs : bool) (acc : list bytes * bool) (name : bytes) : list bytes * bool :=
  let '(stack, sep) := acc in
  if bool_decide (name = dot) then (stack, true)
  else if bool_decide (name = dotdot) then
    match stack with
    | top :: rest =>
        if bool_decide (top = dotdot) then (dotdot :: stack, false) else (rest, true)
    | [] => if abs then ([], sep) else ([dotdot], false)
    end
  else (name :: stack, false).

Definition lexically_normal (p : path) : path :=
  if path_empty p then p
  else
    let '(stack, sep) := fold_left (normal_step (absolute p)) (names p) ([], false) in
    let sep := sep || trailing p in
    match stack with
    | [] => if absolute p then {| absolute := true; names := []; trailing := false |}
            else {| absolute := false; names := [dot]; trailing := false |}
    | top :: _ =>
        {| absolute := absolute p; names := rev stack;
           trailing := sep && negb (bool_decide (top = dotdot)) |}
    end.

(** [a / b] for a relative, non-empty [b]. *)
Definition path_append (a b : path) : path :=
  if absolute b then b
  else if path_empty b then
    {| absolute := absolute a; names := names a;
       trailing := negb (bool_decide (names a = [])) |}
  else {| absolute := absolute a; names := names a ++ names b; trailing := trailing b |}.

Fixpoint join_slash (l : list bytes) : bytes :=
  match l with
  | [] => []
  | [f] => f
  | f :: l => f ++ slash :: join_slash l
  end.

Definition path_string (p : path) : bytes :=
  (if absolute p then [slash] else []) ++ join_slash (names p) ++ (if trailing p then [slash] else []).

Definition parent_path (p : path) : path :=
  if trailing p then {| absolute := absolute p; names := names p; trailing := false |}
  else {| absolute := absolute p; names := removelast (names p); trailing := false |}.

(** The C string of a path: the system call sees it up to the first NUL. *)
Fixpoint c_str (s : bytes) : bytes :=
  match s with
  | [] => []
  | c :: s => if bool_decide (c = x00) then [] else c :: c_str s
  end.

(** [std::mismatch(a.begin(), a.end(), b.begin(), b.end())] stops at the end of [a]. *)
Fixpoint mismatch_at_end (a b : list bytes) : bool :=
  match a, b with
  | [], _ => true
  | x :: a, y :: b => if bool_decide (x = y) then mismatch_at_end a b else false
  | _ :: _, [] => false
  end.

Example normal_examples :
  map (fun s => path_string (lexically_normal (path_of_string s)))
    [str "a/./b//c"; str "a/b/.."; str "a/../.."; str "/../a/"; str "./"; str "a/b/../../x"; str "../"] =
  [str "a/b/c"; str "a/"; str ".."; str "/a/"; str "."; str "x"; str ".."].
Proof. vm_compute. reflexivity. Qed.

(** ** Normal forms *)

Definition proper_name (n : bytes) : Prop := n <> [] /\ slash ∉ n.

Definition wf_path (p : path) : Prop := Forall proper_name (names p).

Lemma split_slash_proper s : Forall (fun f => slash ∉ f) (split_slash s).
Proof.
  induction s as [|c s IH]; simpl; [by repeat constructor; set_solver|].
  case_bool_decide; [constructor; [set_solver|done]|].
  destruct (split_slash s) as [|f fs]; [by repeat constructor; set_solver|].
  apply Forall_cons_1 in IH as [? ?]. constructor; [set_solver|done].
Qed.

Lemma path_of_string_wf s : wf_path (path_of_string s).
Proof.
  unfold wf_path, path_of_string. cbn [names]. apply Forall_forall. intros f Hf.
  apply list_elem_of_filter in Hf as [Hne Hf].
  split; [done|]. pose proof (split_slash_proper s) as H. rewrite Forall_forall in H. by apply H.
Qed.

(** A stack of the normalisation: dot-dots at the bottom only, no dots. *)
Definition plain (n : bytes) : Prop := n <> dot /\ n <> dotdot.

Definition stack_ok (abs : bool) (stack : list bytes) : Prop :=
  exists k top, stack = top ++ repeat dotdot k /\ Forall plain top /\
    (abs = true -> k = 0%nat) /\ Forall proper_name stack.

Lemma proper_dotdot : proper_name dotdot.
Proof.
  split; [done|]. apply (bool_decide_unpack _). vm_compute. exact I.
Qed.

Lemma normal_step_ok abs stack sep name :
  stack_ok abs stack -> proper_name name -> stack_ok abs (normal_step abs (stack, sep) name).1.
Proof.
  intros (k & top & -> & Htop & Habs & Hall) Hn. unfold normal_step.
  case_bool_decide as Hd; [by exists k, top|].
  case_bool_decide as Hdd.
  - destruct top as [|t top].
    + destruct k as [|k]; simpl.
      * destruct abs; [by exists 0%nat, []|]. exists 1%nat, [].
        split; [done|]. split; [done|]. split; [done|]. repeat constructor; apply proper_dotdot.
      * exists (S (S k)), [].
        split; [done|]. split; [done|]. split; [intros ->; by specialize (Habs eq_refl)|].
        constructor; [apply proper_dotdot|done].
    + apply Forall_cons_1 in Htop as [[Ht1 Ht2] Htop]. simpl.
      rewrite bool_decide_eq_false_2 by done. exists k, top.
      apply Forall_cons_1 in Hall as [_ Hall]. done.
  - exists k, (name :: top). split; [done|]. split; [by constructor|]. split; [done|by constructor].
Qed.

Lemma normal_fold_ok abs ns acc :
  stack_ok abs acc.1 -> Forall proper_name ns ->
  stack_ok abs (fold_left (normal_step abs) ns acc).1.
Proof.
  revert acc. induction ns as [|n ns IH]; intros acc Hacc Hns; [done|].
  apply Forall_cons_1 in Hns as [Hn Hns]. cbn [fold_left]. apply IH; [|done].
  destruct acc as [stack sep]. by apply normal_step_ok.
Qed.

(** Folding names none of which is a dot or a dot-dot just pushes them. *)
Lemma normal_fold_plain abs ns stack sep :
  Forall plain ns ->
  fold_left (normal_step abs) ns (stack, sep) =
  (rev ns ++ stack, if bool_decide (ns = []) then sep else false).
Proof.
  revert stack sep. induction ns as [|n ns IH]; intros stack sep H; [done|].
  apply Forall_cons_1 in H as [[H1 H2] H]. cbn [fold_left]. unfold normal_step at 2.
  rewrite !bool_decide_eq_false_2 by done. rewrite IH by done.
  simpl. rewrite <- app_assoc. simpl. by destruct ns.
Qed.

Lemma fold_dotdots k stack sep :
  fold_left (normal_step false) (repeat dotdot k) (repeat dotdot stack, sep) =
  (repeat dotdot (k + stack), if (k =? 0)%nat then sep else false).
Proof.
  revert stack sep. induction k as [|k IH]; intros stack sep; [done|].
  cbn [repeat fold_left].
  replace (normal_step false (repeat dotdot stack, sep) dotdot)
    with (repeat dotdot (S stack), false) by (by destruct stack).
  rewrite IH. replace (k + S stack)%nat with (S k + stack)%nat by lia. by destruct k.
Qed.

(** Names of a normal path: dot-dots, then plain names. *)
Lemma lexically_normal_names p :
  wf_path p -> exists k top, Forall plain top /\ (absolute p = true -> k = 0%nat) /\
    wf_path (lexically_normal p) /\
    (names (lexically_normal p) = repeat dotdot k ++ top \/
     names (lexically_normal p) = [dot]) /\
    absolute (lexically_normal p) = absolute p.
Proof.
  intros Hwf. unfold lexically_normal. destruct (path_empty p) eqn:Ee.
  - unfold path_empty in Ee. apply andb_true_iff in Ee as [He1 He2%bool_decide_eq_true].
    exists 0%nat, []. rewrite He2. repeat split; auto.
  - pose proof (normal_fold_ok (absolute p) (names p) ([], false)) as H.
    destruct (fold_left _ (names p) ([], false)) as [stack sep].
    destruct H as (k & top & Hs & Htop & Habs & Hall);
      [by exists 0%nat, []|done|]. cbn [fst] in *.
    exists k, (rev top). split; [by apply Forall_rev|]. split; [done|].
    destruct stack as [|t stack].
    + destruct (absolute p) eqn:Ea; cbn [names absolute]; unfold wf_path; cbn [names].
      * split; [done|]. split; [|done]. left. destruct top; [|done]. by destruct k.
      * split; [|auto]. repeat constructor; [done|]. apply (bool_decide_unpack _). vm_compute. exact I.
    + unfold wf_path. cbn [names absolute]. split; [by apply Forall_rev|]. split; [|done]. left.
      rewrite Hs, rev_app_distr. f_equal. clear. induction k; [done|]. simpl. rewrite IHk.
      by rewrite <- repeat_cons.
Qed.

Lemma mismatch_at_end_prefix a b : mismatch_at_end a b = true <-> exists r, b = a ++ r.
Proof.
  revert b. induction a as [|x a IH]; intros b; simpl; [split; [by exists b|done]|].
  destruct b as [|y b]; [by split; [|intros [? ?]]|].
  case_bool_decide as H; [subst|].
  - rewrite IH. split; intros [r Hr]; exists r; [by rewrite Hr|by injection Hr].
  - split; [done|]. intros [r Hr]. by injection Hr as ->.
Qed.

Lemma lexically_normal_dot p :
  wf_path p -> names (lexically_normal p) = [dot] ->
  absolute (lexically_normal p) = false /\ trailing (lexically_normal p) = false.
Proof.
  intros Hwf. unfold lexically_normal. destruct (path_empty p) eqn:Ee.
  - unfold path_empty in Ee. apply andb_true_iff in Ee as [_ He%bool_decide_eq_true]. by rewrite He.
  - pose proof (normal_fold_ok (absolute p) (names p) ([], false)) as H.
    destruct (fold_left _ (names p) ([], false)) as [stack sep].
    destruct H as (k & top & Hs & Htop & _ & _); [by exists 0%nat, []|done|]. cbn [fst] in *.
    destruct stack as [|t stack]; [by destruct (absolute p)|]. cbn [names].
    intros Hr. exfalso. apply (f_equal (@rev _)) in Hr. rewrite rev_involutive in Hr.
    rewrite Hs in Hr. destruct top as [|t' top].
    + destruct k as [|k]; [done|]. by injection Hr.
    + injection Hr as Ht _. apply Forall_cons_1 in Htop as [[Hd _] _]. done.
Qed.

(** Appending plain names to a normal path and normalising adds them at the end. *)
Lemma normal_append r q k top ns :
  names r = repeat dotdot k ++ top \/ (names r = [dot] /\ k = 0%nat /\ top = []) ->
  Forall plain top -> (absolute r = true -> k = 0%nat) ->
  names q = ns -> Forall plain ns -> ns <> [] -> absolute q = false ->
  lexically_normal (path_append r q) =
    {| absolute := absolute r; names := repeat dotdot k ++ top ++ ns; trailing := trailing q |}.
Proof.
  intros Hr Htop Habs Hq Hns Hne Hqa. subst ns. unfold path_append. rewrite Hqa.
  unfold path_empty at 1. rewrite Hqa, bool_decide_eq_false_2 by done. cbn [negb andb].
  unfold lexically_normal, path_empty. cbn [absolute names trailing].
  rewrite (bool_decide_eq_false_2 (names r ++ names q = [])), andb_false_r
    by (by destruct (names r), (names q)).
  assert (Hfold : exists sep, fold_left (normal_step (absolute r)) (names r) ([], false) =
    (rev top ++ repeat dotdot k, sep)).
  { destruct Hr as [->|(-> & -> & ->)]; [|by exists true].
    rewrite fold_left_app. destruct (absolute r).
    - rewrite (Habs eq_refl). cbn [repeat fold_left]. rewrite normal_fold_plain by done. eauto.
    - pose proof (fold_dotdots k 0 false) as Hd. rewrite Nat.add_0_r in Hd. cbn [repeat] in Hd.
      rewrite Hd, normal_fold_plain by done. eauto. }
  destruct Hfold as [sep Hfold]. rewrite fold_left_app, Hfold, normal_fold_plain by done.
  rewrite (bool_decide_eq_false_2 (names q = [])) by done.
  destruct (rev (names q) ++ rev top ++ repeat dotdot k) as [|t st] eqn:Est.
  { apply app_eq_nil in Est as [Est _]. apply (f_equal (@rev _)) in Est.
    by rewrite rev_involutive in Est. }
  assert (Ht : t <> dotdot).
  { destruct (rev (names q)) as [|t' l] eqn:Er.
    - apply (f_equal (@rev _)) in Er. by rewrite rev_involutive in Er.
    - injection Est as -> _. apply Forall_rev in Hns. rewrite Er in Hns.
      by apply Forall_cons_1 in Hns as [[_ ?] _]. }
  rewrite bool_decide_eq_false_2, andb_true_r by done. cbn [orb]. f_equal.
  rewrite <- Est, !rev_app_distr, !rev_involutive, <- app_assoc. f_equal.
  clear. induction k as [|k IH]; [done|]. cbn [repeat rev]. rewrite IH. by rewrite <- repeat_cons.
Qed.

Lemma join_slash_cons n l : l <> [] -> join_slash (n :: l) = n ++ slash :: join_slash l.
Proof. by destruct l. Qed.

Lemma split_slash_name n : slash ∉ n -> split_slash n = [n].
Proof.
  induction n as [|c n IH]; intros Hn; [done|]. cbn [split_slash].
  rewrite bool_decide_eq_false_2 by set_solver. rewrite IH by set_solver. done.
Qed.

Lemma split_slash_app n s : slash ∉ n -> split_slash (n ++ slash :: s) = n :: split_slash s.
Proof.
  induction n as [|c n IH]; intros Hn; [done|]. cbn [split_slash app].
  rewrite bool_decide_eq_false_2 by set_solver. rewrite IH by set_solver. done.
Qed.

Lemma split_join l : l <> [] -> Forall proper_name l -> split_slash (join_slash l) = l.
Proof.
  induction l as [|n l IH]; intros Hne Hl; [done|]. apply Forall_cons_1 in Hl as [[Hn Hs] Hl].
  destruct l as [|n' l]; [by apply split_slash_name|].
  rewrite join_slash_cons, split_slash_app by done. by rewrite IH.
Qed.

Lemma last_join l c : Forall proper_name l -> last (join_slash l) = Some c -> c <> slash.
Proof.
  induction l as [|n l IH]; intros Hl Hc; [done|]. apply Forall_cons_1 in Hl as [[Hn Hs] Hl].
  destruct l as [|n' l].
  - cbn [join_slash] in Hc. apply last_Some_elem_of in Hc. set_solver.
  - rewrite join_slash_cons, last_app_cons in Hc by done.
    assert (join_slash (n' :: l) <> []) as Hj.
    { apply Forall_cons_1 in Hl as [[? _] _]. destruct l; [done|]. cbn. by destruct n'. }
    destruct (join_slash (n' :: l)) eqn:E; [done|]. rewrite last_cons_cons in Hc. by apply IH.
Qed.

(** A joined relative path parses to its names. *)
Lemma path_of_join l :
  l <> [] -> Forall proper_name l ->
  path_of_string (join_slash l) = {| absolute := false; names := l; trailing := false |}.
Proof.
  intros Hne Hl. unfold path_of_string. rewrite split_join by done.
  assert (Hf : filter (fun f => f <> []) l = l).
  { clear Hne. induction Hl as [|n l [Hn _] _ IH]; [done|]. rewrite filter_cons_True by done. by rewrite IH. }
  rewrite Hf. f_equal.
  - destruct l as [|n l]; [done|]. apply Forall_cons_1 in Hl as [[Hn Hs] _].
    destruct n as [|c n]; [done|]. destruct l; cbn; rewrite bool_decide_eq_false_2; set_solver.
  - destruct (last (join_slash l)) as [c|] eqn:E; [|done].
    rewrite bool_decide_eq_false_2; [done|]. by eapply last_join.
Qed.
