(* ===== verification/Ring.v ===== *)
(** * Ring: the lock-free ring and the semaphore of the client ([client/ring.h], [client/storage.h])

    One producer, one consumer, and any number of calls of [close]. A step is
    one access to a shared variable (an atomic operation together with the
    notification that follows it, or the access to a slot), so every
    interleaving of the threads is a sequence of steps. The acquire and release
    orders make the operations on the atomics sequentially consistent enough
    for that: a slot is written before the store that publishes it. *)

From coqutil Require Import Datatypes.RecordSetters.
From S2P Require Import Prelude.
Import TriangleBracketNotations.
Open Scope record_set.

(** ** The ring *)

(** Where the two operations stand: the locals they have read so far. *)
Inductive PushPc (T : Type) :=
  | PushIdle
  | PushLoadClosed (v : T) (tl : Z)
  | PushLoadHead (v : T) (tl : Z)
  | PushLoadGate (v : T) (tl : Z)
  | PushRecheckHead (v : T) (tl g : Z)
  | PushRecheckClosed (v : T) (tl g : Z)
  | PushWait (v : T) (tl g : Z)
  | PushStore (v : T) (tl : Z)
  | PushTail (v : T) (tl : Z)
  | PushNotify.
Arguments PushIdle {T}. Arguments PushLoadClosed {T}. Arguments PushLoadHead {T}.
Arguments PushLoadGate {T}. Arguments PushRecheckHead {T}. Arguments PushRecheckClosed {T}.
Arguments PushWait {T}. Arguments PushStore {T}. Arguments PushTail {T}. Arguments PushNotify {T}.

Inductive PopPc (T : Type) :=
  | PopIdle
  | PopLoadTail (hd : Z)
  | PopLoadClosed (hd : Z)
  | PopReloadTail (hd : Z)
  | PopLoadGate (hd : Z)
  | PopRecheckTail (hd g : Z)
  | PopRecheckClosed (hd g : Z)
  | PopWait (hd g : Z)
  | PopTake (hd : Z)
  | PopHead (hd : Z) (out : T)
  | PopNotify (out : T).
Arguments PopIdle {T}. Arguments PopLoadTail {T}. Arguments PopLoadClosed {T}.
Arguments PopReloadTail {T}. Arguments PopLoadGate {T}. Arguments PopRecheckTail {T}.
Arguments PopRecheckClosed {T}. Arguments PopWait {T}. Arguments PopTake {T}.
Arguments PopHead {T}. Arguments PopNotify {T}.

Inductive ClosePc := CloseIdle | CloseNotEmpty | CloseNotFull.

(** The members of [SpscRing]; then the three callers, the elements that went in
    and came out, and the number of times [close] has notified each gate. *)
Record SpscRing (T : Type) := mkRing {
  buf : list T;
  head_ : Z;
  tail_ : Z;
  notEmptyGate : Z;
  notFullGate : Z;
  closed : bool;
  pusher : PushPc T;
  popper : PopPc T;
  closer : ClosePc;
  pushed : list T;
  popped : list T;
  empty_notified : nat;
  full_notified : nat;
}.
Arguments buf {T}. Arguments head_ {T}. Arguments tail_ {T}. Arguments notEmptyGate {T}.
Arguments notFullGate {T}. Arguments closed {T}. Arguments pusher {T}. Arguments popper {T}.
Arguments closer {T}. Arguments pushed {T}. Arguments popped {T}. Arguments empty_notified {T}.
Arguments full_notified {T}. Arguments mkRing {T}.

Section Ring.
Context {T : Type}.

(** [Cap] is a power of two. *)
Variable k : Z.
Hypothesis k_small : 0 <= k <= 30.

Definition Cap : Z := 2 ^ k.
Definition Mask : Z := Cap - 1.
Definition slot (i : Z) : nat := Z.to_nat (Z.land i Mask).

(** [std::array<T, Cap>], whatever its elements are. *)
Definition new_ring (init : list T) : SpscRing T :=
  {| buf := init; head_ := 0; tail_ := 0; notEmptyGate := 0; notFullGate := 0; closed := false;
     pusher := PushIdle; popper := PopIdle; closer := CloseIdle; pushed := []; popped := [];
     empty_notified := 0; full_notified := 0 |}.

(** The next access of [push], and what it returns if it is the last; [None]
    when there is no call or it waits. [wait(g)] returns once the gate differs. *)
Definition push_next (s : SpscRing T) : option (SpscRing T * option bool) :=
  match pusher s with
  | PushIdle => None
  | PushLoadClosed v tl =>
      if closed s then Some (s <| pusher := PushIdle |>, Some false)
      else Some (s <| pusher := PushLoadHead v tl |>, None)
  | PushLoadHead v tl =>
      if wrap 64 (tl - head_ s) <? Cap then Some (s <| pusher := PushStore v tl |>, None)
      else Some (s <| pusher := PushLoadGate v tl |>, None)
  | PushLoadGate v tl => Some (s <| pusher := PushRecheckHead v tl (notFullGate s) |>, None)
  | PushRecheckHead v tl g =>
      if wrap 64 (tl - head_ s) <? Cap then Some (s <| pusher := PushLoadClosed v tl |>, None)
      else Some (s <| pusher := PushRecheckClosed v tl g |>, None)
  | PushRecheckClosed v tl g =>
      if closed s then Some (s <| pusher := PushLoadClosed v tl |>, None)
      else Some (s <| pusher := PushWait v tl g |>, None)
  | PushWait v tl g =>
      if notFullGate s =? g then None else Some (s <| pusher := PushLoadClosed v tl |>, None)
  | PushStore v tl => Some (s <| buf := <[slot tl := v]> (buf s) |> <| pusher := PushTail v tl |>, None)
  | PushTail v tl =>
      Some (s <| tail_ := wrap 64 (tl + 1) |> <| pushed := pushed s ++ [v] |> <| pusher := PushNotify |>, None)
  | PushNotify =>
      Some (s <| notEmptyGate := wrap 32 (notEmptyGate s + 1) |> <| pusher := PushIdle |>, Some true)
  end.

Definition pop_next (s : SpscRing T) : option (SpscRing T * option (option T)) :=
  match popper s with
  | PopIdle => None
  | PopLoadTail hd =>
      if negb (hd =? tail_ s) then Some (s <| popper := PopTake hd |>, None)
      else Some (s <| popper := PopLoadClosed hd |>, None)
  | PopLoadClosed hd =>
      if closed s then Some (s <| popper := PopReloadTail hd |>, None)
      else Some (s <| popper := PopLoadGate hd |>, None)
  | PopReloadTail hd =>
      if hd =? tail_ s then Some (s <| popper := PopIdle |>, Some None)
      else Some (s <| popper := PopTake hd |>, None)
  | PopLoadGate hd => Some (s <| popper := PopRecheckTail hd (notEmptyGate s) |>, None)
  | PopRecheckTail hd g =>
      if negb (hd =? tail_ s) then Some (s <| popper := PopLoadTail hd |>, None)
      else Some (s <| popper := PopRecheckClosed hd g |>, None)
  | PopRecheckClosed hd g =>
      if closed s then Some (s <| popper := PopLoadTail hd |>, None)
      else Some (s <| popper := PopWait hd g |>, None)
  | PopWait hd g =>
      if notEmptyGate s =? g then None else Some (s <| popper := PopLoadTail hd |>, None)
  | PopTake hd =>
      match buf s !! slot hd with
      | Some v => Some (s <| popper := PopHead hd v |>, None)
      | None => None
      end
  | PopHead hd v =>
      Some (s <| head_ := wrap 64 (hd + 1) |> <| popped := popped s ++ [v] |> <| popper := PopNotify v |>, None)
  | PopNotify v =>
      Some (s <| notFullGate := wrap 32 (notFullGate s + 1) |> <| popper := PopIdle |>, Some (Some v))
  end.

Definition close_next (s : SpscRing T) : option (SpscRing T) :=
  match closer s with
  | CloseIdle => None
  | CloseNotEmpty =>
      Some (s <| notEmptyGate := wrap 32 (notEmptyGate s + 1) |> <| empty_notified ::= Datatypes.S |>
              <| closer := CloseNotFull |>)
  | CloseNotFull =>
      Some (s <| notFullGate := wrap 32 (notFullGate s + 1) |> <| full_notified ::= Datatypes.S |>
              <| closer := CloseIdle |>)
  end.

Inductive ring_label :=
  | CallPush (v : T) | CallPop | CallClose
  | Pushing (r : option bool) | Popping (r : option (option T)) | ClosingStep.

Inductive ring_step : ring_label -> SpscRing T -> SpscRing T -> Prop :=
  | call_push s v :
      pusher s = PushIdle -> ring_step (CallPush v) s (s <| pusher := PushLoadClosed v (tail_ s) |>)
  | call_pop s :
      popper s = PopIdle -> ring_step CallPop s (s <| popper := PopLoadTail (head_ s) |>)
  | call_close s :
      closer s = CloseIdle -> ring_step CallClose s (s <| closed := true |> <| closer := CloseNotEmpty |>)
  | pushing s s' r : push_next s = Some (s', r) -> ring_step (Pushing r) s s'
  | popping s s' r : pop_next s = Some (s', r) -> ring_step (Popping r) s s'
  | closing_step s s' : close_next s = Some s' -> ring_step ClosingStep s s'.

Definition any_ring_step (s s' : SpscRing T) : Prop := exists l, ring_step l s s'.

(** What is in the ring. *)
Definition items (s : SpscRing T) : list T := drop (length (popped s)) (pushed s).

(** ** Invariant *)

Abbreviation npush s := (Z.of_nat (length (pushed s))).
Abbreviation npop s := (Z.of_nat (length (popped s))).

(** The notifications each gate has seen. *)
Definition empty_count (s : SpscRing T) : Z :=
  npush s - (match pusher s with PushNotify => 1 | _ => 0 end) + Z.of_nat (empty_notified s).
Definition full_count (s : SpscRing T) : Z :=
  npop s - (match popper s with PopNotify _ => 1 | _ => 0 end) + Z.of_nat (full_notified s).

Definition cell (s : SpscRing T) (i : Z) : option T := buf s !! slot i.

(** A gate was read as [g] when it had seen [n] notifications, none of which is
    older than what the reader could not have missed. *)
Definition push_gate (s : SpscRing T) (g n : Z) : Prop :=
  g = wrap 32 n /\ n <= full_count s /\ npush s - Cap - 1 <= n.
Definition pop_gate (s : SpscRing T) (g n : Z) : Prop :=
  g = wrap 32 n /\ n <= empty_count s /\ npop s - 1 <= n.

(** While no notification has come in, the reason to wait stands or its end is
    about to be notified. *)
Definition full_or_told (s : SpscRing T) (n : Z) : Prop :=
  n = full_count s -> npush s - npop s = Cap \/ exists v, popper s = PopNotify v.
Definition open_or_told_full (s : SpscRing T) (n : Z) : Prop :=
  n = full_count s -> closed s = false \/ closer s <> CloseIdle.
Definition empty_or_told (s : SpscRing T) (n : Z) : Prop :=
  n = empty_count s -> npush s = npop s \/ pusher s = PushNotify.
Definition open_or_told_empty (s : SpscRing T) (n : Z) : Prop :=
  n = empty_count s -> closed s = false \/ closer s = CloseNotEmpty.

Definition push_inv (s : SpscRing T) : Prop :=
  match pusher s with
  | PushIdle | PushNotify => True
  | PushLoadClosed _ tl | PushLoadHead _ tl | PushLoadGate _ tl => tl = tail_ s
  | PushRecheckHead _ tl g => tl = tail_ s /\ exists n, push_gate s g n
  | PushRecheckClosed _ tl g => tl = tail_ s /\ exists n, push_gate s g n /\ full_or_told s n
  | PushWait _ tl g => tl = tail_ s /\ exists n, push_gate s g n /\ full_or_told s n /\ open_or_told_full s n
  | PushStore _ tl => tl = tail_ s /\ npush s - npop s < Cap
  | PushTail v tl => tl = tail_ s /\ npush s - npop s < Cap /\ cell s (npush s) = Some v
  end.

Definition pop_inv (s : SpscRing T) : Prop :=
  match popper s with
  | PopIdle => True
  | PopNotify v => last (popped s) = Some v
  | PopLoadTail hd | PopLoadClosed hd | PopLoadGate hd => hd = head_ s
  | PopReloadTail hd => hd = head_ s /\ closed s = true
  | PopRecheckTail hd g => hd = head_ s /\ exists n, pop_gate s g n
  | PopRecheckClosed hd g => hd = head_ s /\ exists n, pop_gate s g n /\ empty_or_told s n
  | PopWait hd g => hd = head_ s /\ exists n, pop_gate s g n /\ empty_or_told s n /\ open_or_told_empty s n
  | PopTake hd => hd = head_ s /\ npop s < npush s
  | PopHead hd v => hd = head_ s /\ pushed s !! length (popped s) = Some v
  end.

Record ring_inv (s : SpscRing T) : Prop := {
  ri_buf : Z.of_nat (length (buf s)) = Cap;
  ri_head : head_ s = wrap 64 (npop s);
  ri_tail : tail_ s = wrap 64 (npush s);
  ri_bound : npop s <= npush s <= npop s + Cap;
  ri_prefix : popped s = take (length (popped s)) (pushed s);
  ri_cells : forall i, npop s <= i < npush s -> pushed s !! Z.to_nat i = cell s i;
  ri_empty : notEmptyGate s = wrap 32 (empty_count s);
  ri_full : notFullGate s = wrap 32 (full_count s);
  ri_closed : closer s <> CloseIdle -> closed s = true;
  ri_push : push_inv s;
  ri_pop : pop_inv s;
}.

(** ** Counting *)

Lemma cap_bounds : 0 < Cap <= 2 ^ 30.
Proof. unfold Cap. split; [apply Z.pow_pos_nonneg|apply Z.pow_le_mono_r]; lia. Qed.

Lemma slot_mod i : slot i = Z.to_nat (i mod Cap).
Proof.
  unfold slot, Mask, Cap. replace (2 ^ k - 1) with (Z.ones k) by (rewrite Z.ones_equiv; lia).
  by rewrite land_ones_wrap by lia.
Qed.

Lemma slot_lt i : Z.of_nat (slot i) < Cap.
Proof. rewrite slot_mod. pose proof cap_bounds. pose proof (Z.mod_pos_bound i Cap). lia. Qed.

Lemma slot_wrap i : slot (wrap 64 i) = slot i.
Proof.
  rewrite !slot_mod. unfold wrap. f_equal. apply Z.mod_mod_divide. unfold Cap.
  exists (2 ^ (64 - k)). rewrite <- Z.pow_add_r by lia. f_equal. lia.
Qed.

Lemma slot_inj i j : - Cap < i - j < Cap -> slot i = slot j -> i = j.
Proof.
  intros Hd. rewrite !slot_mod. pose proof cap_bounds as Hc. intros E.
  pose proof (Z.mod_pos_bound i Cap). pose proof (Z.mod_pos_bound j Cap).
  assert (E' : i mod Cap = j mod Cap) by lia.
  pose proof (Z.div_mod i Cap ltac:(lia)). pose proof (Z.div_mod j Cap ltac:(lia)).
  assert (Hq : i - j = Cap * (i / Cap - j / Cap)) by lia. set (q := i / Cap - j / Cap) in *.
  assert (q = 0) by (destruct (Z.lt_trichotomy q 0) as [?|[?|?]]; nia). subst q. nia.
Qed.

Lemma wrap_sub_small h p : 0 <= p - h <= Cap -> wrap 64 (wrap 64 p - wrap 64 h) = p - h.
Proof.
  intros Hd. pose proof cap_bounds. unfold wrap.
  rewrite <- Zminus_mod. apply Z.mod_small. lia.
Qed.

Lemma wrap_eqb w a b : 0 <= b - a < 2 ^ w -> (wrap w a =? wrap w b) = (a =? b).
Proof.
  intros Hd. destruct (Z.eqb_spec a b) as [->|Hne]; [apply Z.eqb_refl|]. apply Z.eqb_neq. intros E.
  assert (H0 : (b - a) mod 2 ^ w = 0).
  { unfold wrap in E. rewrite Zminus_mod, E, Z.sub_diag. apply Z.mod_0_l. lia. }
  rewrite Z.mod_small in H0 by lia. lia.
Qed.

(** ** Moves of one caller that touch nothing shared *)

Lemma pusher_moves s pc :
  ring_inv s -> pusher s <> PushNotify -> pc <> PushNotify ->
  push_inv (s <| pusher := pc |>) -> ring_inv (s <| pusher := pc |>).
Proof.
  intros [] H1 H2 Hpc.
  assert (Hcount : empty_count (s <| pusher := pc |>) = empty_count s).
  { unfold empty_count. cbn. destruct (pusher s), pc; done. }
  constructor; try done; [by rewrite Hcount|].
  unfold pop_inv, pop_gate, empty_or_told, open_or_told_empty in *. rewrite Hcount.
  change (popper (s <| pusher := pc |>)) with (popper s). destruct (popper s); try done.
  - destruct ri_pop0 as (? & n & ? & Ho). split; [done|]. exists n. split; [done|].
    intros Hn. left. by destruct (Ho Hn).
  - destruct ri_pop0 as (? & n & ? & Ho & ?). split; [done|]. exists n. split; [done|]. split; [|done].
    intros Hn. left. by destruct (Ho Hn).
Qed.

Abbreviation notifying pc := (exists v, pc = PopNotify v).

Lemma popper_moves s pc :
  ring_inv s -> ~ notifying (popper s) -> ~ notifying pc ->
  pop_inv (s <| popper := pc |>) -> ring_inv (s <| popper := pc |>).
Proof.
  intros [] H1 H2 Hpc.
  assert (Hcount : full_count (s <| popper := pc |>) = full_count s).
  { unfold full_count. cbn. destruct (popper s), pc; try done; exfalso; eauto. }
  constructor; try done; [by rewrite Hcount|].
  unfold push_inv, push_gate, full_or_told, open_or_told_full in *. rewrite Hcount.
  change (pusher (s <| popper := pc |>)) with (pusher s). destruct (pusher s); try done.
  - destruct ri_push0 as (? & n & ? & Ho). split; [done|]. exists n. split; [done|].
    intros Hn. left. by destruct (Ho Hn).
  - destruct ri_push0 as (? & n & ? & Ho & ?). split; [done|]. exists n. split; [done|]. split; [|done].
    intros Hn. left. by destruct (Ho Hn).
Qed.

(** ** Steps that change something shared *)

Lemma gate_load_full s : ring_inv s -> push_gate s (notFullGate s) (full_count s).
Proof.
  intros []. unfold push_gate. split; [done|]. split; [lia|]. unfold full_count.
  destruct (popper s); lia.
Qed.

Lemma gate_load_empty s : ring_inv s -> pop_gate s (notEmptyGate s) (empty_count s).
Proof.
  intros []. unfold pop_gate. split; [done|]. split; [lia|]. unfold empty_count.
  destruct (pusher s); lia.
Qed.

Lemma store_inv s v tl :
  ring_inv s -> pusher s = PushStore v tl ->
  ring_inv (s <| buf := <[slot tl := v]> (buf s) |> <| pusher := PushTail v tl |>).
Proof.
  intros H Hp. assert (Hpush := ri_push s H). unfold push_inv in Hpush. rewrite Hp in Hpush.
  destruct Hpush as [-> Hroom]. pose proof (slot_lt (npush s)) as Hslot.
  set (s1 := s <| buf := <[slot (tail_ s) := v]> (buf s) |>).
  assert (Hcells : forall i, cell s1 i = if decide (slot i = slot (npush s)) then Some v else cell s i).
  { intros i. unfold s1, cell. cbn. rewrite (ri_tail s H), slot_wrap. destruct (decide _) as [->|Hne].
    - apply list_lookup_insert_eq. pose proof (ri_buf s H). lia.
    - by apply list_lookup_insert_ne. }
  assert (H1 : ring_inv s1).
  { destruct H. constructor; try done.
    - change (Z.of_nat (length (<[slot (tail_ s) := v]> (buf s))) = Cap). by rewrite length_insert.
    - intros i Hi. change (npop s <= i < npush s) in Hi.
      rewrite Hcells. destruct (decide _) as [E|_]; [|by apply ri_cells0].
      exfalso. apply slot_inj in E; lia.
    - unfold push_inv. change (pusher s1) with (pusher s). by rewrite Hp. }
  apply pusher_moves; [done| |done|].
  { change (pusher s <> PushNotify). by rewrite Hp. }
  unfold push_inv. cbn -[cell]. split; [done|]. split; [done|].
  change (cell s1 (npush s) = Some v). rewrite Hcells. by rewrite decide_True.
Qed.

Lemma tail_inv s v tl :
  ring_inv s -> pusher s = PushTail v tl ->
  ring_inv (s <| tail_ := wrap 64 (tl + 1) |> <| pushed := pushed s ++ [v] |> <| pusher := PushNotify |>).
Proof.
  intros H Hp. assert (Hpush := ri_push s H). unfold push_inv in Hpush. rewrite Hp in Hpush.
  destruct Hpush as (-> & Hroom & Hcell). set (s1 := s <| tail_ := _ |> <| pushed := _ |> <| pusher := _ |>).
  assert (Hlen : npush s1 = npush s + 1).
  { change (npush s1) with (Z.of_nat (length (pushed s ++ [v]))). rewrite length_app. cbn. lia. }
  assert (Hcount : empty_count s1 = empty_count s).
  { change (empty_count s1) with (npush s1 - 1 + Z.of_nat (empty_notified s)).
    unfold empty_count. rewrite Hlen, Hp. lia. }
  destruct H. constructor; try done.
  - rewrite Hlen. change (wrap 64 (tail_ s + 1) = wrap 64 (npush s + 1)). rewrite ri_tail0. apply wrap_add_l.
  - rewrite Hlen. change (popped s1) with (popped s). lia.
  - change (popped s = take (length (popped s)) (pushed s ++ [v])). rewrite take_app_le by lia. done.
  - intros i Hi. change (cell s1 i) with (cell s i). rewrite Hlen in Hi. change (npop s1) with (npop s) in Hi.
    change (pushed s1) with (pushed s ++ [v]). destruct (decide (i = npush s)) as [->|Hne].
    + rewrite Hcell, Nat2Z.id. by apply list_lookup_middle.
    + rewrite lookup_app_l by lia. apply ri_cells0. lia.
  - by rewrite Hcount.
  - unfold pop_inv, pop_gate, empty_or_told, open_or_told_empty in *. rewrite Hcount, Hlen.
    change (popper s1) with (popper s). change (popped s1) with (popped s). change (head_ s1) with (head_ s).
    change (closed s1) with (closed s). change (closer s1) with (closer s).
    destruct (popper s); try done.
    + destruct ri_pop0 as (? & n & ? & _). split; [done|]. exists n. split; [done|]. by right.
    + destruct ri_pop0 as (? & n & ? & _ & ?). split; [done|]. exists n. split; [done|]. split; [by right|done].
    + lia.
    + destruct ri_pop0 as [? Hl]. split; [done|].
      change ((pushed s ++ [v]) !! length (popped s) = Some out). by apply lookup_app_l_Some.
Qed.

(** One more notification of a gate leaves nothing to miss. *)
Lemma pop_told s s1 :
  pop_inv s -> empty_count s1 = empty_count s + 1 -> popper s1 = popper s -> popped s1 = popped s ->
  pushed s1 = pushed s -> head_ s1 = head_ s -> closed s1 = closed s -> pop_inv s1.
Proof.
  unfold pop_inv, pop_gate, empty_or_told, open_or_told_empty. intros H -> -> -> -> -> ->.
  destruct (popper s); try exact H.
  - destruct H as (? & n & ? & ? & ?). split; [done|]. exists n. split_and!; [done|lia|done].
  - destruct H as (? & n & (? & ? & ?) & _). split; [done|]. exists n. split_and!; [done|lia|done|]. intros ->. lia.
  - destruct H as (? & n & (? & ? & ?) & _). split; [done|]. exists n.
    split_and!; [done|lia|done|intros ->; lia..].
Qed.

Lemma push_told s s1 :
  push_inv s -> full_count s1 = full_count s + 1 -> pusher s1 = pusher s -> pushed s1 = pushed s ->
  popped s1 = popped s -> tail_ s1 = tail_ s -> buf s1 = buf s -> push_inv s1.
Proof.
  unfold push_inv, push_gate, full_or_told, open_or_told_full, cell. intros H -> -> -> -> -> ->.
  destruct (pusher s); try exact H.
  - destruct H as (? & n & ? & ? & ?). split; [done|]. exists n. split_and!; [done|lia|done].
  - destruct H as (? & n & (? & ? & ?) & _). split; [done|]. exists n. split_and!; [done|lia|done|]. intros ->. lia.
  - destruct H as (? & n & (? & ? & ?) & _). split; [done|]. exists n.
    split_and!; [done|lia|done|intros ->; lia..].
Qed.

Lemma notify_empty_inv s :
  ring_inv s -> pusher s = PushNotify ->
  ring_inv (s <| notEmptyGate := wrap 32 (notEmptyGate s + 1) |> <| pusher := PushIdle |>).
Proof.
  intros H Hp. set (s1 := s <| notEmptyGate := _ |> <| pusher := _ |>).
  assert (Hcount : empty_count s1 = empty_count s + 1).
  { change (empty_count s1) with (npush s - 0 + Z.of_nat (empty_notified s)).
    unfold empty_count. rewrite Hp. lia. }
  destruct H. constructor; try done.
  - rewrite Hcount. change (wrap 32 (notEmptyGate s + 1) = wrap 32 (empty_count s + 1)).
    rewrite ri_empty0. apply wrap_add_l.
  - by apply (pop_told s).
Qed.

Lemma head_inv s v hd :
  ring_inv s -> popper s = PopHead hd v ->
  ring_inv (s <| head_ := wrap 64 (hd + 1) |> <| popped := popped s ++ [v] |> <| popper := PopNotify v |>).
Proof.
  intros H Hp. assert (Hpop := ri_pop s H). unfold pop_inv in Hpop. rewrite Hp in Hpop.
  destruct Hpop as [-> Hv]. set (s1 := s <| head_ := _ |> <| popped := _ |> <| popper := _ |>).
  assert (Hlen : npop s1 = npop s + 1).
  { change (npop s1) with (Z.of_nat (length (popped s ++ [v]))). rewrite length_app. cbn. lia. }
  assert (Hlt : npop s < npush s) by (apply lookup_lt_Some in Hv; lia).
  assert (Hcount : full_count s1 = full_count s).
  { change (full_count s1) with (npop s1 - 1 + Z.of_nat (full_notified s)).
    unfold full_count. rewrite Hlen, Hp. lia. }
  destruct H. constructor; try done.
  - rewrite Hlen. change (wrap 64 (head_ s + 1) = wrap 64 (npop s + 1)). rewrite ri_head0. apply wrap_add_l.
  - rewrite Hlen. change (pushed s1) with (pushed s). lia.
  - change (popped s ++ [v] = take (length (popped s ++ [v])) (pushed s)).
    rewrite length_app, Nat.add_1_r. erewrite take_S_r by done. by f_equal.
  - intros i Hi. rewrite Hlen in Hi. apply ri_cells0. change (pushed s1) with (pushed s) in Hi. lia.
  - by rewrite Hcount.
  - unfold push_inv, push_gate, full_or_told, open_or_told_full in *. rewrite Hcount, Hlen.
    change (pusher s1) with (pusher s). change (pushed s1) with (pushed s). change (tail_ s1) with (tail_ s).
    change (closed s1) with (closed s). change (closer s1) with (closer s).
    change (cell s1) with (cell s).
    assert (Htold : exists w, popper s1 = PopNotify w) by (by exists v).
    destruct (pusher s); try done.
    + destruct ri_push0 as (? & n & ? & _). split; [done|]. exists n. split; [done|]. by right.
    + destruct ri_push0 as (? & n & ? & _ & ?). split; [done|]. exists n. split; [done|]. split; [by right|done].
    + split; [apply ri_push0|lia].
    + split; [apply ri_push0|]. split; [lia|apply ri_push0].
  - change (last (popped s ++ [v]) = Some v). apply last_snoc.
Qed.

Lemma notify_full_inv s v :
  ring_inv s -> popper s = PopNotify v ->
  ring_inv (s <| notFullGate := wrap 32 (notFullGate s + 1) |> <| popper := PopIdle |>).
Proof.
  intros H Hp. set (s1 := s <| notFullGate := _ |> <| popper := _ |>).
  assert (Hcount : full_count s1 = full_count s + 1).
  { change (full_count s1) with (npop s - 0 + Z.of_nat (full_notified s)).
    unfold full_count. rewrite Hp. lia. }
  destruct H. constructor; try done.
  - rewrite Hcount. change (wrap 32 (notFullGate s + 1) = wrap 32 (full_count s + 1)).
    rewrite ri_full0. apply wrap_add_l.
  - by apply (push_told s).
Qed.

Lemma call_close_inv s :
  ring_inv s -> closer s = CloseIdle -> ring_inv (s <| closed := true |> <| closer := CloseNotEmpty |>).
Proof.
  intros [] Hc. constructor; try done.
  - unfold push_inv in *. change (pusher (_ <| closer := _ |>)) with (pusher s).
    destruct (pusher s); try exact ri_push0.
    destruct ri_push0 as (? & n & ? & ? & _). split; [done|]. exists n. split_and!; [done..|]. intros _. by right.
  - unfold pop_inv in *. change (popper (_ <| closer := _ |>)) with (popper s).
    destruct (popper s); try exact ri_pop0.
    + by split; [apply ri_pop0|].
    + destruct ri_pop0 as (? & n & ? & ? & _). split; [done|]. exists n. split_and!; [done..|]. intros _. by right.
Qed.

Lemma close_next_inv s s' : ring_inv s -> close_next s = Some s' -> ring_inv s'.
Proof.
  intros H E. unfold close_next in E. destruct (closer s) eqn:Ec; [done| |]; injection E as <-.
  - match goal with |- ring_inv ?x => set (s1 := x) end.
    assert (Hcount : empty_count s1 = empty_count s + 1).
    { change (empty_count s1) with
        (npush s - (match pusher s with PushNotify => 1 | _ => 0 end) + Z.of_nat (S (empty_notified s))).
      unfold empty_count. lia. }
    assert (Hclosed : closed s = true) by (apply (ri_closed s H); congruence).
    destruct H. constructor; try done.
    + rewrite Hcount. change (wrap 32 (notEmptyGate s + 1) = wrap 32 (empty_count s + 1)).
      rewrite ri_empty0. apply wrap_add_l.
    + unfold push_inv in *. change (pusher s1) with (pusher s).
    destruct (pusher s); try exact ri_push0.
      destruct ri_push0 as (? & n & ? & ? & _). split; [done|]. exists n. split_and!; [done..|]. intros _. by right.
    + by apply (pop_told s).
  - match goal with |- ring_inv ?x => set (s1 := x) end.
    assert (Hcount : full_count s1 = full_count s + 1).
    { change (full_count s1) with
        (npop s - (match popper s with PopNotify _ => 1 | _ => 0 end) + Z.of_nat (S (full_notified s))).
      unfold full_count. lia. }
    assert (Hclosed : closed s = true) by (apply (ri_closed s H); congruence).
    destruct H. constructor; try done.
    + rewrite Hcount. change (wrap 32 (notFullGate s + 1) = wrap 32 (full_count s + 1)).
      rewrite ri_full0. apply wrap_add_l.
    + by apply (push_told s).
    + unfold pop_inv in *. change (popper s1) with (popper s).
    destruct (popper s); try exact ri_pop0.
      destruct ri_pop0 as (? & n & ? & ? & Ho). split; [done|]. exists n. split_and!; [done..|].
      intros Hn. left. destruct (Ho Hn); congruence.
Qed.

(** The test of [push] for room, and the one of [pop] for something to take. *)
Lemma room_test s : ring_inv s -> wrap 64 (tail_ s - head_ s) <? Cap = (npush s - npop s <? Cap).
Proof. intros []. rewrite ri_head0, ri_tail0, wrap_sub_small by lia. done. Qed.

Lemma empty_test s : ring_inv s -> (head_ s =? tail_ s) = (npop s =? npush s).
Proof.
  intros []. rewrite ri_head0, ri_tail0. apply wrap_eqb. pose proof cap_bounds. lia.
Qed.

Lemma push_next_inv s s' r : ring_inv s -> push_next s = Some (s', r) -> ring_inv s'.
Proof.
  intros H E. pose proof (ri_push s H) as Hp. pose proof (room_test s H) as Hroom.
  unfold push_inv in Hp. unfold push_next in E.
  destruct (pusher s) as [|v tl|v tl|v tl|v tl g|v tl g|v tl g|v tl|v tl|] eqn:Epc; [done|..];
    try (assert (tl = tail_ s) as -> by (tauto || exact Hp)).
  - destruct (closed s); injection E as <- <-; (apply pusher_moves; [done|congruence|done|]); done.
  - rewrite Hroom in E. destruct (Z.ltb_spec (npush s - npop s) Cap) as [Hl|Hl];
      injection E as <- <-; (apply pusher_moves; [done|congruence|done|]); done.
  - injection E as <- <-. apply pusher_moves; [done|congruence|done|].
    split; [done|]. exists (full_count s). exact (gate_load_full s H).
  - rewrite Hroom in E. destruct (Z.ltb_spec (npush s - npop s) Cap) as [Hl|Hl];
      injection E as <- <-; (apply pusher_moves; [done|congruence|done|]); [done|].
    destruct Hp as (_ & n & Hn). split; [done|]. exists n. split; [done|].
    intros _. left. change (npush s - npop s = Cap). pose proof (ri_bound s H). lia.
  - destruct (closed s) eqn:Ec; injection E as <- <-; (apply pusher_moves; [done|congruence|done|]); [done|].
    destruct Hp as (_ & n & Hn & Hf). split; [done|]. exists n. split_and!; [done|done|]. intros _. by left.
  - destruct (_ =? _); [done|]. injection E as <- <-. by (apply pusher_moves; [done|congruence|done|]).
  - injection E as <- <-. by apply store_inv.
  - injection E as <- <-. by apply tail_inv.
  - injection E as <- <-. by apply notify_empty_inv.
Qed.

Lemma pop_next_inv s s' r : ring_inv s -> pop_next s = Some (s', r) -> ring_inv s'.
Proof.
  intros H E. pose proof (ri_pop s H) as Hp. pose proof (empty_test s H) as Htest.
  pose proof (ri_bound s H) as Hb. unfold pop_inv in Hp. unfold pop_next in E.
  assert (Hidle : forall pc, ~ notifying (popper s) -> ~ notifying pc -> pop_inv (s <| popper := pc |>) ->
    ring_inv (s <| popper := pc |>)) by (intros; by apply popper_moves).
  destruct (popper s) as [|hd|hd|hd|hd|hd g|hd g|hd g|hd|hd v|v] eqn:Epc; [done|..];
    try (assert (hd = head_ s) as -> by (tauto || exact Hp)).
  - rewrite Htest in E. destruct (Z.eqb_spec (npop s) (npush s)); injection E as <- <-; apply Hidle; try (by intros []); [done|].
    split; [done|]. change (npop s < npush s). lia.
  - destruct (closed s) eqn:Ec; injection E as <- <-; apply Hidle; try (by intros []); done.
  - rewrite Htest in E. destruct (Z.eqb_spec (npop s) (npush s)); injection E as <- <-; apply Hidle; try (by intros []); [done|].
    split; [done|]. change (npop s < npush s). lia.
  - injection E as <- <-. apply Hidle; try (by intros []). split; [done|]. exists (empty_count s). exact (gate_load_empty s H).
  - rewrite Htest in E. destruct (Z.eqb_spec (npop s) (npush s)); injection E as <- <-; apply Hidle; try (by intros []); [|done].
    destruct Hp as (_ & n & Hn). split; [done|]. exists n. split; [done|]. intros _. left. change (npush s = npop s). lia.
  - destruct (closed s) eqn:Ec; injection E as <- <-; apply Hidle; try (by intros []); [done|].
    destruct Hp as (_ & n & Hn & Hf). split; [done|]. exists n. split_and!; [done|done|]. intros _. by left.
  - destruct (_ =? _); [done|]. injection E as <- <-. by apply Hidle; try (by intros []).
  - destruct (buf s !! slot (head_ s)) as [v|] eqn:Ev; [|done]. injection E as <- <-.
    apply Hidle; try (by intros []). split; [done|]. change (pushed s !! length (popped s) = Some v).
    pose proof (ri_cells s H (npop s) ltac:(lia)) as Hcell. rewrite Nat2Z.id in Hcell. rewrite Hcell.
    unfold cell. by rewrite <- slot_wrap, <- (ri_head s H).
  - injection E as <- <-. by apply head_inv.
  - injection E as <- <-. by eapply notify_full_inv.
Qed.

Lemma ring_step_inv l s s' : ring_inv s -> ring_step l s s' -> ring_inv s'.
Proof.
  intros H Hs. destruct Hs as [s v Hi|s Hi|s Hi|s s' r E|s s' r E|s s' E].
  - by (apply pusher_moves; [done|congruence|done|]).
  - apply popper_moves; [done| | |done]; rewrite ?Hi; by intros [].
  - by apply call_close_inv.
  - by eapply push_next_inv.
  - by eapply pop_next_inv.
  - by eapply close_next_inv.
Qed.

Lemma new_ring_inv init : Z.of_nat (length init) = Cap -> ring_inv (new_ring init).
Proof.
  intros Hl. pose proof cap_bounds. constructor; try done; cbn; try lia.
Qed.

Lemma reachable_ring_inv init s :
  Z.of_nat (length init) = Cap -> rtc any_ring_step (new_ring init) s -> ring_inv s.
Proof.
  intros Hl Hr. pose proof (new_ring_inv init Hl) as H. revert H.
  induction Hr as [|s1 s2 s3 [l Hs] _ IH]; [done|]. intros H. apply IH. by eapply ring_step_inv.
Qed.

(** ** Properties *)

(** C18: the ring is a FIFO of at most [Cap] elements under every interleaving of
    the producer, the consumer and closing threads: what came out and what is in
    it are what went in, in order; a [pop] that returns an element returns the
    one that came out last, one that fails was closed and drained, a [push]
    fails only on a closed ring; and a slot is never written while it holds an
    element. *)
Theorem ring_is_fifo (init : list T) (s : SpscRing T) :
  Z.of_nat (length init) = Cap -> rtc any_ring_step (new_ring init) s ->
  popped s ++ items s = pushed s /\ Z.of_nat (length (items s)) <= Cap /\
  (forall v s', ring_step (Popping (Some (Some v))) s s' -> last (popped s) = Some v) /\
  (forall s', ring_step (Popping (Some None)) s s' -> closed s = true /\ items s = []) /\
  (forall s', ring_step (Pushing (Some false)) s s' -> closed s = true) /\
  (forall v tl, pusher s = PushStore v tl -> forall i, npop s <= i < npush s -> slot i <> slot tl).
Proof.
  intros Hl Hr. assert (H : ring_inv s) by by eapply reachable_ring_inv. pose proof (ri_bound s H) as Hb.
  assert (Hitems : length (items s) = (length (pushed s) - length (popped s))%nat) by apply length_drop.
  split_and!.
  - unfold items. rewrite (ri_prefix s H) at 1. apply take_drop.
  - lia.
  - intros v s' Hs. inversion Hs as [| | | |? ? ? E|]; subst. pose proof (ri_pop s H) as Hp.
    unfold pop_inv in Hp. unfold pop_next in E. destruct (popper s); split_ifs; simplify_eq; try done.
    by destruct (buf s !! _).
  - intros s' Hs. inversion Hs as [| | | |? ? ? E|]; subst. pose proof (ri_pop s H) as Hp.
    pose proof (empty_test s H) as Htest.
    unfold pop_inv in Hp. unfold pop_next in E. destruct (popper s); split_ifs; simplify_eq; try done.
    2:{ by destruct (buf s !! _). }
    destruct Hp as [-> Hc]. split; [done|]. apply nil_length_inv.
    match goal with Hq : (_ =? _) = true |- _ => rewrite Htest in Hq; apply Z.eqb_eq in Hq end. lia.
  - intros s' Hs. inversion Hs as [| | |? ? ? E| |]; subst. unfold push_next in E.
    destruct (pusher s); split_ifs; by simplify_eq.
  - intros v tl Hpc i Hi E. pose proof (ri_push s H) as Hp. unfold push_inv in Hp. rewrite Hpc in Hp.
    destruct Hp as [-> Hroom]. rewrite (ri_tail s H), slot_wrap in E. apply slot_inj in E; lia.
Qed.

(** Closing notifies a gate fewer times than would bring it round. *)
Definition few_closes (s : SpscRing T) : Prop :=
  Z.of_nat (empty_notified s) + Z.of_nat (full_notified s) + Cap + 1 < 2 ^ 32.

(** C19: no wake-up is lost: a [push] only stays in its wait while the ring is full
    and open, a [pop] while it is empty and open, or while the thread that
    changed this is about to notify; so the two never wait for each other. *)
Theorem ring_no_lost_wakeup (init : list T) (s : SpscRing T) :
  Z.of_nat (length init) = Cap -> rtc any_ring_step (new_ring init) s -> few_closes s ->
  (pusher s <> PushIdle -> push_next s = None ->
     (Z.of_nat (length (items s)) = Cap \/ exists v, popper s = PopNotify v) /\
     (closed s = false \/ closer s <> CloseIdle)) /\
  (popper s <> PopIdle -> pop_next s = None ->
     (items s = [] \/ pusher s = PushNotify) /\ (closed s = false \/ closer s = CloseNotEmpty)) /\
  ~ (pusher s <> PushIdle /\ push_next s = None /\ popper s <> PopIdle /\ pop_next s = None).
Proof.
  intros Hl Hr Hfew. assert (H : ring_inv s) by by eapply reachable_ring_inv.
  pose proof (ri_bound s H) as Hb. pose proof cap_bounds as Hcap. unfold few_closes in Hfew.
  assert (Hitems : length (items s) = (length (pushed s) - length (popped s))%nat) by apply length_drop.
  assert (Hpush : pusher s <> PushIdle -> push_next s = None ->
     (Z.of_nat (length (items s)) = Cap \/ exists v, popper s = PopNotify v) /\
     (closed s = false \/ closer s <> CloseIdle)).
  { intros Hpc E. pose proof (ri_push s H) as Hp. unfold push_inv in Hp. unfold push_next in E.
    destruct (pusher s); split_ifs; try done. destruct Hp as (_ & n & (-> & Hn1 & Hn2) & Hf & Ho).
    match goal with Hq : (_ =? _) = true |- _ =>
      rewrite (ri_full s H), Z.eqb_sym, wrap_eqb in Hq by (unfold full_count in *; destruct (popper s); lia);
      apply Z.eqb_eq in Hq end.
    split; [|by apply Ho]. destruct (Hf ltac:(done)); [left; lia|by right]. }
  assert (Hpop : popper s <> PopIdle -> pop_next s = None ->
     (items s = [] \/ pusher s = PushNotify) /\ (closed s = false \/ closer s = CloseNotEmpty)).
  { intros Hpc E. pose proof (ri_pop s H) as Hp. unfold pop_inv in Hp. unfold pop_next in E.
    destruct (popper s) as [| | | | | | |hd g|hd| |]; split_ifs; try done.
    - destruct Hp as (_ & n & (-> & Hn1 & Hn2) & Hf & Ho).
      match goal with Hq : (_ =? _) = true |- _ =>
        rewrite (ri_empty s H), Z.eqb_sym, wrap_eqb in Hq by (unfold empty_count in *; destruct (pusher s); lia);
        apply Z.eqb_eq in Hq end.
      split; [|by apply Ho]. destruct (Hf ltac:(done)); [left; apply nil_length_inv; lia|by right].
    - destruct (buf s !! slot hd) eqn:Ev; [done|]. apply lookup_ge_None in Ev.
      pose proof (slot_lt hd). pose proof (ri_buf s H). lia. }
  split_and!; [exact Hpush|exact Hpop|]. intros (H1 & H2 & H3 & H4).
  destruct (Hpush H1 H2) as [[Hfull|[v Hv]] _].
  - destruct (Hpop H3 H4) as [[Hnil|Hn] _].
    + rewrite Hnil in Hfull. cbn in Hfull. lia.
    + unfold push_next in H2. by rewrite Hn in H2.
  - unfold pop_next in H4. by rewrite Hv in H4.
Qed.

(** ** Runs *)

(** A caller goes on until its call returns or waits. *)
Fixpoint push_run (fuel : nat) (s : SpscRing T) : SpscRing T :=
  match fuel, push_next s with
  | S fuel, Some (s', _) => push_run fuel s'
  | _, _ => s
  end.

Fixpoint pop_run (fuel : nat) (s : SpscRing T) : SpscRing T :=
  match fuel, pop_next s with
  | S fuel, Some (s', _) => pop_run fuel s'
  | _, _ => s
  end.

Definition do_push (v : T) (s : SpscRing T) : SpscRing T :=
  push_run 20 (s <| pusher := PushLoadClosed v (tail_ s) |>).
Definition do_pop (s : SpscRing T) : SpscRing T := pop_run 20 (s <| popper := PopLoadTail (head_ s) |>).

Lemma push_run_steps fuel s : rtc any_ring_step s (push_run fuel s).
Proof.
  revert s. induction fuel as [|fuel IH]; intros s; [done|]. cbn [push_run].
  destruct (push_next s) as [[s' r]|] eqn:E; [|done]. eapply rtc_l; [|apply IH]. exists (Pushing r). by constructor.
Qed.

Lemma do_push_steps v s : pusher s = PushIdle -> rtc any_ring_step s (do_push v s).
Proof. intros H. eapply rtc_l; [|apply push_run_steps]. exists (CallPush v). by constructor. Qed.
End Ring.

(** A ring of two with a third [push] waiting. *)
Definition waiting_push : SpscRing Z :=
  do_push 1 9 (do_push 1 7 (do_push 1 5 (new_ring [0; 0]))).

Lemma waiting_push_reachable : rtc (any_ring_step 1) (new_ring [0; 0]) waiting_push.
Proof.
  unfold waiting_push. do 3 (etransitivity; [|apply do_push_steps; by vm_compute]). reflexivity.
Qed.

Lemma ring_is_fifo_witness :
  popped waiting_push ++ items waiting_push = pushed waiting_push /\
  Z.of_nat (length (items waiting_push)) <= Cap 1 /\
  (forall v s', ring_step 1 (Popping (Some (Some v))) waiting_push s' -> last (popped waiting_push) = Some v) /\
  (forall s', ring_step 1 (Popping (Some None)) waiting_push s' -> closed waiting_push = true /\ items waiting_push = []) /\
  (forall s', ring_step 1 (Pushing (Some false)) waiting_push s' -> closed waiting_push = true) /\
  (forall v tl, pusher waiting_push = PushStore v tl -> forall i,
     Z.of_nat (length (popped waiting_push)) <= i < Z.of_nat (length (pushed waiting_push)) -> slot 1 i <> slot 1 tl).
Proof. apply (ring_is_fifo 1 ltac:(lia) [0; 0]); [done|]. apply waiting_push_reachable. Defined.

Lemma ring_no_lost_wakeup_witness :
  (pusher waiting_push <> PushIdle -> push_next 1 waiting_push = None ->
     (Z.of_nat (length (items waiting_push)) = Cap 1 \/ exists v, popper waiting_push = PopNotify v) /\
     (closed waiting_push = false \/ closer waiting_push <> CloseIdle)) /\
  (popper waiting_push <> PopIdle -> pop_next 1 waiting_push = None ->
     (items waiting_push = [] \/ pusher waiting_push = PushNotify) /\
     (closed waiting_push = false \/ closer waiting_push = CloseNotEmpty)) /\
  ~ (pusher waiting_push <> PushIdle /\ push_next 1 waiting_push = None /\
     popper waiting_push <> PopIdle /\ pop_next 1 waiting_push = None).
Proof.
  apply (ring_no_lost_wakeup 1 ltac:(lia) [0; 0]); [done|apply waiting_push_reachable|by vm_compute].
Defined.

(** ** A second producer *)

(** Two threads push: each has its own locals, the ring is one. *)
Definition other_turn {T} (pc : PushPc T) (s : SpscRing T) : SpscRing T * PushPc T :=
  (s <| pusher := pc |>, pusher s).

(** The first stops before it publishes its slot, the second pushes as a whole,
    the first goes on: of the two elements one is gone although both calls
    returned true. *)
Definition two_pushers : SpscRing Z :=
  let s := new_ring [0; 0; 0; 0] in
  let s := push_run 2 3 (s <| pusher := PushLoadClosed 1 (tail_ s) |>) in
  let '(s, first) := other_turn PushIdle s in
  let s := do_push 2 2 s in
  let '(s, _) := other_turn first s in
  push_run 2 20 s.

Lemma second_producer_loses :
  push_next 2 two_pushers = None /\ pusher two_pushers = PushIdle /\
  tail_ two_pushers = 1 /\ buf two_pushers !! slot 2 (head_ two_pushers) = Some 2.
Proof. by vm_compute. Qed.

(** ** The semaphore *)

(** A thread that reads: outside, at the load, at the exchange with the value it
    read, waiting, or reading. *)
Inductive SemPc := SemIdle | SemLoad | SemTry (p : Z) | SemWait | SemHeld.

Record Semaphore := mkSem { permits : Z; threads : list SemPc }.

(** The argument of [diskLimit]: [static_cast<int>]. *)
Definition int32 (n : Z) : Z := let m := wrap 32 n in if m <? 2 ^ 31 then m else m - 2 ^ 32.
Definition disk_permits (diskConcurrency : Z) : Z := if diskConcurrency <? 1 then 1 else int32 diskConcurrency.

Definition new_semaphore (n : Z) (k : nat) : Semaphore := {| permits := n; threads := repeat SemIdle k |}.

(** What a thread does next; a weak exchange may fail although the value is the
    expected one. [wait(0)] returns when the value is not 0. *)
Inductive sem_move : Z -> SemPc -> Z -> SemPc -> Prop :=
  | sem_call p : sem_move p SemIdle p SemLoad
  | sem_load p : sem_move p SemLoad p (if 0 <? p then SemTry p else SemWait)
  | sem_exchanged p : sem_move p (SemTry p) (p - 1) SemHeld
  | sem_failed p q : sem_move p (SemTry q) p (if 0 <? p then SemTry p else SemWait)
  | sem_woken p : p <> 0 -> sem_move p SemWait p SemLoad
  | sem_release p : sem_move p SemHeld (p + 1) SemIdle.

Inductive sem_step (i : nat) : Semaphore -> Semaphore -> Prop :=
  | sem_turn p ts pc p' pc' :
      ts !! i = Some pc -> sem_move p pc p' pc' ->
      sem_step i {| permits := p; threads := ts |} {| permits := p'; threads := <[i := pc']> ts |}.

Definition any_sem_step (s s' : Semaphore) : Prop := exists i, sem_step i s s'.

Definition holds (pc : SemPc) : nat := match pc with SemHeld => 1 | _ => 0 end.
Definition holders (s : Semaphore) : nat := sum_list_with holds (threads s).

Definition sem_inv (n : Z) (s : Semaphore) : Prop :=
  permits s + Z.of_nat (holders s) = n /\ 0 <= permits s /\
  Forall (fun pc => match pc with SemTry q => 0 < q | _ => True end) (threads s).

Lemma sum_insert ts i pc pc' :
  ts !! i = Some pc ->
  (sum_list_with holds (<[i := pc']> ts) + holds pc = sum_list_with holds ts + holds pc')%nat.
Proof.
  revert i. induction ts as [|t ts IH]; intros [|i] H; [done|done| |].
  - injection H as ->. change (<[0%nat := pc']> (pc :: ts)) with (pc' :: ts). cbn [sum_list_with]. lia.
  - change (<[S i := pc']> (t :: ts)) with (t :: <[i := pc']> ts). cbn [sum_list_with].
    specialize (IH i H). lia.
Qed.

Lemma sem_step_inv n i s s' : sem_inv n s -> sem_step i s s' -> sem_inv n s'.
Proof.
  intros (Hn & Hp & Hq) Hs. destruct Hs as [p ts pc p' pc' Hi Hm]. unfold sem_inv, holders in *. cbn in *.
  pose proof (sum_insert ts i pc pc' Hi) as Hsum.
  assert (Hpc : match pc with SemTry q => 0 < q | _ => True end) by (by eapply Forall_lookup_1 in Hq).
  destruct Hm as [p|p|p|p q|p Hp0|p]; cbn [holds] in Hsum; cbn in Hpc;
    try (destruct (Z.ltb_spec 0 p); cbn [holds] in Hsum);
    (split_and!; [lia|lia|by apply Forall_insert]).
Qed.

Lemma sum_repeat_idle k : sum_list_with holds (repeat SemIdle k) = 0%nat.
Proof. by induction k. Qed.

Lemma reachable_sem_inv n k s : 0 <= n -> rtc any_sem_step (new_semaphore n k) s -> sem_inv n s.
Proof.
  intros Hn Hr. assert (H : sem_inv n (new_semaphore n k)).
  { unfold sem_inv, holders. cbn. rewrite sum_repeat_idle. split_and!; [lia|lia|]. clear. induction k; by constructor. }
  revert H. induction Hr as [|s1 s2 s3 [i Hs] _ IH]; [done|]. intros H. apply IH. by eapply sem_step_inv.
Qed.

(** The disk semaphore: never more readers than permits, and a reader that
    waits finds none left: when the thread that would be woken has no permit to
    take, all [n] are held by others. *)
Theorem semaphore_bounds_readers (n : Z) (k : nat) (s : Semaphore) :
  0 <= n -> rtc any_sem_step (new_semaphore n k) s ->
  Z.of_nat (holders s) <= n /\ permits s = n - Z.of_nat (holders s) /\
  (forall i, threads s !! i = Some SemWait -> permits s = 0 \/ exists s', sem_step i s s' /\ threads s' !! i = Some SemLoad) /\
  (forall i, threads s !! i = Some SemHeld -> exists s', sem_step i s s' /\ permits s' = permits s + 1).
Proof.
  intros Hn Hr. destruct (reachable_sem_inv n k s Hn Hr) as (Hs & Hp & _). split_and!; [lia|lia| |].
  - intros i Hi. destruct (decide (permits s = 0)) as [E|E]; [by left|]. right. destruct s as [p ts].
    eexists. split; [eapply sem_turn; [exact Hi|by apply sem_woken]|].
    cbn. rewrite list_lookup_insert_eq; [done|]. by eapply lookup_lt_Some.
  - intros i Hi. destruct s as [p ts]. eexists. split; [eapply sem_turn; [exact Hi|apply sem_release]|]. done.
Qed.

Lemma semaphore_bounds_readers_witness :
  let s := {| permits := 0; threads := [SemHeld; SemIdle] |} in
  Z.of_nat (holders s) <= 1 /\ permits s = 1 - Z.of_nat (holders s) /\
  (forall i, threads s !! i = Some SemWait -> permits s = 0 \/ exists s', sem_step i s s' /\ threads s' !! i = Some SemLoad) /\
  (forall i, threads s !! i = Some SemHeld -> exists s', sem_step i s s' /\ permits s' = permits s + 1).
Proof.
  apply (semaphore_bounds_readers 1 2); [done|].
  apply rtc_l with {| permits := 1; threads := [SemLoad; SemIdle] |}.
  { exists 0%nat. by apply (sem_turn 0 1 [SemIdle; SemIdle] SemIdle 1 SemLoad); [|constructor]. }
  apply rtc_l with {| permits := 1; threads := [SemTry 1; SemIdle] |}.
  { exists 0%nat. by apply (sem_turn 0 1 [SemLoad; SemIdle] SemLoad 1 (SemTry 1)); [|constructor]. }
  apply rtc_once. exists 0%nat.
  by apply (sem_turn 0 1 [SemTry 1; SemIdle] (SemTry 1) 0 SemHeld); [|constructor].
Defined.

(** The check for 0 is made on the 64-bit value, the permits are an [int]: a
    concurrency of 2^32 gives none, and no reader ever reads. *)
Lemma no_permits_no_reads k s :
  rtc any_sem_step (new_semaphore (disk_permits (2 ^ 32)) k) s -> holders s = 0%nat.
Proof.
  intros Hr. change (disk_permits (2 ^ 32)) with 0 in Hr.
  destruct (reachable_sem_inv 0 k s ltac:(lia) Hr) as (Hs & Hp & _). lia.
Qed.
