(* ===== verification/FileSink.v ===== *)
(** * File sinks (src/server/file_sink.h, src/server/file_sink.cxx)

    A session's sink maps the relative paths clients send to files below the
    session directory and writes them, sequentially or at offsets. The calls of
    libuv and std::filesystem are the operations of the class [FsOps]; [FsLaws]
    states what is documented of the ones whose effect the theorems use, on the
    contents of the files and the open descriptors. [MemFs] is an in-memory
    instance. *)

From S2P Require Import Prelude PosixPath.

(** ** The file system *)

Class FsOps (W : Type) := {
  fs_open : W -> bytes -> bool -> W * Z;         (** [uv_fs_open]: path, [O_TRUNC] *)
  fs_write : W -> Z -> bytes -> Z -> W * Z;      (** [uv_fs_write]: fd, buffer, offset *)
  fs_fsync : W -> Z -> W * Z;
  fs_close : W -> Z -> W * Z;
  fs_create_directories : W -> bytes -> W * bool;  (** true: [error] is set *)
  fs_exists : W -> bytes -> bool;
}.

(** A positioned write: a gap before the offset reads as zeros, an empty write
    changes nothing. *)
Definition pwrite (c : bytes) (off : nat) (data : bytes) : bytes :=
  match data with
  | [] => c
  | _ => take off c ++ repeat x00 (off - length c) ++ data ++ drop (off + length data) c
  end.

Class FsLaws (W : Type) {Ops : FsOps W} := {
  fs_file : W -> bytes -> option bytes;   (** contents of the file at a path *)
  fs_fd : W -> Z -> option bytes;         (** the path a descriptor was opened at *)
  open_ok w p t w' fd : fs_open w p t = (w', fd) -> 0 <= fd ->
    fs_fd w fd = None /\ fs_fd w' fd = Some p /\
    (forall fd', fd' <> fd -> fs_fd w' fd' = fs_fd w fd') /\
    fs_file w' p = Some (if t then [] else default [] (fs_file w p)) /\
    (forall q, q <> p -> fs_file w' q = fs_file w q);
  open_fail w p t w' fd : fs_open w p t = (w', fd) -> fd < 0 ->
    (forall fd', fs_fd w' fd' = fs_fd w fd') /\ (forall q, fs_file w' q = fs_file w q);
  write_ok w fd data off w' r p : fs_write w fd data off = (w', r) -> fs_fd w fd = Some p ->
    0 <= off -> 0 < r ->
    r <= Z.of_nat (length data) /\
    fs_file w' p = Some (pwrite (default [] (fs_file w p)) (Z.to_nat off) (take (Z.to_nat r) data));
  write_frame w fd data off w' r : fs_write w fd data off = (w', r) ->
    (forall fd', fs_fd w' fd' = fs_fd w fd') /\
    (forall q, fs_fd w fd <> Some q -> fs_file w' q = fs_file w q);
  fsync_frame w fd w' r : fs_fsync w fd = (w', r) ->
    (forall fd', fs_fd w' fd' = fs_fd w fd') /\ (forall q, fs_file w' q = fs_file w q);
  close_frame w fd w' r : fs_close w fd = (w', r) ->
    fs_fd w' fd = None /\ (forall fd', fd' <> fd -> fs_fd w' fd' = fs_fd w fd') /\
    (forall q, fs_file w' q = fs_file w q);
  mkdir_frame w p w' e : fs_create_directories w p = (w', e) ->
    (forall fd', fs_fd w' fd' = fs_fd w fd') /\ (forall q, fs_file w' q = fs_file w q);
}.

(** ** Resolving a client's path *)

Definition is_alpha (c : byte) : bool :=
  ((0x41 <=? b2z c) && (b2z c <=? 0x5a)) || ((0x61 <=? b2z c) && (b2z c <=? 0x7a)).

Definition colon : byte := z2b 0x3a.

Definition normalize_slashes (s : bytes) : bytes :=
  map (fun c => if bool_decide (c = backslash) then slash else c) s.

Fixpoint strip_slashes (s : bytes) : bytes :=
  match s with
  | c :: s' => if bool_decide (c = slash) then strip_slashes s' else s
  | [] => []
  end.

Definition strip_drive (s : bytes) : bytes :=
  match s with
  | c :: d :: s' => if is_alpha c && bool_decide (d = colon) then s' else s
  | _ => s
  end.

Definition resolve_safe_path (session_root : path) (relative_path : bytes) : option path :=
  let normalized := normalize_slashes relative_path in
  let normalized := strip_slashes (strip_drive normalized) in
  let candidate := path_of_string normalized in
  let lexical := lexically_normal candidate in
  if existsb (fun part => bool_decide (part = dotdot)) (path_elements lexical) then None
  else if path_empty lexical || bool_decide (path_elements lexical = [dot]) then None
  else
    let root_normal := lexically_normal session_root in
    let full := lexically_normal (path_append root_normal lexical) in
    if mismatch_at_end (path_elements root_normal) (path_elements full) then Some full else None.

(** ** Operations *)

Definition kMaxSingleWrite : Z := 2 ^ 30.

Record SequentialWriter := { sw_fd : Z; sw_offset : Z }.
Definition no_sequential : SequentialWriter := {| sw_fd := -1; sw_offset := 0 |}.
Definition sequential_valid (w : SequentialWriter) : bool := 0 <=? sw_fd w.

(** The [ChunkFile] of an offset writer is its descriptor; [None] is the null
    pointer of an invalid writer. *)
Record OffsetWriter := { ow_file : option Z }.
Definition no_offset : OffsetWriter := {| ow_file := None |}.
Definition offset_valid (w : OffsetWriter) : bool := bool_decide (is_Some (ow_file w)).

Record FileSink := {
  session_root_ : path;
  chunk_files_ : gmap bytes Z;
}.

Definition new_file_sink (session_root : path) : FileSink :=
  {| session_root_ := session_root; chunk_files_ := ∅ |}.

Definition to_int64 (v : Z) : Z := if v <? 2 ^ 63 then v else v - 2 ^ 64.

Section Operations.
Context {W : Type} {Ops : FsOps W}.

(** [uv_fs_write] gets at most 1 GiB at a time. Each iteration that goes on has
    written at least a byte, so [length data] iterations are enough; running out
    of them with bytes left does not happen ([write_fd_loop_fuel]). The sum of
    [offset] and [written] is taken in Z: in the code it is a signed sum, so past
    2^63 (beyond any file) it has no defined value. *)
Fixpoint write_fd_loop (fuel : nat) (w : W) (fd : Z) (data : bytes) (offset : Z) (written : Z) :
  W * bool :=
  match data with
  | [] => (w, true)
  | _ :: _ =>
      match fuel with
      | O => (w, false)
      | S fuel =>
          let tk := if Z.of_nat (length data) <? kMaxSingleWrite then data
                    else take (Z.to_nat kMaxSingleWrite) data in
          let write_offset := if offset <? 0 then -1 else offset + written in
          let '(w, result) := fs_write w fd tk write_offset in
          if result <=? 0 then (w, false)
          else write_fd_loop fuel w fd (drop (Z.to_nat result) data) offset (written + result)
      end
  end.

Definition write_fd_all (w : W) (fd : Z) (data : bytes) (offset : Z) : W * bool :=
  write_fd_loop (length data) w fd data offset 0.

Definition sequential_write (w : W) (wr : SequentialWriter) (data : bytes) : W * SequentialWriter * bool :=
  let '(w, ok) := write_fd_all w (sw_fd wr) data (sw_offset wr) in
  if negb ok then (w, wr, false)
  else (w, {| sw_fd := sw_fd wr; sw_offset := sw_offset wr + Z.of_nat (length data) |}, true).

Definition sequential_close (w : W) (wr : SequentialWriter) : W * SequentialWriter :=
  if 0 <=? sw_fd wr then ((fs_close w (sw_fd wr)).1, {| sw_fd := -1; sw_offset := sw_offset wr |})
  else (w, wr).

(** Only called on valid writers. *)
Definition write_at (w : W) (wr : OffsetWriter) (offset : Z) (data : bytes) : W * bool :=
  match ow_file wr with
  | Some fd => write_fd_all w fd data (to_int64 offset)
  | None => (w, false)
  end.

Definition ensure_parent_directory (w : W) (p : path) : W * bool :=
  let parent := parent_path p in
  if path_empty parent then (w, true)
  else
    let '(w, error) := fs_create_directories w (path_string parent) in
    if negb error then (w, true) else (w, fs_exists w (path_string parent)).

Definition acquire_chunk_file (w : W) (s : FileSink) (p : path) : W * FileSink * option Z :=
  let key := path_string p in
  match chunk_files_ s !! key with
  | Some fd => (w, s, Some fd)
  | None =>
      let '(w, ok) := ensure_parent_directory w p in
      if negb ok then (w, s, None)
      else
        let '(w, fd) := fs_open w (c_str key) false in
        if fd <? 0 then (w, s, None)
        else (w, {| session_root_ := session_root_ s; chunk_files_ := <[key := fd]> (chunk_files_ s) |},
              Some fd)
  end.

Definition open_sequential (w : W) (s : FileSink) (relative_path : bytes) : W * SequentialWriter :=
  match resolve_safe_path (session_root_ s) relative_path with
  | None => (w, no_sequential)
  | Some full =>
      let '(w, ok) := ensure_parent_directory w full in
      if negb ok then (w, no_sequential)
      else
        let '(w, fd) := fs_open w (c_str (path_string full)) true in
        if fd <? 0 then (w, no_sequential) else (w, {| sw_fd := fd; sw_offset := 0 |})
  end.

Definition open_offset (w : W) (s : FileSink) (relative_path : bytes) : W * FileSink * OffsetWriter :=
  match resolve_safe_path (session_root_ s) relative_path with
  | None => (w, s, no_offset)
  | Some full =>
      let '(w, s, file) := acquire_chunk_file w s full in
      match file with
      | None => (w, s, no_offset)
      | Some fd => (w, s, {| ow_file := Some fd |})
      end
  end.

Definition close_all (w : W) (s : FileSink) : W * FileSink :=
  let w := fold_left (fun w entry => (fs_close (fs_fsync w entry.2).1 entry.2).1)
             (map_to_list (chunk_files_ s)) w in
  (w, {| session_root_ := session_root_ s; chunk_files_ := ∅ |}).

End Operations.

(** ** Positioned writes *)

Lemma length_pwrite c off data :
  data <> [] -> length (pwrite c off data) = (length c `max` (off + length data))%nat.
Proof.
  intros Hd. destruct data as [|b data]; [done|]. unfold pwrite.
  rewrite !length_app, length_take, repeat_length, length_drop. simpl. lia.
Qed.

Lemma pwrite_end c data : pwrite c (length c) data = c ++ data.
Proof.
  unfold pwrite. destruct data as [|b data]; [by rewrite app_nil_r|].
  rewrite take_ge, Nat.sub_diag, drop_ge by (simpl; lia). simpl. by rewrite app_nil_r.
Qed.

Lemma pwrite_eq c off data :
  data <> [] ->
  pwrite c off data = (take off c ++ repeat x00 (off - length c)) ++ data ++ drop (off + length data) c.
Proof. intros Hd. destruct data; [done|]. unfold pwrite. by rewrite <- app_assoc. Qed.

(** Two adjacent writes are one. *)
Lemma pwrite_pwrite c off a b : pwrite (pwrite c off a) (off + length a) b = pwrite c off (a ++ b).
Proof.
  destruct (decide (a = [])) as [->|Ha]; [by rewrite Nat.add_0_r|].
  destruct (decide (b = [])) as [->|Hb]; [by rewrite app_nil_r|].
  assert (a ++ b <> []) by (by destruct a).
  rewrite !pwrite_eq by done. set (front := take off c ++ repeat x00 (off - length c)).
  assert (Hf : length (front ++ a) = (off + length a)%nat).
  { unfold front. rewrite !length_app, length_take, repeat_length. lia. }
  rewrite (app_assoc front), <- Hf, take_app_length, (length_app (front ++ a)).
  replace (length (front ++ a) - _)%nat with 0%nat by lia.
  rewrite drop_app_add, drop_drop, Hf, <- Nat.add_assoc, <- length_app.
  cbn [repeat]. by rewrite app_nil_r, <- !app_assoc.
Qed.

(** The bytes of a file after a write. *)
Lemma lookup_pwrite_in c off data i :
  (off <= i < off + length data)%nat -> pwrite c off data !! i = data !! (i - off)%nat.
Proof.
  intros Hi. destruct data as [|b data]; [simpl in Hi; lia|]. unfold pwrite.
  rewrite app_assoc, lookup_app_r by (rewrite length_app, length_take, repeat_length; lia).
  rewrite length_app, length_take, repeat_length, lookup_app_l by lia. f_equal. lia.
Qed.

Lemma lookup_pwrite_out c off data i :
  (i < length c)%nat -> (i < off \/ off + length data <= i)%nat -> pwrite c off data !! i = c !! i.
Proof.
  intros Hc Hi. destruct data as [|b data]; [done|]. unfold pwrite. destruct Hi as [Hi|Hi].
  - rewrite lookup_app_l, lookup_take_lt by (rewrite ?length_take; lia). done.
  - rewrite !app_assoc, lookup_app_r by (rewrite !length_app, length_take, repeat_length; lia).
    rewrite !length_app, length_take, repeat_length, lookup_drop. f_equal. lia.
Qed.

(** ** Writing *)

Section Writing.
Context {W : Type} {Ops : FsOps W} {Laws : FsLaws W}.

(** What changes nothing but the contents of the file at [p]. *)
Definition only_file (w w' : W) (p : bytes) : Prop :=
  (forall fd, fs_fd w' fd = fs_fd w fd) /\ (forall q, q <> p -> fs_file w' q = fs_file w q).

Lemma only_file_refl w p : only_file w w p.
Proof. done. Qed.

Lemma only_file_trans w1 w2 w3 p : only_file w1 w2 p -> only_file w2 w3 p -> only_file w1 w3 p.
Proof.
  intros [H1 H2] [H3 H4]. split; [intros fd; by rewrite H3|]. intros q Hq. by rewrite H4, H2.
Qed.

Lemma write_only_file w fd data off w' r p :
  fs_write w fd data off = (w', r) -> fs_fd w fd = Some p -> only_file w w' p.
Proof.
  intros E Hfd. destruct (write_frame _ _ _ _ _ _ E) as [H1 H2]. split; [done|].
  intros q Hq. apply H2. congruence.
Qed.

(** The loop ends in [length data] iterations: more fuel changes nothing. *)
Lemma write_fd_loop_fuel fuel fuel' w fd data offset written :
  (length data <= fuel)%nat -> (length data <= fuel')%nat ->
  write_fd_loop fuel w fd data offset written = write_fd_loop fuel' w fd data offset written.
Proof.
  revert fuel' w data written. induction fuel as [|fuel IH]; intros fuel' w data written H1 H2.
  - destruct data; [by destruct fuel'|simpl in H1; lia].
  - destruct data as [|b data]; [by destruct fuel'|].
    destruct fuel' as [|fuel']; [simpl in H2; lia|]. cbn [write_fd_loop].
    destruct (fs_write _ _ _ _) as [w2 r]. destruct (Z.leb_spec r 0); [done|].
    apply IH; rewrite length_drop; cbn [length] in *; lia.
Qed.

Lemma write_fd_loop_ok fuel w fd data offset written w' ok p :
  write_fd_loop fuel w fd data offset written = (w', ok) -> fs_fd w fd = Some p ->
  0 <= offset -> 0 <= written ->
  only_file w w' p /\
  (ok = true -> data <> [] ->
   fs_file w' p = Some (pwrite (default [] (fs_file w p)) (Z.to_nat (offset + written)) data)).
Proof.
  intros E Hfd Hoff. revert w data written E Hfd.
  induction fuel as [|fuel IH]; intros w data written E Hfd Hw;
    (destruct data as [|b data]; [cbn [write_fd_loop] in E; by simplify_eq|]);
    cbn [write_fd_loop] in E; [by simplify_eq|].
  destruct (Z.ltb_spec offset 0); [lia|].
  set (D := b :: data) in *.
  set (tk := if (_ <? _) then D else _) in E.
  assert (Htk : exists n, tk = take n D).
  { unfold tk. destruct (_ <? _); [|by eexists]. exists (length D). by rewrite firstn_all. }
  destruct (fs_write w fd tk (offset + written)) as [w2 r] eqn:Ew.
  pose proof (write_only_file _ _ _ _ _ _ _ Ew Hfd) as Hf.
  destruct (Z.leb_spec r 0) as [Hr|Hr]; [by simplify_eq|].
  destruct (write_ok _ _ _ _ _ _ _ Ew Hfd ltac:(lia) ltac:(lia)) as [Hle Hc].
  destruct (IH w2 _ _ E ltac:(by rewrite (proj1 Hf)) ltac:(lia)) as [Hf2 Hc2].
  split; [by eapply only_file_trans|]. intros Hok _.
  destruct Htk as [n Htk]. rewrite Htk, take_take, length_take in *.
  replace (Z.to_nat r `min` n)%nat with (Z.to_nat r) in Hc by lia.
  destruct (decide (drop (Z.to_nat r) D = [])) as [Hd|Hd].
  - assert (length D <= Z.to_nat r)%nat.
    { apply (f_equal length) in Hd. rewrite length_drop in Hd. simpl in Hd |- *. lia. }
    rewrite Hd in E. rewrite take_ge in Hc by done.
    destruct fuel; cbn [write_fd_loop] in E; by simplify_eq.
  - rewrite (Hc2 Hok Hd), Hc. cbn [default]. f_equal.
    rewrite <- (take_drop (Z.to_nat r) D) at 3. rewrite <- pwrite_pwrite. f_equal.
    rewrite length_take. lia.
Qed.

End Writing.

(** ** Confinement *)

Lemma strip_slashes_head s : match strip_slashes s with c :: _ => c <> slash | [] => True end.
Proof. induction s as [|c s IH]; [done|]. simpl. by case_bool_decide. Qed.

Lemma relative_stripped s : absolute (path_of_string (strip_slashes s)) = false.
Proof.
  pose proof (strip_slashes_head s) as H. unfold path_of_string. cbn [absolute].
  destruct (strip_slashes s); [done|]. by apply bool_decide_eq_false_2.
Qed.

(** A normal relative path that passes the checks consists of plain names. *)
Lemma checked_names p :
  wf_path p -> absolute p = false ->
  existsb (fun part => bool_decide (part = dotdot)) (path_elements (lexically_normal p)) = false ->
  path_empty (lexically_normal p) || bool_decide (path_elements (lexically_normal p) = [dot]) = false ->
  let ns := names (lexically_normal p) in
  ns <> [] /\ Forall plain ns /\ Forall proper_name ns /\ absolute (lexically_normal p) = false.
Proof.
  intros Hwf Habs Hdd He. destruct (lexically_normal_names p Hwf) as (k & top & Htop & _ & Hp & Hn & Ha).
  apply orb_false_iff in He as [He Hdot]. rewrite Habs in Ha.
  unfold path_empty in He. rewrite Ha in He. cbn [negb andb] in He.
  apply bool_decide_eq_false in He. apply bool_decide_eq_false in Hdot.
  assert (Hno : dotdot ∉ path_elements (lexically_normal p)).
  { intros Hin. apply not_true_iff_false in Hdd. apply Hdd, existsb_exists. exists dotdot.
    split; [by apply list_elem_of_In|by apply bool_decide_eq_true_2]. }
  split; [done|]. split; [|done]. destruct Hn as [Hn|Hn].
  - rewrite Hn. destruct k as [|k]; [done|]. exfalso. apply Hno. unfold path_elements. rewrite Hn.
    set_solver.
  - exfalso. apply Hdot. unfold path_elements.
    destruct (lexically_normal_dot p Hwf Hn) as [-> ->]. by rewrite Hn.
Qed.

Lemma resolve_confined root rel full :
  wf_path root -> resolve_safe_path root rel = Some full ->
  let r := lexically_normal root in
  exists ns, ns <> [] /\ Forall plain ns /\ Forall proper_name ns /\
    names full = names r ++ ns /\ absolute full = absolute r.
Proof.
  intros Hroot E. unfold resolve_safe_path in E.
  set (p := path_of_string _) in E. set (r := lexically_normal root) in *.
  destruct (existsb _ _) eqn:Edd; [done|]. destruct (path_empty _ || _) eqn:Ee; [done|].
  destruct (mismatch_at_end _ _) eqn:Em; [|done]. injection E as <-.
  assert (Hp : wf_path p) by apply path_of_string_wf.
  assert (Habs : absolute p = false) by apply relative_stripped.
  destruct (checked_names p Hp Habs Edd Ee) as (Hne & Hpl & Hpr & Ha).
  destruct (lexically_normal_names root Hroot) as (k & top & Htop & Hk & _ & Hn & Hra). fold r in Hn, Hra.
  rewrite <- Hra in Hk. exists (names (lexically_normal p)). split; [done|]. split; [done|]. split; [done|].
  destruct Hn as [Hn|Hn].
  - erewrite normal_append by eauto. cbn [names absolute]. by rewrite Hn, app_assoc.
  - exfalso. assert (Hfull : lexically_normal (path_append r (lexically_normal p)) =
      {| absolute := absolute r; names := names (lexically_normal p); trailing := trailing (lexically_normal p) |}).
    { by erewrite (normal_append r _ 0 []) by eauto. }
    rewrite Hfull in Em. apply mismatch_at_end_prefix in Em as [rest Hpre].
    unfold path_elements in Hpre. cbn [absolute names trailing] in Hpre. rewrite Hn in Hpre.
    rewrite <- !app_assoc in Hpre. apply app_inv_head in Hpre.
    destruct (names (lexically_normal p)) as [|n l]; [done|]. injection Hpre as -> _.
    by apply Forall_cons_1 in Hpl as [[? _] _].
Qed.

Lemma fold_no_backslash s : backslash ∉ s -> normalize_slashes s = s.
Proof.
  induction s as [|c s IH]; intros Hs; [done|]. cbn. rewrite bool_decide_eq_false_2 by set_solver.
  f_equal. apply IH. set_solver.
Qed.

Lemma join_slash_head ns c s :
  Forall proper_name ns -> join_slash ns = c :: s -> c <> slash.
Proof.
  intros Hns E. destruct ns as [|n ns]; [done|]. apply Forall_cons_1 in Hns as [[Hn Hs] _].
  destruct n as [|d n]; [done|]. destruct ns; cbn in E; injection E as -> _; set_solver.
Qed.

(** A clean relative path is accepted and lands at the session root plus its names. *)
Lemma resolve_plain root ns :
  wf_path root -> lexically_normal root = root -> names root <> [dot] -> trailing root = false ->
  ns <> [] -> Forall plain ns -> Forall proper_name ns ->
  backslash ∉ join_slash ns -> strip_drive (join_slash ns) = join_slash ns ->
  resolve_safe_path root (join_slash ns) =
    Some {| absolute := absolute root; names := names root ++ ns; trailing := false |}.
Proof.
  intros Hroot Hnorm Hdot Htr Hne Hpl Hpr Hbs Hdr. unfold resolve_safe_path.
  rewrite fold_no_backslash, Hdr by done.
  replace (strip_slashes (join_slash ns)) with (join_slash ns).
  2: { destruct (join_slash ns) as [|c s] eqn:E; [done|]. cbn.
       rewrite bool_decide_eq_false_2; [done|]. by eapply join_slash_head. }
  rewrite path_of_join by done. set (p := {| absolute := false; names := ns; trailing := false |}).
  assert (Hp : lexically_normal p = p).
  { pose proof (normal_append {| absolute := false; names := []; trailing := false |} p 0 [] ns) as Ha.
    unfold path_append in Ha. cbn in Ha. rewrite bool_decide_eq_false_2 in Ha by done.
    apply Ha; auto. }
  rewrite Hp, Hnorm.
  assert (Hel : path_elements p = ns) by apply app_nil_r.
  destruct (existsb _ _) eqn:Edd.
  { exfalso. apply existsb_exists in Edd as (x & Hx & ->%bool_decide_eq_true).
    rewrite Hel in Hx. rewrite Forall_forall in Hpl.
    by destruct (Hpl dotdot) as [_ ?]; [apply list_elem_of_In|]. }
  destruct (path_empty p || _) eqn:Ee.
  { exfalso. apply orb_true_iff in Ee as [Ee|Ee%bool_decide_eq_true].
    - by apply bool_decide_eq_true in Ee.
    - rewrite Hel in Ee. rewrite Ee in Hpl. by apply Forall_cons_1 in Hpl as [[? _] _]. }
  destruct (lexically_normal_names root Hroot) as (k & top & Htop & Hk & _ & Hn & _).
  rewrite Hnorm in Hn. destruct Hn as [Hn|Hn]; [|done].
  assert (Hfull : lexically_normal (path_append root p) =
    {| absolute := absolute root; names := names root ++ ns; trailing := false |}).
  { rewrite Hn, <- app_assoc. apply normal_append; auto. }
  rewrite Hfull. replace (mismatch_at_end _ _) with true; [done|].
  symmetry. apply mismatch_at_end_prefix. exists ns. unfold path_elements.
  cbn [absolute names trailing]. rewrite Htr, !app_nil_r. by rewrite <- app_assoc.
Qed.

(** ** What the operations do to the files *)

(** An environment in which opens and writes do not fail: no permission problem,
    no full disk, no file where a directory is needed. *)
Class FsReliable (W : Type) {Ops : FsOps W} {Laws : FsLaws W} := {
  open_succeeds w p t : 0 <= (fs_open w p t).2;
  write_progresses w fd data off p :
    fs_fd w fd = Some p -> data <> [] -> 0 <= off -> 0 < (fs_write w fd data off).2;
  mkdir_succeeds w p : (fs_create_directories w p).2 = false;
}.

Lemma max_single_write_pos : 0 < kMaxSingleWrite.
Proof. reflexivity. Qed.

Section Effects.
Context {W : Type} {Ops : FsOps W} {Laws : FsLaws W}.

Lemma write_fd_all_ok w fd data offset w' p :
  write_fd_all w fd data offset = (w', true) -> fs_fd w fd = Some p -> 0 <= offset ->
  fs_file w p <> None ->
  only_file w w' p /\ fs_file w' p = Some (pwrite (default [] (fs_file w p)) (Z.to_nat offset) data).
Proof.
  intros E Hfd Hoff Hex. destruct (write_fd_loop_ok _ _ _ _ _ _ _ _ _ E Hfd Hoff ltac:(lia)) as [H1 H2].
  split; [done|]. destruct data as [|b data].
  - unfold write_fd_all in E. cbn in E. simplify_eq. cbn. by destruct (fs_file w' p).
  - rewrite H2, Z.add_0_r by done. done.
Qed.

Lemma write_fd_only w fd data offset w' ok p :
  write_fd_all w fd data offset = (w', ok) -> fs_fd w fd = Some p -> 0 <= offset ->
  only_file w w' p.
Proof. intros E Hfd Hoff. by destruct (write_fd_loop_ok _ _ _ _ _ _ _ _ _ E Hfd Hoff ltac:(lia)). Qed.

Lemma write_fd_loop_total {Rel : FsReliable W} fuel w fd data offset written p :
  fs_fd w fd = Some p -> 0 <= offset -> 0 <= written -> (length data <= fuel)%nat ->
  (write_fd_loop fuel w fd data offset written).2 = true.
Proof.
  intros Hfd Hoff. revert w data written Hfd.
  induction fuel as [|fuel IH]; intros w data written Hfd Hw Hlen;
    (destruct data as [|b data]; [done|]); [simpl in Hlen; lia|].
  cbn [write_fd_loop]. destruct (Z.ltb_spec offset 0); [lia|].
  set (tk := if (_ <? _) then _ else _).
  assert (Htk : tk <> []).
  { unfold tk. destruct (_ <? _); [done|]. pose proof max_single_write_pos.
    intros Hnil. apply (f_equal length) in Hnil. rewrite length_take in Hnil.
    cbn [length] in Hnil. lia. }
  pose proof (write_progresses w fd tk (offset + written) p Hfd Htk ltac:(lia)) as Hpr.
  destruct (fs_write w fd tk _) as [w2 r] eqn:E. cbn [snd] in Hpr.
  destruct (Z.leb_spec r 0); [lia|]. apply IH; [|lia|rewrite length_drop; cbn [length] in *; lia].
  by rewrite (proj1 (write_only_file _ _ _ _ _ _ _ E Hfd)).
Qed.

Lemma write_fd_all_total {Rel : FsReliable W} w fd data offset p :
  fs_fd w fd = Some p -> 0 <= offset -> (write_fd_all w fd data offset).2 = true.
Proof. intros. unfold write_fd_all. by eapply write_fd_loop_total. Qed.

(** A sequential writer whose file holds [c]. *)
Definition seq_at (w : W) (wr : SequentialWriter) (p c : bytes) : Prop :=
  fs_fd w (sw_fd wr) = Some p /\ fs_file w p = Some c /\ sw_offset wr = Z.of_nat (length c).

Lemma sequential_write_ok w wr data w' wr' p c :
  sequential_write w wr data = (w', wr', true) -> seq_at w wr p c ->
  seq_at w' wr' p (c ++ data) /\ only_file w w' p /\ sw_fd wr' = sw_fd wr.
Proof.
  unfold sequential_write. intros E (Hfd & Hc & Hoff).
  destruct (write_fd_all _ _ _ _) as [w2 ok] eqn:Ew. destruct ok; [|done]. cbn in E. simplify_eq.
  destruct (write_fd_all_ok _ _ _ _ _ _ Ew Hfd ltac:(lia) ltac:(by rewrite Hc)) as [Hf Hw].
  rewrite Hc, Hoff, Nat2Z.id in Hw. cbn [default] in Hw. rewrite pwrite_end in Hw.
  split; [|done]. split; [cbn [sw_fd]; by rewrite (proj1 Hf)|]. split; [done|].
  cbn [sw_offset]. rewrite length_app. lia.
Qed.

Lemma sequential_write_total {Rel : FsReliable W} w wr data p c :
  seq_at w wr p c -> exists w' wr', sequential_write w wr data = (w', wr', true).
Proof.
  intros (Hfd & _ & Hoff). unfold sequential_write.
  pose proof (write_fd_all_total w (sw_fd wr) data (sw_offset wr) p Hfd ltac:(lia)) as Ht.
  destruct (write_fd_all _ _ _ _) as [w2 ok]. cbn in Ht. subst ok. eauto.
Qed.

Lemma ensure_parent_frame w p w' ok :
  ensure_parent_directory w p = (w', ok) ->
  (forall fd, fs_fd w' fd = fs_fd w fd) /\ (forall q, fs_file w' q = fs_file w q).
Proof.
  unfold ensure_parent_directory. intros E. destruct (path_empty _); [by simplify_eq|].
  destruct (fs_create_directories _ _) as [w2 e] eqn:Em. apply mkdir_frame in Em.
  by destruct (negb e); simplify_eq.
Qed.

Lemma ensure_parent_total {Rel : FsReliable W} w p :
  exists w', ensure_parent_directory w p = (w', true).
Proof.
  unfold ensure_parent_directory. destruct (path_empty _); [eauto|].
  pose proof (mkdir_succeeds w (path_string (parent_path p))) as Hm.
  destruct (fs_create_directories _ _) as [w2 e]. cbn in Hm. subst e. cbn. eauto.
Qed.

(** The path the system call sees for a resolved path. *)
Definition os_path (p : path) : bytes := c_str (path_string p).

Lemma open_sequential_ok w s rel w' wr :
  open_sequential w s rel = (w', wr) -> sequential_valid wr = true ->
  exists full, resolve_safe_path (session_root_ s) rel = Some full /\
    seq_at w' wr (os_path full) [] /\ fs_fd w (sw_fd wr) = None /\
    (forall fd, fd <> sw_fd wr -> fs_fd w' fd = fs_fd w fd) /\
    (forall q, q <> os_path full -> fs_file w' q = fs_file w q).
Proof.
  unfold open_sequential. intros E Hv.
  destruct (resolve_safe_path _ _) as [full|]; [|by simplify_eq]. exists full. split; [done|].
  destruct (ensure_parent_directory _ _) as [w1 ok] eqn:Ep. destruct ok; [|by simplify_eq/=].
  apply ensure_parent_frame in Ep as [Hp1 Hp2]. cbn [negb] in E.
  destruct (fs_open _ _ _) as [w2 fd] eqn:Eo. destruct (Z.ltb_spec fd 0); [by simplify_eq/=|].
  simplify_eq. cbn [sw_fd]. destruct (open_ok _ _ _ _ _ Eo) as (H1 & H2 & H3 & H4 & H5); [done|].
  split; [by split; [|split]|]. split; [by rewrite <- Hp1|].
  split; [intros; by rewrite H3|]. intros. by rewrite H5.
Qed.

Lemma open_sequential_total {Rel : FsReliable W} w s rel full :
  resolve_safe_path (session_root_ s) rel = Some full ->
  exists w' wr, open_sequential w s rel = (w', wr) /\ sequential_valid wr = true.
Proof.
  intros Hr. unfold open_sequential. rewrite Hr.
  destruct (ensure_parent_total w full) as [w1 ->]. cbn [negb].
  pose proof (open_succeeds w1 (c_str (path_string full)) true) as Ho.
  destruct (fs_open _ _ _) as [w2 fd]. cbn [snd] in Ho. destruct (Z.ltb_spec fd 0); [lia|].
  eexists _, _. split; [done|]. unfold sequential_valid. cbn [sw_fd]. by apply Z.leb_le.
Qed.

(** Chunk files stay open in the registry under the path they were opened at. *)
Definition sink_inv (w : W) (s : FileSink) : Prop :=
  map_Forall (fun key fd => fs_fd w fd = Some (c_str key) /\ 0 <= fd /\
                            is_Some (fs_file w (c_str key))) (chunk_files_ s).

(** An offset writer on the file at [p]. *)
Definition offset_at (w : W) (wr : OffsetWriter) (p : bytes) : Prop :=
  exists fd, ow_file wr = Some fd /\ fs_fd w fd = Some p /\ is_Some (fs_file w p).

Lemma open_offset_ok w s rel w' s' wr :
  open_offset w s rel = (w', s', wr) -> sink_inv w s -> offset_valid wr = true ->
  exists full, resolve_safe_path (session_root_ s) rel = Some full /\
    offset_at w' wr (os_path full) /\
    fs_file w' (os_path full) = Some (default [] (fs_file w (os_path full))) /\
    sink_inv w' s' /\ session_root_ s' = session_root_ s /\
    (forall q, q <> os_path full -> fs_file w' q = fs_file w q) /\
    (forall fd p, fs_fd w fd = Some p -> fs_fd w' fd = Some p).
Proof.
  unfold open_offset, acquire_chunk_file. intros E Hinv Hv.
  destruct (resolve_safe_path _ _) as [full|]; [|by simplify_eq]. exists full. split; [done|].
  destruct (chunk_files_ s !! path_string full) as [fd|] eqn:Ek.
  - simplify_eq. destruct (Hinv _ _ Ek) as (H1 & H2 & H3). split; [by exists fd|].
    split; [|done]. unfold os_path. destruct H3 as [c ->]. done.
  - destruct (ensure_parent_directory _ _) as [w1 ok] eqn:Ep. destruct ok; [|by simplify_eq/=].
    apply ensure_parent_frame in Ep as [Hp1 Hp2]. cbn [negb] in E.
    destruct (fs_open _ _ _) as [w2 fd] eqn:Eo. destruct (Z.ltb_spec fd 0); [by simplify_eq/=|].
    simplify_eq. destruct (open_ok _ _ _ _ _ Eo) as (H1 & H2 & H3 & H4 & H5); [done|].
    assert (Hkeep : forall q, is_Some (fs_file w q) -> is_Some (fs_file w' q)).
    { intros q Hq. destruct (decide (q = c_str (path_string full))) as [->|Hne].
      - by rewrite H4.
      - by rewrite H5, Hp2. }
    assert (Hfds : forall fd0 p, fs_fd w fd0 = Some p -> fs_fd w' fd0 = Some p).
    { intros fd0 p Hfd. rewrite H3, Hp1; [done|]. intros ->. rewrite Hp1 in H1. congruence. }
    split; [exists fd; split; [done|]; split; [done|]; unfold os_path; by rewrite H4|].
    split; [unfold os_path; by rewrite H4, Hp2|]. split; [|split; [done|split; [|done]]].
    + apply map_Forall_insert_2; [split; [done|split; [done|by rewrite H4]]|].
      intros k fd0 Hk. destruct (Hinv _ _ Hk) as (? & ? & ?). eauto.
    + intros q Hq. by rewrite H5, Hp2.
Qed.

Lemma open_offset_total {Rel : FsReliable W} w s rel full :
  resolve_safe_path (session_root_ s) rel = Some full ->
  exists w' s' wr, open_offset w s rel = (w', s', wr) /\ offset_valid wr = true.
Proof.
  intros Hr. unfold open_offset, acquire_chunk_file. rewrite Hr.
  destruct (chunk_files_ s !! _) as [fd|]; [eauto 10|].
  destruct (ensure_parent_total w full) as [w1 ->]. cbn [negb].
  pose proof (open_succeeds w1 (c_str (path_string full)) false) as Ho.
  destruct (fs_open _ _ _) as [w2 fd]. cbn [snd] in Ho. destruct (Z.ltb_spec fd 0); [lia|].
  eauto 10.
Qed.

Lemma write_at_ok w wr offset data w' p :
  write_at w wr offset data = (w', true) -> offset_at w wr p -> 0 <= offset < 2 ^ 63 ->
  offset_at w' wr p /\ only_file w w' p /\
  fs_file w' p = Some (pwrite (default [] (fs_file w p)) (Z.to_nat offset) data).
Proof.
  unfold write_at. intros E (fd & Hfile & Hfd & Hex) Hoff. rewrite Hfile in E.
  unfold to_int64 in E. destruct (Z.ltb_spec offset (2 ^ 63)); [|lia].
  destruct (write_fd_all_ok _ _ _ _ _ _ E Hfd ltac:(lia)) as [Hf Hc]; [by destruct Hex as [? ->]|].
  split; [|done]. exists fd. split; [done|]. split; [by rewrite (proj1 Hf)|]. by rewrite Hc.
Qed.

Lemma write_at_total {Rel : FsReliable W} w wr offset data p :
  offset_at w wr p -> 0 <= offset < 2 ^ 63 -> exists w', write_at w wr offset data = (w', true).
Proof.
  intros (fd & Hfile & Hfd & _) Hoff. unfold write_at. rewrite Hfile.
  unfold to_int64. destruct (Z.ltb_spec offset (2 ^ 63)); [|lia].
  pose proof (write_fd_all_total w fd data offset p Hfd ltac:(lia)) as Ht.
  destruct (write_fd_all _ _ _ _) as [w2 ok]. cbn in Ht. subst ok. eauto.
Qed.

Lemma sink_inv_only w w' s p :
  sink_inv w s -> only_file w w' p -> is_Some (fs_file w' p) -> sink_inv w' s.
Proof.
  intros Hinv [H1 H2] Hp k fd Hk. destruct (Hinv _ _ Hk) as (? & ? & ?).
  rewrite H1. split; [done|]. split; [done|].
  destruct (decide (c_str k = p)) as [->|Hne]; [done|]. by rewrite H2.
Qed.

End Effects.

(** ** An in-memory file system *)

(** Files by path and descriptors by index; directories exist as soon as they
    are needed. *)
Record MemFs := {
  mem_files : gmap bytes bytes;
  mem_fds : list (option bytes);
}.

Definition empty_fs : MemFs := {| mem_files := ∅; mem_fds := [] |}.

Definition mem_fd (w : MemFs) (fd : Z) : option bytes :=
  if fd <? 0 then None else mjoin (mem_fds w !! Z.to_nat fd).

Definition mem_open (w : MemFs) (p : bytes) (t : bool) : MemFs * Z :=
  ({| mem_files := <[p := if t then [] else default [] (mem_files w !! p)]> (mem_files w);
      mem_fds := mem_fds w ++ [Some p] |}, Z.of_nat (length (mem_fds w))).

(** Writes at a negative offset go to the end of the file. *)
Definition mem_write (w : MemFs) (fd : Z) (data : bytes) (off : Z) : MemFs * Z :=
  match mem_fd w fd with
  | None => (w, -1)
  | Some p =>
      let c := default [] (mem_files w !! p) in
      ({| mem_files := <[p := pwrite c (if off <? 0 then length c else Z.to_nat off) data]> (mem_files w);
          mem_fds := mem_fds w |}, Z.of_nat (length data))
  end.

Definition mem_close (w : MemFs) (fd : Z) : MemFs * Z :=
  if fd <? 0 then (w, -1)
  else ({| mem_files := mem_files w; mem_fds := <[Z.to_nat fd := None]> (mem_fds w) |}, 0).

#[global] Instance mem_ops : FsOps MemFs := {
  fs_open := mem_open;
  fs_write := mem_write;
  fs_fsync w fd := (w, 0);
  fs_close := mem_close;
  fs_create_directories w p := (w, false);
  fs_exists w p := true;
}.

Lemma mem_fd_app w p fd files :
  mem_fd {| mem_files := files; mem_fds := mem_fds w ++ [Some p] |} fd =
  if bool_decide (fd = Z.of_nat (length (mem_fds w))) then Some p else mem_fd w fd.
Proof.
  unfold mem_fd. cbn [mem_fds]. case_bool_decide as Hfd.
  - subst fd. destruct (Z.ltb_spec (Z.of_nat (length (mem_fds w))) 0); [lia|].
    by rewrite Nat2Z.id, list_lookup_middle.
  - destruct (Z.ltb_spec fd 0); [done|]. destruct (decide (Z.to_nat fd < length (mem_fds w))%nat).
    + by rewrite lookup_app_l.
    + by rewrite !lookup_ge_None_2 by (rewrite ?length_app; simpl; lia).
Qed.

#[global] Instance mem_laws : FsLaws MemFs.
Proof.
  refine {| fs_file w p := mem_files w !! p; fs_fd := mem_fd |}.
  - intros w p t w' fd E _. cbn in E. injection E as <- <-. split.
    { unfold mem_fd. destruct (Z.ltb_spec (Z.of_nat (length (mem_fds w))) 0); [done|].
      by rewrite Nat2Z.id, lookup_ge_None_2. }
    split; [by rewrite mem_fd_app, bool_decide_eq_true_2|].
    split; [intros fd' Hne; by rewrite mem_fd_app, bool_decide_eq_false_2|]. cbn [mem_files].
    split; [by rewrite lookup_insert_eq|]. intros q Hq. by rewrite lookup_insert_ne.
  - intros w p t w' fd E Hfd. cbn in E. injection E as <- <-. lia.
  - intros w fd data off w' r p E Hfd Hoff Hr. cbn in E. unfold mem_write in E. rewrite Hfd in E.
    injection E as <- <-. split; [lia|]. cbn [mem_files]. rewrite lookup_insert_eq.
    rewrite (proj2 (Z.ltb_ge off 0)) by lia. by rewrite Nat2Z.id, firstn_all.
  - intros w fd data off w' r E. cbn in E. unfold mem_write in E.
    destruct (mem_fd w fd) as [p|]; injection E as <- <-; [|done]. split; [done|].
    intros q Hq. cbn [mem_files]. rewrite lookup_insert_ne; [done|]. congruence.
  - intros w fd w' r E. cbn in E. by injection E as <- <-.
  - intros w fd w' r E. cbn in E. unfold mem_close in E.
    destruct (Z.ltb_spec fd 0) as [Hn|Hn]; injection E as <- <-.
    { split; [|done]. unfold mem_fd. by destruct (Z.ltb_spec fd 0); [|lia]. }
    split; [|split; [|done]]; unfold mem_fd; cbn [mem_fds].
    + destruct (Z.ltb_spec fd 0); [done|].
      destruct (decide (Z.to_nat fd < length (mem_fds w))%nat).
      * by rewrite list_lookup_insert_eq.
      * by rewrite lookup_ge_None_2 by (rewrite length_insert; lia).
    + intros fd' Hne. destruct (Z.ltb_spec fd' 0); [done|]. rewrite list_lookup_insert_ne; [done|]. lia.
  - intros w p w' e E. cbn in E. by injection E as <- <-.
Defined.

#[global] Instance mem_reliable : FsReliable MemFs.
Proof.
  split.
  - intros. cbn. lia.
  - intros w fd data off p Hfd Hd _. cbn. unfold mem_write. change (mem_fd w fd = Some p) in Hfd.
    rewrite Hfd. cbn. destruct data; [done|]. cbn [length]. lia.
  - done.
Qed.

(** ** Writing a file in pieces *)

(** A set of positioned writes of slices of [data] that covers it leaves [data],
    in whatever order they are made and however they overlap. *)
Definition slice_of (data : bytes) (w : nat * bytes) : Prop :=
  w.2 = take (length w.2) (drop w.1 data) /\ w.2 <> [].

Definition pwrites (c : bytes) (ws : list (nat * bytes)) : bytes :=
  fold_left (fun c w => pwrite c w.1 w.2) ws c.

Definition covers (ws : list (nat * bytes)) (i : nat) : Prop :=
  exists w, w ∈ ws /\ (w.1 <= i < w.1 + length w.2)%nat.

Lemma slice_lookup data w i :
  slice_of data w -> (w.1 <= i < w.1 + length w.2)%nat -> w.2 !! (i - w.1)%nat = data !! i.
Proof.
  intros [Hw _] Hi. rewrite Hw, lookup_take_lt, lookup_drop by lia. f_equal. lia.
Qed.

Lemma slice_bound data w : slice_of data w -> (w.1 + length w.2 <= length data)%nat.
Proof.
  intros [Hw Hne]. pose proof (f_equal length Hw) as Hl. rewrite length_take, length_drop in Hl.
  assert (length w.2 <> 0%nat) by (by destruct w.2). lia.
Qed.

Lemma pwrites_lookup data ws : forall c,
  Forall (slice_of data) ws -> (length c <= length data)%nat ->
  (length (pwrites c ws) <= length data)%nat /\
  (forall i, (covers ws i \/ (i < length c)%nat /\ c !! i = data !! i) -> pwrites c ws !! i = data !! i).
Proof.
  unfold pwrites. induction ws as [|w ws IH]; intros c Hws Hc; cbn [fold_left].
  { split; [done|]. intros i [(w & Hw & _)|[_ Hi]]; [set_solver|done]. }
  apply Forall_cons_1 in Hws as [Hw Hws].
  pose proof (slice_bound _ _ Hw) as Hb. pose proof (length_pwrite c w.1 w.2 (proj2 Hw)) as Hl.
  destruct (IH (pwrite c w.1 w.2) Hws ltac:(lia)) as [H1 H2]. split; [done|].
  intros i Hi. apply H2. destruct Hi as [(w' & Hin & Hi)|[Hi Hci]].
  - apply elem_of_cons in Hin as [->|Hin]; [|left; by exists w'].
    right. split; [lia|]. rewrite lookup_pwrite_in by done. by apply slice_lookup.
  - right. split; [lia|]. destruct (decide (w.1 <= i < w.1 + length w.2)%nat) as [Hin|Hout].
    + rewrite lookup_pwrite_in by done. by apply slice_lookup.
    + rewrite lookup_pwrite_out by lia. done.
Qed.

Lemma pwrites_onto data c ws :
  Forall (slice_of data) ws -> (length c <= length data)%nat ->
  (forall i, (i < length data)%nat -> covers ws i \/ (i < length c)%nat /\ c !! i = data !! i) ->
  pwrites c ws = data.
Proof.
  intros Hws Hc Hcov. destruct (pwrites_lookup data ws c Hws Hc) as [Hl Hi].
  apply list_eq. intros i. destruct (decide (i < length data)%nat).
  - apply Hi. by apply Hcov.
  - by rewrite !lookup_ge_None_2 by lia.
Qed.

Lemma pwrites_cover data c ws :
  Forall (slice_of data) ws -> (length c <= length data)%nat ->
  (forall i, (i < length data)%nat -> covers ws i) -> pwrites c ws = data.
Proof. intros Hws Hc Hcov. apply pwrites_onto; auto. Qed.

(** ** Properties *)

(** Path confinement. Whatever path a client sends, a path that
    [resolve_safe_path] returns consists of the normalised session directory
    followed by one or more plain names: none is empty, a dot or a dot-dot, or
    holds a separator. *)
Theorem resolve_safe_path_confined (root full : path) (relative_path : bytes) :
  wf_path root -> resolve_safe_path root relative_path = Some full ->
  exists ns, ns <> [] /\ Forall plain ns /\ Forall proper_name ns /\
    names full = names (lexically_normal root) ++ ns /\
    absolute full = absolute (lexically_normal root).
Proof. apply resolve_confined. Qed.

Lemma resolve_safe_path_confined_witness :
  exists ns, ns <> [] /\ Forall plain ns /\ Forall proper_name ns /\
    [str "store"; str "ab"; str "a"; str "c"] =
      names (lexically_normal (path_of_string (str "store/ab"))) ++ ns /\
    false = absolute (lexically_normal (path_of_string (str "store/ab"))).
Proof.
  apply (resolve_safe_path_confined (path_of_string (str "store/ab"))
    {| absolute := false; names := [str "store"; str "ab"; str "a"; str "c"]; trailing := false |}
    (str "C:\a\b\..\c")).
  - apply path_of_string_wf.
  - vm_compute. reflexivity.
Defined.

(** Paths are kept. A relative path of plain names is accepted and maps to
    the session directory with these names behind it, so different clean paths
    never share a file. *)
Theorem resolve_safe_path_keeps (root : path) (ns : list bytes) :
  wf_path root -> lexically_normal root = root -> names root <> [dot] -> trailing root = false ->
  ns <> [] -> Forall plain ns -> Forall proper_name ns ->
  backslash ∉ join_slash ns -> strip_drive (join_slash ns) = join_slash ns ->
  resolve_safe_path root (join_slash ns) =
    Some {| absolute := absolute root; names := names root ++ ns; trailing := false |}.
Proof. apply resolve_plain. Qed.

Lemma resolve_safe_path_keeps_witness :
  resolve_safe_path (path_of_string (str "store/ab")) (join_slash [str "a"; str "b"]) =
    Some {| absolute := false; names := [str "store"; str "ab"] ++ [str "a"; str "b"]; trailing := false |}.
Proof.
  apply (resolve_safe_path_keeps (path_of_string (str "store/ab"))).
  - apply path_of_string_wf.
  - vm_compute. reflexivity.
  - vm_compute. congruence.
  - reflexivity.
  - discriminate.
  - repeat constructor; vm_compute; congruence.
  - repeat constructor; try (vm_compute; congruence); apply (bool_decide_unpack _); vm_compute; exact I.
  - apply (bool_decide_unpack _). vm_compute. exact I.
  - vm_compute. reflexivity.
Defined.

(** The checks look at the whole string, the system call only at what comes
    before the first NUL: the path dot-dot NUL x is accepted, and what is opened
    is the parent of the session directory, which is not below it. *)
Theorem nul_byte_escapes_check :
  let root := path_of_string (str "store/ab") in
  exists rel full, resolve_safe_path root rel = Some full /\ os_path full = str "store/ab/..".
Proof.
  exists (str ".." ++ x00 :: str "x"). eexists. split; vm_compute; reflexivity.
Qed.
