(* ===== verification/Codec.v ===== *)
(** * Streaming codecs (src/server/decompressor.h, zstd_decompressor.cxx,
      lz4_decompressor.cxx; src/client/compressor.h)

    The client keeps one compression stream per connection and flushes it at the
    end of every unit; the server feeds the blocks of a unit to one decompression
    stream and the output to a sink. The library calls are the operations of
    [LibDecoder] and [LibEncoder]; the loops around them are the source's.

    [StreamCodec] is what the upload path needs of a compressor and a
    decompressor: [zstd_codec] and [lz4_codec] discharge it from [LibCodec], what
    the library documentation says of the calls. *)

From S2P Require Import Prelude Protocol.

(** ** Decompression *)

(** [ZSTD_decompressStream] and [LZ4F_decompress]: a context, the input left and
    the room in the output buffer to the new context, and either an error
    ([None]) or the number of bytes read and the bytes written. *)
Class LibDecoder (D : Type) := {
  decode : D -> bytes -> nat -> D * option (nat * bytes);
  (** More calls than any block needs; a block decodes to finitely many bytes. *)
  decode_calls : D -> bytes -> nat;
}.

(** [DecompressSink]: [write] with its state. *)
Definition sink_write (T : Type) := T -> bytes -> T * bool.

Definition kDecodeChunk : nat := Z.to_nat (256 * 1024).

Section Decompress.
Context {D T : Type} {Lib : LibDecoder D} (write : sink_write T).

(** The part of an iteration both decoders share: non-empty output goes to the
    sink. *)
Definition to_sink (s : T) (out : bytes) : T * bool :=
  match out with [] => (s, true) | _ => write s out end.

Fixpoint zstd_loop (fuel : nat) (d : D) (input : bytes) (s : T) : D * T * bool :=
  match input with
  | [] => (d, s, true)
  | _ :: _ =>
      match fuel with
      | O => (d, s, false)
      | S fuel =>
          match decode d input kDecodeChunk with
          | (d, None) => (d, s, false)
          | (d, Some (n, out)) =>
              let '(s, ok) := to_sink s out in
              let rest := drop n input in
              if negb ok then (d, s, false)
              else if (length out =? 0)%nat && (0 <? length rest)%nat then (d, s, false)
              else zstd_loop fuel d rest s
          end
      end
  end.

Definition zstd_decompress (d : D) (input : bytes) (s : T) : D * T * bool :=
  zstd_loop (decode_calls d input) d input s.

Fixpoint lz4_loop (fuel : nat) (d : D) (input : bytes) (s : T) : D * T * bool :=
  match input with
  | [] => (d, s, true)
  | _ :: _ =>
      match fuel with
      | O => (d, s, false)
      | S fuel =>
          match decode d input kDecodeChunk with
          | (d, None) => (d, s, false)
          | (d, Some (n, out)) =>
              let rest := drop n input in
              let '(s, ok) := to_sink s out in
              if negb ok then (d, s, false)
              else if (n =? 0)%nat && (length out =? 0)%nat then (d, s, (length rest =? 0)%nat)
              else lz4_loop fuel d rest s
          end
      end
  end.

Definition lz4_decompress (d : D) (input : bytes) (s : T) : D * T * bool :=
  lz4_loop (decode_calls d input) d input s.

End Decompress.

(** ** Compression *)

Inductive flush_mode := Continue_ | Flush_.

(** [ZSTD_compressStream2]: the new context, and either an error or the bytes
    read, the bytes written and the number of bytes still to be flushed. *)
Class LibEncoder (C : Type) := {
  encode : C -> bytes -> nat -> flush_mode -> C * option (nat * bytes * nat);
}.

Section Compress.
Context {C : Type} {Lib : LibEncoder C}.

(** [outBuffer] holds [out]; the result is what the caller sees: the bytes
    [output[0..result)], so an error is an empty result. Every call reads or
    writes a byte, which bounds their number. *)
Fixpoint zstd_update_loop (fuel : nat) (c : C) (input out : bytes) (cap : nat) : C * bytes :=
  match input with
  | [] => (c, out)
  | _ :: _ =>
      match fuel with
      | O => (c, [])
      | S fuel =>
          match encode c input (cap - length out) Continue_ with
          | (c, None) => (c, [])
          | (c, Some (n, o, _)) =>
              let out := out ++ o in
              let rest := drop n input in
              if (length out =? cap)%nat && (0 <? length rest)%nat then (c, [])
              else zstd_update_loop fuel c rest out cap
          end
      end
  end.

Definition zstd_update (c : C) (input : bytes) (cap : nat) : C * bytes :=
  zstd_update_loop (length input + cap) c input [] cap.

Fixpoint zstd_flush_loop (fuel : nat) (c : C) (out : bytes) (cap : nat) : C * bytes :=
  match fuel with
  | O => (c, [])
  | S fuel =>
      match encode c [] (cap - length out) Flush_ with
      | (c, None) => (c, [])
      | (c, Some (_, o, remaining)) =>
          let out := out ++ o in
          if (remaining =? 0)%nat then (c, out)
          else if (length out =? cap)%nat then (c, [])
          else zstd_flush_loop fuel c out cap
      end
  end.

Definition zstd_flush (c : C) (cap : nat) : C * bytes := zstd_flush_loop (S cap) c [] cap.

End Compress.

(** The LZ4 frame compressor: [LZ4F_compressBegin], [LZ4F_compressUpdate] and
    [LZ4F_flush], each with the room in the output buffer. *)
Class Lz4Encoder (C : Type) := {
  lz4_begin : C -> nat -> C * option bytes;
  lz4_compress : C -> bytes -> nat -> C * option bytes;
  lz4_flush_lib : C -> nat -> C * option bytes;
}.

Section Lz4Compress.
Context {C : Type} {Lib : Lz4Encoder C}.

Record Lz4Compressor := { lz4_cctx : C; started : bool }.

Definition lz4_update (s : Lz4Compressor) (input : bytes) (cap : nat) : Lz4Compressor * bytes :=
  let body s header :=
    match lz4_compress (lz4_cctx s) input (cap - length header) with
    | (c, None) => ({| lz4_cctx := c; started := started s |}, [])
    | (c, Some b) => ({| lz4_cctx := c; started := started s |}, header ++ b)
    end in
  if negb (started s) then
    match lz4_begin (lz4_cctx s) cap with
    | (c, None) => ({| lz4_cctx := c; started := false |}, [])
    | (c, Some header) => body {| lz4_cctx := c; started := true |} header
    end
  else body s [].

Definition lz4_flush (s : Lz4Compressor) (cap : nat) : Lz4Compressor * bytes :=
  match lz4_flush_lib (lz4_cctx s) cap with
  | (c, None) => ({| lz4_cctx := c; started := started s |}, [])
  | (c, Some b) => ({| lz4_cctx := c; started := started s |}, b)
  end.

End Lz4Compress.

(** ** What the upload path relies on *)

(** The two ends of a connection's compression stream. *)
Class Compressor (C : Type) := {
  comp_update : C -> bytes -> nat -> C * bytes;
  comp_flush : C -> nat -> C * bytes;
}.

Class Decompressor (D : Type) := {
  decompress : forall {T : Type}, sink_write T -> D -> bytes -> T -> D * T * bool;
}.

(** Writing a list of pieces until one fails. *)
Fixpoint write_pieces {T : Type} (write : sink_write T) (s : T) (outs : list bytes) : T * bool :=
  match outs with
  | [] => (s, true)
  | o :: outs => let '(s, ok) := write s o in if ok then write_pieces write s outs else (s, false)
  end.

(** Feeding a block [z] hands the sink the pieces [outs], in order and until it
    refuses one. The source sends no empty blocks. *)
Definition feeds {D : Type} `{Decompressor D} (d : D) (z : bytes) (d' : D) (outs : list bytes) : Prop :=
  if bool_decide (z = []) then d' = d /\ outs = []
  else forall T (write : sink_write T) s,
    match write_pieces write s outs with
    | (s', true) => decompress write d z s = (d', s', true)
    | (s', false) => exists d'', decompress write d z s = (d'', s', false)
    end.

(** [mid c d q]: inside a unit, [q] are the bytes the compressor took and the
    decompressor has not handed out yet; [sync c d]: between units, none. The
    outputs fit in [cap] bytes. *)
Class StreamCodec (C D : Type) `{Compressor C} `{Decompressor D} (cap block : nat) := {
  sync : C -> D -> Prop;
  mid : C -> D -> bytes -> Prop;
  sync_mid c d : sync c d -> mid c d [];
  update_feeds c d q p c' z : mid c d q -> (length p <= block)%nat -> comp_update c p cap = (c', z) ->
    (length z <= cap)%nat /\
    exists d' outs q', feeds d z d' outs /\ q ++ p = concat outs ++ q' /\ mid c' d' q';
  flush_feeds c d q c' z : mid c d q -> comp_flush c cap = (c', z) ->
    (length z <= cap)%nat /\
    exists d' outs, feeds d z d' outs /\ q = concat outs /\ sync c' d';
}.

(** ** What the libraries document *)

(** [enc_at c z p]: the compressor [c] has taken [p] and written [z];
    [dec_at d z o]: the decompressor [d] has read [z] and written [o]. [plain z]
    is what the prefix [z] of a stream decodes to. *)
Class LibCodec (C D : Type) {Enc : LibEncoder C} {Dec : LibDecoder D} (cap block : nat) := {
  plain : bytes -> bytes;
  enc_at : C -> bytes -> bytes -> Prop;
  dec_at : D -> bytes -> bytes -> Prop;
  (** an upper bound on what [n] more bytes can make the compressor write,
      the way [ZSTD_compressBound] gives one *)
  enc_bound : C -> nat -> nat;
  enc_plain c z p : enc_at c z p -> exists q, p = plain z ++ q;
  plain_grows z i : exists q, plain (z ++ i) = plain z ++ q;
  (** every call makes progress and stays within the room and the bound *)
  encode_ok c z p input room mode : enc_at c z p -> (0 < room)%nat ->
    exists c' n o rem, encode c input room mode = (c', Some (n, o, rem)) /\
      (n <= length input)%nat /\ (length o <= room)%nat /\
      enc_at c' (z ++ o) (p ++ take n input) /\
      (length o + enc_bound c' (length input - n) <= enc_bound c (length input))%nat /\
      (mode = Continue_ -> input <> [] -> (0 < n + length o)%nat) /\
      (mode = Flush_ -> rem <> 0%nat -> (0 < length o)%nat) /\
      (mode = Flush_ -> input = [] -> rem = 0%nat -> plain (z ++ o) = p);
  (** the output buffer is large enough for a block *)
  bound_fits c z p n : enc_at c z p -> (n <= block)%nat -> (enc_bound c n < cap)%nat;
  (** the codec works in blocks that are small against [kDecodeChunk]: what one
      call makes decodable fits in the decoder's buffer *)
  emits_little c z p input c' zz : enc_at c z p -> (length input <= block)%nat ->
    (zstd_update c input cap = (c', zz) \/ (input = [] /\ zstd_flush c cap = (c', zz))) ->
    (length (plain (z ++ zz)) <= length (plain z) + kDecodeChunk)%nat;
  (** a call on a prefix of a real stream succeeds, makes progress, and if it
      did not fill the buffer it has read everything and flushed everything *)
  decode_ok d z o i y c p room : dec_at d z o -> enc_at c (z ++ i ++ y) p -> i <> [] -> (0 < room)%nat ->
    exists d' n out q, decode d i room = (d', Some (n, out)) /\
      (n <= length i)%nat /\ (length out <= room)%nat /\ (0 < n + length out)%nat /\
      dec_at d' (z ++ take n i) (o ++ out) /\ plain (z ++ take n i) = o ++ out ++ q /\
      ((length out < room)%nat -> n = length i /\ q = []);
  calls_enough d z o i : dec_at d z o ->
    (length i + (length (plain (z ++ i)) - length o) < decode_calls d i)%nat;
}.

Lemma kDecodeChunk_pos : (0 < kDecodeChunk)%nat.
Proof. apply Nat.ltb_lt. vm_compute. reflexivity. Qed.

#[global] Opaque kDecodeChunk.

Section Discharge.
Context {C D : Type} {Enc : LibEncoder C} {Dec : LibDecoder D} {cap block : nat}.
Context {Lib : LibCodec C D cap block}.

(** ** The decompression loops hand out what the input decodes to *)

Lemma decode_progress d z o i y c p :
  dec_at d z o -> enc_at c (z ++ i ++ y) p -> i <> [] ->
  exists d' n out q, decode d i kDecodeChunk = (d', Some (n, out)) /\ (n <= length i)%nat /\
    (0 < n + length out)%nat /\ dec_at d' (z ++ take n i) (o ++ out) /\
    plain (z ++ i) = (o ++ out) ++ q /\ (drop n i <> [] -> length out = kDecodeChunk) /\
    (q = [] \/ length out = kDecodeChunk).
Proof.
  intros Hd He Hi. pose proof kDecodeChunk_pos as Hpos.
  destruct (decode_ok d z o i y c p kDecodeChunk Hd He Hi Hpos)
    as (d' & n & out & q & E & Hn & Hout & Hprog & Hd' & Hplain & Hfull).
  destruct (decide (length out < kDecodeChunk)%nat) as [Hlt|Hge].
  - destruct (Hfull Hlt) as [-> ->]. exists d', (length i), out, [].
    rewrite firstn_all, app_assoc in Hplain. repeat (split; [done|]). split; [|by left].
    by rewrite drop_ge.
  - destruct (plain_grows (z ++ take n i) (drop n i)) as [q' Hq'].
    rewrite <- app_assoc, take_drop, Hplain in Hq'. exists d', n, out, (q ++ q').
    repeat (split; [done|]). split; [by rewrite Hq', <- !app_assoc|].
    split; [intros _; lia|]. right. lia.
Qed.

(** What both loops have in common: as long as the library makes progress and
    leaves input only when it filled the buffer, an iteration passes its output
    on and goes on with the rest. *)
Abbreviation loop_type := (forall T, sink_write T -> nat -> D -> bytes -> T -> D * T * bool).

Definition drains (loop : loop_type) : Prop :=
  (forall T (write : sink_write T) fuel d s, loop T write fuel d [] s = (d, s, true)) /\
  (forall T (write : sink_write T) fuel d i s d1 n out,
    i <> [] -> decode d i kDecodeChunk = (d1, Some (n, out)) -> (0 < n + length out)%nat ->
    (drop n i <> [] -> out <> []) ->
    loop T write (S fuel) d i s =
      match to_sink write s out with
      | (s, true) => loop T write fuel d1 (drop n i) s
      | (s, false) => (d1, s, false)
      end).

Lemma zstd_loop_drains : drains (fun T => @zstd_loop D T Dec).
Proof.
  split; [by intros T write [|fuel]|]. intros T write fuel d i s d1 n out Hi E _ Hout.
  destruct i as [|b i]; [done|]. cbn [zstd_loop]. rewrite E.
  destruct (to_sink write s out) as [s1 [|]]; cbn [negb]; [|done].
  destruct (drop n (b :: i)) eqn:Ed; [by rewrite andb_false_r|].
  destruct out; [by destruct (Hout ltac:(done))|done].
Qed.

Lemma lz4_loop_drains : drains (fun T => @lz4_loop D T Dec).
Proof.
  split; [by intros T write [|fuel]|]. intros T write fuel d i s d1 n out Hi E Hprog _.
  destruct i as [|b i]; [done|]. cbn [lz4_loop]. rewrite E.
  destruct (to_sink write s out) as [s1 [|]]; cbn [negb]; [|done].
  destruct (Nat.eqb_spec n 0), (Nat.eqb_spec (length out) 0); try done; lia.
Qed.

Definition hands_out (loop : loop_type) (fuel : nat) (d : D) (i : bytes) (d' : D)
    (outs : list bytes) : Prop :=
  forall T (write : sink_write T) s,
    match write_pieces write s outs with
    | (s', true) => loop T write fuel d i s = (d', s', true)
    | (s', false) => exists d'', loop T write fuel d i s = (d'', s', false)
    end.

Definition piece (out : bytes) : list bytes := match out with [] => [] | _ => [out] end.

Lemma concat_piece out outs : concat (piece out ++ outs) = out ++ concat outs.
Proof. by destruct out. Qed.

Lemma hands_out_step loop fuel d i d1 n out d' outs :
  drains loop -> i <> [] -> decode d i kDecodeChunk = (d1, Some (n, out)) ->
  (0 < n + length out)%nat -> (drop n i <> [] -> out <> []) ->
  hands_out loop fuel d1 (drop n i) d' outs ->
  hands_out loop (S fuel) d i d' (piece out ++ outs).
Proof.
  intros [_ Hstep] Hi E Hprog Hout Hh T write s. rewrite (Hstep _ _ _ _ _ _ _ _ _ Hi E Hprog Hout).
  destruct out as [|b out]; [apply Hh|]. cbn [piece app write_pieces to_sink].
  destruct (write s (b :: out)) as [s1 [|]]; [apply Hh|by eexists].
Qed.

(** What stays behind: nothing, unless the last output filled the buffer. *)
Definition stays_behind (outs : list bytes) (q : bytes) : Prop :=
  q = [] \/ exists before full, outs = before ++ [full] /\ length full = kDecodeChunk.

Lemma fits_nothing_behind (all o q : bytes) outs :
  all = o ++ concat outs ++ q -> stays_behind outs q ->
  (length all <= length o + kDecodeChunk)%nat -> q = [].
Proof.
  intros Hp [->|(before & full & -> & Hf)]; [done|]. intros Hroom. apply nil_length_inv.
  apply (f_equal length) in Hp. rewrite concat_app in Hp. cbn [concat] in Hp.
  rewrite !length_app in Hp. cbn [length] in Hp. lia.
Qed.

Lemma loop_hands_out loop y c p fuel : drains loop -> forall d z o i,
  dec_at d z o -> enc_at c (z ++ i ++ y) p ->
  (length i + (length (plain (z ++ i)) - length o) < fuel)%nat ->
  i <> [] ->
  exists d' outs q, hands_out loop fuel d i d' outs /\
    dec_at d' (z ++ i) (o ++ concat outs) /\ plain (z ++ i) = o ++ concat outs ++ q /\
    stays_behind outs q.
Proof.
  intros Hloop. pose proof kDecodeChunk_pos as Hpos.
  induction fuel as [|fuel IH]; intros d z o i Hd He Hfuel Hi; [lia|].
  destruct (decode_progress d z o i y c p Hd He Hi)
    as (d1 & n & out & q & E & Hn & Hprog & Hd1 & Hplain & Hrest & Hend).
  assert (Hout : drop n i <> [] -> out <> []).
  { intros Hne ->. specialize (Hrest Hne). simpl in Hrest. lia. }
  assert (Hz : (z ++ take n i) ++ drop n i = z ++ i) by (by rewrite <- app_assoc, take_drop).
  destruct (decide (drop n i = [])) as [Hnil|Hne].
  - rewrite Hnil, app_nil_r in Hz. rewrite Hz in Hd1.
    exists d1, (piece out ++ []), q. rewrite concat_piece. cbn [concat].
    rewrite (app_nil_r out), (app_assoc o). split; [|split; [done|split; [done|]]].
    + eapply hands_out_step; [done..|]. rewrite Hnil. intros T write s. cbn [write_pieces]. apply Hloop.
    + destruct Hend as [->|Hfull]; [by left|]. right. exists [], out. split; [|done].
      destruct out; [simpl in Hfull; lia|done].
  - destruct (IH d1 (z ++ take n i) (o ++ out) (drop n i)) as (d2 & outs & q2 & Hh & Hd2 & Hp2 & Hb).
    + done.
    + by rewrite app_assoc, Hz, <- app_assoc.
    + rewrite Hz. apply (f_equal length) in Hplain.
      rewrite length_drop. rewrite !length_app in *. lia.
    + done.
    + rewrite Hz in Hd2, Hp2. exists d2, (piece out ++ outs), q2. rewrite concat_piece.
      rewrite <- (app_assoc o) in Hd2, Hp2. rewrite <- (app_assoc out).
      split; [by eapply hands_out_step|]. split; [done|]. split; [done|].
      destruct Hb as [->|(before & full & -> & Hf)]; [by left|]. right.
      exists (piece out ++ before), full. by rewrite <- app_assoc.
Qed.

(** A block, for either loop: nothing stays behind if what it adds fits in the buffer. *)
Lemma block_hands_out loop d z i y c p :
  drains loop -> dec_at d z (plain z) -> enc_at c (z ++ i ++ y) p -> i <> [] ->
  (length (plain (z ++ i)) <= length (plain z) + kDecodeChunk)%nat ->
  exists d' outs, hands_out loop (decode_calls d i) d i d' outs /\
    dec_at d' (z ++ i) (plain (z ++ i)) /\ plain (z ++ i) = plain z ++ concat outs.
Proof.
  intros Hloop Hd He Hi Hroom.
  destruct (loop_hands_out loop y c p (decode_calls d i) Hloop d z (plain z) i Hd He)
    as (d' & outs & q & Hh & Hd' & Hp & Hb); [by apply calls_enough|done|].
  rewrite (fits_nothing_behind _ _ _ _ Hp Hb Hroom), app_nil_r in Hp. exists d', outs. rewrite <- Hp in Hd'. done.
Qed.

(** ** The compression loops lose nothing *)

Lemma zstd_update_loop_ok fuel : forall c z p input out,
  enc_at c (z ++ out) p -> (length out + enc_bound c (length input) < cap)%nat ->
  (length input + (cap - length out) <= fuel)%nat ->
  exists c' o, zstd_update_loop fuel c input out cap = (c', out ++ o) /\
    enc_at c' (z ++ out ++ o) (p ++ input) /\ (length (out ++ o) < cap)%nat.
Proof.
  induction fuel as [|fuel IH]; intros c z p input out He Hb Hfuel;
    (destruct input as [|b input];
     [exists c, []; cbn [zstd_update_loop]; rewrite !app_nil_r; split; [done|]; split; [done|lia]|]).
  { cbn [length] in Hfuel. lia. }
  cbn [zstd_update_loop]. set (i := b :: input) in *.
  destruct (encode_ok c (z ++ out) p i (cap - length out) Continue_ He ltac:(lia))
    as (c1 & n & o & rem & E & Hn & Ho & He1 & Hb1 & Hprog & _). rewrite E.
  specialize (Hprog eq_refl ltac:(done)).
  rewrite <- app_assoc in He1.
  replace (length (out ++ o) =? cap)%nat with false.
  2: { symmetry. apply Nat.eqb_neq. rewrite length_app. lia. }
  cbn [andb].
  destruct (IH c1 z (p ++ take n i) (drop n i) (out ++ o) He1) as (c2 & o2 & E2 & He2 & Hl2).
  - rewrite length_app, length_drop. lia.
  - rewrite length_app, length_drop. lia.
  - exists c2, (o ++ o2). rewrite E2, <- app_assoc in *. split; [done|].
    rewrite <- !app_assoc, take_drop in He2. done.
Qed.

Lemma zstd_update_ok c z p input :
  enc_at c z p -> (length input <= block)%nat ->
  exists c' o, zstd_update c input cap = (c', o) /\ enc_at c' (z ++ o) (p ++ input) /\
    (length o <= cap)%nat.
Proof.
  intros He Hl. pose proof (bound_fits c z p _ He Hl) as Hb.
  destruct (zstd_update_loop_ok (length input + cap) c z p input []) as (c' & o & E & He' & Hlen).
  - by rewrite app_nil_r.
  - cbn. lia.
  - cbn. lia.
  - exists c', o. split; [exact E|]. split; [done|]. cbn in Hlen. lia.
Qed.

Lemma zstd_flush_loop_ok fuel : forall c z p out,
  enc_at c (z ++ out) p -> (length out + enc_bound c 0 < cap)%nat ->
  (cap - length out < fuel)%nat ->
  exists c' o, zstd_flush_loop fuel c out cap = (c', out ++ o) /\
    enc_at c' (z ++ out ++ o) p /\ (length (out ++ o) < cap)%nat /\ plain (z ++ out ++ o) = p.
Proof.
  induction fuel as [|fuel IH]; intros c z p out He Hb Hfuel; [lia|]. cbn [zstd_flush_loop].
  destruct (encode_ok c (z ++ out) p [] (cap - length out) Flush_ He ltac:(lia))
    as (c1 & n & o & rem & E & Hn & Ho & He1 & Hb1 & _ & Hprog & Hdone). rewrite E.
  rewrite take_nil, app_nil_r, <- app_assoc in He1. cbn [length] in Hb1.
  replace (0 - n)%nat with 0%nat in Hb1 by lia.
  destruct (Nat.eqb_spec rem 0) as [Hrem|Hrem].
  - exists c1, o. split; [done|]. split; [done|]. split; [rewrite length_app; lia|].
    rewrite app_assoc. by apply Hdone.
  - specialize (Hprog eq_refl Hrem).
    replace (length (out ++ o) =? cap)%nat with false.
    2: { symmetry. apply Nat.eqb_neq. rewrite length_app. lia. }
    destruct (IH c1 z p (out ++ o) He1) as (c2 & o2 & E2 & He2 & Hl2 & Hp2).
    + rewrite length_app. lia.
    + rewrite length_app. lia.
    + exists c2, (o ++ o2). rewrite E2. rewrite <- !app_assoc in *. done.
Qed.

Lemma zstd_flush_ok c z p :
  enc_at c z p -> exists c' o, zstd_flush c cap = (c', o) /\ enc_at c' (z ++ o) p /\
    (length o <= cap)%nat /\ plain (z ++ o) = p.
Proof.
  intros He. pose proof (bound_fits c z p 0 He ltac:(lia)) as Hb.
  destruct (zstd_flush_loop_ok (S cap) c z p []) as (c' & o & E & He' & Hlen & Hp).
  - by rewrite app_nil_r.
  - cbn. lia.
  - cbn. lia.
  - exists c', o. cbn in Hlen. split; [exact E|]. split; [done|]. split; [lia|done].
Qed.

(** ** The interface *)

#[global] Instance zstd_compressor : Compressor C := {
  comp_update := zstd_update;
  comp_flush := zstd_flush;
}.

#[global] Instance zstd_decompressor : Decompressor D := {
  decompress T write := zstd_decompress write;
}.

Lemma zstd_feeds d z i c p :
  dec_at d z (plain z) -> enc_at c (z ++ i) p ->
  (length (plain (z ++ i)) <= length (plain z) + kDecodeChunk)%nat ->
  exists d' outs, feeds d i d' outs /\ dec_at d' (z ++ i) (plain (z ++ i)) /\
    plain (z ++ i) = plain z ++ concat outs.
Proof.
  intros Hd He Hroom. destruct (decide (i = [])) as [->|Hi].
  - exists d, []. unfold feeds. cbn [concat]. rewrite !app_nil_r in *.
    by rewrite bool_decide_eq_true_2.
  - destruct (block_hands_out _ d z i [] c p zstd_loop_drains Hd) as (d' & outs & Hh & Hd' & Hp).
    + by rewrite app_nil_r.
    + done.
    + done.
    + exists d', outs. split; [|done]. unfold feeds. rewrite bool_decide_eq_false_2 by done. exact Hh.
Qed.

#[global] Instance zstd_codec : StreamCodec C D cap block.
Proof.
  refine {| sync c d := exists z p, enc_at c z p /\ dec_at d z p /\ plain z = p;
            mid c d q := exists z p, enc_at c z p /\ dec_at d z (plain z) /\ p = plain z ++ q |}.
  - intros c d (z & p & He & Hd & Hp). exists z, p. rewrite Hp, app_nil_r. done.
  - intros c d q i c' zz (z & p & He & Hd & Hp) Hl E. change (zstd_update c i cap = (c', zz)) in E.
    destruct (zstd_update_ok c z p i He Hl) as (c1 & o & E1 & He1 & Hlen). rewrite E in E1.
    injection E1 as <- <-. split; [done|].
    destruct (zstd_feeds d z zz c' (p ++ i) Hd He1) as (d' & outs & Hf & Hd' & Hp').
    { eapply emits_little; [exact He|exact Hl|by left]. }
    destruct (enc_plain _ _ _ He1) as [q' Hq']. exists d', outs, q'. split; [done|]. split.
    + apply (app_inv_head (plain z)). rewrite !app_assoc, <- Hp', <- Hp. done.
    + by exists (z ++ zz), (p ++ i).
  - intros c d q c' zz (z & p & He & Hd & Hp) E. change (zstd_flush c cap = (c', zz)) in E.
    destruct (zstd_flush_ok c z p He) as (c1 & o & E1 & He1 & Hlen & Hpl). rewrite E in E1.
    injection E1 as <- <-. split; [done|].
    destruct (zstd_feeds d z zz c' p Hd He1) as (d' & outs & Hf & Hd' & Hp').
    { eapply (emits_little c z p []); [exact He|cbn; lia|by right]. }
    exists d', outs. split; [done|]. split.
    + apply (app_inv_head (plain z)). by rewrite <- Hp', Hpl.
    + exists (z ++ zz), p. rewrite Hpl in Hd'. done.
Defined.

End Discharge.

(** ** A codec that copies

    Stored blocks: it shows that the laws can hold together, for any block that
    is smaller than the two buffers. *)

Module Copy.

#[export] Instance encoder : LibEncoder unit := {
  encode c input room mode := (c, Some ((room `min` length input)%nat, take room input, 0%nat));
}.

#[export] Instance decoder : LibDecoder unit := {
  decode d input room := (d, Some ((room `min` length input)%nat, take room input));
  decode_calls d input := S (length input + length input);
}.

Lemma update_length fuel c input out cap :
  (length (zstd_update_loop fuel c input out cap).2 <= length out + length input)%nat.
Proof.
  revert c input out. induction fuel as [|fuel IH]; intros c input out;
    (destruct input as [|b input]; [simpl; lia|]); [simpl; lia|].
  cbn [zstd_update_loop encode encoder]. set (i := b :: input).
  destruct (_ && _); [simpl; lia|].
  etransitivity; [apply IH|]. rewrite length_app, length_take, length_drop. lia.
Qed.

Lemma flush_length fuel c out cap : (length (zstd_flush_loop fuel c out cap).2 <= length out)%nat.
Proof.
  destruct fuel as [|fuel]; [simpl; lia|]. cbn [zstd_flush_loop encode encoder].
  rewrite take_nil, app_nil_r. cbn. lia.
Qed.

Lemma laws (cap block : nat) :
  (block < cap)%nat -> (block <= kDecodeChunk)%nat -> LibCodec unit unit cap block.
Proof.
  intros Hb Hk.
  refine {| plain z := z; enc_at _ z p := z = p; dec_at _ z o := z = o; enc_bound _ n := n |}.
  - intros c z p ->. exists []. by rewrite app_nil_r.
  - intros z i. by exists i.
  - intros c z p input room mode -> Hroom. cbn. do 4 eexists. split; [reflexivity|].
    split; [lia|]. split; [rewrite length_take; lia|].
    split; [f_equal; destruct (decide (room <= length input)%nat);
            [by rewrite Nat.min_l|by rewrite Nat.min_r, firstn_all, take_ge by lia]|].
    split; [rewrite length_take; lia|]. split; [intros _ Hi; destruct input; [done|simpl; lia]|].
    split; [done|]. intros _ -> _. by rewrite take_nil, app_nil_r.
  - lia.
  - intros c z p input c' zz _ Hl E. rewrite length_app.
    assert (length zz <= block)%nat; [|lia]. destruct E as [E|[-> E]].
    + pose proof (update_length (length input + cap) c input [] cap) as H.
      change (zstd_update_loop _ c input [] cap) with (zstd_update c input cap) in H.
      rewrite E in H. cbn in H. lia.
    + pose proof (flush_length (S cap) c [] cap) as H.
      change (zstd_flush_loop _ c [] cap) with (zstd_flush c cap) in H.
      rewrite E in H. cbn in H. lia.
  - intros d z o i y c p room -> _ Hi Hroom. cbn.
    eexists _, _, _, []. split; [reflexivity|]. split; [lia|].
    split; [rewrite length_take; lia|]. split; [destruct i; [done|simpl; lia]|].
    assert (Ht : take (room `min` length i) i = take room i).
    { destruct (decide (room <= length i)%nat);
        [by rewrite Nat.min_l|by rewrite Nat.min_r, firstn_all, take_ge by lia]. }
    rewrite Ht, app_nil_r. split; [done|]. split; [done|]. rewrite length_take. intros. split; [lia|done].
  - intros d z o i ->. rewrite length_app. cbn. lia.
Defined.

End Copy.

(** ** Properties *)

(** C10: the decompression loops refine the stream they decode. Given what the
    library documents, a decoder that has handed out [o] for the prefix [z] of a
    stream, and a further block [i] of any size, [zstd_decompress] and
    [lz4_decompress] terminate, give any sink exactly the next bytes of what
    [z ++ i] decodes to, in order, stopping at the first write it refuses, and
    leave the decoder at that point. Decoded bytes [q] stay behind in the decoder
    only if the last output filled the buffer of [kDecodeChunk] bytes, since the
    loops end when the input is used up; so nothing stays behind if the block
    makes at most [kDecodeChunk] bytes decodable that were not handed out. *)
Theorem decompress_hands_out_block {C D : Type} {Enc : LibEncoder C} {Dec : LibDecoder D}
    {cap block : nat} {Lib : LibCodec C D cap block} (d : D) (c : C) (z i y p o : bytes) :
  dec_at d z o -> enc_at c (z ++ i ++ y) p -> i <> [] ->
  let outcome (loop : forall T, sink_write T -> nat -> D -> bytes -> T -> D * T * bool) :=
    exists d' outs q,
      hands_out loop (decode_calls d i) d i d' outs /\
      dec_at d' (z ++ i) (o ++ concat outs) /\ plain (z ++ i) = o ++ concat outs ++ q /\
      (q = [] \/ exists before full, outs = before ++ [full] /\ length full = kDecodeChunk) /\
      ((length (plain (z ++ i)) <= length o + kDecodeChunk)%nat -> q = []) in
  outcome (fun T => @zstd_loop D T Dec) /\ outcome (fun T => @lz4_loop D T Dec).
Proof.
  intros Hd He Hi outcome.
  assert (H : forall loop, drains loop -> outcome loop).
  { intros loop Hloop.
    destruct (loop_hands_out loop y c p (decode_calls d i) Hloop d z o i Hd He)
      as (d' & outs & q & Hh & Hd' & Hp & Hb); [by apply calls_enough|done|].
    exists d', outs, q. repeat (split; [done|]). by eapply fits_nothing_behind. }
  split; apply H; [apply zstd_loop_drains|apply lz4_loop_drains].
Qed.

(** "abc" after "x", with the library that stores bytes as they are. *)
Lemma decompress_hands_out_block_witness :
  (exists d' outs, hands_out (fun T => @zstd_loop unit T Copy.decoder) 7 tt (str "abc") d' outs /\
     concat outs = str "abc") /\
  (exists d' outs, hands_out (fun T => @lz4_loop unit T Copy.decoder) 7 tt (str "abc") d' outs /\
     concat outs = str "abc").
Proof.
  assert (Hb : (8 < 9)%nat) by lia.
  assert (Hk : (8 <= kDecodeChunk)%nat) by (apply Nat.leb_le; vm_compute; reflexivity).
  assert (Hfit : (length (@plain _ _ _ _ _ _ (Copy.laws 9 8 Hb Hk) (str "x" ++ str "abc")) <=
    length (str "x") + kDecodeChunk)%nat) by (apply Nat.leb_le; vm_compute; reflexivity).
  destruct (@decompress_hands_out_block unit unit Copy.encoder Copy.decoder 9 8 (Copy.laws 9 8 Hb Hk)
    tt tt (str "x") (str "abc") [] (str "xabc") (str "x")) as
    [(d1 & o1 & q1 & H1 & _ & P1 & _ & F1) (d2 & o2 & q2 & H2 & _ & P2 & _ & F2)];
    [reflexivity|reflexivity|discriminate|].
  pose proof (F1 Hfit) as E1. pose proof (F2 Hfit) as E2.
  clear F1 F2. subst q1 q2.
  rewrite app_nil_r in P1, P2. injection P1 as P1. injection P2 as P2.
  split.
  - exists d1, o1. split; [exact H1|symmetry; exact P1].
  - exists d2, o2. split; [exact H2|symmetry; exact P2].
Defined.
