(* ===== verification/Upload.v ===== *)
(** * The upload consumer (src/server/connection.cxx: UnitSink, consumer_main,
      handle_probe, handle_upload)

    The consumer thread parses the units of a connection out of its byte channel
    and writes them to the session's sink. It sees the channel as the stream of
    [ByteChannel.stream_read]; a failed read leaves it drained. What the thread
    posts to the client and the events it emits are kept as lists, oldest first;
    the session and peer names, which every event carries, are left out. *)

From S2P Require Import Prelude Wire Protocol XXHash ByteChannel PosixPath FileSink Codec.

Record AcceptedUnit := { au_type : UnitType; au_path : bytes; au_offset : Z }.

Record ProbeInfo := {
  probe_path : bytes;
  probe_type : UnitType;
  probe_offset : Z;
  probe_length : Z;
  probe_file_size : Z;
  probe_mtime : Z;
  probe_hash : bytes;
}.

Inductive event :=
  | UploadStarted (path : bytes) (type : UnitType) (offset : Z)
  | UploadFinished (path : bytes) (type : UnitType) (offset wire bytes_ : Z) (ok : bool) (reason : bytes)
  | UploadSkipped (path : bytes) (type : UnitType) (offset length : Z).

(** [checksum_state] is only used with [integrity]. *)
Record UnitSink := {
  is_chunk : bool;
  sequential : SequentialWriter;
  offset : OffsetWriter;
  base_offset : Z;
  running : Z;
  integrity : bool;
  checksum_state : XXH64_state;
}.

Section Consumer.
Context {W D : Type} {Ops : FsOps W} {Dec : Decompressor D}.
Variables (mode_ : Z) (integrity_checks_ : bool) (filter_ : ProbeInfo -> bool).

Record Consumer := {
  input : bytes;
  world : W;
  sink_ : FileSink;
  decompressor_ : D;
  accepted_ : gmap Z AcceptedUnit;
  units_done_ : Z;
  bytes_total_ : Z;
  posted : list bytes;
  emitted : list event;
}.

Definition set_input (s : Consumer) (i : bytes) : Consumer :=
  {| input := i; world := world s; sink_ := sink_ s; decompressor_ := decompressor_ s;
     accepted_ := accepted_ s; units_done_ := units_done_ s; bytes_total_ := bytes_total_ s;
     posted := posted s; emitted := emitted s |}.

Definition set_io (s : Consumer) (w : W) (k : FileSink) (d : D) : Consumer :=
  {| input := input s; world := w; sink_ := k; decompressor_ := d;
     accepted_ := accepted_ s; units_done_ := units_done_ s; bytes_total_ := bytes_total_ s;
     posted := posted s; emitted := emitted s |}.

Definition set_accepted (s : Consumer) (a : gmap Z AcceptedUnit) : Consumer :=
  {| input := input s; world := world s; sink_ := sink_ s; decompressor_ := decompressor_ s;
     accepted_ := a; units_done_ := units_done_ s; bytes_total_ := bytes_total_ s;
     posted := posted s; emitted := emitted s |}.

Definition count_unit (s : Consumer) (bytes_ : Z) : Consumer :=
  {| input := input s; world := world s; sink_ := sink_ s; decompressor_ := decompressor_ s;
     accepted_ := accepted_ s; units_done_ := wrap 64 (units_done_ s + 1);
     bytes_total_ := wrap 64 (bytes_total_ s + bytes_);
     posted := posted s; emitted := emitted s |}.

Definition post (s : Consumer) (data : bytes) : Consumer :=
  {| input := input s; world := world s; sink_ := sink_ s; decompressor_ := decompressor_ s;
     accepted_ := accepted_ s; units_done_ := units_done_ s; bytes_total_ := bytes_total_ s;
     posted := posted s ++ [data]; emitted := emitted s |}.

Definition emit (s : Consumer) (e : event) : Consumer :=
  {| input := input s; world := world s; sink_ := sink_ s; decompressor_ := decompressor_ s;
     accepted_ := accepted_ s; units_done_ := units_done_ s; bytes_total_ := bytes_total_ s;
     posted := posted s; emitted := emitted s ++ [e] |}.

(** [channel_.read_exact]. *)
Definition read (n : nat) (s : Consumer) : Consumer * option bytes :=
  match stream_read n (input s) with
  | Some (data, rest) => (set_input s rest, Some data)
  | None => (set_input s [], None)
  end.

(** A handler's steps: [None] is the early exit ([break] of the unit loop,
    [return false] of the probe). *)
Definition M (A : Type) := Consumer -> Consumer * option A.

Definition mret {A} (a : A) : M A := fun s => (s, Some a).
Definition stop {A} : M A := fun s => (s, None).
Definition bind {A B} (m : M A) (f : A -> M B) : M B := fun s =>
  match m s with
  | (s, Some a) => f a s
  | (s, None) => (s, None)
  end.
Definition guard (b : bool) : M unit := if b then mret tt else stop.
Definition modify (f : Consumer -> Consumer) : M unit := fun s => (f s, Some tt).
Definition gets {A} (f : Consumer -> A) : M A := fun s => (s, Some (f s)).

Local Notation "x <- m ; k" := (bind m (fun x => k))
  (at level 100, m at next level, right associativity, only parsing).
Local Notation "m ;; k" := (bind m (fun _ => k)) (at level 100, right associativity, only parsing).

Definition bad_path_len (path_len : Z) : bool := (path_len =? 0) || (kMaxPathLength <? path_len).

Definition is_unit (type : option UnitType) : bool :=
  match type with Some File | Some Chunk => true | _ => false end.

(** ** Probes *)

Definition handle_probe : M unit :=
  head <- read 11;
  let key := read_u64_le head in
  let type := unit_type_of_byte (nth 8 head x00) in
  let path_len := read_u16_le (drop 9 head) in
  guard (is_unit type && negb (bad_path_len path_len));;
  let hash_first := has_mode mode_ HashFirst in
  path <- read (Z.to_nat path_len);
  sizes <- read 32;
  hash <- (if hash_first then read kProbeHashSize else mret []);
  let type := default File type in
  let probe := {| probe_path := path; probe_type := type;
                  probe_offset := read_u64_le sizes;
                  probe_length := read_u64_le (drop 8 sizes);
                  probe_file_size := read_u64_le (drop 16 sizes);
                  probe_mtime := to_int64 (read_u64_le (drop 24 sizes));
                  probe_hash := hash |} in
  let accepted := filter_ probe in
  (if accepted then
     modify (fun s => set_accepted s
       (<[key := {| au_type := type; au_path := path; au_offset := probe_offset probe |}]> (accepted_ s)))
   else modify (fun s => emit s (UploadSkipped path type (probe_offset probe) (probe_length probe))));;
  modify (fun s => post s
    (decision_to_byte (if accepted then DecisionAccept else DecisionReject) :: write_u64_le key)).

(** ** The blocks of a unit *)

Definition unit_sink_write (st : W * UnitSink) (data : bytes) : (W * UnitSink) * bool :=
  let '(w, u) := st in
  let checksum := if integrity u then XXH64_update (checksum_state u) data else checksum_state u in
  let running' := wrap 64 (running u + Z.of_nat (length data)) in
  if is_chunk u then
    let '(w, ok) := write_at w (offset u) (wrap 64 (base_offset u + running u)) data in
    (w, {| is_chunk := is_chunk u; sequential := sequential u; offset := offset u;
           base_offset := base_offset u; running := running'; integrity := integrity u;
           checksum_state := checksum |}, ok)
  else
    let '(w, sq, ok) := sequential_write w (sequential u) data in
    (w, {| is_chunk := is_chunk u; sequential := sq; offset := offset u;
           base_offset := base_offset u; running := running'; integrity := integrity u;
           checksum_state := checksum |}, ok).

Definition connection_lost : bytes := str "connection lost".
Definition protocol_error : bytes := str "protocol error".
Definition decode_error : bytes := str "decode error".
Definition checksum_mismatch : bytes := str "checksum mismatch".
Definition rejected : bytes := str "rejected".

(** The block loop. The result is [None] when the unit ended ([unit_done]), and
    the failure otherwise. Every iteration reads a byte, so the length of the
    input bounds their number. *)
Fixpoint read_blocks (fuel : nat) (s : Consumer) (u : UnitSink) (unit_wire : Z) :
  Consumer * UnitSink * Z * option bytes :=
  match fuel with
  | O => (s, u, unit_wire, Some connection_lost)
  | S fuel =>
      match read 1 s with
      | (s, None) => (s, u, unit_wire, Some connection_lost)
      | (s, Some block_type) =>
          match block_type_of_byte (nth 0 block_type x00) with
          | Some EndOfUnit => (s, u, unit_wire, None)
          | None => (s, u, unit_wire, Some protocol_error)
          | Some Data =>
              match read 4 s with
              | (s, None) => (s, u, unit_wire, Some connection_lost)
              | (s, Some block_len_bytes) =>
                  let block_len := read_u32_le block_len_bytes in
                  if (block_len =? 0) || (kMaxBlockSize <? block_len) then
                    (s, u, unit_wire, Some protocol_error)
                  else
                    match read (Z.to_nat block_len) s with
                    | (s, None) => (s, u, unit_wire, Some connection_lost)
                    | (s, Some input_buffer) =>
                        let unit_wire := wrap 64 (unit_wire + block_len) in
                        let '(d, (w, u), ok) :=
                          decompress unit_sink_write (decompressor_ s) input_buffer (world s, u) in
                        let s := set_io s w (sink_ s) d in
                        if negb ok then (s, u, unit_wire, Some decode_error)
                        else read_blocks fuel s u unit_wire
                    end
              end
          end
      end
  end.

(** The checksum behind a unit that ended. *)
Definition check_unit (s : Consumer) (u : UnitSink) : Consumer * option bytes :=
  if integrity_checks_ then
    match read 8 s with
    | (s, None) => (s, Some connection_lost)
    | (s, Some checksum_bytes) =>
        if read_u64_le checksum_bytes =? XXH64_digest (checksum_state u) then (s, None)
        else (s, Some checksum_mismatch)
    end
  else (s, None).

Definition is_chunk_type (type : UnitType) : bool :=
  match type with Chunk => true | _ => false end.

Definition new_unit_sink (type : UnitType) (sq : SequentialWriter) (ow : OffsetWriter) (base : Z) : UnitSink :=
  {| is_chunk := is_chunk_type type; sequential := sq; offset := ow; base_offset := base;
     running := 0; integrity := integrity_checks_; checksum_state := XXH64_reset 0 |}.

(** ** Units *)

(** The header of a unit: its type, path and offset. *)
Definition unit_header (accept_mode : bool) (type : option UnitType) : M (UnitType * bytes * Z) :=
  match type with
  | Some Accepted =>
      guard accept_mode;;
      key_bytes <- read 8;
      found <- gets (fun s => accepted_ s !! read_u64_le key_bytes);
      match found with
      | None => stop
      | Some au =>
          modify (fun s => set_accepted s (delete (read_u64_le key_bytes) (accepted_ s)));;
          mret (au_type au, au_path au, au_offset au)
      end
  | Some File | Some Chunk =>
      guard (negb accept_mode);;
      path_len_bytes <- read 2;
      let path_len := read_u16_le path_len_bytes in
      guard (negb (bad_path_len path_len));;
      path <- read (Z.to_nat path_len);
      match type with
      | Some Chunk =>
          offset_bytes <- read 8;
          mret (Chunk, path, read_u64_le offset_bytes)
      | _ => mret (File, path, 0)
      end
  | _ => stop
  end.

(** Opens the unit's file; the two writers, of which one is valid. *)
Definition open_unit (type : UnitType) (path : bytes) : M (SequentialWriter * OffsetWriter) := fun s =>
  match type with
  | File =>
      let '(w, sq) := open_sequential (world s) (sink_ s) path in
      (set_io s w (sink_ s) (decompressor_ s),
       if sequential_valid sq then Some (sq, no_offset) else None)
  | _ =>
      let '(w, k, ow) := open_offset (world s) (sink_ s) path in
      (set_io s w k (decompressor_ s),
       if offset_valid ow then Some (no_sequential, ow) else None)
  end.

(** The unit from its blocks on. *)
Definition receive_unit (type : UnitType) (path : bytes) (base : Z)
    (writers : SequentialWriter * OffsetWriter) : M unit := fun s =>
  let u := new_unit_sink type writers.1 writers.2 base in
  let '(s, u, unit_wire, failure) := read_blocks (S (length (input s))) s u 0 in
  let '(s, failure) := match failure with None => check_unit s u | Some f => (s, Some f) end in
  let s := match type with
           | File => set_io s (sequential_close (world s) (sequential u)).1 (sink_ s) (decompressor_ s)
           | _ => s
           end in
  match failure with
  | Some f => (emit s (UploadFinished path type base unit_wire (running u) false f), None)
  | None =>
      (emit (count_unit s (running u)) (UploadFinished path type base unit_wire (running u) true []),
       Some tt)
  end.

(** One iteration of the unit loop; [None] leaves it. *)
Definition unit_step : M unit :=
  type_byte <- read 1;
  let type := unit_type_of_byte (nth 0 type_byte x00) in
  let accept_mode := has_mode mode_ ModeAccept in
  match type with
  | Some End => stop
  | Some Probe => guard accept_mode;; handle_probe
  | _ =>
      header <- unit_header accept_mode type;
      let '(type, path, base) := header in
      modify (fun s => emit s (UploadStarted path type base));;
      fun s =>
        match open_unit type path s with
        | (s, None) => (emit s (UploadFinished path type base 0 0 false rejected), None)
        | (s, Some writers) => receive_unit type path base writers s
        end
  end.

Fixpoint upload_loop (fuel : nat) (s : Consumer) : Consumer :=
  match fuel with
  | O => s
  | S fuel =>
      match unit_step s with
      | (s, Some _) => upload_loop fuel s
      | (s, None) => s
      end
  end.

Definition handle_upload (s : Consumer) : Consumer := upload_loop (S (length (input s))) s.

Definition consumer_main (s : Consumer) : Consumer :=
  match read 1 s with
  | (s, Some cmd_byte) =>
      match cmd_of_byte (nth 0 cmd_byte x00) with
      | Some Upload => handle_upload s
      | None => s
      end
  | (s, None) => s
  end.

End Consumer.

Arguments Consumer : clear implicits.
