(* ===== verification/StorageReader.v ===== *)
(** * Reading units from disk (src/client/storageReader.h, src/client/task.h)

    The reader thread turns a request (a path and a range) into the sequence of
    blocks the worker compresses. [open] and [pread] are the operations of
    [DiskOps]; [DiskLaws] says what POSIX says of them on a file whose contents do
    not change. The rings the blocks travel through are FIFOs (see [Ring]). *)

From S2P Require Import Prelude Protocol PosixPath.

Definition PATH_CAP : nat := 256.

Record Task := {
  t_type : UnitType;
  pathname : bytes;
  t_offset : Z;
  t_length : Z;
  fileSize : Z;
  mtime : Z;
}.

(** [strncpy(dst, src, PATH_CAP - 1)] into a buffer whose last byte is NUL, read
    back as a C string. *)
Definition strncpy_path (path : bytes) : bytes := take (PATH_CAP - 1) (c_str path).

Definition WorkerTask (type : UnitType) (path : bytes) (offset length fileSize mtime : Z) : Task :=
  {| t_type := type; pathname := strncpy_path path; t_offset := offset; t_length := length;
     fileSize := fileSize; mtime := mtime |}.

Definition READ_BLOCK : Z := 256 * 1024.

Class DiskOps (K F : Type) := {
  disk_open : K -> bytes -> option F;           (** [None]: the descriptor is negative *)
  pread : K -> F -> Z -> Z -> option bytes;     (** length, offset; [None]: error *)
}.

Section Reader.
Context {K F : Type} {Ops : DiskOps K F} (k : K).

(** [ReadFileHandle::readAt]. Every iteration that goes on got a byte. *)
Fixpoint read_at_loop (fuel : nat) (f : F) (len off total : Z) : bytes :=
  if len <=? total then []
  else
    match fuel with
    | O => []
    | S fuel =>
        match pread k f (len - total) (off + total) with
        | None | Some [] => []
        | Some got => got ++ read_at_loop fuel f len off (total + Z.of_nat (length got))
        end
    end.

Definition readAt (f : F) (len off : Z) : bytes := read_at_loop (Z.to_nat len) f len off 0.

(** The loop of [StorageReader::process]; the block it pushes for each iteration. *)
Fixpoint read_loop (fuel : nat) (f : F) (off remaining : Z) : list bytes :=
  match fuel with
  | O => []
  | S fuel =>
      if 0 <? remaining then
        let want := if remaining <? READ_BLOCK then remaining else READ_BLOCK in
        let got := readAt f want off in
        if (length got =? 0)%nat then []
        else got :: read_loop fuel f (off + Z.of_nat (length got)) (remaining - Z.of_nat (length got))
      else []
  end.

(** [StorageReader::process] on a resolved path: the blocks before the end mark.
    A file that does not open gives none. *)
Definition read_process (path : bytes) (offset length : Z) : list bytes :=
  match disk_open k (c_str path) with
  | None => []
  | Some f => read_loop (Z.to_nat length) f offset length
  end.

(** [submit] copies the path once more. *)
Definition submit (resolve : bytes -> bytes) (t : Task) : list bytes :=
  read_process (resolve (strncpy_path (pathname t))) (t_offset t) (t_length t).

End Reader.

(** ** What it reads *)

Class DiskLaws (K F : Type) {Ops : DiskOps K F} := {
  disk_file : K -> F -> bytes;
  pread_some k f len off : 0 < len -> 0 <= off ->
    exists n, (n <= Z.to_nat len)%nat /\
      pread k f len off = Some (take n (drop (Z.to_nat off) (disk_file k f))) /\
      ((Z.to_nat off < length (disk_file k f))%nat -> (0 < n)%nat);
}.

Section Laws.
Context {K F : Type} {Ops : DiskOps K F} {Laws : DiskLaws K F} (k : K).

Lemma read_at_loop_ok fuel f len off total :
  0 <= off -> 0 <= total <= len -> len - total <= Z.of_nat fuel ->
  read_at_loop k fuel f len off total =
  take (Z.to_nat (len - total)) (drop (Z.to_nat (off + total)) (disk_file k f)).
Proof.
  revert total. induction fuel as [|fuel IH]; intros total Hoff Ht Hf; cbn [read_at_loop];
    destruct (Z.leb_spec len total);
    try (replace (Z.to_nat (len - total)) with 0%nat by lia; by rewrite take_0).
  destruct (pread_some k f (len - total) (off + total) ltac:(lia) ltac:(lia)) as (n & Hn & -> & Hpos).
  set (rest := drop (Z.to_nat (off + total)) (disk_file k f)) in *.
  assert (Hrest : length rest = (length (disk_file k f) - Z.to_nat (off + total))%nat)
    by apply length_drop.
  destruct (take n rest) as [|b got] eqn:E.
  - apply (f_equal length) in E. rewrite length_take in E. cbn in E.
    assert (rest = []) as -> by (apply nil_length_inv; lia). by rewrite take_nil.
  - rewrite <- E. rewrite IH; [|done| |].
    + rewrite length_take. set (m := (n `min` length rest)%nat).
      assert (Hm : take n rest = take m rest).
      { unfold m. destruct (decide (n <= length rest)%nat).
        - by rewrite Nat.min_l.
        - by rewrite Nat.min_r, firstn_all, take_ge by lia. }
      assert (m <= length rest)%nat by lia.
      replace (drop (Z.to_nat (off + (total + Z.of_nat m))) (disk_file k f)) with (drop m rest).
      2: { unfold rest. rewrite drop_drop. f_equal. lia. }
      rewrite Hm, take_take_drop. f_equal. lia.
    + rewrite length_take. split; [lia|]. apply (f_equal length) in E. rewrite length_take in E. lia.
    + apply (f_equal length) in E. rewrite length_take in *. cbn in E. lia.
Qed.

Lemma readAt_ok f len off :
  0 <= off -> 0 <= len ->
  readAt k f len off = take (Z.to_nat len) (drop (Z.to_nat off) (disk_file k f)).
Proof.
  intros. unfold readAt. rewrite read_at_loop_ok by lia. by rewrite Z.sub_0_r, Z.add_0_r.
Qed.

(** The blocks are the range asked for, as far as the file reaches, in pieces of
    at most [READ_BLOCK] bytes. *)
Lemma read_loop_ok fuel f off remaining :
  0 <= off -> 0 <= remaining <= Z.of_nat fuel ->
  concat (read_loop k fuel f off remaining) =
    take (Z.to_nat remaining) (drop (Z.to_nat off) (disk_file k f)) /\
  Forall (fun b => 0 < Z.of_nat (length b) <= READ_BLOCK) (read_loop k fuel f off remaining).
Proof.
  revert off remaining. induction fuel as [|fuel IH]; intros off remaining Hoff Hr.
  { replace remaining with 0 by lia. cbn. by rewrite take_0. }
  cbn [read_loop]. destruct (Z.ltb_spec 0 remaining).
  2: { replace remaining with 0 by lia. cbn. by rewrite take_0. }
  set (want := if remaining <? READ_BLOCK then remaining else READ_BLOCK).
  assert (Hw : 0 < want <= remaining /\ want <= READ_BLOCK).
  { unfold want. destruct (Z.ltb_spec remaining READ_BLOCK); unfold READ_BLOCK in *; lia. }
  rewrite readAt_ok by lia. set (rest := drop (Z.to_nat off) (disk_file k f)).
  destruct (Nat.eqb_spec (length (take (Z.to_nat want) rest)) 0) as [E|E]; rewrite length_take in E.
  - assert (rest = []) as -> by (apply nil_length_inv; lia). cbn. by rewrite take_nil.
  - rewrite length_take.
    destruct (IH (off + Z.of_nat (Z.to_nat want `min` length rest))
                 (remaining - Z.of_nat (Z.to_nat want `min` length rest))) as [IH1 IH2]; [lia|lia|].
    cbn [concat]. rewrite IH1. split; [|constructor; [rewrite length_take; lia|exact IH2]].
    destruct (decide (length rest <= Z.to_nat want)%nat).
    + rewrite (take_ge rest (Z.to_nat want)), (take_ge rest (Z.to_nat remaining)) by lia.
      rewrite drop_ge; [by rewrite take_nil, app_nil_r|].
      unfold rest in *. rewrite length_drop in *. lia.
    + rewrite Nat.min_l by lia. rewrite Z2Nat.id by lia.
      replace (drop (Z.to_nat (off + want)) (disk_file k f)) with (drop (Z.to_nat want) rest).
      2: { unfold rest. rewrite drop_drop. f_equal. lia. }
      rewrite take_take_drop. f_equal. lia.
Qed.

End Laws.

(** A disk of plain contents, as a witness that the laws can hold. *)
#[global] Instance mem_disk : DiskOps (gmap bytes bytes) bytes := {
  disk_open k path := if bool_decide (is_Some (k !! path)) then Some path else None;
  pread k path len off := Some (take (Z.to_nat len) (drop (Z.to_nat off) (default [] (k !! path))));
}.

#[global] Instance mem_disk_laws : DiskLaws (gmap bytes bytes) bytes.
Proof.
  refine {| disk_file k path := default [] (k !! path) |}.
  intros k f len off Hlen Hoff. exists (Z.to_nat len). cbn. split; [done|]. split; [done|]. lia.
Defined.
