(* ===== verification/Snapshot.v ===== *)
(** * Snapshot: the shadow copy of the backup volume (src/client/storage.h, on Windows)

    [Storage::snapshot] asks the volume shadow service for a copy of the volume
    of the first root, [resolve] rewrites paths onto it, [teardown] gives it
    back. The system is the class [VssOps]; strings of wide characters are lists
    of numbers, and the conversions from and to UTF-8 are the system's. [VssLaws]
    counts what the process holds: initialisations of COM, and objects. *)

From S2P Require Import Prelude PosixPath.

Abbreviation wstring := (list Z).

Definition wbackslash : Z := 0x5c.

(** A call on the backup components; [true] is SUCCEEDED. *)
Inductive VssCall := InitializeForBackup | SetBackupState | StartSnapshotSet | AddToSnapshotSet (volume : wstring).

(** The two steps the service runs in the background. *)
Inductive VssStep := PrepareForBackup | DoSnapshotSet.

Class VssOps (W : Type) := {
  multi_byte_to_wide : bytes -> option wstring;      (** [None]: 0, an error *)
  wide_to_multi_byte : wstring -> option bytes;
  lower : Z -> Z;                                    (** the folding of [_wcsnicmp] *)
  volume_of : wstring -> W -> option wstring;        (** [GetVolumePathNameW] *)
  co_initialize : W -> W * bool;
  co_uninitialize : W -> W;
  create_backup : W -> W * option Z;                 (** [None]: failed, or a null pointer *)
  vss_call : VssCall -> Z -> W -> W * bool;
  vss_async : VssStep -> Z -> W -> W * option Z;
  async_wait : Z -> W -> W * bool;
  release : Z -> W -> W;
  snapshot_device : Z -> W -> W * option wstring;    (** the properties, read and freed *)
}.

Class VssLaws (W : Type) {Ops : VssOps W} := {
  com : W -> Z;                (** initialisations of COM not yet undone *)
  objects : W -> gset Z;       (** objects not yet released *)
  co_initialize_com w w' ok : co_initialize w = (w', ok) ->
    com w' = com w + (if ok then 1 else 0) /\ objects w' = objects w;
  co_uninitialize_com w : com (co_uninitialize w) = com w - 1 /\ objects (co_uninitialize w) = objects w;
  create_backup_objects w w' r : create_backup w = (w', r) -> com w' = com w /\
    match r with Some p => p ∉ objects w /\ objects w' = {[p]} ∪ objects w | None => objects w' = objects w end;
  vss_call_objects c p w : com (vss_call c p w).1 = com w /\ objects (vss_call c p w).1 = objects w;
  vss_async_objects step p w w' r : vss_async step p w = (w', r) -> com w' = com w /\
    match r with Some a => a ∉ objects w /\ objects w' = {[a]} ∪ objects w | None => objects w' = objects w end;
  async_wait_objects a w : com (async_wait a w).1 = com w /\ objects (async_wait a w).1 = objects w;
  release_objects p w : p ∈ objects w -> com (release p w) = com w /\ objects (release p w) = objects w ∖ {[p]};
  snapshot_device_objects p w : com (snapshot_device p w).1 = com w /\ objects (snapshot_device p w).1 = objects w;
}.

Record Storage := {
  backup : option Z;
  active : bool;
  volumeRoot : wstring;
  deviceObject : wstring;
}.

Definition new_storage : Storage := {| backup := None; active := false; volumeRoot := []; deviceObject := [] |}.

Section Operations.
Context {W : Type} {Ops : VssOps W}.

Definition toWide (s : bytes) : wstring := default [] (multi_byte_to_wide s).
Definition toUtf8 (w : wstring) : bytes := default [] (wide_to_multi_byte w).

Definition teardown (s : Storage) (w : W) : W * Storage :=
  let w := match backup s with Some b => release b w | None => w end in
  let w := if active s || negb (bool_decide (deviceObject s = [])) then co_uninitialize w else w in
  (w, {| backup := None; active := false; volumeRoot := volumeRoot s; deviceObject := deviceObject s |}).

(** A chain of calls that stops at the first failure. *)
Fixpoint vss_calls (cs : list VssCall) (b : Z) (w : W) : W * bool :=
  match cs with
  | [] => (w, true)
  | c :: cs => let '(w, ok) := vss_call c b w in if ok then vss_calls cs b w else (w, false)
  end.

(** A step of the service, waited for; skipped when something failed before. *)
Definition wait_step (step : VssStep) (b : Z) (ok : bool) (w : W) : W * bool :=
  if ok then
    match vss_async step b w with
    | (w, Some async) => let '(w, ok) := async_wait async w in (release async w, ok)
    | (w, None) => (w, false)
    end
  else (w, false).

Definition snapshot (s : Storage) (anyRootPath : bytes) (w : W) : W * Storage * bool :=
  match volume_of (toWide anyRootPath) w with
  | None => (w, s, false)
  | Some volume =>
      let s := {| backup := backup s; active := active s; volumeRoot := volume; deviceObject := deviceObject s |} in
      let '(w, ok) := co_initialize w in
      if negb ok then (w, s, false)
      else
        match create_backup w with
        | (w, None) =>
            (co_uninitialize w,
             {| backup := None; active := active s; volumeRoot := volume; deviceObject := deviceObject s |}, false)
        | (w, Some b) =>
            let s := {| backup := Some b; active := active s; volumeRoot := volume; deviceObject := deviceObject s |} in
            let '(w, ok) := vss_calls [InitializeForBackup; SetBackupState; StartSnapshotSet; AddToSnapshotSet volume] b w in
            let '(w, ok) := wait_step PrepareForBackup b ok w in
            let '(w, ok) := wait_step DoSnapshotSet b ok w in
            let '(w, device) := if ok then snapshot_device b w else (w, None) in
            match device with
            | Some device =>
                (w, {| backup := backup s; active := true; volumeRoot := volume; deviceObject := device |}, true)
            | None => let '(w, s) := teardown s w in (w, s, false)
            end
        end
  end.

(** [_wcsnicmp] of the volume's root with the head of the path. *)
Definition same_root (root p : wstring) : bool :=
  (length root <=? length p)%nat && bool_decide (map lower (take (length root) p) = map lower root).

Definition resolve (s : Storage) (p : bytes) : bytes :=
  if negb (active s) then p
  else
    let w := toWide p in
    if same_root (volumeRoot s) w
    then toUtf8 (deviceObject s ++ [wbackslash] ++ drop (length (volumeRoot s)) w)
    else p.
End Operations.

(** ** What the calls hold *)

Section Held.
Context {W : Type} {Ops : VssOps W} {Laws : VssLaws W}.
Implicit Types w : W.

Definition same_held w w' : Prop := com w' = com w /\ objects w' = objects w.

Lemma same_held_trans w1 w2 w3 : same_held w1 w2 -> same_held w2 w3 -> same_held w1 w3.
Proof. unfold same_held. intros [-> ->] [-> ->]. done. Qed.

Lemma vss_calls_held cs b : forall w, same_held w (vss_calls cs b w).1.
Proof.
  induction cs as [|c cs IH]; intros w; [done|]. cbn [vss_calls]. pose proof (vss_call_objects c b w) as H.
  destruct (vss_call c b w) as [w1 [|]]; [|done]. eapply same_held_trans; [done|apply IH].
Qed.

Lemma wait_step_held step b ok w : same_held w (wait_step step b ok w).1.
Proof.
  unfold wait_step. destruct ok; [|done]. destruct (vss_async step b w) as [w1 [a|]] eqn:E;
    destruct (vss_async_objects _ _ _ _ _ E) as [Hc Ho]; [|done]. destruct Ho as [Hn Ho].
  pose proof (async_wait_objects a w1) as [Hc2 Ho2]. destruct (async_wait a w1) as [w2 ok2]. cbn [fst] in *.
  destruct (release_objects a w2) as [Hc3 Ho3]; [rewrite Ho2, Ho; set_solver|].
  split; [congruence|]. rewrite Ho3, Ho2, Ho. set_solver.
Qed.

(** From the backup components on, a snapshot holds them and COM. *)
Lemma snapshot_held path w :
  let '(w', s, ok) := snapshot new_storage path w in
  (ok = true /\ active s = true /\
   exists b, backup s = Some b /\ b ∉ objects w /\ objects w' = {[b]} ∪ objects w /\ com w' = com w + 1) \/
  (ok = false /\ active s = false /\ backup s = None /\ deviceObject s = [] /\ objects w' = objects w /\
   (com w' = com w \/ com w' = com w + 1)).
Proof.
  unfold snapshot. destruct (volume_of _ _) as [volume|]; [|right; by auto 10].
  cbn [backup active deviceObject new_storage].
  destruct (co_initialize w) as [w1 ok] eqn:Ei. destruct (co_initialize_com _ _ _ Ei) as [Hc1 Ho1].
  destruct ok; cbn [negb]; [|right; split_and!; try done; left; lia].
  destruct (create_backup w1) as [w2 [b|]] eqn:Eb; destruct (create_backup_objects _ _ _ Eb) as [Hc2 Ho2].
  2: { right. destruct (co_uninitialize_com w2) as [Hc3 Ho3]. split_and!; try done; [congruence|left; lia]. }
  destruct Ho2 as [Hn Ho2]. cbn [backup active].
  match goal with |- context [vss_calls ?cs b w2] => pose proof (vss_calls_held cs b w2) as H3; destruct (vss_calls cs b w2) as [w3 ok3] end.
  pose proof (wait_step_held PrepareForBackup b ok3 w3) as H4. destruct (wait_step PrepareForBackup b ok3 w3) as [w4 ok4].
  pose proof (wait_step_held DoSnapshotSet b ok4 w4) as H5. destruct (wait_step DoSnapshotSet b ok4 w4) as [w5 ok5].
  assert (H6 : same_held w5 (if ok5 then snapshot_device b w5 else (w5, None)).1)
    by (destruct ok5; [apply snapshot_device_objects|done]).
  destruct (if ok5 then _ else _) as [w6 device]. cbn [fst] in *.
  destruct (same_held_trans _ _ _ H3 (same_held_trans _ _ _ H4 (same_held_trans _ _ _ H5 H6))) as [Hc Ho].
  destruct device as [device|].
  - left. split_and!; try done. exists b. split_and!; [done|by rewrite <- Ho1|rewrite Ho, Ho2; set_solver|lia].
  - right. unfold teardown. cbn [backup active deviceObject orb negb].
    destruct (release_objects b w6) as [Hc7 Ho7]; [set_solver|].
    split_and!; try done; cbn; [rewrite Ho7, Ho, Ho2; set_solver|right; lia].
Qed.
End Held.

(** ** A system to run it on *)

(** COM, objects, and which calls are still to fail. *)
Record MemVss := { mv_com : Z; mv_objects : gset Z; mv_refuse : list bool }.

Definition mv_next (w : MemVss) : MemVss :=
  {| mv_com := mv_com w; mv_objects := mv_objects w; mv_refuse := tail (mv_refuse w) |}.
Definition mv_ok (w : MemVss) : bool := negb (default false (head (mv_refuse w))).

Definition mv_object (w : MemVss) : MemVss * option Z :=
  if mv_ok w then
    let p := fresh (mv_objects w) in
    ({| mv_com := mv_com w; mv_objects := {[p]} ∪ mv_objects w; mv_refuse := tail (mv_refuse w) |}, Some p)
  else (mv_next w, None).

(** ASCII paths on drives; a device name for the copy. *)
#[global] Instance mem_vss_ops : VssOps MemVss := {
  multi_byte_to_wide s := Some (map b2z s);
  wide_to_multi_byte w := Some (map z2b w);
  lower c := if (0x41 <=? c) && (c <=? 0x5a) then c + 32 else c;
  volume_of p w := if mv_ok w then Some (take 3 p) else None;
  co_initialize w := ({| mv_com := mv_com w + (if mv_ok w then 1 else 0); mv_objects := mv_objects w;
                         mv_refuse := tail (mv_refuse w) |}, mv_ok w);
  co_uninitialize w := {| mv_com := mv_com w - 1; mv_objects := mv_objects w; mv_refuse := mv_refuse w |};
  create_backup := mv_object;
  vss_call _ _ w := (mv_next w, mv_ok w);
  vss_async _ _ w := mv_object w;
  async_wait _ w := (mv_next w, mv_ok w);
  release p w := {| mv_com := mv_com w; mv_objects := mv_objects w ∖ {[p]}; mv_refuse := mv_refuse w |};
  snapshot_device _ w := (mv_next w, if mv_ok w then Some (map b2z (str "\\?\Copy1")) else None);
}.

Lemma mv_object_ok w w' r : mv_object w = (w', r) -> mv_com w' = mv_com w /\
  match r with Some p => p ∉ mv_objects w /\ mv_objects w' = {[p]} ∪ mv_objects w | None => mv_objects w' = mv_objects w end.
Proof. unfold mv_object. destruct (mv_ok w); intros [= <- <-]; [|done]. split; [done|]. split; [apply is_fresh|done]. Qed.

#[global] Instance mem_vss_laws : VssLaws MemVss.
Proof.
  refine {| com := mv_com; objects := mv_objects |}; try done.
  - intros w w' ok [= <- <-]. by destruct (mv_ok w).
  - intros w w' r. apply mv_object_ok.
  - intros step p w w' r. apply mv_object_ok.
Defined.

Definition fresh_vss (refuse : list bool) : MemVss := {| mv_com := 0; mv_objects := ∅; mv_refuse := refuse |}.

Example shadow_path :
  let '(_, s, _) := snapshot new_storage (str "C:\data") (fresh_vss []) in
  resolve s (str "c:\data\a.txt") = str "\\?\Copy1\data\a.txt" /\ resolve s (str "D:\x") = str "D:\x".
Proof. vm_compute. split; reflexivity. Qed.

(** ** Properties *)

(** A snapshot fails soft and is given back. Taking one either succeeds or
    leaves every path as it is; the destructor then releases every object, and
    undoes the initialisation of COM if the snapshot is active. *)
Theorem snapshot_given_back {W : Type} {Ops : VssOps W} {Laws : VssLaws W} (root : bytes) (w : W) :
  let '(w', s, ok) := snapshot new_storage root w in
  ok = active s /\ (ok = false -> forall p, resolve s p = p) /\ objects (teardown s w').1 = objects w /\
  (ok = true -> com (teardown s w').1 = com w).
Proof.
  pose proof (snapshot_held root w) as H. destruct (snapshot new_storage root w) as [[w' s] ok].
  destruct H as [(-> & Ha & b & Hb & Hn & Ho & Hc)|(-> & Ha & Hb & Hd & Ho & _)].
  - split; [done|]. split; [done|]. unfold teardown. rewrite Hb, Ha. cbn [orb fst].
    destruct (release_objects b w') as [Hc2 Ho2]; [set_solver|]. destruct (co_uninitialize_com (release b w')) as [Hc3 Ho3].
    split; [rewrite Ho3, Ho2, Ho; set_solver|intros _; lia].
  - split; [done|]. split; [intros _ p; unfold resolve; by rewrite Ha|]. unfold teardown. rewrite Hb, Ha, Hd. done.
Qed.

(** A late failure leaves COM initialised: behind CreateVssBackupComponents,
    [teardown] is what undoes it, but it looks at [active] and the device name,
    which are only set by a success. *)
Theorem late_failure_keeps_com :
  exists refuse, let '(w', s, ok) := snapshot new_storage (str "C:\data") (fresh_vss refuse) in
    ok = false /\ mv_com (teardown s w').1 = 1.
Proof. exists [false; false; true]. vm_compute. split; reflexivity. Qed.
