(* ===== verification/ReadAhead.v ===== *)
(** * ReadAhead: the reader thread and the worker over the two rings ([client/storageReader.h])

    The reader fills one of four buffers, hands its index over in [ready] and
    gets it back in [spare]. The rings are FIFOs of [READ_RING] elements, which
    is what [Ring] proves of them; the operations of the two threads interleave
    in any order. What the worker sees are the blocks of [StorageReader].

    The worker may have to give up: the network can refuse any block
    ([worker_fails]), and [drainStorage] ([drain_next]) then empties the rings.

    [ready] has one producer and one consumer and is the FIFO that [Ring] proves
    it to be. [spare] has two producers, the worker and, after an empty read, the
    reader itself ([RSpare]); so its slots and indices are here, and a push is the
    accesses it consists of: it loads the tail, writes the slot, stores the tail.
    The pushes of the two threads can overlap, and then an index is lost
    ([buffer_lost]). The pop of [spare] is one step: its one consumer is the
    reader, which does not pop while or after it pushes. The disk semaphore is in
    [Ring], a closed ring only means the end. *)

From coqutil Require Import Datatypes.RecordSetters.
From S2P Require Import Prelude Protocol PosixPath StorageReader.
From S2P Require Ring.
Import TriangleBracketNotations.
Open Scope record_set.

Definition READ_AHEAD : nat := 4.
Definition READ_RING : nat := 8.

Record Filled := { f_idx : nat; f_len : nat; f_eof : bool }.

(** ** [spare] *)

(** The members of the ring that its push and pop go by. *)
Record SpareRing := mkSpare { sp_buf : list nat; sp_head : Z; sp_tail : Z }.

(** Where a push of an index stands, with the tail it has loaded. *)
Inductive Push := PLoad (idx : nat) | PSlot (idx : nat) (tl : Z) | PTail (idx : nat) (tl : Z).

(** [tl & Mask], for the eight slots. *)
Definition spare_slot (i : Z) : nat := Ring.slot 3 i.

(** The next access of a push, and what is left of it then; [None]: it waits. The
    first loads the tail and finds room (a pop in between would only make more). *)
Definition spare_push_next (sp : SpareRing) (p : Push) : option (SpareRing * option Push) :=
  match p with
  | PLoad idx =>
      if wrap 64 (sp_tail sp - sp_head sp) <? Z.of_nat READ_RING then Some (sp, Some (PSlot idx (sp_tail sp))) else None
  | PSlot idx tl => Some (mkSpare (<[spare_slot tl := idx]> (sp_buf sp)) (sp_head sp) (sp_tail sp), Some (PTail idx tl))
  | PTail idx tl => Some (mkSpare (sp_buf sp) (sp_head sp) (wrap 64 (tl + 1)), None)
  end.

Definition spare_pop_next (sp : SpareRing) : option (nat * SpareRing) :=
  if sp_head sp =? sp_tail sp then None
  else Some (nth (spare_slot (sp_head sp)) (sp_buf sp) 0%nat, mkSpare (sp_buf sp) (wrap 64 (sp_head sp + 1)) (sp_tail sp)).

(** What a consumer would find, oldest first. *)
Definition queued (sp : SpareRing) : list nat :=
  (fun i => nth (spare_slot (sp_head sp + Z.of_nat i)) (sp_buf sp) 0%nat) <$>
    seq 0 (Z.to_nat (wrap 64 (sp_tail sp - sp_head sp))).

(** As the constructor of [StorageReader] leaves it. *)
Definition full_spare : SpareRing :=
  {| sp_buf := seq 0 READ_AHEAD ++ repeat 0%nat (READ_RING - READ_AHEAD); sp_head := 0; sp_tail := Z.of_nat READ_AHEAD |}.

(** ** The two threads *)

(** Where [process] stands: at the loop's head, with a buffer to fill, with one
    to hand over or to give back, at the end mark. *)
Inductive ReaderPc :=
  | RPop (off remaining : Z)
  | RFill (idx : nat) (off remaining : Z)
  | RReady (idx len : nat) (off remaining : Z)
  | RSpare (p : Push)
  | RLast
  | RIdle.

(** And the loop of [Worker::upload]; behind a block that could not be sent, the
    one of [drainStorage]. *)
Inductive WorkerPc :=
  | WNext
  | WUse (idx len : nat)
  | WRecycle (p : Push)
  | WDone
  | WDrop (p : Push)       (** recycled, then drained on *)
  | WDrain
  | WGone.                 (** [upload] returned false *)

Record Pipe := mkPipe {
  spare : SpareRing;
  ready : list Filled;
  bufs : list bytes;
  reader : ReaderPc;
  worker : WorkerPc;
  delivered : list bytes;
}.

Section Pipe.
Context {K F : Type} {Ops : DiskOps K F} (k : K) (f : F).

(** The constructor of [StorageReader], then a request for a file that opened,
    or did not: the loop is skipped. *)
Definition start_pipe (init : list bytes) (opened : bool) (offset length : Z) : Pipe :=
  {| spare := full_spare; ready := []; bufs := init;
     reader := if opened then RPop offset length else RLast; worker := WNext; delivered := [] |}.

(** [None]: the thread waits, or is through. *)
Definition reader_next (s : Pipe) : option Pipe :=
  match reader s with
  | RPop off remaining =>
      if 0 <? remaining then
        match spare_pop_next (spare s) with
        | Some (idx, sp) => Some (s <| spare := sp |> <| reader := RFill idx off remaining |>)
        | None => None
        end
      else Some (s <| reader := RLast |>)
  | RFill idx off remaining =>
      let want := if remaining <? READ_BLOCK then remaining else READ_BLOCK in
      let got := readAt k f want off in
      if (length got =? 0)%nat then Some (s <| reader := RSpare (PLoad idx) |>)
      else
        let old := nth idx (bufs s) [] in
        Some (s <| bufs := <[idx := got ++ drop (length got) old]> (bufs s) |>
                <| reader := RReady idx (length got) off remaining |>)
  | RReady idx len off remaining =>
      if (length (ready s) <? READ_RING)%nat then
        Some (s <| ready := ready s ++ [{| f_idx := idx; f_len := len; f_eof := false |}] |>
                <| reader := RPop (off + Z.of_nat len) (remaining - Z.of_nat len) |>)
      else None
  | RSpare p =>
      match spare_push_next (spare s) p with
      | Some (sp, Some p) => Some (s <| spare := sp |> <| reader := RSpare p |>)
      | Some (sp, None) => Some (s <| spare := sp |> <| reader := RLast |>)
      | None => None
      end
  | RLast =>
      if (length (ready s) <? READ_RING)%nat then
        Some (s <| ready := ready s ++ [{| f_idx := 0; f_len := 0; f_eof := true |}] |> <| reader := RIdle |>)
      else None
  | RIdle => None
  end.

(** [recycle], and where the worker goes on from there. *)
Definition recycle_next (s : Pipe) (p : Push) (again : Push -> WorkerPc) (after : WorkerPc) : option Pipe :=
  match spare_push_next (spare s) p with
  | Some (sp, Some p) => Some (s <| spare := sp |> <| worker := again p |>)
  | Some (sp, None) => Some (s <| spare := sp |> <| worker := after |>)
  | None => None
  end.

(** [drainStorage]. *)
Definition drain_next (s : Pipe) : option Pipe :=
  match worker s with
  | WDrop p => recycle_next s p WDrop WDrain
  | WDrain =>
      match ready s with
      | fb :: rest =>
          if f_eof fb then Some (s <| ready := rest |> <| worker := WGone |>)
          else Some (s <| ready := rest |> <| worker := WDrop (PLoad (f_idx fb)) |>)
      | [] => None
      end
  | _ => None
  end.

Definition worker_next (s : Pipe) : option Pipe :=
  match worker s with
  | WNext =>
      match ready s with
      | fb :: rest =>
          if f_eof fb then Some (s <| ready := rest |> <| worker := WDone |>)
          else Some (s <| ready := rest |> <| worker := WUse (f_idx fb) (f_len fb) |>)
      | [] => None
      end
  | WUse idx len =>
      Some (s <| delivered := delivered s ++ [take len (nth idx (bufs s) [])] |> <| worker := WRecycle (PLoad idx) |>)
  | WRecycle p => recycle_next s p WRecycle WNext
  | WDone => None
  | WDrop _ | WDrain | WGone => drain_next s
  end.

(** The network does not take the block in hand. *)
Definition worker_fails (s : Pipe) : option Pipe :=
  match worker s with
  | WUse idx _ => Some (s <| worker := WDrop (PLoad idx) |>)
  | _ => None
  end.

Inductive pipe_step : Pipe -> Pipe -> Prop :=
  | reader_turn s s' : reader_next s = Some s' -> pipe_step s s'
  | worker_turn s s' : worker_next s = Some s' -> pipe_step s s'
  | network_fails s s' : worker_fails s = Some s' -> pipe_step s s'.

Definition upload_failed (pc : WorkerPc) : bool :=
  match pc with WDrop _ | WDrain | WGone => true | _ => false end.

(** The steps in a given order, for as long as they can be taken. *)
Inductive Turn := TReader | TWorker | TFail.
Definition turn_next (t : Turn) (s : Pipe) : option Pipe :=
  match t with TReader => reader_next s | TWorker => worker_next s | TFail => worker_fails s end.
Fixpoint pipe_run (turns : list Turn) (s : Pipe) : option Pipe :=
  match turns with [] => Some s | t :: turns => s ← turn_next t s; pipe_run turns s end.

Lemma pipe_run_steps turns : forall s s', pipe_run turns s = Some s' -> nsteps pipe_step (length turns) s s'.
Proof.
  induction turns as [|t turns IH]; intros s s'; cbn [pipe_run length]; [intros [= ->]; constructor|].
  destruct (turn_next t s) as [s1|] eqn:E; [|done]. cbn. intros H. apply nsteps_l with s1; [|by apply IH].
  destruct t; [by apply reader_turn|by apply worker_turn|by apply network_fails].
Qed.

(** ** What [spare] holds *)

(** The ring as a list: the indices written from the head on, of which the first
    [n] are in front of the tail. *)
Record window (sp : SpareRing) (L : list nat) (n : nat) : Prop := {
  wi_buf : length (sp_buf sp) = READ_RING;
  wi_small : (length L <= READ_AHEAD)%nat;
  wi_count : (n <= length L)%nat;
  wi_head : is_word 64 (sp_head sp);
  wi_tail : sp_tail sp = wrap 64 (sp_head sp + Z.of_nat n);
  wi_slots : forall i x, L !! i = Some x -> sp_buf sp !! spare_slot (sp_head sp + Z.of_nat i) = Some x;
}.

Definition put (L : list nat) (j idx : nat) : list nat := take j L ++ idx :: drop (S j) L.

Lemma put_lookup L j idx i :
  (j <= length L)%nat -> put L j idx !! i = if decide (i = j) then Some idx else L !! i.
Proof.
  intros Hj. unfold put. rewrite lookup_app. destruct (decide (i = j)) as [->|Hne].
  - rewrite lookup_take_ge by lia. cbn. rewrite length_take_le by lia. by rewrite Nat.sub_diag.
  - destruct (decide (i < j)%nat).
    + rewrite lookup_take_lt by lia. destruct (L !! i) eqn:E; [done|]. apply lookup_ge_None in E. lia.
    + rewrite lookup_take_ge by lia. rewrite length_take_le by lia.
      replace (i - j)%nat with (S (i - S j)) by lia. change (drop (S j) L !! (i - S j)%nat = L !! i). rewrite lookup_drop. f_equal. lia.
Qed.

Lemma put_end L idx : put L (length L) idx = L ++ [idx].
Proof. unfold put. rewrite firstn_all, drop_ge by lia. done. Qed.

Lemma put_length L j idx : (j <= length L)%nat -> (length L <= length (put L j idx) /\ j < length (put L j idx))%nat.
Proof. intros Hj. unfold put. rewrite length_app, length_take_le by lia. cbn. rewrite length_drop. lia. Qed.

Lemma put_submseteq L j idx : (j <= length L)%nat -> put L j idx ⊆+ idx :: L.
Proof.
  intros Hj. unfold put. rewrite <- Permutation_middle. apply submseteq_skip.
  destruct (decide (j < length L)%nat) as [Hlt|Hge].
  - destruct (lookup_lt_is_Some_2 L j Hlt) as [x Hx]. rewrite <- (take_drop_middle L j x Hx) at 3.
    apply submseteq_skips_l. by apply submseteq_cons.
  - rewrite firstn_all2, drop_ge, app_nil_r by lia. done.
Qed.

Lemma spare_slot_inj sp i j :
  (i < READ_RING)%nat -> (j < READ_RING)%nat ->
  spare_slot (sp_head sp + Z.of_nat i) = spare_slot (sp_head sp + Z.of_nat j) -> i = j.
Proof.
  unfold READ_RING. intros Hi Hj E. apply (Ring.slot_inj 3 ltac:(lia)) in E; [lia|]. change (Ring.Cap 3) with 8. lia.
Qed.

Lemma spare_slot_lt i : (spare_slot i < READ_RING)%nat.
Proof. pose proof (Ring.slot_lt 3 ltac:(lia) i). change (Ring.Cap 3) with 8 in *. unfold spare_slot, READ_RING. lia. Qed.

Lemma window_between sp L n : window sp L n -> wrap 64 (sp_tail sp - sp_head sp) = Z.of_nat n.
Proof.
  intros []. rewrite wi_tail0. rewrite <- (wrap_small 64 (sp_head sp)) at 2 by done.
  rewrite (Ring.wrap_sub_small 3 ltac:(lia)); [lia|]. change (Ring.Cap 3) with 8. unfold READ_AHEAD in *. lia.
Qed.

Lemma window_position sp L n i j :
  window sp L n -> (i <= j <= length L)%nat ->
  wrap 64 (sp_head sp + Z.of_nat i) = wrap 64 (sp_head sp + Z.of_nat j) -> i = j.
Proof.
  intros [] Hij E. apply Z.eqb_eq in E. unfold READ_AHEAD in *. rewrite Ring.wrap_eqb in E by lia.
  apply Z.eqb_eq in E. lia.
Qed.

Lemma window_store sp L n j idx :
  window sp L n -> (j <= length L)%nat -> (length (put L j idx) <= READ_AHEAD)%nat ->
  window (mkSpare (<[spare_slot (wrap 64 (sp_head sp + Z.of_nat j)) := idx]> (sp_buf sp)) (sp_head sp) (sp_tail sp))
    (put L j idx) n.
Proof.
  intros [] Hj Hl. destruct (put_length L j idx Hj). constructor; cbn; try done; [by rewrite length_insert|lia|].
  intros i x. rewrite put_lookup by done. unfold spare_slot at 1. rewrite (Ring.slot_wrap 3) by lia.
  fold (spare_slot (sp_head sp + Z.of_nat j)). destruct (decide (i = j)) as [->|Hne].
  - intros [= ->]. apply list_lookup_insert_eq. rewrite wi_buf0. apply spare_slot_lt.
  - intros Hi. rewrite list_lookup_insert_ne; [by apply wi_slots0|]. apply lookup_lt_Some in Hi.
    unfold READ_AHEAD in *. intros E. apply Hne. symmetry. apply (spare_slot_inj sp); [unfold READ_RING; lia..|done].
Qed.

Lemma window_tail sp L n j :
  window sp L n -> (j < length L)%nat ->
  window (mkSpare (sp_buf sp) (sp_head sp) (wrap 64 (wrap 64 (sp_head sp + Z.of_nat j) + 1))) L (S j).
Proof. intros [] Hj. constructor; cbn; try done. rewrite wrap_add_l. f_equal. lia. Qed.

Lemma window_pop sp x L n idx sp' :
  window sp (x :: L) (S n) -> spare_pop_next sp = Some (idx, sp') ->
  idx = x /\ window sp' L n /\
  (forall j, wrap 64 (sp_head sp' + Z.of_nat j) = wrap 64 (sp_head sp + Z.of_nat (S j))).
Proof.
  intros [] E. unfold spare_pop_next in E. destruct (_ =? _); [done|]. injection E as <- <-. cbn in *. split_and!.
  - apply nth_lookup_Some. rewrite <- (Z.add_0_r (sp_head sp)). by apply (wi_slots0 0%nat).
  - constructor; cbn; try done; [lia|lia|by apply wrap_range| |].
    + rewrite wi_tail0, wrap_add_l. f_equal. lia.
    + intros i y Hi. specialize (wi_slots0 (S i) y Hi). rewrite <- wi_slots0. f_equal. unfold spare_slot.
      rewrite <- (Ring.slot_wrap 3 ltac:(lia)), wrap_add_l, (Ring.slot_wrap 3) by lia. f_equal. lia.
  - intros j. rewrite wrap_add_l. f_equal. lia.
Qed.

Lemma window_pop_none sp L n : window sp L n -> spare_pop_next sp = None <-> n = 0%nat.
Proof.
  intros []. unfold spare_pop_next. rewrite wi_tail0. rewrite <- (wrap_small 64 (sp_head sp)) at 1 by done.
  rewrite Ring.wrap_eqb by (unfold READ_AHEAD in *; lia). destruct (Z.eqb_spec (sp_head sp) (sp_head sp + Z.of_nat n)); split; intros; first [done | lia].
Qed.

Lemma window_queued sp L n : window sp L n -> queued sp = take n L.
Proof.
  intros H. unfold queued. rewrite (window_between _ _ _ H), Nat2Z.id. destruct H. apply list_eq. intros i.
  destruct (decide (i < n)%nat).
  - rewrite lookup_take_lt by done. destruct (lookup_lt_is_Some_2 L i ltac:(lia)) as [x Hx]. rewrite Hx.
    rewrite list_lookup_fmap, lookup_seq_lt by done. cbn. f_equal. apply nth_lookup_Some. by apply wi_slots0.
  - rewrite lookup_take_ge by lia. apply lookup_ge_None. rewrite length_fmap, length_seq. lia.
Qed.

(** A push that is under way knows a tail inside the window, or right behind. *)
Definition pending (sp : SpareRing) (L : list nat) (p : option Push) : Prop :=
  match p with
  | Some (PSlot _ tl) => exists j, (j <= length L)%nat /\ tl = wrap 64 (sp_head sp + Z.of_nat j)
  | Some (PTail _ tl) => exists j, (j < length L)%nat /\ tl = wrap 64 (sp_head sp + Z.of_nat j)
  | _ => True
  end.

(** And the last one, as long as there is one producer. *)
Definition in_order (sp : SpareRing) (L : list nat) (n : nat) (p : option Push) : Prop :=
  match p with
  | Some (PSlot _ tl) => n = length L /\ tl = wrap 64 (sp_head sp + Z.of_nat n)
  | Some (PTail _ tl) => S n = length L /\ tl = wrap 64 (sp_head sp + Z.of_nat n)
  | _ => n = length L
  end.

(** The index of a push that has not written it yet. *)
Definition push_has (p : option Push) : list nat :=
  match p with Some (PLoad idx) | Some (PSlot idx _) => [idx] | _ => [] end.

(** The indices in the ring, those that are [out], and those of the two
    producers are all different; with one producer they are all of the four. *)
Definition spare_inv (one : Prop) (out : list nat) (wp rp : option Push) (sp : SpareRing) : Prop :=
  exists L n, window sp L n /\ pending sp L wp /\ pending sp L rp /\
    out ++ L ++ push_has wp ++ push_has rp ⊆+ seq 0 READ_AHEAD /\
    (one -> length (out ++ L ++ push_has wp) = READ_AHEAD /\ rp = None /\ in_order sp L n wp).

Lemma spare_inv_mono (one one' : Prop) out out' wp rp sp :
  (one' -> one) -> out ≡ₚ out' -> spare_inv one out wp rp sp -> spare_inv one' out' wp rp sp.
Proof.
  intros Himp Hp (L & n & H1 & H2 & H3 & H4 & H5). exists L, n. rewrite <- Hp. split_and!; [done..|].
  intros H. by apply H5, Himp.
Qed.

Lemma spare_inv_swap out wp rp sp : spare_inv False out wp rp sp -> spare_inv False out rp wp sp.
Proof.
  intros (L & n & H1 & H2 & H3 & H4 & _). exists L, n. split_and!; [done..| |done].
  by rewrite (Permutation_app_comm (push_has rp)).
Qed.

Lemma full_spare_inv (one : Prop) : spare_inv one [] None None full_spare.
Proof.
  exists (seq 0 READ_AHEAD), READ_AHEAD. split_and!; [|done..].
  constructor; try done. intros i x Hi. apply lookup_seq in Hi as [-> Hi]. unfold READ_AHEAD in Hi.
  do 4 (destruct i as [|i]; [by vm_compute|]). lia.
Qed.

Lemma spare_inv_pop (one : Prop) out wp sp idx sp' :
  one -> spare_inv one out wp None sp -> spare_pop_next sp = Some (idx, sp') -> spare_inv one (idx :: out) wp None sp'.
Proof.
  intros H1 (L & n & Hwin & _ & _ & Hsub & Hone) E. destruct (Hone H1) as (Hlen & _ & Hord).
  destruct n as [|n]; [by rewrite (proj2 (window_pop_none _ _ _ Hwin)) in E|].
  destruct L as [|x L]; [pose proof (wi_count _ _ _ Hwin) as Hc; cbn in Hc; lia|].
  destruct (window_pop _ _ _ _ _ _ Hwin E) as (-> & Hwin' & Hpos).
  assert (Hord' : in_order sp' L n wp).
  { destruct wp as [[i|i tl|i tl]|]; cbn in *; rewrite ?Hpos; naive_solver lia. }
  exists L, n. split_and!; [done| |done| |].
  - destruct wp as [[i|i tl|i tl]|]; try done; destruct Hord' as [? ->]; exists n; (split; [lia|done]).
  - etrans; [|exact Hsub]. cbn. apply Permutation_submseteq. solve_Permutation.
  - intros _. split_and!; [|done..]. rewrite <- Hlen, !length_app. cbn. lia.
Qed.

Lemma spare_inv_empty (one : Prop) out sp :
  one -> spare_inv one out None None sp -> spare_pop_next sp = None -> length out = READ_AHEAD.
Proof.
  intros H1 (L & n & Hwin & _ & _ & _ & Hone) E. destruct (Hone H1) as (<- & _ & Hn). cbn in Hn.
  apply (window_pop_none _ _ _ Hwin) in E. destruct L; [by rewrite app_nil_r|]. by subst n.
Qed.

(** An index that was out is to be pushed. *)
Lemma spare_inv_give (one : Prop) out rp sp idx :
  spare_inv one (idx :: out) None rp sp -> spare_inv one out (Some (PLoad idx)) rp sp.
Proof.
  intros (L & n & Hwin & _ & Hr & Hsub & Hone). exists L, n. split_and!; [done..| |].
  - etrans; [|exact Hsub]. cbn. apply Permutation_submseteq. solve_Permutation.
  - intros H. destruct (Hone H) as (Hl & ? & ?). split_and!; [|done..]. rewrite <- Hl. cbn. rewrite !length_app. cbn. lia.
Qed.

Lemma spare_inv_push (one : Prop) out p rp sp sp' q :
  spare_inv one out (Some p) rp sp -> spare_push_next sp p = Some (sp', q) -> spare_inv one out q rp sp'.
Proof.
  intros (L & n & Hwin & Hw & Hr & Hsub & Hone) E. destruct p as [idx|idx tl|idx tl]; cbn [spare_push_next] in E.
  - destruct (_ <? _); [|done]. injection E as <- <-. exists L, n. split_and!; [done| |done..|].
    + exists n. by split; [apply Hwin|apply Hwin].
    + intros H. destruct (Hone H) as (? & ? & Hn). cbn in Hn. split_and!; [done..|]. cbn. split; [done|apply Hwin].
  - injection E as <- <-. destruct Hw as (j & Hj & ->). destruct (put_length L j idx Hj) as [Hl1 Hl2].
    assert (Hsub' : out ++ put L j idx ++ push_has rp ⊆+ seq 0 READ_AHEAD).
    { rewrite <- Hsub. apply submseteq_skips_l. cbn. rewrite <- Permutation_middle, app_comm_cons.
      by apply submseteq_skips_r, put_submseteq. }
    exists (put L j idx), n. split_and!.
    + apply window_store; [done..|]. apply submseteq_length in Hsub'. rewrite !length_app, length_seq in Hsub'. lia.
    + by exists j.
    + destruct rp as [[i|i tl|i tl]|]; try done; destruct Hr as (j' & ? & ->); exists j'; (split; [lia|done]).
    + done.
    + intros H. destruct (Hone H) as (Hlen & -> & Hn & Htl).
      assert (j = n) as -> by (apply (window_position sp L n j n); [done|lia|done]). rewrite Hn, put_end. split_and!; [|done|].
      * rewrite <- Hlen, !length_app. cbn. lia.
      * cbn. rewrite length_app. cbn. split; [lia|by rewrite <- Hn].
  - injection E as <- <-. destruct Hw as (j & Hj & ->). exists L, (S j). split_and!; [by eapply window_tail|done..|].
    intros H. destruct (Hone H) as (Hlen & -> & Hn & Htl). split_and!; [done..|]. cbn.
    assert (j = n) as -> by (apply (window_position sp L n j n); [done|lia|done]). done.
Qed.

Lemma spare_inv_ready (one : Prop) out p rp sp : spare_inv one out (Some p) rp sp -> spare_push_next sp p <> None.
Proof.
  intros (L & n & Hwin & _). destruct p; [|done..]. cbn [spare_push_next]. rewrite (window_between _ _ _ Hwin).
  destruct Hwin. unfold READ_AHEAD in *. rewrite (proj2 (Z.ltb_lt _ _)); [done|]. change READ_RING with 8%nat. lia.
Qed.

Lemma spare_inv_queued (one : Prop) sp :
  spare_inv one [] None None sp -> queued sp ⊆+ seq 0 READ_AHEAD /\ (one -> queued sp ≡ₚ seq 0 READ_AHEAD).
Proof.
  intros (L & n & Hwin & _ & _ & Hsub & Hone). rewrite (window_queued _ _ _ Hwin). cbn in Hsub, Hone.
  rewrite !app_nil_r in *. split.
  - rewrite <- Hsub. apply submseteq_take.
  - intros H. destruct (Hone H) as (Hl & _ & ->). rewrite firstn_all. apply submseteq_length_Permutation; [done|].
    rewrite length_seq. lia.
Qed.

(** ** The blocks that are left *)

Lemma read_loop_fuel fuel off remaining :
  (Z.to_nat remaining <= fuel)%nat ->
  read_loop k fuel f off remaining = read_loop k (Z.to_nat remaining) f off remaining.
Proof.
  revert fuel off remaining. induction fuel as [fuel IH] using lt_wf_ind. intros off remaining Hf.
  destruct fuel as [|fuel]; [by replace (Z.to_nat remaining) with 0%nat by lia|].
  destruct (Z.ltb_spec 0 remaining) as [Hr|Hr].
  - destruct (Z.to_nat remaining) as [|n] eqn:En; [lia|]. cbn [read_loop].
    rewrite (proj2 (Z.ltb_lt 0 remaining)) by done. set (got := readAt _ _ _ _).
    destruct (Nat.eqb_spec (length got) 0); [done|]. f_equal.
    rewrite (IH fuel) by lia. rewrite (IH n) by lia. done.
  - cbn [read_loop]. rewrite (proj2 (Z.ltb_ge 0 remaining)) by done.
    by replace (Z.to_nat remaining) with 0%nat by lia.
Qed.

Definition rest (off remaining : Z) : list bytes := read_loop k (Z.to_nat remaining) f off remaining.

Definition block (off remaining : Z) : bytes :=
  readAt k f (if remaining <? READ_BLOCK then remaining else READ_BLOCK) off.

Lemma rest_unfold off remaining :
  rest off remaining =
  if 0 <? remaining then
    if (length (block off remaining) =? 0)%nat then []
    else block off remaining :: rest (off + Z.of_nat (length (block off remaining)))
                                  (remaining - Z.of_nat (length (block off remaining)))
  else [].
Proof.
  unfold rest, block. destruct (Z.ltb_spec 0 remaining) as [Hr|Hr].
  - destruct (Z.to_nat remaining) as [|n] eqn:En; [lia|]. cbn [read_loop].
    rewrite (proj2 (Z.ltb_lt 0 remaining)) by done. set (got := readAt _ _ _ _).
    destruct (Nat.eqb_spec (length got) 0); [done|]. f_equal. apply read_loop_fuel. lia.
  - by replace (Z.to_nat remaining) with 0%nat by lia.
Qed.

(** ** Invariant *)

(** The buffers that no push has, and the pushes under way. *)
Definition reader_has (s : Pipe) : list nat :=
  match reader s with RFill idx _ _ | RReady idx _ _ _ => [idx] | _ => [] end.
Definition worker_has (s : Pipe) : list nat :=
  match worker s with WUse idx _ => [idx] | _ => [] end.
Definition handed (s : Pipe) : list nat := f_idx <$> filter (fun fb => f_eof fb = false) (ready s).
Definition out (s : Pipe) : list nat := handed s ++ reader_has s ++ worker_has s.

Definition reader_push (s : Pipe) : option Push := match reader s with RSpare p => Some p | _ => None end.
Definition worker_push (s : Pipe) : option Push := match worker s with WRecycle p | WDrop p => Some p | _ => None end.

Definition reading (s : Pipe) : Prop := match reader s with RPop _ _ | RFill _ _ _ | RReady _ _ _ _ => True | _ => False end.

Definition content (s : Pipe) (idx len : nat) : bytes := take len (nth idx (bufs s) []).

(** The blocks on their way, oldest first. *)
Definition in_use (s : Pipe) : list bytes :=
  match worker s with WUse idx len => [content s idx len] | _ => [] end.
Definition on_the_way (s : Pipe) : list bytes :=
  (fun fb => content s (f_idx fb) (f_len fb)) <$> filter (fun fb => f_eof fb = false) (ready s).
Definition to_come (s : Pipe) : list bytes :=
  match reader s with
  | RPop off remaining => rest off remaining
  | RFill _ off remaining => rest off remaining
  | RReady idx len off remaining =>
      content s idx len :: rest (off + Z.of_nat len) (remaining - Z.of_nat len)
  | _ => []
  end.

(** The end mark comes last, once. *)
Definition marks (s : Pipe) : Prop :=
  match worker s, reader s with
  | (WDone | WGone), RIdle => ready s = []
  | (WDone | WGone), _ => False
  | _, RIdle => exists fbs fb, ready s = fbs ++ [fb] /\ f_eof fb = true /\ Forall (fun fb => f_eof fb = false) fbs
  | _, _ => Forall (fun fb => f_eof fb = false) (ready s)
  end.

(** The file has at least the bytes that are still asked for: then no read comes
    back empty. *)
Definition there (off remaining : Z) : Prop := remaining <= Z.of_nat (length (concat (rest off remaining))).
Definition never_short (s : Pipe) : Prop :=
  match reader s with
  | RPop off remaining | RFill _ off remaining => there off remaining
  | RReady _ len off remaining => there (off + Z.of_nat len) (remaining - Z.of_nat len)
  | RSpare _ => False
  | RLast | RIdle => True
  end.

(** [enough]: whether the file has all that was asked for. *)
Record pipe_inv (enough : Prop) (all : list bytes) (s : Pipe) : Prop := {
  pi_spare : spare_inv (reading s \/ enough) (out s) (worker_push s) (reader_push s) (spare s);
  pi_bufs : length (bufs s) = READ_AHEAD;
  pi_blocks : exists lost, delivered s ++ lost ++ in_use s ++ on_the_way s ++ to_come s = all /\
    (upload_failed (worker s) = false -> lost = []);
  pi_marks : marks s;
  pi_fill : match reader s with RFill _ _ remaining => 0 < remaining | _ => True end;
  pi_enough : enough -> never_short s;
}.

Lemma spare_inv_nodup (one : Prop) out_ wp rp sp :
  spare_inv one out_ wp rp sp -> NoDup out_ /\ Forall (fun i => (i < READ_AHEAD)%nat) out_.
Proof.
  intros (L & n & _ & _ & _ & Hsub & _).
  assert (Ho : out_ ⊆+ seq 0 READ_AHEAD) by (rewrite <- Hsub; by apply submseteq_inserts_r). split.
  - destruct (submseteq_Permutation _ _ Ho) as [others Hp]. pose proof (NoDup_seq 0 READ_AHEAD) as Hnd.
    rewrite Hp in Hnd. by apply NoDup_app in Hnd as [? _].
  - apply Forall_forall. intros i Hi. apply (elem_of_submseteq _ _ i Hi), elem_of_seq in Ho. lia.
Qed.

Lemma filled_other (bs : list bytes) idx b j len :
  idx <> j -> take len (nth j (<[idx := b]> bs) []) = take len (nth j bs []).
Proof. intros Hne. f_equal. by rewrite !nth_lookup, list_lookup_insert_ne. Qed.

Lemma filled_same (bs : list bytes) idx b :
  (idx < length bs)%nat -> nth idx (<[idx := b]> bs) [] = b.
Proof. intros Hl. by rewrite nth_lookup, list_lookup_insert_eq. Qed.

(** Filling a buffer nobody else has changes no block on its way. *)
Lemma fill_keeps s s1 idx b :
  NoDup (handed s ++ [idx] ++ worker_has s) ->
  ready s1 = ready s -> worker s1 = worker s -> bufs s1 = <[idx := b]> (bufs s) ->
  in_use s1 = in_use s /\ on_the_way s1 = on_the_way s.
Proof.
  intros Hnd Er Ew Eb. apply NoDup_app in Hnd as (_ & Hh & Hw). unfold in_use, on_the_way, content.
  rewrite Er, Ew, Eb. split.
  - unfold worker_has in Hw. destruct (worker s) as [|j len| | | | |]; try done.
    f_equal. apply filled_other. apply NoDup_cons in Hw as [Hw _]. intros ->. apply Hw. by left.
  - apply list_fmap_ext. intros i fb Hi. apply filled_other. intros ->. apply (Hh (f_idx fb)); [|by left].
    unfold handed. apply list_elem_of_fmap. exists fb. split; [done|]. by eapply list_elem_of_lookup_2.
Qed.

Lemma reader_next_inv enough all s s' : pipe_inv enough all s -> reader_next s = Some s' -> pipe_inv enough all s'.
Proof.
  intros [Hsp Hlen (lost & Hall & Hlost) Hmarks Hfill Henough] E. unfold reader_next in E.
  destruct s as [sp rdy bs rd wk dl]. cbn in E, Hlen, Hfill, Hlost.
  destruct rd as [off remaining|idx off remaining|idx len off remaining|p| |]; [..|done].
  - destruct (Z.ltb_spec 0 remaining) as [Hr|Hr].
    + cbn in E. destruct (spare_pop_next sp) as [[idx sp']|] eqn:Ep; [|done]. injection E as <-.
      constructor; try done; [|by exists lost].
      apply (spare_inv_pop _ _ _ _ _ _ (or_introl I) Hsp) in Ep.
      eapply spare_inv_mono; [..|exact Ep]; [done|]. unfold out, handed, reader_has, worker_has. cbn. solve_Permutation.
    + injection E as <-. constructor; try done; [|exists lost; split; [|done]].
      * eapply spare_inv_mono; [..|exact Hsp]; [by intros; left|done].
      * rewrite <- Hall. unfold to_come. cbn. by rewrite rest_unfold, (proj2 (Z.ltb_ge 0 remaining)).
  - fold (block off remaining) in E. unfold to_come in Hall. cbn -[in_use on_the_way] in Hall.
    assert (Hrest := rest_unfold off remaining). rewrite (proj2 (Z.ltb_lt 0 remaining)) in Hrest by done.
    destruct (spare_inv_nodup _ _ _ _ _ Hsp) as [Hnd Hlt].
    destruct (Nat.eqb_spec (length (block off remaining)) 0) as [Hz|Hz]; injection E as <-; rewrite Hrest in Hall.
    + assert (Hn : ~ enough) by (intros He; pose proof (Henough He) as Ht; unfold never_short, there in Ht; cbn in Ht;
        rewrite Hrest in Ht; cbn in Ht; lia).
      constructor; try done; [|by exists lost]. eapply (spare_inv_mono False); [by intros []|reflexivity|].
      apply spare_inv_swap, spare_inv_give, spare_inv_swap.
      eapply spare_inv_mono; [..|exact Hsp]; [done|]. unfold out, handed, reader_has, worker_has. cbn. solve_Permutation.
    + match goal with |- pipe_inv _ _ ?x => set (s1 := x) end.
      destruct (fill_keeps (mkPipe sp rdy bs (RFill idx off remaining) wk dl) s1 idx _ Hnd eq_refl eq_refl eq_refl) as [H1 H2].
      constructor; try done.
      * change (length (<[idx := block off remaining ++ drop (length (block off remaining)) (nth idx bs [])]> bs) = READ_AHEAD).
        by rewrite length_insert.
      * exists lost. split; [|done]. rewrite H1, H2, <- Hall. do 4 f_equal.
        set (b := block off remaining ++ drop (length (block off remaining)) (nth idx bs [])).
        change (to_come s1) with (take (length (block off remaining)) (nth idx (<[idx := b]> bs) []) ::
          rest (off + Z.of_nat (length (block off remaining))) (remaining - Z.of_nat (length (block off remaining)))).
        f_equal. rewrite filled_same; [by unfold b; rewrite take_app_length|]. rewrite Hlen.
        unfold out in Hlt. rewrite !Forall_app in Hlt. destruct Hlt as (_ & Hi & _). by apply Forall_cons in Hi as [? _].
      * intros He. pose proof (Henough He) as Ht. unfold never_short, there in *. cbn in *. rewrite Hrest in Ht.
        cbn in Ht. rewrite length_app in Ht. lia.
  - destruct (_ <=? _)%nat; [|done]. injection E as <-. constructor; try done.
    + eapply spare_inv_mono; [..|exact Hsp]; [done|]. unfold out, handed, reader_has, worker_has. cbn.
      rewrite filter_app, fmap_app. cbn. solve_Permutation.
    + exists lost. split; [|done]. rewrite <- Hall. unfold on_the_way, to_come. cbn. rewrite filter_app, fmap_app, <- !app_assoc. done.
    + unfold marks in *. cbn in *. destruct wk; try done; (apply Forall_app; split; [done|by constructor]).
  - assert (Hn : ~ enough) by (intros He; exact (Henough He)).
    destruct (spare_push_next sp p) as [[sp' q]|] eqn:Ep; [|by destruct q || done].
    assert (Hsp' : spare_inv False (out (mkPipe sp rdy bs (RSpare p) wk dl)) (worker_push (mkPipe sp rdy bs (RSpare p) wk dl)) q sp').
    { apply spare_inv_swap. eapply spare_inv_push; [|exact Ep]. apply spare_inv_swap.
      eapply spare_inv_mono; [..|exact Hsp]; done. }
    destruct q as [q|]; injection E as <-; (constructor; try done; [|by exists lost]);
      (eapply spare_inv_mono; [..|exact Hsp']; [by intros []|done]).
  - destruct (_ <=? _)%nat; [|done]. injection E as <-. constructor; try done.
    + eapply spare_inv_mono; [..|exact Hsp]; [done|]. unfold out, handed, reader_has, worker_has. cbn.
      rewrite filter_app, fmap_app. cbn. by rewrite app_nil_r.
    + exists lost. split; [|done]. rewrite <- Hall. unfold on_the_way, to_come. cbn. rewrite filter_app, fmap_app. cbn. by rewrite !app_nil_r.
    + unfold marks in *. cbn in *. destruct wk; try done; by eexists _, _.
Qed.

(** The worker takes the oldest element: the end mark, behind which nothing
    comes, or a block. *)
Lemma marks_pop rd wk wk' sp bs dl idx len eof rdy :
  marks (mkPipe sp ({| f_idx := idx; f_len := len; f_eof := eof |} :: rdy) bs rd wk dl) ->
  wk <> WDone -> wk <> WGone ->
  if eof then rd = RIdle /\ rdy = []
  else (wk' <> WDone -> wk' <> WGone -> marks (mkPipe sp rdy bs rd wk' dl)).
Proof.
  intros Hmarks H1 H2.
  assert (Hm : match rd with
    | RIdle => exists fbs fb, {| f_idx := idx; f_len := len; f_eof := eof |} :: rdy = fbs ++ [fb] /\ f_eof fb = true /\
        Forall (fun fb => f_eof fb = false) fbs
    | _ => Forall (fun fb => f_eof fb = false) ({| f_idx := idx; f_len := len; f_eof := eof |} :: rdy) end)
    by (unfold marks in Hmarks; cbn in Hmarks; by destruct wk, rd).
  destruct eof.
  - destruct rd; try (by apply Forall_cons in Hm as [? _]).
    destruct Hm as ([|fb0 fbs] & fb & Hr & _ & Hf); simplify_eq/=; [done|]. by apply Forall_cons in Hf as [? _].
  - intros H3 H4. assert (Hm' : match rd with
      | RIdle => exists fbs fb, rdy = fbs ++ [fb] /\ f_eof fb = true /\ Forall (fun fb => f_eof fb = false) fbs
      | _ => Forall (fun fb => f_eof fb = false) rdy end).
    { destruct rd; try (by apply Forall_cons in Hm as [_ ?]).
      destruct Hm as ([|fb0 fbs] & fb & Hr & He & Hf); simplify_eq/=. apply Forall_cons in Hf as [_ ?]. by exists fbs, fb. }
    unfold marks. cbn. by destruct wk', rd.
Qed.

Lemma recycle_inv enough all s s' p again after :
  (again = WRecycle /\ after = WNext \/ again = WDrop /\ after = WDrain) -> worker s = again p ->
  pipe_inv enough all s -> recycle_next s p again after = Some s' -> pipe_inv enough all s'.
Proof.
  intros Hwho Hw [Hsp Hlen (lost & Hall & Hlost) Hmarks Hfill Henough] E. unfold recycle_next in E.
  destruct s as [sp rdy bs rd wk dl]. cbn in Hw, E, Hlen, Hfill, Hlost. subst wk.
  destruct (spare_push_next sp p) as [[sp' q]|] eqn:Ep; [|done].
  destruct Hwho as [[-> ->]|[-> ->]]; pose proof (spare_inv_push _ _ _ _ _ _ _ Hsp Ep) as Hsp';
    destruct q as [q|]; injection E as <-; by (constructor; [..|exists lost| | |]).
Qed.

Lemma worker_next_inv enough all s s' : pipe_inv enough all s -> worker_next s = Some s' -> pipe_inv enough all s'.
Proof.
  intros H E. unfold worker_next, drain_next in E. destruct (worker s) as [|idx len|p| |p| |] eqn:Ew; try done.
  3: by eapply (recycle_inv _ _ s s' p WRecycle WNext); [left|..].
  3: by eapply (recycle_inv _ _ s s' p WDrop WDrain); [right|..].
  all: destruct H as [Hsp Hlen (lost & Hall & Hlost) Hmarks Hfill Henough];
    destruct s as [sp rdy bs rd wk dl]; cbn in Ew, E, Hlen, Hfill, Hlost; subst wk.
  - destruct rdy as [|[idx len eof] rdy]; [done|]. pose proof (marks_pop _ _ (WUse idx len) _ _ _ _ _ _ _ Hmarks) as Hm.
    cbn in E. destruct eof; injection E as <-.
    + destruct Hm as [-> ->]; [done..|]. constructor; try done. by exists lost.
    + constructor; try done; [|by exists lost|by apply Hm].
      eapply spare_inv_mono; [..|exact Hsp]; [done|]. unfold out, handed, reader_has, worker_has. cbn. solve_Permutation.
  - injection E as <-. rewrite Hlost in Hall by done. constructor; try done.
    + apply spare_inv_give. eapply spare_inv_mono; [..|exact Hsp]; [done|].
      unfold out, handed, reader_has, worker_has. cbn. solve_Permutation.
    + exists []. split; [|done]. rewrite <- Hall. unfold in_use, content. cbn. by rewrite <- !app_assoc.
  - destruct rdy as [|[idx len eof] rdy]; [done|].
    pose proof (marks_pop _ _ (WDrop (PLoad idx)) _ _ _ _ _ _ _ Hmarks) as Hm.
    cbn in E. destruct eof; injection E as <-.
    + destruct Hm as [-> ->]; [done..|]. constructor; try done. by exists lost.
    + constructor; try done; [| |by apply Hm].
      * apply spare_inv_give. eapply spare_inv_mono; [..|exact Hsp]; [done|].
        unfold out, handed, reader_has, worker_has. cbn. solve_Permutation.
      * exists (lost ++ [take len (nth idx bs [])]). split; [|done]. rewrite <- Hall. unfold on_the_way, in_use, content. cbn.
        by rewrite <- !app_assoc.
Qed.

Lemma worker_fails_inv enough all s s' : pipe_inv enough all s -> worker_fails s = Some s' -> pipe_inv enough all s'.
Proof.
  intros [Hsp Hlen (lost & Hall & Hlost) Hmarks Hfill Henough] E. unfold worker_fails in E.
  destruct s as [sp rdy bs rd wk dl]. cbn in E, Hlen, Hfill, Hlost. destruct wk as [|idx len| | | | |]; try done.
  injection E as <-. constructor; try done.
  - apply spare_inv_give. eapply spare_inv_mono; [..|exact Hsp]; [done|].
    unfold out, handed, reader_has, worker_has. cbn. solve_Permutation.
  - exists (lost ++ [take len (nth idx bs [])]). split; [|done].
    rewrite <- Hall. unfold in_use, content. cbn. by rewrite <- !app_assoc.
Qed.

(** ** Every run ends *)

Definition push_weight (p : Push) : nat := match p with PLoad _ => 3 | PSlot _ _ => 2 | PTail _ _ => 1 end.

Definition reader_weight (pc : ReaderPc) : nat :=
  match pc with
  | RPop off remaining => 8 * length (rest off remaining) + 7
  | RFill _ off remaining => 8 * length (rest off remaining) + 6
  | RReady _ len off remaining => 8 * length (rest (off + Z.of_nat len) (remaining - Z.of_nat len)) + 13
  | RSpare p => push_weight p + 2
  | RLast => 2
  | RIdle => 0
  end.

Definition worker_weight (pc : WorkerPc) : nat :=
  match pc with WUse _ _ => 4 | WRecycle p | WDrop p => push_weight p | _ => 0 end.
Definition filled_weight (fb : Filled) : nat := if f_eof fb then 1 else 5.

Definition weight (s : Pipe) : nat :=
  reader_weight (reader s) + sum_list_with filled_weight (ready s) + worker_weight (worker s).

Lemma push_lighter sp p sp' q :
  spare_push_next sp p = Some (sp', q) -> (match q with Some q => push_weight q | None => 0 end < push_weight p)%nat.
Proof. destruct p; cbn; [destruct (_ <? _); [|done]|..]; intros [= _ <-]; cbn; lia. Qed.

Lemma reader_lighter enough all s s' : pipe_inv enough all s -> reader_next s = Some s' -> (weight s' < weight s)%nat.
Proof.
  intros H E. pose proof (pi_fill _ _ _ H) as Hfill. clear H. unfold weight. destruct s as [sp rdy bs rd wk dl].
  unfold reader_next in E. cbn in E, Hfill.
  destruct rd as [off remaining|idx off remaining|idx len off remaining|p| |]; [..|done].
  - destruct (0 <? remaining); [|injection E as <-; unfold constant; cbn -[Nat.mul]; lia].
    destruct (spare_pop_next sp) as [[idx sp']|]; [|done]. injection E as <-. unfold constant. cbn -[Nat.mul]. lia.
  - fold (block off remaining) in E. cbn [reader ready worker reader_weight].
    rewrite (rest_unfold off), (proj2 (Z.ltb_lt 0 remaining)) by done.
    destruct (Nat.eqb_spec (length (block off remaining)) 0); injection E as <-; unfold constant; cbn -[Nat.mul]; lia.
  - destruct (_ <=? _)%nat; [|done]. injection E as <-. unfold constant. cbn -[Nat.mul]. rewrite sum_list_with_app. cbn -[Nat.mul]. lia.
  - destruct (spare_push_next sp p) as [[sp' q]|] eqn:Ep; [|done]. apply push_lighter in Ep.
    destruct q; injection E as <-; unfold constant; cbn; lia.
  - destruct (_ <=? _)%nat; [|done]. injection E as <-. unfold constant. cbn. rewrite sum_list_with_app. cbn. lia.
Qed.

Lemma recycle_lighter s s' p again after :
  (forall q, worker_weight (again q) = push_weight q) -> worker_weight after = 0%nat -> worker s = again p ->
  recycle_next s p again after = Some s' -> (weight s' < weight s)%nat.
Proof.
  intros Ha H0 Hw E. unfold weight. rewrite Hw, Ha. unfold recycle_next in E.
  destruct (spare_push_next (spare s) p) as [[sp' q]|] eqn:Ep; [|done]. apply push_lighter in Ep.
  destruct q; injection E as <-; destruct s; unfold constant; cbn -[reader_weight worker_weight] in *; rewrite ?Ha, ?H0; lia.
Qed.

Lemma worker_lighter s s' : worker_next s = Some s' -> (weight s' < weight s)%nat.
Proof.
  unfold worker_next, drain_next. destruct (worker s) as [|idx len|p| |p| |] eqn:Ew; intros E; try done.
  3: by apply (recycle_lighter s s' p WRecycle WNext).
  3: by apply (recycle_lighter s s' p WDrop WDrain).
  all: unfold weight; destruct s as [sp rdy bs rd wk dl]; cbn in Ew, E; subst wk.
  - destruct rdy as [|[idx len [|]] rdy]; [done|..]; injection E as <-; unfold constant; cbn -[reader_weight]; lia.
  - injection E as <-. unfold constant. cbn -[reader_weight]. lia.
  - destruct rdy as [|[idx len [|]] rdy]; [done|..]; injection E as <-; unfold constant; cbn -[reader_weight]; lia.
Qed.

Lemma step_weight enough all s s' : pipe_inv enough all s -> pipe_step s s' -> (weight s' < weight s)%nat.
Proof.
  intros H Hs. destruct Hs as [s s' E|s s' E|s s' E]; [by eapply reader_lighter|by apply worker_lighter|].
  unfold weight. unfold worker_fails in E. destruct s as [sp rdy bs rd wk dl]. cbn in E.
  destruct wk; try done. injection E as <-. unfold constant. cbn -[reader_weight]. lia.
Qed.

Lemma pipe_step_inv enough all s s' : pipe_inv enough all s -> pipe_step s s' -> pipe_inv enough all s'.
Proof. intros H Hs. destruct Hs; [by eapply reader_next_inv|by eapply worker_next_inv|by eapply worker_fails_inv]. Qed.

Lemma recycle_ready enough all s p again after :
  pipe_inv enough all s -> worker_push s = Some p -> recycle_next s p again after <> None.
Proof.
  intros H Ew. pose proof (pi_spare _ _ _ H) as Hsp. rewrite Ew in Hsp. apply spare_inv_ready in Hsp.
  unfold recycle_next. by destruct (spare_push_next (spare s) p) as [[sp' [q|]]|].
Qed.

(** What waits at [ready] never has more than four in front of it. *)
Lemma ready_room enough all s :
  pipe_inv enough all s -> reader s <> RIdle -> (length (ready s) <? READ_RING)%nat = true.
Proof.
  intros H Hr. destruct (spare_inv_nodup _ _ _ _ _ (pi_spare _ _ _ H)) as [Hnd Hlt]. apply Nat.ltb_lt.
  assert (Hf : filter (fun fb => f_eof fb = false) (ready s) = ready s).
  { pose proof (pi_marks _ _ _ H) as Hm. unfold marks in Hm. destruct (worker s), (reader s); try done; by apply filter_all. }
  assert (Ho : out s ⊆+ seq 0 READ_AHEAD).
  { apply NoDup_submseteq; [done|]. intros i Hi. rewrite Forall_forall in Hlt. apply elem_of_seq. specialize (Hlt i Hi). lia. }
  apply submseteq_length in Ho. unfold out, handed in Ho. rewrite Hf in Ho.
  rewrite length_app, length_fmap, length_seq in Ho. unfold READ_AHEAD, READ_RING in *. lia.
Qed.

Lemma pipe_progress enough all s :
  pipe_inv enough all s -> (forall s', ~ pipe_step s s') ->
  reader s = RIdle /\ worker s = (if upload_failed (worker s) then WGone else WDone) /\ ready s = [].
Proof.
  intros H Hstuck.
  assert (Hr : reader_next s = None).
  { destruct (reader_next s) as [s'|] eqn:E; [|done]. by destruct (Hstuck s' (reader_turn _ _ E)). }
  assert (Hw : worker_next s = None).
  { destruct (worker_next s) as [s'|] eqn:E; [|done]. by destruct (Hstuck s' (worker_turn _ _ E)). }
  clear Hstuck. pose proof (ready_room _ _ _ H) as Hroom. pose proof (pi_spare _ _ _ H) as Hsp.
  pose proof (pi_marks _ _ _ H) as Hm. unfold worker_next, drain_next in Hw. unfold reader_next in Hr. unfold marks in Hm.
  assert (Hidle : (worker s = WNext \/ worker s = WDrain) /\ ready s = [] \/ worker s = WDone \/ worker s = WGone).
  { destruct (worker s) as [|idx len|p| |p| |] eqn:Ew; [|done| |by auto| | |by auto].
    1, 4: left; destruct (ready s) as [|[? ? []] ?]; [by auto|done..].
    - by destruct (recycle_ready _ _ s p WRecycle WNext H); [unfold worker_push; rewrite Ew|].
    - by destruct (recycle_ready _ _ s p WDrop WDrain H); [unfold worker_push; rewrite Ew|]. }
  destruct (reader s) as [off remaining|idx off remaining|idx len off remaining|p| |] eqn:Er.
  - destruct (0 <? remaining); [|done]. destruct (spare_pop_next (spare s)) as [[? ?]|] eqn:Ep; [done|]. exfalso.
    destruct Hidle as [[Hi Hy]|[Hi|Hi]]; [|by rewrite Hi in Hm..].
    apply (spare_inv_empty (reading s \/ enough) (out s)) in Ep; [|by left; unfold reading; rewrite Er|].
    + unfold out, handed, reader_has, worker_has in Ep. rewrite Er, Hy in Ep. by destruct Hi as [Hi|Hi]; rewrite Hi in Ep.
    + unfold worker_push, reader_push in Hsp. rewrite Er in Hsp. by destruct Hi as [Hi|Hi]; rewrite Hi in Hsp.
  - cbn in Hr. by destruct (Nat.eqb _ _).
  - by rewrite Hroom in Hr.
  - unfold reader_push in Hsp. rewrite Er in Hsp. exfalso.
    apply (spare_inv_mono _ False _ (out s)) in Hsp; [|by intros []|done].
    apply spare_inv_swap, spare_inv_ready in Hsp. by destruct (spare_push_next (spare s) p) as [[? [?|]]|].
  - by rewrite Hroom in Hr.
  - split; [done|]. destruct Hidle as [[[Hi|Hi] Hy]|[Hi|Hi]]; rewrite Hi in Hm |- *; cbn; try done.
    all: destruct Hm as (fbs & fb & Hy' & _); rewrite Hy in Hy'; by destruct fbs.
Qed.

Lemma start_inv (enough : Prop) (init : list bytes) (opened : bool) offset length_ :
  length init = READ_AHEAD -> (enough -> opened = true -> there offset length_) ->
  pipe_inv enough (if opened then rest offset length_ else []) (start_pipe init opened offset length_).
Proof.
  intros Hl He. destruct opened; (constructor; [apply full_spare_inv|done|by exists []|by constructor|done|]); [|done].
  intros H. by apply He.
Qed.

(** C20: reading ahead is invisible. However the reader thread and the worker
    interleave, and wherever the network fails the worker, a buffer is never
    filled while its index is handed over or the worker uses it; the blocks the
    worker uses are those of the sequential reader, in order, from the first on;
    every run comes to an end within eight steps a block. Where it ends, nothing
    is left in [ready] for the next request to find, no buffer is in [spare]
    twice, and all the blocks have been delivered, unless the worker had to give
    up and has drained the rings. If the file had all the bytes that were asked
    for, or did not open, all four buffers are back in [spare]. (Where it had
    fewer, the reader itself pushes a buffer back, beside the worker, and one
    of theirs may be lost: [buffer_lost].) *)
Theorem read_ahead_delivers (init : list bytes) (opened : bool) (path : bytes) (offset length_ : Z) (n : nat) (s : Pipe) :
  length init = READ_AHEAD -> disk_open k (c_str path) = (if opened then Some f else None) ->
  nsteps pipe_step n (start_pipe init opened offset length_) s ->
  let all := read_process k path offset length_ in
  delivered s `prefix_of` all /\ (n <= 8 * length all + 7)%nat /\
  (forall idx off remaining, reader s = RFill idx off remaining ->
     (forall len, worker s <> WUse idx len) /\ idx ∉ handed s) /\
  ((forall s', ~ pipe_step s s') ->
     ready s = [] /\ queued (spare s) ⊆+ seq 0 READ_AHEAD /\
     ((opened = true -> length_ <= Z.of_nat (length (concat all))) -> queued (spare s) ≡ₚ seq 0 READ_AHEAD) /\
     (worker s = WDone /\ delivered s = all \/ worker s = WGone)).
Proof.
  intros Hl Hopen Hn all.
  assert (Eall : (if opened then rest offset length_ else []) = all)
    by (unfold all, read_process; rewrite Hopen; by destruct opened).
  set (enough := opened = true -> length_ <= Z.of_nat (length (concat all))).
  assert (Hinv : pipe_inv enough all s /\ (weight s + n <= weight (start_pipe init opened offset length_))%nat).
  { assert (He : enough -> opened = true -> there offset length_)
      by (unfold there, enough; rewrite <- Eall; intros Ht ->; by apply Ht).
    pose proof (start_inv enough init opened offset length_ Hl He) as H. rewrite Eall in H. clear Hopen Eall He.
    clearbody enough. clearbody all. revert H. induction Hn as [s|n s1 s2 s3 Hs _ IH]; intros H; [split; [done|lia]|].
    destruct (IH (pipe_step_inv _ _ _ _ H Hs)) as [H3 Hw]. split; [done|].
    pose proof (step_weight _ _ _ _ H Hs). lia. }
  destruct Hinv as [H Hw]. split_and!.
  - destruct (pi_blocks _ _ _ H) as (lost & <- & _). by eexists.
  - rewrite <- Eall. destruct opened; unfold weight at 2 in Hw; cbn -[Nat.mul] in Hw |- *; lia.
  - intros idx off remaining Er. destruct (spare_inv_nodup _ _ _ _ _ (pi_spare _ _ _ H)) as [Hnd _].
    unfold out, reader_has in Hnd. rewrite Er in Hnd. apply NoDup_app in Hnd as (_ & Hh & Hnd). split.
    + intros len Ew. unfold worker_has in Hnd. rewrite Ew in Hnd. cbn in Hnd.
      apply NoDup_cons in Hnd as [Hx _]. apply Hx. by left.
    + intros Hin. apply (Hh idx Hin). by left.
  - intros Hstuck. destruct (pipe_progress _ _ _ H Hstuck) as (Er & Ew & Ey).
    destruct (pi_blocks _ _ _ H) as (lost & Hb & Hlost). pose proof (pi_spare _ _ _ H) as Ho.
    unfold out, in_use, on_the_way, to_come, worker_push, reader_push, handed, reader_has, worker_has in *.
    rewrite Er, Ey in Hb, Ho. destruct (upload_failed (worker s)) eqn:Ef; rewrite Ew in Hb, Ho;
      cbn -[seq] in Hb, Ho; rewrite !app_nil_r in *; destruct (spare_inv_queued _ _ Ho) as [Hq1 Hq2];
      (split_and!; [done|done|by intros He; apply Hq2; right|]).
    + by right.
    + left. by rewrite Hlost, app_nil_r in Hb by done.
Qed.
End Pipe.

(** ** Concrete runs *)

Definition demo_files : gmap bytes bytes := {[str "f" := str "abc"]}.
Definition demo_bufs : list bytes := repeat (repeat x00 8) 4.

(** As long as there is a step, the reader's before the worker's or the other
    way round. *)
Fixpoint eager_run (reader_first : bool) (fuel : nat) (s : Pipe) : list Turn * Pipe :=
  match fuel with
  | O => ([], s)
  | S fuel =>
      let '(t1, t2) := if reader_first then (TReader, TWorker) else (TWorker, TReader) in
      let next := match turn_next demo_files (str "f") t1 s with
        | Some s => Some (t1, s) | None => pair t2 <$> turn_next demo_files (str "f") t2 s end in
      match next with
      | Some (t, s) => let '(ts, s) := eager_run reader_first fuel s in (t :: ts, s)
      | None => ([], s)
      end
  end.

(** Three bytes of three: everything is delivered and given back. *)
Definition demo_turns : list Turn := (eager_run false 20 (start_pipe demo_bufs true 0 3)).1.
Definition demo_end : Pipe := (eager_run false 20 (start_pipe demo_bufs true 0 3)).2.

Lemma demo_stuck s : ~ pipe_step demo_files (str "f") demo_end s.
Proof. intros H. inversion H as [s1 s2 E|s1 s2 E|s1 s2 E]; by vm_compute in E. Qed.

Lemma read_ahead_delivers_witness :
  let all := read_process demo_files (str "f") 0 3 in
  length demo_turns = 11%nat /\ delivered demo_end `prefix_of` all /\ (length demo_turns <= 8 * length all + 7)%nat /\
  ready demo_end = [] /\ queued (spare demo_end) ≡ₚ seq 0 READ_AHEAD /\
  (worker demo_end = WDone /\ delivered demo_end = all \/ worker demo_end = WGone).
Proof.
  intros all. split; [by vm_compute|].
  destruct (read_ahead_delivers demo_files (str "f") demo_bufs true (str "f") 0 3 (length demo_turns) demo_end)
    as (H1 & H2 & _ & H3); [reflexivity|by vm_compute|apply pipe_run_steps; by vm_compute|].
  destruct (H3 demo_stuck) as (H4 & _ & H5 & H6). split_and!; [exact H1|exact H2|exact H4| |exact H6].
  apply H5. intros _. by vm_compute.
Defined.

(** Three bytes of four: the second read is empty, and while the worker is about
    to store the tail behind buffer 0, the reader has loaded the old one and puts
    buffer 1 in the same place. *)
Definition short_turns : list Turn :=
  [TReader; TReader; TReader; TReader; TReader; TReader; TWorker; TWorker; TWorker; TWorker; TReader; TReader; TWorker;
   TReader; TWorker].

Example buffer_lost :
  match pipe_run demo_files (str "f") short_turns (start_pipe demo_bufs true 0 4) with
  | Some s => delivered s = [str "abc"] /\ queued (spare s) = [2; 3; 1]%nat /\ worker s = WDone /\ reader s = RIdle
  | None => False
  end.
Proof. vm_compute. repeat split. Qed.
