(* ===== verification/Worker.v ===== *)
(** * The client worker (src/client/worker.h)

    A worker owns one connection: it performs the handshake and turns tasks into
    the units of the upload protocol, asking the server first when it is in accept
    mode. The network thread's queue is the class [NetOps], the blocks the storage
    reader delivers for a task are the argument [submit_]. Log lines are left out. *)

From S2P Require Import Prelude Wire Protocol Hmac XXHash Handshake Codec StorageReader.

(** [NetworkChan]: [connect] makes a new connection, [enqueue] queues bytes,
    [await] queues bytes and waits until everything queued is sent, [recvExact]
    reads the reply stream. *)
Class NetOps (N : Type) := {
  net_connect : N -> N * bool;
  enqueue : N -> bytes -> N * bool;
  await : N -> bytes -> N * bool;
  recvExact : N -> nat -> N * option bytes;
}.

Record PendingUnit := { pu_key : Z; pu_task : Task; pu_accepted : bool }.

Inductive client_event :=
  | CUploadStarted (t : Task)
  | CUploadSkipped (t : Task)
  | CUploadFinished (t : Task) (compressedBytes : Z) (ok : bool).

(** The fields of [Conn] the handshake uses. *)
Record ConnInfo := { c_flags : Z; c_algo : CompressionAlgo; c_sessionId : bytes; c_key : bytes }.

Definition kProbeWindow : nat := 128.
Definition OUT_BUF_SIZE : Z := READ_BLOCK + READ_BLOCK / 16 + 1024.
Definition out_cap : nat := Z.to_nat OUT_BUF_SIZE.

Section Worker.
Context {N C : Type} {Net : NetOps N} {Comp : Compressor C}.
Variable submit_ : Task -> list bytes.
Variable blake3 : bytes -> bytes.

Record Worker := {
  w_integrity : bool;
  acceptMode : bool;
  hashFirst : bool;
  nextKey : Z;
  pending : list PendingUnit;
  compressor : C;
  network : N;
  w_events : list client_event;
}.

Definition set_net (w : Worker) (n : N) : Worker :=
  {| w_integrity := w_integrity w; acceptMode := acceptMode w; hashFirst := hashFirst w;
     nextKey := nextKey w; pending := pending w; compressor := compressor w; network := n;
     w_events := w_events w |}.

Definition set_comp (w : Worker) (c : C) : Worker :=
  {| w_integrity := w_integrity w; acceptMode := acceptMode w; hashFirst := hashFirst w;
     nextKey := nextKey w; pending := pending w; compressor := c; network := network w;
     w_events := w_events w |}.

Definition set_modes (w : Worker) (a h : bool) : Worker :=
  {| w_integrity := w_integrity w; acceptMode := a; hashFirst := h;
     nextKey := nextKey w; pending := pending w; compressor := compressor w; network := network w;
     w_events := w_events w |}.

Definition set_pending (w : Worker) (k : Z) (p : list PendingUnit) : Worker :=
  {| w_integrity := w_integrity w; acceptMode := acceptMode w; hashFirst := hashFirst w;
     nextKey := k; pending := p; compressor := compressor w; network := network w;
     w_events := w_events w |}.

Definition set_integrity (w : Worker) (b : bool) : Worker :=
  {| w_integrity := b; acceptMode := acceptMode w; hashFirst := hashFirst w;
     nextKey := nextKey w; pending := pending w; compressor := compressor w; network := network w;
     w_events := w_events w |}.

Definition w_emit (w : Worker) (e : client_event) : Worker :=
  {| w_integrity := w_integrity w; acceptMode := acceptMode w; hashFirst := hashFirst w;
     nextKey := nextKey w; pending := pending w; compressor := compressor w; network := network w;
     w_events := w_events w ++ [e] |}.

Definition w_enqueue (w : Worker) (data : bytes) : Worker * bool :=
  let '(n, ok) := enqueue (network w) data in (set_net w n, ok).

(** ** Connecting *)

Definition connect (w : Worker) : Worker * bool :=
  let '(n, ok) := net_connect (network w) in (set_net w n, ok).

(** The result is -1 for a lost connection and the server's status otherwise. *)
Definition shake (w : Worker) (conn : ConnInfo) (version : Z) : Worker * Z :=
  let hs := handshake version (c_flags conn) (c_algo conn) (c_sessionId conn) (c_key conn) in
  let '(n, sent) := await (network w) hs in
  if negb sent then (set_net w n, -1)
  else
    match recvExact n kHandshakeReplySize with
    | (n, None) => (set_net w n, -1)
    | (n, Some reply) =>
        let status := reply.[length kMagic] in
        if negb (status =? 0) then (set_net w n, status)
        else if 2 <=? version then
          match recvExact n kHandshakeModeSize with
          | (n, None) => (set_net w n, -1)
          | (n, Some mode) =>
              (set_modes (set_net w n) (has_mode mode.[0] ModeAccept) (has_mode mode.[0] HashFirst), 0)
          end
        else (set_modes (set_net w n) (has_mode 0 ModeAccept) (has_mode 0 HashFirst), 0)
    end.

Definition init (w : Worker) (conn : ConnInfo) : Worker * bool :=
  let w := set_integrity w (has_flag (c_flags conn) IntegrityChecks) in
  let '(w, ok) := connect w in
  if negb ok then (w, false)
  else
    let '(w, status) := shake w conn kProtocolVersion in
    let '(w, status) :=
      if status =? b2z (status_to_byte BadVersion) then
        let '(w, ok) := connect w in
        if negb ok then (w, -1) else shake w conn kMinProtocolVersion
      else (w, status) in
    (w, status =? 0).

(** ** Units *)

Definition sendBlock (w : Worker) (data : bytes) : Worker * bool :=
  let header := block_type_to_byte Data :: write_u32_le (Z.of_nat (length data)) in
  let '(w, ok) := w_enqueue w header in
  if negb ok then (w, false) else w_enqueue w data.

Definition unitHeader (t : Task) : bytes :=
  let header := [unit_type_to_byte (t_type t)] in
  let header := append_u16 header (Z.of_nat (length (pathname t))) in
  let header := header ++ pathname t in
  match t_type t with Chunk => append_u64 header (t_offset t) | _ => header end.

Definition acceptedHeader (key : Z) : bytes := append_u64 [unit_type_to_byte Accepted] key.

(** The storage loop of [upload]. A failed send drains the reader, so that the
    next unit starts at its own blocks. *)
Fixpoint upload_blocks (w : Worker) (blocks : list bytes) (checksum : XXH64_state)
    (compressedBytes : Z) : Worker * XXH64_state * Z * bool :=
  match blocks with
  | [] => (w, checksum, compressedBytes, true)
  | data :: blocks =>
      let checksum := if w_integrity w then XXH64_update checksum data else checksum in
      let '(c, produced) := comp_update (compressor w) data out_cap in
      let w := set_comp w c in
      match produced with
      | [] => upload_blocks w blocks checksum compressedBytes
      | _ =>
          let '(w, ok) := sendBlock w produced in
          if negb ok then (w, checksum, compressedBytes, false)
          else upload_blocks w blocks checksum (wrap 64 (compressedBytes + Z.of_nat (length produced)))
      end
  end.

(** What follows the last block: the flushed rest, the end mark, the checksum. *)
Definition upload_end (w : Worker) (checksum : XXH64_state) (compressedBytes : Z) : Worker * Z * bool :=
  let '(c, flushed) := comp_flush (compressor w) out_cap in
  let w := set_comp w c in
  let '(w, compressedBytes, ok) :=
    match flushed with
    | [] => (w, compressedBytes, true)
    | _ =>
        let '(w, ok) := sendBlock w flushed in
        (w, if ok then wrap 64 (compressedBytes + Z.of_nat (length flushed)) else compressedBytes, ok)
    end in
  if negb ok then (w, compressedBytes, false)
  else
    let '(w, ok) := w_enqueue w [block_type_to_byte EndOfUnit] in
    if negb ok then (w, compressedBytes, false)
    else if w_integrity w then
      let '(w, ok) := w_enqueue w (write_u64_le (XXH64_digest checksum)) in
      (w, compressedBytes, ok)
    else (w, compressedBytes, true).

Definition upload (w : Worker) (t : Task) (header : bytes) : Worker * Z * bool :=
  let '(w, ok) := w_enqueue w header in
  if negb ok then (w, 0, false)
  else
    let '(w, checksum, compressedBytes, ok) := upload_blocks w (submit_ t) (XXH64_reset 0) 0 in
    if negb ok then (w, compressedBytes, false) else upload_end w checksum compressedBytes.

Definition send (w : Worker) (t : Task) (header : bytes) : Worker * bool :=
  let w := w_emit w (CUploadStarted t) in
  let '(w, compressedBytes, ok) := upload w t header in
  (w_emit w (CUploadFinished t compressedBytes ok), ok).

(** ** Accept mode *)

Definition hashUnit (t : Task) : bytes := take kProbeHashSize (blake3 (concat (submit_ t))).

Definition probe_frame (w : Worker) (key : Z) (t : Task) : bytes :=
  let frame := [unit_type_to_byte Probe] in
  let frame := append_u64 frame key in
  let frame := frame ++ [unit_type_to_byte (t_type t)] in
  let frame := append_u16 frame (Z.of_nat (length (pathname t))) in
  let frame := frame ++ pathname t in
  let frame := append_u64 frame (t_offset t) in
  let frame := append_u64 frame (t_length t) in
  let frame := append_u64 frame (fileSize t) in
  let frame := append_u64 frame (wrap 64 (mtime t)) in
  if hashFirst w then frame ++ hashUnit t else frame.

Definition probe (w : Worker) (t : Task) : Worker * bool :=
  let key := nextKey w in
  let w := set_pending w (wrap 64 (key + 1))
             (pending w ++ [{| pu_key := key; pu_task := t; pu_accepted := false |}]) in
  w_enqueue w (probe_frame w key t).

(** The first loop of [resolve]: one reply per pending unit, in order. *)
Fixpoint read_replies (n : N) (units : list PendingUnit) : N * list PendingUnit * bool :=
  match units with
  | [] => (n, [], true)
  | u :: units =>
      match recvExact n kProbeReplySize with
      | (n, None) => (n, u :: units, false)
      | (n, Some reply) =>
          if negb (read_u64_le (drop 1 reply) =? pu_key u) then (n, u :: units, false)
          else
            let u := {| pu_key := pu_key u; pu_task := pu_task u;
                        pu_accepted := bool_decide (nth 0 reply x00 = decision_to_byte DecisionAccept) |} in
            let '(n, units, ok) := read_replies n units in
            (n, u :: units, ok)
      end
  end.

(** The second loop: accepted units are sent, the others reported. *)
Fixpoint send_accepted (w : Worker) (units : list PendingUnit) : Worker * bool :=
  match units with
  | [] => (w, true)
  | u :: units =>
      let '(w, ok) :=
        if pu_accepted u then send w (pu_task u) (acceptedHeader (pu_key u))
        else (w_emit w (CUploadSkipped (pu_task u)), true) in
      if negb ok then (w, false) else send_accepted w units
  end.

Definition resolve (w : Worker) : Worker * bool :=
  let '(n, drained) := await (network w) [] in
  let '(n, units, ok) := if drained then read_replies n (pending w) else (n, pending w, false) in
  let w := set_net w n in
  let '(w, ok) := if ok then send_accepted w units else (w, false) in
  (set_pending w (nextKey w) [], ok).

(** [queue_empty]: the worker has no channel or nothing is waiting in it. *)
Definition process (w : Worker) (queue_empty : bool) (t : Task) : Worker * bool :=
  if negb (acceptMode w) then send w t (unitHeader t)
  else
    let '(w, ok) := probe w t in
    if negb ok then (w, false)
    else if (kProbeWindow <=? length (pending w))%nat || queue_empty then resolve w
    else (w, true).

Definition finish (w : Worker) : Worker := (w_enqueue w [unit_type_to_byte End]).1.

End Worker.

Arguments Worker : clear implicits.
