(* ===== verification/EndToEnd.v ===== *)
(** * From a client task to a file of the session (src/client/worker.h against
      src/server/connection.cxx)

    Both ends of a connection are run against each other: what a worker puts on
    the wire for a unit, the consumer stores. The codec enters through the
    interface [StreamCodec], the file system through [FsLaws], and the network as
    one that does not fail ([NetUp]). *)

From S2P Require Import Prelude Wire Protocol XXHash Handshake ByteChannel PosixPath.
From S2P Require Import FileSink Codec Upload StorageReader Worker.

(** ** A network that does not fail *)

Class NetUp (N : Type) {Net : NetOps N} := {
  net_sent : N -> bytes;
  net_inbox : N -> bytes;
  enqueue_up n data : exists n', enqueue n data = (n', true) /\
    net_sent n' = net_sent n ++ data /\ net_inbox n' = net_inbox n;
  await_up n data : exists n', await n data = (n', true) /\
    net_sent n' = net_sent n ++ data /\ net_inbox n' = net_inbox n;
  recv_up n k : (k <= length (net_inbox n))%nat -> exists n',
    recvExact n k = (n', Some (take k (net_inbox n))) /\
    net_inbox n' = drop k (net_inbox n) /\ net_sent n' = net_sent n;
}.

(** ** The wire format of a unit *)

Definition block_frame (z : bytes) : bytes :=
  block_type_to_byte Data :: write_u32_le (Z.of_nat (length z)) ++ z.

Definition unit_body (integrity : bool) (zs : list bytes) (checksum : Z) : bytes :=
  concat (map block_frame zs) ++ block_type_to_byte EndOfUnit ::
  (if integrity then write_u64_le checksum else []).

(** The non-empty blocks [zs], fed in order, hand out [outs]. *)
Fixpoint feeds_all {D : Type} {Dec : Decompressor D} (d : D) (zs : list bytes) (d' : D) (outs : list bytes) : Prop :=
  match zs with
  | [] => d' = d /\ outs = []
  | z :: zs => exists d1 o1 o2, z <> [] /\ feeds d z d1 o1 /\ feeds_all d1 zs d' o2 /\ outs = o1 ++ o2
  end.

Lemma feeds_all_app {D} {Dec : Decompressor D} d zs1 d1 o1 zs2 d2 o2 :
  feeds_all d zs1 d1 o1 -> feeds_all d1 zs2 d2 o2 -> feeds_all d (zs1 ++ zs2) d2 (o1 ++ o2).
Proof.
  revert d o1. induction zs1 as [|z zs1 IH]; intros d o1; cbn [feeds_all app].
  - by intros [-> ->].
  - intros (d' & a & b & Hz & Hf & Hfs & ->) H2. exists d', a, (b ++ o2).
    split; [done|]. split; [done|]. split; [by apply IH|]. by rewrite app_assoc.
Qed.

(** One compressor output, empty or not, as the blocks it becomes. *)
Definition as_blocks (z : bytes) : list bytes := match z with [] => [] | _ => [z] end.

Lemma feeds_as_blocks {D} {Dec : Decompressor D} d z d' outs :
  feeds d z d' outs -> feeds_all d (as_blocks z) d' outs.
Proof.
  intros Hf. destruct z as [|b z].
  - unfold feeds in Hf. by rewrite bool_decide_eq_true_2 in Hf.
  - exists d', outs, []. by rewrite app_nil_r.
Qed.

Lemma write_pieces_app {T} (write : sink_write T) s a b s' :
  write_pieces write s (a ++ b) = (s', true) ->
  exists s1, write_pieces write s a = (s1, true) /\ write_pieces write s1 b = (s', true).
Proof.
  revert s. induction a as [|x a IH]; intros s; cbn [write_pieces app]; [eauto|].
  destruct (write s x) as [s1 ok]. destruct ok; [|done]. apply IH.
Qed.

(** ** The client's side *)

Section Client.
Context {N C D : Type} {Net : NetOps N} {Comp : Compressor C} {Dec : Decompressor D}.
Context {Up : NetUp N} {block : nat} {Codec : StreamCodec C D out_cap block}.
Implicit Types w : Worker N C.

(** Only the network and the compressor of a worker change. *)
Definition only_stream w w' : Prop :=
  w_integrity w' = w_integrity w /\ acceptMode w' = acceptMode w /\ hashFirst w' = hashFirst w /\
  nextKey w' = nextKey w /\ pending w' = pending w /\ w_events w' = w_events w /\
  net_inbox (network w') = net_inbox (network w).

Lemma only_stream_trans w1 w2 w3 : only_stream w1 w2 -> only_stream w2 w3 -> only_stream w1 w3.
Proof. unfold only_stream. intros (-> & -> & -> & -> & -> & -> & ->). done. Qed.

Lemma w_enqueue_up w data :
  exists w', w_enqueue w data = (w', true) /\ only_stream w w' /\ compressor w' = compressor w /\
    net_sent (network w') = net_sent (network w) ++ data.
Proof.
  unfold w_enqueue. destruct (enqueue_up (network w) data) as (n & -> & Hs & Hi).
  eexists. split; [done|]. repeat split; done.
Qed.

Lemma sendBlock_up w z :
  exists w', sendBlock w z = (w', true) /\ only_stream w w' /\ compressor w' = compressor w /\
    net_sent (network w') = net_sent (network w) ++ block_frame z.
Proof.
  unfold sendBlock. destruct (w_enqueue_up w (block_type_to_byte Data :: write_u32_le (Z.of_nat (length z))))
    as (w1 & -> & H1 & C1 & S1). cbn [negb].
  destruct (w_enqueue_up w1 z) as (w2 & -> & H2 & C2 & S2). exists w2.
  split; [done|]. split; [by eapply only_stream_trans|]. split; [by rewrite C2|].
  rewrite S2, S1, <- app_assoc. done.
Qed.

Lemma upload_blocks_up w blocks ck cb d q :
  mid (compressor w) d q -> Forall (fun b => (length b <= block)%nat) blocks ->
  exists w' cb' zs d' outs q',
    upload_blocks w blocks ck cb =
      (w', if w_integrity w then XXH64_update_all ck blocks else ck, cb', true) /\
    only_stream w w' /\ net_sent (network w') = net_sent (network w) ++ concat (map block_frame zs) /\
    Forall (fun z => (length z <= out_cap)%nat) zs /\
    feeds_all d zs d' outs /\ q ++ concat blocks = concat outs ++ q' /\ mid (compressor w') d' q'.
Proof.
  intros Hmid Hb. revert w ck cb d q Hmid. induction Hb as [|p blocks Hp _ IH]; intros w ck cb d q Hmid.
  { exists w, cb, [], d, [], q. cbn. rewrite !app_nil_r. by destruct (w_integrity w). }
  cbn [upload_blocks]. destruct (comp_update (compressor w) p out_cap) as [c z] eqn:Ez.
  destruct (update_feeds _ _ _ _ _ _ Hmid Hp Ez) as (Hz & d1 & o1 & q1 & Hf & Hq & Hmid1).
  set (ck1 := if w_integrity w then XXH64_update ck p else ck).
  assert (Hnext : exists w1 cb1, (match z with
    | [] => upload_blocks (set_comp w c) blocks ck1 cb
    | _ => let '(w0, ok) := sendBlock (set_comp w c) z in
           if negb ok then (w0, ck1, cb, false)
           else upload_blocks w0 blocks ck1 (wrap 64 (cb + Z.of_nat (length z))) end) =
      upload_blocks w1 blocks ck1 cb1 /\ only_stream w w1 /\ compressor w1 = c /\
      net_sent (network w1) = net_sent (network w) ++ concat (map block_frame (as_blocks z))).
  { destruct z as [|b z].
    - exists (set_comp w c), cb. cbn. rewrite app_nil_r. done.
    - destruct (sendBlock_up (set_comp w c) (b :: z)) as (w1 & -> & H1 & C1 & S1). cbn [negb].
      eexists w1, _. split; [done|]. split; [exact H1|]. split; [exact C1|]. cbn [as_blocks map concat].
      rewrite app_nil_r. exact S1. }
  destruct Hnext as (w1 & cb1 & -> & H1 & C1 & S1). rewrite <- C1 in Hmid1.
  destruct (IH w1 ck1 cb1 d1 q1 Hmid1) as (w2 & cb2 & zs & d2 & outs & q2 & -> & H2 & S2 & Hzs & Hf2 & Hq2 & Hm2).
  exists w2, cb2, (as_blocks z ++ zs), d2, (o1 ++ outs), q2.
  split; [|split; [by eapply only_stream_trans|split; [|split; [|split; [|split; [|done]]]]]].
  - destruct H1 as (-> & _). unfold ck1. by destruct (w_integrity w).
  - rewrite S2, S1, map_app, concat_app, <- app_assoc. done.
  - apply Forall_app. split; [|done]. destruct z; [constructor|]. by constructor.
  - eapply feeds_all_app; [by apply feeds_as_blocks|done].
  - cbn [concat]. rewrite app_assoc, Hq, <- app_assoc, Hq2, concat_app, app_assoc. done.
Qed.

Lemma upload_end_up w ck cb d q :
  mid (compressor w) d q ->
  exists w' cb' zs d' outs,
    upload_end w ck cb = (w', cb', true) /\ only_stream w w' /\
    net_sent (network w') = net_sent (network w) ++ unit_body (w_integrity w) zs (XXH64_digest ck) /\
    Forall (fun z => (length z <= out_cap)%nat) zs /\
    feeds_all d zs d' outs /\ q = concat outs /\ sync (compressor w') d'.
Proof.
  intros Hmid. unfold upload_end. destruct (comp_flush (compressor w) out_cap) as [c z] eqn:Ez.
  destruct (flush_feeds _ _ _ _ _ Hmid Ez) as (Hz & d1 & o1 & Hf & Hq & Hsync).
  assert (Hnext : exists w1 cb1, (match z with
    | [] => (set_comp w c, cb, true)
    | _ => let '(w0, ok) := sendBlock (set_comp w c) z in
           (w0, if ok then wrap 64 (cb + Z.of_nat (length z)) else cb, ok) end) = (w1, cb1, true) /\
      only_stream w w1 /\ compressor w1 = c /\
      net_sent (network w1) = net_sent (network w) ++ concat (map block_frame (as_blocks z))).
  { destruct z as [|b z].
    - exists (set_comp w c), cb. cbn. rewrite app_nil_r. done.
    - destruct (sendBlock_up (set_comp w c) (b :: z)) as (w1 & -> & H1 & C1 & S1).
      eexists w1, _. split; [done|]. split; [exact H1|]. split; [exact C1|]. cbn [as_blocks map concat].
      rewrite app_nil_r. exact S1. }
  destruct Hnext as (w1 & cb1 & -> & H1 & C1 & S1). cbn [negb].
  destruct (w_enqueue_up w1 [block_type_to_byte EndOfUnit]) as (w2 & -> & H2 & C2 & S2). cbn [negb].
  assert (Hint : w_integrity w2 = w_integrity w) by (destruct H1 as (? & _), H2 as (? & _); congruence).
  assert (Hzs : Forall (fun z => (length z <= out_cap)%nat) (as_blocks z)).
  { destruct z; [constructor|]. by constructor. }
  rewrite Hint. destruct (w_integrity w) eqn:Ei.
  - destruct (w_enqueue_up w2 (write_u64_le (XXH64_digest ck))) as (w3 & -> & H3 & C3 & S3).
    exists w3, cb1, (as_blocks z), d1, o1. split; [done|].
    split; [eapply only_stream_trans; [done|]; by eapply only_stream_trans|].
    split; [rewrite S3, S2, S1; unfold unit_body; by rewrite <- !app_assoc|].
    split; [done|]. split; [by apply feeds_as_blocks|]. split; [done|]. by rewrite C3, C2, C1.
  - exists w2, cb1, (as_blocks z), d1, o1. split; [done|].
    split; [by eapply only_stream_trans|].
    split; [rewrite S2, S1; unfold unit_body; by rewrite <- !app_assoc|].
    split; [done|]. split; [by apply feeds_as_blocks|]. split; [done|]. by rewrite C2, C1.
Qed.

(** What [upload] puts on the wire, and what it decodes to. *)
Lemma upload_up submit_ w t header d :
  sync (compressor w) d -> Forall (fun b => (length b <= block)%nat) (submit_ t) ->
  exists w' cb zs d' outs,
    upload submit_ w t header = (w', cb, true) /\ only_stream w w' /\
    net_sent (network w') = net_sent (network w) ++ header ++
      unit_body (w_integrity w) zs
        (XXH64_digest (if w_integrity w then XXH64_update_all (XXH64_reset 0) (submit_ t) else XXH64_reset 0)) /\
    Forall (fun z => (length z <= out_cap)%nat) zs /\
    feeds_all d zs d' outs /\ concat outs = concat (submit_ t) /\ sync (compressor w') d'.
Proof.
  intros Hsync Hb. unfold upload.
  destruct (w_enqueue_up w header) as (w1 & -> & H1 & C1 & S1). cbn [negb].
  apply sync_mid in Hsync. rewrite <- C1 in Hsync.
  destruct (upload_blocks_up w1 (submit_ t) (XXH64_reset 0) 0 d [] Hsync Hb)
    as (w2 & cb2 & zs & d2 & outs & q2 & -> & H2 & S2 & Hzs & Hf & Hq & Hm). cbn [negb].
  set (ck := if w_integrity w1 then _ else _).
  destruct (upload_end_up w2 ck cb2 d2 q2 Hm) as (w3 & cb3 & zs3 & d3 & o3 & -> & H3 & S3 & Hzs3 & Hf3 & Hq3 & Hs3).
  assert (Hi1 : w_integrity w1 = w_integrity w) by apply H1.
  assert (Hi2 : w_integrity w2 = w_integrity w) by (destruct H2 as (-> & _); done).
  exists w3, cb3, (zs ++ zs3), d3, (outs ++ o3). split; [done|].
  split; [eapply only_stream_trans; [done|]; by eapply only_stream_trans|].
  split; [rewrite S3, S2, S1, Hi2; unfold ck; rewrite Hi1; unfold unit_body;
          rewrite map_app, concat_app, <- !app_assoc; done|].
  split; [by apply Forall_app|]. split; [by eapply feeds_all_app|]. split; [|done].
  rewrite concat_app, <- Hq3. by rewrite <- Hq.
Qed.

End Client.

(** ** The server's side *)

Section Server.
Context {W D : Type} {Ops : FsOps W} {Laws : FsLaws W} {Rel : FsReliable W} {Dec : Decompressor D}.
Variables (mode : Z) (checks : bool) (filter : ProbeInfo -> bool).
Implicit Types (s : Consumer W D) (u : UnitSink).

Lemma read_app s data rest :
  input s = data ++ rest -> read (length data) s = (set_input s rest, Some data).
Proof.
  intros H. unfold read, stream_read. rewrite H, length_app.
  destruct (Nat.leb_spec (length data) (length data + length rest)); [|lia].
  by rewrite take_app_length, drop_app_length.
Qed.

Lemma read_n n s data rest :
  input s = data ++ rest -> length data = n -> read n s = (set_input s rest, Some data).
Proof. intros H <-. by apply read_app. Qed.

Lemma read_cons s b rest : input s = b :: rest -> read 1 s = (set_input s rest, Some [b]).
Proof. intros H. by apply (read_app s [b]). Qed.

(** The blocks of a unit go through the decompressor to the sink. *)
Lemma read_blocks_frames zs fuel s u wire rest d' outs w' u' :
  input s = concat (map block_frame zs) ++ block_type_to_byte EndOfUnit :: rest ->
  Forall (fun z => Z.of_nat (length z) <= kMaxBlockSize) zs ->
  feeds_all (decompressor_ s) zs d' outs ->
  write_pieces unit_sink_write (world s, u) outs = ((w', u'), true) ->
  (length zs < fuel)%nat ->
  exists wire', read_blocks fuel s u wire = (set_io (set_input s rest) w' (sink_ s) d', u', wire', None).
Proof.
  revert fuel s u wire outs. induction zs as [|z zs IH]; intros fuel s u wire outs Hin Hzs Hf Hw Hfuel;
    (destruct fuel as [|fuel]; [simpl in Hfuel; lia|]); cbn [read_blocks].
  - cbn [map concat app] in Hin. rewrite (read_cons _ _ _ Hin). cbn [nth]. rewrite block_type_of_to_byte.
    destruct Hf as [-> ->]. cbn in Hw. simplify_eq. by exists wire.
  - destruct Hf as (d1 & o1 & o2 & Hne & Hf1 & Hf2 & ->).
    apply Forall_cons_1 in Hzs as [Hz Hzs]. apply write_pieces_app in Hw as ([w1 u1] & Hw1 & Hw2).
    cbn [map concat block_frame] in Hin. cbn [app] in Hin. rewrite <- !app_assoc in Hin. rewrite (read_cons _ _ _ Hin).
    cbn [nth]. rewrite block_type_of_to_byte.
    assert (Hword : is_word 32 (Z.of_nat (length z))).
    { split; [lia|]. eapply Z.le_lt_trans; [exact Hz|]. reflexivity. }
    erewrite (read_n 4 _ (write_u32_le (Z.of_nat (length z)))); [|reflexivity|apply length_write_u32_le].
    rewrite read_write_u32' by done.
    assert (Z.of_nat (length z) <> 0) by (destruct z; [done|simpl; lia]).
    rewrite (proj2 (Z.eqb_neq _ _)), (proj2 (Z.ltb_ge _ _)) by done. cbn [orb].
    rewrite Nat2Z.id. erewrite (read_n (length z) _ z); [|reflexivity|done].
    cbn [decompressor_ set_input world sink_].
    unfold feeds in Hf1. rewrite bool_decide_eq_false_2 in Hf1 by done.
    specialize (Hf1 _ unit_sink_write (world s, u)). rewrite Hw1 in Hf1. rewrite Hf1. cbn [negb].
    match goal with |- context [read_blocks fuel ?s' ?u' ?wr] =>
      destruct (IH fuel s' u' wr o2) as [wire' Hw'] end; [done..|simpl in Hfuel; lia|].
    rewrite Hw'. by exists wire'.
Qed.

(** Fields of a unit sink that writing does not change. *)
Definition same_unit u u' : Prop :=
  is_chunk u' = is_chunk u /\ offset u' = offset u /\ base_offset u' = base_offset u /\
  integrity u' = integrity u /\ sw_fd (sequential u') = sw_fd (sequential u).

Definition checksum_after u (outs : list bytes) : XXH64_state :=
  if integrity u then XXH64_update_all (checksum_state u) outs else checksum_state u.

Lemma file_pieces w u outs p c :
  is_chunk u = false -> seq_at w (sequential u) p c ->
  exists w' u', write_pieces unit_sink_write (w, u) outs = ((w', u'), true) /\
    seq_at w' (sequential u') p (c ++ concat outs) /\ only_file w w' p /\ same_unit u u' /\
    checksum_state u' = checksum_after u outs.
Proof.
  revert w u c. induction outs as [|o outs IH]; intros w u c Hch Hat; cbn [write_pieces].
  { exists w, u. cbn [concat]. rewrite app_nil_r. split; [done|]. split; [done|].
    split; [apply only_file_refl|]. split; [done|]. unfold checksum_after. by destruct (integrity u). }
  unfold unit_sink_write at 1. rewrite Hch.
  destruct (sequential_write_total w (sequential u) o p c Hat) as (w1 & sq1 & E). rewrite E.
  destruct (sequential_write_ok _ _ _ _ _ _ _ E Hat) as (Hat1 & Hof1 & Hfd1).
  edestruct (IH w1) as (w2 & u2 & E2 & Hat2 & Hof2 & Hsame & Hck); [| |exists w2, u2; rewrite E2].
  { cbn [is_chunk]. done. }
  { cbn [sequential]. exact Hat1. }
  split; [done|]. cbn [concat]. rewrite app_assoc. split; [done|]. split; [by eapply only_file_trans|].
  split.
  - destruct Hsame as (H1 & H2 & H3 & H4 & H5). cbn in *. unfold same_unit. by rewrite Hch, <- Hfd1.
  - rewrite Hck. unfold checksum_after. cbn [integrity checksum_state]. by destruct (integrity u).
Qed.

Lemma chunk_pieces w u outs p c :
  is_chunk u = true -> offset_at w (offset u) p -> fs_file w p = Some c ->
  0 <= base_offset u -> 0 <= running u ->
  base_offset u + running u + Z.of_nat (length (concat outs)) < 2 ^ 63 ->
  exists w' u', write_pieces unit_sink_write (w, u) outs = ((w', u'), true) /\
    offset_at w' (offset u') p /\
    fs_file w' p = Some (pwrite c (Z.to_nat (base_offset u + running u)) (concat outs)) /\
    only_file w w' p /\ same_unit u u' /\ checksum_state u' = checksum_after u outs.
Proof.
  revert w u c. induction outs as [|o outs IH]; intros w u c Hch Hat Hc Hb Hr Hlen; cbn [write_pieces].
  { exists w, u. cbn [concat]. split; [done|]. split; [done|]. split; [done|].
    split; [apply only_file_refl|]. split; [done|]. unfold checksum_after. by destruct (integrity u). }
  cbn [concat] in *. rewrite length_app in Hlen.
  unfold unit_sink_write at 1. rewrite Hch.
  rewrite (wrap_small 64 (base_offset u + running u)) by (split; lia).
  destruct (write_at_total w (offset u) (base_offset u + running u) o p Hat ltac:(lia)) as (w1 & E). rewrite E.
  destruct (write_at_ok _ _ _ _ _ _ E Hat ltac:(lia)) as (Hat1 & Hof1 & Hc1).
  rewrite Hc in Hc1. cbn [default] in Hc1.
  rewrite (wrap_small 64 (running u + _)) by (split; lia).
  match goal with |- context [write_pieces unit_sink_write (w1, ?u1)] =>
    destruct (IH w1 u1 _ eq_refl Hat1 Hc1 Hb) as (w2 & u2 & E2 & Hat2 & Hc2 & Hof2 & Hsame & Hck);
      [cbn; lia|cbn; lia|exists w2, u2; rewrite E2] end.
  split; [done|]. cbn [offset base_offset running] in *. split; [done|].
  split; [|split; [by eapply only_file_trans|split]].
  - rewrite Hc2. f_equal. rewrite <- pwrite_pwrite. f_equal. lia.
  - destruct Hsame as (H1 & H2 & H3 & H4 & H5). cbn in *. unfold same_unit. by rewrite Hch.
  - rewrite Hck. unfold checksum_after. cbn [integrity checksum_state]. by destruct (integrity u).
Qed.

(** What a unit leaves in its file. *)
Definition stored (type : UnitType) (base : Z) (old : option bytes) (data : bytes) : bytes :=
  match type with File => data | _ => pwrite (default [] old) (Z.to_nat base) data end.

(** A unit fits when its offsets do not reach the sign bit. *)
Definition unit_fits (type : UnitType) (base : Z) (data : bytes) : Prop :=
  (type = File \/ type = Chunk) /\ 0 <= base /\ base + Z.of_nat (length data) < 2 ^ 63.

(** The server state after a unit was stored: everything a later unit needs. *)
Definition after_unit s s' (full : path) (type : UnitType) (base : Z) (data : bytes) (d' : D) : Prop :=
  fs_file (world s') (os_path full) =
    Some (stored type base (fs_file (world s) (os_path full)) data) /\
  (forall q, q <> os_path full -> fs_file (world s') q = fs_file (world s) q) /\
  sink_inv (world s') (sink_ s') /\ session_root_ (sink_ s') = session_root_ (sink_ s) /\
  decompressor_ s' = d' /\ accepted_ s' = accepted_ s /\ posted s' = posted s /\
  units_done_ s' = wrap 64 (units_done_ s + 1).

(** The checksum both ends compute. *)
Lemma checksum_agrees outs blocks :
  concat outs = concat blocks -> Z.of_nat (length (concat blocks)) < 2 ^ 64 ->
  XXH64_digest (XXH64_update_all (XXH64_reset 0) outs) =
  XXH64_digest (XXH64_update_all (XXH64_reset 0) blocks).
Proof.
  intros H Hl. assert (is_word 64 0) by (split; lia).
  rewrite (XXH64_streaming 0 outs), (XXH64_streaming 0 blocks) by (rewrite ?H; done). by rewrite H.
Qed.

Lemma check_unit_ok s u sum rest :
  input s = (if checks then write_u64_le sum else []) ++ rest ->
  is_word 64 sum -> (checks = true -> sum = XXH64_digest (checksum_state u)) ->
  check_unit checks s u = (set_input s rest, None).
Proof.
  intros Hin Hs Hsum. unfold check_unit. destruct checks.
  - erewrite (read_n 8); [|exact Hin|apply length_write_u64_le]. rewrite read_write_u64' by done.
    by rewrite Hsum, Z.eqb_refl.
  - cbn in Hin. rewrite <- Hin. by destruct s.
Qed.

Lemma length_frames zs : (length zs <= length (concat (map block_frame zs)))%nat.
Proof. induction zs as [|z zs IH]; [done|]. cbn [map concat]. rewrite length_app. simpl. lia. Qed.

(** A unit whose pieces the sink takes is received. *)
Lemma receive_common s type path base writers zs blocks d' outs rest w' u' :
  let u := new_unit_sink checks type writers.1 writers.2 base in
  input s = unit_body checks zs (XXH64_digest
    (if checks then XXH64_update_all (XXH64_reset 0) blocks else XXH64_reset 0)) ++ rest ->
  Forall (fun z => Z.of_nat (length z) <= kMaxBlockSize) zs ->
  feeds_all (decompressor_ s) zs d' outs -> concat outs = concat blocks ->
  Z.of_nat (length (concat blocks)) < 2 ^ 64 ->
  write_pieces unit_sink_write (world s, u) outs = ((w', u'), true) ->
  checksum_state u' = checksum_after u outs ->
  exists s', receive_unit checks type path base writers s = (s', Some tt) /\ input s' = rest /\
    world s' = match type with File => (sequential_close w' (sequential u')).1 | _ => w' end /\
    sink_ s' = sink_ s /\ decompressor_ s' = d' /\ accepted_ s' = accepted_ s /\
    posted s' = posted s /\ units_done_ s' = wrap 64 (units_done_ s + 1).
Proof.
  intros u Hin Hzs Hfeeds Hdata Hlen Hw Hck. unfold receive_unit. fold u.
  set (sum := XXH64_digest _) in Hin. unfold unit_body in Hin. rewrite <- app_assoc in Hin. cbn [app] in Hin.
  destruct (read_blocks_frames zs (S (length (input s))) s u 0 _ _ _ _ _ Hin Hzs Hfeeds Hw) as [wire ->].
  { rewrite Hin, length_app. pose proof (length_frames zs). lia. }
  rewrite (check_unit_ok _ u' sum rest); cycle 1.
  - done.
  - apply XXH64_digest_range.
  - intros Hc. rewrite Hck. unfold sum, checksum_after, u. cbn [new_unit_sink integrity checksum_state].
    rewrite Hc. symmetry. by apply checksum_agrees.
  - eexists. split; [reflexivity|]. by destruct type.
Qed.

(** The unit from the opening of its file to its checksum. *)
Lemma unit_received s type path base full zs blocks d' outs rest :
  sink_inv (world s) (sink_ s) -> resolve_safe_path (session_root_ (sink_ s)) path = Some full ->
  unit_fits type base (concat blocks) ->
  input s = unit_body checks zs (XXH64_digest
    (if checks then XXH64_update_all (XXH64_reset 0) blocks else XXH64_reset 0)) ++ rest ->
  Forall (fun z => Z.of_nat (length z) <= kMaxBlockSize) zs ->
  feeds_all (decompressor_ s) zs d' outs -> concat outs = concat blocks ->
  exists s1 writers s', open_unit type path s = (s1, Some writers) /\
    receive_unit checks type path base writers s1 = (s', Some tt) /\
    input s' = rest /\ after_unit s s' full type base (concat blocks) d'.
Proof.
  intros Hinv Hres ([-> | ->] & Hb & Hfit) Hin Hzs Hfeeds Hdata.
  - destruct (open_sequential_total (world s) (sink_ s) path full Hres) as (w1 & sq & E & Hv).
    destruct (open_sequential_ok _ _ _ _ _ E Hv) as (full' & Hres' & Hat & Hfresh & Hfds & Hfiles).
    rewrite Hres in Hres'. injection Hres' as <-.
    cbn [open_unit]. rewrite E, Hv. eexists _, _.
    destruct (file_pieces w1 (new_unit_sink checks File sq no_offset base) outs (os_path full) [] eq_refl Hat)
      as (w2 & u2 & Hw & Hat2 & Hof & Hsame & Hck).
    destruct (receive_common (set_io s w1 (sink_ s) (decompressor_ s)) File path base (sq, no_offset)
      zs blocks d' outs rest w2 u2 Hin Hzs Hfeeds Hdata ltac:(lia) Hw Hck)
      as (s' & Hrec & Hrest & Hworld & Hsink & Hd & Hacc & Hpost & Hun).
    exists s'. split; [done|]. split; [done|]. split; [done|].
    assert (Hclosed : (forall q, fs_file (world s') q = fs_file w2 q) /\
                      (forall fd, fd <> sw_fd sq -> fs_fd (world s') fd = fs_fd w2 fd)).
    { rewrite Hworld. unfold sequential_close. destruct Hsame as (_ & _ & _ & _ & Hfd). cbn in Hfd.
      destruct (0 <=? _); [|done]. destruct (fs_close _ _) as [w3 r] eqn:Ec. cbn [fst].
      destruct (close_frame _ _ _ _ Ec) as (_ & H1 & H2). rewrite Hfd in H1. done. }
    destruct Hclosed as [Hcf Hcd]. destruct Hat2 as (_ & Hc2 & _).
    split; [rewrite Hcf, Hc2, Hdata; done|].
    split; [intros q Hq; rewrite Hcf, (proj2 Hof), Hfiles by done; done|].
    split; [|rewrite Hsink, Hd, Hacc, Hpost, Hun; done].
    rewrite Hsink. intros key fd Hk. destruct (Hinv _ _ Hk) as (H1 & H2 & H3).
    assert (fd <> sw_fd sq) by congruence.
    rewrite Hcd, (proj1 Hof), Hfds by done. split; [done|]. split; [done|]. rewrite Hcf.
    destruct (decide (c_str key = os_path full)) as [->|Hne]; [by rewrite Hc2|].
    rewrite (proj2 Hof), Hfiles by done. done.
  - destruct (open_offset_total (world s) (sink_ s) path full Hres) as (w1 & k1 & ow & E & Hv).
    destruct (open_offset_ok _ _ _ _ _ _ E Hinv Hv) as (full' & Hres' & Hat & Hc & Hinv1 & Hroot & Hfiles & Hfds).
    rewrite Hres in Hres'. injection Hres' as <-.
    cbn [open_unit]. rewrite E, Hv. eexists _, _.
    destruct (chunk_pieces w1 (new_unit_sink checks Chunk no_sequential ow base) outs (os_path full) _
      eq_refl Hat Hc) as (w2 & u2 & Hw & Hat2 & Hc2 & Hof & Hsame & Hck).
    { cbn. lia. }
    { cbn. lia. }
    { cbn [base_offset running new_unit_sink]. rewrite Hdata. lia. }
    destruct (receive_common (set_io s w1 k1 (decompressor_ s)) Chunk path base (no_sequential, ow)
      zs blocks d' outs rest w2 u2 Hin Hzs Hfeeds Hdata ltac:(lia) Hw Hck)
      as (s' & Hrec & Hrest & Hworld & Hsink & Hd & Hacc & Hpost & Hun).
    exists s'. split; [done|]. split; [done|]. split; [done|].
    cbn [new_unit_sink base_offset running] in Hc2. rewrite Z.add_0_r in Hc2.
    split; [rewrite Hworld, Hc2, Hdata; done|].
    split; [intros q Hq; rewrite Hworld, (proj2 Hof), Hfiles by done; done|].
    rewrite Hsink, Hd, Hacc, Hpost, Hun, Hworld. cbn [sink_ set_io]. split; [|done].
    eapply sink_inv_only; [done|done|by rewrite Hc2].
Qed.

Lemma set_input_twice s a b : set_input (set_input s a) b = set_input s b.
Proof. done. Qed.

(** The offset a unit of a task is stored at. *)
Definition unit_base (t : Task) : Z := match t_type t with Chunk => t_offset t | _ => 0 end.

Definition good_task (t : Task) : Prop :=
  (t_type t = File \/ t_type t = Chunk) /\
  0 < Z.of_nat (length (pathname t)) <= kMaxPathLength /\ is_word 64 (t_offset t).

Lemma unitHeader_layout t :
  unitHeader t = unit_type_to_byte (t_type t) :: write_u16_le (Z.of_nat (length (pathname t))) ++
    pathname t ++ match t_type t with Chunk => write_u64_le (t_offset t) | _ => [] end.
Proof.
  unfold unitHeader, append_u16, append_u64. destruct (t_type t);
    rewrite ?app_nil_r, <- ?app_assoc; done.
Qed.

Lemma unit_header_plain t s rest :
  good_task t -> input s = drop 1 (unitHeader t) ++ rest ->
  unit_header false (Some (t_type t)) s =
    (set_input s rest, Some (t_type t, pathname t, unit_base t)).
Proof.
  intros (Hty & Hlen & Hoff) Hin. rewrite unitHeader_layout in Hin. cbn [skipn] in Hin.
  rewrite drop_0, <- !app_assoc in Hin.
  assert (Hword : is_word 16 (Z.of_nat (length (pathname t)))) by (unfold kMaxPathLength in Hlen; split; lia).
  unfold unit_header, bind, guard, mret, unit_base.
  assert (Hbad : bad_path_len (Z.of_nat (length (pathname t))) = false).
  { unfold bad_path_len. apply orb_false_iff. split; [apply Z.eqb_neq|apply Z.ltb_ge]; lia. }
  destruct Hty as [Hty|Hty]; rewrite Hty in *; cbn [negb];
    (erewrite (read_n 2); [|exact Hin|apply length_write_u16_le]);
    rewrite read_write_u16', Hbad, Nat2Z.id by done; cbn [negb];
    (erewrite (read_n (length (pathname t))); [|reflexivity|done]).
  - done.
  - erewrite (read_n 8); [|reflexivity|apply length_write_u64_le]. by rewrite read_write_u64' by done.
Qed.

(** One iteration of the server's loop on what the client sends for a task. *)
Lemma unit_step_plain t s full zs blocks d' outs rest :
  has_mode mode ModeAccept = false -> good_task t ->
  sink_inv (world s) (sink_ s) ->
  resolve_safe_path (session_root_ (sink_ s)) (pathname t) = Some full ->
  unit_fits (t_type t) (unit_base t) (concat blocks) ->
  input s = unitHeader t ++ unit_body checks zs (XXH64_digest
    (if checks then XXH64_update_all (XXH64_reset 0) blocks else XXH64_reset 0)) ++ rest ->
  Forall (fun z => Z.of_nat (length z) <= kMaxBlockSize) zs ->
  feeds_all (decompressor_ s) zs d' outs -> concat outs = concat blocks ->
  exists s', unit_step mode checks filter s = (s', Some tt) /\ input s' = rest /\
    after_unit s s' full (t_type t) (unit_base t) (concat blocks) d'.
Proof.
  intros Hmode Hgood Hinv Hres Hfit Hin Hzs Hfeeds Hdata.
  set (body := unit_body _ _ _ ++ rest) in Hin.
  assert (Hin0 : input s = unit_type_to_byte (t_type t) :: drop 1 (unitHeader t) ++ body).
  { rewrite Hin, unitHeader_layout. done. }
  set (s1 := emit (set_input s body) (UploadStarted (pathname t) (t_type t) (unit_base t))).
  destruct (unit_received s1 (t_type t) (pathname t) (unit_base t) full zs blocks d' outs rest)
    as (s2 & writers & s' & Hopen & Hrec & Hrest & Hafter); [done..|].
  exists s'. split; [|done]. subst s1.
  unfold unit_step. unfold bind at 1. rewrite (read_cons _ _ _ Hin0). cbn [nth].
  rewrite unit_type_of_to_byte, Hmode.
  pose proof (unit_header_plain t (set_input s (drop 1 (unitHeader t) ++ body)) body Hgood eq_refl) as Hh.
  destruct Hgood as ([Hty|Hty] & _); rewrite Hty in *; unfold bind; rewrite Hh;
    unfold modify; by rewrite set_input_twice, Hopen.
Qed.

End Server.

(** ** A whole session *)

(** The abstract specification of an upload: a function from paths to contents,
    updated task by task. *)
Definition spec_store (root : path) (submit_ : Task -> list bytes)
    (files : bytes -> option bytes) (t : Task) : bytes -> option bytes := fun q =>
  match resolve_safe_path root (pathname t) with
  | Some full =>
      if decide (q = os_path full)
      then Some (stored (t_type t) (unit_base t) (files q) (concat (submit_ t)))
      else files q
  | None => files q
  end.

(** A task whose path the server accepts and whose data fits. *)
Definition task_ok (root : path) (submit_ : Task -> list bytes) (block : nat) (t : Task) : Prop :=
  good_task t /\ is_Some (resolve_safe_path root (pathname t)) /\
  unit_fits (t_type t) (unit_base t) (concat (submit_ t)) /\
  Forall (fun b => (length b <= block)%nat) (submit_ t).

Lemma out_cap_fits (z : bytes) : (length z <= out_cap)%nat -> Z.of_nat (length z) <= kMaxBlockSize.
Proof.
  intros H. apply (Z.le_trans _ OUT_BUF_SIZE); [|by vm_compute].
  rewrite <- (Z2Nat.id OUT_BUF_SIZE) by (by vm_compute). by apply Nat2Z.inj_le.
Qed.

Lemma spec_store_ext root submit_ f g t :
  (forall q, f q = g q) -> forall q, spec_store root submit_ f t q = spec_store root submit_ g t q.
Proof. intros H q. unfold spec_store. destruct (resolve_safe_path _ _); [|done]. by rewrite H. Qed.

(** The worker's loop over its tasks in the plain mode. *)
Fixpoint process_all {N C} {Net : NetOps N} {Comp : Compressor C} (submit_ : Task -> list bytes)
    (blake3 : bytes -> bytes) (w : Worker N C) (ts : list Task) : Worker N C * bool :=
  match ts with
  | [] => (w, true)
  | t :: ts =>
      let '(w, ok) := process submit_ blake3 w true t in
      if negb ok then (w, false) else process_all submit_ blake3 w ts
  end.

Section Session.
Context {N C W D : Type} {Net : NetOps N} {Comp : Compressor C} {Dec : Decompressor D}.
Context {Ops : FsOps W} {Laws : FsLaws W} {Rel : FsReliable W}.
Context {Up : NetUp N} {block : nat} {Codec : StreamCodec C D out_cap block}.
Variables (mode : Z) (filter : ProbeInfo -> bool) (submit_ : Task -> list bytes) (blake3 : bytes -> bytes).

(** [n] iterations of the server's loop, none of which leaves it. *)
Inductive steps (checks : bool) : nat -> Consumer W D -> Consumer W D -> Prop :=
  | steps_zero s : steps checks 0 s s
  | steps_succ n s s1 s2 :
      unit_step mode checks filter s = (s1, Some tt) -> steps checks n s1 s2 -> steps checks (S n) s s2.

Lemma upload_loop_steps checks n fuel s s1 s2 :
  steps checks n s s1 -> unit_step mode checks filter s1 = (s2, None) -> (n < fuel)%nat ->
  upload_loop mode checks filter fuel s = s2.
Proof.
  intros Hs. revert fuel. induction Hs as [s|n s s1 s3 E _ IH]; intros fuel Hstop Hfuel;
    (destruct fuel as [|fuel]; [lia|]); cbn [upload_loop].
  - by rewrite Hstop.
  - rewrite E. apply IH; [done|lia].
Qed.

(** The bytes a worker sends for its tasks, and the decompressor they lead to. *)
Fixpoint session_wire (checks : bool) (d : D) (ts : list Task) (stream : bytes) (d' : D) : Prop :=
  match ts with
  | [] => stream = [] /\ d' = d
  | t :: ts => exists zs outs d1 stream1,
      stream = unitHeader t ++ unit_body checks zs (XXH64_digest
        (if checks then XXH64_update_all (XXH64_reset 0) (submit_ t) else XXH64_reset 0)) ++ stream1 /\
      Forall (fun z => Z.of_nat (length z) <= kMaxBlockSize) zs /\
      feeds_all d zs d1 outs /\ concat outs = concat (submit_ t) /\
      session_wire checks d1 ts stream1 d'
  end.

Lemma client_wire ts : forall (w : Worker N C) d,
  acceptMode w = false -> sync (compressor w) d ->
  Forall (fun t => Forall (fun b => (length b <= block)%nat) (submit_ t)) ts ->
  exists w' stream d', process_all submit_ blake3 w ts = (w', true) /\
    net_sent (network w') = net_sent (network w) ++ stream /\
    session_wire (w_integrity w) d ts stream d' /\ sync (compressor w') d'.
Proof.
  induction ts as [|t ts IH]; intros w d Hacc Hsync Hts.
  { exists w, [], d. cbn. by rewrite app_nil_r. }
  apply Forall_cons_1 in Hts as [Ht Hts]. cbn [process_all]. unfold process. rewrite Hacc. cbn [negb].
  unfold send.
  destruct (upload_up submit_ (w_emit w (CUploadStarted t)) t (unitHeader t) d Hsync Ht)
    as (w1 & cb & zs & d1 & outs & -> & Hst & Hsent & Hzs & Hfeeds & Hdata & Hsync1).
  cbn [negb]. destruct Hst as (Hi & Ha & _). cbn in Hi, Ha.
  destruct (IH (w_emit w1 (CUploadFinished t cb true)) d1) as (w2 & stream & d2 & -> & Hsent2 & Hwire & Hsync2);
    [cbn; congruence|done|done|].
  eexists w2, _, d2. split; [done|].
  split; [rewrite Hsent2; cbn [w_emit network] in *; by rewrite Hsent, <- app_assoc|].
  split; [|done]. exists zs, outs, d1, stream. cbn [w_emit w_integrity] in *.
  rewrite Hi in Hwire. split; [by rewrite <- !app_assoc|]. split; [|done].
  eapply Forall_impl; [exact Hzs|]. apply out_cap_fits.
Qed.

Lemma server_wire checks ts : forall (s : Consumer W D) files stream rest d',
  has_mode mode ModeAccept = false -> sink_inv (world s) (sink_ s) ->
  Forall (task_ok (session_root_ (sink_ s)) submit_ block) ts ->
  (forall q, fs_file (world s) q = files q) ->
  session_wire checks (decompressor_ s) ts stream d' -> input s = stream ++ rest ->
  exists s', steps checks (length ts) s s' /\ input s' = rest /\ (length ts <= length stream)%nat /\
    sink_inv (world s') (sink_ s') /\ session_root_ (sink_ s') = session_root_ (sink_ s) /\
    forall q, fs_file (world s') q = fold_left (spec_store (session_root_ (sink_ s)) submit_) ts files q.
Proof.
  induction ts as [|t ts IH]; intros s files stream rest d' Hmode Hinv Hts Hfiles Hwire Hin.
  { destruct Hwire as [-> _]. exists s. split; [constructor|done]. }
  apply Forall_cons_1 in Hts as [(Hgood & [full Hres] & Hfit & _) Hts].
  destruct Hwire as (zs & outs & d1 & stream1 & -> & Hzs & Hfeeds & Hdata & Hwire).
  rewrite <- !app_assoc in Hin.
  destruct (unit_step_plain mode checks filter t s full zs (submit_ t) d1 outs (stream1 ++ rest))
    as (s1 & Hstep & Hrest & Hafter); [done..|].
  destruct Hafter as (Hc & Hother & Hinv1 & Hroot & Hd1 & _).
  destruct (IH s1 (spec_store (session_root_ (sink_ s)) submit_ files t) stream1 rest d')
    as (s2 & Hsteps & Hrest2 & Hlen & Hinv2 & Hroot2 & Hfiles2); [done|done|by rewrite Hroot| |by rewrite Hd1|done|].
  { intros q. unfold spec_store. rewrite Hres. destruct (decide (q = os_path full)) as [->|Hne].
    - by rewrite Hc, Hfiles.
    - by rewrite Hother, Hfiles. }
  exists s2. split; [by econstructor|]. split; [done|].
  split; [|split; [done|split; [congruence|by rewrite Hroot in Hfiles2]]].
  rewrite !length_app. rewrite unitHeader_layout. simpl. lia.
Qed.

(** Client and server together. *)
Lemma session_stored (ts : list Task) (w : Worker N C) (s : Consumer W D) :
  acceptMode w = false -> has_mode mode ModeAccept = false ->
  sync (compressor w) (decompressor_ s) -> sink_inv (world s) (sink_ s) ->
  Forall (task_ok (session_root_ (sink_ s)) submit_ block) ts ->
  exists w' stream, process_all submit_ blake3 w ts = (w', true) /\
    net_sent (network (finish w')) = net_sent (network w) ++ stream /\
    forall rest, let s' := handle_upload mode (w_integrity w) filter (set_input s (stream ++ rest)) in
      input s' = rest /\ sink_inv (world s') (sink_ s') /\ session_root_ (sink_ s') = session_root_ (sink_ s) /\
      forall q, fs_file (world s') q =
        fold_left (spec_store (session_root_ (sink_ s)) submit_) ts (fun q => fs_file (world s) q) q.
Proof.
  intros Hacc Hmode Hsync Hinv Hts.
  destruct (client_wire ts w (decompressor_ s) Hacc Hsync) as (w1 & stream & d' & Hp & Hsent & Hwire & _).
  { eapply Forall_impl; [exact Hts|]. intros t (_ & _ & _ & ?). done. }
  exists w1, (stream ++ [unit_type_to_byte End]). split; [done|]. split.
  { unfold finish. destruct (w_enqueue_up w1 [unit_type_to_byte End]) as (w2 & -> & _ & _ & Hs2).
    cbn [fst]. by rewrite Hs2, Hsent, app_assoc. }
  intros rest. cbv zeta. rewrite <- app_assoc.
  set (s0 := set_input s _).
  destruct (server_wire (w_integrity w) ts s0 (fun q => fs_file (world s) q) stream _ d' Hmode Hinv Hts
    (fun _ => eq_refl) Hwire eq_refl) as (s1 & Hsteps & Hrest & Hlen & Hinv1 & Hroot1 & Hfiles).
  assert (Hstop : unit_step mode (w_integrity w) filter s1 = (set_input s1 rest, None)).
  { unfold unit_step, bind at 1. rewrite (read_cons _ _ _ Hrest). done. }
  unfold handle_upload. erewrite upload_loop_steps; [|exact Hsteps|exact Hstop|].
  - done.
  - unfold s0. cbn [input set_input]. rewrite length_app. lia.
Qed.

End Session.

(** ** A network of two byte strings *)

Record Pipe := { pipe_sent : bytes; pipe_inbox : bytes }.

#[global] Instance pipe_net : NetOps Pipe := {
  net_connect n := (n, true);
  enqueue n data := ({| pipe_sent := pipe_sent n ++ data; pipe_inbox := pipe_inbox n |}, true);
  await n data := ({| pipe_sent := pipe_sent n ++ data; pipe_inbox := pipe_inbox n |}, true);
  recvExact n k :=
    if (k <=? length (pipe_inbox n))%nat
    then ({| pipe_sent := pipe_sent n; pipe_inbox := drop k (pipe_inbox n) |}, Some (take k (pipe_inbox n)))
    else ({| pipe_sent := pipe_sent n; pipe_inbox := [] |}, None);
}.

#[global] Instance pipe_up : NetUp Pipe.
Proof.
  refine {| net_sent := pipe_sent; net_inbox := pipe_inbox |}.
  - intros n data. eexists. split; [reflexivity|done].
  - intros n data. eexists. split; [reflexivity|done].
  - intros n k Hk. cbn. destruct (Nat.leb_spec k (length (pipe_inbox n))); [|lia].
    eexists. split; [reflexivity|done].
Defined.

(** ** Properties *)

(** C2: an upload arrives. A worker in the plain mode sends a list of tasks and
    ends the upload; the server's [handle_upload], fed those bytes, consumes them
    all and leaves its file system exactly as the abstract specification does:
    each task's file holds the data read for it (at its offset, for a chunk), and
    no other file has changed. The codec is any [StreamCodec], the network does
    not fail and the file system does not refuse writes. *)
Theorem upload_session_stored {N C W D : Type} {Net : NetOps N} {Comp : Compressor C}
    {Dec : Decompressor D} {Ops : FsOps W} {Laws : FsLaws W} {Rel : FsReliable W} {Up : NetUp N}
    {block : nat} {Codec : StreamCodec C D out_cap block}
    (mode : Z) (filter : ProbeInfo -> bool) (submit_ : Task -> list bytes) (blake3 : bytes -> bytes)
    (ts : list Task) (w : Worker N C) (s : Consumer W D) :
  acceptMode w = false -> has_mode mode ModeAccept = false ->
  sync (compressor w) (decompressor_ s) -> sink_inv (world s) (sink_ s) ->
  Forall (task_ok (session_root_ (sink_ s)) submit_ block) ts ->
  exists w' stream, process_all submit_ blake3 w ts = (w', true) /\
    net_sent (network (finish w')) = net_sent (network w) ++ stream /\
    forall rest, let s' := handle_upload mode (w_integrity w) filter (set_input s (stream ++ rest)) in
      input s' = rest /\
      forall q, fs_file (world s') q =
        fold_left (spec_store (session_root_ (sink_ s)) submit_) ts (fun q => fs_file (world s) q) q.
Proof.
  intros Hacc Hmode Hsync Hinv Hts.
  destruct (session_stored mode filter submit_ blake3 ts w s Hacc Hmode Hsync Hinv Hts) as (w' & stream & Hp & Hs & Hst).
  exists w', stream. split; [done|]. split; [done|]. intros rest. by destruct (Hst rest) as (Hi & _ & _ & Hf).
Qed.

(** Two tasks, the second a chunk at offset 2, copied through a pipe. *)
Definition demo_tasks : list Task :=
  [WorkerTask File (str "docs/a.txt") 0 5 5 0; WorkerTask Chunk (str "big") 2 5 7 0].
Definition demo_submit (t : Task) : list bytes := [str "he"; str "llo"].
Definition demo_root : path := path_of_string (str "store/ab").

Definition demo_worker : Worker Pipe unit :=
  {| w_integrity := true; acceptMode := false; hashFirst := false; nextKey := 0; pending := [];
     compressor := tt; network := {| pipe_sent := []; pipe_inbox := [] |}; w_events := [] |}.

Definition demo_consumer : Consumer MemFs unit :=
  {| input := []; world := empty_fs; sink_ := new_file_sink demo_root; decompressor_ := tt;
     accepted_ := ∅; units_done_ := 0; bytes_total_ := 0; posted := []; emitted := [] |}.

Lemma demo_fits : (8 < out_cap)%nat /\ (8 <= kDecodeChunk)%nat.
Proof. split; [apply Nat.ltb_lt|apply Nat.leb_le]; vm_compute; reflexivity. Qed.

Definition demo_codec : StreamCodec unit unit out_cap 8 :=
  @zstd_codec unit unit Copy.encoder Copy.decoder out_cap 8
    (Copy.laws out_cap 8 (proj1 demo_fits) (proj2 demo_fits)).

Lemma demo_tasks_ok : Forall (task_ok demo_root demo_submit 8) demo_tasks.
Proof.
  assert (Hsub : forall t, Forall (fun b => (length b <= 8)%nat) (demo_submit t)).
  { intros t. repeat constructor; simpl; lia. }
  constructor; [|constructor; [|constructor]];
    (split; [|split; [|split; [|apply Hsub]]]).
  - split; [by left|]. split; [vm_compute; intuition congruence|vm_compute; intuition congruence].
  - eexists. vm_compute. reflexivity.
  - split; [by left|]. vm_compute. intuition congruence.
  - split; [by right|]. split; [vm_compute; intuition congruence|vm_compute; intuition congruence].
  - eexists. vm_compute. reflexivity.
  - split; [by right|]. vm_compute. intuition congruence.
Qed.

Lemma upload_session_stored_witness :
  exists w' stream,
    process_all (Comp := @zstd_compressor unit Copy.encoder) demo_submit (fun b => b) demo_worker demo_tasks
      = (w', true) /\
    net_sent (network (finish w')) = net_sent (network demo_worker) ++ stream /\
    forall rest,
      let s' := handle_upload (Dec := @zstd_decompressor unit Copy.decoder) 0 (w_integrity demo_worker) (fun _ => true)
                  (set_input demo_consumer (stream ++ rest)) in
      input s' = rest /\
      forall q, fs_file (world s') q =
        fold_left (spec_store (session_root_ (sink_ demo_consumer)) demo_submit) demo_tasks
          (fun q => fs_file (world demo_consumer) q) q.
Proof.
  apply (upload_session_stored (Codec := demo_codec) 0 (fun _ => true) demo_submit (fun b => b)
    demo_tasks demo_worker demo_consumer).
  - reflexivity.
  - reflexivity.
  - hnf. exists [], []. repeat split.
  - apply map_Forall_empty.
  - apply demo_tasks_ok.
Defined.
