(* ===== verification/AcceptMode.v ===== *)
(** * Accept mode: the client asks before it sends (src/client/worker.h against
      src/server/connection.cxx)

    A server with a filter makes its clients send a probe per unit, answers each
    with a decision, and takes the units it accepted under the keys of their
    probes. [EndToEnd] is about the plain mode; here a worker's [probe],
    [resolve] and [process] run against [handle_probe] and the accepted units of
    [handle_upload], whenever the worker decides to stop and read its answers. *)

From S2P Require Import Prelude Wire Protocol XXHash Handshake ByteChannel PosixPath.
From S2P Require Import FileSink Codec Upload StorageReader Worker EndToEnd.

(** The keys of consecutive probes. *)
Definition keys_from (base : Z) (n : nat) : list Z := map (fun i => wrap 64 (base + Z.of_nat i)) (seq 0 n).

Lemma keys_from_snoc base n : keys_from base (S n) = keys_from base n ++ [wrap 64 (base + Z.of_nat n)].
Proof. unfold keys_from. rewrite seq_S, map_app. done. Qed.

Lemma wrap_eq_near a b : wrap 64 a = wrap 64 b -> Z.abs (a - b) < 2 ^ 64 -> a = b.
Proof. unfold wrap. intros H Hd. zdm. Qed.

Lemma keys_from_fresh base n m : (n <= m)%nat -> Z.of_nat m < 2 ^ 64 -> wrap 64 (base + Z.of_nat m) ∉ keys_from base n.
Proof.
  intros Hn Hm (i & E & Hi)%list_elem_of_fmap. apply elem_of_seq in Hi.
  apply wrap_eq_near in E; lia.
Qed.

Lemma keys_from_nodup base n : Z.of_nat n < 2 ^ 64 -> NoDup (keys_from base n).
Proof.
  induction n as [|n IH]; intros Hn; [constructor|]. rewrite keys_from_snoc. apply NoDup_app.
  split; [apply IH; lia|]. split; [|apply NoDup_singleton]. intros x Hx Hx'%list_elem_of_singleton. subst x.
  apply (keys_from_fresh base n n) in Hx; [done|lia..].
Qed.

Lemma keys_from_word base n : Forall (is_word 64) (keys_from base n).
Proof. apply Forall_forall. intros x (i & -> & _)%list_elem_of_fmap. apply wrap_range. lia. Qed.

Section Accept.
Context {N C W D : Type} {Net : NetOps N} {Comp : Compressor C} {Dec : Decompressor D}.
Context {Ops : FsOps W} {Laws : FsLaws W} {Rel : FsReliable W}.
Context {Up : NetUp N} {block : nat} {Codec : StreamCodec C D out_cap block}.
Variables (mode : Z) (filter_ : ProbeInfo -> bool) (submit_ : Task -> list bytes) (blake3 : bytes -> bytes).
Implicit Types (w : Worker N C) (s : Consumer W D) (u : PendingUnit).

Hypothesis accept_mode : has_mode mode ModeAccept = true.
(** BLAKE3 has 32 bytes. *)
Hypothesis blake3_size : forall b, (kProbeHashSize <= length (blake3 b))%nat.

Abbreviation hash_first := (has_mode mode HashFirst).

(** What the server's filter is shown of a task, its verdict, and its answer. *)
Definition probe_of (t : Task) : ProbeInfo :=
  {| probe_path := pathname t; probe_type := t_type t; probe_offset := t_offset t; probe_length := t_length t;
     probe_file_size := fileSize t; probe_mtime := mtime t;
     probe_hash := if hash_first then hashUnit submit_ blake3 t else [] |}.

Definition accepts (t : Task) : bool := filter_ (probe_of t).

Definition reply_to (key : Z) (t : Task) : bytes :=
  decision_to_byte (if accepts t then DecisionAccept else DecisionReject) :: write_u64_le key.

Definition unit_of (t : Task) : AcceptedUnit :=
  {| au_type := t_type t; au_path := pathname t; au_offset := t_offset t |}.

(** The fields of a task that fit those of a probe. *)
Definition good_probe (t : Task) : Prop :=
  is_word 64 (t_length t) /\ is_word 64 (fileSize t) /\ - 2 ^ 63 <= mtime t < 2 ^ 63 /\
  (t_type t = File -> t_offset t = 0).

(** ** A probe *)

Lemma probe_frame_layout w key t : probe_frame submit_ blake3 w key t =
  unit_type_to_byte Probe ::
  (write_u64_le key ++ unit_type_to_byte (t_type t) :: write_u16_le (Z.of_nat (length (pathname t)))) ++
  pathname t ++
  (write_u64_le (t_offset t) ++ write_u64_le (t_length t) ++ write_u64_le (fileSize t) ++ write_u64_le (wrap 64 (mtime t))) ++
  (if hashFirst w then hashUnit submit_ blake3 t else []).
Proof.
  unfold probe_frame, append_u16, append_u64. destruct (hashFirst w); rewrite ?app_nil_r; by rewrite <- !app_assoc.
Qed.

Lemma to_int64_wrap z : - 2 ^ 63 <= z < 2 ^ 63 -> to_int64 (wrap 64 z) = z.
Proof. intros Hz. unfold to_int64, wrap. destruct (Z.ltb_spec (z mod 2 ^ 64) (2 ^ 63)); zdm. Qed.

Lemma read_sizes a b c d :
  is_word 64 a -> is_word 64 b -> is_word 64 c -> is_word 64 d ->
  let sizes := write_u64_le a ++ write_u64_le b ++ write_u64_le c ++ write_u64_le d in
  read_u64_le sizes = a /\ read_u64_le (drop 8 sizes) = b /\ read_u64_le (drop 16 sizes) = c /\
  read_u64_le (drop 24 sizes) = d.
Proof.
  intros Ha Hb Hc Hd sizes. unfold sizes. split; [by apply read_write_u64|].
  split; [rewrite drop_app_length' by done; by apply read_write_u64|].
  split; [rewrite app_assoc, drop_app_length' by done; by apply read_write_u64|].
  rewrite !app_assoc, drop_app_length' by done. by apply read_write_u64'.
Qed.

(** The server's state behind a probe. *)
Definition probed (checks : bool) s (key : Z) (t : Task) s' : Prop :=
  unit_step mode checks filter_ s = (s', Some tt) /\ world s' = world s /\ sink_ s' = sink_ s /\
  decompressor_ s' = decompressor_ s /\ posted s' = posted s ++ [reply_to key t] /\
  accepted_ s' = if accepts t then <[key := unit_of t]> (accepted_ s) else accepted_ s.

Lemma unit_step_probe checks s w key t rest :
  good_task t -> good_probe t -> is_word 64 key -> hashFirst w = hash_first ->
  input s = probe_frame submit_ blake3 w key t ++ rest -> exists s', probed checks s key t s' /\ input s' = rest.
Proof using accept_mode blake3_size.
  intros (Hty & Hlen & Hoff) (Hl & Hsz & Hm & _) Hkey Hh Hin.
  rewrite probe_frame_layout, Hh in Hin. cbn [app] in Hin. rewrite <- !(app_assoc (_ ++ _ :: _)) in Hin.
  set (head := write_u64_le key ++ unit_type_to_byte (t_type t) :: _) in Hin.
  set (sizes := write_u64_le (t_offset t) ++ _) in Hin.
  assert (Hword : is_word 16 (Z.of_nat (length (pathname t)))) by (unfold kMaxPathLength in Hlen; split; lia).
  assert (Hhead : read_u64_le head = key /\ nth 8 head x00 = unit_type_to_byte (t_type t) /\
    read_u16_le (drop 9 head) = Z.of_nat (length (pathname t))).
  { unfold head. split; [by apply read_write_u64|]. split; [done|].
    change (drop 9 _) with (write_u16_le (Z.of_nat (length (pathname t)))). by apply read_write_u16'. }
  destruct Hhead as (Hk & Ht & Hp).
  destruct (read_sizes (t_offset t) (t_length t) (fileSize t) (wrap 64 (mtime t))) as (H1 & H2 & H3 & H4);
    [done..|apply wrap_range; lia|]. fold sizes in H1, H2, H3, H4.
  assert (Hhash : exists h, (if hash_first then hashUnit submit_ blake3 t else []) = h /\
    (forall s0, input s0 = h ++ rest ->
      (if hash_first then read kProbeHashSize else mret []) s0 = (set_input s0 rest, Some h))).
  { eexists. split; [done|]. intros s0 Hs0. destruct hash_first.
    - apply read_n; [done|]. unfold hashUnit. rewrite length_take. pose proof (blake3_size (concat (submit_ t))). lia.
    - cbn in Hs0. rewrite <- Hs0. by destruct s0. }
  destruct Hhash as (h & Eh & Hhash). rewrite Eh, <- !(app_assoc (pathname t)), <- !(app_assoc sizes) in Hin.
  assert (Hu : is_unit (Some (t_type t)) && negb (bad_path_len (Z.of_nat (length (pathname t)))) = true).
  { unfold bad_path_len. rewrite (proj2 (Z.eqb_neq _ _)), (proj2 (Z.ltb_ge _ _)) by lia. by destruct Hty as [-> | ->]. }
  unfold probed, unit_step. unfold bind at 1. rewrite (read_cons _ _ _ Hin). cbn [nth]. rewrite unit_type_of_to_byte, accept_mode.
  unfold bind at 1, guard at 1, mret at 1. unfold handle_probe, bind at 1.
  erewrite (read_n 11 _ head); [|reflexivity|reflexivity]. rewrite Hk, Ht, Hp, unit_type_of_to_byte.
  unfold bind at 1, guard. rewrite Hu. unfold mret at 1. unfold bind at 1. rewrite Nat2Z.id.
  erewrite (read_n _ _ (pathname t)); [|reflexivity|reflexivity]. unfold bind at 1.
  erewrite (read_n 32 _ sizes); [|reflexivity|reflexivity]. unfold bind at 1. erewrite Hhash; [|reflexivity]. rewrite H1, H2, H3, H4, to_int64_wrap by done. cbn [default from_option id].
  rewrite <- Eh. fold (probe_of t). unfold reply_to, accepts. unfold bind, modify.
  by destruct (filter_ (probe_of t)); eexists.
Qed.

(** ** An accepted unit *)

Lemma unit_step_accepted checks s key t full zs d' outs rest :
  is_word 64 key -> good_probe t -> t_type t = File \/ t_type t = Chunk ->
  accepted_ s !! key = Some (unit_of t) -> sink_inv (world s) (sink_ s) ->
  resolve_safe_path (session_root_ (sink_ s)) (pathname t) = Some full ->
  unit_fits (t_type t) (unit_base t) (concat (submit_ t)) ->
  input s = acceptedHeader key ++ unit_body checks zs (XXH64_digest
    (if checks then XXH64_update_all (XXH64_reset 0) (submit_ t) else XXH64_reset 0)) ++ rest ->
  Forall (fun z => Z.of_nat (length z) <= kMaxBlockSize) zs ->
  feeds_all (decompressor_ s) zs d' outs -> concat outs = concat (submit_ t) ->
  exists s', unit_step mode checks filter_ s = (s', Some tt) /\ input s' = rest /\
    after_unit (set_accepted s (delete key (accepted_ s))) s' full (t_type t) (unit_base t) (concat (submit_ t)) d'.
Proof using accept_mode Rel.
  intros Hkey (_ & _ & _ & Hfile) Hty Hacc Hinv Hres Hfit Hin Hzs Hfeeds Hdata.
  assert (Hbase : t_offset t = unit_base t) by (unfold unit_base; destruct Hty as [E|E]; rewrite E; auto).
  set (body := unit_body _ _ _ ++ rest) in Hin.
  assert (Hin0 : input s = unit_type_to_byte Accepted :: write_u64_le key ++ body) by done.
  set (s0 := set_accepted (set_input s body) (delete key (accepted_ s))).
  set (s1 := emit s0 (UploadStarted (pathname t) (t_type t) (unit_base t))).
  destruct (unit_received checks s1 (t_type t) (pathname t) (unit_base t) full zs (submit_ t) d' outs rest)
    as (s2 & writers & s' & Hopen & Hrec & Hrest & Hafter); [done..|].
  exists s'. split; [|done].
  unfold unit_step, bind at 1. rewrite (read_cons _ _ _ Hin0). cbn [nth]. rewrite unit_type_of_to_byte, accept_mode.
  unfold bind at 1, unit_header, guard, bind at 1, mret at 1. unfold bind at 1.
  erewrite (read_n 8 _ (write_u64_le key)); [|reflexivity|apply length_write_u64_le].
  unfold bind at 1, gets. cbn [accepted_ set_input]. rewrite read_write_u64', Hacc by done.
  unfold bind at 1, modify at 1, mret at 1. cbn [au_type au_path au_offset unit_of accepted_ set_input].
  unfold bind, modify. rewrite Hbase. change (set_accepted _ (delete key (accepted_ s))) with s0. fold s1.
  by rewrite Hopen.
Qed.

(** ** The client's side *)

Definition pend (key : Z) (t : Task) : PendingUnit := {| pu_key := key; pu_task := t; pu_accepted := false |}.

(** Of a worker that probes, only these change. *)
Definition same_modes w w' : Prop :=
  w_integrity w' = w_integrity w /\ acceptMode w' = acceptMode w /\ hashFirst w' = hashFirst w.

Lemma probe_up w t : exists w', probe submit_ blake3 w t = (w', true) /\ same_modes w w' /\
  compressor w' = compressor w /\ nextKey w' = wrap 64 (nextKey w + 1) /\
  pending w' = pending w ++ [pend (nextKey w) t] /\ net_inbox (network w') = net_inbox (network w) /\
  net_sent (network w') = net_sent (network w) ++ probe_frame submit_ blake3 w (nextKey w) t.
Proof using Up.
  unfold probe. match goal with |- context [w_enqueue ?w0 ?data] => destruct (w_enqueue_up w0 data) as (w' & E & Hs & Hc & Hn) end.
  exists w'. destruct Hs as (H1 & H2 & H3 & H4 & H5 & H6 & H7). rewrite E. split; [done|]. by repeat split.
Qed.

Definition decided u : PendingUnit := {| pu_key := pu_key u; pu_task := pu_task u; pu_accepted := accepts (pu_task u) |}.

Definition replies (us : list PendingUnit) : bytes := concat (map (fun u => reply_to (pu_key u) (pu_task u)) us).

Lemma length_reply key t : length (reply_to key t) = kProbeReplySize.
Proof. done. Qed.

Lemma read_replies_up us : forall n rest,
  Forall (fun u => is_word 64 (pu_key u)) us -> net_inbox n = replies us ++ rest ->
  exists n', read_replies n us = (n', map decided us, true) /\ net_inbox n' = rest /\ net_sent n' = net_sent n.
Proof using Up.
  induction us as [|u us IH]; intros n rest Hw Hin; cbn [read_replies map]; [by exists n|].
  apply Forall_cons in Hw as [Hk Hw]. unfold replies in Hin. cbn [map concat] in Hin. rewrite <- app_assoc in Hin.
  set (r := reply_to (pu_key u) (pu_task u)) in Hin.
  destruct (recv_up n kProbeReplySize) as (n1 & -> & Hi1 & Hs1).
  { rewrite Hin, length_app. change (length r) with kProbeReplySize. lia. }
  rewrite Hin in Hi1 |- *. change kProbeReplySize with (length r) in Hi1 |- *. rewrite drop_app_length in Hi1.
  rewrite take_app_length. unfold r. change (drop 1 (reply_to _ _)) with (write_u64_le (pu_key u)).
  rewrite read_write_u64', Z.eqb_refl by done. cbn [negb].
  destruct (IH n1 rest Hw Hi1) as (n2 & -> & Hi2 & Hs2). exists n2. split; [|by rewrite Hs2].
  do 3 f_equal. unfold decided. f_equal. unfold reply_to. cbn [nth]. by destruct (accepts (pu_task u)).
Qed.

(** ** The units the server accepted *)

Definition entries (us : list PendingUnit) : list (Z * AcceptedUnit) :=
  (fun u => (pu_key u, unit_of (pu_task u))) <$> filter (fun u => accepts (pu_task u) = true) us.

Definition admitted (us : list PendingUnit) : gmap Z AcceptedUnit := list_to_map (entries us).

Lemma entries_keys us key : key ∉ pu_key <$> us -> key ∉ (entries us).*1.
Proof.
  intros Hk ([k v] & -> & (u & [= -> ->] & Hu)%list_elem_of_fmap)%list_elem_of_fmap. apply Hk.
  apply list_elem_of_filter in Hu as [_ Hu]. by apply (list_elem_of_fmap_2 pu_key).
Qed.

Lemma admitted_cons u us : admitted (u :: us) =
  if accepts (pu_task u) then <[pu_key u := unit_of (pu_task u)]> (admitted us) else admitted us.
Proof. unfold admitted, entries. rewrite filter_cons. by destruct (accepts (pu_task u)). Qed.

Lemma admitted_snoc us key t : key ∉ pu_key <$> us ->
  admitted (us ++ [pend key t]) = if accepts t then <[key := unit_of t]> (admitted us) else admitted us.
Proof.
  intros Hk. unfold admitted, entries. rewrite filter_app, fmap_app, filter_cons, filter_nil.
  change (pu_task (pend key t)) with t. destruct (accepts t); cbn [fmap list_fmap].
  - rewrite decide_True by done. cbn. rewrite list_to_map_snoc; [done|]. by apply entries_keys.
  - rewrite decide_False by done. by rewrite app_nil_r.
Qed.

Lemma admitted_none us key : key ∉ pu_key <$> us -> admitted us !! key = None.
Proof. intros Hk. apply not_elem_of_list_to_map. by apply entries_keys. Qed.

(** What a session leaves of the files: the accepted tasks are stored. *)
Definition store_accepted (root : path) (files : bytes -> option bytes) (ts : list Task) : bytes -> option bytes :=
  fold_left (spec_store root submit_) (filter (fun t => accepts t = true) ts) files.

Definition asked_ok (root : path) (t : Task) : Prop := task_ok root submit_ block t /\ good_probe t.

(** A server ready for what comes. *)
Definition ready s (root : path) (d : D) (acc : gmap Z AcceptedUnit) (stream rest : bytes)
    (files : bytes -> option bytes) : Prop :=
  input s = stream ++ rest /\ decompressor_ s = d /\ accepted_ s = acc /\ sink_inv (world s) (sink_ s) /\
  session_root_ (sink_ s) = root /\ forall q, fs_file (world s) q = files q.

(** [stream], read by a server that is ready for it, leads to one ready for the rest. *)
Definition leads (checks : bool) (root : path) (d : D) (acc : gmap Z AcceptedUnit) (stream : bytes)
    (posts : list bytes) (ts : list Task) (d' : D) (acc' : gmap Z AcceptedUnit) : Prop :=
  forall s rest files, ready s root d acc stream rest files ->
    exists n s', steps mode filter_ checks n s s' /\ (n <= length stream)%nat /\
      ready s' root d' acc' [] rest (store_accepted root files ts) /\ posted s' = posted s ++ posts.

Lemma steps_trans checks n m s1 s2 s3 :
  steps mode filter_ checks n s1 s2 -> steps mode filter_ checks m s2 s3 -> steps mode filter_ checks (n + m) s1 s3.
Proof. induction 1 as [s|n s s1 s2 E _ IH]; intros H; [done|]. econstructor; [exact E|by apply IH]. Qed.

Lemma store_accepted_app root files ts us :
  store_accepted root files (ts ++ us) = store_accepted root (store_accepted root files ts) us.
Proof. unfold store_accepted. by rewrite filter_app, fold_left_app. Qed.

Lemma leads_nil checks root d acc : leads checks root d acc [] [] [] d acc.
Proof.
  intros s rest files Hs. exists 0%nat, s. split; [constructor|]. split; [done|]. split; [done|]. by rewrite app_nil_r.
Qed.

Lemma leads_trans checks root d1 acc1 st1 p1 ts1 d2 acc2 st2 p2 ts2 d3 acc3 :
  leads checks root d1 acc1 st1 p1 ts1 d2 acc2 -> leads checks root d2 acc2 st2 p2 ts2 d3 acc3 ->
  leads checks root d1 acc1 (st1 ++ st2) (p1 ++ p2) (ts1 ++ ts2) d3 acc3.
Proof.
  intros H1 H2 s rest files (Hin & Hs). rewrite <- app_assoc in Hin.
  destruct (H1 s (st2 ++ rest) files (conj Hin Hs)) as (n & s1 & Hn & Hl & (Hin1 & Hs1) & Hp1).
  destruct (H2 s1 rest _ (conj Hin1 Hs1)) as (m & s2 & Hm & Hl2 & Hs2 & Hp2).
  exists (n + m)%nat, s2. split; [by eapply steps_trans|]. rewrite length_app. split; [lia|].
  rewrite store_accepted_app. split; [done|]. by rewrite Hp2, Hp1, app_assoc.
Qed.

Lemma probe_leads checks root w key t d acc :
  asked_ok root t -> is_word 64 key -> hashFirst w = hash_first ->
  leads checks root d acc (probe_frame submit_ blake3 w key t) [reply_to key t] [] d
    (if accepts t then <[key := unit_of t]> acc else acc).
Proof using accept_mode blake3_size.
  intros [(Hgood & _) Hprobe] Hkey Hh s rest files (Hin & Hd & Ha & Hinv & Hroot & Hf).
  destruct (unit_step_probe checks s w key t rest Hgood Hprobe Hkey Hh Hin) as (s' & (E & H1 & H2 & H3 & H4 & H5) & H6).
  exists 1%nat, s'. split; [econstructor; [exact E|constructor]|].
  split; [rewrite probe_frame_layout; cbn [length]; lia|]. split; [|done]. unfold ready.
  rewrite H1, H2, H3, H5, H6, Ha. done.
Qed.

(** An accepted unit takes its key from the server's table and stores its data. *)
Lemma accepted_leads checks root d d1 key t zs outs acc :
  asked_ok root t -> is_word 64 key -> accepts t = true -> acc !! key = None ->
  Forall (fun z => (length z <= out_cap)%nat) zs -> feeds_all d zs d1 outs -> concat outs = concat (submit_ t) ->
  leads checks root d (<[key := unit_of t]> acc)
    (acceptedHeader key ++ unit_body checks zs (XXH64_digest
      (if checks then XXH64_update_all (XXH64_reset 0) (submit_ t) else XXH64_reset 0))) [] [t] d1 acc.
Proof using accept_mode Rel.
  intros [(Hgood & [full Hres] & Hfit & _) Hprobe] Hk Ea Hnew Hzs Hfeeds Hdata s rest files
    (Hin & Hd & Hacc & Hinv & Hroot & Hf).
  rewrite <- app_assoc in Hin. subst d root.
  destruct (unit_step_accepted checks s key t full zs d1 outs rest Hk Hprobe (proj1 Hgood))
    as (s1 & Hstep & Hrest & Hc & Hother & Hinv1 & Hroot1 & Hd1 & Hacc1 & Hp1 & _); try done.
  { rewrite Hacc. apply lookup_insert_eq. }
  { eapply Forall_impl; [exact Hzs|]. apply out_cap_fits. }
  cbn [accepted_ set_accepted sink_ world posted] in *.
  exists 1%nat, s1. split; [econstructor; [exact Hstep|constructor]|].
  split; [rewrite length_app; cbn [acceptedHeader append_u64 app length]; lia|].
  split; [|by rewrite app_nil_r, Hp1]. unfold ready. rewrite Hd1, Hacc1, Hroot1, Hacc, delete_insert_id by done.
  split_and!; try done.
  intros q. unfold store_accepted. rewrite filter_cons, decide_True, filter_nil by done. cbn [fold_left].
  unfold spec_store. rewrite Hres. destruct (decide (q = os_path full)) as [-> | Hne]; by rewrite ?Hc, ?Hother, Hf.
Qed.

Lemma rejected_leads checks root d acc stream ts t d' acc' :
  accepts t = false -> leads checks root d acc stream [] ts d' acc' ->
  leads checks root d acc stream [] (t :: ts) d' acc'.
Proof.
  intros Ea H s rest files Hs. destruct (H s rest files Hs) as (n & s' & Hl). exists n, s'.
  unfold store_accepted in *. by rewrite filter_cons, decide_False by (by rewrite Ea).
Qed.

(** The second loop of [resolve] and what the server makes of it. *)
Lemma send_accepted_leads root us : forall w d,
  sync (compressor w) d -> Forall (fun u => asked_ok root (pu_task u)) us -> Forall (fun u => is_word 64 (pu_key u)) us ->
  NoDup (pu_key <$> us) ->
  exists w' stream d', send_accepted submit_ w (map decided us) = (w', true) /\ same_modes w w' /\
    nextKey w' = nextKey w /\ net_inbox (network w') = net_inbox (network w) /\
    net_sent (network w') = net_sent (network w) ++ stream /\ sync (compressor w') d' /\
    leads (w_integrity w) root d (admitted us) stream [] (map pu_task us) d' ∅.
Proof using accept_mode Up Codec Rel.
  induction us as [|u us IH]; intros w d Hsync Hok Hkeys Hnd; cbn [map send_accepted fmap list_fmap].
  { exists w, [], d. rewrite app_nil_r. split_and!; try done. apply leads_nil. }
  apply Forall_cons in Hok as [Hu Hok]. apply Forall_cons in Hkeys as [Hk Hkeys].
  cbn [fmap list_fmap] in Hnd. apply NoDup_cons in Hnd as [Hnew Hnd].
  change (pu_accepted (decided u)) with (accepts (pu_task u)). rewrite admitted_cons.
  change (pu_task (decided u)) with (pu_task u). change (pu_key (decided u)) with (pu_key u).
  destruct (accepts (pu_task u)) eqn:Ea; cbn [negb].
  - unfold send. pose proof Hu as [(_ & _ & _ & Hblocks) _].
    destruct (upload_up submit_ (w_emit w (CUploadStarted (pu_task u))) (pu_task u) (acceptedHeader (pu_key u)) d Hsync Hblocks)
      as (w1 & cb & zs & d1 & outs & -> & Hst & Hsent & Hzs & Hfeeds & Hdata & Hsync1). cbn [negb].
    destruct Hst as (Hi & Ha & Hh & Hn & _ & _ & Hbox). cbn [w_emit w_integrity acceptMode hashFirst nextKey network] in *.
    destruct (IH (w_emit w1 (CUploadFinished (pu_task u) cb true)) d1 Hsync1 Hok Hkeys Hnd)
      as (w2 & stream & d2 & -> & (Hi2 & Ha2 & Hh2) & Hn2 & Hbox2 & Hsent2 & Hsync2 & Hleads).
    cbn [w_emit w_integrity acceptMode hashFirst nextKey network] in *. rewrite Hi in Hleads.
    eexists w2, (_ ++ stream), d2. split; [done|]. split; [split_and!; cbn; congruence|]. split; [congruence|]. split; [congruence|].
    split; [rewrite Hsent2, Hsent, <- app_assoc; reflexivity|]. split; [done|].
    apply (leads_trans _ _ _ _ _ [] [pu_task u] _ _ _ [] (map pu_task us) _ _) with (2 := Hleads).
    eapply accepted_leads; try done. by apply admitted_none.
  - destruct (IH (w_emit w (CUploadSkipped (pu_task u))) d Hsync Hok Hkeys Hnd)
      as (w2 & stream & d2 & -> & Hm & Hn2 & Hbox2 & Hsent2 & Hsync2 & Hleads).
    exists w2, stream, d2. split_and!; try done. by apply rejected_leads.
Qed.

Lemma resolve_leads root w d tail :
  sync (compressor w) d -> Forall (fun u => asked_ok root (pu_task u)) (pending w) ->
  Forall (fun u => is_word 64 (pu_key u)) (pending w) -> NoDup (pu_key <$> pending w) ->
  net_inbox (network w) = replies (pending w) ++ tail ->
  exists w' stream d', resolve submit_ w = (w', true) /\ same_modes w w' /\ nextKey w' = nextKey w /\ pending w' = [] /\
    net_inbox (network w') = tail /\ net_sent (network w') = net_sent (network w) ++ stream /\ sync (compressor w') d' /\
    leads (w_integrity w) root d (admitted (pending w)) stream [] (map pu_task (pending w)) d' ∅.
Proof using accept_mode Up Codec Rel.
  intros Hsync Hok Hkeys Hnd Hin. unfold resolve.
  destruct (await_up (network w) []) as (n1 & -> & Hs1 & Hi1). rewrite app_nil_r in Hs1. rewrite <- Hi1 in Hin.
  destruct (read_replies_up (pending w) n1 tail Hkeys Hin) as (n2 & -> & Hi2 & Hs2).
  destruct (send_accepted_leads root (pending w) (set_net w n2) d Hsync Hok Hkeys Hnd)
    as (w' & stream & d' & -> & Hm & Hn & Hbox & Hsent & Hsync' & Hleads).
  exists (set_pending w' (nextKey w') []), stream, d'. cbn [set_net set_pending network nextKey] in *.
  split_and!; try done; congruence.
Qed.

(** ** A session *)

(** The worker's loop over its tasks, each with what it finds in its queue. *)
Fixpoint process_flags w (tqs : list (Task * bool)) : Worker N C * bool :=
  match tqs with
  | [] => (w, true)
  | (t, queue_empty) :: tqs =>
      let '(w, ok) := process submit_ blake3 w queue_empty t in
      if negb ok then (w, false) else process_flags w tqs
  end.

(** What the server posts for the probes of [ts], the first with key [key]. *)
Fixpoint answers (key : Z) (ts : list Task) : list bytes :=
  match ts with
  | [] => []
  | t :: ts => reply_to key t :: answers (wrap 64 (key + 1)) ts
  end.

(** A worker between two tasks: its pending units have consecutive keys. *)
Definition waiting (root : path) w : Prop :=
  acceptMode w = true /\ hashFirst w = hash_first /\ (length (pending w) < kProbeWindow)%nat /\
  Forall (fun u => asked_ok root (pu_task u)) (pending w) /\
  exists base, pu_key <$> pending w = keys_from base (length (pending w)) /\
    nextKey w = wrap 64 (base + Z.of_nat (length (pending w))).

(** A fresh worker. *)
Lemma waiting_start root w :
  acceptMode w = true -> hashFirst w = hash_first -> pending w = [] -> is_word 64 (nextKey w) -> waiting root w.
Proof using.
  intros Ha Hh Hp Hn. split; [done|]. split; [done|]. rewrite Hp. split; [unfold kProbeWindow; cbn; lia|].
  split; [constructor|]. exists (nextKey w). split; [done|]. rewrite Z.add_0_r. by rewrite wrap_small.
Qed.

Lemma waiting_fresh root w : waiting root w ->
  nextKey w ∉ pu_key <$> pending w /\ is_word 64 (nextKey w).
Proof using.
  intros (_ & _ & Hlen & _ & base & Hk & Hn). rewrite Hk, Hn. split; [|apply wrap_range; lia].
  apply keys_from_fresh; [done|]. unfold kProbeWindow in Hlen. lia.
Qed.

(** The units a worker has pending after a probe. *)
Lemma probed_keys root w w1 t :
  waiting root w -> asked_ok root t -> same_modes w w1 -> nextKey w1 = wrap 64 (nextKey w + 1) ->
  pending w1 = pending w ++ [pend (nextKey w) t] ->
  Forall (fun u => asked_ok root (pu_task u)) (pending w1) /\ Forall (fun u => is_word 64 (pu_key u)) (pending w1) /\
  NoDup (pu_key <$> pending w1) /\ ((length (pending w1) < kProbeWindow)%nat -> waiting root w1).
Proof using.
  intros Hw Ht (_ & Ha & Hh) Hn Hp. pose proof Hw as (Ha0 & Hh0 & Hlen & Hok & base & Hk & Hn0).
  assert (Hok1 : Forall (fun u => asked_ok root (pu_task u)) (pending w1)).
  { rewrite Hp. apply Forall_app. split; [done|]. by constructor. }
  assert (Hk1 : pu_key <$> pending w1 = keys_from base (length (pending w1))).
  { rewrite Hp, fmap_app, Hk, length_app, Nat.add_comm. cbn [length Nat.add]. rewrite keys_from_snoc, <- Hn0. done. }
  assert (Hl1 : length (pending w1) = S (length (pending w))) by (rewrite Hp, length_app; cbn; lia).
  split; [done|]. split; [apply Forall_fmap with (f := pu_key) (P := is_word 64); rewrite Hk1; apply keys_from_word|].
  split; [rewrite Hk1; apply keys_from_nodup; unfold kProbeWindow in Hlen; lia|].
  intros Hlt. split; [congruence|]. split; [congruence|]. do 2 (split; [done|]). exists base. split; [done|].
  rewrite Hn, Hn0, Hl1, wrap_add_l. f_equal. lia.
Qed.

(** [w] becomes [w'] while it asks about [ts]: it sends [stream], which the server
    answers with [posts], and has the tasks [done] behind it. *)
Definition asks (root : path) w d (ts : list Task) (tail : bytes) w' (stream : bytes) d' (done : list Task) : Prop :=
  same_modes w w' /\ waiting root w' /\ nextKey w' = wrap 64 (nextKey w + Z.of_nat (length ts)) /\
  net_inbox (network w') = replies (pending w') ++ tail /\ net_sent (network w') = net_sent (network w) ++ stream /\
  sync (compressor w') d' /\ map pu_task (pending w) ++ ts = done ++ map pu_task (pending w') /\
  leads (w_integrity w) root d (admitted (pending w)) stream (answers (nextKey w) ts) done d' (admitted (pending w')).

Lemma replies_snoc us key t : replies (us ++ [pend key t]) = replies us ++ reply_to key t.
Proof. unfold replies. rewrite map_app, concat_app. cbn [map concat]. by rewrite app_nil_r. Qed.

(** A probe, read by a server that is ready for it. *)
Lemma probe_asks root w d t tail :
  waiting root w -> asked_ok root t -> sync (compressor w) d ->
  net_inbox (network w) = replies (pending w) ++ reply_to (nextKey w) t ++ tail ->
  exists w1, probe submit_ blake3 w t = (w1, true) /\ same_modes w w1 /\ nextKey w1 = wrap 64 (nextKey w + 1) /\
    pending w1 = pending w ++ [pend (nextKey w) t] /\ net_inbox (network w1) = replies (pending w1) ++ tail /\
    net_sent (network w1) = net_sent (network w) ++ probe_frame submit_ blake3 w (nextKey w) t /\ sync (compressor w1) d /\
    leads (w_integrity w) root d (admitted (pending w)) (probe_frame submit_ blake3 w (nextKey w) t)
      [reply_to (nextKey w) t] [] d (admitted (pending w1)).
Proof using accept_mode blake3_size Up.
  intros Hw Ht Hsync Hin. destruct (waiting_fresh root w Hw) as [Hfresh Hword]. pose proof Hw as (_ & Hh & _).
  destruct (probe_up w t) as (w1 & E & Hm & Hc & Hn & Hp & Hi & Hs). exists w1.
  split; [done|]. split; [done|]. split; [done|]. split; [done|].
  split; [by rewrite Hi, Hin, Hp, replies_snoc, <- app_assoc|]. split; [done|]. split; [by rewrite Hc|].
  rewrite Hp, admitted_snoc by done. by apply probe_leads.
Qed.

Lemma process_asks root w d t queue_empty tail :
  waiting root w -> asked_ok root t -> sync (compressor w) d ->
  net_inbox (network w) = replies (pending w) ++ reply_to (nextKey w) t ++ tail ->
  exists w' stream d' done, process submit_ blake3 w queue_empty t = (w', true) /\
    asks root w d [t] tail w' stream d' done /\ (queue_empty = true -> pending w' = []).
Proof using accept_mode blake3_size Up Codec Rel.
  intros Hw Ht Hsync Hin. destruct (probe_asks root w d t tail Hw Ht Hsync Hin)
    as (w1 & E & Hm & Hn & Hp & Hi & Hs & Hsync1 & Hleads).
  destruct (probed_keys root w w1 t Hw Ht Hm Hn Hp) as (Hok & Hkeys & Hnd & Hw1).
  unfold process. rewrite (proj1 Hw), E. cbn [negb].
  destruct (_ || _) eqn:Eb.
  - destruct (resolve_leads root w1 d tail Hsync1 Hok Hkeys Hnd Hi)
      as (w2 & stream & d2 & -> & Hm2 & Hn2 & Hp2 & Hi2 & Hs2 & Hsync2 & Hl2).
    exists w2, (probe_frame submit_ blake3 w (nextKey w) t ++ stream), d2, (map pu_task (pending w) ++ [t]).
    split; [done|]. split; [|done]. destruct Hm as (M1 & M2 & M3), Hm2 as (M4 & M5 & M6).
    split; [split_and!; congruence|]. rewrite Hp2. split.
    { destruct Hw as (Ha & Hh & _). apply waiting_start; [congruence..|]. rewrite Hn2, Hn. apply wrap_range. lia. }
    split; [by rewrite Hn2, Hn|]. split; [done|]. split; [by rewrite Hs2, Hs, app_assoc|]. split; [done|].
    split; [by rewrite app_nil_r|]. change (map pu_task (pending w) ++ [t]) with ([] ++ map pu_task (pending w) ++ map pu_task [pend (nextKey w) t]).
    rewrite <- map_app, <- Hp. change (answers (nextKey w) [t]) with ([reply_to (nextKey w) t] ++ []).
    eapply leads_trans; [exact Hleads|]. rewrite M1 in Hl2. exact Hl2.
  - apply orb_false_iff in Eb as [Hlt ->]. apply Nat.leb_gt in Hlt.
    exists w1, (probe_frame submit_ blake3 w (nextKey w) t), d, []. split; [done|]. split; [|done].
    split; [done|]. split; [by apply Hw1|]. split; [done|]. split; [done|]. split; [done|]. split; [done|].
    split; [by rewrite Hp, map_app|done].
Qed.

Lemma asks_trans root w1 d1 ts w2 st d2 a us tail w3 st' d3 b :
  asks root w1 d1 ts (concat (answers (nextKey w2) us) ++ tail) w2 st d2 a -> asks root w2 d2 us tail w3 st' d3 b ->
  answers (nextKey w1) (ts ++ us) = answers (nextKey w1) ts ++ answers (nextKey w2) us ->
  asks root w1 d1 (ts ++ us) tail w3 (st ++ st') d3 (a ++ b).
Proof using.
  intros ((M1 & M2 & M3) & _ & Hn & _ & Hs & _ & Ht & Hl) ((M4 & M5 & M6) & Hw3 & Hn3 & Hi3 & Hs3 & Hy3 & Ht3 & Hl3) Ha.
  split; [split_and!; congruence|]. split; [done|]. split.
  { rewrite Hn3, Hn, wrap_add_l, length_app. f_equal. lia. }
  split; [done|]. split; [by rewrite Hs3, Hs, app_assoc|]. split; [done|].
  split; [by rewrite app_assoc, Ht, <- !app_assoc, Ht3|].
  rewrite Ha. eapply leads_trans; [exact Hl|]. by rewrite <- M1.
Qed.

Lemma session_asks root tqs : forall w d tail,
  waiting root w -> Forall (asked_ok root) (map fst tqs) -> sync (compressor w) d ->
  net_inbox (network w) = replies (pending w) ++ concat (answers (nextKey w) (map fst tqs)) ++ tail ->
  exists w' stream d' done, process_flags w tqs = (w', true) /\
    asks root w d (map fst tqs) tail w' stream d' done /\
    (match last tqs with Some (_, queue_empty) => queue_empty = true | None => pending w = [] end -> pending w' = []).
Proof using accept_mode blake3_size Up Codec Rel.
  induction tqs as [|[t q] tqs IH]; intros w d tail Hw Hok Hsync Hin; cbn [map fst process_flags].
  { exists w, [], d, []. split; [done|]. split; [|done]. cbn [answers concat map app] in *.
    split; [done|]. split; [done|]. pose proof (waiting_fresh root w Hw) as [_ Hword].
    split; [cbn; rewrite Z.add_0_r; by rewrite wrap_small|]. split; [done|]. rewrite !app_nil_r.
    do 3 (split; [done|]). apply leads_nil. }
  cbn [map fst] in *. apply Forall_cons in Hok as [Ht Hok]. cbn [answers concat] in Hin. rewrite <- app_assoc in Hin.
  destruct (process_asks root w d t q _ Hw Ht Hsync Hin) as (w1 & st1 & d1 & a1 & -> & H1 & Hq). cbn [negb].
  pose proof H1 as (_ & Hw1 & Hn1 & Hi1 & _ & Hy1 & _). change (Z.of_nat (length [t])) with 1 in Hn1. rewrite <- Hn1 in Hi1.
  destruct (IH w1 d1 tail Hw1 Hok Hy1 Hi1) as (w2 & st2 & d2 & a2 & -> & H2 & Hl2).
  exists w2, (st1 ++ st2), d2, (a1 ++ a2). split; [done|]. split.
  - change (t :: map fst tqs) with ([t] ++ map fst tqs). eapply asks_trans; [|exact H2|].
    + by rewrite Hn1.
    + cbn [answers app]. by rewrite Hn1.
  - intros Hlast. apply Hl2. destruct tqs as [|x tqs]; [by apply Hq|].
    rewrite last_cons_cons in Hlast. destruct (last (x :: tqs)) eqn:E; [exact Hlast|by apply last_None in E].
Qed.

Lemma answers_app ts us : forall key, is_word 64 key ->
  answers key (ts ++ us) = answers key ts ++ answers (wrap 64 (key + Z.of_nat (length ts))) us.
Proof using.
  induction ts as [|t ts IH]; intros key Hk; cbn [app answers length].
  - by rewrite Z.add_0_r, wrap_small.
  - rewrite IH by (apply wrap_range; lia). rewrite wrap_add_l. cbn [app]. do 4 f_equal. lia.
Qed.

(** ** The server's loop over what it is led through *)

Lemma leads_handled checks root d acc stream posts ts d' acc' stop s (left_ : bytes) :
  leads checks root d acc stream posts ts d' acc' ->
  ready (set_input s (stream ++ stop)) root d acc stream stop (fun q => fs_file (world s) q) ->
  (forall s1, input s1 = stop -> unit_step mode checks filter_ s1 = (set_input s1 left_, None)) ->
  let s' := handle_upload mode checks filter_ (set_input s (stream ++ stop)) in
  input s' = left_ /\ posted s' = posted s ++ posts /\ accepted_ s' = acc' /\ sink_inv (world s') (sink_ s') /\
  forall q, fs_file (world s') q = store_accepted root (fun q => fs_file (world s) q) ts q.
Proof using.
  intros Hl Hready Hstop. destruct (Hl _ _ _ Hready) as (n & s1 & Hsteps & Hn & (Hin & Hd & Ha & Hinv & Hroot & Hf) & Hp).
  unfold handle_upload. erewrite upload_loop_steps; [|exact Hsteps|by apply Hstop|].
  - done.
  - cbn [input set_input]. rewrite length_app. lia.
Qed.

Lemma end_stops checks s rest :
  input s = unit_type_to_byte End :: rest -> unit_step mode checks filter_ s = (set_input s rest, None).
Proof using. intros Hin. unfold unit_step, bind at 1. by rewrite (read_cons _ _ _ Hin). Qed.

Lemma cut_stops checks s : input s = [] -> unit_step mode checks filter_ s = (set_input s [], None).
Proof using. intros Hin. unfold unit_step, bind at 1, read. by rewrite Hin. Qed.
End Accept.

(** ** Properties *)

(** C3: an accept-mode upload arrives, and never deadlocks. A worker asks about
    each task and, whenever it finds its queue empty or its window full, reads its
    answers and sends what was accepted. Whatever the interleaving of questions
    and units that follows: (1) if the last task found the queue empty nothing
    stays pending, the worker has read exactly one answer per task, and the
    server's [handle_upload], fed what the worker sent, consumes all of it, posts
    exactly the answers the worker read, has no key left in its table, and leaves
    the file system as the abstract specification does with the accepted tasks
    alone; (2) when the worker has just sent the probe of a task, the server has,
    from the bytes sent so far, posted the answer to it and to every earlier one,
    so the answers the worker stops to read are on their way. *)
Theorem accept_session_stored {N C W D : Type} {Net : NetOps N} {Comp : Compressor C}
    {Dec : Decompressor D} {Ops : FsOps W} {Laws : FsLaws W} {Rel : FsReliable W} {Up : NetUp N}
    {block : nat} {Codec : StreamCodec C D out_cap block}
    (mode : Z) (filter_ : ProbeInfo -> bool) (submit_ : Task -> list bytes) (blake3 : bytes -> bytes)
    (tqs : list (Task * bool)) (w : Worker N C) (s : Consumer W D) (tail : bytes) :
  (forall b, (kProbeHashSize <= length (blake3 b))%nat) ->
  has_mode mode ModeAccept = true -> acceptMode w = true -> hashFirst w = has_mode mode HashFirst ->
  pending w = [] -> is_word 64 (nextKey w) -> accepted_ s = ∅ ->
  sync (compressor w) (decompressor_ s) -> sink_inv (world s) (sink_ s) ->
  Forall (asked_ok (block := block) submit_ (session_root_ (sink_ s))) (map fst tqs) ->
  net_inbox (network w) = concat (answers mode filter_ submit_ blake3 (nextKey w) (map fst tqs)) ++ tail ->
  (match last tqs with Some (_, queue_empty) => queue_empty = true | None => True end ->
    exists w' stream, process_flags submit_ blake3 w tqs = (w', true) /\ pending w' = [] /\
      net_inbox (network w') = tail /\ net_sent (network (finish w')) = net_sent (network w) ++ stream /\
      forall rest, let s' := handle_upload mode (w_integrity w) filter_ (set_input s (stream ++ rest)) in
        input s' = rest /\ accepted_ s' = ∅ /\
        posted s' = posted s ++ answers mode filter_ submit_ blake3 (nextKey w) (map fst tqs) /\
        forall q, fs_file (world s') q = store_accepted mode filter_ submit_ blake3 (session_root_ (sink_ s))
          (fun q => fs_file (world s) q) (map fst tqs) q) /\
  (forall tqs1 t queue_empty tqs2, tqs = tqs1 ++ (t, queue_empty) :: tqs2 ->
    exists w1 w2 sent, process_flags submit_ blake3 w tqs1 = (w1, true) /\ probe submit_ blake3 w1 t = (w2, true) /\
      net_sent (network w2) = net_sent (network w) ++ sent /\
      posted (handle_upload mode (w_integrity w) filter_ (set_input s sent)) =
        posted s ++ answers mode filter_ submit_ blake3 (nextKey w) (map fst tqs1 ++ [t])).
Proof.
  intros Hb3 Hmode Ha Hh Hp Hk Hacc Hsync Hinv Hok Hin.
  set (root := session_root_ (sink_ s)) in *.
  assert (Hw : waiting (block := block) mode submit_ root w) by (by apply waiting_start).
  assert (Hready : forall st stop, ready (set_input s (st ++ stop)) root (decompressor_ s)
    (admitted mode filter_ submit_ blake3 (pending w)) st stop (fun q => fs_file (world s) q)).
  { intros st stop. rewrite Hp. by split_and!. }
  split.
  - intros Hlast. destruct (session_asks mode filter_ submit_ blake3 Hmode Hb3 root tqs w (decompressor_ s) tail Hw Hok Hsync)
      as (w' & stream & d' & done_ & E & Hasks & Hq); [by rewrite Hp|].
    assert (Hp' : pending w' = []) by (apply Hq; by destruct (last tqs) as [[]|]). 
    destruct Hasks as (_ & _ & _ & Hi & Hs & _ & Ht & Hl). rewrite Hp' in Hi, Ht. rewrite Hp in Ht. cbn in Ht. rewrite app_nil_r in Ht. subst done_.
    exists w', (stream ++ [unit_type_to_byte End]). split; [done|]. split; [done|]. split; [done|]. split.
    { unfold finish. destruct (w_enqueue_up w' [unit_type_to_byte End]) as (w2 & -> & _ & _ & Hs2).
      cbn [fst]. by rewrite Hs2, Hs, app_assoc. }
    intros rest. cbv zeta. rewrite <- app_assoc.
    destruct (leads_handled _ _ _ _ _ _ _ _ _ _ _ _ _ ([unit_type_to_byte End] ++ rest) s rest Hl (Hready _ _))
      as (H1 & H2 & H3 & _ & H5); [intros s1; apply end_stops|].
    rewrite Hp' in H3. by split_and!.
  - intros tqs1 t q tqs2 ->. rewrite map_app in Hok, Hin. cbn [map fst] in Hok, Hin.
    apply Forall_app in Hok as [Hok1 [Ht _]%Forall_cons]. rewrite answers_app in Hin by done. cbn [answers] in Hin.
    rewrite concat_app in Hin. cbn [concat] in Hin. rewrite <- !app_assoc in Hin.
    edestruct (session_asks mode filter_ submit_ blake3 Hmode Hb3 root tqs1 w (decompressor_ s) _ Hw Hok1 Hsync
      (eq_trans Hin (f_equal (fun us => replies mode filter_ submit_ blake3 us ++ _) (eq_sym Hp)))) as (w1 & st & d1 & a & E & Hasks & _).
    destruct Hasks as ((M & _) & Hw1 & Hn1 & Hi1 & Hs1 & Hy1 & _ & Hl1).
    rewrite <- Hn1 in Hi1.
    destruct (probe_asks mode filter_ submit_ blake3 Hmode Hb3 root w1 d1 t _ Hw1 Ht Hy1 Hi1) as (w2 & E2 & _ & _ & _ & _ & Hs2 & _ & Hl2).
    exists w1, w2, (st ++ probe_frame submit_ blake3 w1 (nextKey w1) t). split; [done|]. split; [done|].
    split; [by rewrite Hs2, Hs1, app_assoc|]. rewrite M in Hl2.
    pose proof (leads_trans _ _ _ _ _ _ _ _ _ _ _ _ _ _ _ _ _ _ Hl1 Hl2) as Hl.
    destruct (leads_handled _ _ _ _ _ _ _ _ _ _ _ _ _ [] s [] Hl (Hready _ _)) as (_ & H2 & _); [intros s1; apply cut_stops|].
    rewrite app_nil_r in H2. rewrite H2, answers_app, Hn1 by done. done.
Qed.

(** The two demo tasks, offered to a server that wants documents only. *)
Definition picky (p : ProbeInfo) : bool := bool_decide (take 5 (probe_path p) = str "docs/").
Definition toy_hash (b : bytes) : bytes := b ++ replicate 32 x00.
Definition asking_mode : Z := 3.
Definition asked : list (Task * bool) := zip demo_tasks [false; true].

Definition asking_worker : Worker Pipe unit :=
  {| w_integrity := true; acceptMode := true; hashFirst := true; nextKey := 0; pending := []; compressor := tt;
     network := {| pipe_sent := []; pipe_inbox := concat (answers asking_mode picky demo_submit toy_hash 0 demo_tasks) |};
     w_events := [] |}.

Lemma accept_session_stored_witness : exists w' stream,
  process_flags (Comp := @zstd_compressor unit Copy.encoder) demo_submit toy_hash asking_worker asked = (w', true) /\
  pending w' = [] /\ net_inbox (network w') = [] /\
  net_sent (network (finish w')) = stream /\
  let s' := handle_upload (Dec := @zstd_decompressor unit Copy.decoder) asking_mode true picky (set_input demo_consumer stream) in
  input s' = [] /\ posted s' = [x00 :: write_u64_le 0; x01 :: write_u64_le 1] /\
  fs_file (world s') (str "store/ab/docs/a.txt") = Some (str "hello") /\
  fs_file (world s') (str "store/ab/big") = None.
Proof.
  destruct (accept_session_stored (Codec := demo_codec) asking_mode picky demo_submit toy_hash asked asking_worker demo_consumer [])
    as [H _].
  - intros b. unfold toy_hash. rewrite length_app, length_replicate. unfold kProbeHashSize. lia.
  - reflexivity.
  - reflexivity.
  - reflexivity.
  - reflexivity.
  - split; reflexivity || discriminate.
  - reflexivity.
  - hnf. exists [], []. repeat split.
  - apply map_Forall_empty.
  - apply Forall_and. split; [exact demo_tasks_ok|]. repeat constructor; vm_compute; intuition congruence.
  - by rewrite app_nil_r.
  - destruct H as (w' & stream & E & Hp & Hi & Hs & Hserved); [reflexivity|].
    exists w', stream. split; [exact E|]. split; [exact Hp|]. split; [exact Hi|]. split; [exact Hs|].
    destruct (Hserved []) as (H1 & _ & H3 & H4). rewrite app_nil_r in H1, H3, H4.
    split; [exact H1|]. split; [exact (eq_trans H3 eq_refl)|].
    split; [refine (eq_trans (H4 _) _)|refine (eq_trans (H4 _) _)]; vm_compute; reflexivity.
Defined.
