(* ===== verification/Net.v ===== *)
(** * Net: the client's network thread ([client/net_io.h], [client/net.h], [client/tls.h])

    Exact sends and receives over [send] and [recv], dialling, the SOCKS5
    handshake, and the network client that uses a socket directly or through
    TLS. The socket calls are the class [SockOps], wolfSSL on a socket is
    [TlsClient]; log lines and socket options are left out. *)

From S2P Require Import Prelude Text Wire PosixPath.

(** ** The socket calls *)

(** Addresses are what [getaddrinfo] gives. [sock_recv] gives what it read, the
    empty string at the end of the stream, nothing on an error. *)
Class SockOps (K A : Type) := {
  sock_resolve : K -> bytes -> bytes -> option (list A);
  sock_socket : K -> A -> K * Z;
  sock_set_blocking : K -> Z -> bool -> K;
  sock_connect : K -> Z -> A -> K * Z;
  sock_in_progress : K -> bool;                  (** [lastError() == EINPROGRESS] *)
  sock_select : K -> Z -> Z -> K * Z;            (** writable within so many seconds *)
  sock_error : K -> Z -> Z;                      (** [SO_ERROR] *)
  sock_send : K -> Z -> bytes -> K * Z;
  sock_recv : K -> Z -> nat -> K * option bytes;
  sock_close : K -> Z -> K;
}.

(** [*] on sequences of calls that stop at the first failure. *)
Notation "'must' k <- e ; b" :=
  (match e with (k, true) => b | (k, false) => (k, false) end)
  (at level 200, k name, e at level 100, b at level 200).

Record Proxy := {
  px_use : bool;
  px_host : bytes;
  px_port : bytes;
  px_user : bytes;
  px_pass : bytes;
}.

Definition no_proxy : Proxy := {| px_use := false; px_host := []; px_port := []; px_user := []; px_pass := [] |}.

Definition INVALID : Z := -1.
Definition isValid (fd : Z) : bool := 0 <=? fd.

Section Sockets.
Context {K A : Type} {Ops : SockOps K A}.

Definition closeSock (k : K) (fd : Z) : K := if isValid fd then sock_close k fd else k.

(** [net::sendAll]: every iteration that goes on has sent a byte. *)
Fixpoint send_loop (fuel : nat) (k : K) (fd : Z) (data : bytes) : K * bool :=
  match fuel, data with
  | _, [] => (k, true)
  | O, _ => (k, false)
  | S fuel, _ =>
      let '(k, w) := sock_send k fd data in
      if w <=? 0 then (k, false) else send_loop fuel k fd (drop (Z.to_nat w) data)
  end.

Definition sendAll (k : K) (fd : Z) (data : bytes) : K * bool := send_loop (length data) k fd data.

(** [net::recvExact]. *)
Fixpoint recv_loop (fuel : nat) (k : K) (fd : Z) (len : nat) (got : bytes) : K * option bytes :=
  match len with
  | O => (k, Some got)
  | _ =>
      match fuel with
      | O => (k, None)
      | S fuel =>
          match sock_recv k fd len with
          | (k, None) | (k, Some []) => (k, None)
          | (k, Some (b :: r)) => recv_loop fuel k fd (len - length (b :: r)) (got ++ b :: r)
          end
      end
  end.

Definition recvExact (k : K) (fd : Z) (len : nat) : K * option bytes := recv_loop len k fd len [].

(** [net::connectTimeout]. *)
Definition connectTimeout (k : K) (fd : Z) (a : A) (secs : Z) : K * bool :=
  let k := sock_set_blocking k fd false in
  let '(k, rc) := sock_connect k fd a in
  if rc =? 0 then (sock_set_blocking k fd true, true)
  else if negb (sock_in_progress k) then (k, false)
  else
    let '(k, rc) := sock_select k fd secs in
    if rc <=? 0 then (k, false)
    else if negb (sock_error k fd =? 0) then (k, false)
    else (sock_set_blocking k fd true, true).

(** [net::tcpDial]: the first address that connects. *)
Fixpoint dial_loop (k : K) (addrs : list A) (secs : Z) : K * Z :=
  match addrs with
  | [] => (k, INVALID)
  | a :: addrs =>
      let '(k, fd) := sock_socket k a in
      if negb (isValid fd) then dial_loop k addrs secs
      else
        match connectTimeout k fd a secs with
        | (k, true) => (k, fd)
        | (k, false) => dial_loop (closeSock k fd) addrs secs
        end
  end.

Definition tcpDial (k : K) (host port : bytes) : K * Z :=
  match sock_resolve k host port with
  | None | Some [] => (k, INVALID)
  | Some addrs => dial_loop k addrs 10
  end.

(** ** SOCKS5 *)

Definition byte_of_size (n : nat) : byte := z2b (Z.of_nat n).

(** The user name and password request; the lengths are cast to a byte. *)
Definition auth_request (px : Proxy) : bytes :=
  [x01] ++ [byte_of_size (length (px_user px))] ++ px_user px ++
  [byte_of_size (length (px_pass px))] ++ px_pass px.

(** [std::atoi] of a port and the cast to [uint16_t]. *)
Definition port16 (port : bytes) : Z := wrap 16 (atoi_digits port 0).

Definition connect_request (host port : bytes) : bytes :=
  [x05; x01; x00; x03; byte_of_size (length host)] ++ host ++
  [z2b (Z.shiftr (port16 port) 8); z2b (Z.land (port16 port) 0xff)].

(** What follows the fixed part of the reply, by its address type. *)
Definition skip_reply (k : K) (fd : Z) (atyp : byte) : K * bool :=
  let drain k n := match recvExact k fd (n + 2) with (k, Some _) => (k, true) | (k, None) => (k, false) end in
  if b2z atyp =? 1 then drain k 4%nat
  else if b2z atyp =? 4 then drain k 16%nat
  else if b2z atyp =? 3 then
    match recvExact k fd 1 with
    | (k, None) => (k, false)
    | (k, Some l) => drain k (Z.to_nat (byte_at l 0))
    end
  else (k, false).

Definition socks5Connect (k : K) (fd : Z) (px : Proxy) (host port : bytes) : K * bool :=
  must k <- sendAll k fd [x05; x02; x00; x02];
  match recvExact k fd 2 with
  | (k, None) => (k, false)
  | (k, Some sel) =>
      if negb (byte_at sel 0 =? 5) then (k, false)
      else
        must k <-
          (if byte_at sel 1 =? 2 then
             must k <- sendAll k fd (auth_request px);
             match recvExact k fd 2 with
             | (k, None) => (k, false)
             | (k, Some ar) => (k, byte_at ar 1 =? 0)
             end
           else (k, byte_at sel 1 =? 0));
        if (255 <? length host)%nat then (k, false)
        else
          must k <- sendAll k fd (connect_request host port);
          match recvExact k fd 4 with
          | (k, None) => (k, false)
          | (k, Some rep) =>
              if negb (byte_at rep 1 =? 0) then (k, false)
              else skip_reply k fd (nth 3 rep x00)
          end
  end.

(** [net::tcpConnect]; host and port are C strings. *)
Definition tcpConnect (k : K) (host port : bytes) (px : Proxy) : K * Z :=
  if negb (px_use px) then tcpDial k (c_str host) (c_str port)
  else
    let '(k, fd) := tcpDial k (c_str (px_host px)) (c_str (px_port px)) in
    if negb (isValid fd) then (k, INVALID)
    else
      match socks5Connect k fd px (c_str host) (c_str port) with
      | (k, true) => (k, fd)
      | (k, false) => (closeSock k fd, INVALID)
      end.

(** ** The network client *)

(** wolfSSL on a socket: what a read or a write gives, and how many calls a
    number of bytes takes at most. *)
Inductive tls_result (X : Type) := TlsSome (x : X) | TlsAgain | TlsClosed | TlsFailed.
Arguments TlsSome {X}. Arguments TlsAgain {X}. Arguments TlsClosed {X}. Arguments TlsFailed {X}.

Class TlsClient (S : Type) := {
  tls_handshake : S -> K -> Z -> bytes -> (S * K) * bool;
  wolf_write : S -> K -> bytes -> (S * K) * tls_result nat;
  wolf_read : S -> K -> nat -> (S * K) * tls_result bytes;
  wolf_calls : S -> nat -> nat;
}.

Context {S : Type} {Tls : TlsClient S}.

(** [TlsSession::sendAll] and [TlsSession::recvExact]. *)
Fixpoint tls_send_loop (fuel : nat) (s : S) (k : K) (data : bytes) : (S * K) * bool :=
  match fuel, data with
  | _, [] => (s, k, true)
  | O, _ => (s, k, false)
  | Datatypes.S fuel, _ =>
      match wolf_write s k data with
      | (s, k, TlsSome n) => tls_send_loop fuel s k (drop n data)
      | (s, k, TlsAgain) => tls_send_loop fuel s k data
      | (s, k, _) => (s, k, false)
      end
  end.

Definition tls_sendAll (s : S) (k : K) (data : bytes) : (S * K) * bool :=
  tls_send_loop (wolf_calls s (length data)) s k data.

Fixpoint tls_recv_loop (fuel : nat) (s : S) (k : K) (len : nat) (got : bytes) : (S * K) * option bytes :=
  match len with
  | O => (s, k, Some got)
  | _ =>
      match fuel with
      | O => (s, k, None)
      | Datatypes.S fuel =>
          match wolf_read s k len with
          | (s, k, TlsSome r) => tls_recv_loop fuel s k (len - length r) (got ++ r)
          | (s, k, TlsAgain) => tls_recv_loop fuel s k len got
          | (s, k, _) => (s, k, None)
          end
      end
  end.

Definition tls_recvExact (s : S) (k : K) (len : nat) : (S * K) * option bytes :=
  tls_recv_loop (wolf_calls s len) s k len [].

(** [NetworkClient]: the sockets of the process, its descriptor and TLS session. *)
Record NetworkClient := {
  sockets : K;
  fd : Z;
  session : S;
  useTls : bool;
  nc_host : bytes;
  nc_port : bytes;
  nc_proxy : Proxy;
}.

Definition with_io (c : NetworkClient) (s : S) (k : K) (fd : Z) : NetworkClient :=
  {| sockets := k; fd := fd; session := s; useTls := useTls c; nc_host := nc_host c;
     nc_port := nc_port c; nc_proxy := nc_proxy c |}.

Definition nc_init (c : NetworkClient) : NetworkClient * bool :=
  let '(k, fd) := tcpConnect (sockets c) (nc_host c) (nc_port c) (nc_proxy c) in
  if negb (isValid fd) then (with_io c (session c) k fd, false)
  else if useTls c then
    match tls_handshake (session c) k fd (nc_host c) with
    | (s, k, true) => (with_io c s k fd, true)
    | (s, k, false) => (with_io c s (closeSock k fd) INVALID, false)
    end
  else (with_io c (session c) k fd, true).

(** [~NetworkClient]. *)
Definition nc_destroy (c : NetworkClient) : NetworkClient :=
  if isValid (fd c) then with_io c (session c) (closeSock (sockets c) (fd c)) INVALID else c.

Definition nc_process (c : NetworkClient) (data : bytes) : NetworkClient * bool :=
  let '(c, sent) :=
    if useTls c then
      let '(s, k, ok) := tls_sendAll (session c) (sockets c) data in (with_io c s k (fd c), ok)
    else let '(k, ok) := sendAll (sockets c) (fd c) data in (with_io c (session c) k (fd c), ok) in
  if negb sent then (with_io c (session c) (closeSock (sockets c) (fd c)) INVALID, false) else (c, true).

Definition nc_recvExact (c : NetworkClient) (len : nat) : NetworkClient * option bytes :=
  if useTls c then
    let '(s, k, r) := tls_recvExact (session c) (sockets c) len in (with_io c s k (fd c), r)
  else let '(k, r) := recvExact (sockets c) (fd c) len in (with_io c (session c) k (fd c), r).

(** [recvSome]: the bytes, the empty string at the end, nothing on an error. *)
Definition nc_recvSome (c : NetworkClient) (len : nat) : NetworkClient * option bytes :=
  if useTls c then
    match wolf_read (session c) (sockets c) len with
    | (s, k, TlsSome r) => (with_io c s k (fd c), Some r)
    | (s, k, TlsClosed) => (with_io c s k (fd c), Some [])
    | (s, k, _) => (with_io c s k (fd c), None)
    end
  else let '(k, r) := sock_recv (sockets c) (fd c) len in (with_io c (session c) k (fd c), r).
End Sockets.

Arguments TlsSome {X}. Arguments TlsAgain {X}. Arguments TlsClosed {X}. Arguments TlsFailed {X}.

(** ** Connected sockets *)

(** On a connection that stands a blocking [send] takes a byte or more and a
    blocking [recv] gives a byte or more of what the peer has sent. *)
Class SockUp (K A : Type) {Ops : SockOps K A} := {
  sk_sent : K -> Z -> bytes;
  sk_inbox : K -> Z -> bytes;
  send_up k fd data : data <> [] -> exists k' w,
    sock_send k fd data = (k', w) /\ 0 < w <= Z.of_nat (length data) /\
    sk_sent k' fd = sk_sent k fd ++ take (Z.to_nat w) data /\ sk_inbox k' fd = sk_inbox k fd;
  recv_up k fd n : (0 < n)%nat -> sk_inbox k fd <> [] -> exists k' m,
    sock_recv k fd n = (k', Some (take m (sk_inbox k fd))) /\ (0 < m <= n)%nat /\
    sk_inbox k' fd = drop m (sk_inbox k fd) /\ sk_sent k' fd = sk_sent k fd;
}.

Section Up.
Context {K A : Type} {Ops : SockOps K A} {Up : SockUp K A}.

Lemma send_loop_up fuel k fd data :
  (length data <= fuel)%nat -> exists k',
    send_loop fuel k fd data = (k', true) /\ sk_sent k' fd = sk_sent k fd ++ data /\ sk_inbox k' fd = sk_inbox k fd.
Proof.
  revert k data. induction fuel as [|fuel IH]; intros k [|b data] Hf;
    try (cbn in Hf; lia); try (exists k; cbn; by rewrite app_nil_r).
  cbn [send_loop]. destruct (send_up k fd (b :: data)) as (k1 & w & -> & Hw & Hs1 & Hi1); [done|].
  rewrite (proj2 (Z.leb_gt w 0)) by lia.
  destruct (IH k1 (drop (Z.to_nat w) (b :: data))) as (k2 & E & Hs2 & Hi2).
  { rewrite length_drop. cbn [length] in *. lia. }
  exists k2. split; [exact E|]. rewrite Hs2, Hs1, Hi2, Hi1, <- app_assoc, take_drop. done.
Qed.

Lemma sendAll_up k fd data : exists k',
  sendAll k fd data = (k', true) /\ sk_sent k' fd = sk_sent k fd ++ data /\ sk_inbox k' fd = sk_inbox k fd.
Proof. by apply send_loop_up. Qed.

Lemma recv_loop_up fuel k fd len got :
  (len <= fuel)%nat -> (len <= length (sk_inbox k fd))%nat -> exists k',
    recv_loop fuel k fd len got = (k', Some (got ++ take len (sk_inbox k fd))) /\
    sk_inbox k' fd = drop len (sk_inbox k fd) /\ sk_sent k' fd = sk_sent k fd.
Proof.
  revert k len got. induction fuel as [|fuel IH]; intros k [|len] got Hf Hl;
    try lia; try (exists k; cbn; by rewrite app_nil_r).
  cbn [recv_loop].
  destruct (recv_up k fd (S len)) as (k1 & m & -> & Hm & Hi1 & Hs1); [lia|intros E; rewrite E in Hl; cbn in Hl; lia|].
  set (inbox := sk_inbox k fd) in *. set (n := (m `min` length inbox)%nat).
  assert (Hlen : length (take m inbox) = n) by (rewrite length_take; done).
  assert (Hdrop : drop m inbox = drop n inbox).
  { unfold n. destruct (decide (m <= length inbox)%nat); [by rewrite Nat.min_l|].
    rewrite Nat.min_r by lia. by rewrite !drop_ge by lia. }
  destruct (take m inbox) as [|b r] eqn:E; [cbn in Hlen; unfold n in Hlen; lia|]. rewrite <- E in *.
  destruct (IH k1 (S len - length (take m inbox))%nat (got ++ take m inbox)) as (k2 & E2 & Hi2 & Hs2).
  { rewrite Hlen. unfold n. lia. }
  { rewrite Hi1, Hlen, length_drop. unfold n. lia. }
  exists k2. rewrite E2, Hi2, Hs2, Hs1, Hi1, Hlen. split_and!; [|rewrite Hdrop, drop_drop; f_equal; unfold n; lia|done].
  rewrite <- app_assoc. do 3 f_equal.
  assert (Htake : take m inbox = take n inbox).
  { unfold n. destruct (decide (m <= length inbox)%nat); [by rewrite Nat.min_l|].
    rewrite Nat.min_r by lia. by rewrite !take_ge by lia. }
  rewrite Htake, Hdrop, take_take_drop. f_equal. unfold n. lia.
Qed.

Lemma recvExact_up k fd len rest_ data :
  length data = len -> sk_inbox k fd = data ++ rest_ -> exists k',
    recvExact k fd len = (k', Some data) /\ sk_inbox k' fd = rest_ /\ sk_sent k' fd = sk_sent k fd.
Proof.
  intros Hl Hi. unfold recvExact. destruct (recv_loop_up len k fd len []) as (k' & E & Hi' & Hs').
  - done.
  - rewrite Hi, length_app. lia.
  - exists k'. rewrite E, Hi', Hs', Hi. by rewrite <- Hl, take_app_length, drop_app_length.
Qed.

(** ** A SOCKS5 server (RFC 1928, RFC 1929) *)

Inductive SocksAddr := Addr4 (a : bytes) | Addr6 (a : bytes) | AddrName (name : bytes).

(** What the server answers: the method, the outcome of the authentication, that
    of the request, and the address it bound. *)
Record SocksServer := {
  ss_method : byte;
  ss_auth : byte;
  ss_reply : byte;
  ss_addr : SocksAddr;
  ss_port : bytes;
}.

Definition addr_ok (a : SocksAddr) : Prop :=
  match a with
  | Addr4 a => length a = 4%nat
  | Addr6 a => length a = 16%nat
  | AddrName n => (length n <= 255)%nat
  end.

Definition addr_bytes (a : SocksAddr) : bytes :=
  match a with
  | Addr4 a => x01 :: a
  | Addr6 a => x04 :: a
  | AddrName n => x03 :: byte_of_size (length n) :: n
  end.

Definition auth_reply (s : SocksServer) : bytes :=
  if bool_decide (ss_method s = x02) then [x01; ss_auth s] else [].

Definition server_replies (s : SocksServer) : bytes :=
  [x05; ss_method s] ++ auth_reply s ++ [x05; ss_reply s; x00] ++ addr_bytes (ss_addr s) ++ ss_port s.

Definition server_accepts (s : SocksServer) : bool :=
  (bool_decide (ss_method s = x00) || bool_decide (ss_method s = x02) && bool_decide (ss_auth s = x00)) &&
  bool_decide (ss_reply s = x00).

Definition greeting : bytes := [x05; x02; x00; x02].

(** All a client sends to a server that accepts it. *)
Definition client_sends (s : SocksServer) (px : Proxy) (host port : bytes) : bytes :=
  greeting ++ (if bool_decide (ss_method s = x02) then auth_request px else []) ++ connect_request host port.

Lemma byte_is b c : (b2z b =? b2z c) = bool_decide (b = c).
Proof.
  destruct (Z.eqb_spec (b2z b) (b2z c)) as [E|E].
  - by rewrite bool_decide_eq_true_2 by by apply b2z_inj.
  - rewrite bool_decide_eq_false_2; [done|]. by intros ->.
Qed.

Lemma skip_reply_up k fd a port rest_ atyp tail :
  addr_ok a -> length port = 2%nat -> addr_bytes a = atyp :: tail ->
  sk_inbox k fd = tail ++ port ++ rest_ -> exists k',
    skip_reply k fd atyp = (k', true) /\ sk_inbox k' fd = rest_ /\ sk_sent k' fd = sk_sent k fd.
Proof.
  intros Ha Hp E Hi. unfold skip_reply. destruct a as [a|a|name]; injection E as <- <-; cbn [addr_ok] in Ha; cbn [b2z Z.eqb Pos.eqb].
  - rewrite app_assoc in Hi. destruct (recvExact_up k fd (4 + 2) rest_ (a ++ port)) as (k' & -> & Hi' & Hs'); eauto.
    rewrite length_app. lia.
  - rewrite app_assoc in Hi. destruct (recvExact_up k fd (16 + 2) rest_ (a ++ port)) as (k' & -> & Hi' & Hs'); eauto.
    rewrite length_app. lia.
  - change (b2z x03) with 3. cbn [Z.eqb Pos.eqb].
    destruct (recvExact_up k fd 1 (name ++ port ++ rest_) [byte_of_size (length name)]) as (k1 & -> & Hi1 & Hs1); [done|done|].
    change (byte_at [byte_of_size (length name)] 0) with (b2z (byte_of_size (length name))).
    unfold byte_of_size. rewrite b2z_z2b_small, Nat2Z.id by lia. rewrite app_assoc in Hi1.
    destruct (recvExact_up k1 fd (length name + 2) rest_ (name ++ port)) as (k' & -> & Hi' & Hs').
    { rewrite length_app. lia. } { done. }
    exists k'. by rewrite Hs', Hs1.
Qed.

Lemma connect_up k fd px host port s rest_ :
  (length host <= 255)%nat -> addr_ok (ss_addr s) -> length (ss_port s) = 2%nat -> server_accepts s = true ->
  sk_inbox k fd = server_replies s ++ rest_ -> exists k',
    socks5Connect k fd px host port = (k', true) /\ sk_inbox k' fd = rest_ /\
    sk_sent k' fd = sk_sent k fd ++ client_sends s px host port.
Proof.
  intros Hhost Haddr Hport Hacc Hi. unfold socks5Connect, client_sends, server_replies in *.
  rewrite <- !app_assoc in Hi. unfold server_accepts in Hacc. apply andb_prop in Hacc as [Hm Hrep].
  apply bool_decide_eq_true in Hrep.
  destruct (sendAll_up k fd greeting) as (k1 & E1 & Hs1 & Hi1). fold greeting. rewrite E1, Hi in *. clear E1 Hi.
  destruct (recvExact_up k1 fd 2 _ [x05; ss_method s] eq_refl Hi1) as (k2 & -> & Hi2 & Hs2). clear Hi1.
  cbn [byte_at nth]. change (byte_at [x05; ss_method s] 0) with 5. cbn [negb Z.eqb].
  change (byte_at [x05; ss_method s] 1) with (b2z (ss_method s)).
  assert (Hauth : exists k3,
    (if b2z (ss_method s) =? 2 then
       must k3 <- sendAll k2 fd (auth_request px);
       match recvExact k3 fd 2 with (k3, None) => (k3, false) | (k3, Some ar) => (k3, byte_at ar 1 =? 0) end
     else (k2, b2z (ss_method s) =? 0)) = (k3, true) /\
    sk_inbox k3 fd = [x05; ss_reply s; x00] ++ addr_bytes (ss_addr s) ++ ss_port s ++ rest_ /\
    sk_sent k3 fd = sk_sent k2 fd ++ (if bool_decide (ss_method s = x02) then auth_request px else [])).
  { change 2 with (b2z x02). change 0 with (b2z x00). rewrite !byte_is. unfold auth_reply in Hi2.
    destruct (bool_decide (ss_method s = x02)) eqn:Em.
    - apply bool_decide_eq_true in Em. rewrite Em in Hm. cbn in Hm. apply bool_decide_eq_true in Hm.
      destruct (sendAll_up k2 fd (auth_request px)) as (k3 & -> & Hs3 & Hi3).
      rewrite Hi2 in Hi3. destruct (recvExact_up k3 fd 2 _ [x01; ss_auth s] eq_refl Hi3) as (k4 & -> & Hi4 & Hs4).
      exists k4. change (byte_at [x01; ss_auth s] 1) with (b2z (ss_auth s)). rewrite Hm, Hs4, Hs3. by split.
    - rewrite orb_false_r in Hm. exists k2. rewrite Hm, app_nil_r. by split. }
  destruct Hauth as (k3 & -> & Hi3 & Hs3). rewrite (proj2 (Nat.ltb_ge 255 (length host))) by done.
  destruct (sendAll_up k3 fd (connect_request host port)) as (k4 & -> & Hs4 & Hi4). rewrite Hi3 in Hi4.
  destruct (addr_bytes (ss_addr s)) as [|atyp tail] eqn:Ea; [by destruct (ss_addr s)|].
  destruct (recvExact_up k4 fd 4 (tail ++ ss_port s ++ rest_) [x05; ss_reply s; x00; atyp] eq_refl Hi4)
    as (k5 & -> & Hi5 & Hs5).
  change (byte_at [x05; ss_reply s; x00; atyp] 1) with (b2z (ss_reply s)). rewrite Hrep. cbn [negb Z.eqb nth].
  destruct (skip_reply_up k5 fd (ss_addr s) (ss_port s) rest_ atyp tail Haddr Hport Ea Hi5) as (k6 & -> & Hi6 & Hs6).
  exists k6. split_and!; [done|done|]. by rewrite Hs6, Hs5, Hs4, Hs3, Hs2, Hs1, <- !app_assoc.
Qed.

(** ** What the proxy reads *)

(** RFC 1929: version, length and name, length and password. *)
Definition read_auth (b : bytes) : option (bytes * bytes * bytes) :=
  match b with
  | v :: ul :: b =>
      let u := Z.to_nat (b2z ul) in
      match drop u b with
      | pl :: b' =>
          let p := Z.to_nat (b2z pl) in
          if bool_decide (v = x01) && (u <=? length b)%nat && (p <=? length b')%nat
          then Some (take u b, take p b', drop p b') else None
      | [] => None
      end
  | _ => None
  end.

(** RFC 1928: a CONNECT request with a domain name. *)
Definition read_connect (b : bytes) : option (bytes * Z * bytes) :=
  match b with
  | v :: cmd :: rsv :: atyp :: hl :: b =>
      let h := Z.to_nat (b2z hl) in
      match drop h b with
      | p1 :: p0 :: b' =>
          if bool_decide (v = x05) && bool_decide (cmd = x01) && bool_decide (atyp = x03) && (h <=? length b)%nat
          then Some (take h b, 256 * b2z p1 + b2z p0, b') else None
      | _ => None
      end
  | _ => None
  end.

Lemma read_auth_request px rest_ :
  (length (px_user px) <= 255)%nat -> (length (px_pass px) <= 255)%nat ->
  read_auth (auth_request px ++ rest_) = Some (px_user px, px_pass px, rest_).
Proof.
  intros Hu Hp. unfold auth_request, byte_of_size. rewrite <- !app_assoc. cbn [app read_auth].
  rewrite b2z_z2b_small, Nat2Z.id by lia. rewrite drop_app_length. cbn [app].
  rewrite b2z_z2b_small, Nat2Z.id by lia. rewrite bool_decide_eq_true_2 by done.
  rewrite !length_app, !take_app_length, drop_app_length.
  by rewrite !(proj2 (Nat.leb_le _ _)) by (cbn; lia).
Qed.

Lemma read_connect_request host port rest_ :
  (length host <= 255)%nat -> is_word 16 port ->
  read_connect (connect_request host (to_string port) ++ rest_) = Some (host, port, rest_).
Proof.
  intros Hh Hp. unfold connect_request, byte_of_size. rewrite <- !app_assoc. cbn [app read_connect].
  rewrite b2z_z2b_small, Nat2Z.id by lia. rewrite drop_app_length. cbn [app].
  rewrite !bool_decide_eq_true_2 by done. rewrite !length_app, take_app_length.
  rewrite (proj2 (Nat.leb_le _ _)) by lia. cbn [andb].
  assert (Eport : port16 (to_string port) = port).
  { unfold port16. unfold is_word in Hp. pose proof (to_string_atoi port [] ltac:(lia)) as E.
    rewrite app_nil_r in E. rewrite E by done. by apply wrap_small. }
  rewrite Eport. do 3 f_equal. unfold is_word in Hp.
  change 0xff with (Z.ones 8). rewrite land_ones_wrap, Z.shiftr_div_pow2 by lia. unfold wrap.
  rewrite !b2z_z2b. change (2 ^ 8) with 256 in *. change (2 ^ 16) with 65536 in Hp. zdm.
Qed.

(** C21: behind a SOCKS5 proxy that accepts, the client connects and its stream
    starts right behind the proxy's replies, whatever the form and length of the
    bound address and however the replies are cut into segments; a conforming
    proxy reads the configured user, password, host and port out of what it was
    sent. *)
Theorem socks5_connects (k : K) (fd : Z) (px : Proxy) (host : bytes) (port : Z) (s : SocksServer) (rest_ : bytes) :
  (length host <= 255)%nat -> is_word 16 port ->
  (length (px_user px) <= 255)%nat -> (length (px_pass px) <= 255)%nat ->
  addr_ok (ss_addr s) -> length (ss_port s) = 2%nat -> server_accepts s = true ->
  sk_inbox k fd = server_replies s ++ rest_ -> exists k' auth request,
    socks5Connect k fd px host (to_string port) = (k', true) /\ sk_inbox k' fd = rest_ /\
    sk_sent k' fd = sk_sent k fd ++ greeting ++ auth ++ request /\
    (ss_method s = x02 -> read_auth auth = Some (px_user px, px_pass px, [])) /\
    (ss_method s <> x02 -> auth = []) /\
    read_connect request = Some (host, port, []).
Proof.
  intros Hhost Hport Hu Hp Ha Hpl Hacc Hi.
  destruct (connect_up k fd px host (to_string port) s rest_) as (k' & E & Hi' & Hs'); try done.
  exists k', (if bool_decide (ss_method s = x02) then auth_request px else []), (connect_request host (to_string port)).
  split_and!; try done.
  - intros Hm. rewrite bool_decide_eq_true_2 by done. pose proof (read_auth_request px [] Hu Hp) as H.
    by rewrite app_nil_r in H.
  - intros Hm. by rewrite bool_decide_eq_false_2.
  - pose proof (read_connect_request host port [] Hhost Hport) as H. by rewrite app_nil_r in H.
Qed.
End Up.

(** A name of 256 bytes is announced with the length 0: the proxy takes its first
    byte for the length of the password. *)
Lemma long_user_misread (pass rest_ : bytes) :
  let px := {| px_use := true; px_host := str "h"; px_port := str "1"; px_user := repeat x61 256; px_pass := pass |} in
  read_auth (auth_request px ++ rest_) = Some ([], repeat x61 97, repeat x61 158 ++ [byte_of_size (length pass)] ++ pass ++ rest_).
Proof.
  intros px. unfold auth_request, px, px_user, px_pass. change (byte_of_size (length (repeat x61 256))) with x00.
  change (repeat x61 256) with (x61 :: repeat x61 97 ++ repeat x61 158). rewrite <- !app_assoc.
  cbn [app read_auth]. change (Z.to_nat (b2z x00)) with 0%nat. rewrite drop_0.
  change (Z.to_nat (b2z x61)) with (length (repeat x61 97)). rewrite bool_decide_eq_true_2 by done.
  cbn [Nat.leb andb]. rewrite <- !app_assoc, length_app, take_app_length, drop_app_length.
  by rewrite (proj2 (Nat.leb_le _ _)) by lia.
Qed.

(** ** Descriptors *)

(** Which descriptors are open: [socket] gives one that was not, [close] takes it
    away, nothing else touches them. *)
Class SockFds (K A : Type) {Ops : SockOps K A} := {
  fds : K -> gset Z;
  socket_fds k a k' fd : sock_socket k a = (k', fd) ->
    if isValid fd then fd ∉ fds k /\ fds k' = {[fd]} ∪ fds k else fds k' = fds k;
  blocking_fds k fd b : fds (sock_set_blocking k fd b) = fds k;
  connect_fds k fd a : fds (sock_connect k fd a).1 = fds k;
  select_fds k fd n : fds (sock_select k fd n).1 = fds k;
  send_fds k fd data : fds (sock_send k fd data).1 = fds k;
  recv_fds k fd n : fds (sock_recv k fd n).1 = fds k;
  close_fds k fd : fds (sock_close k fd) = fds k ∖ {[fd]};
}.

Section Fds.
Context {K A : Type} {Ops : SockOps K A} {Fds : SockFds K A}.

Lemma send_loop_fds fuel k fd data : fds (send_loop fuel k fd data).1 = fds k.
Proof.
  revert k data. induction fuel as [|fuel IH]; intros k [|b data]; try done. cbn [send_loop].
  pose proof (send_fds k fd (b :: data)) as H. destruct (sock_send _ _ _) as [k1 w]. cbn in H.
  destruct (w <=? 0); [done|]. by rewrite IH.
Qed.

Lemma recv_loop_fds fuel k fd len got : fds (recv_loop fuel k fd len got).1 = fds k.
Proof.
  revert k len got. induction fuel as [|fuel IH]; intros k [|len] got; try done. cbn [recv_loop].
  pose proof (recv_fds k fd (S len)) as H. destruct (sock_recv _ _ _) as [k1 [[|b r]|]]; try done.
  by rewrite IH.
Qed.

Lemma must_fds (k : K) (e : K * bool) (f : K -> K * bool) :
  fds e.1 = fds k -> (forall k', fds (f k').1 = fds k') -> fds (must k' <- e; f k').1 = fds k.
Proof. destruct e as [k1 [|]]; cbn; intros H Hf; [|done]. by rewrite Hf. Qed.

Lemma recvExact_fds {X} k fd n (some : K -> bytes -> K * X) (none : K -> K * X) :
  (forall k' r, fds (some k' r).1 = fds k') -> (forall k', fds (none k').1 = fds k') ->
  fds (match recvExact k fd n with (k', None) => none k' | (k', Some r) => some k' r end).1 = fds k.
Proof.
  intros H1 H2. pose proof (recv_loop_fds n k fd n []) as H. fold (recvExact k fd n) in H.
  destruct (recvExact k fd n) as [k1 [r|]]; cbn in H; [by rewrite H1|by rewrite H2].
Qed.

Lemma skip_reply_fds k fd atyp : fds (skip_reply k fd atyp).1 = fds k.
Proof.
  assert (Hdrain : forall k n,
    fds (match recvExact k fd n with (k, Some _) => (k, true) | (k, None) => (k, false) end).1 = fds k).
  { intros k' n. apply (recvExact_fds k' fd n (fun k _ => (k, true)) (fun k => (k, false))); done. }
  unfold skip_reply. destruct (_ =? 1); [apply Hdrain|]. destruct (_ =? 4); [apply Hdrain|].
  destruct (_ =? 3); [|done].
  apply (recvExact_fds k fd 1 (fun k l => _) (fun k => (k, false))); [|done]. intros k' l. apply Hdrain.
Qed.

Lemma socks_fds k fd px host port : fds (socks5Connect k fd px host port).1 = fds k.
Proof.
  unfold socks5Connect. apply must_fds; [apply send_loop_fds|]. intros k1.
  apply (recvExact_fds k1 fd 2 (fun k sel => _) (fun k => (k, false))); [|done]. intros k2 sel.
  destruct (negb _); [done|]. apply must_fds.
  - destruct (_ =? 2); [|done]. apply must_fds; [apply send_loop_fds|]. intros k3.
    by apply (recvExact_fds k3 fd 2 (fun k ar => (k, byte_at ar 1 =? 0)) (fun k => (k, false))).
  - intros k3. destruct (255 <? length host)%nat; [done|]. apply must_fds; [apply send_loop_fds|]. intros k4.
    apply (recvExact_fds k4 fd 4 (fun k rep => _) (fun k => (k, false))); [|done]. intros k5 rep.
    destruct (negb _); [done|]. apply skip_reply_fds.
Qed.

Lemma connectTimeout_fds k fd a secs : fds (connectTimeout k fd a secs).1 = fds k.
Proof.
  unfold connectTimeout. pose proof (connect_fds (sock_set_blocking k fd false) fd a) as H1.
  rewrite blocking_fds in H1. destruct (sock_connect _ _ _) as [k1 rc]. cbn in H1.
  destruct (rc =? 0); [cbn; by rewrite blocking_fds|]. destruct (negb _); [done|].
  pose proof (select_fds k1 fd secs) as H2. destruct (sock_select _ _ _) as [k2 rc2]. cbn in H2.
  destruct (rc2 <=? 0); [cbn; congruence|]. destruct (negb _); cbn; rewrite ?blocking_fds; congruence.
Qed.

(** A function that gives a new descriptor, or an invalid one and leaves none. *)
Definition gives_fd (k : K) (r : K * Z) : Prop :=
  if isValid r.2 then r.2 ∉ fds k /\ fds r.1 = {[r.2]} ∪ fds k else fds r.1 = fds k.

Lemma close_new k k1 fd : fd ∉ fds k -> fds k1 = {[fd]} ∪ fds k -> isValid fd = true -> fds (closeSock k1 fd) = fds k.
Proof. intros Hn Hk Hv. unfold closeSock. rewrite Hv, close_fds, Hk. set_solver. Qed.

Lemma dial_loop_fds k addrs secs : gives_fd k (dial_loop k addrs secs).
Proof.
  revert k. induction addrs as [|a addrs IH]; intros k; [done|]. cbn [dial_loop].
  destruct (sock_socket k a) as [k1 fd] eqn:Es. apply socket_fds in Es. destruct (isValid fd) eqn:Ev; cbn [negb].
  - destruct Es as [Hn Hk]. pose proof (connectTimeout_fds k1 fd a secs) as Hc.
    destruct (connectTimeout k1 fd a secs) as [k2 [|]]; cbn in Hc.
    + unfold gives_fd. cbn. rewrite Ev. split; [done|]. congruence.
    + assert (E : fds (closeSock k2 fd) = fds k) by (apply close_new; [done|congruence|done]).
      specialize (IH (closeSock k2 fd)). unfold gives_fd in *. by rewrite E in IH.
  - specialize (IH k1). unfold gives_fd in *. by rewrite Es in IH.
Qed.

Lemma tcpDial_fds k host port : gives_fd k (tcpDial k host port).
Proof.
  unfold tcpDial. destruct (sock_resolve k host port) as [[|a addrs]|]; [done| |done]. apply dial_loop_fds.
Qed.

Lemma tcpConnect_fds k host port px : gives_fd k (tcpConnect k host port px).
Proof.
  unfold tcpConnect. destruct (px_use px); cbn [negb]; [|apply tcpDial_fds].
  pose proof (tcpDial_fds k (c_str (px_host px)) (c_str (px_port px))) as H.
  destruct (tcpDial k _ _) as [k1 fd]. unfold gives_fd in H. cbn in H.
  destruct (isValid fd) eqn:Ev; cbn [negb]; [|exact H]. destruct H as [Hn Hk].
  pose proof (socks_fds k1 fd px (c_str host) (c_str port)) as Hs.
  destruct (socks5Connect k1 fd px (c_str host) (c_str port)) as [k2 [|]]; cbn in Hs; unfold gives_fd; cbn.
  - rewrite Ev. split; [done|]. congruence.
  - apply close_new; [done|congruence|done].
Qed.

Context {S : Type} {Tls : TlsClient (K := K) S}.
Hypothesis handshake_fds : forall s k fd host, fds (tls_handshake s k fd host).1.2 = fds k.

(** C22: the network client leaks no descriptor: a connection that is made adds
    exactly the client's own, one that fails (to resolve, to connect to any of
    the addresses, behind the proxy, in the TLS handshake) adds none, and
    destroying the client gives it back. *)
Theorem network_client_no_leak (c c' : NetworkClient (K := K) (S := S)) (ok : bool) :
  nc_init c = (c', ok) ->
  (ok = true -> isValid (fd c') = true /\ fd c' ∉ fds (sockets c) /\ fds (sockets c') = {[fd c']} ∪ fds (sockets c)) /\
  (ok = false -> isValid (fd c') = false /\ fds (sockets c') = fds (sockets c)) /\
  fds (sockets (nc_destroy c')) = fds (sockets c).
Proof using All.
  unfold nc_init. pose proof (tcpConnect_fds (sockets c) (nc_host c) (nc_port c) (nc_proxy c)) as H.
  destruct (tcpConnect _ _ _ _) as [k fd0]. unfold gives_fd in H. cbn in H.
  assert (Hdone : forall s k', fds k' = {[fd0]} ∪ fds (sockets c) -> fd0 ∉ fds (sockets c) -> isValid fd0 = true ->
    fds (sockets (nc_destroy (with_io c s k' fd0))) = fds (sockets c)).
  { intros s k' Hk Hn Hv. unfold nc_destroy. cbn [Net.fd with_io]. rewrite Hv. cbn. by apply close_new. }
  destruct (isValid fd0) eqn:Ev; cbn [negb].
  - destruct H as [Hn Hk]. destruct (useTls c).
    + pose proof (handshake_fds (session c) k fd0 (nc_host c)) as Hh.
      destruct (tls_handshake _ _ _ _) as [[s k1] [|]]; cbn in Hh; intros [= <- <-]; cbn.
      * split_and!; [intros _; by rewrite Hh|done|]. apply Hdone; [by rewrite Hh|done|done].
      * assert (E : fds (closeSock k1 fd0) = fds (sockets c)) by (apply close_new; [done|by rewrite Hh|done]).
        by split_and!.
    + intros [= <- <-]. cbn. split_and!; [done|done|]. by apply Hdone.
  - intros [= <- <-]. unfold nc_destroy. cbn. rewrite Ev. by split_and!.
Qed.
End Fds.

(** ** A concrete network *)

(** One peer that has sent [mn_inbox]; at most three bytes go through a call. *)
Record MemNet := { mn_fds : gset Z; mn_sent : bytes; mn_inbox : bytes }.

Definition mn_open (k : MemNet) : MemNet * Z :=
  let fd := Z.of_nat (size (mn_fds k)) in
  if bool_decide (fd ∈ mn_fds k) then (k, INVALID)
  else ({| mn_fds := {[fd]} ∪ mn_fds k; mn_sent := mn_sent k; mn_inbox := mn_inbox k |}, fd).

#[export] Instance mem_net : SockOps MemNet unit := {
  sock_resolve k host port := Some [tt];
  sock_socket k a := mn_open k;
  sock_set_blocking k fd b := k;
  sock_connect k fd a := (k, 0);
  sock_in_progress k := false;
  sock_select k fd n := (k, 0);
  sock_error k fd := 0;
  sock_send k fd data :=
    ({| mn_fds := mn_fds k; mn_sent := mn_sent k ++ take 3 data; mn_inbox := mn_inbox k |},
     Z.of_nat (length (take 3 data)));
  sock_recv k fd n :=
    ({| mn_fds := mn_fds k; mn_sent := mn_sent k; mn_inbox := drop (Nat.min 3 n) (mn_inbox k) |},
     Some (take (Nat.min 3 n) (mn_inbox k)));
  sock_close k fd := {| mn_fds := mn_fds k ∖ {[fd]}; mn_sent := mn_sent k; mn_inbox := mn_inbox k |};
}.

#[export] Instance mem_net_up : SockUp MemNet unit.
Proof.
  refine {| sk_sent k fd := mn_sent k; sk_inbox k fd := mn_inbox k |}.
  - intros k fd data Hd. do 2 eexists. split; [reflexivity|]. rewrite length_take.
    split; [destruct data; [done|cbn [length]; lia]|].
    change (mn_sent k ++ take 3 data = mn_sent k ++ take (Z.to_nat (Z.of_nat (3 `min` length data))) data /\ mn_inbox k = mn_inbox k).
    rewrite Nat2Z.id. split; [|done]. f_equal.
    destruct (decide (3 <= length data)%nat); [by rewrite Nat.min_l|].
    rewrite Nat.min_r by lia. by rewrite !take_ge by lia.
  - intros k fd n Hn Hi. do 2 eexists. split; [reflexivity|]. split_and!; [lia|lia|done|done].
Defined.

#[export] Instance mem_net_fds : SockFds MemNet unit.
Proof.
  refine {| fds := mn_fds |}; try done.
  intros k a k' fd E. cbn in E. unfold mn_open in E. case_bool_decide as Hin; injection E as <- <-; [done|].
  unfold isValid. by rewrite (proj2 (Z.leb_le _ _)) by lia.
Defined.

#[export] Instance plain_tls : TlsClient (K := MemNet) unit := {
  tls_handshake s k fd host := (s, k, true);
  wolf_write s k data := let '(k, n) := sock_send k 0 data in (s, k, TlsSome (Z.to_nat n));
  wolf_read s k n :=
    match sock_recv k 0 n with
    | (k, Some []) => (s, k, TlsClosed)
    | (k, Some r) => (s, k, TlsSome r)
    | (k, None) => (s, k, TlsFailed)
    end;
  wolf_calls s n := n;
}.

Definition demo_proxy : Proxy :=
  {| px_use := true; px_host := str "p"; px_port := str "1080"; px_user := str "me"; px_pass := str "pw" |}.
Definition demo_server : SocksServer :=
  {| ss_method := x02; ss_auth := x00; ss_reply := x00; ss_addr := AddrName (str "exit"); ss_port := [x04; x38] |}.
Definition demo_net : MemNet :=
  {| mn_fds := {[0]}; mn_sent := []; mn_inbox := server_replies demo_server ++ str "DKR1" |}.

Lemma socks5_connects_witness : exists k' auth request,
  socks5Connect demo_net 1 demo_proxy (str "host") (to_string 5959) = (k', true) /\ sk_inbox k' 1 = str "DKR1" /\
  sk_sent k' 1 = sk_sent demo_net 1 ++ greeting ++ auth ++ request /\
  (ss_method demo_server = x02 -> read_auth auth = Some (px_user demo_proxy, px_pass demo_proxy, [])) /\
  (ss_method demo_server <> x02 -> auth = []) /\
  read_connect request = Some (str "host", 5959, []).
Proof.
  apply (socks5_connects demo_net 1 demo_proxy (str "host") 5959 demo_server (str "DKR1"));
    [cbn; lia|split; lia|cbn; lia|cbn; lia|cbn; lia|done|done|done].
Defined.

Definition demo_client : NetworkClient (K := MemNet) (S := unit) :=
  {| sockets := demo_net; fd := INVALID; session := tt; useTls := true; nc_host := str "host";
     nc_port := str "5959"; nc_proxy := demo_proxy |}.

Lemma network_client_no_leak_witness :
  let '(c', ok) := nc_init demo_client in
  (ok = true -> isValid (fd c') = true /\ fd c' ∉ fds (sockets demo_client) /\
     fds (sockets c') = {[fd c']} ∪ fds (sockets demo_client)) /\
  (ok = false -> isValid (fd c') = false /\ fds (sockets c') = fds (sockets demo_client)) /\
  fds (sockets (nc_destroy c')) = fds (sockets demo_client).
Proof.
  destruct (nc_init demo_client) as [c' ok] eqn:E.
  apply (network_client_no_leak (Tls := plain_tls) (fun s k _ _ => eq_refl (fds k)) demo_client c' ok E).
Defined.

Example demo_connected : (nc_init demo_client).2 = true.
Proof. by vm_compute. Qed.
