(* ===== verification/NetClient.v ===== *)
(** * NetClient: the worker's network over sockets ([client/net.h])

    [Worker] and [EndToEnd] see the network as the class [NetOps], and ask of it
    [NetUp]. [NetworkClient] is an instance, over a socket and through TLS. The
    queue in front of the network thread keeps the order and is drained here at
    once. *)

From S2P Require Import Prelude Worker EndToEnd Net.

Section Client.
Context {K A : Type} {Ops : SockOps K A} {S : Type} {Tls : TlsClient (K := K) S}.

#[export] Instance client_net : NetOps (NetworkClient (K := K) (S := S)) := {
  net_connect := nc_init;
  enqueue := nc_process;
  await := nc_process;
  recvExact := nc_recvExact;
}.

(** A session that stands: each call gets through a byte or more of what it is
    given, or of what the peer has sent. *)
Class TlsUp := {
  tls_sent : S -> K -> bytes;
  tls_inbox : S -> K -> bytes;
  wolf_calls_up s n : (n <= wolf_calls s n)%nat;
  wolf_write_up s k data : data <> [] -> exists s' k' n,
    wolf_write s k data = (s', k', TlsSome n) /\ (0 < n <= length data)%nat /\
    tls_sent s' k' = tls_sent s k ++ take n data /\ tls_inbox s' k' = tls_inbox s k;
  wolf_read_up s k n : (0 < n)%nat -> tls_inbox s k <> [] -> exists s' k' m,
    wolf_read s k n = (s', k', TlsSome (take m (tls_inbox s k))) /\ (0 < m <= n)%nat /\
    (m <= length (tls_inbox s k))%nat /\
    tls_inbox s' k' = drop m (tls_inbox s k) /\ tls_sent s' k' = tls_sent s k;
}.

Context {Up : SockUp K A} {Tup : TlsUp}.

Lemma tls_send_up fuel s k data :
  (length data <= fuel)%nat -> exists s' k', tls_send_loop fuel s k data = (s', k', true) /\
    tls_sent s' k' = tls_sent s k ++ data /\ tls_inbox s' k' = tls_inbox s k.
Proof.
  revert s k data. induction fuel as [|fuel IH]; intros s k [|b data] Hf;
    try (cbn in Hf; lia); try (exists s, k; cbn; by rewrite app_nil_r).
  cbn [tls_send_loop]. destruct (wolf_write_up s k (b :: data)) as (s1 & k1 & n & -> & Hn & Hs1 & Hi1); [done|].
  destruct (IH s1 k1 (drop n (b :: data))) as (s2 & k2 & E & Hs2 & Hi2).
  { rewrite length_drop. cbn [length] in *. lia. }
  exists s2, k2. split; [exact E|]. by rewrite Hs2, Hs1, Hi2, Hi1, <- app_assoc, take_drop.
Qed.

Lemma tls_recv_up fuel s k len got :
  (len <= fuel)%nat -> (len <= length (tls_inbox s k))%nat -> exists s' k',
    tls_recv_loop fuel s k len got = (s', k', Some (got ++ take len (tls_inbox s k))) /\
    tls_inbox s' k' = drop len (tls_inbox s k) /\ tls_sent s' k' = tls_sent s k.
Proof.
  revert s k len got. induction fuel as [|fuel IH]; intros s k [|len] got Hf Hl;
    try lia; try (exists s, k; cbn; by rewrite app_nil_r).
  cbn [tls_recv_loop].
  destruct (wolf_read_up s k (Datatypes.S len)) as (s1 & k1 & m & -> & Hm & Hml & Hi1 & Hs1);
    [lia|intros E; rewrite E in Hl; cbn in Hl; lia|].
  set (inbox := tls_inbox s k) in *. assert (Hlen : length (take m inbox) = m) by (rewrite length_take; lia).
  destruct (IH s1 k1 (Datatypes.S len - length (take m inbox))%nat (got ++ take m inbox)) as (s2 & k2 & E2 & Hi2 & Hs2).
  { rewrite Hlen. lia. }
  { rewrite Hi1, Hlen, length_drop. lia. }
  exists s2, k2. rewrite E2, Hi2, Hs2, Hs1, Hi1, Hlen. split_and!; [|rewrite drop_drop; f_equal; lia|done].
  rewrite <- app_assoc, take_take_drop. do 5 f_equal. lia.
Qed.

Definition client_sent (c : NetworkClient) : bytes :=
  if useTls c then tls_sent (session c) (sockets c) else sk_sent (sockets c) (fd c).
Definition client_inbox (c : NetworkClient) : bytes :=
  if useTls c then tls_inbox (session c) (sockets c) else sk_inbox (sockets c) (fd c).

Lemma process_up (c : NetworkClient) data : exists c', nc_process c data = (c', true) /\
  client_sent c' = client_sent c ++ data /\ client_inbox c' = client_inbox c.
Proof.
  unfold nc_process, client_sent, client_inbox. destruct (useTls c) eqn:Et.
  - destruct (tls_send_up (wolf_calls (session c) (length data)) (session c) (sockets c) data)
      as (s' & k' & E & Hs & Hi); [apply wolf_calls_up|].
    unfold tls_sendAll. rewrite E. eexists. split; [reflexivity|]. cbn. by rewrite Et, Hs, Hi.
  - destruct (sendAll_up (sockets c) (fd c) data) as (k' & E & Hs & Hi). rewrite E.
    eexists. split; [reflexivity|]. cbn. by rewrite Et, Hs, Hi.
Qed.

(** So [upload_session_stored] and its like hold of a client on sockets. *)
#[export] Instance client_up : NetUp (NetworkClient (K := K) (S := S)).
Proof.
  refine {| net_sent := client_sent; net_inbox := client_inbox |}.
  - exact process_up.
  - exact process_up.
  - intros c n Hn. unfold client_inbox, client_sent in *. cbn [Worker.recvExact client_net]. unfold nc_recvExact.
    destruct (useTls c) eqn:Et.
    + destruct (tls_recv_up (wolf_calls (session c) n) (session c) (sockets c) n [])
        as (s' & k' & E & Hi & Hs); [apply wolf_calls_up|done|].
      unfold tls_recvExact. rewrite E. eexists. split; [reflexivity|]. cbn. by rewrite Et, Hi, Hs.
    + destruct (recv_loop_up n (sockets c) (fd c) n []) as (k' & E & Hi & Hs); [done|done|].
      unfold Net.recvExact. rewrite E. eexists. split; [reflexivity|]. cbn. by rewrite Et, Hi, Hs.
Defined.
End Client.
