(* ===== verification/Contexts.v ===== *)
(** * Contexts: the objects that wrap a C library's state
      (decompressor.cxx, zstd_decompressor.cxx, lz4_decompressor.cxx and
      tls_layer.cxx under src/server/; compressor.h, tls.h and the constructor of
      scheduler.h under src/client/)

    What the constructors, destructors and factories around zstd, lz4 and
    wolfSSL do with the contexts of these libraries. A context is a pointer the
    library has given out and not got back; the libraries are the class
    [CtxOps], and [CtxLaws] states what they document about that, for pointers
    that are used while they are live. The theorems say that everything is given
    back, once, on every path. The I/O callbacks wolfSSL is given are here too. *)

From S2P Require Import Prelude Protocol Net.

Inductive CtxKind := ZstdDecode | Lz4Decode | ZstdEncode | Lz4Encode | WolfContext | WolfObject.

#[global] Instance ctx_kind_eq_dec : EqDecision CtxKind.
Proof. solve_decision. Defined.

#[global] Instance ctx_kind_countable : Countable CtxKind.
Proof.
  refine (inj_countable' (fun k => match k with ZstdDecode => 0 | Lz4Decode => 1 | ZstdEncode => 2 | Lz4Encode => 3
                                   | WolfContext => 4 | WolfObject => 5 end)%nat
    (fun n => match n with 0 => ZstdDecode | 1 => Lz4Decode | 2 => ZstdEncode | 3 => Lz4Encode
              | 4 => WolfContext | _ => WolfObject end)%nat _).
  by intros [].
Defined.

(** What is set on a context after its creation. *)
Inductive CtxCall :=
  | SetWindowLogMax (v : Z) | SetCompressionLevel (v : Z)
  | UseCertificate | UsePrivateKey | SetVerifyNone | SetIORecv | SetIOSend
  | SetIOReadCtx | SetIOWriteCtx | UseSNI (name : bytes) | WolfConnect.

Class CtxOps (W : Type) := {
  ctx_create : CtxKind -> W -> W * option Z;        (** [None]: a null pointer, an error code *)
  ssl_new : Z -> W -> W * option Z;                 (** [wolfSSL_new] of a context *)
  ctx_call : CtxCall -> CtxKind -> Z -> W -> W * bool;  (** false: not the success code *)
  ctx_free : CtxKind -> Z -> W -> W;
}.

Class CtxLaws (W : Type) {Ops : CtxOps W} := {
  live : W -> gset (CtxKind * Z);
  create_live kind w w' p : ctx_create kind w = (w', Some p) ->
    (kind, p) ∉ live w /\ live w' = {[(kind, p)]} ∪ live w;
  create_null kind w w' : ctx_create kind w = (w', None) -> live w' = live w;
  ssl_new_live ctx w w' p : (WolfContext, ctx) ∈ live w -> ssl_new ctx w = (w', Some p) ->
    (WolfObject, p) ∉ live w /\ live w' = {[(WolfObject, p)]} ∪ live w;
  ssl_new_null ctx w w' : (WolfContext, ctx) ∈ live w -> ssl_new ctx w = (w', None) -> live w' = live w;
  call_live c kind p w : (kind, p) ∈ live w -> live (ctx_call c kind p w).1 = live w;
  free_live kind p w : (kind, p) ∈ live w -> live (ctx_free kind p w) = live w ∖ {[(kind, p)]};
}.

(** ** The definitions *)

Definition kWindowLogMax : Z := 31.

Section Objects.
Context {W : Type} {Ops : CtxOps W}.

(** [if (context != nullptr) free(context)]. *)
Definition free_if (kind : CtxKind) (context : option Z) (w : W) : W :=
  match context with Some p => ctx_free kind p w | None => w end.

(** *** Decompressors *)

Inductive Decoder :=
  | ZstdDecompressor (context_ : option Z)
  | Lz4Decompressor (context_ : option Z) (valid_ : bool).

Definition new_zstd_decompressor (w : W) : W * Decoder :=
  let '(w, context_) := ctx_create ZstdDecode w in
  match context_ with
  | Some p => ((ctx_call (SetWindowLogMax kWindowLogMax) ZstdDecode p w).1, ZstdDecompressor context_)
  | None => (w, ZstdDecompressor context_)
  end.

Definition new_lz4_decompressor (w : W) : W * Decoder :=
  let '(w, context_) := ctx_create Lz4Decode w in
  (w, Lz4Decompressor context_ (bool_decide (is_Some context_))).

Definition decoder_valid (d : Decoder) : bool :=
  match d with
  | ZstdDecompressor context_ => bool_decide (is_Some context_)
  | Lz4Decompressor _ valid_ => valid_
  end.

Definition free_decoder (d : Decoder) (w : W) : W :=
  match d with
  | ZstdDecompressor context_ => free_if ZstdDecode context_ w
  | Lz4Decompressor context_ _ => free_if Lz4Decode context_ w
  end.

(** [make_unique], and where the object is not valid it goes at once. *)
Definition make_valid (made : W * Decoder) : W * option Decoder :=
  let '(w, d) := made in
  if negb (decoder_valid d) then (free_decoder d w, None) else (w, Some d).

Definition make_zstd_decompressor (w : W) : W * option Decoder := make_valid (new_zstd_decompressor w).
Definition make_lz4_decompressor (w : W) : W * option Decoder := make_valid (new_lz4_decompressor w).

(** A byte that is no algorithm falls through the switch. *)
Definition make_decompressor (algo : option CompressionAlgo) (w : W) : W * option Decoder :=
  match algo with
  | Some Lz4 => make_lz4_decompressor w
  | Some Zstd => make_zstd_decompressor w
  | _ => (w, None)
  end.

(** *** Compressors *)

Inductive Encoder :=
  | ZstdCompressor (cctx : Z)
  | Lz4Compressor (cctx : Z) (started : bool).

(** What a factory gives: an object, a null pointer, or an exception. *)
Inductive Made :=
  | MadeOf (c : Encoder)
  | MadeNull
  | Thrown.

Definition new_zstd_compressor (w : W) : W * Made :=
  let '(w, cctx) := ctx_create ZstdEncode w in
  match cctx with
  | None => (w, Thrown)
  | Some p => ((ctx_call (SetCompressionLevel 3) ZstdEncode p w).1, MadeOf (ZstdCompressor p))
  end.

Definition new_lz4_compressor (w : W) : W * Made :=
  let '(w, cctx) := ctx_create Lz4Encode w in
  match cctx with
  | None => (w, Thrown)
  | Some p => (w, MadeOf (Lz4Compressor p false))
  end.

Definition free_encoder (c : Encoder) (w : W) : W :=
  match c with
  | ZstdCompressor cctx => ctx_free ZstdEncode cctx w
  | Lz4Compressor cctx _ => ctx_free Lz4Encode cctx w
  end.

Definition makeCompressor (algo : CompressionAlgo) (w : W) : W * Made :=
  match algo with
  | Lz4 => new_lz4_compressor w
  | Zstd => new_zstd_compressor w
  | AlgoNone => (w, MadeNull)
  end.

(** The workers of [Scheduler::Scheduler], each with its compressor, or null.
    Where one throws, those made before it go with the vector. *)
Definition free_workers (ws : list (option Encoder)) (w : W) : W :=
  fold_left (fun w c => match c with Some c => free_encoder c w | None => w end) ws w.

Fixpoint make_workers (n : nat) (algo : CompressionAlgo) (made : list (option Encoder)) (w : W) :
  W * option (list (option Encoder)) :=
  match n with
  | O => (w, Some made)
  | S n =>
      match makeCompressor algo w with
      | (w, MadeOf c) => make_workers n algo (made ++ [Some c]) w
      | (w, MadeNull) => make_workers n algo (made ++ [None]) w
      | (w, Thrown) => (free_workers made w, None)
      end
  end.

(** *** TLS *)

Record TlsPair := { ctx : option Z; ssl : option Z }.

Definition no_tls : TlsPair := {| ctx := None; ssl := None |}.

(** [~TlsSession] and [~TlsLayer]. *)
Definition free_tls (t : TlsPair) (w : W) : W := free_if WolfContext (ctx t) (free_if WolfObject (ssl t) w).

(** The name's length is cast to 16 bits. *)
Definition sni_name (host : bytes) : bytes := take (Z.to_nat (wrap 16 (Z.of_nat (length host)))) host.

(** [TlsSession::handshake]. *)
Definition session_handshake (t : TlsPair) (host : bytes) (w : W) : W * TlsPair * bool :=
  let '(w, c) := ctx_create WolfContext w in
  let t := {| ctx := c; ssl := ssl t |} in
  match c with
  | None => (w, t, false)
  | Some c =>
      let w := (ctx_call SetVerifyNone WolfContext c w).1 in
      let w := (ctx_call SetIORecv WolfContext c w).1 in
      let w := (ctx_call SetIOSend WolfContext c w).1 in
      let '(w, s) := ssl_new c w in
      let t := {| ctx := ctx t; ssl := s |} in
      match s with
      | None => (w, t, false)
      | Some s =>
          let w := (ctx_call SetIOReadCtx WolfObject s w).1 in
          let w := (ctx_call SetIOWriteCtx WolfObject s w).1 in
          let '(w, named) := ctx_call (UseSNI (sni_name host)) WolfObject s w in
          if negb named then (w, t, false)
          else
            let '(w, connected) := ctx_call WolfConnect WolfObject s w in
            (w, t, connected)
      end
  end.

(** [TlsLayer::init]. *)
Definition layer_init (t : TlsPair) (w : W) : W * TlsPair * bool :=
  let '(w, c) := ctx_create WolfContext w in
  let t := {| ctx := c; ssl := ssl t |} in
  match c with
  | None => (w, t, false)
  | Some c =>
      let '(w, rc) := ctx_call UseCertificate WolfContext c w in
      if negb rc then (w, t, false)
      else
        let '(w, rc) := ctx_call UsePrivateKey WolfContext c w in
        if negb rc then (w, t, false)
        else
          let w := (ctx_call SetIORecv WolfContext c w).1 in
          let w := (ctx_call SetIOSend WolfContext c w).1 in
          let '(w, s) := ssl_new c w in
          let t := {| ctx := ctx t; ssl := s |} in
          match s with
          | None => (w, t, false)
          | Some s =>
              let w := (ctx_call SetIOReadCtx WolfObject s w).1 in
              let w := (ctx_call SetIOWriteCtx WolfObject s w).1 in
              (w, t, true)
          end
  end.
End Objects.

(** ** The callbacks *)

(** The buffers of [TlsLayer] that wolfSSL is driven through. *)
Record IoBuffers := { in_buf : bytes; in_pos : nat; out_buf : bytes }.

Definition unread (b : IoBuffers) : bytes := drop (in_pos b) (in_buf b).

(** [None]: WANT_READ. *)
Definition tlsIoRecv (sz : nat) (b : IoBuffers) : IoBuffers * option bytes :=
  let avail := (length (in_buf b) - in_pos b)%nat in
  if (avail =? 0)%nat then (b, None)
  else
    let n := if (avail <? sz)%nat then avail else sz in
    ({| in_buf := in_buf b; in_pos := in_pos b + n; out_buf := out_buf b |},
     Some (take n (drop (in_pos b) (in_buf b)))).

Definition tlsIoSend (data : bytes) (b : IoBuffers) : IoBuffers * nat :=
  ({| in_buf := in_buf b; in_pos := in_pos b; out_buf := out_buf b ++ data |}, length data).

(** The calls wolfSSL makes during one call of its own: what it got and gave. *)
Fixpoint io_calls (calls : list (nat + bytes)) (b : IoBuffers) : IoBuffers * bytes * bytes :=
  match calls with
  | [] => (b, [], [])
  | inl sz :: calls =>
      let '(b, r) := tlsIoRecv sz b in
      let '(b, got, gave) := io_calls calls b in (b, default [] r ++ got, gave)
  | inr data :: calls =>
      let '(b, n) := tlsIoSend data b in
      let '(b, got, gave) := io_calls calls b in (b, got, take n data ++ gave)
  end.

Section SocketCallbacks.
Context {K A : Type} {Ops : SockOps K A}.

Inductive CbError := ConnClose | General.

(** [TlsSession::ioSend] and [TlsSession::ioRecv]; an empty read is the end. *)
Definition ioSend (k : K) (fd : Z) (buf : bytes) : K * (nat + CbError) :=
  match sendAll k fd buf with
  | (k, true) => (k, inl (length buf))
  | (k, false) => (k, inr General)
  end.

Definition ioRecv (k : K) (fd : Z) (sz : nat) : K * (bytes + CbError) :=
  match sock_recv k fd sz with
  | (k, Some (b :: r)) => (k, inl (b :: r))
  | (k, Some []) => (k, inr ConnClose)
  | (k, None) => (k, inr General)
  end.
End SocketCallbacks.

(** ** What is taken is given back *)

Section Balance.
Context {W : Type} {Ops : CtxOps W} {Laws : CtxLaws W}.
Implicit Types w : W.

Abbreviation context := (CtxKind * Z)%type.

(** [w'] is [w] with the contexts [own] taken. *)
Definition taken (own : gset context) w w' : Prop := own ## live w /\ live w' = own ∪ live w.

Lemma taken_empty w w' : live w' = live w -> taken ∅ w w'.
Proof. intros H. split; [set_solver|]. rewrite H. set_solver. Qed.

Lemma taken_same own w w1 w2 : live w2 = live w1 -> taken own w w1 -> taken own w w2.
Proof. intros H [Hd Hl]. split; [done|]. by rewrite H. Qed.

Lemma taken_create own w w1 w2 kind p :
  taken own w w1 -> ctx_create kind w1 = (w2, Some p) -> taken ({[(kind, p)]} ∪ own) w w2.
Proof.
  intros [Hd Hl] E. destruct (create_live _ _ _ _ E) as [Hn H2]. rewrite Hl in *. split; [set_solver|]. rewrite H2. set_solver.
Qed.

Lemma taken_null own w w1 w2 kind : taken own w w1 -> ctx_create kind w1 = (w2, None) -> taken own w w2.
Proof. intros Ht E%create_null. by eapply taken_same. Qed.

Lemma taken_call own w w1 c kind p :
  taken own w w1 -> (kind, p) ∈ own -> taken own w (ctx_call c kind p w1).1.
Proof. intros [Hd Hl] Hp. split; [done|]. rewrite call_live, Hl; set_solver. Qed.

Lemma taken_free own w w1 kind p :
  taken own w w1 -> (kind, p) ∈ own -> taken (own ∖ {[(kind, p)]}) w (ctx_free kind p w1).
Proof. intros [Hd Hl] Hp. split; [set_solver|]. rewrite free_live, Hl by set_solver. set_solver. Qed.

Lemma taken_none own w w1 : taken own w w1 -> own = ∅ -> live w1 = live w.
Proof. intros [_ ->] ->. set_solver. Qed.

(** A constructor that leaves the object [x] owning [own x]. *)
Definition decoder_owns (d : Decoder) : gset context :=
  match d with
  | ZstdDecompressor (Some p) => {[(ZstdDecode, p)]}
  | Lz4Decompressor (Some p) _ => {[(Lz4Decode, p)]}
  | _ => ∅
  end.

Lemma decoder_freed d w w1 : taken (decoder_owns d) w w1 -> live (free_decoder d w1) = live w.
Proof.
  destruct d as [[p|]|[p|] v]; cbn [decoder_owns free_decoder free_if]; intros H.
  1, 3: eapply taken_none; [eapply taken_free; [exact H|]|]; set_solver.
  all: by eapply taken_none.
Qed.

Lemma make_decompressor_taken algo w :
  let '(w', r) := make_decompressor algo w in
  match r with
  | Some d => decoder_valid d = true /\ taken (decoder_owns d) w w'
  | None => live w' = live w
  end.
Proof.
  assert (H0 : taken ∅ w w) by by apply taken_empty.
  destruct algo as [[]|]; cbn [make_decompressor]; try done.
  - unfold make_lz4_decompressor, new_lz4_decompressor. destruct (ctx_create Lz4Decode w) as [w1 [p|]] eqn:E; cbn.
    + split; [done|]. eapply taken_create in E; [|exact H0]. by rewrite union_empty_r_L in E.
    + by apply create_null in E.
  - unfold make_zstd_decompressor, new_zstd_decompressor. destruct (ctx_create ZstdDecode w) as [w1 [p|]] eqn:E; cbn.
    + split; [done|]. eapply taken_create in E; [|exact H0]. rewrite union_empty_r_L in E. apply taken_call; [done|set_solver].
    + by apply create_null in E.
Qed.

Definition encoder_owns (c : Encoder) : context :=
  match c with ZstdCompressor p => (ZstdEncode, p) | Lz4Compressor p _ => (Lz4Encode, p) end.

Lemma free_encoder_live c w : encoder_owns c ∈ live w -> live (free_encoder c w) = live w ∖ {[encoder_owns c]}.
Proof. destruct c; apply free_live. Qed.

Lemma makeCompressor_taken algo w :
  let '(w', r) := makeCompressor algo w in
  match r with
  | MadeOf c => taken {[encoder_owns c]} w w'
  | MadeNull | Thrown => live w' = live w
  end.
Proof.
  assert (H0 : taken ∅ w w) by by apply taken_empty.
  destruct algo; cbn [makeCompressor]; [done|..].
  - unfold new_lz4_compressor. destruct (ctx_create Lz4Encode w) as [w1 [p|]] eqn:E; [|by apply create_null in E].
    eapply taken_create in E; [|exact H0]. by rewrite union_empty_r_L in E.
  - unfold new_zstd_compressor. destruct (ctx_create ZstdEncode w) as [w1 [p|]] eqn:E; [|by apply create_null in E].
    eapply taken_create in E; [|exact H0]. rewrite union_empty_r_L in E. apply taken_call; [done|set_solver].
Qed.

(** The contexts of a list of workers, all different. *)
Fixpoint workers_own (ws : list (option Encoder)) (own : gset context) : Prop :=
  match ws with
  | [] => own = ∅
  | Some c :: ws => exists own', own = {[encoder_owns c]} ∪ own' /\ encoder_owns c ∉ own' /\ workers_own ws own'
  | None :: ws => workers_own ws own
  end.

Lemma workers_own_snoc ws own c :
  workers_own ws own -> encoder_owns c ∉ own -> workers_own (ws ++ [Some c]) ({[encoder_owns c]} ∪ own).
Proof.
  revert own. induction ws as [|[d|] ws IH]; intros own; cbn [workers_own app].
  - intros -> _. exists ∅. split; [done|]. split; [set_solver|done].
  - intros (own' & -> & Hd & Hws) Hc. exists ({[encoder_owns c]} ∪ own').
    split; [set_solver|]. split; [set_solver|]. apply IH; [done|set_solver].
  - apply IH.
Qed.

Lemma workers_own_null ws own : workers_own ws own -> workers_own (ws ++ [None]) own.
Proof.
  revert own. induction ws as [|[d|] ws IH]; intros own; cbn [workers_own app]; [done| |apply IH].
  intros (own' & -> & Hd & Hws). exists own'. split; [done|]. split; [done|]. by apply IH.
Qed.

Lemma workers_freed ws : forall own w w1, workers_own ws own -> taken own w w1 -> live (free_workers ws w1) = live w.
Proof.
  unfold free_workers. induction ws as [|[c|] ws IH]; intros own w w1 Hown Ht; cbn [fold_left workers_own] in *.
  - by eapply taken_none.
  - destruct Hown as (own' & -> & Hc & Hws). eapply IH; [exact Hws|]. destruct Ht as [Hd Hl].
    split; [set_solver|]. rewrite free_encoder_live, Hl by set_solver. set_solver.
  - by eapply IH.
Qed.

Lemma make_workers_taken n algo : forall made own w w1,
  workers_own made own -> taken own w w1 ->
  let '(w', r) := make_workers n algo made w1 in
  match r with
  | Some ws => length ws = (length made + n)%nat /\ exists own', workers_own ws own' /\ taken own' w w'
  | None => live w' = live w
  end.
Proof.
  induction n as [|n IH]; intros made own w w1 Hown Ht; cbn [make_workers].
  - split; [by rewrite Nat.add_0_r|]. by exists own.
  - pose proof (makeCompressor_taken algo w1) as Hmade. destruct (makeCompressor algo w1) as [w2 [c| |]].
    + destruct Ht as [Hd Hl], Hmade as [Hd2 Hl2].
      pose proof (IH (made ++ [Some c]) ({[encoder_owns c]} ∪ own) w w2) as H.
      destruct (make_workers n algo _ w2) as [w3 [ws|]]; rewrite ?length_app in H; cbn [length] in H;
        [replace (length made + S n)%nat with (length made + 1 + n)%nat by lia|]; apply H;
        try (apply workers_own_snoc; [done|set_solver]); (split; [set_solver|rewrite Hl2, Hl; set_solver]).
    + assert (Ht2 : taken own w w2) by by eapply taken_same.
      pose proof (IH (made ++ [None]) own w w2 (workers_own_null _ _ Hown) Ht2) as H.
      destruct (make_workers n algo _ w2) as [w3 [ws|]]; rewrite ?length_app in H; cbn [length] in H; [|exact H].
      replace (length made + S n)%nat with (length made + 1 + n)%nat by lia. exact H.
    + eapply workers_freed; [exact Hown|]. by eapply taken_same.
Qed.

(** *** TLS *)

Definition tls_owns (t : TlsPair) : gset context :=
  match ctx t with Some c => {[(WolfContext, c)]} | None => ∅ end ∪
  match ssl t with Some s => {[(WolfObject, s)]} | None => ∅ end.

Lemma tls_freed t w w1 : taken (tls_owns t) w w1 -> live (free_tls t w1) = live w.
Proof.
  unfold free_tls, tls_owns. intros H. destruct t as [[c|] [s|]]; cbn [ctx ssl free_if] in *.
  - eapply taken_none; [eapply taken_free; [eapply taken_free; [exact H|]|]|]; set_solver.
  - eapply taken_none; [eapply taken_free; [exact H|]|]; set_solver.
  - eapply taken_none; [eapply taken_free; [exact H|]|]; set_solver.
  - eapply taken_none; [exact H|set_solver].
Qed.

(** The second half of both set-ups: the object on a context. *)
Lemma ssl_new_taken w w1 w2 c s :
  taken (tls_owns {| ctx := Some c; ssl := None |}) w w1 -> ssl_new c w1 = (w2, s) ->
  taken (tls_owns {| ctx := Some c; ssl := s |}) w w2.
Proof.
  unfold tls_owns. cbn [ctx ssl]. intros [Hd Hl] E.
  assert (Hc : (WolfContext, c) ∈ live w1) by set_solver. destruct s as [s|].
  - destruct (ssl_new_live _ _ _ _ Hc E) as [Hn H2]. rewrite Hl in *. split; [set_solver|]. rewrite H2. set_solver.
  - apply ssl_new_null in E; [|done]. split; [done|]. by rewrite E.
Qed.

Lemma create_tls w w1 c :
  ctx_create WolfContext w = (w1, c) -> taken (tls_owns {| ctx := c; ssl := None |}) w w1.
Proof.
  assert (H0 : taken ∅ w w) by by apply taken_empty. unfold tls_owns. cbn [ctx ssl]. rewrite union_empty_r_L.
  destruct c as [c|]; intros E; [|by eapply taken_null]. eapply taken_create in E; [|exact H0].
  by rewrite union_empty_r_L in E.
Qed.

Ltac owned := unfold tls_owns; cbn [ctx ssl]; set_solver.

Lemma session_handshake_taken host w :
  let '(w', t, ok) := session_handshake no_tls host w in
  taken (tls_owns t) w w' /\ (ok = true -> is_Some (ctx t) /\ is_Some (ssl t)).
Proof.
  unfold session_handshake. destruct (ctx_create WolfContext w) as [w1 [c|]] eqn:Ec; apply create_tls in Ec; [|done].
  do 3 (eapply (taken_call _ _ _ _ WolfContext c) in Ec; [|owned]).
  destruct (ssl_new c _) as [w2 s] eqn:Es. eapply ssl_new_taken in Es; [|exact Ec]. destruct s as [s|]; [|done]. cbn [ctx ssl].
  apply (taken_call _ _ _ SetIOReadCtx WolfObject s) in Es; [|owned].
  apply (taken_call _ _ _ SetIOWriteCtx WolfObject s) in Es; [|owned].
  pose proof (taken_call _ _ _ (UseSNI (sni_name host)) WolfObject s Es ltac:(owned)) as H1.
  destruct (ctx_call (UseSNI _) _ _ _) as [w3 [|]]; [|done]. cbn [negb fst] in *.
  pose proof (taken_call _ _ _ WolfConnect WolfObject s H1 ltac:(owned)) as H2.
  destruct (ctx_call WolfConnect _ _ _) as [w4 ok]. by cbn [fst] in H2.
Qed.

Lemma layer_init_taken w :
  let '(w', t, ok) := layer_init no_tls w in
  taken (tls_owns t) w w' /\ (ok = true -> is_Some (ctx t) /\ is_Some (ssl t)).
Proof.
  unfold layer_init. destruct (ctx_create WolfContext w) as [w1 [c|]] eqn:Ec; apply create_tls in Ec; [|done].
  pose proof (taken_call _ _ _ UseCertificate WolfContext c Ec ltac:(owned)) as H1.
  destruct (ctx_call UseCertificate _ _ _) as [w2 [|]]; [|done]. cbn [negb fst] in *.
  pose proof (taken_call _ _ _ UsePrivateKey WolfContext c H1 ltac:(owned)) as H2.
  destruct (ctx_call UsePrivateKey _ _ _) as [w3 [|]]; [|done]. cbn [negb fst] in *.
  do 2 (eapply (taken_call _ _ _ _ WolfContext c) in H2; [|owned]).
  destruct (ssl_new c _) as [w4 s] eqn:Es. eapply ssl_new_taken in Es; [|exact H2]. destruct s as [s|]; [|done]. cbn [ctx ssl].
  split; [|done]. by do 2 (eapply (taken_call _ _ _ _ WolfObject s) in Es; [|owned]).
Qed.
End Balance.

(** ** The callbacks are a stream *)

(** Whatever calls wolfSSL makes, it gets a prefix of what is unread, at most
    once, and what it gives is appended: the view [Connection.SslLib] has. *)
Lemma io_calls_stream calls : forall b,
  let '(b', got, gave) := io_calls calls b in
  in_buf b' = in_buf b /\ in_pos b' = (in_pos b + length got)%nat /\ unread b = got ++ unread b' /\
  out_buf b' = out_buf b ++ gave.
Proof.
  induction calls as [|[sz|data] calls IH]; intros b; cbn [io_calls].
  - rewrite app_nil_r, Nat.add_0_r. done.
  - unfold tlsIoRecv. destruct (Nat.eqb_spec (length (in_buf b) - in_pos b) 0) as [H0|H0].
    + specialize (IH b). destruct (io_calls calls b) as [[b' got] gave]. done.
    + set (n := if (_ <? sz)%nat then _ else sz).
      match goal with |- context [io_calls calls ?x] => specialize (IH x) end.
      destruct (io_calls calls _) as [[b' got] gave]. cbn [in_buf in_pos out_buf unread from_option id] in *.
      destruct IH as (H1 & H2 & H3 & H4). unfold unread in *. cbn [in_buf in_pos] in *.
      assert (Hn : length (take n (drop (in_pos b) (in_buf b))) = n).
      { rewrite length_take, length_drop. unfold n. destruct (Nat.ltb_spec (length (in_buf b) - in_pos b) sz); lia. }
      split; [done|]. rewrite length_app, Hn. split; [lia|]. split; [|done].
      by rewrite <- app_assoc, <- H3, <- drop_drop, take_drop.
  - unfold tlsIoSend. match goal with |- context [io_calls calls ?x] => specialize (IH x) end.
    destruct (io_calls calls _) as [[b' got] gave]. unfold unread in *. cbn [in_buf in_pos out_buf] in *.
    rewrite firstn_all, app_assoc. done.
Qed.

(** ** Libraries that refuse as told *)

(** The live contexts, the next pointer, and which calls are still to fail. *)
Record MemCtx := { mc_live : gset (CtxKind * Z); mc_next : Z; mc_refuse : list bool }.

Definition mc_fails (w : MemCtx) : bool := default false (head (mc_refuse w)).

Definition mc_new (kind : CtxKind) (w : MemCtx) : MemCtx * option Z :=
  if mc_fails w || bool_decide ((kind, mc_next w) ∈ mc_live w)
  then ({| mc_live := mc_live w; mc_next := mc_next w + 1; mc_refuse := tail (mc_refuse w) |}, None)
  else ({| mc_live := {[(kind, mc_next w)]} ∪ mc_live w; mc_next := mc_next w + 1; mc_refuse := tail (mc_refuse w) |},
        Some (mc_next w)).

#[global] Instance mem_ctx_ops : CtxOps MemCtx := {
  ctx_create := mc_new;
  ssl_new _ w := mc_new WolfObject w;
  ctx_call _ _ _ w :=
    ({| mc_live := mc_live w; mc_next := mc_next w; mc_refuse := tail (mc_refuse w) |}, negb (mc_fails w));
  ctx_free kind p w := {| mc_live := mc_live w ∖ {[(kind, p)]}; mc_next := mc_next w; mc_refuse := mc_refuse w |};
}.

Lemma mc_new_live kind w w' p :
  mc_new kind w = (w', Some p) -> (kind, p) ∉ mc_live w /\ mc_live w' = {[(kind, p)]} ∪ mc_live w.
Proof. unfold mc_new. destruct (mc_fails w); [done|]. cbn. case_bool_decide; [done|]. by intros [= <- <-]. Qed.

Lemma mc_new_null kind w w' : mc_new kind w = (w', None) -> mc_live w' = mc_live w.
Proof. unfold mc_new. destruct (_ || _); [|done]. by intros [= <-]. Qed.

#[global] Instance mem_ctx_laws : CtxLaws MemCtx.
Proof.
  refine {| live := mc_live |}; try done; try (intros *; by apply mc_new_live); try (intros *; by apply mc_new_null).
  - intros ctx w w' p _. by apply mc_new_live.
  - intros ctx w w' _. by apply mc_new_null.
Defined.

(** The third worker's compressor cannot be made: the first two are freed. *)
Example third_throws :
  make_workers 5 Zstd [] {| mc_live := ∅; mc_next := 7; mc_refuse := [false; false; false; false; true] |} =
    ({| mc_live := ∅; mc_next := 10; mc_refuse := [] |}, None).
Proof. vm_compute. reflexivity. Qed.

(** ** Properties *)

(** C27: no context leaks and none is freed twice. Whatever the libraries refuse,
    the compressors of any number of workers, a decompressor for any algorithm
    byte, and the TLS objects of client and server are gone when their owner
    is destroyed, or at once where making them fails or throws; what was made
    is valid, and for a TLS set-up that succeeds both objects are there. *)
Theorem contexts_no_leak {W : Type} {Ops : CtxOps W} {Laws : CtxLaws W}
    (algo : CompressionAlgo) (byte : option CompressionAlgo) (n : nat) (host : bytes) (w : W) :
  (let '(w', made) := make_workers n algo [] w in
   match made with
   | Some ws => length ws = n /\ live (free_workers ws w') = live w
   | None => live w' = live w
   end) /\
  (let '(w', made) := make_decompressor byte w in
   match made with
   | Some d => decoder_valid d = true /\ live (free_decoder d w') = live w
   | None => live w' = live w
   end) /\
  (let '(w', t, ok) := session_handshake no_tls host w in
   live (free_tls t w') = live w /\ (ok = true -> is_Some (ctx t) /\ is_Some (ssl t))) /\
  (let '(w', t, ok) := layer_init no_tls w in
   live (free_tls t w') = live w /\ (ok = true -> is_Some (ctx t) /\ is_Some (ssl t))).
Proof.
  assert (H0 : taken ∅ w w) by by apply taken_empty. split_and!.
  - pose proof (make_workers_taken n algo [] ∅ w w eq_refl H0) as H.
    destruct (make_workers n algo [] w) as [w' [ws|]]; [|done]. destruct H as (Hl & own & Hown & Ht).
    split; [exact Hl|]. by eapply workers_freed.
  - pose proof (make_decompressor_taken byte w) as H. destruct (make_decompressor byte w) as [w' [d|]]; [|done].
    destruct H as [Hv Ht]. split; [done|]. by apply decoder_freed.
  - pose proof (session_handshake_taken host w) as H. destruct (session_handshake no_tls host w) as [[w' t] ok].
    destruct H as [Ht Hok]. split; [by apply tls_freed|done].
  - pose proof (layer_init_taken w) as H. destruct (layer_init no_tls w) as [[w' t] ok].
    destruct H as [Ht Hok]. split; [by apply tls_freed|done].
Qed.
