(* ===== verification/Listener.v ===== *)
(** * Listener: listening sockets ([client/listener.h])

    The owning [Socket], [tcpListen] and [tcpAccept], over the calls of
    [SockOps] and those of a listener. Options that only tune a socket and the
    Windows branch are left out. *)

From S2P Require Import Prelude Text Net.

Class ListenOps (K A : Type) := {
  li_resolve : K -> bytes -> bytes -> option (list A);   (** with [AI_PASSIVE] *)
  li_bind : K -> Z -> A -> K * Z;
  li_listen : K -> Z -> Z -> K * Z;
  li_accept : K -> Z -> K * Z;
  li_peer : K -> Z -> option (bytes * bytes);            (** [getnameinfo] of what [accept] filled in *)
}.

Section Listener.
Context {K A : Type} {Ops : SockOps K A} {Lops : ListenOps K A}.

(** ** [Socket], by the descriptor it holds *)

Definition valid (s : Z) : bool := isValid s.

(** [release]: what it held, and what it holds now. *)
Definition release (s : Z) : Z * Z := (s, INVALID).

Definition reset (k : K) (s next : Z) : K * Z := (closeSock k s, next).

(** [dst = std::move(src)] for two different sockets: both afterwards. *)
Definition move_assign (k : K) (dst src : Z) : K * Z * Z :=
  let '(taken, src) := release src in
  let '(k, dst) := reset k dst taken in
  (k, dst, src).

Definition drop_socket (k : K) (s : Z) : K := (reset k s INVALID).1.

(** ** [tcpListen] *)

(** The loop over the addresses; a socket that is passed over is destroyed. *)
Fixpoint listen_loop (k : K) (addrs : list A) (backlog : Z) : K * Z :=
  match addrs with
  | [] => (k, INVALID)
  | a :: addrs =>
      let '(k, sock) := sock_socket k a in
      if negb (valid sock) then listen_loop (drop_socket k sock) addrs backlog
      else
        let '(k, rc) := li_bind k sock a in
        if negb (rc =? 0) then listen_loop (drop_socket k sock) addrs backlog
        else
          let '(k, rc) := li_listen k sock backlog in
          if negb (rc =? 0) then listen_loop (drop_socket k sock) addrs backlog else (k, sock)
  end.

Definition tcpListen (k : K) (host port : bytes) (backlog : Z) : K * Z :=
  match li_resolve k host port with
  | None | Some [] => (k, INVALID)
  | Some addrs => listen_loop k addrs backlog
  end.

(** ** [tcpAccept] *)

(** The socket and the text of the peer's address, which stays as it was when
    it cannot be had. *)
Definition tcpAccept (k : K) (listener : Z) (peer : option bytes) : K * Z * option bytes :=
  let '(k, sock) := li_accept k listener in
  if negb (valid sock) then (drop_socket k sock, INVALID, peer)
  else
    match peer, li_peer k sock with
    | Some _, Some (host, service) => (k, sock, Some (host ++ str ":" ++ service))
    | _, _ => (k, sock, peer)
    end.
End Listener.

(** ** Descriptors *)

Class ListenFds (K A : Type) {Ops : SockOps K A} {Lops : ListenOps K A} {Fds : SockFds K A} := {
  bind_fds k fd a : fds (li_bind k fd a).1 = fds k;
  listen_fds k fd n : fds (li_listen k fd n).1 = fds k;
  accept_fds k l k' fd : li_accept k l = (k', fd) ->
    if isValid fd then fd ∉ fds k /\ fds k' = {[fd]} ∪ fds k else fds k' = fds k;
}.

Section Fds.
Context {K A : Type} {Ops : SockOps K A} {Lops : ListenOps K A} {Fds : SockFds K A} {Lfds : ListenFds K A}.

Lemma drop_invalid k s : valid s = false -> drop_socket k s = k.
Proof. unfold drop_socket, reset, closeSock, valid. cbn [fst]. by intros ->. Qed.

Lemma listen_loop_fds addrs backlog : forall k, gives_fd k (listen_loop k addrs backlog).
Proof.
  induction addrs as [|a addrs IH]; intros k; [done|]. cbn [listen_loop].
  destruct (sock_socket k a) as [k1 fd] eqn:Es. apply socket_fds in Es.
  assert (Hnext : forall k2, fds k2 = fds k -> gives_fd k (listen_loop k2 addrs backlog)).
  { intros k2 E. specialize (IH k2). unfold gives_fd in *. by rewrite E in IH. }
  unfold valid. destruct (isValid fd) eqn:Ev; cbn [negb].
  - destruct Es as [Hn Hk].
    assert (Hdrop : forall k2, fds k2 = fds k1 -> gives_fd k (listen_loop (drop_socket k2 fd) addrs backlog)).
    { intros k2 E. apply Hnext. unfold drop_socket, reset. cbn [fst]. apply close_new; [done|congruence|done]. }
    pose proof (bind_fds k1 fd a) as Hb. destruct (li_bind k1 fd a) as [k2 rc]. cbn [fst] in Hb.
    destruct (rc =? 0); cbn [negb]; [|by apply Hdrop].
    pose proof (listen_fds k2 fd backlog) as Hl. destruct (li_listen k2 fd backlog) as [k3 rc']. cbn [fst] in Hl.
    destruct (rc' =? 0); cbn [negb]; [|apply Hdrop; congruence].
    unfold gives_fd. cbn [snd fst]. rewrite Ev. split; [done|congruence].
  - rewrite drop_invalid by done. by apply Hnext.
Qed.

(** No socket is leaked: [tcpListen] and [tcpAccept] leave open exactly the
    socket they return, if any, whatever fails on the way, and destroying it
    takes it back; an assignment closes what was held before and nothing else. *)
Theorem listener_no_leak (k : K) (host port : bytes) (backlog listener dst src : Z) (peer : option bytes) :
  (let '(k', sock) := tcpListen k host port backlog in
   gives_fd k (k', sock) /\ fds (drop_socket k' sock) = fds k) /\
  (let '(k', sock, _) := tcpAccept k listener peer in
   gives_fd k (k', sock) /\ fds (drop_socket k' sock) = fds k) /\
  (let '(k', dst', src') := move_assign k dst src in
   dst' = src /\ src' = INVALID /\ fds k' = (if valid dst then fds k ∖ {[dst]} else fds k)).
Proof.
  assert (Hdrop : forall k' sock, gives_fd k (k', sock) -> fds (drop_socket k' sock) = fds k).
  { intros k' sock. unfold gives_fd. cbn [fst snd]. destruct (isValid sock) eqn:Ev.
    - intros [Hn Hk]. unfold drop_socket, reset. cbn [fst]. by apply close_new.
    - intros E. by rewrite drop_invalid. }
  split; [|split].
  - assert (H : gives_fd k (tcpListen k host port backlog)).
    { unfold tcpListen. destruct (li_resolve k host port) as [[|a addrs]|]; [done| |done]. apply listen_loop_fds. }
    destruct (tcpListen k host port backlog). split; [done|by apply Hdrop].
  - unfold tcpAccept. destruct (li_accept k listener) as [k1 fd] eqn:E. apply accept_fds in E.
    unfold valid. destruct (isValid fd) eqn:Ev; cbn [negb].
    + assert (H : gives_fd k (k1, fd)) by (unfold gives_fd; cbn [fst snd]; by rewrite Ev).
      destruct peer, (li_peer k1 fd) as [[h s]|]; by auto.
    + rewrite drop_invalid by done. assert (H : gives_fd k (k1, INVALID)) by done. by auto.
  - unfold move_assign, release, reset, closeSock, valid. split; [done|]. split; [done|].
    destruct (isValid dst); [by rewrite close_fds|done].
Qed.
End Fds.

(** A machine whose descriptor 0 cannot be bound. *)
#[export] Instance mem_listen : ListenOps MemNet unit := {
  li_resolve k host port := Some [tt; tt];
  li_bind k fd a := (k, if bool_decide (fd = 0) then -1 else 0);
  li_listen k fd n := (k, 0);
  li_accept k l := mn_open k;
  li_peer k fd := Some (str "10.0.0.7", str "1234");
}.

#[export] Instance mem_listen_fds : ListenFds MemNet unit.
Proof. split; try done. intros k l k' fd E. by apply (socket_fds (K := MemNet) (A := unit) k tt). Defined.

Example demo_accept :
  let k := {| mn_fds := {[0]}; mn_sent := []; mn_inbox := [] |} in
  let '(k, l) := tcpListen k (str "::") (str "5959") 512 in
  let '(k, c, peer) := tcpAccept k l (Some []) in
  (l, c, peer) = (1, 2, Some (str "10.0.0.7:1234")).
Proof. vm_compute. done. Qed.
