(* ===== verification/UploadSafety.v ===== *)
(** * What no client can make the server write (src/server/connection.cxx,
      file_sink.cxx)

    The theorems of [EndToEnd] are about a client that follows the protocol. Here
    the input is arbitrary, the library calls may return anything and the file
    system may fail at any point: [handle_upload] still only ever changes files
    below the session directory, and ends. *)

From S2P Require Import Prelude Wire Protocol XXHash ByteChannel PosixPath FileSink Codec Upload.

(** A decompressor reaches the sink's state through [write] only. *)
Class DecompressorFrame (D : Type) {Dec : Decompressor D} := {
  decompress_frame T (write : sink_write T) (P : T -> Prop) d i s :
    (forall s x, P s -> P (write s x).1) -> P s -> P (decompress write d i s).1.2;
}.

Section Loops.
Context {D : Type} {Lib : LibDecoder D} {T : Type} (write : sink_write T) (P : T -> Prop).
Hypothesis write_P : forall s x, P s -> P (write s x).1.

Lemma to_sink_frame s out : P s -> P (to_sink write s out).1.
Proof using write_P. destruct out; [done|]. apply write_P. Qed.

Lemma zstd_loop_frame fuel d i s : P s -> P (zstd_loop write fuel d i s).1.2.
Proof using write_P.
  revert d i s. induction fuel as [|fuel IH]; intros d i s Hs; destruct i as [|b i]; try done.
  cbn [zstd_loop]. destruct (decode d _ _) as [d1 [[n out]|]]; [|done].
  pose proof (to_sink_frame s out Hs) as Hs1. destruct (to_sink write s out) as [s1 ok].
  split_ifs; cbn; auto.
Qed.

Lemma lz4_loop_frame fuel d i s : P s -> P (lz4_loop write fuel d i s).1.2.
Proof using write_P.
  revert d i s. induction fuel as [|fuel IH]; intros d i s Hs; destruct i as [|b i]; try done.
  cbn [lz4_loop]. destruct (decode d _ _) as [d1 [[n out]|]]; [|done].
  pose proof (to_sink_frame s out Hs) as Hs1. destruct (to_sink write s out) as [s1 ok].
  split_ifs; cbn; auto.
Qed.
End Loops.

#[global] Instance zstd_frame {D} {Lib : LibDecoder D} : DecompressorFrame D.
Proof. constructor. intros T write P d i s Hw Hs. by apply (zstd_loop_frame write P Hw). Qed.

Section Safety.
Context {W D : Type} {Ops : FsOps W} {Laws : FsLaws W} {Dec : Decompressor D} {Frame : DecompressorFrame D}.
Variables (mode : Z) (checks : bool) (filter : ProbeInfo -> bool).
Implicit Types (s : Consumer W D) (u : UnitSink).

(** The files clients may write: the session directory, normalised, followed by
    one or more names, none of them empty, a dot or a dot-dot, and none with a
    separator. The system call sees the path up to its first NUL. *)
Definition below_root (root : path) (q : bytes) : Prop :=
  exists full ns, ns <> [] /\ Forall PosixPath.plain ns /\ Forall proper_name ns /\
    names full = names (lexically_normal root) ++ ns /\
    absolute full = absolute (lexically_normal root) /\ q = os_path full.

Lemma resolved_below root rel full :
  wf_path root -> resolve_safe_path root rel = Some full -> below_root root (os_path full).
Proof.
  intros Hroot E. destruct (resolve_confined root rel full Hroot E) as (ns & H1 & H2 & H3 & H4 & H5).
  by exists full, ns.
Qed.

(** From [w0] to [w] descriptors are the same and only the file at [p] changed. *)
Lemma write_loop_frame fuel w fd data off written p :
  fs_fd w fd = Some p -> only_file w (write_fd_loop fuel w fd data off written).1 p.
Proof.
  revert w data written. induction fuel as [|fuel IH]; intros w data written Hfd;
    (destruct data as [|b data]; [apply only_file_refl|]); [apply only_file_refl|].
  cbn [write_fd_loop]. destruct (fs_write _ _ _ _) as [w2 r] eqn:E.
  pose proof (write_only_file _ _ _ _ _ _ _ E Hfd) as Hof.
  destruct (r <=? 0); [done|]. eapply only_file_trans; [exact Hof|]. apply IH. by rewrite (proj1 Hof).
Qed.

(** The descriptor a unit sink writes to. *)
Definition unit_fd u : option Z := if is_chunk u then ow_file (offset u) else Some (sw_fd (sequential u)).

Definition writes_only (w0 : W) u0 (p : bytes) (st : W * UnitSink) : Prop :=
  only_file w0 st.1 p /\ unit_fd st.2 = unit_fd u0 /\ is_chunk st.2 = is_chunk u0.

Lemma unit_sink_frame w0 u0 fd p st x :
  unit_fd u0 = Some fd -> fs_fd w0 fd = Some p ->
  writes_only w0 u0 p st -> writes_only w0 u0 p (unit_sink_write st x).1.
Proof.
  intros Hu Hfd (Hof & Hufd & Hch). destruct st as [w u]. cbn [fst snd] in *.
  assert (Hfdw : fs_fd w fd = Some p) by (by rewrite (proj1 Hof)).
  rewrite Hu in Hufd. unfold unit_sink_write. unfold writes_only. rewrite Hu, <- Hch.
  unfold unit_fd in Hufd. destruct (is_chunk u) eqn:Ec.
  - unfold write_at. rewrite Hufd.
    pose proof (write_loop_frame (length x) w fd x (to_int64 (wrap 64 (base_offset u + running u))) 0 p Hfdw) as Hl.
    unfold write_fd_all. destruct (write_fd_loop _ _ _ _ _ _) as [w2 ok]. cbn [fst snd] in *.
    split; [by eapply only_file_trans|]. by rewrite <- Hufd.
  - injection Hufd as Hufd. unfold sequential_write. rewrite Hufd.
    pose proof (write_loop_frame (length x) w fd x (sw_offset (sequential u)) 0 p Hfdw) as Hl.
    unfold write_fd_all. destruct (write_fd_loop _ _ _ _ _ _) as [w2 ok]. cbn [fst] in Hl.
    split; [destruct ok; by eapply only_file_trans|].
    destruct ok; cbn [negb fst snd]; unfold unit_fd; cbn [is_chunk sequential sw_fd]; by rewrite ?Hufd.
Qed.

(** Reading changes nothing but the input. *)
Lemma read_spec n s : exists i o, read n s = (set_input s i, o).
Proof. unfold read. destruct (stream_read n (input s)) as [[? ?]|]; eauto. Qed.

Lemma read_blocks_frame fuel fd p u0 w0 : forall s u wire,
  unit_fd u0 = Some fd -> fs_fd w0 fd = Some p -> writes_only w0 u0 p (world s, u) ->
  let '(s', u', _, _) := read_blocks fuel s u wire in
  writes_only w0 u0 p (world s', u') /\ sink_ s' = sink_ s.
Proof.
  induction fuel as [|fuel IH]; intros s u wire Hu Hfd Hw; [done|]. cbn [read_blocks].
  destruct (read_spec 1 s) as (i1 & o1 & ->). destruct o1 as [bt|]; [|done].
  destruct (block_type_of_byte _) as [[]|]; [done| |done].
  destruct (read_spec 4 (set_input s i1)) as (i2 & o2 & ->). destruct o2 as [lb|]; [|done].
  destruct (_ || _); [done|].
  destruct (read_spec (Z.to_nat (read_u32_le lb)) (set_input (set_input s i1) i2)) as (i3 & o3 & ->).
  destruct o3 as [buf|]; [|done]. cbn [set_input decompressor_ world sink_].
  pose proof (decompress_frame _ unit_sink_write (writes_only w0 u0 p) (decompressor_ s) buf (world s, u)
    (fun st x H => unit_sink_frame w0 u0 fd p st x Hu Hfd H) Hw) as Hd.
  destruct (decompress unit_sink_write _ _ _) as [[d [w1 u1]] ok]. cbn [fst snd] in Hd.
  destruct ok; cbn [negb]; [|done].
  match goal with |- context [read_blocks fuel ?s1 u1 ?wr] => specialize (IH s1 u1 wr Hu Hfd Hd) end.
  destruct (read_blocks fuel _ _ _) as [[[s2 u2] wire2] f]. done.
Qed.

(** What holds between the units of a session that started in [w0]. *)
Definition confined (root : path) (w0 : W) s : Prop :=
  (wf_path root /\ session_root_ (sink_ s) = root) /\
  map_Forall (fun _ fd => exists p, fs_fd (world s) fd = Some p /\ below_root root p) (chunk_files_ (sink_ s)) /\
  map_Forall (fun _ au => au_type au = File \/ au_type au = Chunk) (accepted_ s) /\
  forall q, ~ below_root root q -> fs_file (world s) q = fs_file w0 q.

(** [m] keeps a session confined, whether it goes on or leaves. *)
Definition keeps {A} (root : path) (w0 : W) (m : @M W D A) : Prop :=
  forall s, confined root w0 s -> confined root w0 (m s).1.

Lemma keeps_bind {A B} root w0 (m : M A) (f : A -> M B) :
  keeps root w0 m -> (forall a, keeps root w0 (f a)) -> keeps root w0 (bind m f).
Proof.
  intros Hm Hf s Hs. unfold bind. specialize (Hm s Hs). destruct (m s) as [s1 [a|]]; [|done].
  by apply Hf.
Qed.

Lemma keeps_ret {A} root w0 (a : A) : keeps root w0 (mret a).
Proof. by intros s Hs. Qed.

Lemma keeps_stop {A} root w0 : keeps root w0 (stop (A := A)).
Proof. by intros s Hs. Qed.

Lemma keeps_guard root w0 b : keeps root w0 (guard b).
Proof. destruct b; [apply keeps_ret|apply keeps_stop]. Qed.

Lemma keeps_read root w0 n : keeps root w0 (read n).
Proof. intros s Hs. by destruct (read_spec n s) as (i & o & ->). Qed.

(** A change that leaves the world, the sink and the accepted units alone. *)
Lemma keeps_modify root w0 f :
  (forall s, world (f s) = world s /\ sink_ (f s) = sink_ s /\ accepted_ (f s) = accepted_ s) ->
  keeps root w0 (modify f).
Proof.
  intros Hf s H. destruct (Hf s) as (Hw & Hk & Ha). unfold modify, confined. cbn [fst].
  by rewrite Hw, Hk, Ha.
Qed.

Lemma keeps_accepted root w0 (f : gmap Z AcceptedUnit -> gmap Z AcceptedUnit) :
  (forall a, map_Forall (fun _ au => au_type au = File \/ au_type au = Chunk) a ->
             map_Forall (fun _ au => au_type au = File \/ au_type au = Chunk) (f a)) ->
  keeps root w0 (modify (fun s => set_accepted s (f (accepted_ s)))).
Proof. intros Hf s (H1 & H2 & H3 & H4). split; [done|]. split; [done|]. split; [by apply Hf|done]. Qed.

Lemma keeps_guarded {A} root w0 b (f : unit -> @M W D A) :
  (b = true -> keeps root w0 (f tt)) -> keeps root w0 (bind (guard b) f).
Proof. intros Hf. destruct b; [|by intros s Hs]. intros s Hs. by apply (Hf eq_refl). Qed.

Lemma keeps_gets {A} root w0 (f : Consumer W D -> A) : keeps root w0 (gets f).
Proof. by intros s Hs. Qed.

Ltac keeps_tac :=
  repeat first
    [ apply keeps_bind; [|intros ?] | apply keeps_ret | apply keeps_stop | apply keeps_guard
    | apply keeps_read | apply keeps_gets | (apply keeps_modify; by intros [])
    | match goal with |- keeps _ _ (if ?b then _ else _) => destruct b end
    | match goal with |- keeps _ _ (match ?x with _ => _ end) => destruct x end ].

Lemma is_unit_type type : is_unit type = true -> default File type = File \/ default File type = Chunk.
Proof. destruct type as [[]|]; simpl; auto; done. Qed.

Lemma handle_probe_keeps root w0 : keeps root w0 (handle_probe mode filter).
Proof.
  unfold handle_probe. apply keeps_bind; [apply keeps_read|intros head].
  apply keeps_guarded. intros Hg. apply andb_true_iff in Hg as [Hg _]. keeps_tac.
  apply keeps_accepted. intros acc Hacc. apply map_Forall_insert_2; [|done]. by apply is_unit_type.
Qed.

(** A header gives a file or a chunk. *)
Lemma unit_header_keeps root w0 accept type s :
  confined root w0 s -> confined root w0 (unit_header accept type s).1 /\
  match (unit_header accept type s).2 with
  | Some (type', _, _) => type' = File \/ type' = Chunk
  | None => True
  end.
Proof.
  intros Hs. split.
  { revert s Hs. change (keeps root w0 (unit_header accept type)). unfold unit_header. keeps_tac.
    apply keeps_accepted. intros acc Hacc. by apply map_Forall_delete. }
  destruct Hs as (_ & _ & Hacc & _). unfold unit_header, bind, guard, mret, stop, gets, modify.
  destruct type as [[]|]; try done; destruct accept; cbn [negb]; try done.
  - destruct (read_spec 2 s) as (i1 & o1 & ->). destruct o1; [|done]. destruct (negb _); [|done].
    destruct (read _ _) as [? [?|]]; [|done]. by left.
  - destruct (read_spec 2 s) as (i1 & o1 & ->). destruct o1; [|done]. destruct (negb _); [|done].
    destruct (read _ _) as [? [?|]]; [|done]. destruct (read _ _) as [? [?|]]; [|done]. by right.
  - destruct (read_spec 8 s) as (i1 & o1 & ->). destruct o1; [|done]. cbn [set_input accepted_].
    destruct (accepted_ s !! _) as [au|] eqn:E; [|done]. by apply Hacc in E.
Qed.

Lemma confined_io root w0 s w' d :
  confined root w0 s -> (forall fd, fs_fd w' fd = fs_fd (world s) fd) ->
  (forall q, fs_file w' q = fs_file (world s) q) -> confined root w0 (set_io s w' (sink_ s) d).
Proof.
  intros (Hroot & Hfds & Hacc & Hfiles) Hw1 Hw2. split; [done|]. split; [|split; [done|]].
  - intros k fd Hk. cbn [world set_io]. rewrite Hw1. by apply (Hfds k).
  - intros q Hq. cbn [world set_io]. rewrite Hw2. by apply Hfiles.
Qed.

(** Opening a unit's file: what the writers refer to is below the root, and the
    descriptor of a sequential writer is not in the registry. *)
Lemma open_unit_keeps root w0 type path base s :
  confined root w0 s -> type = File \/ type = Chunk ->
  confined root w0 (open_unit type path s).1 /\
  forall s1 writers, open_unit type path s = (s1, Some writers) ->
    exists fd p, fs_fd (world s1) fd = Some p /\ below_root root p /\
      unit_fd (new_unit_sink checks type writers.1 writers.2 base) = Some fd /\
      (type = File -> map_Forall (fun _ fd' => fd' <> fd) (chunk_files_ (sink_ s1))).
Proof.
  intros Hs Htype. pose proof Hs as ([Hwf Hroot] & Hfds & Hacc & Hfiles).
  destruct Htype as [-> | ->]; cbn [open_unit].
  - unfold open_sequential. rewrite Hroot.
    destruct (resolve_safe_path root path) as [full|] eqn:Er; [|by cbn].
    destruct (ensure_parent_directory _ _) as [w1 ok] eqn:Ep. apply ensure_parent_frame in Ep as [Hp1 Hp2].
    assert (Hb : below_root root (os_path full)) by (by eapply resolved_below).
    pose proof (fun w' => confined_io root w0 s w' (decompressor_ s) Hs) as H1.
    destruct ok; cbn [negb]; [|split; [by apply H1|by cbn]].
    destruct (fs_open _ _ _) as [w2 fd] eqn:Eo. destruct (Z.ltb_spec fd 0) as [Hn|Hn].
    { apply open_fail in Eo as [Ho1 Ho2]; [|done]. split; [|by cbn].
      apply H1; intros; by rewrite ?Ho1, ?Ho2. }
    destruct (open_ok _ _ _ _ _ Eo Hn) as (Hfresh & Hfd & Hother & _ & Hfile).
    assert (Hne : map_Forall (fun _ fd' => fd' <> fd) (chunk_files_ (sink_ s))).
    { intros k fd' Hk ->. destruct (Hfds _ _ Hk) as (p & Hp & _). rewrite Hp1 in Hfresh. congruence. }
    split.
    + split; [done|]. split; [|split; [done|]].
      * intros k fd' Hk. cbn [fst set_io world]. rewrite Hother, Hp1 by (by eapply Hne). by apply (Hfds k).
      * intros q Hq. cbn [fst set_io world]. rewrite Hfile, Hp2 by (by intros ->). by apply Hfiles.
    + intros s1 writers E. unfold sequential_valid in E. cbn [sw_fd] in E.
      destruct (0 <=? fd); [|done]. injection E as <- <-. by exists fd, (os_path full).
  - unfold open_offset, acquire_chunk_file. rewrite Hroot.
    destruct (resolve_safe_path root path) as [full|] eqn:Er; [|by destruct s].
    assert (Hb : below_root root (os_path full)) by (by eapply resolved_below).
    destruct (chunk_files_ (sink_ s) !! path_string full) as [fd|] eqn:Ek.
    { split; [done|]. intros s1 writers E. injection E as <- <-.
      destruct (Hfds _ _ Ek) as (p & Hp & Hbp). by exists fd, p. }
    destruct (ensure_parent_directory _ _) as [w1 ok] eqn:Ep. apply ensure_parent_frame in Ep as [Hp1 Hp2].
    pose proof (fun w' => confined_io root w0 s w' (decompressor_ s) Hs) as H1.
    destruct ok; cbn [negb]; [|split; [by apply H1|by cbn]].
    destruct (fs_open _ _ _) as [w2 fd] eqn:Eo. destruct (Z.ltb_spec fd 0) as [Hn|Hn].
    { apply open_fail in Eo as [Ho1 Ho2]; [|done]. split; [|by cbn].
      apply H1; intros; by rewrite ?Ho1, ?Ho2. }
    destruct (open_ok _ _ _ _ _ Eo Hn) as (Hfresh & Hfd & Hother & _ & Hfile).
    split.
    + split; [done|]. split; [|split; [done|]].
      * cbn [fst set_io world sink_ chunk_files_]. apply map_Forall_insert_2; [by exists (os_path full)|].
        intros k fd' Hk. destruct (Hfds _ _ Hk) as (p & Hp & Hbp). exists p. split; [|done].
        rewrite Hother, Hp1; [done|]. intros ->. rewrite Hp1 in Hfresh. congruence.
      * intros q Hq. cbn [fst set_io world]. rewrite Hfile, Hp2 by (by intros ->). by apply Hfiles.
    + intros s1 writers E. injection E as <- <-. by exists fd, (os_path full).
Qed.

(** Writing to a file below the root. *)
Lemma confined_write root w0 s s' p :
  confined root w0 s -> below_root root p -> only_file (world s) (world s') p ->
  sink_ s' = sink_ s -> accepted_ s' = accepted_ s -> confined root w0 s'.
Proof.
  intros (Hroot & Hfds & Hacc & Hfiles) Hp [Hw1 Hw2] Hk Ha. unfold confined. rewrite Hk, Ha.
  split; [done|]. split; [|split; [done|]].
  - intros k fd Hkey. rewrite Hw1. by apply (Hfds k).
  - intros q Hq. rewrite Hw2 by (by intros ->). by apply Hfiles.
Qed.

(** Closing a descriptor that is not in the registry. *)
Lemma confined_close root w0 s fd d :
  confined root w0 s -> map_Forall (fun _ fd' => fd' <> fd) (chunk_files_ (sink_ s)) ->
  confined root w0 (set_io s (fs_close (world s) fd).1 (sink_ s) d).
Proof.
  intros (Hroot & Hfds & Hacc & Hfiles) Hne. destruct (fs_close (world s) fd) as [w' r] eqn:E.
  destruct (close_frame _ _ _ _ E) as (_ & Hother & Hf). split; [done|]. split; [|split; [done|]].
  - intros k fd' Hk. cbn [fst set_io world]. rewrite Hother by (by eapply Hne). by apply (Hfds k).
  - intros q Hq. cbn [fst set_io world]. rewrite Hf. by apply Hfiles.
Qed.

Lemma read_blocks_accepted fuel : forall s u wire,
  let '(s', _, _, _) := read_blocks fuel s u wire in accepted_ s' = accepted_ s.
Proof.
  induction fuel as [|fuel IH]; intros s u wire; [done|]. cbn [read_blocks].
  destruct (read_spec 1 s) as (i1 & o1 & ->). destruct o1 as [bt|]; [|done].
  destruct (block_type_of_byte _) as [[]|]; [done| |done].
  destruct (read_spec 4 (set_input s i1)) as (i2 & o2 & ->). destruct o2 as [lb|]; [|done].
  destruct (_ || _); [done|].
  destruct (read_spec (Z.to_nat (read_u32_le lb)) (set_input (set_input s i1) i2)) as (i3 & o3 & ->).
  destruct o3 as [buf|]; [|done]. destruct (decompress _ _ _ _) as [[d [w1 u1]] ok].
  destruct ok; cbn [negb]; [|done].
  match goal with |- context [read_blocks fuel ?s1 u1 ?wr] => specialize (IH s1 u1 wr) end.
  by destruct (read_blocks fuel _ _ _) as [[[s2 u2] wire2] f].
Qed.

Lemma check_unit_spec s u : exists i o, check_unit checks s u = (set_input s i, o).
Proof.
  unfold check_unit. destruct checks; [|exists (input s), None; by destruct s].
  destruct (read_spec 8 s) as (i & o & ->). destruct o; [|eauto]. destruct (_ =? _); eauto.
Qed.

Lemma receive_unit_keeps root w0 type path base writers s fd p :
  confined root w0 s -> fs_fd (world s) fd = Some p -> below_root root p ->
  unit_fd (new_unit_sink checks type writers.1 writers.2 base) = Some fd ->
  type = File \/ type = Chunk ->
  (type = File -> map_Forall (fun _ fd' => fd' <> fd) (chunk_files_ (sink_ s))) ->
  confined root w0 (receive_unit checks type path base writers s).1.
Proof.
  intros Hs Hfd Hb Hu Htype Hreg. unfold receive_unit. set (u0 := new_unit_sink _ _ _ _ _) in *.
  pose proof (read_blocks_frame (S (length (input s))) fd p u0 (world s) s u0 0 Hu Hfd) as Hframe.
  pose proof (read_blocks_accepted (S (length (input s))) s u0 0) as Hacc.
  destruct (read_blocks _ _ _ _) as [[[s1 u1] wire] failure].
  destruct Hframe as [(Hof & Hu1 & Hch) Hk]; [by split; [apply only_file_refl|]|].
  cbn [fst snd] in *.
  assert (Hs1 : confined root w0 s1) by (by eapply confined_write).
  assert (Hs2 : exists s2 f2, (match failure with None => check_unit checks s1 u1 | Some f => (s1, Some f) end)
    = (s2, f2) /\ confined root w0 s2 /\ sink_ s2 = sink_ s1 /\ world s2 = world s1).
  { destruct failure as [f|]; [by exists s1, (Some f)|].
    destruct (check_unit_spec s1 u1) as (i & o & ->). by exists (set_input s1 i), o. }
  destruct Hs2 as (s2 & f2 & -> & Hs2 & Hk2 & Hw2).
  assert (Hfinal : forall s', world s' = world s2 /\ sink_ s' = sink_ s2 /\ accepted_ s' = accepted_ s2 ->
    confined root w0 s').
  { intros s' (H1 & H2 & H3). unfold confined. by rewrite H1, H2, H3. }
  destruct Htype as [-> | ->].
  - assert (Hclose : confined root w0 (set_io s2 (sequential_close (world s2) (sequential u1)).1 (sink_ s2)
      (decompressor_ s2))).
    { unfold sequential_close. destruct (0 <=? sw_fd (sequential u1)); [|by apply confined_io].
      rewrite Hu in Hu1. unfold unit_fd in Hu1. rewrite Hch in Hu1. cbn in Hu1.
      injection Hu1 as ->. apply (confined_close root w0 s2); [done|]. rewrite Hk2, Hk. by apply Hreg. }
    by destruct f2.
  - by destruct f2; apply Hfinal.
Qed.

Lemma unit_step_keeps root w0 : keeps root w0 (unit_step mode checks filter).
Proof.
  unfold unit_step. apply keeps_bind; [apply keeps_read|intros type_byte].
  assert (Hunit : forall type, keeps root w0 (bind (unit_header (has_mode mode ModeAccept) type)
    (fun header => let '(type, path, base) := header in
      bind (modify (fun s => emit s (UploadStarted path type base))) (fun _ s =>
        match open_unit type path s with
        | (s, None) => (emit s (UploadFinished path type base 0 0 false rejected), None)
        | (s, Some writers) => receive_unit checks type path base writers s
        end)))).
  { intros type s Hs. unfold bind at 1.
    pose proof (unit_header_keeps root w0 (has_mode mode ModeAccept) type s Hs) as [Hh Hty].
    destruct (unit_header _ _ s) as [s1 [[[type' path] base]|]]; [|done]. cbn [fst snd] in *.
    unfold bind, modify. set (s2 := emit s1 _).
    destruct (open_unit_keeps root w0 type' path base s2 Hh Hty) as [Ho Hwr].
    destruct (open_unit type' path s2) as [s3 [writers|]]; [|done].
    destruct (Hwr s3 writers eq_refl) as (fd & p & Hfd & Hb & Hu & Hreg).
    by eapply receive_unit_keeps. }
  destruct (unit_type_of_byte _) as [[]|]; try apply Hunit.
  - apply keeps_guarded. intros _. apply handle_probe_keeps.
  - apply keeps_stop.
Qed.

Lemma upload_loop_keeps root w0 fuel s :
  confined root w0 s -> confined root w0 (upload_loop mode checks filter fuel s).
Proof.
  revert s. induction fuel as [|fuel IH]; intros s Hs; [done|]. cbn [upload_loop].
  pose proof (unit_step_keeps root w0 s Hs) as Hstep.
  destruct (unit_step mode checks filter s) as [s1 [u|]]; [by apply IH|done].
Qed.

Lemma consumer_main_keeps root w0 s :
  confined root w0 s -> confined root w0 (consumer_main mode checks filter s).
Proof.
  intros Hs. unfold consumer_main. destruct (read_spec 1 s) as (i & o & ->).
  destruct o as [cmd|]; [|done]. destruct (cmd_of_byte _) as [[]|]; [|done].
  by apply upload_loop_keeps.
Qed.

(** C4: uploads are confined. Whatever bytes a client sends, whatever the
    decompressor and the file system answer, a session's consumer changes no file
    but those whose path is its normalised session directory followed by one or
    more plain names (not empty, a dot or a dot-dot, without a separator), cut at
    the first NUL as every path given to the system is. [wf_path] holds for
    every path made from a string; a new session has no open chunk file and no
    accepted unit. *)
Theorem upload_confined (s : Consumer W D) :
  wf_path (session_root_ (sink_ s)) -> chunk_files_ (sink_ s) = ∅ -> accepted_ s = ∅ ->
  let s' := consumer_main mode checks filter s in
  forall q, ~ below_root (session_root_ (sink_ s)) q -> fs_file (world s') q = fs_file (world s) q.
Proof.
  intros Hwf Hchunks Hacc s' q Hq.
  destruct (consumer_main_keeps (session_root_ (sink_ s)) (world s) s) as (_ & _ & _ & Hfiles); [|by apply Hfiles].
  split; [done|]. rewrite Hchunks, Hacc. split; [apply map_Forall_empty|]. split; [apply map_Forall_empty|done].
Qed.

End Safety.

(** The parent directory's files are not below the session directory. *)
Lemma demo_not_below : ~ below_root (path_of_string (str "store/ab")) (str "store/key").
Proof.
  intros (full & ns & Hne & _ & _ & Hn & Ha & Hq).
  assert (Hr : lexically_normal (path_of_string (str "store/ab")) =
    {| absolute := false; names := [str "store"; str "ab"]; trailing := false |}) by (vm_compute; reflexivity).
  rewrite Hr in Hn, Ha. cbn [names absolute] in Hn, Ha.
  destruct full as [abs nms tr]. cbn [names absolute] in Hn, Ha. subst abs nms.
  destruct ns as [|n ns]; [done|]. unfold os_path, path_string in Hq. cbn [absolute names trailing app] in Hq.
  rewrite !join_slash_cons in Hq by done. apply (f_equal (take 7)) in Hq. vm_compute in Hq. discriminate.
Qed.

(** An upload of the file [a], then of the file [../key] out of the session directory. *)
Definition demo_upload : bytes :=
  str "3" ++
  unit_type_to_byte File :: write_u16_le 1 ++ str "a" ++
  block_type_to_byte Data :: write_u32_le 2 ++ str "hi" ++ block_type_to_byte EndOfUnit ::
  unit_type_to_byte File :: write_u16_le 6 ++ str "../key" ++
  block_type_to_byte Data :: write_u32_le 2 ++ str "ho" ++ [block_type_to_byte EndOfUnit].

Definition demo_session : Consumer MemFs unit :=
  {| input := demo_upload; world := empty_fs; sink_ := new_file_sink (path_of_string (str "store/ab"));
     decompressor_ := tt; accepted_ := ∅; units_done_ := 0; bytes_total_ := 0;
     posted := []; emitted := [] |}.

Lemma upload_confined_witness :
  let s' := consumer_main (Dec := @zstd_decompressor unit Copy.decoder) 0 false (fun _ => true) demo_session in
  fs_file (world s') (str "store/ab/a") = Some (str "hi") /\
  fs_file (world s') (str "store/key") = fs_file (world demo_session) (str "store/key").
Proof.
  intros s'. split; [vm_compute; reflexivity|].
  exact (upload_confined (Frame := @zstd_frame unit Copy.decoder) 0 false (fun _ => true) demo_session
    (path_of_string_wf _) eq_refl eq_refl (str "store/key") demo_not_below).
Defined.

(** The second file is refused, and the session stops. *)
Example demo_upload_events :
  let s' := consumer_main (Dec := @zstd_decompressor unit Copy.decoder) 0 false (fun _ => true) demo_session in
  nth 3 (emitted s') (UploadStarted [] File 0) = UploadFinished (str "../key") File 0 0 0 false rejected.
Proof. vm_compute. reflexivity. Qed.

(** ** Termination *)

Section Termination.
Context {W D : Type} {Ops : FsOps W} {Dec : Decompressor D}.
Variables (mode : Z) (checks : bool) (filter : ProbeInfo -> bool).
Implicit Types (s : Consumer W D) (u : UnitSink).

Definition left_ s : nat := length (input s).

Lemma read_left n s :
  (left_ (read n s).1 <= left_ s)%nat /\
  (forall s1 b, read n s = (s1, Some b) -> left_ s = (n + left_ s1)%nat).
Proof.
  unfold read, stream_read, left_. destruct (Nat.leb_spec n (length (input s))); cbn.
  - split; [rewrite length_drop; lia|]. intros s1 b E. injection E as <- <-. cbn. rewrite length_drop. lia.
  - split; [lia|done].
Qed.

(** [m] never gives input back. *)
Definition shrinks {A} (m : @M W D A) : Prop := forall s, (left_ (m s).1 <= left_ s)%nat.

Lemma shrinks_bind {A B} (m : M A) (f : A -> M B) :
  shrinks m -> (forall a, shrinks (f a)) -> shrinks (bind m f).
Proof.
  intros Hm Hf s. unfold bind. specialize (Hm s). destruct (m s) as [s1 [a|]]; [|done].
  etransitivity; [apply Hf|done].
Qed.

Lemma shrinks_read n : shrinks (read n).
Proof. intros s. apply read_left. Qed.

Lemma shrinks_pure {A} (m : @M W D A) : (forall s, input (m s).1 = input s) -> shrinks m.
Proof. intros H s. unfold left_. by rewrite H. Qed.

Lemma shrinks_ret {A} (a : A) : shrinks (mret a).
Proof. by apply shrinks_pure. Qed.

Lemma shrinks_stop {A} : shrinks (stop (A := A)).
Proof. by apply shrinks_pure. Qed.

Lemma shrinks_gets {A} (f : Consumer W D -> A) : shrinks (gets f).
Proof. by apply shrinks_pure. Qed.

Lemma shrinks_guard b : shrinks (guard b).
Proof. destruct b; [apply shrinks_ret|apply shrinks_stop]. Qed.

Lemma shrinks_modify f : (forall s, input (f s) = input s) -> shrinks (modify f).
Proof. intros H. by apply shrinks_pure. Qed.

Ltac shrinks_tac :=
  repeat lazymatch goal with
    | |- shrinks (bind _ _) => apply shrinks_bind; [|intros ?]
    | |- shrinks (read _) => apply shrinks_read
    | |- shrinks (mret _) => apply shrinks_ret
    | |- shrinks stop => apply shrinks_stop
    | |- shrinks (gets _) => apply shrinks_gets
    | |- shrinks (guard _) => apply shrinks_guard
    | |- shrinks (modify _) => apply shrinks_modify; reflexivity
    | |- shrinks (match ?x with _ => _ end) => destruct x
    end.

Lemma handle_probe_shrinks : shrinks (handle_probe mode filter).
Proof. unfold handle_probe. shrinks_tac. Qed.

Lemma unit_header_shrinks accept type : shrinks (unit_header accept type).
Proof. unfold unit_header. shrinks_tac. Qed.

Lemma open_unit_shrinks type path : shrinks (open_unit type path).
Proof.
  apply shrinks_pure. intros s. unfold open_unit.
  destruct type; try (destruct (open_sequential _ _ _) as [w sq]; done);
    destruct (open_offset _ _ _) as [[w k] ow]; done.
Qed.

(** More fuel than bytes left makes no difference to the block loop. *)
Lemma read_blocks_fuel fuel : forall fuel' s u wire,
  (left_ s < fuel)%nat -> (left_ s < fuel')%nat ->
  read_blocks fuel s u wire = read_blocks fuel' s u wire /\
  (left_ (read_blocks fuel s u wire).1.1.1 <= left_ s)%nat.
Proof.
  induction fuel as [|fuel IH]; intros fuel' s u wire H1 H2; [lia|].
  destruct fuel' as [|fuel']; [lia|]. cbn [read_blocks].
  destruct (read_left 1 s) as [L1 E1]. destruct (read 1 s) as [s1 [bt|]]; [|done].
  specialize (E1 s1 bt eq_refl). cbn [fst] in L1.
  destruct (block_type_of_byte _) as [[]|]; [done| |done].
  destruct (read_left 4 s1) as [L2 _]. destruct (read 4 s1) as [s2 [lb|]]; cbn [fst] in *; [|split; [done|cbn; lia]].
  destruct (_ || _); [split; [done|cbn; lia]|].
  destruct (read_left (Z.to_nat (read_u32_le lb)) s2) as [L3 _].
  destruct (read _ s2) as [s3 [buf|]]; cbn [fst] in *; [|split; [done|cbn; lia]].
  destruct (decompress _ _ _ _) as [[d [w1 u1]] ok]. destruct ok; cbn [negb]; [|split; [done|cbn; unfold left_ in *; cbn; lia]].
  match goal with |- context [read_blocks fuel ?s4 u1 ?wr] =>
    destruct (IH fuel' s4 u1 wr) as [-> Hle]; [unfold left_ in *; cbn; lia..|] end.
  split; [done|]. unfold left_ in *. cbn in *. lia.
Qed.

Lemma receive_unit_shrinks type path base writers : shrinks (receive_unit checks type path base writers).
Proof.
  intros s. unfold receive_unit.
  destruct (read_blocks_fuel (S (length (input s))) (S (length (input s))) s
    (new_unit_sink checks type writers.1 writers.2 base) 0) as [_ Hle]; [unfold left_; lia..|].
  destruct (read_blocks _ _ _ _) as [[[s1 u1] wire] failure]. cbn [fst] in Hle.
  assert (Hck : (left_ (match failure with None => check_unit checks s1 u1 | Some f => (s1, Some f) end).1
    <= left_ s)%nat).
  { destruct failure; [done|]. unfold check_unit. destruct checks; [|done].
    destruct (read_left 8 s1) as [L _]. destruct (read 8 s1) as [s2 [b|]]; cbn [fst] in *; [|lia].
    destruct (_ =? _); cbn; lia. }
  destruct (match failure with None => _ | Some _ => _ end) as [s2 f2]. cbn [fst] in Hck.
  destruct type, f2; exact Hck.
Qed.

(** A unit that goes on has consumed at least its type byte. *)
Lemma unit_step_left s s' : unit_step mode checks filter s = (s', Some tt) -> (left_ s' < left_ s)%nat.
Proof.
  unfold unit_step, bind at 1. destruct (read_left 1 s) as [_ E1].
  destruct (read 1 s) as [s1 [tb|]]; [|done]. specialize (E1 s1 tb eq_refl). intros E.
  assert (Hs : (left_ s' <= left_ s1)%nat); [|lia].
  match type of E with ?m s1 = _ => assert (Hm : shrinks m); [|specialize (Hm s1); by rewrite E in Hm] end.
  assert (Hunit : forall type, shrinks (bind (unit_header (has_mode mode ModeAccept) type)
    (fun header => let '(type, path, base) := header in
      bind (modify (fun s => emit s (UploadStarted path type base))) (fun _ s =>
        match open_unit type path s with
        | (s, None) => (emit s (UploadFinished path type base 0 0 false rejected), None)
        | (s, Some writers) => receive_unit checks type path base writers s
        end)))).
  { intros type. apply shrinks_bind; [apply unit_header_shrinks|intros [[type' path] base]].
    apply shrinks_bind; [by apply shrinks_pure|intros _ s2].
    pose proof (open_unit_shrinks type' path s2) as Ho.
    destruct (open_unit type' path s2) as [s3 [writers|]]; cbn [fst] in *; [|exact Ho].
    etransitivity; [apply receive_unit_shrinks|done]. }
  destruct (unit_type_of_byte _) as [[]|]; try apply Hunit.
  - apply shrinks_bind; [destruct (has_mode _ _); by apply shrinks_pure|intros _; apply handle_probe_shrinks].
  - by apply shrinks_pure.
Qed.

(** The upload loops end. The consumer's loops are modelled with the number
    of unread bytes as fuel; any larger amount gives the same result, so the model
    never stops for lack of it, on any input: every unit that goes on has read at
    least a byte, and so has every block. *)
Theorem handle_upload_terminates (s : Consumer W D) (u : UnitSink) (wire : Z) (fuel : nat) :
  (length (input s) < fuel)%nat ->
  upload_loop mode checks filter fuel s = handle_upload mode checks filter s /\
  read_blocks fuel s u wire = read_blocks (S (length (input s))) s u wire.
Proof.
  intros Hfuel. split; [|by apply read_blocks_fuel; unfold left_; lia].
  unfold handle_upload. assert (H2 : (left_ s < S (length (input s)))%nat) by (unfold left_; lia).
  assert (H1 : (left_ s < fuel)%nat) by done. clear Hfuel. revert H1 H2.
  generalize (S (length (input s))) as fuel'. revert s.
  induction fuel as [|fuel IH]; intros s fuel' H1 H2; [lia|]. destruct fuel' as [|fuel']; [lia|].
  cbn [upload_loop]. destruct (unit_step mode checks filter s) as [s1 [[]|]] eqn:E; [|done].
  apply unit_step_left in E. apply IH; lia.
Qed.

End Termination.

Lemma handle_upload_terminates_witness :
  let s : Consumer MemFs unit :=
    {| input := str "abc"; world := empty_fs; sink_ := new_file_sink (path_of_string (str "store/ab"));
       decompressor_ := tt; accepted_ := ∅; units_done_ := 0; bytes_total_ := 0;
       posted := []; emitted := [] |} in
  let u := new_unit_sink true File no_sequential no_offset 0 in
  upload_loop (Dec := @zstd_decompressor unit Copy.decoder) 0 true (fun _ => true) 9 s =
    handle_upload (Dec := @zstd_decompressor unit Copy.decoder) 0 true (fun _ => true) s /\
  read_blocks (Dec := @zstd_decompressor unit Copy.decoder) 9 s u 0 =
    read_blocks (Dec := @zstd_decompressor unit Copy.decoder) (S (length (input s))) s u 0.
Proof. intros s u. apply (handle_upload_terminates 0 true (fun _ => true) s u 0 9). simpl. lia. Defined.
