(* ===== verification/Reports.v ===== *)
(** * What a consumer reports (src/server/connection.cxx)

    The events, the replies and the two counters of a connection, for arbitrary
    input and libraries that may answer anything: each unit that is started is
    finished once, a failure is the last thing reported, and the counters are
    those of the units reported as stored. *)

From S2P Require Import Prelude Wire Protocol XXHash ByteChannel FileSink Codec Upload.

(** The two counters after the events of a connection; [None]: not the events of
    one connection. *)
Fixpoint tally (es : list event) (units bytes_ : Z) : option (Z * Z) :=
  match es with
  | [] => Some (units, bytes_)
  | UploadSkipped _ _ _ _ :: es => tally es units bytes_
  | UploadStarted path type off :: UploadFinished path' type' off' _ n ok reason :: es =>
      if bool_decide (path = path' /\ type = type' /\ off = off' /\ (ok = true <-> reason = [])) then
        if ok then tally es (wrap 64 (units + 1)) (wrap 64 (bytes_ + n))
        else match es with [] => Some (units, bytes_) | _ => None end
      else None
  | _ => None
  end.

Definition is_skipped (e : event) : bool := match e with UploadSkipped _ _ _ _ => true | _ => false end.

(** A reply is a decision and a key. *)
Definition is_reply (r : bytes) : bool := bool_decide (length r = kProbeReplySize).
Definition is_rejection (r : bytes) : bool := bool_decide (nth 0 r x00 = decision_to_byte DecisionReject).

Section Reports.
Context {W D : Type} {Ops : FsOps W} {Dec : Decompressor D}.
Variables (mode : Z) (checks : bool) (filter_ : ProbeInfo -> bool).
Implicit Types (s : Consumer W D) (u : UnitSink).

Definition books s : list event * list bytes * Z * Z := (emitted s, posted s, units_done_ s, bytes_total_ s).

(** [m] leaves the books as they are. *)
Definition quiet {A} (m : @M W D A) : Prop := forall s, books (m s).1 = books s.

Lemma quiet_bind {A B} (m : M A) (f : A -> M B) : quiet m -> (forall a, quiet (f a)) -> quiet (bind m f).
Proof.
  intros Hm Hf s. unfold bind. specialize (Hm s). destruct (m s) as [s1 [a|]]; [|done]. cbn [fst] in Hm.
  by rewrite Hf.
Qed.

Lemma quiet_ret {A} (a : A) : quiet (mret a).
Proof. done. Qed.

Lemma quiet_stop {A} : quiet (stop (A := A)).
Proof. done. Qed.

Lemma quiet_guard b : quiet (guard b).
Proof. by destruct b. Qed.

Lemma quiet_read n : quiet (read n).
Proof. intros s. unfold read. by destruct (stream_read n (input s)) as [[? ?]|]. Qed.

Lemma quiet_gets {A} (f : Consumer W D -> A) : quiet (gets f).
Proof. done. Qed.

Lemma quiet_accepted f : quiet (modify (fun s => set_accepted s (f s))).
Proof. done. Qed.

Ltac quiet_tac :=
  repeat first
    [ apply quiet_bind; [|intros ?] | apply quiet_ret | apply quiet_stop | apply quiet_guard
    | apply quiet_read | apply quiet_gets | apply quiet_accepted
    | match goal with |- quiet (match ?x with _ => _ end) => destruct x end ].

Lemma unit_header_quiet accept type : quiet (unit_header accept type).
Proof. unfold unit_header. quiet_tac. Qed.

Lemma open_unit_quiet type path : quiet (open_unit type path).
Proof.
  intros s. unfold open_unit. destruct type; try (by destruct (open_offset _ _ _) as [[? ?] ?]).
  by destruct (open_sequential _ _ _).
Qed.

Definition reasons : list bytes := [connection_lost; protocol_error; decode_error; checksum_mismatch; rejected].

Ltac in_reasons := cbv beta iota; (split; [congruence || reflexivity|]); first [done | by apply (bool_decide_eq_true_1 _)].

Lemma read_blocks_quiet fuel : forall s u wire,
  let '(s', _, _, failure) := read_blocks fuel s u wire in
  books s' = books s /\ match failure with Some f => f ∈ reasons | None => True end.
Proof.
  induction fuel as [|fuel IH]; intros s u wire; cbn [read_blocks]; [in_reasons|].
  pose proof (quiet_read 1 s) as H1. destruct (read 1 s) as [s1 [bt|]]; cbn [fst] in H1; [|in_reasons].
  destruct (block_type_of_byte _) as [[]|]; [in_reasons| |in_reasons].
  pose proof (quiet_read 4 s1) as H2. destruct (read 4 s1) as [s2 [lb|]]; cbn [fst] in H2; [|in_reasons].
  destruct (_ || _); [in_reasons|].
  pose proof (quiet_read (Z.to_nat (read_u32_le lb)) s2) as H3. destruct (read _ s2) as [s3 [buf|]]; cbn [fst] in H3;
    [|in_reasons].
  destruct (decompress _ _ _ _) as [[d [w1 u1]] ok]. rewrite <- H1, <- H2, <- H3.
  destruct ok; cbn [negb]; [|in_reasons].
  match goal with |- context [read_blocks fuel ?s4 u1 ?wr] => specialize (IH s4 u1 wr) end.
  destruct (read_blocks fuel _ _ _) as [[[s5 u5] wire5] f]. destruct IH as [-> IH]. by auto.
Qed.

Lemma check_unit_quiet s u : books (check_unit checks s u).1 = books s /\
  match (check_unit checks s u).2 with Some f => f ∈ reasons | None => True end.
Proof.
  unfold check_unit. destruct checks; [|done]. pose proof (quiet_read 8 s) as H. destruct (read 8 s) as [s1 [b|]]; cbn [fst] in H.
  - destruct (_ =? _); cbn [fst snd]; in_reasons.
  - cbn [fst snd]. in_reasons.
Qed.

(** What one iteration of the unit loop adds to the books; [goes_on]: the loop
    is not left. *)
Inductive told : bool -> list event -> list bytes -> Z * Z -> Z * Z -> Prop :=
  | told_accepted key c :
      told true [] [decision_to_byte DecisionAccept :: write_u64_le key] c c
  | told_rejected path type off n key c :
      told true [UploadSkipped path type off n] [decision_to_byte DecisionReject :: write_u64_le key] c c
  | told_stored path type off wire n units total :
      told true [UploadStarted path type off; UploadFinished path type off wire n true []] []
        (units, total) (wrap 64 (units + 1), wrap 64 (total + n))
  | told_failed path type off wire n reason c : reason ∈ reasons ->
      told false [UploadStarted path type off; UploadFinished path type off wire n false reason] [] c c
  | told_left c : told false [] [] c c.

Definition goes_on {A} (o : option A) : bool := match o with Some _ => true | None => false end.

Definition tells {A} (m : @M W D A) : Prop := forall s, exists es ps c,
  books (m s).1 = (emitted s ++ es, posted s ++ ps, c.1, c.2) /\
  told (goes_on (m s).2) es ps (units_done_ s, bytes_total_ s) c.

Lemma tells_left (A : Type) s s' :
  books s' = books s -> exists es ps c, books s' = (emitted s ++ es, posted s ++ ps, c.1, c.2) /\
    told (goes_on (None : option A)) es ps (units_done_ s, bytes_total_ s) c.
Proof using.
  intros ->. exists [], [], (units_done_ s, bytes_total_ s). rewrite !app_nil_r. split; [done|constructor].
Qed.

Lemma tells_bind {A B} (m : M A) (f : A -> M B) : quiet m -> (forall a, tells (f a)) -> tells (bind m f).
Proof.
  intros Hm Hf s. unfold bind. specialize (Hm s). destruct (m s) as [s1 [a|]]; cbn [fst snd] in *.
  - destruct (Hf a s1) as (es & ps & c & H). exists es, ps, c. injection Hm as H1 H2 H3 H4.
    by rewrite H1, H2, H3, H4 in H.
  - by apply (tells_left B).
Qed.

Lemma tells_stop {A} : tells (stop (A := A)).
Proof. intros s. by apply (tells_left A). Qed.

Lemma handle_probe_tells : tells (handle_probe mode filter_).
Proof.
  unfold handle_probe. apply tells_bind; [apply quiet_read|intros head]. apply tells_bind; [apply quiet_guard|intros _].
  apply tells_bind; [apply quiet_read|intros path]. apply tells_bind; [apply quiet_read|intros sizes].
  apply tells_bind; [destruct (has_mode mode HashFirst); [apply quiet_read|apply quiet_ret]|intros hash].
  intros s. unfold bind, modify. set (p := {| probe_path := _ |}). destruct (filter_ p).
  - do 2 eexists. exists (units_done_ s, bytes_total_ s). split; [|apply told_accepted].
    cbn. by rewrite app_nil_r.
  - do 2 eexists. exists (units_done_ s, bytes_total_ s). split; [|apply told_rejected]. done.
Qed.

(** A unit from its blocks on: one more event, and the counters of a unit that
    was stored. *)
Lemma receive_unit_tells type path base writers s : exists wire n,
  match receive_unit checks type path base writers s with
  | (s', Some _) => books s' = (emitted s ++ [UploadFinished path type base wire n true []], posted s,
      wrap 64 (units_done_ s + 1), wrap 64 (bytes_total_ s + n))
  | (s', None) => exists reason, reason ∈ reasons /\
      books s' = (emitted s ++ [UploadFinished path type base wire n false reason], posted s, units_done_ s, bytes_total_ s)
  end.
Proof.
  unfold receive_unit. pose proof (read_blocks_quiet (S (length (input s))) s (new_unit_sink checks type writers.1 writers.2 base) 0) as Hr.
  destruct (read_blocks _ _ _ _) as [[[s2 u2] wire] f]. destruct Hr as [Hr Hf]. exists wire, (running u2).
  assert (Hc : exists s3 f3, (match f with None => check_unit checks s2 u2 | Some f => (s2, Some f) end) = (s3, f3) /\
    books s3 = books s2 /\ match f3 with Some f => f ∈ reasons | None => True end).
  { destruct f as [f|]; [by exists s2, (Some f)|]. destruct (check_unit_quiet s2 u2).
    destruct (check_unit checks s2 u2) as [s3 f3]. by exists s3, f3. }
  destruct Hc as (s3 & f3 & -> & Hb & Hf3).
  set (s4 := match type with File => _ | _ => _ end).
  assert (Hb4 : books s4 = books s) by (rewrite <- Hr, <- Hb; by destruct type). injection Hb4 as H1 H2 H3 H4.
  destruct f3 as [f3|]; [exists f3; split; [done|]|];
    unfold books; cbn [emit count_unit emitted posted units_done_ bytes_total_]; by rewrite H1, H2, H3, H4.
Qed.

(** The body of a unit's iteration behind its header. *)
Lemma unit_tells type path base : tells (bind (modify (fun s => emit s (UploadStarted path type base)))
  (fun _ s => match open_unit type path s with
              | (s, None) => (emit s (UploadFinished path type base 0 0 false rejected), None)
              | (s, Some writers) => receive_unit checks type path base writers s
              end)).
Proof.
  intros s. unfold bind, modify. set (s0 := emit s _). pose proof (open_unit_quiet type path s0) as Ho.
  assert (Hfail : forall wire n reason s', reason ∈ reasons ->
    books s' = (emitted s0 ++ [UploadFinished path type base wire n false reason], posted s0, units_done_ s0, bytes_total_ s0) ->
    exists es ps c, books s' = (emitted s ++ es, posted s ++ ps, c.1, c.2) /\
      told false es ps (units_done_ s, bytes_total_ s) c).
  { intros wire n reason s' Hin ->. eexists _, [], (units_done_ s, bytes_total_ s).
    split; [|by apply (told_failed path type base wire n)]. cbn. by rewrite app_nil_r, <- app_assoc. }
  destruct (open_unit type path s0) as [s1 [writers|]]; cbn [fst] in Ho; injection Ho as H1 H2 H3 H4.
  - destruct (receive_unit_tells type path base writers s1) as (wire & n & Hr).
    destruct (receive_unit _ _ _ _ _ _) as [s2 [r|]].
    + eexists _, [], (wrap 64 (units_done_ s + 1), wrap 64 (bytes_total_ s + n)).
      split; [|by apply (told_stored path type base wire n)]. cbn [fst snd]. rewrite Hr, H1, H2, H3, H4.
      cbn. by rewrite app_nil_r, <- app_assoc.
    + destruct Hr as (reason & Hin & Hr). apply (Hfail wire n reason); [done|]. cbn [fst]. rewrite Hr, H1, H2, H3, H4. done.
  - apply (Hfail 0 0 rejected); [by apply (bool_decide_eq_true_1 _)|]. unfold books. cbn. by rewrite H1, H2, H3, H4.
Qed.

Lemma unit_step_tells : tells (unit_step mode checks filter_).
Proof.
  unfold unit_step. apply tells_bind; [apply quiet_read|intros b].
  assert (Hu : forall type, tells (bind (unit_header (has_mode mode ModeAccept) type)
    (fun header => let '(type, path, base) := header in bind (modify (fun s => emit s (UploadStarted path type base)))
      (fun _ s => match open_unit type path s with
                  | (s, None) => (emit s (UploadFinished path type base 0 0 false rejected), None)
                  | (s, Some writers) => receive_unit checks type path base writers s
                  end)))).
  { intros type. apply tells_bind; [apply unit_header_quiet|]. intros [[ty path] base]. apply unit_tells. }
  destruct (unit_type_of_byte _) as [[]|]; first [apply Hu | apply tells_stop |
    apply tells_bind; [apply quiet_guard|intros _; apply handle_probe_tells]].
Qed.

(** ** The whole session *)

Lemma told_tally goes es ps units total c es' : told goes es ps (units, total) c ->
  (goes = false -> es' = []) -> tally (es ++ es') units total = tally es' c.1 c.2.
Proof using.
  intros H. inversion H; subst; intros Hlast; cbn; try done.
  - rewrite bool_decide_eq_true_2 by done. done.
  - rewrite Hlast by done. rewrite bool_decide_eq_true_2; [done|]. split_and!; try done. split; [done|].
    intros ->. by apply (bool_decide_eq_true_2 _) in H0.
Qed.

Lemma told_replies goes es ps c c' : told goes es ps c c' ->
  Forall (fun r => is_reply r = true) ps /\
  length (filter (fun r => is_rejection r = true) ps) = length (filter (fun e => is_skipped e = true) es).
Proof using. destruct 1; (split; [repeat constructor|]; reflexivity). Qed.

Lemma upload_loop_reports fuel : forall s, let s' := upload_loop mode checks filter_ fuel s in exists es ps,
  emitted s' = emitted s ++ es /\ posted s' = posted s ++ ps /\
  tally es (units_done_ s) (bytes_total_ s) = Some (units_done_ s', bytes_total_ s') /\
  Forall (fun r => is_reply r = true) ps /\
  length (filter (fun r => is_rejection r = true) ps) = length (filter (fun e => is_skipped e = true) es).
Proof.
  induction fuel as [|fuel IH]; intros s; cbn [upload_loop].
  { exists [], []. by rewrite !app_nil_r. }
  destruct (unit_step_tells s) as (es & ps & c & Hb & Ht). pose proof (told_replies _ _ _ _ _ Ht) as [Hr Hn].
  destruct (unit_step mode checks filter_ s) as [s1 [r|]]; cbn [fst snd goes_on] in *; injection Hb as H1 H2 H3 H4.
  - destruct (IH s1) as (es2 & ps2 & E1 & E2 & E3 & E4 & E5). exists (es ++ es2), (ps ++ ps2).
    rewrite E1, E2, H1, H2, !app_assoc. split; [done|]. split; [done|].
    split; [rewrite (told_tally _ _ _ _ _ _ es2 Ht) by done; by rewrite <- H3, <- H4|].
    split; [by apply Forall_app|]. rewrite !filter_app, !length_app. lia.
  - exists es, ps. split; [done|]. split; [done|]. split; [|done].
    pose proof (told_tally _ _ _ _ _ _ [] Ht (fun _ => eq_refl)) as E. rewrite app_nil_r in E. rewrite E. cbn. by rewrite H3, H4.
Qed.
End Reports.

(** ** Properties *)

(** C5: the events of a connection account for its counters, whatever its client
    sends and whatever the libraries, the disk and the filter answer: they are
    skipped units, and units started and at once finished under the same path,
    type and offset; only the last can be a failure, which alone has a reason;
    [units_done_] and [bytes_total_], which the closing connection reports, are
    those of the units finished as stored, modulo 2^64; every reply that is posted
    has the size the client waits for, and as many are rejections as units are
    reported skipped. *)
Theorem reports_account {W D : Type} {Ops : FsOps W} {Dec : Decompressor D}
    (mode : Z) (checks : bool) (filter_ : ProbeInfo -> bool) (s : Consumer W D) :
  let s' := handle_upload mode checks filter_ s in
  exists es ps, emitted s' = emitted s ++ es /\ posted s' = posted s ++ ps /\
    tally es (units_done_ s) (bytes_total_ s) = Some (units_done_ s', bytes_total_ s') /\
    Forall (fun r => is_reply r = true) ps /\
    length (filter (fun r => is_rejection r = true) ps) = length (filter (fun e => is_skipped e = true) es).
Proof. apply upload_loop_reports. Qed.
