(* ===== verification/Affinity.v ===== *)
(** * Worker affinity (src/client/affinity.h)

    A file's extension decides which worker's compression history suits it: a
    flavor is packed into a key, and the distance between two keys is what
    [Scheduler::selectWorker] minimises. *)

From S2P Require Import Prelude PosixPath.

Inductive Flavor := FNone | FOpaque | FProse | FStructured | FTabular | FCode | FLogs | FGeneric.

Record AffinityVector := {
  structure_ : Z;
  tokens : Z;
  records : Z;
  opaque : bool;
  cold : bool;
}.

Definition kOpaqueBit : Z := Z.shiftl 1 24.
Definition kColdBit : Z := Z.shiftl 1 25.
Definition kColdCost : Z := 16.
Definition kWallCost : Z := Z.shiftl 1 20.

Definition packAffinity (v : AffinityVector) : Z :=
  let value := Z.lor (Z.lor (structure_ v) (Z.shiftl (tokens v) 8)) (Z.shiftl (records v) 16) in
  let value := if opaque v then Z.lor value kOpaqueBit else value in
  if cold v then Z.lor value kColdBit else value.

Definition unpackAffinity (value : Z) : AffinityVector :=
  {| structure_ := Z.land value 0xFF;
     tokens := Z.land (Z.shiftr value 8) 0xFF;
     records := Z.land (Z.shiftr value 16) 0xFF;
     opaque := negb (Z.land value kOpaqueBit =? 0);
     cold := negb (Z.land value kColdBit =? 0) |}.

Definition affinityOf (flavor : Flavor) : Z :=
  match flavor with
  | FNone => packAffinity {| structure_ := 0; tokens := 0; records := 0; opaque := false; cold := true |}
  | FOpaque => packAffinity {| structure_ := 0; tokens := 0; records := 0; opaque := true; cold := false |}
  | FProse => packAffinity {| structure_ := 0; tokens := 0; records := 0; opaque := false; cold := false |}
  | FStructured => packAffinity {| structure_ := 9; tokens := 0; records := 0; opaque := false; cold := false |}
  | FTabular => packAffinity {| structure_ := 3; tokens := 0; records := 9; opaque := false; cold := false |}
  | FCode => packAffinity {| structure_ := 2; tokens := 9; records := 2; opaque := false; cold := false |}
  | FLogs => packAffinity {| structure_ := 2; tokens := 0; records := 8; opaque := false; cold := false |}
  | FGeneric => packAffinity {| structure_ := 1; tokens := 0; records := 1; opaque := false; cold := false |}
  end.

(** The differences are [int32_t]; their squares of at most 255 do not overflow. *)
Definition distance (incoming resident : Z) : Z :=
  let left := unpackAffinity incoming in
  let right := unpackAffinity resident in
  if cold right then kColdCost
  else if negb (Bool.eqb (opaque left) (opaque right)) then kWallCost
  else if opaque left && opaque right then 0
  else
    let deltaStructure := structure_ left - structure_ right in
    let deltaTokens := tokens left - tokens right in
    let deltaRecords := records left - records right in
    wrap 32 (deltaStructure * deltaStructure + deltaTokens * deltaTokens + deltaRecords * deltaRecords).

Definition flavorTable : gmap bytes Flavor := list_to_map
  ([(str "png", FOpaque); (str "jpg", FOpaque); (str "jpeg", FOpaque);
    (str "gif", FOpaque); (str "webp", FOpaque); (str "mp4", FOpaque);
    (str "mkv", FOpaque); (str "mov", FOpaque); (str "webm", FOpaque);
    (str "mp3", FOpaque); (str "flac", FOpaque); (str "ogg", FOpaque);
    (str "zip", FOpaque); (str "gz", FOpaque); (str "zst", FOpaque);
    (str "xz", FOpaque); (str "7z", FOpaque); (str "rar", FOpaque);
    (str "pdf", FOpaque); (str "docx", FOpaque); (str "xlsx", FOpaque);
    (str "exe", FOpaque); (str "dll", FOpaque); (str "woff2", FOpaque);
    (str "txt", FProse); (str "md", FProse); (str "rst", FProse);
    (str "json", FStructured); (str "xml", FStructured); (str "html", FStructured);
    (str "htm", FStructured); (str "yaml", FStructured); (str "yml", FStructured);
    (str "toml", FStructured); (str "svg", FStructured);
    (str "csv", FTabular); (str "tsv", FTabular);
    (str "c", FCode); (str "h", FCode); (str "cpp", FCode);
    (str "hpp", FCode); (str "cc", FCode); (str "py", FCode);
    (str "js", FCode); (str "ts", FCode); (str "go", FCode);
    (str "rs", FCode); (str "java", FCode); (str "sql", FCode);
    (str "log", FLogs)] : list (bytes * Flavor)).

Definition dot_char : byte := z2b 0x2e.

(** The part of [s] from its last dot on, if it has one. *)
Fixpoint from_last_dot (s : bytes) : option bytes :=
  match s with
  | [] => None
  | c :: s' =>
      match from_last_dot s' with
      | Some e => Some e
      | None => if bool_decide (c = dot_char) then Some s else None
      end
  end.

(** [path::extension]: of the last component; a name that starts with its only
    dot, and the names dot and dot-dot, have none. *)
Definition extension (path : bytes) : bytes :=
  let name := default [] (last (split_slash path)) in
  if bool_decide (name = dot) || bool_decide (name = dotdot) then []
  else
    match from_last_dot name with
    | Some e => if bool_decide (e = name) then [] else e
    | None => []
    end.

Definition to_lower (c : byte) : byte :=
  if (0x41 <=? b2z c) && (b2z c <=? 0x5a) then z2b (b2z c + 0x20) else c.

Definition loweredExtension (path : bytes) : bytes :=
  let ext := extension path in
  let ext := match ext with c :: e => if bool_decide (c = dot_char) then e else ext | [] => ext end in
  map to_lower ext.

Definition classify (path : bytes) : Flavor :=
  match loweredExtension path with
  | [] => FGeneric
  | ext => default FGeneric (flavorTable !! ext)
  end.

Definition forPath (path : bytes) : Z := affinityOf (classify path).

Example classify_examples :
  map (fun p => classify p) [str "a/b.PNG"; str "x.tar.gz"; str ".log"; str "Makefile"; str "a.b/c"; str "m.Cpp"; str "z."]
  = [FOpaque; FOpaque; FGeneric; FGeneric; FGeneric; FCode; FGeneric].
Proof. vm_compute. reflexivity. Qed.

(** ** Packing *)

Definition vector_ok (v : AffinityVector) : Prop :=
  0 <= structure_ v < 256 /\ 0 <= tokens v < 256 /\ 0 <= records v < 256.

(** A packed key as a sum of its fields. *)
Lemma pack_sum v :
  vector_ok v ->
  packAffinity v = structure_ v + 256 * (tokens v + 256 * (records v +
    256 * (Z.b2z (opaque v) + 2 * Z.b2z (cold v)))).
Proof.
  intros (Hs & Ht & Hr). unfold packAffinity, kOpaqueBit, kColdBit.
  rewrite (lor_shiftl_add (structure_ v)) by lia.
  rewrite (lor_shiftl_add _ (records v)) by lia.
  set (x := structure_ v + tokens v * 2 ^ 8 + records v * 2 ^ 16).
  assert (Hx : 0 <= x < 2 ^ 24) by (unfold x; lia).
  assert (Ho : (if opaque v then Z.lor x (Z.shiftl 1 24) else x) = x + Z.b2z (opaque v) * 2 ^ 24 /\
               0 <= x + Z.b2z (opaque v) * 2 ^ 24 < 2 ^ 25).
  { destruct (opaque v); cbn [Z.b2z]; [rewrite lor_shiftl_add by lia|]; lia. }
  destruct Ho as [-> Ho]. destruct (cold v); cbn [Z.b2z]; [rewrite lor_shiftl_add by lia|]; unfold x; lia.
Qed.

Lemma bit_field n x : 0 <= n -> (Z.land x (Z.shiftl 1 n) =? 0) = negb (Z.testbit x n).
Proof.
  intros Hn. rewrite Z.shiftl_1_l. destruct (Z.eqb_spec (Z.land x (2 ^ n)) 0) as [H|H].
  - apply (f_equal (fun y => Z.testbit y n)) in H.
    rewrite Z.land_spec, Z.pow2_bits_true, andb_true_r, Z.bits_0 in H by done. by rewrite H.
  - destruct (Z.testbit x n) eqn:E; [done|]. exfalso. apply H. apply Z.bits_inj'. intros k Hk.
    rewrite Z.land_spec, Z.bits_0, Z.pow2_bits_eqb by done.
    destruct (Z.eqb_spec n k); [subst; by rewrite E|apply andb_false_r].
Qed.

Lemma unpack_pack v : vector_ok v -> unpackAffinity (packAffinity v) = v.
Proof.
  intros Hv. unfold unpackAffinity, kOpaqueBit, kColdBit. rewrite !bit_field by lia.
  rewrite !negb_involutive. rewrite pack_sum by done. destruct Hv as (Hs & Ht & Hr).
  change 0xFF with (Z.ones 8). rewrite !land_ones_wrap, !Z.shiftr_div_pow2 by lia. unfold wrap.
  rewrite !Z.testbit_odd, !Z.shiftr_div_pow2 by lia.
  destruct v as [s t r o c]. cbn [structure_ tokens records opaque cold] in *.
  set (x := s + _).
  assert (H1 : x mod 2 ^ 8 = s) by (unfold x; destruct o, c; cbn [Z.b2z]; zdm).
  assert (H2 : x / 2 ^ 8 mod 2 ^ 8 = t) by (unfold x; destruct o, c; cbn [Z.b2z]; zdm).
  assert (H3 : x / 2 ^ 16 mod 2 ^ 8 = r) by (unfold x; destruct o, c; cbn [Z.b2z]; zdm).
  assert (H4 : x / 2 ^ 24 = Z.b2z o + 2 * Z.b2z c) by (unfold x; destruct o, c; cbn [Z.b2z]; zdm).
  assert (H5 : x / 2 ^ 25 = Z.b2z c) by (unfold x; destruct o, c; cbn [Z.b2z]; zdm).
  rewrite H1, H2, H3, H4, H5. by destruct o, c.
Qed.

Lemma unpack_ok k : vector_ok (unpackAffinity k).
Proof.
  unfold vector_ok, unpackAffinity. cbn [structure_ tokens records].
  change 0xFF with (Z.ones 8). rewrite !land_ones_wrap by lia. change 256 with (2 ^ 8).
  repeat split; apply wrap_range; lia.
Qed.

(** ** Distances *)

Lemma square_bound x y : 0 <= x < 256 -> 0 <= y < 256 -> 0 <= (x - y) * (x - y) <= 65025.
Proof. intros. split; [apply Z.square_nonneg|]. assert (-255 <= x - y <= 255) by lia. nia. Qed.

Lemma distance_wrap i r :
  let left := unpackAffinity i in let right := unpackAffinity r in
  let sum := (structure_ left - structure_ right) * (structure_ left - structure_ right) +
             (tokens left - tokens right) * (tokens left - tokens right) +
             (records left - records right) * (records left - records right) in
  wrap 32 sum = sum /\ 0 <= sum <= 195075.
Proof.
  destruct (unpack_ok i) as (? & ? & ?), (unpack_ok r) as (? & ? & ?). cbv zeta.
  pose proof (square_bound (structure_ (unpackAffinity i)) (structure_ (unpackAffinity r)) ltac:(lia) ltac:(lia)).
  pose proof (square_bound (tokens (unpackAffinity i)) (tokens (unpackAffinity r)) ltac:(lia) ltac:(lia)).
  pose proof (square_bound (records (unpackAffinity i)) (records (unpackAffinity r)) ltac:(lia) ltac:(lia)).
  split; [|lia]. apply wrap_small. split; lia.
Qed.

Lemma squares_zero a b c d e f :
  (a - b) * (a - b) + (c - d) * (c - d) + (e - f) * (e - f) = 0 -> a = b /\ c = d /\ e = f.
Proof.
  intros H. pose proof (Z.square_nonneg (a - b)). pose proof (Z.square_nonneg (c - d)).
  pose proof (Z.square_nonneg (e - f)).
  assert ((a - b) * (a - b) = 0 /\ (c - d) * (c - d) = 0 /\ (e - f) * (e - f) = 0) as (Z1 & Z2 & Z3) by lia.
  apply Z.mul_eq_0 in Z1, Z2, Z3. lia.
Qed.

(** The distance never exceeds the wall, reaches it only across it, and is 0
    exactly for the same warm flavor of data. *)
Lemma distance_spec i r :
  0 <= distance i r <= kWallCost /\
  (distance i r = kWallCost <->
    cold (unpackAffinity r) = false /\ opaque (unpackAffinity i) <> opaque (unpackAffinity r)) /\
  (distance i r = 0 <->
    cold (unpackAffinity r) = false /\ opaque (unpackAffinity i) = opaque (unpackAffinity r) /\
    (opaque (unpackAffinity r) = true \/
     structure_ (unpackAffinity i) = structure_ (unpackAffinity r) /\
     tokens (unpackAffinity i) = tokens (unpackAffinity r) /\
     records (unpackAffinity i) = records (unpackAffinity r))).
Proof.
  unfold distance. destruct (distance_wrap i r) as [Hw Hb]. cbv zeta in Hw, Hb. cbv zeta. rewrite Hw.
  change kWallCost with 1048576. change kColdCost with 16.
  destruct (cold (unpackAffinity r)).
  { split; [lia|]. split; (split; [lia|by intros [? _]]). }
  destruct (opaque (unpackAffinity i)), (opaque (unpackAffinity r)); cbn [negb Bool.eqb andb];
    (split; [lia|]; split; [split; [first [lia|done]|first [by intros [_ ?]|done]]|]).
  - split; [intros _; split; [done|]; split; [done|by left]|done].
  - split; [lia|by intros (_ & ? & _)].
  - split; [lia|by intros (_ & ? & _)].
  - split.
    + intros H. split; [done|]. split; [done|]. right. by apply squares_zero.
    + intros (_ & _ & [?|(-> & -> & ->)]); [done|]. rewrite !Z.sub_diag. lia.
Qed.

(** ** Properties *)

(** Affinity keys are faithful. Unpacking a packed vector of byte-sized
    fields gives it back, so keys of different flavors differ. *)
Theorem affinity_round_trip (v : AffinityVector) :
  vector_ok v -> unpackAffinity (packAffinity v) = v.
Proof. apply unpack_pack. Qed.

Lemma affinity_round_trip_witness :
  unpackAffinity (packAffinity
    {| structure_ := 255; tokens := 9; records := 2; opaque := true; cold := true |}) =
  {| structure_ := 255; tokens := 9; records := 2; opaque := true; cold := true |}.
Proof. apply affinity_round_trip. unfold vector_ok. cbn. lia. Defined.

(** The affinity distance, for any two 32-bit keys, does not overflow, is at
    most the wall cost (so it is always below the initial [chosenDistance] of
    [selectWorker]), reaches the wall exactly between opaque and other data, and is
    0 exactly when a warm worker holds the same kind of data. *)
Theorem affinity_distance_spec (incoming resident : Z) :
  let l := unpackAffinity incoming in let r := unpackAffinity resident in
  0 <= distance incoming resident <= kWallCost /\
  (distance incoming resident = kWallCost <-> cold r = false /\ opaque l <> opaque r) /\
  (distance incoming resident = 0 <->
    cold r = false /\ opaque l = opaque r /\
    (opaque r = true \/
     structure_ l = structure_ r /\ tokens l = tokens r /\ records l = records r)).
Proof. apply distance_spec. Qed.
