(* ===== verification/Scheduler.v ===== *)
(** * Scheduling (src/client/scheduler.h: selectWorker, dispatch, enqueue)

    The scheduler walks the roots and queues a task per file, or one per chunk of
    a big file, on the workers' channels. The channels (muypoco) are the class
    [ChanOps]; [ChanLaws] says what a queue is. *)

From S2P Require Import Prelude Protocol PosixPath FileSink StorageReader Affinity.
From Stdlib Require Import Permutation.

Inductive WorkerState := PENDING | READY | FAILED.

#[global] Instance worker_state_eq_dec : EqDecision WorkerState.
Proof. solve_decision. Defined.

Class ChanOps (Ch : Type) := {
  ch_await_init : Ch -> Ch * bool;
  ch_stopped : Ch -> bool;
  ch_occupancy : Ch -> Z;
  ch_warm : Ch -> Z;
  ch_enqueue : Ch -> Task -> Ch * bool;
}.

Class ChanLaws (Ch : Type) {Ops : ChanOps Ch} := {
  ch_queue : Ch -> list Task;      (** every task the channel ever took *)
  init_queue c c' b : ch_await_init c = (c', b) -> ch_queue c' = ch_queue c;
  enqueue_queue c t c' b : ch_enqueue c t = (c', b) ->
    ch_queue c' = if b then ch_queue c ++ [t] else ch_queue c;
}.

(** A directory entry; [None] where the call set its error code. *)
Record Entry := { e_path : bytes; e_size : option Z; e_mtime : option Z }.

Definition busyThreshold : Z := 32.
Definition SIZE_MAX : Z := 2 ^ 64 - 1.

Section Scheduler.
Context {Ch : Type} {Ops : ChanOps Ch}.

Record Scheduler := {
  chunkSize : Z;
  bigFileThreshold : Z;
  workers : list Ch;
  workersStates : list WorkerState;
}.

(** ** Choosing a worker *)

Record Choice := { chosen : Z; minIdx : Z; minCap : Z; chosenDistance : Z }.

Definition first_choice : Choice :=
  {| chosen := SIZE_MAX; minIdx := SIZE_MAX; minCap := 128; chosenDistance := kWallCost + 1 |}.

(** One iteration, for the worker with index [i]. *)
Definition consider (incoming : Z) (b : Choice) (i : Z) (worker : Ch) : Choice :=
  if ch_stopped worker then b
  else
    let wCap := ch_occupancy worker in
    let b := if wCap <? minCap b then
               {| chosen := chosen b; minIdx := i; minCap := wCap; chosenDistance := chosenDistance b |}
             else b in
    if busyThreshold <=? wCap then b
    else
      let d := distance incoming (ch_warm worker) in
      if d <? chosenDistance b then
        {| chosen := i; minIdx := minIdx b; minCap := minCap b; chosenDistance := d |}
      else b.

Fixpoint consider_all (incoming : Z) (b : Choice) (i : Z) (ws : list Ch) : Choice :=
  match ws with
  | [] => b
  | w :: ws => consider_all incoming (consider incoming b i w) (i + 1) ws
  end.

Definition selectWorker (s : Scheduler) (incoming : Z) : Z :=
  let b := consider_all incoming first_choice 0 (workers s) in
  if negb (chosen b =? SIZE_MAX) then chosen b else minIdx b.

(** ** Queueing a task *)

Definition set_worker (s : Scheduler) (i : nat) (w : Ch) : Scheduler :=
  {| chunkSize := chunkSize s; bigFileThreshold := bigFileThreshold s;
     workers := <[i := w]> (workers s); workersStates := workersStates s |}.

Definition set_state (s : Scheduler) (i : nat) (st : WorkerState) : Scheduler :=
  {| chunkSize := chunkSize s; bigFileThreshold := bigFileThreshold s;
     workers := workers s; workersStates := <[i := st]> (workersStates s) |}.

(** The body of the loop for worker [i]: [true] is [return true]. *)
Definition try_worker (s : Scheduler) (i : nat) (t : Task) : Scheduler * bool :=
  match workers s !! i, workersStates s !! i with
  | Some w, Some st =>
      let '(s, w, st, skip) :=
        match st with
        | PENDING =>
            let '(w, ok) := ch_await_init w in
            let st := if ok then READY else FAILED in
            (set_state (set_worker s i w) i st, w, st, negb ok)
        | _ => (s, w, st, false)
        end in
      if skip then (s, false)
      else if bool_decide (st = FAILED) || ch_stopped w then (s, false)
      else
        let '(w, ok) := ch_enqueue w t in
        (set_worker s i w, ok)
  | _, _ => (s, false)
  end.

(** [k] counts up to the number of workers; [todo] is how far it is from it. *)
Fixpoint dispatch_loop (todo : nat) (k : Z) (s : Scheduler) (startIdx : Z) (t : Task) : Scheduler * bool :=
  match todo with
  | O => (s, false)
  | S todo =>
      let i := Z.to_nat (wrap 64 (startIdx + k) mod Z.of_nat (length (workers s))) in
      match try_worker s i t with
      | (s, true) => (s, true)
      | (s, false) => dispatch_loop todo (k + 1) s startIdx t
      end
  end.

Definition dispatch (s : Scheduler) (startIdx : Z) (t : Task) : Scheduler * bool :=
  dispatch_loop (length (workers s)) 0 s startIdx t.

(** ** Files and chunks *)

Definition file_task (e : Entry) (size : Z) : Task :=
  WorkerTask File (e_path e) 0 size size (default 0 (e_mtime e)).

Definition chunk_task (e : Entry) (size offset len : Z) : Task :=
  WorkerTask Chunk (e_path e) offset len size (default 0 (e_mtime e)).

(** The chunk loop; [None] when the fuel runs out. *)
Fixpoint chunk_loop (fuel : nat) (s : Scheduler) (e : Entry) (size offset : Z) (n : Z) :
  option (Scheduler * bool) :=
  if offset <? size then
    match fuel with
    | O => None
    | S fuel =>
        let len := Z.min (chunkSize s) (size - offset) in
        let '(s, ok) := dispatch s (n mod Z.of_nat (length (workers s))) (chunk_task e size offset len) in
        if negb ok then Some (s, false)
        else chunk_loop fuel s e size (wrap 64 (offset + chunkSize s)) (n + 1)
    end
  else Some (s, true).

Definition enqueue_entry (s : Scheduler) (e : Entry) : option (Scheduler * bool) :=
  match e_size e with
  | None => Some (s, true)
  | Some size =>
      if bigFileThreshold s <=? size then chunk_loop (Z.to_nat size) s e size 0 0
      else Some (dispatch s (selectWorker s (forPath (e_path e))) (file_task e size))
  end.

End Scheduler.

Arguments Scheduler : clear implicits.

(** ** Nothing is lost or queued twice *)

Section Queues.
Context {Ch : Type} {Ops : ChanOps Ch} {Laws : ChanLaws Ch}.
Implicit Types s : Scheduler Ch.

Definition all_tasks s : list Task := concat (map ch_queue (workers s)).

Definition same_config s s' : Prop :=
  chunkSize s' = chunkSize s /\ bigFileThreshold s' = bigFileThreshold s /\
  length (workers s') = length (workers s).

Lemma concat_insert (ws : list Ch) i w w' :
  ws !! i = Some w ->
  exists l r, concat (map ch_queue ws) = l ++ ch_queue w ++ r /\
              concat (map ch_queue (<[i := w']> ws)) = l ++ ch_queue w' ++ r.
Proof.
  intros Hi. apply list_elem_of_split_length in Hi as (l & r & -> & ->).
  exists (concat (map ch_queue l)), (concat (map ch_queue r)).
  rewrite insert_app_r_alt, Nat.sub_diag by done. cbn [insert list_insert].
  rewrite !map_app, !concat_app. done.
Qed.

Lemma try_worker_queue s i t s' ok :
  try_worker s i t = (s', ok) ->
  same_config s s' /\ all_tasks s' ≡ₚ (if ok then t :: all_tasks s else all_tasks s).
Proof.
  unfold try_worker. destruct (workers s !! i) as [w|] eqn:Ew; [|by intros; simplify_eq].
  destruct (workersStates s !! i) as [st|]; [|by intros; simplify_eq].
  assert (Hinit : forall s1 w1 st1 skip, (match st with
      | PENDING => let '(w, ok) := ch_await_init w in
          (set_state (set_worker s i w) i (if ok then READY else FAILED), w, if ok then READY else FAILED, negb ok)
      | _ => (s, w, st, false) end) = (s1, w1, st1, skip) ->
    same_config s s1 /\ all_tasks s1 = all_tasks s /\ workers s1 !! i = Some w1).
  { intros s1 w1 st1 skip E. destruct st; [|by simplify_eq..].
    destruct (ch_await_init w) as [w2 b] eqn:Ei. simplify_eq. apply init_queue in Ei.
    unfold same_config, all_tasks. cbn [workers set_state set_worker chunkSize bigFileThreshold].
    rewrite length_insert. split; [done|]. destruct (concat_insert _ _ _ w1 Ew) as (l & r & -> & ->).
    rewrite Ei. split; [done|]. apply list_lookup_insert_eq. by eapply lookup_lt_Some. }
  destruct (match st with PENDING => _ | _ => _ end) as [[[s1 w1] st1] skip] eqn:E1.
  destruct (Hinit _ _ _ _ eq_refl) as (Hc & Hq & Hw1). intros E.
  destruct skip; [simplify_eq; by rewrite Hq|].
  destruct (bool_decide _ || _); [simplify_eq; by rewrite Hq|].
  destruct (ch_enqueue w1 t) as [w2 b] eqn:Ee. simplify_eq. apply enqueue_queue in Ee.
  destruct Hc as (H1 & H2 & H3). unfold same_config, all_tasks.
  cbn [workers set_worker chunkSize bigFileThreshold]. rewrite length_insert. split; [done|].
  destruct (concat_insert _ _ _ w2 Hw1) as (l & r & Hl & Hr). rewrite Hr.
  unfold all_tasks in Hq. rewrite <- Hq, Hl, Ee. destruct ok; [|done].
  rewrite <- app_assoc. cbn [app]. rewrite !app_assoc. symmetry. apply Permutation_middle.
Qed.

Lemma dispatch_loop_queue todo : forall k s start t s' ok,
  dispatch_loop todo k s start t = (s', ok) ->
  same_config s s' /\ all_tasks s' ≡ₚ (if ok then t :: all_tasks s else all_tasks s).
Proof.
  induction todo as [|todo IH]; intros k s start t s' ok E; cbn [dispatch_loop] in E; [by simplify_eq|].
  destruct (try_worker s _ t) as [s1 [|]] eqn:Et; apply try_worker_queue in Et as [Hc Hq].
  - by simplify_eq.
  - destruct (IH _ _ _ _ _ _ E) as [Hc2 Hq2]. split.
    + destruct Hc as (? & ? & ?), Hc2 as (? & ? & ?). repeat split; congruence.
    + rewrite Hq2. destruct ok; by rewrite Hq.
Qed.

Lemma dispatch_queue s start t s' ok :
  dispatch s start t = (s', ok) ->
  same_config s s' /\ all_tasks s' ≡ₚ (if ok then t :: all_tasks s else all_tasks s).
Proof. apply dispatch_loop_queue. Qed.

End Queues.

(** ** The chunks of a file *)

(** What the chunk loop covers: consecutive ranges of [chunk] bytes. *)
Fixpoint chunk_ranges (fuel : nat) (size chunk offset : Z) : list (Z * Z) :=
  if offset <? size then
    match fuel with
    | O => []
    | S fuel => (offset, Z.min chunk (size - offset)) :: chunk_ranges fuel size chunk (offset + chunk)
    end
  else [].

Definition chunks_of (size chunk : Z) : list (Z * Z) := chunk_ranges (Z.to_nat size) size chunk 0.

(** The tasks of a file. *)
Definition entry_tasks (chunk threshold : Z) (e : Entry) : list Task :=
  match e_size e with
  | None => []
  | Some size =>
      if threshold <=? size
      then map (fun r => chunk_task e size r.1 r.2) (chunks_of size chunk)
      else [file_task e size]
  end.

Section Chunks.
Context {Ch : Type} {Ops : ChanOps Ch} {Laws : ChanLaws Ch}.
Implicit Types s : Scheduler Ch.

Lemma chunk_loop_queue fuel : forall s e size offset n,
  0 < chunkSize s -> 0 <= offset -> size + chunkSize s <= 2 ^ 64 -> size - offset <= Z.of_nat fuel ->
  exists s' ok, chunk_loop fuel s e size offset n = Some (s', ok) /\
    (ok = true -> all_tasks s' ≡ₚ
       map (fun r => chunk_task e size r.1 r.2) (chunk_ranges fuel size (chunkSize s) offset) ++ all_tasks s).
Proof.
  induction fuel as [|fuel IH]; intros s e size offset n Hc Hoff Hsize Hf; cbn [chunk_loop chunk_ranges];
    (destruct (Z.ltb_spec offset size); [|by eexists _, _]); [lia|].
  destruct (dispatch s _ _) as [s1 ok] eqn:Ed. apply dispatch_queue in Ed as [(H1 & _ & _) Hq].
  destruct ok; cbn [negb]; [|by eexists _, _].
  rewrite (wrap_small 64) by (split; lia). rewrite <- H1.
  destruct (IH s1 e size (offset + chunkSize s1) (n + 1)) as (s2 & ok2 & E & Hq2); [lia..|].
  rewrite E. eexists _, _. split; [done|]. intros Hok. rewrite (Hq2 Hok). cbn [map app fst snd].
  rewrite Hq, H1. symmetry. apply Permutation_middle.
Qed.

Lemma enqueue_entry_queue s e :
  0 < chunkSize s -> (forall size, e_size e = Some size -> 0 <= size /\ size + chunkSize s <= 2 ^ 64) ->
  exists s' ok, enqueue_entry s e = Some (s', ok) /\
    (ok = true -> all_tasks s' ≡ₚ entry_tasks (chunkSize s) (bigFileThreshold s) e ++ all_tasks s).
Proof.
  intros Hc Hsize. unfold enqueue_entry, entry_tasks. destruct (e_size e) as [size|]; [|by eexists _, _].
  destruct (Hsize size eq_refl) as [H0 H1]. destruct (bigFileThreshold s <=? size).
  - destruct (chunk_loop_queue (Z.to_nat size) s e size 0 0) as (s' & ok & E & Hq); [lia..|].
    by exists s', ok.
  - destruct (dispatch s _ _) as [s1 ok] eqn:Ed. apply dispatch_queue in Ed as [_ Hq].
    exists s1, ok. split; [done|]. intros ->. exact Hq.
Qed.

Lemma same_config_trans s1 s2 s3 : same_config s1 s2 -> same_config s2 s3 -> same_config s1 s3.
Proof. intros (? & ? & ?) (? & ? & ?). repeat split; congruence. Qed.

Lemma chunk_loop_config fuel : forall s e size offset n s' ok,
  chunk_loop fuel s e size offset n = Some (s', ok) -> same_config s s'.
Proof.
  induction fuel as [|fuel IH]; intros s e size offset n s' ok; cbn [chunk_loop];
    (destruct (offset <? size); [|intros; by simplify_eq]); [done|].
  destruct (dispatch s _ _) as [s1 b] eqn:Ed. apply dispatch_queue in Ed as [Hc _].
  destruct b; cbn [negb]; [|intros; by simplify_eq]. intros E. eapply same_config_trans; [done|by eapply IH].
Qed.

Lemma enqueue_entry_config s e s' ok : enqueue_entry s e = Some (s', ok) -> same_config s s'.
Proof.
  unfold enqueue_entry. destruct (e_size e) as [size|]; [|intros; by simplify_eq].
  destruct (bigFileThreshold s <=? size); [apply chunk_loop_config|].
  intros [= E]. by apply dispatch_queue in E as [Hc _].
Qed.

(** With chunk size 0 the loop never finishes a non-empty file. *)
Lemma chunk_loop_zero fuel : forall s e size n,
  chunkSize s = 0 -> 0 < size -> forall s', chunk_loop fuel s e size 0 n <> Some (s', true).
Proof.
  induction fuel as [|fuel IH]; intros s e size n Hz Hs s'; cbn [chunk_loop];
    (destruct (Z.ltb_spec 0 size); [|lia]); [done|].
  destruct (dispatch s _ _) as [s1 ok] eqn:Ed. apply dispatch_queue in Ed as [(H1 & _ & _) _].
  destruct ok; cbn [negb]; [|done]. rewrite H1, Hz. apply IH; [congruence|done].
Qed.

End Chunks.

(** ** Chunks put a file back together *)

(** The write a stored chunk makes: its offset and the data read for it. *)
Definition chunk_write (data : bytes) (r : Z * Z) : nat * bytes :=
  (Z.to_nat r.1, take (Z.to_nat r.2) (drop (Z.to_nat r.1) data)).

Lemma chunk_ranges_ok fuel : forall size chunk offset,
  0 < chunk -> 0 <= offset -> size - offset <= Z.of_nat fuel ->
  Forall (fun r => offset <= r.1 /\ 0 < r.2 <= chunk /\ r.1 + r.2 <= size) (chunk_ranges fuel size chunk offset) /\
  (forall i, offset <= i < size ->
     exists r, r ∈ chunk_ranges fuel size chunk offset /\ r.1 <= i < r.1 + r.2).
Proof.
  induction fuel as [|fuel IH]; intros size chunk offset Hc Hoff Hf; cbn [chunk_ranges];
    (destruct (Z.ltb_spec offset size); [|split; [constructor|intros i Hi; lia]]); [lia|].
  destruct (IH size chunk (offset + chunk)) as [IH1 IH2]; [lia..|]. split.
  - constructor; [cbn; lia|]. eapply Forall_impl; [exact IH1|]. intros r Hr. cbn in *. lia.
  - intros i Hi. destruct (Z.lt_ge_cases i (offset + chunk)).
    + exists (offset, Z.min chunk (size - offset)). split; [left|cbn; lia].
    + destruct (IH2 i) as (r & Hr & Hi'); [lia|]. exists r. split; [by right|done].
Qed.

Lemma chunk_write_slice data r size :
  size = Z.of_nat (length data) -> 0 <= r.1 -> 0 < r.2 -> r.1 + r.2 <= size ->
  slice_of data (chunk_write data r) /\
  length (chunk_write data r).2 = Z.to_nat r.2.
Proof.
  intros -> H1 H2 H3. unfold slice_of, chunk_write. cbn [fst snd].
  assert (Hl : length (take (Z.to_nat r.2) (drop (Z.to_nat r.1) data)) = Z.to_nat r.2).
  { rewrite length_take, length_drop. lia. }
  rewrite Hl. split; [|done]. split; [done|]. intros Hn. rewrite Hn in Hl. cbn in Hl. lia.
Qed.

Lemma chunks_cover data chunk ws :
  0 < chunk -> ws ≡ₚ map (chunk_write data) (chunks_of (Z.of_nat (length data)) chunk) ->
  Forall (slice_of data) ws /\ forall i, (i < length data)%nat -> covers ws i.
Proof.
  intros Hc Hws. unfold chunks_of in Hws.
  destruct (chunk_ranges_ok (Z.to_nat (Z.of_nat (length data))) (Z.of_nat (length data)) chunk 0)
    as [H1 H2]; [lia..|].
  set (rs := chunk_ranges _ _ _ _) in *. split.
  - rewrite Hws. apply Forall_map. eapply Forall_impl; [exact H1|]. intros r Hr. cbn in Hr.
    destruct (chunk_write_slice data r _ eq_refl) as [? _]; [lia..|done].
  - intros i Hi. destruct (H2 (Z.of_nat i)) as (r & Hr & Hir); [lia|].
    rewrite Forall_forall in H1. pose proof (H1 r Hr) as Hb. cbn in Hb.
    destruct (chunk_write_slice data r _ eq_refl) as [_ Hl]; [lia..|].
    exists (chunk_write data r). split.
    + rewrite Hws. by apply list_elem_of_fmap_2.
    + rewrite Hl. cbn. lia.
Qed.

(** ** Properties *)

(** Nothing is lost or queued twice. For a chunk size above 0, [enqueue] on a
    directory entry ends, and when it returns true the workers' queues hold, over
    all workers, exactly what they held before and the entry's tasks: one file
    task below the threshold, otherwise a chunk task for every [chunkSize] bytes. *)
Theorem enqueue_entry_exact {Ch : Type} {Ops : ChanOps Ch} {Laws : ChanLaws Ch}
    (s : Scheduler Ch) (e : Entry) :
  0 < chunkSize s -> (forall size, e_size e = Some size -> 0 <= size /\ size + chunkSize s <= 2 ^ 64) ->
  exists s' ok, enqueue_entry s e = Some (s', ok) /\
    (ok = true -> all_tasks s' ≡ₚ entry_tasks (chunkSize s) (bigFileThreshold s) e ++ all_tasks s).
Proof. apply enqueue_entry_queue. Qed.

(** Channels that are lists of tasks. *)
Module ListChan.
#[export] Instance ops : ChanOps (list Task) := {
  ch_await_init c := (c, true);
  ch_stopped _ := false;
  ch_occupancy c := Z.of_nat (length c);
  ch_warm _ := 0;
  ch_enqueue c t := (c ++ [t], true);
}.

#[export] Instance laws : ChanLaws (list Task).
Proof. refine {| ch_queue c := c |}; intros; by simplify_eq/=. Defined.
End ListChan.

Definition demo_scheduler : Scheduler (list Task) :=
  {| chunkSize := 4; bigFileThreshold := 8; workers := [[]; []]; workersStates := [PENDING; PENDING] |}.

Lemma enqueue_entry_exact_witness :
  let e := {| e_path := str "a/big.bin"; e_size := Some 10; e_mtime := None |} in
  exists s' ok, enqueue_entry (Ops := ListChan.ops) demo_scheduler e = Some (s', ok) /\
    (ok = true -> @all_tasks _ _ ListChan.laws s' ≡ₚ
      entry_tasks 4 8 e ++ @all_tasks _ _ ListChan.laws demo_scheduler).
Proof.
  intros e. apply (enqueue_entry_exact (Laws := ListChan.laws) demo_scheduler e).
  - reflexivity.
  - intros size E. injection E as <-. split; vm_compute; discriminate.
Defined.

(** Chunks reassemble. The writes of a file's chunks, in any order and on top
    of any shorter content, leave exactly the file: the chunk ranges cover it
    without a gap, and each chunk is written at its offset. *)
Theorem chunks_reassemble (data old : bytes) (chunk : Z) (ws : list (nat * bytes)) :
  0 < chunk -> (length old <= length data)%nat ->
  ws ≡ₚ map (chunk_write data) (chunks_of (Z.of_nat (length data)) chunk) ->
  pwrites old ws = data.
Proof.
  intros Hc Hold Hws. destruct (chunks_cover data chunk ws Hc Hws) as [H1 H2].
  by apply pwrites_cover.
Qed.

Lemma chunks_reassemble_witness :
  pwrites (str "xx") (rev (map (chunk_write (str "hello world")) (chunks_of 11 4))) = str "hello world".
Proof.
  apply (chunks_reassemble (str "hello world") (str "xx") 4).
  - lia.
  - apply Nat.leb_le. reflexivity.
  - symmetry. apply Permutation_rev.
Defined.

(** The chunk size must not be 0. With [--chunk-size 0] (or a size that does
    not parse) the chunk loop never finishes a non-empty file: it queues empty
    chunks at offset 0 for as long as the workers take them. *)
Theorem zero_chunk_size_never_finishes {Ch : Type} {Ops : ChanOps Ch} {Laws : ChanLaws Ch}
    (fuel : nat) (s s' : Scheduler Ch) (e : Entry) (size n : Z) :
  chunkSize s = 0 -> 0 < size -> chunk_loop fuel s e size 0 n <> Some (s', true).
Proof. intros Hz Hs. by apply chunk_loop_zero. Qed.

Lemma zero_chunk_size_never_finishes_witness :
  let s := {| chunkSize := 0; bigFileThreshold := 8; workers := [[]]; workersStates := [READY] |} in
  let e := {| e_path := str "a"; e_size := Some 10; e_mtime := None |} in
  chunk_loop (Ops := ListChan.ops) 20 s e 10 0 0 <> Some (s, true).
Proof.
  intros s e. apply (zero_chunk_size_never_finishes (Laws := ListChan.laws)); [reflexivity|lia].
Defined.
