(* ===== verification/Filter.v ===== *)
(** * Filter: the include and exclude rules of a root ([client/scheduler.h])

    [compileRule] turns a glob into the text of an ECMAScript regular expression
    for [std::regex]; [keep] takes the first rule that matches. [std::regex] is
    modelled on the grammar that text uses; its limits on size are left out. *)

From S2P Require Import Prelude PosixPath Text.

(** ** std::regex *)

Inductive Re :=
  | REmpty
  | RChar (c : byte)
  | RAny
  | RNot (set : bytes)
  | RBegin
  | REnd
  | RSeq (a b : Re)
  | RStar (a : Re)
  | ROpt (a : Re).

(** [.] takes everything but the line terminators. *)
Definition not_newline (c : byte) : bool := negb (bool_decide (c = LF) || bool_decide (c = CR)).

Definition one (p : byte -> bool) (s : bytes) : list bytes :=
  match s with c :: s => if p c then [s] else [] | [] => [] end.

(** What can be left of [s] behind a repetition; each round takes something. *)
Fixpoint star_rests (step : bytes -> list bytes) (fuel : nat) (s : bytes) : list bytes :=
  s :: match fuel with
       | O => []
       | S fuel =>
           concat (map (star_rests step fuel) (filter (fun t => (length t < length s)%nat) (step s)))
       end.

(** What can be left of [s], the end of a text of [n] bytes. *)
Fixpoint rests (n : nat) (r : Re) (s : bytes) : list bytes :=
  match r with
  | REmpty => [s]
  | RChar c => one (fun b => bool_decide (b = c)) s
  | RAny => one not_newline s
  | RNot set => one (fun b => bool_decide (b ∉ set)) s
  | RBegin => if (length s =? n)%nat then [s] else []
  | REnd => match s with [] => [[]] | _ => [] end
  | RSeq a b => concat (map (rests n b) (rests n a s))
  | RStar a => star_rests (rests n a) (length s) s
  | ROpt a => rests n a s ++ [s]
  end.

Definition regex_match (s : bytes) (r : Re) : bool := bool_decide ([] ∈ rests (length s) r s).

(** The syntax characters of ECMAScript; outside a class each of them means
    itself behind a backslash, as does the null character. *)
Definition star_char : byte := x2a.
Definition question_char : byte := x3f.
Definition escaped_chars : bytes := str ".^$+{}()[]|\".
Definition syntax_char (c : byte) : bool := bool_decide (c ∈ star_char :: question_char :: escaped_chars).

(** [[^...]], without ranges and escapes. *)
Fixpoint class_members (s : bytes) : option (bytes * bytes) :=
  match s with
  | [] => None
  | c :: s =>
      if bool_decide (c = x5d) then Some ([], s)
      else if bool_decide (c ∈ str "-[\") then None
      else '(set, rest) ← class_members s; Some (c :: set, rest)
  end.

Definition quantified (a : Re) (s : bytes) : Re * bytes :=
  match s with
  | c :: s' =>
      if bool_decide (c = star_char) then (RStar a, s')
      else if bool_decide (c = question_char) then (ROpt a, s')
      else (a, s)
  | [] => (a, s)
  end.

(** A sequence of terms up to the end or a closing parenthesis; [None] is a
    [std::regex_error], or a construct that is not modelled. *)
Fixpoint parse_terms (fuel : nat) (s : bytes) : option (Re * bytes) :=
  match fuel, s with
  | O, _ => None
  | S _, [] => Some (REmpty, [])
  | S fuel, c :: s' =>
      if bool_decide (c = x29) then Some (REmpty, s)
      else
        '(a, rest) ←
          (if bool_decide (c = x28) then
             match parse_terms fuel s' with
             | Some (r, c' :: rest) => if bool_decide (c' = x29) then Some (r, rest) else None
             | _ => None
             end
           else if bool_decide (c = x2e) then Some (RAny, s')
           else if bool_decide (c = x5e) then Some (RBegin, s')
           else if bool_decide (c = x24) then Some (REnd, s')
           else if bool_decide (c = x5b) then
             match s' with
             | c' :: s' =>
                 if bool_decide (c' = x5e) then '(set, rest) ← class_members s'; Some (RNot set, rest) else None
             | [] => None
             end
           else if bool_decide (c = x5c) then
             match s' with
             | e :: rest => if syntax_char e || bool_decide (e = x00) then Some (RChar e, rest) else None
             | [] => None
             end
           else if syntax_char c then None
           else Some (RChar c, s'));
        let '(a, rest) := quantified a rest in
        '(r, rest) ← parse_terms fuel rest;
        Some (RSeq a r, rest)
  end.

(** [std::regex(s)]. *)
Definition regex (s : bytes) : option Re :=
  match parse_terms (S (length s)) s with Some (r, []) => Some r | _ => None end.

(** ** Rules *)

Record FilterRule := { fr_include : bool; pattern : bytes }.

Record Rule := { include : bool; dirOnly : bool; basenameOnly : bool; re : Re }.

(** [std::strchr] finds the terminator of the set as well. *)
Definition quoted_char (c : byte) : bytes :=
  if bool_decide (c ∈ escaped_chars ++ [x00]) then [x5c; c] else [c].

(** The loop over the pattern. *)
Fixpoint glob_regex (pat : bytes) : bytes :=
  match pat with
  | [] => []
  | c :: pat' =>
      if bool_decide (c = star_char) then
        match pat' with
        | c' :: pat'' =>
            if bool_decide (c' = star_char) then str ".*" ++ glob_regex pat'' else str "[^/]*" ++ glob_regex pat'
        | [] => str "[^/]*" ++ glob_regex pat'
        end
      else if bool_decide (c = question_char) then str "[^/]" ++ glob_regex pat'
      else quoted_char c ++ glob_regex pat'
  end.

Definition is_none {A} (o : option A) : bool := match o with None => true | _ => false end.

(** [pat.back() == '/'] and [pop_back]; [pat.front() == '/'] and [erase]. *)
Definition strip_back (pat : bytes) : bool * bytes :=
  if bool_decide (last pat = Some slash) then (true, removelast pat) else (false, pat).
Definition strip_front (pat : bytes) : bool * bytes :=
  match pat with c :: pat' => if bool_decide (c = slash) then (true, pat') else (false, pat) | [] => (false, pat) end.

Definition basename_only (pat : bytes) : bool :=
  is_none (find_str [slash] pat) && is_none (find_str [star_char; star_char] pat).

Definition compileRule (fr : FilterRule) : option Rule :=
  let '(dir, pat) := strip_back (pattern fr) in
  let '(anchored, pat) := strip_front pat in
  let base := basename_only pat in
  let full := if base || anchored then glob_regex pat else str "(.*/)?" ++ glob_regex pat in
  r ← regex (str "^" ++ full ++ str "$");
  Some {| include := fr_include fr; dirOnly := dir; basenameOnly := base; re := r |}.

Fixpoint keep (rules : list Rule) (rel name : bytes) (isDir : bool) : bool :=
  match rules with
  | [] => true
  | r :: rules =>
      if dirOnly r && negb isDir then keep rules rel name isDir
      else if regex_match (if basenameOnly r then name else rel) (re r) then include r
      else keep rules rel name isDir
  end.

(** The rules of [addRoot]. *)
Definition compileRules (frs : list FilterRule) : option (list Rule) := mapM compileRule frs.

Example keep_examples :
  let rules := compileRules
    [{| fr_include := true; pattern := str "keep.log" |}; {| fr_include := false; pattern := str "*.log" |};
     {| fr_include := false; pattern := str "build/" |}; {| fr_include := false; pattern := str "/a/**/t?p" |}] in
  (rs ← rules; Some (map (fun '(rel, name, d) => keep rs rel name d)
    [(str "x/keep.log", str "keep.log", false); (str "x/a.log", str "a.log", false);
     (str "x/alog", str "alog", false); (str "x/build", str "build", true);
     (str "x/build", str "build", false); (str "a/b/c/tmp", str "tmp", false);
     (str "b/a/c/tmp", str "tmp", false); (str "a/b/t/p", str "p", false)])) =
  Some [true; false; true; false; true; false; true; true].
Proof. vm_compute. reflexivity. Qed.

(** ** What a glob means *)

(** [**] takes anything without a line terminator, [*] and [?] stay in a name. *)
Inductive glob : bytes -> bytes -> Prop :=
  | glob_nil : glob [] []
  | glob_deep p a s : Forall (fun c => not_newline c = true) a -> glob p s ->
      glob (star_char :: star_char :: p) (a ++ s)
  | glob_star p a s : head p <> Some star_char -> slash ∉ a -> glob p s -> glob (star_char :: p) (a ++ s)
  | glob_one p c s : c <> slash -> glob p s -> glob (question_char :: p) (c :: s)
  | glob_char p c s : c <> star_char -> c <> question_char -> glob p s -> glob (c :: p) (c :: s).

(** A pattern with a slash or [**] is held against the path from the root, from
    any directory on unless it starts with a slash; another against the name. *)
Definition parts (pat : bytes) : bool * bool * bytes :=
  let '(dir, pat) := strip_back pat in let '(anchored, pat) := strip_front pat in (dir, anchored, pat).

Definition pattern_matches (pat rel name : bytes) : Prop :=
  let '(_, anchored, pat) := parts pat in
  if basename_only pat then glob pat name
  else exists dirs s, rel = dirs ++ s /\ glob pat s /\
    (dirs = [] \/ anchored = false /\ last dirs = Some slash /\
                  Forall (fun c => not_newline c = true) (removelast dirs)).

Definition applies (fr : FilterRule) (rel name : bytes) (isDir : bool) : Prop :=
  ((parts (pattern fr)).1.1 = true -> isDir = true) /\ pattern_matches (pattern fr) rel name.

(** The first rule that applies decides; a path no rule applies to is kept. *)
Inductive kept : list FilterRule -> bytes -> bytes -> bool -> Prop :=
  | kept_default rel name d : kept [] rel name d
  | kept_included fr frs rel name d :
      applies fr rel name d -> fr_include fr = true -> kept (fr :: frs) rel name d
  | kept_next fr frs rel name d :
      ~ applies fr rel name d -> kept frs rel name d -> kept (fr :: frs) rel name d.

(** ** Matching *)

Lemma elem_of_bind {A B} (f : A -> list B) l y : y ∈ concat (map f l) <-> exists x, x ∈ l /\ y ∈ f x.
Proof.
  induction l as [|x l IH]; cbn [map concat].
  - split; [by intros ?%elem_of_nil|by intros (? & ?%elem_of_nil & _)].
  - rewrite elem_of_app, IH. split.
    + intros [H|(z & Hz & H)]; [by exists x; split; [left|]|by exists z; split; [right|]].
    + intros (z & [->|Hz]%elem_of_cons & H); [by left|right; by exists z].
Qed.

Lemma elem_of_one p s t : t ∈ one p s <-> exists c, s = c :: t /\ p c = true.
Proof.
  unfold one. destruct s as [|c s]; [split; [by intros ?%elem_of_nil|by intros (? & ? & _)]|].
  destruct (p c) eqn:E; [rewrite list_elem_of_singleton|rewrite elem_of_nil]; split.
  - intros ->. by exists c.
  - intros (? & [= -> ->] & _). done.
  - done.
  - intros (? & [= -> ->] & ?). congruence.
Qed.

(** A repetition of single bytes takes any run of them. *)
Lemma star_one p fuel s t :
  (length s <= fuel)%nat ->
  t ∈ star_rests (one p) fuel s <-> exists a, s = a ++ t /\ Forall (fun c => p c = true) a.
Proof.
  revert s. induction fuel as [|fuel IH]; intros s Hs; cbn [star_rests]; rewrite elem_of_cons.
  - destruct s; [|cbn in Hs; lia]. rewrite elem_of_nil. split.
    + intros [->|[]]. by exists [].
    + intros (a & E & _). symmetry in E. apply app_nil in E as [_ ->]. by left.
  - rewrite elem_of_bind. split.
    + intros [->|(u & Hu & Ht)]; [by exists []|].
      apply list_elem_of_filter in Hu as (_ & (c & -> & Hc)%elem_of_one).
      apply IH in Ht as (a & -> & Ha); [|cbn in Hs; lia]. exists (c :: a). by split; [|constructor].
    + intros ([|c a] & -> & Ha); [by left|right]. apply Forall_cons in Ha as [Hc Ha].
      exists (a ++ t). split.
      * apply list_elem_of_filter. split; [cbn; lia|]. apply elem_of_one. by exists c.
      * apply IH; [cbn in Hs; lia|]. by exists a.
Qed.

(** ** From the text to the expression *)

Fixpoint glob_re (pat : bytes) (r : Re) : Re :=
  match pat with
  | [] => r
  | c :: pat' =>
      if bool_decide (c = star_char) then
        match pat' with
        | c' :: pat'' =>
            if bool_decide (c' = star_char) then RSeq (RStar RAny) (glob_re pat'' r)
            else RSeq (RStar (RNot [slash])) (glob_re pat' r)
        | [] => RSeq (RStar (RNot [slash])) (glob_re pat' r)
        end
      else if bool_decide (c = question_char) then RSeq (RNot [slash]) (glob_re pat' r)
      else RSeq (RChar c) (glob_re pat' r)
  end.

(** The four kinds of piece a glob is read in. *)
Lemma glob_cases (P : bytes -> Prop) :
  P [] -> (forall p, P p -> P (star_char :: star_char :: p)) ->
  (forall p, head p <> Some star_char -> P p -> P (star_char :: p)) ->
  (forall p, P p -> P (question_char :: p)) ->
  (forall c p, c <> star_char -> c <> question_char -> P p -> P (c :: p)) -> forall p, P p.
Proof.
  intros Hnil Hdeep Hstar Hone Hchar p. remember (length p) as n eqn:E. revert p E.
  induction n as [n IH] using lt_wf_ind. intros [|c p] ->; [done|].
  destruct (decide (c = star_char)) as [->|H1].
  - destruct p as [|c p]; [by apply Hstar|]. destruct (decide (c = star_char)) as [->|H2].
    + apply Hdeep. eapply IH; [|done]. cbn. lia.
    + apply Hstar; [by intros [=]|]. eapply IH; [|done]. cbn. lia.
  - destruct (decide (c = question_char)) as [->|H2]; [apply Hone|apply Hchar; [done|done|]];
      (eapply IH; [|done]; cbn; lia).
Qed.

Lemma glob_regex_star p : head p <> Some star_char -> glob_regex (star_char :: p) = str "[^/]*" ++ glob_regex p.
Proof.
  destruct p as [|c p]; [done|]. intros H. assert (Hc : c <> star_char) by (by intros ->).
  cbn [glob_regex]. by rewrite (bool_decide_eq_true_2 (star_char = star_char)), (bool_decide_eq_false_2 _ Hc).
Qed.

Lemma glob_re_star p r : head p <> Some star_char ->
  glob_re (star_char :: p) r = RSeq (RStar (RNot [slash])) (glob_re p r).
Proof.
  destruct p as [|c p]; [done|]. intros H. assert (Hc : c <> star_char) by (by intros ->).
  cbn [glob_re]. by rewrite (bool_decide_eq_true_2 (star_char = star_char)), (bool_decide_eq_false_2 _ Hc).
Qed.

Lemma glob_regex_char c p : c <> star_char -> c <> question_char ->
  glob_regex (c :: p) = quoted_char c ++ glob_regex p.
Proof. intros H1 H2. cbn [glob_regex]. by rewrite !bool_decide_eq_false_2 by done. Qed.

Lemma glob_re_char c p r : c <> star_char -> c <> question_char ->
  glob_re (c :: p) r = RSeq (RChar c) (glob_re p r).
Proof. intros H1 H2. cbn [glob_re]. by rewrite !bool_decide_eq_false_2 by done. Qed.

(** No piece starts with a quantifier. *)
Definition unquantified (s : bytes) : Prop := head s <> Some star_char /\ head s <> Some question_char.

Lemma quantified_none a s : unquantified s -> quantified a s = (a, s).
Proof.
  intros [H1 H2]. destruct s as [|c s]; [done|]. unfold quantified.
  by rewrite !bool_decide_eq_false_2 by (intros ->; done).
Qed.

Lemma glob_regex_unquantified p : unquantified (glob_regex p ++ str "$").
Proof.
  induction p as [|p _|p Hp _|p _|c p H1 H2 _] using glob_cases; [done|done| |done|].
  - by rewrite glob_regex_star.
  - rewrite glob_regex_char by done. unfold quoted_char. split_ifs; [done|].
    split; intros [=]; congruence.
Qed.

Lemma parse_char fuel c s :
  c <> star_char -> c <> question_char -> unquantified s ->
  parse_terms (S fuel) (quoted_char c ++ s) =
  ('(r, rest) ← parse_terms fuel s; Some (RSeq (RChar c) r, rest)).
Proof.
  intros H1 H2 Hs. unfold quoted_char. case_bool_decide as Hc.
  - assert (Hsyn : syntax_char c || bool_decide (c = x00) = true).
    { apply elem_of_app in Hc as [Hc| ->%list_elem_of_singleton]; [|by rewrite orb_true_r].
      unfold syntax_char. by rewrite bool_decide_eq_true_2 by (by do 2 right). }
    change (parse_terms (S fuel) ([x5c; c] ++ s)) with
      ('(a, rest) ← (if syntax_char c || bool_decide (c = x00) then Some (RChar c, s) else None);
       let '(a, rest) := quantified a rest in '(r, rest) ← parse_terms fuel rest; Some (RSeq a r, rest)).
    rewrite Hsyn. cbn [mbind option_bind]. by rewrite quantified_none.
  - assert (Hsyn : syntax_char c = false).
    { apply bool_decide_eq_false. intros [?|[?|?]%elem_of_cons]%elem_of_cons; [done|done|].
      apply Hc. apply elem_of_app. by left. }
    assert (Hne : forall d, syntax_char d = true -> c <> d) by congruence.
    cbn [app parse_terms]. rewrite !bool_decide_eq_false_2 by (by apply Hne). rewrite Hsyn.
    cbn [mbind option_bind]. by rewrite quantified_none.
Qed.

Lemma parse_one fuel s : unquantified s ->
  parse_terms (S fuel) (str "[^/]" ++ s) =
  ('(r, rest) ← parse_terms fuel s; Some (RSeq (RNot [slash]) r, rest)).
Proof.
  intros Hs. change (parse_terms (S fuel) (str "[^/]" ++ s)) with
    (let '(a, rest) := quantified (RNot [slash]) s in '(r, rest) ← parse_terms fuel rest; Some (RSeq a r, rest)).
  by rewrite quantified_none.
Qed.

(** The text of a glob is never rejected, and no byte of the glob acts as syntax. *)
Lemma parse_glob p fuel :
  (length (glob_regex p) + 1 < fuel)%nat ->
  parse_terms fuel (glob_regex p ++ str "$") = Some (glob_re p (RSeq REnd REmpty), []).
Proof.
  revert fuel. induction p as [|p IH|p Hp IH|p IH|c p H1 H2 IH] using glob_cases; intros fuel Hf.
  - destruct fuel as [|[|fuel]]; [cbn in Hf; lia..|]. done.
  - change (glob_regex (star_char :: star_char :: p)) with (str ".*" ++ glob_regex p) in *.
    rewrite length_app in Hf. destruct fuel as [|fuel]; [lia|]. cbn [length] in Hf. rewrite <- app_assoc.
    change (parse_terms (S fuel) (str ".*" ++ ?s)) with
      ('(r, rest) ← parse_terms fuel s; Some (RSeq (RStar RAny) r, rest)).
    rewrite IH by (cbn in Hf; lia). done.
  - rewrite glob_regex_star, length_app in Hf by done. rewrite glob_regex_star, glob_re_star by done.
    destruct fuel as [|fuel]; [lia|]. rewrite <- app_assoc.
    change (parse_terms (S fuel) (str "[^/]*" ++ ?s)) with
      ('(r, rest) ← parse_terms fuel s; Some (RSeq (RStar (RNot [slash])) r, rest)).
    rewrite IH by (cbn in Hf; lia). done.
  - change (glob_regex (question_char :: p)) with (str "[^/]" ++ glob_regex p) in *.
    rewrite length_app in Hf. destruct fuel as [|fuel]; [lia|]. rewrite <- app_assoc.
    rewrite parse_one by apply glob_regex_unquantified. rewrite IH by (cbn in Hf; lia). done.
  - rewrite glob_regex_char, length_app in Hf by done. rewrite glob_regex_char, glob_re_char by done.
    assert (Hq : (1 <= length (quoted_char c))%nat) by (unfold quoted_char; case_bool_decide; cbn; lia).
    destruct fuel as [|fuel]; [lia|]. rewrite <- app_assoc.
    rewrite parse_char by (done || apply glob_regex_unquantified). rewrite IH by lia. done.
Qed.

(** ** What the expression matches *)

Lemma elem_of_seq n a b s t : t ∈ rests n (RSeq a b) s <-> exists u, u ∈ rests n a s /\ t ∈ rests n b u.
Proof. apply elem_of_bind. Qed.

Lemma star_any n s t :
  t ∈ rests n (RStar RAny) s <-> exists a, s = a ++ t /\ Forall (fun c => not_newline c = true) a.
Proof. by apply star_one. Qed.

Lemma not_slash (a : bytes) : Forall (fun c => bool_decide (c ∉ [slash]) = true) a <-> slash ∉ a.
Proof.
  rewrite Forall_forall. split.
  - intros H Hin. specialize (H _ Hin). apply bool_decide_eq_true in H. apply H. by left.
  - intros H c Hc. apply bool_decide_eq_true. intros ->%list_elem_of_singleton. done.
Qed.

Lemma star_name n s t : t ∈ rests n (RStar (RNot [slash])) s <-> exists a, s = a ++ t /\ slash ∉ a.
Proof.
  etransitivity; [by apply star_one|]. split; intros (a & -> & Ha); exists a; (split; [done|]); by apply not_slash.
Qed.

Lemma one_name n s t : t ∈ rests n (RNot [slash]) s <-> exists c, s = c :: t /\ c <> slash.
Proof.
  etransitivity; [apply elem_of_one|]. setoid_rewrite bool_decide_eq_true.
  by setoid_rewrite list_elem_of_singleton.
Qed.

Lemma one_char n c s t : t ∈ rests n (RChar c) s <-> s = c :: t.
Proof.
  etransitivity; [apply elem_of_one|]. setoid_rewrite bool_decide_eq_true.
  split; [by intros (? & -> & ->)|intros ->; by exists c].
Qed.

Lemma glob_re_rests n p r s t :
  t ∈ rests n (glob_re p r) s <-> exists a u, s = a ++ u /\ glob p a /\ t ∈ rests n r u.
Proof.
  revert s. induction p as [|p IH|p Hp IH|p IH|c p H1 H2 IH] using glob_cases; intros s.
  - split; [by exists [], s; split; [|split; [constructor|]]|].
    intros (a & u & -> & Hg & Ht). by inversion Hg; subst.
  - change (glob_re (star_char :: star_char :: p) r) with (RSeq (RStar RAny) (glob_re p r)).
    rewrite elem_of_seq. split.
    + intros (v & (b & -> & Hb)%star_any & (a & u & -> & Hg & Ht)%IH).
      exists (b ++ a), u. rewrite app_assoc. split; [done|]. split; [by constructor|done].
    + intros (a & u & -> & Hg & Ht). inversion Hg as [|? b a' Hb Hg'|? ? ? Hh| |]; subst; [|by cbn in Hh|done].
      exists (a' ++ u). split; [apply star_any; exists b; by rewrite app_assoc|]. apply IH. by exists a', u.
  - rewrite glob_re_star, elem_of_seq by done. split.
    + intros (v & (b & -> & Hb)%star_name & (a & u & -> & Hg & Ht)%IH).
      exists (b ++ a), u. rewrite app_assoc. split; [done|]. split; [by constructor|done].
    + intros (a & u & -> & Hg & Ht). inversion Hg as [| |? b a' Hh Hb Hg'| |]; subst; [by cbn in Hp| |done].
      exists (a' ++ u). split; [apply star_name; exists b; by rewrite app_assoc|]. apply IH. by exists a', u.
  - change (glob_re (question_char :: p) r) with (RSeq (RNot [slash]) (glob_re p r)).
    rewrite elem_of_seq. split.
    + intros (v & (c & -> & Hc)%one_name & (a & u & -> & Hg & Ht)%IH).
      exists (c :: a), u. split; [done|]. split; [by constructor|done].
    + intros (a & u & -> & Hg & Ht). inversion Hg as [| | |? c a' Hc Hg'|]; subst; [|done].
      exists (a' ++ u). split; [apply one_name; by exists c|]. apply IH. by exists a', u.
  - rewrite glob_re_char, elem_of_seq by done. split.
    + intros (v & ->%one_char & (a & u & -> & Hg & Ht)%IH).
      exists (c :: a), u. split; [done|]. split; [by constructor|done].
    + intros (a & u & -> & Hg & Ht). inversion Hg as [| | | |? c' a' ? ? Hg']; subst; [done..|].
      exists (a' ++ u). split; [by apply one_char|]. apply IH. by exists a', u.
Qed.

Definition at_end : Re := RSeq REnd REmpty.

Lemma at_end_rests n p s : [] ∈ rests n (glob_re p at_end) s <-> glob p s.
Proof.
  rewrite glob_re_rests. split.
  - intros (a & u & -> & Hg & Ht). destruct u; [by rewrite app_nil_r|]. by apply elem_of_nil in Ht.
  - intros Hg. exists s, []. rewrite app_nil_r. split; [done|]. split; [done|]. by left.
Qed.

Lemma begin_rests r s : [] ∈ rests (length s) (RSeq RBegin r) s <-> [] ∈ rests (length s) r s.
Proof.
  rewrite elem_of_seq. cbn [rests]. rewrite Nat.eqb_refl. split; [|by exists s; split; [left|]].
  by intros (u & ->%list_elem_of_singleton & H).
Qed.

(** [(.*/)?]: the directories before a name. *)
Definition some_dirs : Re := ROpt (RSeq (RStar RAny) (RSeq (RChar slash) REmpty)).

Lemma some_dirs_rests n s t :
  t ∈ rests n some_dirs s <-> exists dirs, s = dirs ++ t /\
    (dirs = [] \/ last dirs = Some slash /\ Forall (fun c => not_newline c = true) (removelast dirs)).
Proof.
  unfold some_dirs. change (rests n (ROpt ?a) s) with (rests n a s ++ [s]).
  rewrite elem_of_app, list_elem_of_singleton, elem_of_seq. split.
  - intros [(u & (a & -> & Ha)%star_any & Ht)|<-]; [|by exists []; split; [|left]].
    apply elem_of_seq in Ht as (v & ->%one_char & ->%list_elem_of_singleton).
    exists (a ++ [slash]). rewrite <- app_assoc, last_snoc, removelast_last. split; [done|by right].
  - intros (dirs & -> & [->|[Hl Hd]]); [by right|left]. apply last_Some in Hl as [a ->].
    rewrite removelast_last in Hd. rewrite <- app_assoc. exists (slash :: t). split; [by apply star_any; exists a|].
    apply elem_of_seq. exists t. split; [by apply one_char|by left].
Qed.

(** ** Rules *)

Lemma parse_begin fuel s : unquantified s ->
  parse_terms (S fuel) (str "^" ++ s) = ('(r, rest) ← parse_terms fuel s; Some (RSeq RBegin r, rest)).
Proof.
  intros Hs. change (parse_terms (S fuel) (str "^" ++ s)) with
    (let '(a, rest) := quantified RBegin s in '(r, rest) ← parse_terms fuel rest; Some (RSeq a r, rest)).
  by rewrite quantified_none.
Qed.

Lemma parse_dirs fuel s :
  parse_terms (8 + fuel) (str "^" ++ str "(.*/)?" ++ s) =
  ('(r, rest) ← parse_terms (6 + fuel) s; Some (RSeq RBegin (RSeq some_dirs r), rest)).
Proof.
  change (parse_terms (8 + fuel) (str "^" ++ str "(.*/)?" ++ s)) with
    ('(r, rest) ← ('(r, rest) ← parse_terms (6 + fuel) s; Some (RSeq some_dirs r, rest));
     Some (RSeq RBegin r, rest)).
  by destruct (parse_terms (6 + fuel) s) as [[r rest]|].
Qed.

Lemma regex_whole p : regex (str "^" ++ glob_regex p ++ str "$") = Some (RSeq RBegin (glob_re p at_end)).
Proof.
  unfold regex. rewrite parse_begin by apply glob_regex_unquantified.
  rewrite parse_glob by (rewrite !length_app; cbn; lia). done.
Qed.

Lemma regex_below p :
  regex (str "^" ++ (str "(.*/)?" ++ glob_regex p) ++ str "$") =
  Some (RSeq RBegin (RSeq some_dirs (glob_re p at_end))).
Proof.
  unfold regex. rewrite <- app_assoc.
  replace (S (length _)) with (8 + (length (glob_regex p) + 1))%nat by (rewrite !length_app; cbn; lia).
  rewrite parse_dirs, parse_glob by lia. done.
Qed.

Lemma compile_rule fr : exists r, compileRule fr = Some r /\ include r = fr_include fr /\
  forall rel name isDir,
    negb (dirOnly r && negb isDir) && regex_match (if basenameOnly r then name else rel) (re r) = true <->
    applies fr rel name isDir.
Proof.
  unfold compileRule, applies, pattern_matches, parts.
  destruct (strip_back (pattern fr)) as [dir pat]. destruct (strip_front pat) as [anchored p]. cbn [fst snd].
  assert (Hdir : forall isDir, negb (dir && negb isDir) = true <-> (dir = true -> isDir = true))
    by (intros []; destruct dir; naive_solver).
  destruct (basename_only p) eqn:Eb; cbn [orb]; [|destruct anchored; cbn [orb]].
  - rewrite regex_whole. eexists. split; [done|]. split; [done|]. intros rel name isDir.
    cbn [dirOnly basenameOnly re]. rewrite andb_true_iff, Hdir. unfold regex_match.
    by rewrite bool_decide_eq_true, begin_rests, at_end_rests.
  - rewrite regex_whole. eexists. split; [done|]. split; [done|]. intros rel name isDir.
    cbn [dirOnly basenameOnly re]. rewrite andb_true_iff, Hdir. unfold regex_match.
    rewrite bool_decide_eq_true, begin_rests, at_end_rests. split; intros [H1 H2]; (split; [done|]).
    + exists [], rel. split_and!; [done|done|by left].
    + destruct H2 as (dirs & s & -> & Hg & [->|[? _]]); [done|congruence].
  - rewrite regex_below. eexists. split; [done|]. split; [done|]. intros rel name isDir.
    cbn [dirOnly basenameOnly re]. rewrite andb_true_iff, Hdir. unfold regex_match.
    rewrite bool_decide_eq_true, begin_rests, elem_of_seq. setoid_rewrite some_dirs_rests.
    setoid_rewrite at_end_rests. split; intros [H1 H2]; (split; [done|]).
    + destruct H2 as (s & (dirs & -> & Hd) & Hg). exists dirs, s. naive_solver.
    + destruct H2 as (dirs & s & -> & Hg & Hd). exists s. split; [exists dirs|done]. naive_solver.
Qed.

(** The usage text says of [--include] that only matching files are uploaded: on
    its own it leaves nothing out, for want of an exclude rule. *)
Lemma includes_keep_all rules rel name isDir :
  Forall (fun r => include r = true) rules -> keep rules rel name isDir = true.
Proof.
  induction 1 as [|r rules Hr _ IH]; [done|]. cbn [keep]. rewrite IH, Hr. by split_ifs.
Qed.

(** A leading slash anchors a pattern of several names; one of a single name is
    held against the last name of every path all the same, and a line terminator
    in a path hides it from [**]. *)
Lemma anchor_and_newline :
  let drop p := compileRules [{| fr_include := false; pattern := p |}] in
  (rs ← drop (str "/build"); Some (keep rs (str "src/build") (str "build") true)) = Some false /\
  (rs ← drop (str "/build/x"); Some (keep rs (str "src/build/x") (str "x") true)) = Some true /\
  (rs ← drop (str "**"); Some (keep rs (x61 :: LF :: [x62]) (x61 :: LF :: [x62]) false)) = Some true.
Proof. by vm_compute. Qed.

Lemma compile_rules (frs : list FilterRule) :
  exists rules, compileRules frs = Some rules /\
    forall rel name isDir, keep rules rel name isDir = true <-> kept frs rel name isDir.
Proof.
  induction frs as [|fr frs (rules & Hr & IH)].
  - exists []. split; [done|]. intros rel name isDir. split; [constructor|done].
  - destruct (compile_rule fr) as (r & Er & Ei & Hm). exists (r :: rules). split.
    { unfold compileRules in *. cbn [mapM]. rewrite Er. cbn [mbind option_bind]. by rewrite Hr. }
    intros rel name isDir. specialize (Hm rel name isDir). cbn [keep].
    assert (E : (if dirOnly r && negb isDir then keep rules rel name isDir
                 else if regex_match (if basenameOnly r then name else rel) (re r) then include r
                 else keep rules rel name isDir) =
                if negb (dirOnly r && negb isDir) && regex_match (if basenameOnly r then name else rel) (re r)
                then include r else keep rules rel name isDir)
      by (destruct (dirOnly r && negb isDir); done).
    rewrite E. destruct (negb _ && _) eqn:Em.
    + assert (Ha : applies fr rel name isDir) by by apply Hm. rewrite Ei. split; [by constructor|]. by inversion 1.
    + rewrite IH. assert (Ha : ~ applies fr rel name isDir) by (rewrite <- Hm; congruence).
      split; [by apply kept_next|]. by inversion 1.
Qed.

(** C17: a filter rule is its glob. Whatever bytes a pattern holds, the regular
    expression built from it is accepted - [addRoot] never throws - and none of
    its bytes acts as syntax; [keep] then answers what the globs say: the first
    rule that applies to the path, and no rule means keep. *)
Theorem keep_is_first_glob (frs : list FilterRule) :
  exists rules, compileRules frs = Some rules /\
    forall rel name isDir, keep rules rel name isDir = true <-> kept frs rel name isDir.
Proof. apply compile_rules. Qed.
