(* ===== verification/Walk.v ===== *)
(** * Walk: from the roots to the workers' queues ([client/scheduler.h]: addRoot, run, start)

    What a recursive directory iterator finds is data: [Dir]. The walk asks the
    rules of [Filter] and queues what they keep with [Scheduler.enqueue_entry]. *)

From S2P Require Import Prelude PosixPath StorageReader Filter Scheduler.
From Stdlib Require Import Permutation.

(** A directory entry: its name and what the calls on it answer, [None] where
    they set their error code. *)
Record Info := {
  i_name : bytes;
  i_is_directory : option bool;
  i_is_regular_file : option bool;
  i_size : option Z;
  i_mtime : option Z;
}.

(** What the iterator meets, in its order: an entry that [increment] does not
    enter (a link is not), one that it does, the end. [DirEnd false] is an error
    of [increment], or of opening the root, which a file gives; a directory without permission is empty. *)
Inductive Dir :=
  | DirEnd (ok : bool)
  | DirEntry (i : Info) (next : Dir)
  | DirSub (i : Info) (sub next : Dir).

(** [root / names]. *)
Definition entry_path (root : bytes) (names : list bytes) : bytes :=
  root ++ (if bool_decide (last root = Some slash) then [] else [slash]) ++ join_slash names.

Section Walk.
Context {Ch : Type} {Ops : ChanOps Ch}.

(** The body of the loop, for the entry below the directories [dirs]: whether the
    walk goes on, and whether the recursion is still pending. *)
Definition visit (root : bytes) (rules : list Rule) (dirs : list bytes) (i : Info) (s : Scheduler Ch) :
  option (Scheduler Ch * bool * bool) :=
  let names := dirs ++ [i_name i] in
  let rel := join_slash names in
  match i_is_directory i with
  | None => Some (s, true, true)
  | Some true => Some (s, true, keep rules rel (i_name i) true)
  | Some false =>
      match i_is_regular_file i with
      | Some true =>
          if keep rules rel (i_name i) false then
            '(s, ok) ← enqueue_entry s
              {| e_path := entry_path root names; e_size := i_size i; e_mtime := i_mtime i |};
            Some (s, ok, true)
          else Some (s, true, true)
      | _ => Some (s, true, true)
      end
  end.

Fixpoint walk (root : bytes) (rules : list Rule) (dirs : list bytes) (d : Dir) (s : Scheduler Ch) :
  option (Scheduler Ch * bool) :=
  match d with
  | DirEnd ok => Some (s, ok)
  | DirEntry i next =>
      '(s, ok, _) ← visit root rules dirs i s;
      if ok : bool then walk root rules dirs next s else Some (s, false)
  | DirSub i sub next =>
      '(s, ok, pending) ← visit root rules dirs i s;
      if ok : bool then
        '(s, ok) ← (if pending : bool then walk root rules (dirs ++ [i_name i]) sub s else Some (s, true));
        if ok : bool then walk root rules dirs next s else Some (s, false)
      else Some (s, false)
  end.

Record Root := { r_path : bytes; r_rules : list Rule }.

(** [disk] is what the iterator finds below a root. *)
Definition run (disk : bytes -> Dir) (root : Root) (s : Scheduler Ch) : option (Scheduler Ch * bool) :=
  walk (r_path root) (r_rules root) [] (disk (r_path root)) s.

Definition addRoot (roots : list Root) (p : bytes) (frs : list FilterRule) : option (list Root) :=
  rules ← compileRules frs; Some (roots ++ [{| r_path := p; r_rules := rules |}]).

(** The loop of [start] over the roots. *)
Fixpoint start (disk : bytes -> Dir) (roots : list Root) (s : Scheduler Ch) : option (Scheduler Ch * bool) :=
  match roots with
  | [] => Some (s, true)
  | root :: roots =>
      '(s, ok) ← run disk root s;
      '(s, ok') ← start disk roots s;
      Some (s, ok && ok')
  end.
End Walk.

(** ** What is to be uploaded *)

(** Every entry below a root with the directories above it. *)
Fixpoint listing (above : list Info) (d : Dir) : list (list Info * Info) :=
  match d with
  | DirEnd _ => []
  | DirEntry i next => (above, i) :: listing above next
  | DirSub i sub next => (above, i) :: listing (above ++ [i]) sub ++ listing above next
  end.

Definition names_of (above : list Info) : list bytes := i_name <$> above.

(** The rules leave out no directory on the way. *)
Definition entered (rules : list Rule) (above : list Info) (i : Info) : bool :=
  match i_is_directory i with
  | Some true => keep rules (join_slash (names_of above ++ [i_name i])) (i_name i) true
  | _ => true
  end.

Fixpoint all_entered (rules : list Rule) (above rest : list Info) : bool :=
  match rest with
  | [] => true
  | i :: rest => entered rules above i && all_entered rules (above ++ [i]) rest
  end.

Definition selected (rules : list Rule) (f : list Info * Info) : bool :=
  let '(above, i) := f in
  bool_decide (i_is_directory i = Some false) && bool_decide (i_is_regular_file i = Some true) &&
  keep rules (join_slash (names_of above ++ [i_name i])) (i_name i) false &&
  all_entered rules [] above.

Definition entry_of (root : bytes) (f : list Info * Info) : Entry :=
  {| e_path := entry_path root (names_of f.1 ++ [i_name f.2]); e_size := i_size f.2; e_mtime := i_mtime f.2 |}.

Definition tasks_of (chunk threshold : Z) (root : bytes) (fs : list (list Info * Info)) : list Task :=
  concat (map (fun f => entry_tasks chunk threshold (entry_of root f)) fs).

(** File sizes leave room for one more chunk in 64 bits. *)
Definition sizes_ok (chunk : Z) (fs : list (list Info * Info)) : Prop :=
  Forall (fun f => forall size, i_size f.2 = Some size -> 0 <= size /\ size + chunk <= 2 ^ 64) fs.

Lemma all_entered_snoc rules l : forall above i,
  all_entered rules above (l ++ [i]) = all_entered rules above l && entered rules (above ++ l) i.
Proof.
  induction l as [|a l IH]; intros above i; cbn [all_entered app].
  - by rewrite app_nil_r, andb_true_r.
  - rewrite IH, <- app_assoc. by rewrite andb_assoc.
Qed.

Lemma all_entered_app rules l : forall above m,
  all_entered rules above (l ++ m) = all_entered rules above l && all_entered rules (above ++ l) m.
Proof.
  induction l as [|a l IH]; intros above m; cbn [all_entered app]; [by rewrite app_nil_r|].
  rewrite IH, <- app_assoc. by rewrite andb_assoc.
Qed.

Lemma listing_below d : forall above f, f ∈ listing above d -> exists rest, f.1 = above ++ rest.
Proof.
  induction d as [ok|i next IH|i sub IHs next IH]; intros above f; cbn [listing].
  - by intros ?%elem_of_nil.
  - intros [->|H]%elem_of_cons; [exists []; by rewrite app_nil_r|by apply IH].
  - intros [->|[H|H]%elem_of_app]%elem_of_cons; [exists []; by rewrite app_nil_r| |by apply IH].
    apply IHs in H as [rest ->]. exists (i :: rest). by rewrite <- app_assoc.
Qed.

(** Nothing below a directory that is left out is selected. *)
Lemma nothing_below rules above i sub :
  entered rules above i = false -> filter (fun f => selected rules f = true) (listing (above ++ [i]) sub) = [].
Proof.
  intros He. apply elem_of_nil_inv. intros [above' j] [Hs Hf]%list_elem_of_filter.
  apply listing_below in Hf as [rest E]. cbn in E. subst. unfold selected in Hs.
  rewrite all_entered_app, all_entered_snoc in Hs. cbn [app] in Hs. rewrite He in Hs.
  rewrite andb_false_r in Hs. cbn [andb] in Hs. by rewrite andb_false_r in Hs.
Qed.

Section Selected.
Context {Ch : Type} {Ops : ChanOps Ch} {Laws : ChanLaws Ch}.
Context (root : bytes) (rules : list Rule).
Implicit Types s : Scheduler Ch.

Lemma visit_queue above i s :
  all_entered rules [] above = true -> 0 < chunkSize s ->
  (forall size, i_size i = Some size -> 0 <= size /\ size + chunkSize s <= 2 ^ 64) ->
  exists s' ok, visit root rules (names_of above) i s = Some (s', ok, entered rules above i) /\
    same_config s s' /\
    (ok = true -> all_tasks s' ≡ₚ
       tasks_of (chunkSize s) (bigFileThreshold s) root
         (filter (fun f => selected rules f = true) [(above, i)]) ++ all_tasks s).
Proof.
  intros Ha Hc Hsize. unfold visit, entered, tasks_of.
  rewrite filter_cons, filter_nil. unfold selected. rewrite Ha, andb_true_r.
  destruct (i_is_directory i) as [[|]|] eqn:Ed.
  - exists s, true. by repeat split.
  - destruct (i_is_regular_file i) as [[|]|] eqn:Ef; [|by exists s, true; repeat split..].
    rewrite !bool_decide_eq_true_2 by done. cbn [andb].
    destruct (keep rules (join_slash (names_of above ++ [i_name i])) (i_name i) false) eqn:Ek;
      [|by exists s, true; repeat split].
    edestruct (enqueue_entry_queue s (entry_of root (above, i)) Hc) as (s' & ok & E & Hq); [by apply Hsize|].
    unfold entry_of in E. cbn [fst snd] in E. rewrite E. exists s', ok. cbn [mbind option_bind].
    split; [done|]. split; [by eapply enqueue_entry_config|].
    intros Hok. rewrite decide_True by done. cbn [map concat]. rewrite app_nil_r. by apply Hq.
  - exists s, true. by repeat split.
Qed.

Lemma tasks_of_app chunk threshold l m :
  tasks_of chunk threshold root (l ++ m) = tasks_of chunk threshold root l ++ tasks_of chunk threshold root m.
Proof. unfold tasks_of. by rewrite map_app, concat_app. Qed.

Lemma walk_queue d : forall above s,
  all_entered rules [] above = true -> 0 < chunkSize s -> sizes_ok (chunkSize s) (listing above d) ->
  exists s' ok, walk root rules (names_of above) d s = Some (s', ok) /\ same_config s s' /\
    (ok = true -> all_tasks s' ≡ₚ
       tasks_of (chunkSize s) (bigFileThreshold s) root
         (filter (fun f => selected rules f = true) (listing above d)) ++ all_tasks s).
Proof.
  induction d as [ok|i next IH|i sub IHs next IH]; intros above s Ha Hc Hsz; cbn [walk listing] in *.
  - exists s, ok. by repeat split.
  - apply Forall_cons in Hsz as [Hi Hsz].
    destruct (visit_queue above i s Ha Hc Hi) as (s1 & ok & -> & Hc1 & Hq1). cbn [mbind option_bind].
    destruct ok; [|by exists s1, false]. destruct Hc1 as (E1 & E2 & E3). rewrite <- E1 in Hc, Hsz.
    destruct (IH above s1 Ha Hc Hsz) as (s2 & ok & -> & Hc2 & Hq2). exists s2, ok. split; [done|].
    split; [by eapply same_config_trans|]. intros Hok. rewrite (Hq2 Hok), E1, E2.
    change ((above, i) :: ?l) with ([(above, i)] ++ l). rewrite filter_app, tasks_of_app.
    rewrite (Hq1 eq_refl). solve_Permutation.
  - apply Forall_cons in Hsz as [Hi [Hsub Hsz]%Forall_app].
    destruct (visit_queue above i s Ha Hc Hi) as (s1 & ok & -> & Hc1 & Hq1). cbn [mbind option_bind].
    destruct ok; [|by exists s1, false]. pose proof Hc1 as (E1 & E2 & E3). rewrite <- E1 in Hc, Hsub, Hsz.
    assert (Hpart : exists s2 ok, (if entered rules above i then walk root rules (names_of above ++ [i_name i]) sub s1
                                   else Some (s1, true)) = Some (s2, ok) /\ same_config s1 s2 /\
      (ok = true -> all_tasks s2 ≡ₚ
         tasks_of (chunkSize s1) (bigFileThreshold s1) root
           (filter (fun f => selected rules f = true) (listing (above ++ [i]) sub)) ++ all_tasks s1)).
    { destruct (entered rules above i) eqn:He.
      - replace (names_of above ++ [i_name i]) with (names_of (above ++ [i])) by (unfold names_of; by rewrite fmap_app).
        apply IHs; [|done|done]. rewrite all_entered_snoc, Ha. exact He.
      - exists s1, true. rewrite nothing_below by done. by repeat split. }
    destruct Hpart as (s2 & ok & -> & Hc2 & Hq2). cbn [mbind option_bind].
    pose proof (same_config_trans _ _ _ Hc1 Hc2) as Hc12.
    destruct ok; [|by exists s2, false]. pose proof Hc2 as (F1 & F2 & F3). rewrite <- F1 in Hc, Hsz.
    destruct (IH above s2 Ha Hc Hsz) as (s3 & ok & -> & Hc3 & Hq3). exists s3, ok. split; [done|].
    split; [by eapply same_config_trans|]. intros Hok. rewrite (Hq3 Hok), F1, F2, E1, E2.
    change ((above, i) :: ?l) with ([(above, i)] ++ l). rewrite !filter_app, !tasks_of_app.
    rewrite (Hq2 eq_refl), (Hq1 eq_refl), E1, E2. solve_Permutation.
Qed.
End Selected.

(** ** In terms of the globs *)

(** A regular file that the rules keep, below directories that they keep. *)
Definition wanted (frs : list FilterRule) (f : list Info * Info) : Prop :=
  i_is_directory f.2 = Some false /\ i_is_regular_file f.2 = Some true /\
  kept frs (join_slash (names_of f.1 ++ [i_name f.2])) (i_name f.2) false /\
  forall l a r, f.1 = l ++ a :: r -> i_is_directory a = Some true ->
    kept frs (join_slash (names_of l ++ [i_name a])) (i_name a) true.

Lemma all_entered_spec rules rest : forall above,
  all_entered rules above rest = true <->
  forall l a r, rest = l ++ a :: r -> entered rules (above ++ l) a = true.
Proof.
  induction rest as [|i rest IH]; intros above; cbn [all_entered].
  - split; [by intros _ [|] ? ?|done].
  - rewrite andb_true_iff, IH. split.
    + intros [H1 H2] [|b l] a r [= -> ->]; [by rewrite app_nil_r|].
      replace (above ++ b :: l) with ((above ++ [b]) ++ l) by by rewrite <- app_assoc. by eapply H2.
    + intros H. split; [specialize (H [] i rest eq_refl); by rewrite app_nil_r in H|].
      intros l a r ->. specialize (H (i :: l) a r eq_refl). by rewrite <- app_assoc.
Qed.

Lemma selected_wanted frs rules f :
  (forall rel name d, keep rules rel name d = true <-> kept frs rel name d) ->
  selected rules f = true <-> wanted frs f.
Proof.
  intros Hk. destruct f as [above i]. unfold selected, wanted. cbn [fst snd].
  rewrite !andb_true_iff, !bool_decide_eq_true, Hk, all_entered_spec. unfold entered.
  assert (Hdirs : (forall l a r, above = l ++ a :: r ->
      match i_is_directory a with
      | Some true => keep rules (join_slash (names_of ([] ++ l) ++ [i_name a])) (i_name a) true
      | _ => true
      end = true) <->
    (forall l a r, above = l ++ a :: r -> i_is_directory a = Some true ->
      kept frs (join_slash (names_of l ++ [i_name a])) (i_name a) true)).
  { split.
    - intros H l a r E Hd. specialize (H l a r E). rewrite Hd in H. by apply Hk.
    - intros H l a r E. destruct (i_is_directory a) as [[|]|] eqn:Hd; [|done|done]. apply Hk. by eapply H. }
  rewrite Hdirs. clear. tauto.
Qed.

(** The roots of a command line, in order. *)
Fixpoint add_roots (roots : list Root) (specs : list (bytes * list FilterRule)) : option (list Root) :=
  match specs with
  | [] => Some roots
  | (p, frs) :: specs => roots ← addRoot roots p frs; add_roots roots specs
  end.

Definition rooted (disk : bytes -> Dir) (spec : bytes * list FilterRule) (fs : list (list Info * Info)) : Prop :=
  fs `sublist_of` listing [] (disk spec.1) /\
  forall f, f ∈ fs <-> f ∈ listing [] (disk spec.1) /\ wanted spec.2 f.

Definition all_files (chunk threshold : Z) (specs : list (bytes * list FilterRule))
    (fss : list (list (list Info * Info))) : list Task :=
  concat (zip_with (fun spec fs => tasks_of chunk threshold spec.1 fs) specs fss).

Lemma add_roots_app specs : forall roots, exists rs,
  add_roots roots specs = Some (roots ++ rs) /\
  Forall2 (fun spec r => r_path r = spec.1 /\
    forall rel name d, keep (r_rules r) rel name d = true <-> kept spec.2 rel name d) specs rs.
Proof.
  induction specs as [|[p frs] specs IH]; intros roots; cbn [add_roots].
  - exists []. by rewrite app_nil_r.
  - destruct (compile_rules frs) as (rules & E & Hk). unfold addRoot. rewrite E. cbn [mbind option_bind].
    destruct (IH (roots ++ [{| r_path := p; r_rules := rules |}])) as (rs & -> & Hrs).
    exists ({| r_path := p; r_rules := rules |} :: rs). rewrite <- app_assoc. split; [done|]. by constructor.
Qed.

Section Start.
Context {Ch : Type} {Ops : ChanOps Ch} {Laws : ChanLaws Ch} (disk : bytes -> Dir).
Implicit Types s : Scheduler Ch.

Lemma start_queue specs roots : forall s,
  Forall2 (fun spec r => r_path r = spec.1 /\
    forall rel name d, keep (r_rules r) rel name d = true <-> kept spec.2 rel name d) specs roots ->
  0 < chunkSize s -> Forall (fun spec => sizes_ok (chunkSize s) (listing [] (disk spec.1))) specs ->
  exists s' ok, start disk roots s = Some (s', ok) /\ same_config s s' /\
    (ok = true -> exists fss, Forall2 (rooted disk) specs fss /\
       all_tasks s' ≡ₚ all_files (chunkSize s) (bigFileThreshold s) specs fss ++ all_tasks s).
Proof.
  revert roots. induction specs as [|spec specs IH]; intros roots s Hr Hc Hsz.
  - apply Forall2_nil_inv_l in Hr as ->. exists s, true. split; [done|]. split; [done|]. intros _. by exists [].
  - apply Forall2_cons_inv_l in Hr as (r & roots' & [Hp Hk] & Hr & ->). apply Forall_cons in Hsz as [Hsz1 Hsz].
    cbn [start]. unfold run. rewrite Hp.
    destruct (walk_queue spec.1 (r_rules r) (disk spec.1) [] s eq_refl Hc Hsz1)
      as (s1 & ok & E & Hc1 & Hq).
    pose proof Hc1 as (E1 & E2 & E3).
    cbn [names_of fmap list_fmap] in E. rewrite E. cbn [mbind option_bind].
    rewrite <- E1 in Hc, Hsz. destruct (IH roots' s1 Hr Hc Hsz) as (s2 & ok2 & -> & Hc2 & Hq2).
    cbn [mbind option_bind]. exists s2, (ok && ok2). split; [done|].
    split; [by eapply same_config_trans|]. intros [-> ->]%andb_true_iff.
    destruct (Hq2 eq_refl) as (fss & Hf & Hq2').
    exists (filter (fun f => selected (r_rules r) f = true) (listing [] (disk spec.1)) :: fss). split.
    + constructor; [|done]. split; [apply sublist_filter|]. intros f. rewrite list_elem_of_filter.
      rewrite (selected_wanted _ _ _ Hk). naive_solver.
    + rewrite Hq2', (Hq eq_refl), E1, E2. unfold all_files. cbn [zip_with concat]. solve_Permutation.
Qed.

(** From the command line to the queues. For any rules and any disk adding
    the roots never throws and the walk ends; when it reports success, the
    workers' queues have gained exactly the tasks of the wanted files - the
    regular files that the globs keep below directories that the globs keep -
    each once, in chunks where it is big, and nothing else. *)
Theorem start_queues_wanted (specs : list (bytes * list FilterRule)) (s : Scheduler Ch) :
  0 < chunkSize s -> Forall (fun spec => sizes_ok (chunkSize s) (listing [] (disk spec.1))) specs ->
  exists roots s' ok, add_roots [] specs = Some roots /\ start disk roots s = Some (s', ok) /\
    (ok = true -> exists fss, Forall2 (rooted disk) specs fss /\
       all_tasks s' ≡ₚ all_files (chunkSize s) (bigFileThreshold s) specs fss ++ all_tasks s).
Proof.
  intros Hc Hsz. destruct (add_roots_app specs []) as (roots & E & Hr).
  destruct (start_queue specs roots s Hr Hc Hsz) as (s' & ok & Es & _ & Hq). by exists roots, s', ok.
Qed.
End Start.

(** A disk with a big file, a directory that a rule leaves out and a link. *)
Definition demo_file (name : bytes) (size : Z) : Info :=
  {| i_name := name; i_is_directory := Some false; i_is_regular_file := Some true;
     i_size := Some size; i_mtime := Some 0 |}.
Definition demo_dir (name : bytes) : Info :=
  {| i_name := name; i_is_directory := Some true; i_is_regular_file := Some false;
     i_size := None; i_mtime := None |}.

Definition demo_disk (root : bytes) : Dir :=
  DirSub (demo_dir (str "build")) (DirEntry (demo_file (str "a.o") 3) (DirEnd true))
    (DirEntry (demo_dir (str "link")) (DirEntry (demo_file (str "big") 9) (DirEnd true))).

Definition demo_specs : list (bytes * list FilterRule) :=
  [(str "src", [{| fr_include := false; pattern := str "build/" |}])].

Example demo_start :
  (roots ← add_roots [] demo_specs; '(s, ok) ← start (Ops := ListChan.ops) demo_disk roots demo_scheduler;
   Some (length <$> workers s, ok)) = Some ([2; 1]%nat, true).
Proof. vm_compute. reflexivity. Qed.

Lemma start_queues_wanted_witness :
  exists roots s' ok, add_roots [] demo_specs = Some roots /\
    start (Ops := ListChan.ops) demo_disk roots demo_scheduler = Some (s', ok) /\
    (ok = true -> exists fss, Forall2 (rooted demo_disk) demo_specs fss /\
       @all_tasks _ _ ListChan.laws s' ≡ₚ
         all_files 4 8 demo_specs fss ++ @all_tasks _ _ ListChan.laws demo_scheduler).
Proof.
  apply (start_queues_wanted (Laws := ListChan.laws) demo_disk demo_specs demo_scheduler); [reflexivity|].
  apply Forall_cons. split; [|by constructor]. unfold sizes_ok. cbn [demo_disk listing fst app].
  repeat (apply Forall_cons; split; [intros size E; cbn in E; simplify_eq; by split|]). constructor.
Defined.
