(* ===== verification/Backup.v ===== *)
(** * Backup: the whole way from the client's disk to the server's

    The components composed: the walk queues the tasks of the wanted files
    ([Walk]), each worker sends what its queue holds ([Worker], [Codec],
    [StorageReader]), the server's consumers store it ([Upload], [FileSink],
    [EndToEnd]). Here the connections are served one after another; two units
    never write the same byte, so their order is of no account. [Concurrent]
    serves them all at the same time. *)

From S2P Require Import Prelude Protocol PosixPath FileSink Codec Upload StorageReader Worker EndToEnd Scheduler Filter Walk.
From Stdlib Require Import Permutation.

(** ** What a task carries *)

Lemma c_str_id p : x00 ∉ p -> c_str p = p.
Proof.
  induction p as [|c p IH]; [done|]. intros [H1 H2]%not_elem_of_cons. cbn.
  rewrite bool_decide_eq_false_2 by congruence. by rewrite IH.
Qed.

Lemma strncpy_path_id p : (length p < PATH_CAP)%nat -> x00 ∉ p -> strncpy_path p = p.
Proof. intros Hl Hn. unfold strncpy_path. rewrite c_str_id by done. apply take_ge. unfold PATH_CAP in *. lia. Qed.

(** What an upload of [data] makes of a file that holds [old]. A file below the
    threshold is written anew. The chunks of a larger one go into a file that is
    opened without truncation, so what [old] has behind the end of [data] stays. *)
Definition rebuilt (threshold : Z) (old : option bytes) (data : bytes) : bytes :=
  if threshold <=? Z.of_nat (length data) then data ++ drop (length data) (default [] old) else data.

Lemma rebuilt_short threshold old data : (length (default [] old) <= length data)%nat -> rebuilt threshold old data = data.
Proof. intros H. unfold rebuilt. rewrite drop_ge by done. rewrite app_nil_r. by destruct (_ <=? _). Qed.

Lemma rebuilt_small threshold old data : Z.of_nat (length data) < threshold -> rebuilt threshold old data = data.
Proof. intros H. unfold rebuilt. by destruct (Z.leb_spec threshold (Z.of_nat (length data))); [lia|]. Qed.

Lemma rebuilt_big threshold old data :
  threshold <= Z.of_nat (length data) -> rebuilt threshold old data = data ++ drop (length data) (default [] old).
Proof. intros H. unfold rebuilt. by destruct (Z.leb_spec threshold (Z.of_nat (length data))); [|lia]. Qed.

Lemma slice_grows data rest x : slice_of data x -> slice_of (data ++ rest) x.
Proof.
  intros Hx. pose proof (slice_bound _ _ Hx) as Hb. destruct Hx as [H1 H2]. split; [|done].
  rewrite drop_app_le by lia. rewrite take_app_le; [done|]. rewrite length_drop. lia.
Qed.

(** What the old file has behind the end is there. *)
Lemma tail_there (data c : bytes) i :
  (length data <= i < length (data ++ drop (length data) c))%nat ->
  (i < length c)%nat /\ c !! i = (data ++ drop (length data) c) !! i.
Proof.
  rewrite length_app, length_drop. intros Hi. split; [lia|].
  rewrite lookup_app_r, lookup_drop by lia. f_equal. lia.
Qed.

Section Rebuild.
Context {K F : Type} {Disk : DiskOps K F} {DLaws : DiskLaws K F} (k : K).
Variables (root : path) (chunk threshold : Z) (block : nat).
Hypothesis chunk_pos : 0 < chunk.
Hypothesis threshold_pos : 0 < threshold.
Hypothesis block_size : READ_BLOCK <= Z.of_nat block.

(** POSIX: [Storage::resolve] gives the path itself. *)
Abbreviation sub := (submit k (fun p => p)).

(** A file of the client's disk with its contents and its place on the server;
    its path fits a task, its size the offsets. *)
Record uploadable (e : Entry) (data : bytes) (q : bytes) : Prop := {
  up_size : e_size e = Some (Z.of_nat (length data));
  up_path : (0 < length (e_path e) < PATH_CAP)%nat /\ x00 ∉ e_path e;
  up_disk : exists h, disk_open k (e_path e) = Some h /\ disk_file k h = data;
  up_target : exists full, resolve_safe_path root (e_path e) = Some full /\ os_path full = q;
  up_fits : Z.of_nat (length data) < 2 ^ 63;
}.

Lemma sub_range e data q t off len :
  uploadable e data q -> pathname t = e_path e -> t_offset t = off -> t_length t = len ->
  0 <= off -> 0 <= len ->
  concat (sub t) = take (Z.to_nat len) (drop (Z.to_nat off) data) /\
  Forall (fun b => (length b <= block)%nat) (sub t).
Proof using DLaws block_size.
  intros He Hp <- <- Ho Hl. destruct (up_path _ _ _ He) as [Hlen Hnul]. destruct (up_disk _ _ _ He) as (h & Hopen & <-).
  unfold submit, read_process. rewrite Hp, strncpy_path_id, c_str_id, Hopen by (lia || done).
  destruct (read_loop_ok k (Z.to_nat (t_length t)) h (t_offset t) (t_length t)) as [E Hb]; [lia..|].
  split; [done|]. eapply Forall_impl; [exact Hb|]. intros b Hb'. cbn in Hb'. lia.
Qed.

(** What the server writes for a task, and where. *)
Definition unit_write (t : Task) : nat * bytes := (Z.to_nat (unit_base t), concat (sub t)).

Definition target (t : Task) : option bytes := os_path <$> resolve_safe_path root (pathname t).

Lemma entry_task_ok e data q t :
  uploadable e data q -> t ∈ entry_tasks chunk threshold e ->
  task_ok root sub block t /\ target t = Some q.
Proof using DLaws block_size chunk_pos.
  intros He Ht. destruct (up_path _ _ _ He) as [Hlen Hnul]. destruct (up_target _ _ _ He) as (full & Hres & Hq).
  pose proof (up_fits _ _ _ He) as Hfit. unfold entry_tasks in Ht. rewrite (up_size _ _ _ He) in Ht.
  assert (Hpath : 0 < Z.of_nat (length (e_path e)) <= kMaxPathLength) by (unfold PATH_CAP, kMaxPathLength in *; lia).
  assert (Hone : forall t off len, pathname t = e_path e -> t_type t = File \/ t_type t = Chunk ->
    t_offset t = off -> t_length t = len -> 0 <= off -> 0 <= len -> off + len <= Z.of_nat (length data) ->
    task_ok root sub block t /\ target t = Some q).
  { intros u off len Hp Hty Ho Hl Ho0 Hl0 Hsum.
    destruct (sub_range e data q u off len He Hp Ho Hl Ho0 Hl0) as [E Hb].
    assert (Hlen' : (length (concat (sub u)) <= Z.to_nat len)%nat) by (rewrite E, length_take; lia).
    split; [|unfold target; by rewrite Hp, Hres, <- Hq]. split_and!.
    - unfold good_task, is_word. rewrite Hp, Ho. split_and!; (done || lia).
    - rewrite Hp. by eexists.
    - unfold unit_fits, unit_base. split; [done|]. destruct Hty as [->| ->]; lia.
    - done. }
  destruct (threshold <=? Z.of_nat (length data)).
  - apply list_elem_of_fmap in Ht as (r & -> & Hr).
    destruct (chunk_ranges_ok (Z.to_nat (Z.of_nat (length data))) (Z.of_nat (length data)) chunk 0) as [H1 _]; [lia..|].
    rewrite Forall_forall in H1. specialize (H1 r Hr). cbn in H1.
    apply (Hone _ r.1 r.2); try done; try lia; [|by right]. by apply strncpy_path_id; [lia|].
  - apply list_elem_of_singleton in Ht as ->.
    apply (Hone _ 0 (Z.of_nat (length data))); try done; try lia; [|by left]. by apply strncpy_path_id; [lia|].
Qed.

(** ** The order of the units is of no account *)

(** What a unit makes of the contents of its file. *)
Definition unit_stored (old : option bytes) (t : Task) : option bytes :=
  Some (stored (t_type t) (unit_base t) old (concat (sub t))).

Definition store_all (ts : list Task) (files : bytes -> option bytes) : bytes -> option bytes :=
  fold_left (spec_store root sub) ts files.

Lemma store_all_at ts q : forall files,
  store_all ts files q = fold_left unit_stored (filter (fun t => target t = Some q) ts) (files q).
Proof using Type.
  assert (Hone : forall files t, spec_store root sub files t q =
    if decide (target t = Some q) then unit_stored (files q) t else files q).
  { intros files t. unfold spec_store, target.
    destruct (resolve_safe_path root (pathname t)) as [full|]; cbn [fmap option_fmap option_map]; [|by rewrite decide_False].
    destruct (decide (q = os_path full)) as [->|Hne]; [by rewrite decide_True|].
    by rewrite decide_False by congruence. }
  induction ts as [|t ts IH]; intros files; [done|]. unfold store_all in *. cbn [fold_left].
  rewrite IH, filter_cons, Hone. by destruct (decide (target t = Some q)).
Qed.

Lemma chunks_fold l : Forall (fun t => t_type t = Chunk) l -> forall c,
  fold_left unit_stored l (Some c) = Some (pwrites c (map unit_write l)).
Proof using Type.
  induction 1 as [|t l Ht _ IH]; intros c; [done|]. cbn [fold_left map]. unfold unit_stored at 2.
  rewrite Ht. cbn [stored default]. apply IH.
Qed.

(** The units of a file: chunks that are slices of it and cover it, or the file. *)
Lemma entry_units e data q :
  uploadable e data q -> let l := entry_tasks chunk threshold e in
  (Forall (fun t => t_type t = Chunk) l /\ l <> [] /\ Forall (slice_of data) (map unit_write l) /\
   (forall i, (i < length data)%nat -> covers (map unit_write l) i) /\ threshold <= Z.of_nat (length data)) \/
  exists t, l = [t] /\ t_type t = File /\ concat (sub t) = data /\ Z.of_nat (length data) < threshold.
Proof using DLaws block_size chunk_pos threshold_pos.
  intros He l. subst l. unfold entry_tasks. rewrite (up_size _ _ _ He).
  destruct (Z.leb_spec threshold (Z.of_nat (length data))) as [Hbig|Hsmall]; [left|right].
  - match goal with |- context [map unit_write ?l] => set (ts := l) end.
    assert (Hw : map unit_write ts = map (chunk_write data) (chunks_of (Z.of_nat (length data)) chunk)).
    { unfold ts. rewrite map_map. apply map_ext_in. intros r Hr%list_elem_of_In.
      destruct (chunk_ranges_ok (Z.to_nat (Z.of_nat (length data))) (Z.of_nat (length data)) chunk 0) as [H1 _]; [lia..|].
      rewrite Forall_forall in H1. specialize (H1 r Hr). cbn in H1.
      unfold unit_write, chunk_write. f_equal.
      apply (sub_range e data q); try done; try lia. apply strncpy_path_id; apply (up_path _ _ _ He). }
    destruct (chunks_cover data chunk (map unit_write ts) chunk_pos) as [Hslice Hcov]; [by rewrite Hw|].
    split_and!; [|intros E|done|done|done].
    + apply Forall_forall. by intros t (r & -> & _)%list_elem_of_fmap.
    + rewrite E in Hcov. destruct (Hcov 0%nat) as (x & Hx & _); [lia|]. by apply elem_of_nil in Hx.
  - eexists. split; [done|]. split; [done|].
    destruct (sub_range e data q (file_task e (Z.of_nat (length data))) 0 (Z.of_nat (length data)) He) as [E _];
      [apply strncpy_path_id; apply (up_path _ _ _ He)|done|done|lia|lia|].
    rewrite E, Nat2Z.id. cbn [Z.to_nat]. by rewrite drop_0, take_ge.
Qed.

(** The units of a file, in any order, on top of anything. *)
Lemma file_rebuilt e data q l old :
  uploadable e data q -> l ≡ₚ entry_tasks chunk threshold e ->
  fold_left unit_stored l old = Some (rebuilt threshold old data).
Proof using DLaws block_size chunk_pos threshold_pos.
  intros He Hl. destruct (entry_units e data q He) as [(Hty & Hne & Hslice & Hcov & Hbig)|(t & E & Hty & Hdata & Hsmall)].
  - rewrite <- Hl in Hty, Hslice. assert (Hcov' : forall i, (i < length data)%nat -> covers (map unit_write l) i).
    { intros i Hi. destruct (Hcov i Hi) as (x & Hx & Hix). exists x. by rewrite Hl. }
    destruct l as [|t l]; [by apply Permutation_nil_l in Hl|].
    apply Forall_cons in Hty as [Ht Hty]. cbn [fold_left]. unfold unit_stored at 2. rewrite Ht. cbn [stored].
    rewrite chunks_fold by done. f_equal. rewrite rebuilt_big by done.
    apply (pwrites_onto _ (default [] old) (map unit_write (t :: l))).
    + eapply Forall_impl; [exact Hslice|]. intros x. apply slice_grows.
    + rewrite length_app, length_drop. lia.
    + intros i Hi. destruct (decide (i < length data)%nat) as [Hlt|Hge]; [left; by apply Hcov'|right].
      apply tail_there. lia.
  - rewrite E in Hl. apply Permutation_singleton_r in Hl as ->. cbn [fold_left]. unfold unit_stored.
    by rewrite Hty, Hdata, rebuilt_small.
Qed.

(** Files with their contents and places, no place used twice. *)
Definition placed (es : list (Entry * bytes * bytes)) : Prop :=
  Forall (fun x => uploadable x.1.1 x.1.2 x.2) es /\ NoDup es.*2.

Definition units (es : list (Entry * bytes * bytes)) : list Task :=
  concat (map (fun x => entry_tasks chunk threshold x.1.1) es).

Lemma no_units q es :
  Forall (fun x => uploadable x.1.1 x.1.2 x.2) es -> q ∉ es.*2 ->
  filter (fun t => target t = Some q) (units es) = [].
Proof using DLaws block_size chunk_pos.
  intros Hes Hq. apply elem_of_nil_inv. intros t [Ht Hin]%list_elem_of_filter. apply Hq.
  unfold units in Hin. apply elem_of_bind in Hin as (x & Hx & Ht').
  rewrite Forall_forall in Hes. destruct (entry_task_ok _ _ _ t (Hes x Hx) Ht') as [_ Htx].
  replace q with x.2 by congruence. by apply list_elem_of_fmap_2.
Qed.

Lemma units_at e data q es :
  placed es -> (e, data, q) ∈ es ->
  filter (fun t => target t = Some q) (units es) = entry_tasks chunk threshold e.
Proof using DLaws block_size chunk_pos.
  intros [Hes Hnd] Hin. induction es as [|x es IH]; [by apply elem_of_nil in Hin|].
  apply Forall_cons in Hes as [Hx Hes]. cbn [fmap list_fmap] in Hnd. apply NoDup_cons in Hnd as [Hnx Hnd].
  unfold units in *. cbn [map concat]. rewrite filter_app. apply elem_of_cons in Hin as [<-|Hin].
  - cbn [fst snd] in *. pose proof (no_units q es Hes Hnx) as Hno. unfold units in Hno. rewrite Hno, app_nil_r.
    apply filter_all, Forall_forall. intros t Ht. by apply (entry_task_ok e data q t).
  - rewrite IH by done. rewrite (elem_of_nil_inv (filter _ (entry_tasks _ _ x.1.1))); [done|].
    intros t [Ht Htx]%list_elem_of_filter. destruct (entry_task_ok _ _ _ t Hx Htx) as [_ E].
    apply Hnx. replace x.2 with q by congruence. apply (list_elem_of_fmap_2 snd) in Hin. exact Hin.
Qed.

(** Any order of the units leaves exactly the files. *)
Lemma store_all_rebuilds es ts files :
  placed es -> ts ≡ₚ units es ->
  (forall e data q, (e, data, q) ∈ es -> store_all ts files q = Some (rebuilt threshold (files q) data)) /\
  (forall q, q ∉ es.*2 -> store_all ts files q = files q).
Proof using DLaws block_size chunk_pos threshold_pos.
  intros Hp Hts. split.
  - intros e data q Hin. rewrite store_all_at. pose proof Hp as [Hes _]. rewrite Forall_forall in Hes.
    eapply file_rebuilt; [exact (Hes _ Hin)|]. rewrite Hts. by rewrite (units_at e data q es).
  - intros q Hq. rewrite store_all_at. destruct Hp as [Hes _].
    assert (E : filter (fun t => target t = Some q) ts ≡ₚ []) by (rewrite Hts; by rewrite no_units).
    apply Permutation_nil_r in E as ->. done.
Qed.
End Rebuild.

(** ** The connections of a run *)

Section Served.
Context {N C W D K F : Type} {Net : NetOps N} {Comp : Compressor C} {Dec : Decompressor D}.
Context {Ops : FsOps W} {Laws : FsLaws W} {Rel : FsReliable W} {Up : NetUp N}.
Context {block : nat} {Codec : StreamCodec C D out_cap block}.
Context {Disk : DiskOps K F} {DLaws : DiskLaws K F} (k : K).
Variables (mode : Z) (flt : ProbeInfo -> bool) (blake3 : bytes -> bytes).

Abbreviation sub := (submit k (fun p => p)).

(** A worker behind its handshake, in the plain mode, and the decompressor of
    its connection. *)
Record Peer := { l_worker : Worker N C; l_decoder : D }.

Definition link_ok (l : Peer) : Prop :=
  acceptMode (l_worker l) = false /\ sync (compressor (l_worker l)) (l_decoder l).

(** The consumer of a new connection on a session's sink. *)
Definition consumer_on (w : W) (sink : FileSink) (d : D) (stream : bytes) : Consumer W D :=
  {| input := stream; world := w; sink_ := sink; decompressor_ := d; accepted_ := ∅; units_done_ := 0;
     bytes_total_ := 0; posted := []; emitted := [] |}.

(** The workers of a run with their tasks: what each sends, its connection's
    consumer gets. *)
Fixpoint serve (links : list (Peer * list Task)) (w : W) (sink : FileSink) : option (W * FileSink) :=
  match links with
  | [] => Some (w, sink)
  | (l, ts) :: links =>
      let '(w', ok) := process_all sub blake3 (l_worker l) ts in
      if ok : bool then
        let stream := drop (length (net_sent (network (l_worker l)))) (net_sent (network (finish w'))) in
        let s := handle_upload mode (w_integrity (l_worker l)) flt (consumer_on w sink (l_decoder l) stream) in
        serve links (world s) (sink_ s)
      else None
  end.

Lemma serve_stores links root : forall w sink,
  has_mode mode ModeAccept = false -> session_root_ sink = root -> sink_inv w sink ->
  Forall (fun x => link_ok x.1 /\ Forall (task_ok root sub block) x.2) links ->
  exists w' sink', serve links w sink = Some (w', sink') /\
    forall q, fs_file w' q = store_all k root (concat links.*2) (fun q => fs_file w q) q.
Proof.
  intros w sink Hmode <- Hinv Hl. revert w sink Hinv Hl.
  induction links as [|[l ts] links IH]; intros w sink Hinv Hl; cbn [serve fmap list_fmap concat].
  - by exists w, sink.
  - apply Forall_cons in Hl as [[[Hacc Hsync] Hts] Hl]. cbn [fst snd] in *.
    destruct (session_stored mode flt sub blake3 ts (l_worker l) (consumer_on w sink (l_decoder l) [])
      Hacc Hmode Hsync Hinv Hts) as (w' & stream & -> & Hsent & Hst).
    specialize (Hst []). cbv zeta in Hst. rewrite app_nil_r in Hst.
    change (set_input (consumer_on w sink (l_decoder l) []) stream) with (consumer_on w sink (l_decoder l) stream) in Hst.
    rewrite Hsent, drop_app_length. destruct Hst as (_ & Hinv' & Hroot & Hfiles).
    set (s' := handle_upload _ _ _ _) in *. cbn [sink_ world consumer_on] in Hroot, Hfiles.
    destruct (IH (world s') (sink_ s') Hinv') as (w2 & sink2 & -> & Hf2); [by rewrite Hroot|].
    exists w2, sink2. split; [done|]. intros q. rewrite Hf2, Hroot. unfold store_all at 2. rewrite fold_left_app.
    fold (store_all k (session_root_ sink) ts (fun q => fs_file w q)).
    fold (store_all k (session_root_ sink) (concat links.*2) (store_all k (session_root_ sink) ts (fun q => fs_file w q))).
    rewrite !store_all_at. f_equal. rewrite <- store_all_at. apply Hfiles.
Qed.
End Served.

(** ** The wanted files and their places *)

Section Places.
Context {K F : Type} {Disk : DiskOps K F} {DLaws : DiskLaws K F} (k : K).
Variables (root : path) (chunk threshold : Z) (disk : bytes -> Dir).
Variables (content dest : bytes -> bytes).

Definition client_path (spec : bytes * list FilterRule) (f : list Info * Info) : bytes :=
  e_path (entry_of spec.1 f).

(** What is to be uploaded of the roots. *)
Definition to_upload (specs : list (bytes * list FilterRule)) (spec : bytes * list FilterRule) (f : list Info * Info) : Prop :=
  spec ∈ specs /\ f ∈ listing [] (disk spec.1) /\ wanted spec.2 f.

Definition place (spec : bytes * list FilterRule) (f : list Info * Info) : Entry * bytes * bytes :=
  (entry_of spec.1 f, content (client_path spec f), dest (client_path spec f)).

Definition all_places (specs : list (bytes * list FilterRule)) : list bytes :=
  concat (map (fun spec => map (fun f => dest (client_path spec f)) (listing [] (disk spec.1))) specs).

Definition places (specs : list (bytes * list FilterRule)) (fss : list (list (list Info * Info))) :
  list (Entry * bytes * bytes) :=
  concat (zip_with (fun spec fs => map (place spec) fs) specs fss).

Lemma units_places specs fss :
  all_files chunk threshold specs fss = units chunk threshold (places specs fss).
Proof using Type.
  revert fss. induction specs as [|spec specs IH]; intros [|fs fss]; [done..|].
  unfold all_files, places, units in *. cbn [zip_with concat]. rewrite IH, map_app, concat_app. f_equal.
  unfold tasks_of. by rewrite map_map.
Qed.

Lemma elem_of_places specs fss x :
  Forall2 (rooted disk) specs fss ->
  x ∈ places specs fss <-> exists spec f, to_upload specs spec f /\ x = place spec f.
Proof using Type.
  unfold to_upload, places. induction 1 as [|spec fs specs fss [_ Hfs] _ IH]; cbn [zip_with concat].
  - split; [by intros ?%elem_of_nil|by intros (? & ? & [?%elem_of_nil _] & _)].
  - rewrite elem_of_app, IH. split.
    + intros [(f & -> & Hf)%list_elem_of_fmap|(spec' & f & (Hs & Hf & Hw) & ->)].
      * exists spec, f. apply Hfs in Hf as [Hf Hw]. split_and!; [by left|done..].
      * exists spec', f. split_and!; [by right|done..].
    + intros (spec' & f & ([->|Hs]%elem_of_cons & Hf & Hw) & ->); [left|right].
      * apply (list_elem_of_fmap_2 (place spec)). by apply Hfs.
      * by exists spec', f.
Qed.

Lemma places_sublist specs fss :
  Forall2 (rooted disk) specs fss -> (places specs fss).*2 `sublist_of` all_places specs.
Proof using Type.
  unfold places, all_places. induction 1 as [|spec fs specs fss [Hsub _] _ IH]; cbn [zip_with concat map]; [done|].
  rewrite fmap_app. apply sublist_app; [|done].
  replace ((map (place spec) fs).*2) with ((fun f => dest (client_path spec f)) <$> fs)
    by (rewrite <- list_fmap_compose; done).
  clear -Hsub. induction Hsub; by constructor.
Qed.
End Places.

(** ** From disk to disk *)

(** A backup arrives. Workers behind their handshakes send what the walk of
    the client's roots queued for them, and each connection's consumer stores
    what it gets. If [start] reports success, then afterwards every regular file
    that the globs keep, below directories that the globs keep, is on the server
    at the place its path resolves to below the session's directory, as [rebuilt]
    says: byte for byte, but for a chunked file that was longer before, however
    it was cut into chunks and shared out among the workers; and nothing else on
    the server has changed. The files can be read, differ in their places, and
    have paths that fit a task; the network does not fail and the server's file
    system does not refuse. *)
Theorem backup_arrives {N C W D K F Ch : Type} {Net : NetOps N} {Comp : Compressor C} {Dec : Decompressor D}
    {Ops : FsOps W} {Laws : FsLaws W} {Rel : FsReliable W} {Up : NetUp N} {block : nat}
    {Codec : StreamCodec C D out_cap block} {Disk : DiskOps K F} {DLaws : DiskLaws K F}
    {ChOps : ChanOps Ch} {ChLaws : ChanLaws Ch}
    (mode : Z) (flt : ProbeInfo -> bool) (blake3 : bytes -> bytes) (k : K) (disk : bytes -> Dir)
    (content dest : bytes -> bytes) (specs : list (bytes * list FilterRule))
    (s : Scheduler Ch) (links : list (Peer (N := N) (C := C) (D := D))) (w : W) (sink : FileSink) :
  0 < chunkSize s -> 0 < bigFileThreshold s -> READ_BLOCK <= Z.of_nat block -> all_tasks s = [] ->
  Forall (fun spec => sizes_ok (chunkSize s) (listing [] (disk spec.1))) specs ->
  (forall spec f, to_upload disk specs spec f ->
     uploadable k (session_root_ sink) (entry_of spec.1 f) (content (client_path spec f)) (dest (client_path spec f))) ->
  NoDup (all_places disk dest specs) ->
  has_mode mode ModeAccept = false -> sink_inv w sink -> Forall link_ok links -> length links = length (workers s) ->
  exists roots s' ok, add_roots [] specs = Some roots /\ start disk roots s = Some (s', ok) /\
    (ok = true -> exists w' sink', serve k mode flt blake3 (zip links (ch_queue <$> workers s')) w sink = Some (w', sink') /\
       (forall spec f, to_upload disk specs spec f ->
          fs_file w' (dest (client_path spec f)) =
            Some (rebuilt (bigFileThreshold s) (fs_file w (dest (client_path spec f))) (content (client_path spec f)))) /\
       (forall q, (forall spec f, to_upload disk specs spec f -> q <> dest (client_path spec f)) ->
          fs_file w' q = fs_file w q)).
Proof.
  intros Hchunk Hthr Hblock Hempty Hsz Hup Hnd Hmode Hinv Hlinks Hlen.
  destruct (add_roots_app specs []) as (roots & Er & Hr).
  destruct (start_queue disk specs roots s Hr Hchunk Hsz) as (s' & ok & Es & (_ & _ & Hw) & Hq).
  exists roots, s', ok. split; [done|]. split; [done|]. intros Hok.
  destruct (Hq Hok) as (fss & Hfss & Hp). rewrite Hempty, app_nil_r in Hp.
  rewrite (units_places _ _ content dest) in Hp. set (es := places content dest specs fss) in *.
  assert (Hes : forall x, x ∈ es <-> exists spec f, to_upload disk specs spec f /\ x = place content dest spec f)
    by (intros x; by apply elem_of_places).
  assert (Hplaced : placed k (session_root_ sink) es).
  { split.
    - apply Forall_forall. intros x (spec & f & Hf & ->)%Hes. by apply Hup.
    - eapply sublist_NoDup; [exact Hnd|]. by apply places_sublist. }
  assert (Hqueues : concat (ch_queue <$> workers s') = all_tasks s') by done.
  assert (Hzip : (zip links (ch_queue <$> workers s')).*2 = ch_queue <$> workers s').
  { apply snd_zip. rewrite length_fmap. lia. }
  assert (Hrebuild := store_all_rebuilds k (session_root_ sink) (chunkSize s) (bigFileThreshold s) block Hchunk Hthr
    Hblock es (all_tasks s') (fun q => fs_file w q) Hplaced Hp).
  destruct Hrebuild as [Hin Hout].
  destruct (serve_stores k mode flt blake3 (zip links (ch_queue <$> workers s')) (session_root_ sink) w sink
    Hmode eq_refl Hinv) as (w' & sink' & E & Hfiles).
  { apply Forall_forall. intros [l ts] Hx. split.
    - rewrite Forall_forall in Hlinks. apply Hlinks. by eapply elem_of_zip_l.
    - apply Forall_forall. intros t Ht. assert (Htu : t ∈ units (chunkSize s) (bigFileThreshold s) es).
      { rewrite <- Hp, <- Hqueues. apply list_elem_of_In, in_concat. exists ts.
        split; apply list_elem_of_In; [by eapply elem_of_zip_r|done]. }
      unfold units in Htu. apply elem_of_bind in Htu as ([[e data] q] & Hx' & Ht').
      destruct Hplaced as [Hu _]. rewrite Forall_forall in Hu.
      by apply (entry_task_ok k (session_root_ sink) (chunkSize s) (bigFileThreshold s) block Hchunk Hblock
        e data q t (Hu _ Hx')). }
  exists w', sink'. split; [done|]. rewrite Hzip in Hfiles. rewrite Hqueues in Hfiles. split.
  - intros spec f Hf. rewrite Hfiles. apply (Hin (entry_of spec.1 f) _ _). apply Hes. by exists spec, f.
  - intros q Hne. rewrite Hfiles. apply Hout. intros (x & -> & Hx)%list_elem_of_fmap.
    apply Hes in Hx as (spec & f & Hf & ->). by apply (Hne spec f).
Qed.

(** ** A small backup *)

(** The disk of [Walk]'s example with contents; the rule leaves [build] out. *)
Definition demo_contents : gmap bytes bytes :=
  {[ str "src/big" := str "123456789"; str "src/build/a.o" := str "obj" ]}.
Definition demo_content (p : bytes) : bytes := default [] (demo_contents !! p).
Definition demo_dest (p : bytes) : bytes :=
  match resolve_safe_path demo_root p with Some full => os_path full | None => [] end.

Definition demo_block : nat := Z.to_nat READ_BLOCK.

Lemma demo_block_fits : (demo_block < out_cap)%nat /\ (demo_block <= kDecodeChunk)%nat.
Proof. split; [apply Nat.ltb_lt|apply Nat.leb_le]; vm_compute; reflexivity. Qed.

Definition block_codec : StreamCodec unit unit out_cap demo_block :=
  @zstd_codec unit unit Copy.encoder Copy.decoder out_cap demo_block
    (Copy.laws out_cap demo_block (proj1 demo_block_fits) (proj2 demo_block_fits)).

Definition demo_links : list (Peer (N := Pipe) (C := unit) (D := unit)) :=
  let l := {| l_worker := demo_worker; l_decoder := tt |} in [l; l].

Lemma demo_uploadable f :
  f ∈ listing [] (demo_disk (str "src")) -> i_is_directory f.2 = Some false ->
  let p := client_path (str "src", []) f in
  uploadable demo_contents demo_root (entry_of (str "src") f) (demo_content p) (demo_dest p).
Proof.
  intros Hf Hd. cbn [demo_disk listing app] in Hf.
  repeat (apply elem_of_cons in Hf as [->|Hf]; [try discriminate Hd|]); [| |by apply elem_of_nil in Hf];
    (constructor; [reflexivity|split; [vm_compute; lia|apply (bool_decide_unpack _); vm_compute; exact I]| | |by vm_compute]);
    eexists; (split; [vm_compute; reflexivity|by vm_compute]).
Qed.

Lemma backup_arrives_witness :
  exists roots s' ok, add_roots [] demo_specs = Some roots /\
    start (Ops := ListChan.ops) demo_disk roots demo_scheduler = Some (s', ok) /\
    (ok = true -> exists w' sink',
       serve (Comp := @zstd_compressor unit Copy.encoder) (Dec := @zstd_decompressor unit Copy.decoder)
         demo_contents 0 (fun _ => true) (fun b => b)
         (zip demo_links (ch_queue (ChanLaws := ListChan.laws) <$> workers s')) empty_fs (new_file_sink demo_root) =
         Some (w', sink') /\
       (forall spec f, to_upload demo_disk demo_specs spec f ->
          fs_file w' (demo_dest (client_path spec f)) =
            Some (rebuilt (bigFileThreshold demo_scheduler) (fs_file empty_fs (demo_dest (client_path spec f)))
                    (demo_content (client_path spec f)))) /\
       (forall q, (forall spec f, to_upload demo_disk demo_specs spec f -> q <> demo_dest (client_path spec f)) ->
          fs_file w' q = fs_file empty_fs q)).
Proof.
  apply (backup_arrives (Codec := block_codec) (ChLaws := ListChan.laws) 0 (fun _ => true) (fun b => b) demo_contents demo_disk
    demo_content demo_dest demo_specs demo_scheduler demo_links empty_fs (new_file_sink demo_root)).
  - reflexivity.
  - reflexivity.
  - unfold demo_block. by rewrite Z2Nat.id.
  - reflexivity.
  - apply Forall_cons. split; [|by constructor]. unfold sizes_ok. cbn [demo_disk listing fst app].
    repeat (apply Forall_cons; split; [intros size E; cbn in E; simplify_eq; by split|]). constructor.
  - intros spec f (Hs & Hf & Hd & _). apply list_elem_of_singleton in Hs as ->.
    by apply demo_uploadable.
  - apply (bool_decide_unpack _). vm_compute. exact I.
  - reflexivity.
  - apply map_Forall_empty.
  - repeat constructor; hnf; exists [], []; repeat split.
  - reflexivity.
Defined.
