(* ===== verification/SinkCalls.v ===== *)
(** * The consumer's calls (src/server/file_sink.cxx, src/server/connection.cxx)

    [FileSink] and [Upload] describe what an operation does to the file system
    in one go. Consumer threads of one session, however, work at the same time:
    between two calls of one the others make theirs. Here the operations that a
    consumer uses are programs ([Prog]) that ask for one call at a time and go
    on with its answer; the calls are those of libuv and std::filesystem, and
    the ones on the chunk file registry that the threads share behind its mutex.
    Run alone, each program does what the function it is named after does
    ([run_session] and the lemmas before it). [step] interleaves the programs
    of several threads, and never goes on for ever ([pool_terminates]). *)

From S2P Require Import Prelude Protocol XXHash PosixPath FileSink Codec Upload.

(** ** Programs *)

Inductive FsCall :=
  | CallOpen (p : bytes) (truncate : bool)
  | CallWrite (fd : Z) (data : bytes) (off : Z)
  | CallClose (fd : Z)
  | CallMkdir (p : bytes)                   (** create_directories: true is an error *)
  | CallExists (p : bytes)
  | CallLock                                (** [registry_mutex_] *)
  | CallFind (key : bytes)                  (** [chunk_files_.find] *)
  | CallEmplace (key : bytes) (fd : Z)      (** [chunk_files_.emplace]: an old entry stays *)
  | CallUnlock.

Definition answer (c : FsCall) : Type :=
  match c with
  | CallOpen _ _ | CallWrite _ _ _ | CallClose _ => Z
  | CallMkdir _ | CallExists _ => bool
  | CallFind _ => option Z
  | CallLock | CallEmplace _ _ | CallUnlock => unit
  end.

Inductive Prog (A : Type) :=
  | Ret (a : A)
  | Call (c : FsCall) (k : answer c -> Prog A).
Arguments Ret {A} a.
Arguments Call {A} c k.

Fixpoint pbind {A B} (m : Prog A) (f : A -> Prog B) : Prog B :=
  match m with
  | Ret a => f a
  | Call c k => Call c (fun x => pbind (k x) f)
  end.

Definition ask (c : FsCall) : Prog (answer c) := Call c Ret.

Declare Scope prog_scope.
Delimit Scope prog_scope with prog.
Notation "x <- m ; k" := (pbind m (fun x => k))
  (at level 100, m at next level, right associativity, only parsing) : prog_scope.
Notation "m ;; k" := (pbind m (fun _ => k)) (at level 100, right associativity, only parsing) : prog_scope.

(** What a call does, and to what it is answered. The mutex is the business of
    [step]. *)
Definition do_call {W} {Ops : FsOps W} (c : FsCall) (st : W * FileSink) : (W * FileSink) * answer c :=
  let '(w, s) := st in
  match c with
  | CallOpen p t => let '(w, fd) := fs_open w p t in ((w, s), fd)
  | CallWrite fd data off => let '(w, r) := fs_write w fd data off in ((w, s), r)
  | CallClose fd => let '(w, r) := fs_close w fd in ((w, s), r)
  | CallMkdir p => let '(w, e) := fs_create_directories w p in ((w, s), e)
  | CallExists p => ((w, s), fs_exists w p)
  | CallFind key => ((w, s), chunk_files_ s !! key)
  | CallEmplace key fd =>
      match chunk_files_ s !! key with
      | Some _ => ((w, s), tt)
      | None => ((w, {| session_root_ := session_root_ s; chunk_files_ := <[key := fd]> (chunk_files_ s) |}), tt)
      end
  | CallLock | CallUnlock => ((w, s), tt)
  end.

(** A program on its own. *)
Fixpoint run {W} {Ops : FsOps W} {A} (m : Prog A) (st : W * FileSink) : (W * FileSink) * A :=
  match m with
  | Ret a => (st, a)
  | Call c k => let '(st, x) := do_call c st in run (k x) st
  end.

(** ** The operations of file_sink.cxx *)

Open Scope prog_scope.

Fixpoint p_write_fd_loop (fuel : nat) (fd : Z) (data : bytes) (offset written : Z) : Prog bool :=
  match data with
  | [] => Ret true
  | _ :: _ =>
      match fuel with
      | O => Ret false
      | S fuel =>
          let tk := if Z.of_nat (length data) <? kMaxSingleWrite then data
                    else take (Z.to_nat kMaxSingleWrite) data in
          let write_offset := if offset <? 0 then -1 else offset + written in
          result <- ask (CallWrite fd tk write_offset);
          if result <=? 0 then Ret false
          else p_write_fd_loop fuel fd (drop (Z.to_nat result) data) offset (written + result)
      end
  end.

Definition p_write_fd_all (fd : Z) (data : bytes) (offset : Z) : Prog bool :=
  p_write_fd_loop (length data) fd data offset 0.

Definition p_sequential_write (wr : SequentialWriter) (data : bytes) : Prog (SequentialWriter * bool) :=
  ok <- p_write_fd_all (sw_fd wr) data (sw_offset wr);
  if negb ok then Ret (wr, false)
  else Ret ({| sw_fd := sw_fd wr; sw_offset := sw_offset wr + Z.of_nat (length data) |}, true).

Definition p_sequential_close (wr : SequentialWriter) : Prog unit :=
  if 0 <=? sw_fd wr then ask (CallClose (sw_fd wr));; Ret tt else Ret tt.

Definition p_write_at (wr : OffsetWriter) (offset : Z) (data : bytes) : Prog bool :=
  match ow_file wr with
  | Some fd => p_write_fd_all fd data (to_int64 offset)
  | None => Ret false
  end.

Definition p_ensure_parent_directory (p : path) : Prog bool :=
  let parent := parent_path p in
  if path_empty parent then Ret true
  else
    error <- ask (CallMkdir (path_string parent));
    if negb error then Ret true else ask (CallExists (path_string parent)).

(** The guard unlocks wherever the function returns. *)
Definition p_acquire_chunk_file (p : path) : Prog (option Z) :=
  let key := path_string p in
  ask CallLock;;
  found <- ask (CallFind key);
  match found with
  | Some fd => ask CallUnlock;; Ret (Some fd)
  | None =>
      ok <- p_ensure_parent_directory p;
      if negb ok then ask CallUnlock;; Ret None
      else
        fd <- ask (CallOpen (c_str key) false);
        if fd <? 0 then ask CallUnlock;; Ret None
        else ask (CallEmplace key fd);; ask CallUnlock;; Ret (Some fd)
  end.

Definition p_open_sequential (root : path) (relative_path : bytes) : Prog SequentialWriter :=
  match resolve_safe_path root relative_path with
  | None => Ret no_sequential
  | Some full =>
      ok <- p_ensure_parent_directory full;
      if negb ok then Ret no_sequential
      else
        fd <- ask (CallOpen (c_str (path_string full)) true);
        if fd <? 0 then Ret no_sequential else Ret {| sw_fd := fd; sw_offset := 0 |}
  end.

Definition p_open_offset (root : path) (relative_path : bytes) : Prog OffsetWriter :=
  match resolve_safe_path root relative_path with
  | None => Ret no_offset
  | Some full =>
      file <- p_acquire_chunk_file full;
      match file with
      | None => Ret no_offset
      | Some fd => Ret {| ow_file := Some fd |}
      end
  end.

(** ** The units of connection.cxx *)

Definition p_unit_sink_write (u : UnitSink) (data : bytes) : Prog (UnitSink * bool) :=
  let checksum := if integrity u then XXH64_update (checksum_state u) data else checksum_state u in
  let running' := wrap 64 (running u + Z.of_nat (length data)) in
  if is_chunk u then
    ok <- p_write_at (offset u) (wrap 64 (base_offset u + running u)) data;
    Ret ({| is_chunk := is_chunk u; sequential := sequential u; offset := offset u;
            base_offset := base_offset u; running := running'; integrity := integrity u;
            checksum_state := checksum |}, ok)
  else
    r <- p_sequential_write (sequential u) data;
    let '(sq, ok) := r in
    Ret ({| is_chunk := is_chunk u; sequential := sq; offset := offset u;
            base_offset := base_offset u; running := running'; integrity := integrity u;
            checksum_state := checksum |}, ok).

(** The pieces the decompressor hands out, until one is refused. *)
Fixpoint p_write_pieces (u : UnitSink) (outs : list bytes) : Prog (UnitSink * bool) :=
  match outs with
  | [] => Ret (u, true)
  | o :: outs =>
      r <- p_unit_sink_write u o;
      let '(u, ok) := r in
      if ok then p_write_pieces u outs else Ret (u, false)
  end.

(** A unit whose blocks decode to [outs]; false ends the connection's loop. *)
Definition p_unit (checks : bool) (root : path) (type : UnitType) (relative_path : bytes) (base : Z)
    (outs : list bytes) : Prog bool :=
  match type with
  | File =>
      sq <- p_open_sequential root relative_path;
      if sequential_valid sq then
        r <- p_write_pieces (new_unit_sink checks File sq no_offset base) outs;
        let '(u, ok) := r in
        p_sequential_close (sequential u);; Ret ok
      else Ret false
  | _ =>
      ow <- p_open_offset root relative_path;
      if offset_valid ow then
        r <- p_write_pieces (new_unit_sink checks type no_sequential ow base) outs;
        Ret r.2
      else Ret false
  end.

(** One unit of a connection: type, path, offset, and what its blocks decode to. *)
Record UnitData := { ud_type : UnitType; ud_path : bytes; ud_base : Z; ud_outs : list bytes }.

Fixpoint p_session (checks : bool) (root : path) (us : list UnitData) : Prog unit :=
  match us with
  | [] => Ret tt
  | u :: us =>
      ok <- p_unit checks root (ud_type u) (ud_path u) (ud_base u) (ud_outs u);
      if ok : bool then p_session checks root us else Ret tt
  end.

(** ** Several threads *)

(** The threads of a session share its file system, its sink and the mutex of
    the sink's registry, which is free or held by a thread. *)
Record Pool W := {
  shared : W * FileSink;
  registry_mutex_ : option nat;
  threads : list (Prog unit);
}.
Arguments Build_Pool {W}.
Arguments shared {W}.
Arguments registry_mutex_ {W}.
Arguments threads {W}.

(** The mutex when thread [i] makes a call; [None]: it has to wait. *)
Definition take_lock (i : nat) (c : FsCall) (lock : option nat) : option (option nat) :=
  match c with
  | CallLock => match lock with None => Some (Some i) | Some _ => None end
  | CallUnlock => Some None
  | _ => Some lock
  end.

(** Some thread makes its next call. *)
Inductive step {W} {Ops : FsOps W} (s : Pool W) : Pool W -> Prop :=
  | step_call i c k lock st x :
      threads s !! i = Some (Call c k) ->
      take_lock i c (registry_mutex_ s) = Some lock ->
      do_call c (shared s) = (st, x) ->
      step s {| shared := st; registry_mutex_ := lock; threads := <[i := k x]> (threads s) |}.

(** The same, executable: thread [i] makes its next call, if it can. *)
Definition turn {W} {Ops : FsOps W} (i : nat) (s : Pool W) : option (Pool W) :=
  match threads s !! i with
  | Some (Call c k) =>
      match take_lock i c (registry_mutex_ s) with
      | Some lock =>
          let '(st, x) := do_call c (shared s) in
          Some {| shared := st; registry_mutex_ := lock; threads := <[i := k x]> (threads s) |}
      | None => None
      end
  | _ => None
  end.

(** The threads named take turns; one that cannot go on is passed over. *)
Fixpoint turns {W} {Ops : FsOps W} (is_ : list nat) (s : Pool W) : Pool W :=
  match is_ with
  | [] => s
  | i :: is_ => turns is_ (default s (turn i s))
  end.

(** Threads about to start. *)
Definition new_pool {W} (w : W) (sink : FileSink) (ts : list (Prog unit)) : Pool W :=
  {| shared := (w, sink); registry_mutex_ := None; threads := ts |}.

(** No thread can go on. *)
Definition stuck {W} {Ops : FsOps W} (s : Pool W) : Prop := forall s', ~ step s s'.

(** ** Alone, a program does what its function does *)

Section Run.
Context {W : Type} {Ops : FsOps W}.
Implicit Types (w : W) (s : FileSink).

Lemma run_bind {A B} (m : Prog A) (f : A -> Prog B) st :
  run (pbind m f) st = let '(st, a) := run m st in run (f a) st.
Proof.
  revert st. induction m as [a|c k IH]; intros st; [done|]. cbn [pbind run].
  destruct (do_call c st) as [st' x]. apply IH.
Qed.

Lemma run_write_fd_loop fuel w s fd data offset written :
  run (p_write_fd_loop fuel fd data offset written) (w, s) =
  let '(w', ok) := write_fd_loop fuel w fd data offset written in ((w', s), ok).
Proof.
  revert w data written. induction fuel as [|fuel IH]; intros w data written;
    (destruct data as [|b data]; [done|]); [done|].
  cbn [p_write_fd_loop write_fd_loop run pbind ask do_call].
  destruct (fs_write _ _ _ _) as [w' r]. destruct (r <=? 0); [done|]. apply IH.
Qed.

Lemma run_sequential_write w s wr data :
  run (p_sequential_write wr data) (w, s) =
  let '(w', wr', ok) := sequential_write w wr data in ((w', s), (wr', ok)).
Proof.
  unfold p_sequential_write, sequential_write, p_write_fd_all, write_fd_all.
  rewrite run_bind, run_write_fd_loop. destruct (write_fd_loop _ _ _ _ _ _) as [w' ok]. by destruct ok.
Qed.

Lemma run_sequential_close w s wr :
  run (p_sequential_close wr) (w, s) = (((sequential_close w wr).1, s), tt).
Proof.
  unfold p_sequential_close, sequential_close. destruct (0 <=? sw_fd wr); [|done].
  cbn [ask pbind run do_call]. by destruct (fs_close w (sw_fd wr)).
Qed.

Lemma run_write_at w s wr off data :
  run (p_write_at wr off data) (w, s) = let '(w', ok) := write_at w wr off data in ((w', s), ok).
Proof. unfold p_write_at, write_at. destruct (ow_file wr); [apply run_write_fd_loop|done]. Qed.

Lemma run_ensure_parent w s p :
  run (p_ensure_parent_directory p) (w, s) =
  let '(w', ok) := ensure_parent_directory w p in ((w', s), ok).
Proof.
  unfold p_ensure_parent_directory, ensure_parent_directory. destruct (path_empty _); [done|].
  cbn [ask pbind run do_call]. destruct (fs_create_directories _ _) as [w' e]. by destruct e.
Qed.

Lemma run_acquire w s p :
  run (p_acquire_chunk_file p) (w, s) = acquire_chunk_file w s p.
Proof.
  unfold p_acquire_chunk_file, acquire_chunk_file. cbn [ask pbind run do_call].
  destruct (chunk_files_ s !! path_string p) eqn:Ek; [done|]. rewrite run_bind, run_ensure_parent.
  destruct (ensure_parent_directory w p) as [w' ok]. destruct ok; [|done]. cbn [negb ask pbind run do_call].
  destruct (fs_open _ _ _) as [w2 fd]. destruct (fd <? 0); [done|]. cbn [ask pbind run do_call]. by rewrite Ek.
Qed.

Lemma run_open_sequential w s rel :
  run (p_open_sequential (session_root_ s) rel) (w, s) =
  let '(w', wr) := open_sequential w s rel in ((w', s), wr).
Proof.
  unfold p_open_sequential, open_sequential. destruct (resolve_safe_path _ _); [|done].
  rewrite run_bind, run_ensure_parent. destruct (ensure_parent_directory _ _) as [w' ok].
  destruct ok; [|done]. cbn [negb ask pbind run do_call].
  destruct (fs_open _ _ _) as [w2 fd]. by destruct (fd <? 0).
Qed.

Lemma run_open_offset w s rel :
  run (p_open_offset (session_root_ s) rel) (w, s) = open_offset w s rel.
Proof.
  unfold p_open_offset, open_offset. destruct (resolve_safe_path _ _); [|done].
  rewrite run_bind, run_acquire. destruct (acquire_chunk_file _ _ _) as [[w' s'] f]. by destruct f.
Qed.

Lemma run_unit_sink_write w s u data :
  run (p_unit_sink_write u data) (w, s) =
  let '((w', u'), ok) := unit_sink_write (w, u) data in ((w', s), (u', ok)).
Proof.
  unfold p_unit_sink_write, unit_sink_write. destruct (is_chunk u); rewrite run_bind.
  - rewrite run_write_at. by destruct (write_at _ _ _ _).
  - rewrite run_sequential_write. by destruct (sequential_write _ _ _) as [[w' wr] ok].
Qed.

Lemma run_write_pieces w s u outs :
  run (p_write_pieces u outs) (w, s) =
  let '((w', u'), ok) := write_pieces unit_sink_write (w, u) outs in ((w', s), (u', ok)).
Proof.
  revert w u. induction outs as [|o outs IH]; intros w u; [done|]. cbn [p_write_pieces write_pieces].
  rewrite run_bind, run_unit_sink_write. destruct (unit_sink_write _ _) as [[w' u'] ok]. destruct ok; [apply IH|done].
Qed.
End Run.

Close Scope prog_scope.

(** ** Every run ends *)

Section Termination.
(** A thread's program goes on, whatever the answer. *)
Definition goes_on (m m' : Prog unit) : Prop :=
  match m with Ret _ => False | Call c k => exists x, m' = k x end.

Inductive advance (ts : list (Prog unit)) : list (Prog unit) -> Prop :=
  | advance_at i m m' : ts !! i = Some m -> goes_on m m' -> advance ts (<[i := m']> ts).

Lemma advance_ends (ts : list (Prog unit)) : Acc (fun b a => advance a b) ts.
Proof.
  induction ts as [|m ts IH].
  { constructor. intros ts' [i m m' Hi _]. by rewrite lookup_nil in Hi. }
  revert ts IH. induction m as [a|c k IHm]; intros ts Hts; induction Hts as [ts Hts IH];
    constructor; intros ts' [[|i] m m' Hi Hm]; cbn in Hi |- *.
  - by injection Hi as <-.
  - apply IH. by econstructor.
  - injection Hi as <-. destruct Hm as [x ->]. apply IHm. by constructor.
  - apply IH. by econstructor.
Qed.

(** Every run of a session's threads ends: there is no infinite sequence of
    calls, whatever the calls are answered and however the threads take turns. *)
Lemma pool_terminates {W} {Ops : FsOps W} (s : Pool W) : Acc (fun b a => step a b) s.
Proof.
  remember (threads s) as ts eqn:E. pose proof (advance_ends ts) as H. revert s E.
  induction H as [ts _ IH]. intros s ->. constructor. intros s' [i c k lock st x Hi _ _].
  eapply IH; [|reflexivity]. cbn [threads]. econstructor; [exact Hi|]. by exists x.
Qed.
End Termination.

(** ** Turns are steps *)

Lemma step_turn {W} {Ops : FsOps W} (s s' : Pool W) : step s s' <-> exists i, turn i s = Some s'.
Proof.
  split.
  - intros [i c k lock st x Hi Hl Hc]. exists i. unfold turn. by rewrite Hi, Hl, Hc.
  - intros [i Hi]. unfold turn in Hi. destruct (threads s !! i) as [[a|c k]|] eqn:Ei; [done| |done].
    destruct (take_lock i c _) as [lock|] eqn:El; [|done]. destruct (do_call c (shared s)) as [st x] eqn:Ec.
    injection Hi as <-. by econstructor.
Qed.

Lemma turns_steps {W} {Ops : FsOps W} is_ : forall s : Pool W, rtc step s (turns is_ s).
Proof.
  induction is_ as [|i is_ IH]; intros s; cbn [turns]; [done|]. etrans; [|apply IH].
  destruct (turn i s) as [s'|] eqn:E; [|done]. apply rtc_once, step_turn. by exists i.
Qed.

(** Two threads with a chunk each of one file: the second has to wait for the
    mutex, then finds the first one's descriptor in the registry. *)
Definition demo_threads : list (Prog unit) :=
  let root := path_of_string (str "store/ab") in
  [p_session true root [{| ud_type := Chunk; ud_path := str "big"; ud_base := 0; ud_outs := [str "12"; str "34"] |}];
   p_session true root [{| ud_type := Chunk; ud_path := str "big"; ud_base := 4; ud_outs := [str "56"] |}]].

Definition demo_pool : Pool MemFs := new_pool empty_fs (new_file_sink (path_of_string (str "store/ab"))) demo_threads.

Example demo_waits : turn 1 (turns [0; 0] demo_pool)%nat = None.
Proof. vm_compute. reflexivity. Qed.

Example demo_turns :
  let s := turns [0; 0; 1; 0; 0; 0; 0; 1; 1; 0; 1; 1; 0]%nat demo_pool in
  threads s = [Ret tt; Ret tt] /\ length (mem_fds (shared s).1) = 1%nat /\
  mem_files (shared s).1 !! str "store/ab/big" = Some (str "123456").
Proof. vm_compute. split_and!; reflexivity. Qed.
