(* ===== verification/Interleave.v ===== *)
(** * Consumers of one session at work at the same time

    What a thread's program ([SinkCalls]) may do is written down as a protocol:
    the jobs it has left, and the phase of the one it is at ([Progress],
    [allowed], [next]). [session_follows]: the consumers keep to it, as long as
    the file system does not refuse. [Inv] relates the protocol's state of all
    threads to the shared file system, sink and mutex; every step of every
    thread preserves it ([step_preserves]), whichever thread it is. So when no
    thread can go on, all have ended ([stuck_done]: the mutex is never waited
    for in vain) and every file is whole ([done_files]). *)

From S2P Require Import Prelude Protocol XXHash PosixPath FileSink Codec Upload SinkCalls.

(** ** The protocol *)

(** A unit to store: at [j_base] of the file at [j_full]; a file unit (no
    chunk) is the whole file. *)
Record Job := { j_chunk : bool; j_full : path; j_base : nat; j_data : bytes }.

Definition j_key (j : Job) : bytes := path_string (j_full j).
Definition j_path (j : Job) : bytes := os_path (j_full j).

(** Where a thread is with the first of its jobs. From [Locked] to [Holding] it
    holds the registry's mutex. *)
Inductive Phase :=
  | Idle
  | Locked                       (** to look the chunk file up *)
  | Missing                      (** it is not in the registry *)
  | Fresh (fd : Z)               (** it is open, to be entered *)
  | Holding (fd : Z)             (** it is in the registry *)
  | Writing (fd : Z) (n : nat).  (** [n] bytes of the job are written *)

Definition Progress : Type := Phase * list Job.

(** A chunk is done with its last byte, a file when it is closed. *)
Definition at_pos (j : Job) (fd : Z) (n : nat) (js : list Job) : Progress :=
  if j_chunk j && (n =? length (j_data j))%nat then (Idle, js) else (Writing fd n, j :: js).

Definition allowed (c : FsCall) (p : Progress) : Prop :=
  match p, c with
  | (Idle, j :: _), CallMkdir _ => j_chunk j = false
  | (Idle, j :: _), CallOpen q true => j_chunk j = false /\ q = j_path j
  | (Idle, j :: _), CallLock => j_chunk j = true
  | (Locked, j :: _), CallFind key => key = j_key j
  | (Missing, _ :: _), CallMkdir _ => True
  | (Missing, j :: _), CallOpen q false => q = j_path j
  | (Fresh fd, j :: _), CallEmplace key fd' => key = j_key j /\ fd' = fd
  | (Holding _, _ :: _), CallUnlock => True
  | (Writing fd n, j :: _), CallWrite fd' data off =>
      fd' = fd /\ off = Z.of_nat (j_base j + n) /\ data <> [] /\ data `prefix_of` drop n (j_data j)
  | (Writing fd n, j :: _), CallClose fd' => j_chunk j = false /\ fd' = fd /\ n = length (j_data j)
  | _, _ => False
  end.

(** What a file system that does not refuse answers. *)
Definition good (c : FsCall) : answer c -> Prop :=
  match c with
  | CallOpen _ _ => fun fd => 0 <= fd
  | CallWrite _ data _ => fun r => 0 < r <= Z.of_nat (length data)
  | CallMkdir _ => fun error => error = false
  | _ => fun _ => True
  end.

Definition next (c : FsCall) (p : Progress) : answer c -> Progress :=
  match c with
  | CallOpen _ true => fun fd => match p with (_, j :: js) => at_pos j fd 0 js | _ => p end
  | CallOpen _ false => fun fd => (Fresh fd, p.2)
  | CallWrite _ _ _ => fun r =>
      match p with
      | (Writing fd n, j :: js) => at_pos j fd (n + Z.to_nat r) js
      | _ => p
      end
  | CallClose _ => fun _ => (Idle, tail p.2)
  | CallLock => fun _ => (Locked, p.2)
  | CallFind _ => fun found => (match found with Some fd => Holding fd | None => Missing end, p.2)
  | CallEmplace _ fd => fun _ => (Holding fd, p.2)
  | CallUnlock => fun _ =>
      match p with
      | (Holding fd, j :: js) => at_pos j fd 0 js
      | _ => p
      end
  | CallMkdir _ | CallExists _ => fun _ => p
  end.

(** The program keeps to the protocol from [p] on, and where it ends, [Q]. *)
Fixpoint follows {A} (m : Prog A) (p : Progress) (Q : A -> Progress -> Prop) : Prop :=
  match m with
  | Ret a => Q a p
  | Call c k => allowed c p /\ forall x, good c x -> follows (k x) (next c p x) Q
  end.

(** A thread keeps to the protocol and ends with no job left. *)
Definition keeps (m : Prog unit) (p : Progress) : Prop := follows m p (fun _ p => p = (Idle, [])).

Lemma follows_bind {A B} (m : Prog A) (f : A -> Prog B) p Q :
  follows m p (fun a p => follows (f a) p Q) -> follows (pbind m f) p Q.
Proof.
  revert p. induction m as [a|c k IH]; intros p; [done|]. cbn [follows pbind].
  intros [Ha Hk]. split; [done|]. intros x Hx. by apply IH, Hk.
Qed.

Lemma follows_ask c p (Q : answer c -> Progress -> Prop) :
  allowed c p -> (forall x, good c x -> Q x (next c p x)) -> follows (ask c) p Q.
Proof. by split. Qed.

(** ** The consumers keep to it *)

Lemma at_pos_before j fd n js : (n < length (j_data j))%nat -> at_pos j fd n js = (Writing fd n, j :: js).
Proof. intros Hn. unfold at_pos. rewrite (proj2 (Nat.eqb_neq _ _)) by lia. by rewrite andb_false_r. Qed.

Lemma at_pos_file j fd n js : j_chunk j = false -> at_pos j fd n js = (Writing fd n, j :: js).
Proof. unfold at_pos. by intros ->. Qed.

Lemma at_pos_end j fd js : j_chunk j = true -> at_pos j fd (length (j_data j)) js = (Idle, js).
Proof. unfold at_pos. intros ->. by rewrite Nat.eqb_refl. Qed.

Lemma prefix_drop_length (d l : bytes) n :
  d `prefix_of` drop n l -> d <> [] -> (n + length d <= length l)%nat.
Proof.
  intros H Hd. pose proof (prefix_length _ _ H) as Hl. rewrite length_drop in Hl.
  assert (length d <> 0%nat) by (by destruct d). lia.
Qed.

Lemma prefix_take_drop (d l : bytes) k : d `prefix_of` l -> drop k d `prefix_of` drop k l.
Proof.
  intros [r ->]. destruct (decide (k <= length d)%nat).
  - rewrite drop_app_le by done. by exists r.
  - rewrite (drop_ge d) by lia. apply prefix_nil.
Qed.

Lemma write_loop_follows fuel j fd n js data off written Q :
  data `prefix_of` drop n (j_data j) -> (length data <= fuel)%nat -> 0 <= off ->
  off + written = Z.of_nat (j_base j + n) -> Q true (at_pos j fd (n + length data) js) ->
  follows (p_write_fd_loop fuel fd data off written) (at_pos j fd n js) Q.
Proof.
  intros Hp Hf Ho. revert n data written Hp Hf. induction fuel as [|fuel IH]; intros n data written Hp Hf Hw HQ;
    (destruct data as [|b data]; [by rewrite Nat.add_0_r in HQ|]); [simpl in Hf; lia|].
  cbn [p_write_fd_loop]. set (D := b :: data) in *.
  pose proof (prefix_drop_length D _ _ Hp ltac:(done)) as Hlen. cbn [length D] in Hlen.
  destruct (Z.ltb_spec off 0); [lia|]. set (tk := if (_ <? _) then D else _).
  assert (Htk : tk <> [] /\ tk `prefix_of` D).
  { unfold tk. destruct (_ <? _); [done|]. split; [|apply prefix_take].
    pose proof max_single_write_pos. unfold D. by destruct (Z.to_nat kMaxSingleWrite) eqn:E; [lia|]. }
  destruct Htk as [Hne Htk]. rewrite at_pos_before by lia. apply follows_bind, follows_ask.
  { split; [done|]. split; [done|]. split; [done|]. by etrans. }
  intros r [Hr Hr']. apply prefix_length in Htk. cbn [next]. destruct (Z.leb_spec r 0); [lia|].
  assert (HD : length D = S (length data)) by done. apply IH.
  - rewrite <- drop_drop. by apply prefix_take_drop.
  - rewrite length_drop. lia.
  - lia.
  - rewrite length_drop. replace (n + Z.to_nat r + (length D - Z.to_nat r))%nat with (n + length D)%nat by lia. done.
Qed.

(** The writer of a unit [n] bytes into its job. *)
Definition unit_at (u : UnitSink) (j : Job) (fd : Z) (n : nat) : Prop :=
  is_chunk u = j_chunk j /\
  if j_chunk j then ow_file (offset u) = Some fd /\ base_offset u = Z.of_nat (j_base j) /\ running u = Z.of_nat n
  else sw_fd (sequential u) = fd /\ sw_offset (sequential u) = Z.of_nat n /\ j_base j = 0%nat.

(** Offsets do not reach the sign bit. *)
Definition fits (j : Job) : Prop := Z.of_nat (j_base j + length (j_data j)) < 2 ^ 63.

Lemma sink_write_follows u j fd n js data Q :
  unit_at u j fd n -> fits j -> data `prefix_of` drop n (j_data j) -> (n <= length (j_data j))%nat ->
  (forall u', unit_at u' j fd (n + length data) -> Q (u', true) (at_pos j fd (n + length data) js)) ->
  follows (p_unit_sink_write u data) (at_pos j fd n js) Q.
Proof.
  unfold fits. intros [Hc Hu] Hfit Hp Hn HQ. pose proof (prefix_length _ _ Hp) as Hlen. rewrite length_drop in Hlen.
  unfold p_unit_sink_write. rewrite Hc.
  destruct (j_chunk j) eqn:Ej; apply follows_bind; destruct Hu as (Hu1 & Hu2 & Hu3).
  - unfold p_write_at, p_write_fd_all. rewrite Hu1, Hu2, Hu3, wrap_small by (split; lia).
    unfold to_int64. destruct (Z.ltb_spec (Z.of_nat (j_base j) + Z.of_nat n) (2 ^ 63)); [|lia].
    eapply write_loop_follows; [done|done|lia|lia|]. apply HQ. unfold unit_at. rewrite Ej.
    cbn. rewrite wrap_small by (split; lia). rewrite Hu1. split_and!; try done; lia.
  - apply follows_bind. unfold p_write_fd_all. rewrite Hu1, Hu2.
    eapply write_loop_follows; [done|done|lia|lia|]. apply HQ. unfold unit_at. rewrite Ej. cbn. split_and!; try done; lia.
Qed.

Lemma pieces_follow u j fd n js outs Q :
  unit_at u j fd n -> fits j -> drop n (j_data j) = concat outs -> (n <= length (j_data j))%nat ->
  (forall u', unit_at u' j fd (length (j_data j)) -> Q (u', true) (at_pos j fd (length (j_data j)) js)) ->
  follows (p_write_pieces u outs) (at_pos j fd n js) Q.
Proof.
  intros Hu Hfit Hd Hn HQ. revert u n Hu Hd Hn. induction outs as [|o outs IH]; intros u n Hu Hd Hn; cbn [p_write_pieces concat] in *.
  - assert (n = length (j_data j)) as ->.
    { apply (f_equal length) in Hd. rewrite length_drop in Hd. simpl in Hd. lia. }
    by apply HQ.
  - pose proof (f_equal length Hd) as Hl. rewrite length_drop, length_app in Hl.
    apply follows_bind, sink_write_follows; [done|done|rewrite Hd; by eexists|done|]. intros u' Hu'. apply IH; [done| |lia].
    by rewrite <- drop_drop, Hd, drop_app_length.
Qed.

(** The job of a unit. *)
Definition unit_job (root : path) (u : UnitData) (j : Job) : Prop :=
  ud_type u = (if j_chunk j then Chunk else File) /\ resolve_safe_path root (ud_path u) = Some (j_full j) /\
  ud_base u = Z.of_nat (j_base j) /\ (j_chunk j = false -> j_base j = 0%nat) /\ concat (ud_outs u) = j_data j /\ fits j.

Lemma ensure_parent_follows q p Q :
  (forall d, allowed (CallMkdir d) p) -> Q true p -> follows (p_ensure_parent_directory q) p Q.
Proof.
  intros Ha HQ. unfold p_ensure_parent_directory. destruct (path_empty _); [done|].
  apply follows_bind, follows_ask; [done|]. intros e ->. done.
Qed.

Lemma acquire_follows j js Q :
  j_chunk j = true -> (forall fd, Q (Some fd) (at_pos j fd 0 js)) ->
  follows (p_acquire_chunk_file (j_full j)) (Idle, j :: js) Q.
Proof.
  intros Hc HQ. unfold p_acquire_chunk_file. apply follows_bind, follows_ask; [done|]. intros ? _.
  apply follows_bind, follows_ask; [done|]. intros [fd|] _; [by split; [done|intros; apply HQ]|].
  apply follows_bind, ensure_parent_follows; [done|]. apply follows_bind, follows_ask; [reflexivity|]. intros fd Hfd. cbn in Hfd.
  destruct (Z.ltb_spec fd 0); [lia|]. split; [done|]. intros ? _. split; [done|]. intros ? _. apply HQ.
Qed.

Lemma unit_follows checks root u j js Q :
  unit_job root u j -> Q true (Idle, js) ->
  follows (p_unit checks root (ud_type u) (ud_path u) (ud_base u) (ud_outs u)) (Idle, j :: js) Q.
Proof.
  intros (Hty & Hres & Hbase & Hzero & Hdata & Hfit) HQ. rewrite Hty. clear Hty.
  destruct (j_chunk j) eqn:Hc; cbn [p_unit]; apply follows_bind.
  - unfold p_open_offset. rewrite Hres. apply follows_bind, acquire_follows; [done|]. intros fd.
    cbn [follows]. apply follows_bind, pieces_follow; [|done|by rewrite drop_0|lia|].
    + unfold unit_at. rewrite Hc. done.
    + intros u' _. by rewrite at_pos_end.
  - unfold p_open_sequential. rewrite Hres. apply follows_bind, ensure_parent_follows; [done|].
    apply follows_bind, follows_ask; [done|]. intros fd Hfd. cbn in Hfd.
    destruct (Z.ltb_spec fd 0); [lia|]. cbn [follows]. unfold sequential_valid. cbn [sw_fd].
    rewrite (proj2 (Z.leb_le _ _)) by done. cbn [next]. apply follows_bind, pieces_follow; [|done|by rewrite drop_0|lia|].
    + unfold unit_at. rewrite Hc. by rewrite Hzero.
    + intros u' [_ Hu']. rewrite Hc in Hu'. destruct Hu' as (Hu' & _). rewrite at_pos_file by done.
      unfold p_sequential_close. rewrite Hu', (proj2 (Z.leb_le _ _)) by done. by repeat split.
Qed.

Lemma session_follows checks root us js :
  Forall2 (unit_job root) us js -> keeps (p_session checks root us) (Idle, js).
Proof.
  unfold keeps. induction 1 as [|u j us js Hu _ IH]; [done|]. cbn [p_session].
  by apply follows_bind, unit_follows.
Qed.

(** ** What is left to write *)

(** The jobs with bytes left, and how many of their bytes are written. *)
Definition remaining (p : Progress) : list (Job * nat) :=
  match p with
  | (Writing _ n, j :: js) => (j, n) :: map (fun j => (j, 0%nat)) js
  | (_, js) => map (fun j => (j, 0%nat)) js
  end.

(** Byte [i] of the file at [q] is still to be written. *)
Definition pending (p : Progress) (q : bytes) (i : nat) : Prop :=
  exists j n, (j, n) ∈ remaining p /\ j_path j = q /\ (j_base j + n <= i < j_base j + length (j_data j))%nat.

(** The file at [q] is still to be opened. *)
Definition unopened (p : Progress) (q : bytes) : Prop :=
  exists j, j ∈ match p with (Writing _ _, _ :: js) => js | (_, js) => js end /\ j_path j = q.

(** The jobs whose file is still to be opened. *)
Definition unopened_jobs (p : Progress) : list Job :=
  match p with (Writing _ _, _ :: js) => js | (_, js) => js end.

(** The file at [q] is still to be emptied: whole files are, when they are opened. *)
Definition untruncated (p : Progress) (q : bytes) : Prop :=
  exists j, j ∈ unopened_jobs p /\ j_path j = q /\ j_chunk j = false.

Lemma untruncated_at_pos fd n j js q :
  untruncated (at_pos j fd n js) q <-> exists j', j' ∈ js /\ j_path j' = q /\ j_chunk j' = false.
Proof. unfold at_pos, untruncated, unopened_jobs. by destruct (j_chunk j && _). Qed.

Lemma untruncated_cons j js q :
  untruncated (Idle, j :: js) q -> j_path j = q /\ j_chunk j = false \/
  exists j', j' ∈ js /\ j_path j' = q /\ j_chunk j' = false.
Proof. intros (j' & [->|Hj]%elem_of_cons & Hq); [by left|]. right. by exists j'. Qed.

Lemma pending_idle js q i :
  pending (Idle, js) q i <-> exists j, j ∈ js /\ j_path j = q /\ (j_base j <= i < j_base j + length (j_data j))%nat.
Proof.
  unfold pending. cbn [remaining]. split.
  - intros (j & n & (j' & [= -> ->] & Hj)%list_elem_of_fmap & Hq & Hi). exists j'. split_and!; try done; lia.
  - intros (j & Hj & Hq & Hi). exists j, 0%nat. split; [by apply (list_elem_of_fmap_2 (fun j => (j, 0%nat)))|].
    split; [done|lia].
Qed.

Lemma pending_writing fd n j js q i :
  pending (Writing fd n, j :: js) q i <->
  j_path j = q /\ (j_base j + n <= i < j_base j + length (j_data j))%nat \/ pending (Idle, js) q i.
Proof.
  unfold pending. cbn [remaining]. setoid_rewrite elem_of_cons. split.
  - intros (j' & m & [[= -> ->]|Hj] & Hq & Hi); [by left|]. right. by exists j', m.
  - intros [[Hq Hi]|(j' & m & Hj & Hq & Hi)]; [exists j, n|exists j', m]; auto.
Qed.

Lemma pending_at_pos fd n j js q i :
  pending (at_pos j fd n js) q i <->
  j_path j = q /\ (j_base j + n <= i < j_base j + length (j_data j))%nat \/ pending (Idle, js) q i.
Proof.
  unfold at_pos. destruct (j_chunk j && _) eqn:E; [|apply pending_writing].
  apply andb_true_iff in E as [_ E%Nat.eqb_eq]. split; [by right|]. intros [[_ Hi]|]; [lia|done].
Qed.

Lemma unopened_at_pos fd n j js q : unopened (at_pos j fd n js) q <-> exists j', j' ∈ js /\ j_path j' = q.
Proof. unfold at_pos. by destruct (j_chunk j && _). Qed.

(** ** The invariant *)

Section Invariant.
Context {W : Type} {Ops : FsOps W} {Laws : FsLaws W}.
(** The contents the files are to have, and what was there before. *)
Variables (want : gmap bytes bytes) (before : bytes -> option bytes).
Implicit Types (w : W) (s : FileSink) (ps : list Progress) (p : Progress).

Definition job_ok (j : Job) : Prop := exists data, want !! j_path j = Some data /\
  j_data j = take (length (j_data j)) (drop (j_base j) data) /\ (j_base j + length (j_data j) <= length data)%nat /\
  (j_chunk j = false -> j_base j = 0%nat /\ j_data j = data).

Definition locking (p : Progress) : Prop :=
  match p.1 with Locked | Missing | Fresh _ | Holding _ => True | Idle | Writing _ _ => False end.

(** The descriptor that only this thread has. *)
Definition owned (p : Progress) : option Z :=
  match p with
  | (Fresh fd, _ :: _) => Some fd
  | (Writing fd _, j :: _) => if j_chunk j then None else Some fd
  | _ => None
  end.

(** What a phase knows of the registry and the descriptors. *)
Definition phase_ok w s p : Prop :=
  match p with
  | (Locked, j :: _) => j_chunk j = true
  | (Missing, j :: _) => j_chunk j = true /\ chunk_files_ s !! j_key j = None
  | (Fresh fd, j :: _) => j_chunk j = true /\ chunk_files_ s !! j_key j = None /\
      fs_fd w fd = Some (j_path j) /\ 0 <= fd /\ is_Some (fs_file w (j_path j))
  | (Holding fd, j :: _) => j_chunk j = true /\ chunk_files_ s !! j_key j = Some fd
  | (Writing fd n, j :: _) => (n <= length (j_data j))%nat /\
      if j_chunk j then chunk_files_ s !! j_key j = Some fd else fs_fd w fd = Some (j_path j)
  | _ => True
  end.

Record fds_ok w s ps : Prop := {
  fds_sink : sink_inv w s;
  fds_phase t p : ps !! t = Some p -> phase_ok w s p;
  fds_registry t p fd key : ps !! t = Some p -> owned p = Some fd -> chunk_files_ s !! key <> Some fd;
  fds_distinct t p t' p' fd : ps !! t = Some p -> ps !! t' = Some p' -> owned p = Some fd -> owned p' = Some fd -> t = t';
}.

Definition lock_ok (lock : option nat) ps : Prop :=
  (forall t p, ps !! t = Some p -> locking p <-> lock = Some t) /\ (forall t, lock = Some t -> is_Some (ps !! t)).

(** Each byte of a wanted file is there or still to be written, and there are no
    others, unless it is still to be emptied. *)
Record file_ok w ps (q data : bytes) : Prop := {
  file_short : (length (default [] (fs_file w q)) <= length data)%nat \/
    exists t p, ps !! t = Some p /\ untruncated p q;
  file_bytes i : (i < length data)%nat -> default [] (fs_file w q) !! i = data !! i \/
    exists t p, ps !! t = Some p /\ pending p q i;
  file_there : is_Some (fs_file w q) \/ exists t p, ps !! t = Some p /\ unopened p q;
}.

Record Inv (st : W * FileSink) (lock : option nat) ps : Prop := {
  inv_fds : fds_ok st.1 st.2 ps;
  inv_lock : lock_ok lock ps;
  inv_jobs : Forall (fun p => Forall job_ok p.2) ps;
  inv_files q data : want !! q = Some data -> file_ok st.1 ps q data;
  inv_rest q : want !! q = None -> fs_file st.1 q = before q;
}.

(** ** The mutex *)

Lemma locking_at_pos j fd n js : ~ locking (at_pos j fd n js).
Proof. unfold at_pos, locking. destruct (_ && _); by intros []. Qed.

Lemma lock_update lock ps t p p' lock' :
  lock_ok lock ps -> ps !! t = Some p ->
  (lock' = lock /\ (locking p <-> locking p') \/ lock = None /\ lock' = Some t /\ locking p' \/
   locking p /\ lock' = None /\ ~ locking p') ->
  lock_ok lock' (<[t := p']> ps).
Proof.
  intros [H1 H2] Ht Hcase. assert (Hlt : (t < length ps)%nat) by (by eapply lookup_lt_Some). pose proof (H1 _ _ Ht) as Hp.
  split.
  - intros t' p1 Hin. destruct (decide (t' = t)) as [->|Hne].
    + rewrite list_lookup_insert_eq in Hin by done. injection Hin as <-.
      destruct Hcase as [[-> Hl]|[(-> & -> & Hl)|(Hl & -> & Hn)]]; [by rewrite <- Hl|done|done].
    + rewrite list_lookup_insert_ne in Hin by done. rewrite (H1 _ _ Hin).
      destruct Hcase as [[-> Hl]|[(-> & -> & Hl)|(Hl & -> & Hn)]]; [done| |].
      * split; intros; congruence.
      * apply Hp in Hl as ->. split; intros; congruence.
  - intros t' Ht'. destruct (decide (t' = t)) as [->|Hne]; [by rewrite list_lookup_insert_eq|].
    rewrite list_lookup_insert_ne by done. apply H2.
    destruct Hcase as [[-> Hl]|[(-> & -> & Hl)|(Hl & -> & Hn)]]; congruence.
Qed.

Lemma step_lock lock ps t p c x lock' :
  lock_ok lock ps -> ps !! t = Some p -> allowed c p -> take_lock t c lock = Some lock' ->
  lock_ok lock' (<[t := next c p x]> ps).
Proof using Type.
  intros Hl Ht Ha Hlock. eapply lock_update; [done|done|].
  destruct p as [ph [|j js]]; [destruct ph, c; try done; by destruct truncate|].
  destruct c as [q [|]|fd data off|fd|q|q| |key|key fd|]; destruct ph; try done;
    cbn [take_lock] in Hlock; simplify_eq; cbn [next].
  all: try (left; split; [done|]; by split).
  all: try (left; split; [done|]; split; [done|]; intros H; by apply locking_at_pos in H).
  - destruct lock; [done|]. injection Hlock as <-. right. by left.
  - left. split; [done|]. by destruct x.
  - right. right. split; [done|]. split; [done|]. apply locking_at_pos.
Qed.

(** ** The descriptors and the registry *)

(** Descriptors that stay in use keep their files, and files do not vanish. *)
Definition kept w w' p : Prop :=
  (forall fd q, fs_fd w fd = Some q -> owned p <> Some fd -> fs_fd w' fd = Some q) /\
  (forall q, is_Some (fs_file w q) -> is_Some (fs_file w' q)).

Lemma phase_kept w w' s p : phase_ok w s p -> kept w w' (Idle, []) -> phase_ok w' s p.
Proof using Type.
  intros H [Hfd Hf]. destruct p as [[] [|j js]]; try done; cbn [phase_ok] in *.
  - destruct H as (? & ? & ? & ? & ?). split_and!; try done; [by apply Hfd|by apply Hf].
  - destruct H as [? H]. split; [done|]. destruct (j_chunk j); [done|]. by apply Hfd.
Qed.

(** The same, when it is another thread that closes its descriptor. *)
Lemma phase_other w w' s ps t p t' p' :
  fds_ok w s ps -> ps !! t = Some p -> ps !! t' = Some p' -> t <> t' -> kept w w' p -> phase_ok w' s p'.
Proof using Type.
  intros Hok Ht Ht' Hne [Hfd Hf]. pose proof (fds_phase _ _ _ Hok _ _ Ht') as H.
  pose proof (fun fd H1 H2 => Hne (fds_distinct _ _ _ Hok _ _ _ _ fd Ht Ht' H1 H2)) as Hown.
  destruct p' as [[] [|j js]]; try done; cbn [phase_ok owned] in *.
  - destruct H as (? & ? & ? & ? & ?). split_and!; try done; [|by apply Hf].
    apply Hfd; [done|]. intros Hp. by apply (Hown fd).
  - destruct H as [? H]. split; [done|]. destruct (j_chunk j); [done|]. apply Hfd; [done|].
    intros Hp. by apply (Hown fd).
Qed.

Lemma sink_kept w w' s ps t p : fds_ok w s ps -> ps !! t = Some p -> kept w w' p -> sink_inv w' s.
Proof using Type.
  intros Hok Ht [Hfd Hf] key fd Hk. destruct (fds_sink _ _ _ Hok _ _ Hk) as (H1 & H2 & H3).
  split; [|split; [done|by apply Hf]]. apply Hfd; [done|]. intros Hp. by apply (fds_registry _ _ _ Hok _ _ _ key Ht Hp).
Qed.

(** A phase reads the registry at the keys of chunk files, which only the
    holder of the mutex adds to. *)
Lemma fds_update w w' s ps t p p' :
  fds_ok w s ps -> ps !! t = Some p -> kept w w' p -> phase_ok w' s p' ->
  (owned p' = None \/ owned p' = owned p \/ exists fd, owned p' = Some fd /\ fs_fd w fd = None) ->
  fds_ok w' s (<[t := p']> ps).
Proof using Type.
  intros Hok Ht Hkept Hp' Hown. assert (Hlt : (t < length ps)%nat) by (by eapply lookup_lt_Some).
  assert (Hlive : forall t0 p0 fd, ps !! t0 = Some p0 -> owned p0 = Some fd -> is_Some (fs_fd w fd)).
  { intros t0 p0 fd Hin Ho. pose proof (fds_phase _ _ _ Hok _ _ Hin) as Hph.
    destruct p0 as [[] [|j js]]; try done; cbn in Ho, Hph.
    - injection Ho as ->. destruct Hph as (_ & _ & -> & _). done.
    - destruct (j_chunk j); [done|]. injection Ho as ->. by destruct Hph as [_ ->]. }
  assert (Hcross : forall t0 p0 fd, ps !! t0 = Some p0 -> owned p0 = Some fd -> owned p' = Some fd -> t0 = t).
  { intros t0 p0 fd Hin Ho Ho'. destruct Hown as [Hn|[He|(fd' & E & Hn)]]; [congruence| |].
    - eapply (fds_distinct _ _ _ Hok); [done|done|done|congruence].
    - destruct (Hlive _ _ _ Hin Ho) as [q Hq]. congruence. }
  split.
  - by eapply sink_kept.
  - intros t0 p0 Hin. apply list_lookup_insert_Some in Hin as [(<- & <- & _)|[Hne Hin]]; [done|].
    eapply phase_other; [done|exact Ht|done|done|done].
  - intros t0 p0 fd key Hin Ho Hk. apply list_lookup_insert_Some in Hin as [(<- & <- & _)|[Hne Hin]].
    + destruct Hown as [Hn|[He|(fd' & E & Hn)]]; [congruence| |].
      * eapply (fds_registry _ _ _ Hok); [exact Ht|by rewrite <- He|done].
      * destruct (fds_sink _ _ _ Hok _ _ Hk) as (H1 & _). congruence.
    + by eapply (fds_registry _ _ _ Hok).
  - intros t0 p0 t1 p1 fd Hin0 Hin1 Ho0 Ho1.
    apply list_lookup_insert_Some in Hin0 as [(<- & <- & _)|[Hne0 Hin0]];
      apply list_lookup_insert_Some in Hin1 as [(<- & <- & _)|[Hne1 Hin1]]; try done.
    + symmetry. by eapply Hcross.
    + by eapply Hcross.
    + by eapply (fds_distinct _ _ _ Hok).
Qed.

(** The holder of the mutex enters its descriptor into the registry. *)
Lemma fds_emplace w s lock ps t fd j js :
  fds_ok w s ps -> lock_ok lock ps -> ps !! t = Some (Fresh fd, j :: js) ->
  fds_ok w {| session_root_ := session_root_ s; chunk_files_ := <[j_key j := fd]> (chunk_files_ s) |}
    (<[t := (Holding fd, j :: js)]> ps).
Proof using Type.
  intros Hok Hl Ht. assert (Hlt : (t < length ps)%nat) by (by eapply lookup_lt_Some).
  destruct (fds_phase _ _ _ Hok _ _ Ht) as (Hc & Hnone & Hfd & Hpos & Hex).
  assert (Hthis : lock = Some t) by (by apply (proj1 Hl _ _ Ht)).
  split; cbn [chunk_files_].
  - apply map_Forall_insert_2; [done|]. apply (fds_sink _ _ _ Hok).
  - intros t0 p0 Hin. apply list_lookup_insert_Some in Hin as [(<- & <- & _)|[Hne Hin]].
    { cbn. by rewrite lookup_insert_eq. }
    pose proof (fds_phase _ _ _ Hok _ _ Hin) as Hph.
    assert (Hnot : ~ locking p0) by (intros Hlk; apply (proj1 Hl _ _ Hin) in Hlk; congruence).
    destruct p0 as [[] [|j0 js0]]; try done; cbn in Hph |- *; try (by destruct Hnot).
    destruct Hph as [? Hph]. split; [done|]. destruct (j_chunk j0); [|done].
    rewrite lookup_insert_ne; [done|]. congruence.
  - intros t0 p0 fd0 key Hin Ho Hk. apply list_lookup_insert_Some in Hin as [(<- & <- & _)|[Hne Hin]]; [done|].
    apply lookup_insert_Some in Hk as [[_ <-]|[_ Hk]]; [|by eapply (fds_registry _ _ _ Hok)].
    apply Hne. by eapply (fds_distinct _ _ _ Hok).
  - intros t0 p0 t1 p1 fd0 Hin0 Hin1 Ho0 Ho1.
    apply list_lookup_insert_Some in Hin0 as [(<- & <- & _)|[Hne0 Hin0]]; [done|].
    apply list_lookup_insert_Some in Hin1 as [(<- & <- & _)|[Hne1 Hin1]]; [done|].
    by eapply (fds_distinct _ _ _ Hok).
Qed.

(** ** The files *)

Lemma file_update w w' ps t p p' q data :
  file_ok w ps q data -> ps !! t = Some p ->
  ((length (default [] (fs_file w q)) <= length data)%nat \/ untruncated p q ->
   (length (default [] (fs_file w' q)) <= length data)%nat \/ untruncated p' q) ->
  (forall i, (i < length data)%nat -> pending p q i \/ default [] (fs_file w q) !! i = data !! i ->
     default [] (fs_file w' q) !! i = data !! i \/ pending p' q i) ->
  (is_Some (fs_file w q) \/ unopened p q -> is_Some (fs_file w' q) \/ unopened p' q) ->
  file_ok w' (<[t := p']> ps) q data.
Proof using Type.
  intros [Hs Hb Hex] Ht Hs' Hb' Hex'. assert (Hlt : (t < length ps)%nat) by (by eapply lookup_lt_Some).
  split.
  - destruct Hs as [Hr|(t0 & p0 & Hin & Hp)].
    + destruct Hs' as [|Hp]; [by left|by left|]. right. exists t, p'. by rewrite list_lookup_insert_eq.
    + destruct (decide (t0 = t)) as [->|Hne].
      * rewrite Ht in Hin. injection Hin as <-.
        destruct Hs' as [|Hp']; [by right|by left|]. right. exists t, p'. by rewrite list_lookup_insert_eq.
      * right. exists t0, p0. by rewrite list_lookup_insert_ne.
  - intros i Hi. destruct (Hb i Hi) as [Hr|(t0 & p0 & Hin & Hp)].
    + destruct (Hb' i Hi) as [|Hp]; [by right|by left|]. right. exists t, p'. by rewrite list_lookup_insert_eq.
    + destruct (decide (t0 = t)) as [->|Hne].
      * rewrite Ht in Hin. injection Hin as <-.
        destruct (Hb' i Hi) as [|Hp']; [by left|by left|]. right. exists t, p'. by rewrite list_lookup_insert_eq.
      * right. exists t0, p0. by rewrite list_lookup_insert_ne.
  - destruct Hex as [Hr|(t0 & p0 & Hin & Hp)].
    + destruct Hex' as [|Hp]; [by left|by left|]. right. exists t, p'. by rewrite list_lookup_insert_eq.
    + destruct (decide (t0 = t)) as [->|Hne].
      * rewrite Ht in Hin. injection Hin as <-.
        destruct Hex' as [|Hp']; [by right|by left|]. right. exists t, p'. by rewrite list_lookup_insert_eq.
      * right. exists t0, p0. by rewrite list_lookup_insert_ne.
Qed.

(** No call changes another file, or what is left to do for it. *)
Lemma file_same w w' ps t p p' q data :
  file_ok w ps q data -> ps !! t = Some p -> default [] (fs_file w' q) = default [] (fs_file w q) ->
  (is_Some (fs_file w q) -> is_Some (fs_file w' q)) ->
  (forall i, pending p q i -> pending p' q i) ->
  (unopened p q -> unopened p' q \/ is_Some (fs_file w' q)) ->
  (untruncated p q -> untruncated p' q) ->
  file_ok w' (<[t := p']> ps) q data.
Proof using Type.
  intros Hok Ht E Hex Hp Hu Hn. eapply file_update; [done|done|rewrite E; intros [H|H]; [by left|right; by apply Hn]| |].
  - intros i _ [H|H]; [right; by apply Hp|left; by rewrite E].
  - intros [H|H]; [left; by apply Hex|]. destruct (Hu H); auto.
Qed.

Lemma pending_cons j js q i :
  pending (Idle, j :: js) q i <->
  j_path j = q /\ (j_base j + 0 <= i < j_base j + length (j_data j))%nat \/ pending (Idle, js) q i.
Proof. rewrite <- (pending_writing 0 0). done. Qed.

Lemma unopened_cons j js q : unopened (Idle, j :: js) q -> j_path j = q \/ exists j', j' ∈ js /\ j_path j' = q.
Proof. intros (j' & [->|Hj]%elem_of_cons & Hq); [by left|]. right. by exists j'. Qed.

(** A file that was opened is there, with all of it to be written. *)
Lemma file_opened w w' ps t j js fd q data :
  job_ok j -> j_chunk j = false -> want !! q = Some data -> file_ok w ps q data -> ps !! t = Some (Idle, j :: js) ->
  fs_file w' (j_path j) = Some [] -> (forall q', q' <> j_path j -> fs_file w' q' = fs_file w q') ->
  file_ok w' (<[t := at_pos j fd 0 js]> ps) q data.
Proof using Type.
  intros (data' & Hw & _ & _ & Hfile) Hc Hq Hok Ht Hnew Hold. destruct (Hfile Hc) as [Hb Hd].
  destruct (decide (q = j_path j)) as [->|Hne].
  - assert (data' = data) as -> by congruence. eapply file_update; [done|done|left; rewrite Hnew; simpl; lia| |].
    + intros i Hi _. right. apply pending_at_pos. left. rewrite Hb, Hd. split; [done|lia].
    + intros _. left. by rewrite Hnew.
  - eapply file_same; [done|done|by rewrite Hold|by rewrite Hold| | |].
    + intros i. rewrite pending_at_pos. by intros [[Hp _]|Hp]%pending_cons; [|right].
    + intros [Hp|Hp]%unopened_cons; [done|]. left. by apply unopened_at_pos.
    + intros [[Hp _]|Hp]%untruncated_cons; [done|]. by apply untruncated_at_pos.
Qed.

(** What a piece of a job puts into its file. *)
Lemma file_written w w' ps t j js fd n d r q data :
  job_ok j -> want !! q = Some data -> file_ok w ps q data -> ps !! t = Some (Writing fd n, j :: js) ->
  d `prefix_of` drop n (j_data j) -> d <> [] -> 0 < r <= Z.of_nat (length d) ->
  fs_file w' (j_path j) = Some (pwrite (default [] (fs_file w (j_path j))) (j_base j + n) (take (Z.to_nat r) d)) ->
  (forall q', q' <> j_path j -> fs_file w' q' = fs_file w q') ->
  file_ok w' (<[t := at_pos j fd (n + Z.to_nat r) js]> ps) q data.
Proof using Type.
  intros (data' & Hw & Hslice & Hlen & _) Hq Hok Ht Hpre Hne Hr Hnew Hold.
  destruct (decide (q = j_path j)) as [->|Hneq].
  - assert (data' = data) as -> by congruence. pose proof (prefix_drop_length _ _ _ Hpre Hne) as Hd.
    set (c := default [] (fs_file w (j_path j))) in *.
    assert (Hl : length (take (Z.to_nat r) d) = Z.to_nat r) by (rewrite length_take; lia).
    assert (Hcell : forall i, (j_base j + n <= i < j_base j + n + Z.to_nat r)%nat ->
      pwrite c (j_base j + n) (take (Z.to_nat r) d) !! i = data !! i).
    { intros i Hi. rewrite lookup_pwrite_in, lookup_take_lt by (rewrite ?Hl; lia).
      destruct Hpre as [rest Hpre].
      rewrite <- (lookup_app_l d rest), <- Hpre, lookup_drop, Hslice, lookup_take_lt, lookup_drop by lia.
      f_equal. lia. }
    eapply file_update; [done|done| | |]; rewrite Hnew; cbn [from_option id].
    + intros [Hs|Hn]; [left; fold c in Hs|right; by apply untruncated_at_pos].
      rewrite length_pwrite, Hl; [lia|]. intros E. rewrite E in Hl. simpl in Hl. lia.
    + intros i Hi Hi'. destruct (decide (j_base j + n <= i < j_base j + n + Z.to_nat r)%nat) as [Hin|Hout].
      { left. by apply Hcell. }
      destruct Hi' as [[[_ Hp]|Hp]%pending_writing|Hp].
      * right. apply pending_at_pos. left. split; [done|lia].
      * right. apply pending_at_pos. by right.
      * left. rewrite <- Hp. apply lookup_pwrite_out; [|rewrite Hl; lia].
        apply lookup_lt_is_Some. rewrite Hp. by apply lookup_lt_is_Some.
    + intros _. left. done.
  - eapply file_same; [done|done|by rewrite Hold|by rewrite Hold| | |by intros Hn; apply untruncated_at_pos].
    + intros i. rewrite pending_at_pos. by intros [[Hp _]|Hp]%pending_writing; [|right].
    + intros (j' & Hj & Hp). left. apply unopened_at_pos. by exists j'.
Qed.

(** ** The calls *)

(** The descriptor a thread writes with is that of its file. *)
Lemma writing_fd w s ps t fd n j js :
  fds_ok w s ps -> ps !! t = Some (Writing fd n, j :: js) -> fs_fd w fd = Some (j_path j).
Proof using Type.
  intros Hok Ht. destruct (fds_phase _ _ _ Hok _ _ Ht) as [_ H]. destruct (j_chunk j); [|done].
  by destruct (fds_sink _ _ _ Hok _ _ H) as (-> & _).
Qed.

Lemma jobs_next c p x : allowed c p -> Forall job_ok p.2 -> Forall job_ok (next c p x).2.
Proof using Type.
  intros Ha H. destruct c; try done; cbn [next].
  - destruct truncate; [|done]. destruct p as [ph [|j js]]; [done|]. unfold at_pos. apply Forall_cons in H as [Hj H].
    destruct (_ && _); [done|by constructor].
  - destruct p as [[] [|j js]]; try done. unfold at_pos. apply Forall_cons in H as [Hj H].
    destruct (_ && _); [done|by constructor].
  - cbn. destruct p.2; [done|]. by apply Forall_cons in H as [_ H].
  - destruct p as [[] [|j js]]; try done. unfold at_pos. apply Forall_cons in H as [Hj H].
    destruct (_ && _); [done|by constructor].
Qed.

Lemma call_good {Rel : FsReliable W} st ps t p c st' x :
  fds_ok st.1 st.2 ps -> ps !! t = Some p -> allowed c p -> do_call c st = (st', x) -> good c x.
Proof using Type.
  intros Hok Ht Ha E. destruct st as [w s]. destruct c; try done; cbn [do_call good] in *.
  - pose proof (open_succeeds w p0 truncate) as H. destruct (fs_open _ _ _). by simplify_eq.
  - destruct p as [[] [|j js]]; try done. destruct Ha as (-> & -> & Hne & Hpre).
    pose proof (writing_fd _ _ _ _ _ _ _ _ Hok Ht) as Hfd.
    pose proof (write_progresses _ _ data (Z.of_nat (j_base j + n)) _ Hfd Hne ltac:(lia)) as H.
    destruct (fs_write _ _ _ _) as [w' r] eqn:Ew. simplify_eq. cbn [snd] in H. split; [done|].
    by apply (write_ok _ _ _ _ _ _ _ Ew Hfd ltac:(lia) H).
  - pose proof (mkdir_succeeds w p0) as H. destruct (fs_create_directories _ _). by simplify_eq.
Qed.

Lemma kept_refl w p : kept w w p.
Proof. done. Qed.

Lemma kept_frame w w' p :
  (forall fd, fs_fd w' fd = fs_fd w fd) -> (forall q, fs_file w' q = fs_file w q) -> kept w w' p.
Proof. intros H1 H2. split; intros *; by rewrite ?H1, ?H2. Qed.

Lemma owned_at_pos j fd n js : owned (at_pos j fd n js) = if j_chunk j then None else Some fd.
Proof. unfold at_pos. destruct (j_chunk j) eqn:E; [by destruct (_ && _); cbn; rewrite ?E|]. cbn. by rewrite E. Qed.

Lemma phase_at_pos w s j fd n js :
  phase_ok w s (Writing fd n, j :: js) -> phase_ok w s (at_pos j fd n js).
Proof. unfold at_pos. by destruct (_ && _). Qed.

Lemma call_fds {Rel : FsReliable W} st lock ps t p c st' x :
  fds_ok st.1 st.2 ps -> lock_ok lock ps -> ps !! t = Some p -> allowed c p -> do_call c st = (st', x) ->
  fds_ok st'.1 st'.2 (<[t := next c p x]> ps).
Proof using Type.
  intros Hok Hl Ht Ha E. pose proof (call_good _ _ _ _ _ _ _ Hok Ht Ha E) as Hgood.
  pose proof (fds_phase _ _ _ Hok _ _ Ht) as Hph. destruct st as [w s]. cbn [fst snd] in *.
  destruct p as [ph [|j js]]; [by destruct ph, c as [? []| | | | | | | |]|].
  destruct c as [q [|]|fd d off|fd|q|q| |key|key fd|]; cbn [do_call good next] in *.
  - destruct ph; try done. destruct Ha as [Hc ->]. destruct (fs_open _ _ _) as [w' fd] eqn:Eo. simplify_eq.
    destruct (open_ok _ _ _ _ _ Eo Hgood) as (H1 & H2 & H3 & H4 & H5). cbn [fst snd].
    eapply fds_update; [done|done| |apply phase_at_pos; cbn; rewrite Hc; split; [lia|done]|].
    + split; [intros fd' q Hq _; rewrite H3; [done|congruence]|]. intros q Hq.
      destruct (decide (q = j_path j)) as [->|Hne]; [by rewrite H4|by rewrite H5].
    + right. right. exists x. rewrite owned_at_pos, Hc. done.
  - destruct ph; try done. cbn in Ha. subst q. destruct Hph as [Hc Hnone]. destruct (fs_open _ _ _) as [w' fd] eqn:Eo. simplify_eq.
    destruct (open_ok _ _ _ _ _ Eo Hgood) as (H1 & H2 & H3 & H4 & H5). cbn [fst snd].
    eapply fds_update; [done|done| |cbn; by rewrite H4|].
    + split; [intros fd' q Hq _; rewrite H3; [done|congruence]|]. intros q Hq.
      destruct (decide (q = j_path j)) as [->|Hne]; [by rewrite H4|by rewrite H5].
    + right. right. by exists x.
  - destruct ph; try done. destruct Ha as (-> & -> & Hne & Hpre). destruct (fs_write _ _ _ _) as [w' r] eqn:Ew. simplify_eq.
    pose proof (writing_fd _ _ _ _ _ _ _ _ Hok Ht) as Hfd.
    destruct (write_ok _ _ _ _ _ _ _ Ew Hfd ltac:(lia) (proj1 Hgood)) as [_ Hc].
    destruct (write_frame _ _ _ _ _ _ Ew) as [H1 H2]. pose proof (prefix_drop_length _ _ _ Hpre Hne).
    cbn [fst snd]. eapply fds_update; [done|done| | |].
    + split; [intros fd' q Hq _; by rewrite H1|]. intros q Hq.
      destruct (decide (q = j_path j)) as [->|Hneq]; [by rewrite Hc|rewrite H2; [done|congruence]].
    + apply phase_at_pos. cbn in Hph |- *. rewrite H1. split; [lia|]. apply Hph.
    + rewrite owned_at_pos. cbn. destruct (j_chunk j); auto.
  - destruct ph; try done. destruct Ha as (Hc & -> & ->). destruct (fs_close _ _) as [w' r] eqn:Ec. simplify_eq.
    destruct (close_frame _ _ _ _ Ec) as (H1 & H2 & H3). cbn [fst snd tail].
    eapply fds_update; [done|done| |done|by left]. split; [|intros q; by rewrite H3].
    intros fd' q Hq Hne. rewrite H2; [done|]. intros ->. apply Hne. cbn. by rewrite Hc.
  - destruct (fs_create_directories _ _) as [w' e] eqn:Em. simplify_eq. destruct (mkdir_frame _ _ _ _ Em) as [H1 H2].
    cbn [fst snd]. assert (kept w w' (Idle, [])) by by apply kept_frame.
    eapply fds_update; [done|done|by apply kept_frame|by eapply phase_kept|by right; left].
  - by destruct ph.
  - destruct ph; try done. simplify_eq. eapply fds_update; [done|done|apply kept_refl|done|by left].
  - destruct ph; try done. simplify_eq/=. cbn in Hph. eapply fds_update; [done|done|apply kept_refl| |].
    + destruct (chunk_files_ s !! j_key j) eqn:Ek; cbn; by rewrite Ek.
    + left. by destruct (chunk_files_ s !! _).
  - destruct ph; try done. destruct Ha as [-> ->].
    destruct Hph as (_ & Hnone & _). rewrite Hnone in E. simplify_eq/=. by eapply fds_emplace.
  - destruct ph; try done. simplify_eq/=. destruct Hph as [Hc Hk].
    eapply fds_update; [done|done|apply kept_refl| |left; by rewrite owned_at_pos, Hc].
    apply phase_at_pos. cbn. rewrite Hc. split; [lia|done].
Qed.

Lemma call_files {Rel : FsReliable W} st ps t p c st' x q data :
  fds_ok st.1 st.2 ps -> ps !! t = Some p -> allowed c p -> do_call c st = (st', x) -> Forall job_ok p.2 ->
  want !! q = Some data -> file_ok st.1 ps q data -> file_ok st'.1 (<[t := next c p x]> ps) q data.
Proof using Type.
  intros Hok Ht Ha E Hjobs Hq Hf. pose proof (call_good _ _ _ _ _ _ _ Hok Ht Ha E) as Hgood.
  pose proof (fds_phase _ _ _ Hok _ _ Ht) as Hph. destruct st as [w s]. cbn [fst snd] in *.
  destruct p as [ph [|j js]]; [by destruct ph, c as [? []| | | | | | | |]|]. apply Forall_cons in Hjobs as [Hj _].
  destruct c as [q' [|]|fd d off|fd|q'|q'| |key|key fd|]; cbn [do_call good next] in *.
  - destruct ph; try done. destruct Ha as [Hc ->]. destruct (fs_open _ _ _) as [w' fd] eqn:Eo. simplify_eq.
    destruct (open_ok _ _ _ _ _ Eo Hgood) as (H1 & H2 & H3 & H4 & H5). by eapply file_opened.
  - destruct ph; try done. cbn in Ha. subst q'. destruct (fs_open _ _ _) as [w' fd] eqn:Eo. simplify_eq.
    destruct (open_ok _ _ _ _ _ Eo Hgood) as (H1 & H2 & H3 & H4 & H5). cbn [fst].
    destruct (decide (q = j_path j)) as [->|Hne].
    + eapply file_same; [done|done|by rewrite H4|by rewrite H4|done|by left|done].
    + eapply file_same; [done|done|by rewrite H5|by rewrite H5|done|by left|done].
  - destruct ph; try done. destruct Ha as (-> & -> & Hne & Hpre). destruct (fs_write _ _ _ _) as [w' r] eqn:Ew. simplify_eq.
    pose proof (writing_fd _ _ _ _ _ _ _ _ Hok Ht) as Hfd.
    destruct (write_ok _ _ _ _ _ _ _ Ew Hfd ltac:(lia) (proj1 Hgood)) as [_ Hc]. rewrite Nat2Z.id in Hc.
    destruct (write_frame _ _ _ _ _ _ Ew) as [_ H2]. eapply file_written; try done.
    intros q' Hq'. apply H2. congruence.
  - destruct ph; try done. destruct Ha as (Hc & -> & ->). destruct (fs_close _ _) as [w' r] eqn:Ec. simplify_eq.
    destruct (close_frame _ _ _ _ Ec) as (_ & _ & H3). cbn [fst tail].
    eapply file_same; [done|done|by rewrite H3|by rewrite H3| |by left|done]. intros i [[_ Hi]|Hi]%pending_writing; [lia|done].
  - destruct (fs_create_directories _ _) as [w' e] eqn:Em. simplify_eq. destruct (mkdir_frame _ _ _ _ Em) as [_ H2].
    eapply file_same; [done|done|cbn; by rewrite H2|cbn; by rewrite H2|done|by left|done].
  - by destruct ph.
  - destruct ph; try done. simplify_eq. by eapply file_same; [..|left|].
  - destruct ph; try done. simplify_eq. eapply file_same; [done|done|done|done| |left|]; by destruct (chunk_files_ _ !! _).
  - destruct ph; try done. destruct (chunk_files_ s !! key); simplify_eq; by eapply file_same; [..|left|].
  - destruct ph; try done. simplify_eq/=. destruct Hph as [Hc Hk]. eapply file_same; [done|done|done|done| | |].
    + intros i. rewrite pending_at_pos. by intros ?%pending_cons.
    + intros [<-|Hu]%unopened_cons; [right|left; by apply unopened_at_pos].
      by destruct (fds_sink _ _ _ Hok _ _ Hk) as (_ & _ & ?).
    + intros [[_ Hn]|Hn]%untruncated_cons; [congruence|]. by apply untruncated_at_pos.
Qed.

Lemma call_rest {Rel : FsReliable W} st ps t p c st' x q :
  fds_ok st.1 st.2 ps -> ps !! t = Some p -> allowed c p -> do_call c st = (st', x) -> Forall job_ok p.2 ->
  want !! q = None -> fs_file st'.1 q = fs_file st.1 q.
Proof using Type.
  intros Hok Ht Ha E Hjobs Hq. pose proof (call_good _ _ _ _ _ _ _ Hok Ht Ha E) as Hgood. destruct st as [w s].
  assert (Hne : forall ph j js, p = (ph, j :: js) -> q <> j_path j).
  { intros ph j js -> ->. apply Forall_cons in Hjobs as [(data & Hw & _) _]. congruence. }
  destruct p as [ph [|j js]]; [by destruct ph, c as [? []| | | | | | | |]|]. specialize (Hne _ _ _ eq_refl).
  destruct c as [q' tr|fd d off|fd|q'|q'| |key|key fd|]; cbn [do_call good] in *;
    [| | | |by simplify_eq| by simplify_eq|by simplify_eq|by destruct (chunk_files_ s !! key); simplify_eq|by simplify_eq].
  - assert (Hq' : q' = j_path j) by (destruct ph, tr; try done; by destruct Ha).
    destruct (fs_open _ _ _) as [w' fd] eqn:Eo. simplify_eq.
    destruct (open_ok _ _ _ _ _ Eo Hgood) as (_ & _ & _ & _ & H5). by apply H5.
  - destruct ph; try done. destruct Ha as (-> & _). destruct (fs_write _ _ _ _) as [w' r] eqn:Ew. simplify_eq.
    pose proof (writing_fd _ _ _ _ _ _ _ _ Hok Ht) as Hfd. cbn [fst] in Hfd. rewrite (proj2 (write_frame _ _ _ _ _ _ Ew)); [done|]. rewrite Hfd. congruence.
  - destruct (fs_close _ _) as [w' r] eqn:Ec. simplify_eq. by apply (close_frame _ _ _ _ Ec).
  - destruct (fs_create_directories _ _) as [w' e] eqn:Em. simplify_eq. by apply (mkdir_frame _ _ _ _ Em).
Qed.

(** ** The threads *)

Definition pool_ok (s : Pool W) ps : Prop := Forall2 keeps (threads s) ps /\ Inv (shared s) (registry_mutex_ s) ps.

Lemma step_preserves {Rel : FsReliable W} (s s' : Pool W) ps : pool_ok s ps -> step s s' -> exists ps', pool_ok s' ps'.
Proof using Type.
  intros [Hk [Hfds Hl Hj Hf Hr]] [t c k lock st x Hm Hlock E].
  destruct (Forall2_lookup_l _ _ _ _ _ Hk Hm) as (p & Ht & Ha & Hgo).
  assert (Hjobs : Forall job_ok p.2) by (by apply (Forall_lookup_1 _ _ _ _ Hj Ht)).
  exists (<[t := next c p x]> ps). split; cbn [threads shared registry_mutex_].
  - apply Forall2_insert; [done|]. apply Hgo. by eapply call_good.
  - split.
    + by eapply call_fds.
    + by eapply step_lock.
    + apply Forall_insert; [done|by apply jobs_next].
    + intros q data Hq. eapply call_files; eauto.
    + intros q Hq. rewrite <- Hr by done. by eapply call_rest.
Qed.

Lemma steps_preserve {Rel : FsReliable W} (s s' : Pool W) ps : rtc step s s' -> pool_ok s ps -> exists ps', pool_ok s' ps'.
Proof using Type.
  intros H. revert ps. induction H as [|s s1 s2 Hstep _ IH]; intros ps Hok; [by exists ps|].
  destruct (step_preserves _ _ _ Hok Hstep) as [ps' Hok']. by eapply IH.
Qed.

(** A thread that waits for the mutex waits for one that can go on. *)
Lemma stuck_done (s : Pool W) ps :
  pool_ok s ps -> stuck s ->
  Forall (fun m => m = Ret tt) (threads s) /\ Forall (fun p => p = (Idle, [])) ps /\ registry_mutex_ s = None.
Proof using Type.
  intros [Hk Hinv] Hs. destruct (inv_lock _ _ _ Hinv) as [Hl Hl'].
  assert (Hlast : forall t m p, threads s !! t = Some m -> ps !! t = Some p -> keeps m p ->
    m = Ret tt /\ p = (Idle, []) \/ exists c k, m = Call c k /\ allowed c p).
  { intros t [[]|c k] p _ _ Hm; [by left|]. right. exists c, k. split; [done|apply Hm]. }
  assert (Hwait : forall t c k, threads s !! t = Some (Call c k) -> c = CallLock /\ is_Some (registry_mutex_ s)).
  { intros t c k Ht. destruct (take_lock t c (registry_mutex_ s)) as [lock|] eqn:E.
    - destruct (do_call c (shared s)) as [st x] eqn:Ec. destruct (Hs _ (step_call _ _ _ _ _ _ _ Ht E Ec)).
    - destruct c; try done. cbn in E. by destruct (registry_mutex_ s). }
  assert (Hfree : registry_mutex_ s = None).
  { destruct (registry_mutex_ s) as [t|] eqn:E; [|done]. destruct (Hl' t eq_refl) as [p Hp].
    destruct (Forall2_lookup_r _ _ _ _ _ Hk Hp) as (m & Hm & Hmp). pose proof (proj2 (Hl _ _ Hp) eq_refl) as Hlk.
    destruct (Hlast _ _ _ Hm Hp Hmp) as [[_ ->]|(c & k & -> & Ha)]; [done|].
    destruct (Hwait _ _ _ Hm) as [-> _]. by destruct p as [[] [|]]. }
  assert (Hdone : forall t m p, threads s !! t = Some m -> ps !! t = Some p -> keeps m p -> m = Ret tt /\ p = (Idle, [])).
  { intros t m p Hm Hp Hmp. destruct (Hlast _ _ _ Hm Hp Hmp) as [|(c & k & -> & _)]; [done|].
    destruct (Hwait _ _ _ Hm) as [_ [t' Ht']]. congruence. }
  split_and!; [| |done]; apply Forall_lookup; intros t y Hy.
  - destruct (Forall2_lookup_l _ _ _ _ _ Hk Hy) as (p & Hp & Hmp). by eapply Hdone.
  - destruct (Forall2_lookup_r _ _ _ _ _ Hk Hy) as (m & Hm & Hmp). by eapply Hdone.
Qed.

Lemma done_files st lock ps q data :
  Inv st lock ps -> Forall (fun p => p = (Idle, [])) ps -> want !! q = Some data -> fs_file st.1 q = Some data.
Proof using Type.
  intros Hinv Hps Hq. destruct (inv_files _ _ _ Hinv _ _ Hq) as [Hs Hb Hex]. rewrite Forall_lookup in Hps.
  destruct Hex as [[c Hc]|(t & p & Hp & j & Hj & _)].
  2: { rewrite (Hps _ _ Hp) in Hj. by apply elem_of_nil in Hj. }
  destruct Hs as [Hs|(t & p & Hp & j & Hj & _)].
  2: { rewrite (Hps _ _ Hp) in Hj. by apply elem_of_nil in Hj. }
  rewrite Hc in *. cbn [from_option id] in *. f_equal. apply list_eq. intros i.
  destruct (decide (i < length data)%nat) as [Hi|Hi].
  - destruct (Hb i Hi) as [|(t & p & Hp & j & n & Hj & _)]; [done|].
    rewrite (Hps _ _ Hp) in Hj. by apply elem_of_nil in Hj.
  - by rewrite !lookup_ge_None_2 by lia.
Qed.

(** All the threads' jobs together cover the wanted files, but for what is
    there already, and one of them empties a file that is longer. *)
Record plan (w : W) (jss : list (list Job)) : Prop := {
  plan_jobs : Forall (Forall job_ok) jss;
  plan_short q data : want !! q = Some data -> (length (default [] (fs_file w q)) <= length data)%nat \/
    exists j, j ∈ concat jss /\ j_path j = q /\ j_chunk j = false;
  plan_there q data : want !! q = Some data -> exists j, j ∈ concat jss /\ j_path j = q;
  plan_covers q data i : want !! q = Some data -> (i < length data)%nat ->
    default [] (fs_file w q) !! i = data !! i \/ exists j, j ∈ concat jss /\
    j_path j = q /\ (j_base j <= i < j_base j + length (j_data j))%nat;
}.

Definition at_start (jss : list (list Job)) : list Progress := map (fun js => (Idle, js)) jss.

Lemma job_at_start jss j :
  j ∈ concat jss -> exists t js, at_start jss !! t = Some (Idle, js) /\ j ∈ js.
Proof.
  intros (js & Hjs & Hj)%list_elem_of_In%in_concat. apply list_elem_of_In, list_elem_of_lookup in Hjs as [t Ht].
  exists t, js. split; [|by apply list_elem_of_In]. unfold at_start. change (map ?f ?l) with (f <$> l). by rewrite list_lookup_fmap, Ht.
Qed.

Lemma start_idle jss t p : at_start jss !! t = Some p -> exists js, p = (Idle, js) /\ js ∈ jss.
Proof.
  unfold at_start. change (map ?f ?l) with (f <$> l). rewrite list_lookup_fmap. destruct (jss !! t) as [js|] eqn:E; [|done]. cbn.
  intros [= <-]. exists js. split; [done|]. by eapply list_elem_of_lookup_2.
Qed.

Lemma pool_ok_start w sink jss ms :
  sink_inv w sink -> plan w jss -> (forall q, want !! q = None -> fs_file w q = before q) ->
  Forall2 (fun m js => keeps m (Idle, js)) ms jss -> pool_ok (new_pool w sink ms) (at_start jss).
Proof using Type.
  intros Hsink [Hj Hs Hex Hc] Hb Hm. split; cbn [new_pool threads shared registry_mutex_].
  - unfold at_start. by apply Forall2_fmap_r.
  - split; cbn [fst snd].
    + split; [done|..]; intros *.
      * by intros (js & -> & _)%start_idle.
      * by intros (js & -> & _)%start_idle.
      * by intros (js & -> & _)%start_idle.
    + split; [|done]. intros t p (js & -> & _)%start_idle. by split.
    + unfold at_start. apply Forall_fmap. eapply Forall_impl; [exact Hj|]. done.
    + intros q data Hq. split.
      * destruct (Hs _ _ Hq) as [|(j & Hin & Hp & Hn)]; [by left|right].
        destruct (job_at_start _ _ Hin) as (t & js & Ht & Hjs). exists t, (Idle, js). split; [done|]. by exists j.
      * intros i Hi. destruct (Hc _ _ _ Hq Hi) as [|(j & Hin & Hp & Hi')]; [by left|right].
        destruct (job_at_start _ _ Hin) as (t & js & Ht & Hjs). exists t, (Idle, js). split; [done|].
        apply pending_idle. by exists j.
      * right. destruct (Hex _ _ Hq) as (j & Hin & Hp).
        destruct (job_at_start _ _ Hin) as (t & js & Ht & Hjs). exists t, (Idle, js). split; [done|]. by exists j.
    + done.
Qed.

(** Whatever turns the threads take: where they stop, all is stored. *)
Lemma interleaved {Rel : FsReliable W} w sink jss ms (s : Pool W) :
  sink_inv w sink -> plan w jss -> (forall q, want !! q = None -> fs_file w q = before q) ->
  Forall2 (fun m js => keeps m (Idle, js)) ms jss ->
  rtc step (new_pool w sink ms) s -> stuck s ->
  Forall (fun m => m = Ret tt) (threads s) /\
  (forall q data, want !! q = Some data -> fs_file (shared s).1 q = Some data) /\
  (forall q, want !! q = None -> fs_file (shared s).1 q = before q).
Proof using Type.
  intros Hsink Hplan Hb Hm Hsteps Hstuck.
  destruct (steps_preserve _ _ _ Hsteps (pool_ok_start _ _ _ _ Hsink Hplan Hb Hm)) as [ps Hok].
  destruct (stuck_done _ _ Hok Hstuck) as (Hdone & Hps & _). split; [done|].
  destruct Hok as [_ Hinv]. split; [|by apply (inv_rest _ _ _ Hinv)]. intros q data. by eapply done_files.
Qed.
End Invariant.
