(* ===== verification/Concurrent.v ===== *)
(** * A backup whose connections are served at the same time

    The server runs a consumer thread per connection ([Upload]), and all the
    connections of a session share its sink. [handle_upload_runs]: on what a
    worker sends, the consumer makes the calls of the program [p_session] of
    [SinkCalls], on whatever file system. So the threads' programs may be
    interleaved call by call ([SinkCalls.step]), and [Interleave] applies to the
    tasks the walk has queued ([Walk], [Backup]). *)

From S2P Require Import Prelude Wire Protocol XXHash PosixPath FileSink Codec Upload StorageReader Worker EndToEnd.
From S2P Require Import Scheduler Filter Walk Backup SinkCalls Interleave.
From Stdlib Require Import Permutation.

(** ** A consumer's calls *)

Section Consumer.
Context {W D : Type} {Ops : FsOps W} {Dec : Decompressor D}.
Variables (mode : Z) (checks : bool) (flt : ProbeInfo -> bool).
Implicit Types (s : Consumer W D) (u : UnitSink).

(** The pieces up to the one that is refused. *)
Lemma write_pieces_fails {T} (write : sink_write T) st a b st' :
  write_pieces write st (a ++ b) = (st', false) ->
  write_pieces write st a = (st', false) \/
  exists st1, write_pieces write st a = (st1, true) /\ write_pieces write st1 b = (st', false).
Proof.
  revert st. induction a as [|x a IH]; intros st; cbn [write_pieces app]; [by right; eexists|].
  destruct (write st x) as [st1 ok]. destruct ok; [apply IH|by left].
Qed.

(** Where the sink refuses a piece, the unit fails. *)
Lemma read_blocks_refused zs fuel s u wire rest d' outs w' u' :
  input s = concat (map block_frame zs) ++ block_type_to_byte EndOfUnit :: rest ->
  Forall (fun z => Z.of_nat (length z) <= kMaxBlockSize) zs ->
  feeds_all (decompressor_ s) zs d' outs ->
  write_pieces unit_sink_write (world s, u) outs = ((w', u'), false) ->
  (length zs < fuel)%nat ->
  exists s' wire' f, read_blocks fuel s u wire = (s', u', wire', Some f) /\ world s' = w' /\ sink_ s' = sink_ s.
Proof.
  revert fuel s u wire outs. induction zs as [|z zs IH]; intros fuel s u wire outs Hin Hzs Hf Hw Hfuel.
  { by destruct Hf as [_ ->]. }
  destruct fuel as [|fuel]; [simpl in Hfuel; lia|]. cbn [read_blocks].
  destruct Hf as (d1 & o1 & o2 & Hne & Hf1 & Hf2 & ->). apply Forall_cons_1 in Hzs as [Hz Hzs].
  cbn [map concat block_frame app] in Hin. rewrite <- !app_assoc in Hin. rewrite (read_cons _ _ _ Hin).
  cbn [nth]. rewrite block_type_of_to_byte.
  assert (Hword : is_word 32 (Z.of_nat (length z))).
  { split; [lia|]. eapply Z.le_lt_trans; [exact Hz|]. reflexivity. }
  erewrite (read_n 4 _ (write_u32_le (Z.of_nat (length z)))); [|reflexivity|apply length_write_u32_le].
  rewrite read_write_u32' by done.
  assert (Z.of_nat (length z) <> 0) by (destruct z; [done|simpl; lia]).
  rewrite (proj2 (Z.eqb_neq _ _)), (proj2 (Z.ltb_ge _ _)) by done. cbn [orb].
  rewrite Nat2Z.id. erewrite (read_n (length z) _ z); [|reflexivity|done].
  cbn [decompressor_ set_input world sink_].
  unfold feeds in Hf1. rewrite bool_decide_eq_false_2 in Hf1 by done.
  specialize (Hf1 _ unit_sink_write (world s, u)).
  apply write_pieces_fails in Hw as [Hw1|([w1 u1] & Hw1 & Hw2)]; rewrite Hw1 in Hf1.
  - destruct Hf1 as [d2 ->]. cbn [negb]. by do 3 eexists.
  - rewrite Hf1. cbn [negb]. match goal with |- context [read_blocks fuel ?s' ?u' ?wr] =>
      destruct (IH fuel s' u' wr o2) as (s2 & wire2 & f & E & H1 & H2) end; [done..|simpl in Hfuel; lia|].
    rewrite E. by do 3 eexists.
Qed.

(** The checksum of what was written, whatever the file system does. *)
Lemma pieces_checksum (w : W) u outs w' u' :
  write_pieces unit_sink_write (w, u) outs = ((w', u'), true) -> checksum_state u' = checksum_after u outs.
Proof.
  revert w u. induction outs as [|o outs IH]; intros w u; cbn [write_pieces].
  { intros [= _ <-]. unfold checksum_after. by destruct (integrity u). }
  assert (H : forall w1 u1 ok, unit_sink_write (w, u) o = ((w1, u1), ok) ->
    integrity u1 = integrity u /\ checksum_state u1 = if integrity u then XXH64_update (checksum_state u) o else checksum_state u).
  { intros w1 u1 ok. unfold unit_sink_write. destruct (is_chunk u).
    - destruct (write_at _ _ _ _) as [w2 ok2]. by intros [= <- <- <-].
    - destruct (sequential_write _ _ _) as [[w2 sq2] ok2]. by intros [= <- <- <-]. }
  destruct (unit_sink_write (w, u) o) as [[w1 u1] ok]. destruct (H _ _ _ eq_refl) as [Hi Hc].
  destruct ok; [|done]. intros E. rewrite (IH _ _ E). unfold checksum_after. rewrite Hi, Hc. by destruct (integrity u).
Qed.

(** A unit from its blocks on, whether the sink takes it or not. *)
Lemma receive_unit_runs s type path base writers zs blocks d' outs rest w' u' ok :
  let u := new_unit_sink checks type writers.1 writers.2 base in
  input s = unit_body checks zs (XXH64_digest
    (if checks then XXH64_update_all (XXH64_reset 0) blocks else XXH64_reset 0)) ++ rest ->
  Forall (fun z => Z.of_nat (length z) <= kMaxBlockSize) zs ->
  feeds_all (decompressor_ s) zs d' outs -> concat outs = concat blocks ->
  Z.of_nat (length (concat blocks)) < 2 ^ 64 ->
  write_pieces unit_sink_write (world s, u) outs = ((w', u'), ok) ->
  exists s', receive_unit checks type path base writers s = (s', if ok then Some tt else None) /\
    world s' = match type with File => (sequential_close w' (sequential u')).1 | _ => w' end /\
    sink_ s' = sink_ s /\ (ok = true -> input s' = rest /\ decompressor_ s' = d').
Proof.
  intros u Hin Hzs Hfeeds Hdata Hlen Hw. destruct ok.
  - destruct (receive_common checks s type path base writers zs blocks d' outs rest w' u' Hin Hzs Hfeeds Hdata Hlen Hw)
      as (s' & E & Hi & Hwd & Hs & Hd & _); [by eapply pieces_checksum|]. by exists s'.
  - unfold receive_unit. fold u. unfold unit_body in Hin. rewrite <- app_assoc in Hin. cbn [app] in Hin.
    destruct (read_blocks_refused zs (S (length (input s))) s u 0 _ _ _ _ _ Hin Hzs Hfeeds Hw) as (s1 & wire & f & -> & H1 & H2).
    { rewrite Hin, length_app. pose proof (length_frames zs). lia. }
    eexists. split; [reflexivity|]. by destruct type; cbn; rewrite ?H1, ?H2.
Qed.

Lemma run_root {A} (m : Prog A) (st : W * FileSink) : session_root_ (run m st).1.2 = session_root_ st.2.
Proof.
  revert st. induction m as [a|c k IH]; intros [w s]; [done|]. cbn [run].
  destruct (do_call c (w, s)) as [st x] eqn:E. rewrite IH.
  destruct c; cbn in E; try match type of E with match ?f with _ => _ end = _ => destruct f end; by simplify_eq.
Qed.

(** The unit of a task whose blocks decode to [outs]. *)
Definition unit_data (t : Task) (outs : list bytes) : UnitData :=
  {| ud_type := t_type t; ud_path := pathname t; ud_base := unit_base t; ud_outs := outs |}.

(** The program of a unit. *)
Definition p_task (root : path) (t : Task) (outs : list bytes) : Prog bool :=
  p_unit checks root (t_type t) (pathname t) (unit_base t) outs.

(** The consumer opens, writes and closes as the program does. *)
Lemma open_receive_runs s t zs blocks d' outs rest :
  good_task t ->
  input s = unit_body checks zs (XXH64_digest
    (if checks then XXH64_update_all (XXH64_reset 0) blocks else XXH64_reset 0)) ++ rest ->
  Forall (fun z => Z.of_nat (length z) <= kMaxBlockSize) zs ->
  feeds_all (decompressor_ s) zs d' outs -> concat outs = concat blocks ->
  Z.of_nat (length (concat blocks)) < 2 ^ 64 ->
  let '(st, ok) := run (p_task (session_root_ (sink_ s)) t outs) (world s, sink_ s) in
  exists s', (match open_unit (t_type t) (pathname t) s with
    | (s, None) => (emit s (UploadFinished (pathname t) (t_type t) (unit_base t) 0 0 false rejected), None)
    | (s, Some writers) => receive_unit checks (t_type t) (pathname t) (unit_base t) writers s
    end) = (s', if ok then Some tt else None) /\
    (world s', sink_ s') = st /\ (ok = true -> input s' = rest /\ decompressor_ s' = d').
Proof.
  intros (Hty & _) Hin Hzs Hfeeds Hdata Hlen. unfold p_task, p_unit, open_unit. destruct Hty as [-> | ->].
  - rewrite run_bind, run_open_sequential. destruct (open_sequential _ _ _) as [w1 sq].
    destruct (sequential_valid sq); [|by eexists]. rewrite run_bind, run_write_pieces.
    destruct (write_pieces _ _ _) as [[w2 u2] ok] eqn:Hw. rewrite run_bind, run_sequential_close. cbn [run].
    destruct (receive_unit_runs (set_io s w1 (sink_ s) (decompressor_ s)) File (pathname t) (unit_base t) (sq, no_offset)
      zs blocks d' outs rest w2 u2 ok Hin Hzs Hfeeds Hdata Hlen Hw) as (s' & E & Hwd & Hs & Hok).
    exists s'. by rewrite Hwd, Hs.
  - rewrite run_bind, run_open_offset. destruct (open_offset _ _ _) as [[w1 k1] ow].
    destruct (offset_valid ow); [|by eexists]. rewrite run_bind, run_write_pieces.
    destruct (write_pieces _ _ _) as [[w2 u2] ok] eqn:Hw. cbn [run].
    destruct (receive_unit_runs (set_io s w1 k1 (decompressor_ s)) Chunk (pathname t) (unit_base t) (no_sequential, ow)
      zs blocks d' outs rest w2 u2 ok Hin Hzs Hfeeds Hdata Hlen Hw) as (s' & E & Hwd & Hs & Hok).
    exists s'. by rewrite Hwd, Hs.
Qed.

Lemma unit_step_runs s t zs blocks d' outs rest :
  has_mode mode ModeAccept = false -> good_task t ->
  input s = unitHeader t ++ unit_body checks zs (XXH64_digest
    (if checks then XXH64_update_all (XXH64_reset 0) blocks else XXH64_reset 0)) ++ rest ->
  Forall (fun z => Z.of_nat (length z) <= kMaxBlockSize) zs ->
  feeds_all (decompressor_ s) zs d' outs -> concat outs = concat blocks ->
  Z.of_nat (length (concat blocks)) < 2 ^ 64 ->
  let '(st, ok) := run (p_task (session_root_ (sink_ s)) t outs) (world s, sink_ s) in
  exists s', unit_step mode checks flt s = (s', if ok then Some tt else None) /\
    (world s', sink_ s') = st /\ (ok = true -> input s' = rest /\ decompressor_ s' = d').
Proof.
  intros Hmode Hgood Hin Hzs Hfeeds Hdata Hlen. set (body := unit_body _ _ _ ++ rest) in Hin.
  assert (Hin0 : input s = unit_type_to_byte (t_type t) :: drop 1 (unitHeader t) ++ body)
    by (rewrite Hin, unitHeader_layout; done).
  pose proof (open_receive_runs (emit (set_input s body) (UploadStarted (pathname t) (t_type t) (unit_base t)))
    t zs blocks d' outs rest Hgood eq_refl Hzs Hfeeds Hdata Hlen) as Hunit. cbn [sink_ world emit set_input] in Hunit.
  destruct (run _ _) as [st ok]. destruct Hunit as (s' & Hs & Hst & Hok). exists s'. split; [|done]. rewrite <- Hs.
  unfold unit_step. unfold bind at 1. rewrite (read_cons _ _ _ Hin0). cbn [nth].
  rewrite unit_type_of_to_byte, Hmode.
  pose proof (unit_header_plain t (set_input s (drop 1 (unitHeader t) ++ body)) body Hgood eq_refl) as Hh.
  destruct Hgood as ([Hty|Hty] & _); rewrite Hty in *; unfold bind; rewrite Hh; unfold modify; by rewrite set_input_twice.
Qed.

(** The bytes of a session, with what the blocks of each unit decode to. *)
Fixpoint units_wire (submit_ : Task -> list bytes) (d : D) (us : list (Task * list bytes)) (stream : bytes) : Prop :=
  match us with
  | [] => stream = []
  | (t, outs) :: us => exists zs d1 stream1,
      stream = unitHeader t ++ unit_body checks zs (XXH64_digest
        (if checks then XXH64_update_all (XXH64_reset 0) (submit_ t) else XXH64_reset 0)) ++ stream1 /\
      Forall (fun z => Z.of_nat (length z) <= kMaxBlockSize) zs /\
      feeds_all d zs d1 outs /\ concat outs = concat (submit_ t) /\ units_wire submit_ d1 us stream1
  end.

Lemma session_units submit_ d ts stream d' :
  session_wire submit_ checks d ts stream d' -> exists us, us.*1 = ts /\ units_wire submit_ d us stream.
Proof.
  revert d stream. induction ts as [|t ts IH]; intros d stream; cbn [session_wire].
  { intros [-> _]. by exists []. }
  intros (zs & outs & d1 & stream1 & -> & Hzs & Hf & Hd & (us & <- & Hus)%IH).
  exists ((t, outs) :: us). split; [done|]. by exists zs, d1, stream1.
Qed.

Definition session_data (us : list (Task * list bytes)) : list UnitData := map (fun x => unit_data x.1 x.2) us.

(** The unit loop makes the calls of [p_session], and no others. *)
Lemma upload_loop_runs submit_ us : forall fuel s d stream rest,
  has_mode mode ModeAccept = false ->
  Forall (fun x => good_task x.1 /\ Z.of_nat (length (concat (submit_ x.1))) < 2 ^ 64) us ->
  units_wire submit_ d us stream -> decompressor_ s = d ->
  input s = stream ++ unit_type_to_byte End :: rest -> (length us < fuel)%nat ->
  let s' := upload_loop mode checks flt fuel s in
  (world s', sink_ s') = (run (p_session checks (session_root_ (sink_ s)) (session_data us)) (world s, sink_ s)).1.
Proof.
  induction us as [|[t outs] us IH]; intros fuel s d stream rest Hmode Hus Hwire <- Hin Hfuel;
    (destruct fuel as [|fuel]; [simpl in Hfuel; lia|]); cbn [upload_loop session_data map p_session].
  - cbn in Hwire. subst stream. assert (E : unit_step mode checks flt s = (set_input s rest, None)) by (unfold unit_step, bind at 1; by rewrite (read_cons _ _ _ Hin)).
    by rewrite E.
  - apply Forall_cons_1 in Hus as [[Hgood Hlen] Hus]. destruct Hwire as (zs & d1 & stream1 & -> & Hzs & Hf & Hd & Hwire).
    rewrite <- !app_assoc in Hin.
    pose proof (unit_step_runs s t zs (submit_ t) d1 outs _ Hmode Hgood Hin Hzs Hf Hd Hlen) as Hunit.
    unfold p_task in Hunit. rewrite run_bind. cbn [fst snd unit_data ud_type ud_path ud_base ud_outs] in *.
    pose proof (run_root (p_unit checks (session_root_ (sink_ s)) (t_type t) (pathname t) (unit_base t) outs)
      (world s, sink_ s)) as Hroot.
    destruct (run (p_unit _ _ _ _ _ _) _) as [st ok]. destruct Hunit as (s1 & -> & <- & Hok). cbn [fst snd] in Hroot.
    destruct ok; [|done]. destruct (Hok eq_refl) as [Hi Hd1]. rewrite <- Hroot.
    eapply IH; [done|done|exact Hwire|done|exact Hi|simpl in Hfuel; lia].
Qed.

Lemma length_units_wire submit_ d us stream : units_wire submit_ d us stream -> (length us <= length stream)%nat.
Proof.
  revert d stream. induction us as [|[t outs] us IH]; intros d stream; cbn [units_wire length]; [intros ->; done|].
  intros (zs & d1 & stream1 & -> & _ & _ & _ & Hw%IH). rewrite !length_app, unitHeader_layout. simpl. lia.
Qed.

Lemma handle_upload_runs submit_ us s stream rest :
  has_mode mode ModeAccept = false ->
  Forall (fun x => good_task x.1 /\ Z.of_nat (length (concat (submit_ x.1))) < 2 ^ 64) us ->
  units_wire submit_ (decompressor_ s) us stream -> input s = stream ++ unit_type_to_byte End :: rest ->
  let s' := handle_upload mode checks flt s in
  (world s', sink_ s') = (run (p_session checks (session_root_ (sink_ s)) (session_data us)) (world s, sink_ s)).1.
Proof.
  intros Hmode Hus Hwire Hin. eapply upload_loop_runs; [done|done|exact Hwire|done|exact Hin|].
  apply length_units_wire in Hwire. rewrite Hin, length_app. lia.
Qed.
End Consumer.

(** ** The tasks as jobs *)

Section Jobs.
Context {K F : Type} {Disk : DiskOps K F} {DLaws : DiskLaws K F} (k : K).
Variables (root : path) (chunk threshold : Z) (block : nat).
Hypothesis chunk_pos : 0 < chunk.
Hypothesis threshold_pos : 0 < threshold.
Hypothesis block_size : READ_BLOCK <= Z.of_nat block.

Abbreviation sub := (submit k (fun p => p)).
Abbreviation uploadable := (uploadable k root).
Abbreviation units := (units chunk threshold).

Definition job_of (t : Task) : Job :=
  {| j_chunk := is_chunk_type (t_type t); j_full := default root (resolve_safe_path root (pathname t));
     j_base := Z.to_nat (unit_base t); j_data := concat (sub t) |}.

Lemma task_job t outs :
  task_ok root sub block t -> concat outs = concat (sub t) -> unit_job root (unit_data t outs) (job_of t).
Proof using Type.
  intros (_ & [full Hres] & (Hty & Hb & Hfit) & _) Hd. unfold unit_job, unit_data, fits, job_of. cbn. rewrite Hres.
  destruct Hty as [Hty|Hty]; rewrite Hty in *; cbn; split_and!; try done; try lia.
  intros _. unfold unit_base. by rewrite Hty.
Qed.

Lemma job_path t q : target root t = Some q -> j_path (job_of t) = q.
Proof using Type.
  unfold target, j_path, job_of. cbn. destruct (resolve_safe_path root (pathname t)); [|done]. by intros [= <-].
Qed.

(** What the files are to hold, by what they held. *)
Definition wanted_files (old : bytes -> option bytes) (es : list (Entry * bytes * bytes)) : gmap bytes bytes :=
  list_to_map (map (fun x => (x.2, rebuilt threshold (old x.2) x.1.2)) es).

Lemma wanted_lookup old es q want :
  NoDup es.*2 -> wanted_files old es !! q = Some want <->
  exists e data, (e, data, q) ∈ es /\ want = rebuilt threshold (old q) data.
Proof using Type.
  intros Hnd. unfold wanted_files. rewrite <- elem_of_list_to_map.
  2: { change (map ?f ?l) with (f <$> l). by rewrite <- list_fmap_compose. }
  split.
  - intros ([[e data] q'] & [= -> ->] & Hx)%list_elem_of_fmap. by exists e, data.
  - intros (e & data & He & ->).
    by apply (list_elem_of_fmap_2 (fun x : Entry * bytes * bytes => (x.2, rebuilt threshold (old x.2) x.1.2)) _ (e, data, q)).
Qed.

Lemma wanted_none old es q : q ∉ es.*2 <-> wanted_files old es !! q = None.
Proof using Type.
  unfold wanted_files. rewrite <- not_elem_of_list_to_map. change (map ?f ?l) with (f <$> l).
  by rewrite <- list_fmap_compose.
Qed.

Lemma unit_entry es t :
  t ∈ units es -> exists e data q, (e, data, q) ∈ es /\ t ∈ entry_tasks chunk threshold e.
Proof using Type. unfold units. intros ([[e data] q] & Hx & Ht)%elem_of_bind. by exists e, data, q. Qed.

Lemma tasks_ok es tss :
  placed k root es -> concat tss ≡ₚ units es -> Forall (Forall (task_ok root sub block)) tss.
Proof using DLaws block_size chunk_pos.
  intros [Hes _] Hts. rewrite Forall_forall in Hes. apply Forall_concat. rewrite Hts. apply Forall_forall.
  intros t (e & data & q & Hx & Ht)%unit_entry.
  by apply (entry_task_ok k root chunk threshold block chunk_pos block_size e data q t (Hes _ Hx)).
Qed.

(** The tasks of the files, however they are shared out, are a plan for them. *)
Lemma tasks_plan {W} {Ops : FsOps W} {Laws : FsLaws W} es tss (w : W) :
  placed k root es -> concat tss ≡ₚ units es ->
  plan (wanted_files (fs_file w) es) w (map (map job_of) tss).
Proof using DLaws block_size chunk_pos threshold_pos.
  intros [Hes Hnd] Hts. rewrite Forall_forall in Hes.
  assert (Hjobs : concat (map (map job_of) tss) = map job_of (concat tss)) by (by rewrite concat_map).
  assert (Hin : forall e data q t, (e, data, q) ∈ es -> t ∈ entry_tasks chunk threshold e ->
    job_of t ∈ concat (map (map job_of) tss) /\ j_path (job_of t) = q).
  { intros e data q t Hx Ht. split.
    - rewrite Hjobs. apply list_elem_of_fmap_2. rewrite Hts. unfold units. apply elem_of_bind. by exists (e, data, q).
    - apply job_path. by apply (entry_task_ok k root chunk threshold block chunk_pos block_size e data q t (Hes _ Hx)). }
  split.
  - apply Forall_concat. rewrite Hjobs. apply Forall_fmap, Forall_forall. intros t Ht. rewrite Hts in Ht.
    destruct (unit_entry _ _ Ht) as (e & data & q & Hx & Hte). destruct (Hin _ _ _ _ Hx Hte) as [_ Hp].
    cbn. exists (rebuilt threshold (fs_file w q) data). rewrite Hp.
    split; [apply wanted_lookup; [done|by exists e, data]|].
    destruct (entry_units k root chunk threshold block chunk_pos threshold_pos block_size e data q (Hes _ Hx))
      as [(Hty & _ & Hslice & _ & Hbig)|(t' & E & Hty & Hd & Hsmall)].
    + rewrite Forall_forall in Hty. pose proof (Hty _ Hte) as Hc. rewrite rebuilt_big by done.
      assert (Hs : slice_of (data ++ drop (length data) (default [] (fs_file w q))) (unit_write k t)).
      { apply slice_grows. rewrite Forall_forall in Hslice. apply Hslice. by apply (list_elem_of_fmap_2 (unit_write k)). }
      pose proof (slice_bound _ _ Hs) as Hb. split; [apply Hs|]. split; [exact Hb|]. unfold job_of. by rewrite Hc.
    + rewrite rebuilt_small by done.
      rewrite E in Hte. apply list_elem_of_singleton in Hte as ->. unfold job_of, unit_base. cbn. rewrite Hty, Hd.
      cbn. by rewrite drop_0, firstn_all.
  - intros q want (e & data & Hx & ->)%wanted_lookup; [|done].
    destruct (entry_units k root chunk threshold block chunk_pos threshold_pos block_size e data q (Hes _ Hx))
      as [(_ & _ & _ & _ & Hbig)|(t & E & Hty & _)].
    + left. rewrite rebuilt_big by done. rewrite length_app, length_drop. lia.
    + right. exists (job_of t). destruct (Hin e data q t Hx) as [H1 H2]; [rewrite E; by left|].
      split_and!; [done|done|]. unfold job_of. by rewrite Hty.
  - intros q want (e & data & Hx & ->)%wanted_lookup; [|done].
    destruct (entry_units k root chunk threshold block chunk_pos threshold_pos block_size e data q (Hes _ Hx))
      as [(_ & Hne & _)|(t & E & _)].
    + destruct (entry_tasks chunk threshold e) as [|t l] eqn:El; [done|]. exists (job_of t).
      apply (Hin e data q t Hx). rewrite El. by left.
    + exists (job_of t). apply (Hin e data q t Hx). rewrite E. by left.
  - intros q want i (e & data & Hx & ->)%wanted_lookup Hi; [|done].
    destruct (entry_units k root chunk threshold block chunk_pos threshold_pos block_size e data q (Hes _ Hx))
      as [(_ & _ & _ & Hcov & Hbig)|(t & E & Hty & Hd & Hsmall)].
    + rewrite rebuilt_big in Hi |- * by done. destruct (decide (i < length data)%nat) as [Hlt|Hge]; [right|left; apply tail_there; lia].
      destruct (Hcov i Hlt) as (x & (t & -> & Ht)%list_elem_of_fmap & Hix). exists (job_of t).
      destruct (Hin e data q t Hx Ht). split_and!; try done; apply Hix.
    + right. rewrite rebuilt_small in Hi by done.
      exists (job_of t). destruct (Hin e data q t Hx) as [H1 H2]; [rewrite E; by left|]. split_and!; [done|done| |].
      * unfold job_of, unit_base. cbn. rewrite Hty. cbn. lia.
      * unfold job_of, unit_base. cbn. rewrite Hty, Hd. cbn. lia.
Qed.
End Jobs.

(** ** The connections *)

Section Served.
Context {N C D K F : Type} {Net : NetOps N} {Comp : Compressor C} {Dec : Decompressor D} {Up : NetUp N}.
Context {block : nat} {Codec : StreamCodec C D out_cap block}.
Context {Disk : DiskOps K F} {DLaws : DiskLaws K F} (k : K).
Variables (mode : Z) (flt : ProbeInfo -> bool) (blake3 : bytes -> bytes) (root : path).

Abbreviation sub := (submit k (fun p => p)).

(** The program of the consumer of a connection whose units are [us]. *)
Definition consumer_program (l : Peer (N := N) (C := C) (D := D)) (us : list UnitData) : Prog unit :=
  p_session (w_integrity (l_worker l)) root us.

(** The worker of [x] sends its tasks as [us]: on any file system, what the
    consumer does with the stream is what its program does. *)
Definition served_as (x : Peer (N := N) (C := C) (D := D) * list Task) (us : list UnitData) : Prop :=
  exists w' stream, process_all sub blake3 (l_worker x.1) x.2 = (w', true) /\
    net_sent (network (finish w')) = net_sent (network (l_worker x.1)) ++ stream /\
    forall (W : Type) (Ops : FsOps W) (w : W) (sink : FileSink), session_root_ sink = root ->
      let s := handle_upload mode (w_integrity (l_worker x.1)) flt (consumer_on w sink (l_decoder x.1) stream) in
      (world s, sink_ s) = (run (consumer_program x.1 us) (w, sink)).1.

Lemma link_served l ts :
  has_mode mode ModeAccept = false -> link_ok l -> Forall (task_ok root sub block) ts ->
  exists us, served_as (l, ts) us /\ Forall2 (unit_job root) us (map (job_of k root) ts).
Proof using Up Codec.
  intros Hmode [Hacc Hsync] Hts.
  destruct (client_wire sub blake3 ts (l_worker l) (l_decoder l) Hacc Hsync) as (w1 & stream & d' & Hp & Hsent & Hwire & _).
  { eapply Forall_impl; [exact Hts|]. intros t (_ & _ & _ & ?). done. }
  destruct (session_units _ _ _ _ _ _ Hwire) as (us & Hus & Hw). exists (session_data us). split.
  - exists w1, (stream ++ [unit_type_to_byte End]). split; [done|]. split.
    { cbn [fst]. unfold finish. destruct (w_enqueue_up w1 [unit_type_to_byte End]) as (w2 & -> & _ & _ & Hs2).
      cbn [fst]. by rewrite Hs2, Hsent, app_assoc. }
    intros W Ops w sink Hroot. unfold consumer_program. rewrite <- Hroot.
    eapply (handle_upload_runs mode _ flt sub us (consumer_on w sink (l_decoder l) (stream ++ [unit_type_to_byte End])));
      [done| |exact Hw|done].
    apply Forall_forall. intros [t outs] Hx. assert (Ht : t ∈ ts) by (rewrite <- Hus; by apply (list_elem_of_fmap_2 fst) in Hx).
    rewrite Forall_forall in Hts. destruct (Hts t Ht) as (Hgood & _ & (_ & Hb & Hfit) & _). cbn. split; [done|lia].
  - clear Hsent Hp. revert us Hus Hw. generalize (l_decoder l) as d, stream as st. clear stream Hwire Hsync.
    induction Hts as [|t ts Ht _ IH]; intros d st [|[t' outs] us] Hus Hw; try done.
    cbn [fmap list_fmap fst] in Hus. injection Hus as -> Hus. destruct Hw as (zs & d1 & st1 & _ & _ & _ & Hd & Hw).
    cbn [session_data map fst snd]. constructor; [by eapply task_job|]. by eapply IH.
Qed.

Lemma links_served (links : list (Peer (N := N) (C := C) (D := D))) tss :
  has_mode mode ModeAccept = false -> Forall link_ok links -> Forall (Forall (task_ok root sub block)) tss ->
  length links = length tss ->
  exists uss, Forall2 served_as (zip links tss) uss /\
    Forall2 (fun m js => keeps m (Idle, js)) (zip_with consumer_program links uss) (map (map (job_of k root)) tss).
Proof using Up Codec.
  intros Hmode Hlinks. revert tss. induction Hlinks as [|l links Hl _ IH]; intros [|ts tss] Htss Hlen; try done.
  { exists []. split; constructor. }
  apply Forall_cons in Htss as [Hts Htss]. destruct (IH tss Htss) as (uss & H1 & H2); [by injection Hlen|].
  destruct (link_served l ts Hmode Hl Hts) as (us & Hs & Hj). exists (us :: uss). split; [by constructor|].
  cbn. constructor; [|done]. by apply session_follows.
Qed.
End Served.

(** ** From disk to disk, all at once *)

(** C1: a concurrent backup arrives. Workers behind their handshakes send what
    the walk of the client's roots queued for them; the server has a consumer
    thread for each connection, all of them on one sink. Each thread makes, on
    any file system, exactly the calls of its program; the threads take turns
    call by call in any order, mutex included. If [start] reports success, then
    the threads cannot run for ever, and wherever none can go on all have ended
    (no deadlock), and every regular file that the globs keep, below directories
    that the globs keep, is on the server at the place its path resolves to below
    the session's directory, however it was cut into chunks and shared out. It is
    there byte for byte if it is below [bigFileThreshold], or if what the server
    had there before was not longer; a chunked file that has shrunk since an
    earlier backup into the same session keeps the end of its old contents, as
    [rebuilt] says, for the chunk files are opened without truncation. Nothing
    else on the server has changed. The conditions: chunk size and threshold are
    positive, no task is queued yet, and there is a connection for each worker;
    the files can be read, are below 2^63 bytes, differ in their places, and
    have paths that fit a task and resolve below the session's directory; the
    server is in its plain mode; the network does not fail and the server's file
    system does not refuse. *)
Theorem concurrent_backup_arrives {N C W D K F Ch : Type} {Net : NetOps N} {Comp : Compressor C} {Dec : Decompressor D}
    {Ops : FsOps W} {Laws : FsLaws W} {Rel : FsReliable W} {Up : NetUp N} {block : nat}
    {Codec : StreamCodec C D out_cap block} {Disk : DiskOps K F} {DLaws : DiskLaws K F}
    {ChOps : ChanOps Ch} {ChLaws : ChanLaws Ch}
    (mode : Z) (flt : ProbeInfo -> bool) (blake3 : bytes -> bytes) (k : K) (disk : bytes -> Dir)
    (content dest : bytes -> bytes) (specs : list (bytes * list FilterRule))
    (s : Scheduler Ch) (links : list (Peer (N := N) (C := C) (D := D))) (w : W) (sink : FileSink) :
  let root := session_root_ sink in
  0 < chunkSize s -> 0 < bigFileThreshold s -> READ_BLOCK <= Z.of_nat block -> all_tasks s = [] ->
  Forall (fun spec => sizes_ok (chunkSize s) (listing [] (disk spec.1))) specs ->
  (forall spec f, to_upload disk specs spec f ->
     uploadable k root (entry_of spec.1 f) (content (client_path spec f)) (dest (client_path spec f))) ->
  NoDup (all_places disk dest specs) ->
  has_mode mode ModeAccept = false -> sink_inv w sink -> Forall link_ok links -> length links = length (workers s) ->
  exists roots s' ok, add_roots [] specs = Some roots /\ start disk roots s = Some (s', ok) /\
    (ok = true -> exists uss, Forall2 (served_as k mode flt blake3 root) (zip links (ch_queue <$> workers s')) uss /\
       let pool := new_pool w sink (zip_with (consumer_program root) links uss) in
       Acc (fun b a => step a b) pool /\
       forall pool', rtc step pool pool' -> stuck pool' ->
         Forall (fun m => m = Ret tt) (threads pool') /\
         (forall spec f, to_upload disk specs spec f ->
            let old := fs_file w (dest (client_path spec f)) in
            let data := content (client_path spec f) in
            fs_file (shared pool').1 (dest (client_path spec f)) = Some (rebuilt (bigFileThreshold s) old data) /\
            (Z.of_nat (length data) < bigFileThreshold s \/ (length (default [] old) <= length data)%nat ->
             fs_file (shared pool').1 (dest (client_path spec f)) = Some data)) /\
         (forall q, (forall spec f, to_upload disk specs spec f -> q <> dest (client_path spec f)) ->
            fs_file (shared pool').1 q = fs_file w q)).
Proof.
  intros root Hchunk Hthr Hblock Hempty Hsz Hup Hnd Hmode Hinv Hlinks Hlen.
  destruct (add_roots_app specs []) as (roots & Er & Hr).
  destruct (start_queue disk specs roots s Hr Hchunk Hsz) as (s' & ok & Es & (_ & _ & Hw) & Hq).
  exists roots, s', ok. split; [done|]. split; [done|]. intros Hok.
  destruct (Hq Hok) as (fss & Hfss & Hp). rewrite Hempty, app_nil_r, (units_places _ _ content dest) in Hp.
  set (es := places content dest specs fss) in *.
  assert (Hes : forall x, x ∈ es <-> exists spec f, to_upload disk specs spec f /\ x = place content dest spec f)
    by (intros x; by apply elem_of_places).
  assert (Hplaced : placed k root es).
  { split.
    - apply Forall_forall. intros x (spec & f & Hf & ->)%Hes. by apply Hup.
    - eapply sublist_NoDup; [exact Hnd|]. by apply places_sublist. }
  set (tss := ch_queue <$> workers s') in *. change (concat tss ≡ₚ units (chunkSize s) (bigFileThreshold s) es) in Hp.
  destruct (links_served k mode flt blake3 root links tss Hmode Hlinks) as (uss & Hserved & Hkeep).
  { by eapply (tasks_ok k root (chunkSize s) (bigFileThreshold s) block). }
  { unfold tss. rewrite length_fmap. lia. }
  exists uss. split; [done|]. intros pool. split; [apply pool_terminates|]. intros pool' Hsteps Hstuck.
  destruct (interleaved (wanted_files (bigFileThreshold s) (fs_file w) es) (fun q => fs_file w q) w sink (map (map (job_of k root)) tss) _ pool'
    Hinv ltac:(by eapply (tasks_plan k root (chunkSize s) (bigFileThreshold s) block))
    (fun _ _ => eq_refl) Hkeep Hsteps Hstuck) as (Hdone & Hin & Hout).
  split; [done|]. split.
  - intros spec f Hf old data.
    assert (Hfile : fs_file (shared pool').1 (dest (client_path spec f)) = Some (rebuilt (bigFileThreshold s) old data)).
    { apply Hin. apply wanted_lookup; [apply Hplaced|]. exists (entry_of spec.1 f), data.
      split; [|done]. apply Hes. by exists spec, f. }
    split; [done|]. rewrite Hfile. intros [H|H]; [by rewrite rebuilt_small|by rewrite rebuilt_short].
  - intros q Hne. apply Hout. apply wanted_none. intros (x & -> & Hx)%list_elem_of_fmap.
    apply Hes in Hx as (spec & f & Hf & ->). by apply (Hne spec f).
Qed.

(** The small backup of [Backup], its two connections at the same time. *)
Lemma concurrent_backup_arrives_witness :
  let serves := served_as (Comp := @zstd_compressor unit Copy.encoder) (Dec := @zstd_decompressor unit Copy.decoder)
                  demo_contents 0 (fun _ => true) (fun b => b) demo_root in
  exists roots s' ok, add_roots [] demo_specs = Some roots /\
    start (Ops := ListChan.ops) demo_disk roots demo_scheduler = Some (s', ok) /\
    (ok = true -> exists uss,
       Forall2 serves (zip demo_links (ch_queue (ChanLaws := ListChan.laws) <$> workers s')) uss /\
       let pool := new_pool empty_fs (new_file_sink demo_root) (zip_with (consumer_program demo_root) demo_links uss) in
       Acc (fun b a => step a b) pool /\
       forall pool', rtc step pool pool' -> stuck pool' ->
         Forall (fun m => m = Ret tt) (threads pool') /\
         (forall spec f, to_upload demo_disk demo_specs spec f ->
            let old := fs_file empty_fs (demo_dest (client_path spec f)) in
            let data := demo_content (client_path spec f) in
            fs_file (shared pool').1 (demo_dest (client_path spec f)) =
              Some (rebuilt (bigFileThreshold demo_scheduler) old data) /\
            (Z.of_nat (length data) < bigFileThreshold demo_scheduler \/ (length (default [] old) <= length data)%nat ->
             fs_file (shared pool').1 (demo_dest (client_path spec f)) = Some data)) /\
         (forall q, (forall spec f, to_upload demo_disk demo_specs spec f -> q <> demo_dest (client_path spec f)) ->
            fs_file (shared pool').1 q = fs_file empty_fs q)).
Proof.
  apply (concurrent_backup_arrives (Codec := block_codec) (ChLaws := ListChan.laws) 0 (fun _ => true) (fun b => b)
    demo_contents demo_disk demo_content demo_dest demo_specs demo_scheduler demo_links empty_fs (new_file_sink demo_root)).
  - reflexivity.
  - reflexivity.
  - unfold demo_block. by rewrite Z2Nat.id.
  - reflexivity.
  - apply Forall_cons. split; [|by constructor]. unfold sizes_ok. cbn [demo_disk listing fst app].
    repeat (apply Forall_cons; split; [intros size E; cbn in E; simplify_eq; by split|]). constructor.
  - intros spec f (Hs & Hf & Hd & _). apply list_elem_of_singleton in Hs as ->.
    by apply demo_uploadable.
  - apply (bool_decide_unpack _). vm_compute. exact I.
  - reflexivity.
  - apply map_Forall_empty.
  - repeat constructor; hnf; exists [], []; repeat split.
  - reflexivity.
Defined.
