(* ===== verification/Http.v ===== *)
(** * Http: requests and response heads ([server/http.cxx])

    A request head is the text up to the first empty line; the parser works on
    [std::string::find], so its round trip is a statement about first
    occurrences. The response printer is checked with the same reader. *)

From S2P Require Import Prelude Text.

Record HttpRequest := {
  rq_method : bytes;
  rq_target : bytes;
  rq_path : bytes;
  rq_version : bytes;
  rq_headers : list (bytes * bytes);
}.

Definition new_request : HttpRequest :=
  {| rq_method := []; rq_target := []; rq_path := []; rq_version := []; rq_headers := [] |}.

(** [HttpRequest::header]. *)
Fixpoint find_header (headers : list (bytes * bytes)) (lower_name : bytes) : option bytes :=
  match headers with
  | [] => None
  | (name, value) :: headers =>
      if bool_decide (name = lower_name) then Some value else find_header headers lower_name
  end.

Definition header (r : HttpRequest) (lower_name : bytes) : option bytes :=
  find_header (rq_headers r) lower_name.

Definition blank_line : bytes := CRLF ++ CRLF.

Fixpoint header_end_from (data : bytes) (i : nat) : nat :=
  match data with
  | [] => 0
  | _ :: rest => if starts_with blank_line data then (i + 4)%nat else header_end_from rest (S i)
  end.

Definition http_header_end (data : bytes) : nat :=
  if (length data <? 4)%nat then 0 else header_end_from data 0.

(** The two loops of [trim] drop blanks at the front and at the back. *)
Definition is_blank (b : byte) : bool := bool_decide (b = sp) || bool_decide (b = tab).

Fixpoint drop_blanks (s : bytes) : bytes :=
  match s with
  | b :: s' => if is_blank b then drop_blanks s' else s
  | [] => []
  end.

Definition trim (s : bytes) : bytes := rev (drop_blanks (rev (drop_blanks s))).

Definition lower (s : bytes) : bytes := map tolower s.

Definition colon : byte := x3a.
Definition question : byte := x3f.

(** The header of one line, when it holds a colon. *)
Definition header_of_line (line : bytes) : option (bytes * bytes) :=
  match find_str [colon] line with
  | Some c => Some (lower (trim (take c line)), trim (drop (c + 1) line))
  | None => None
  end.

Definition add_header (out : HttpRequest) (h : option (bytes * bytes)) : HttpRequest :=
  match h with
  | Some h => {| rq_method := rq_method out; rq_target := rq_target out; rq_path := rq_path out;
                 rq_version := rq_version out; rq_headers := rq_headers out ++ [h] |}
  | None => out
  end.

(** [while (pos < text.size())]: [pos] grows by two at least, so [length text]
    iterations are enough. *)
Fixpoint header_loop (fuel : nat) (text : bytes) (pos : nat) (out : HttpRequest) : HttpRequest :=
  if (pos <? length text)%nat then
    match fuel with
    | O => out
    | S fuel =>
        let next := default (length text) (find_at CRLF text pos) in
        if (next =? pos)%nat then out
        else header_loop fuel text (next + 2)
               (add_header out (header_of_line (substr text pos (next - pos))))
    end
  else out.

Definition parse_http_request (text : bytes) (out : HttpRequest) : HttpRequest * bool :=
  match find_str CRLF text with
  | None => (out, false)
  | Some line_end =>
      let request_line := take line_end text in
      match find_str [sp] request_line with
      | None => (out, false)
      | Some sp1 =>
          match find_at [sp] request_line (sp1 + 1) with
          | None => (out, false)
          | Some sp2 =>
              let method := take sp1 request_line in
              let target := substr request_line (sp1 + 1) (sp2 - sp1 - 1) in
              let out := {| rq_method := method; rq_target := target; rq_path := rq_path out;
                            rq_version := drop (sp2 + 1) request_line;
                            rq_headers := rq_headers out |} in
              if bool_decide (method = []) || bool_decide (target = []) then (out, false)
              else
                let path := match find_str [question] target with
                            | None => target
                            | Some query => take query target
                            end in
                let out := {| rq_method := method; rq_target := target; rq_path := path;
                              rq_version := rq_version out; rq_headers := rq_headers out |} in
                (header_loop (length text) text (line_end + 2) out, true)
          end
      end
  end.

(** [content_length < 0] leaves the header out. *)
Definition http_response_headers (status : Z) (reason content_type : bytes)
    (content_length : Z) (extra : list (bytes * bytes)) : bytes :=
  let out := str "HTTP/1.1 " in
  let out := out ++ to_string status in
  let out := out ++ [sp] in
  let out := out ++ reason in
  let out := out ++ CRLF in
  let out := if bool_decide (content_type = []) then out
             else out ++ str "Content-Type: " ++ content_type ++ CRLF in
  let out := if content_length <? 0 then out
             else out ++ str "Content-Length: " ++ to_string content_length ++ CRLF in
  let out := out ++ str "Server: dicker" ++ CRLF in
  let out := fold_left (fun out h => out ++ h.1 ++ str ": " ++ h.2 ++ CRLF) extra out in
  out ++ CRLF.

Definition reason_phrase (status : Z) : bytes :=
  if status =? 200 then str "OK"
  else if status =? 201 then str "Created"
  else if status =? 204 then str "No Content"
  else if status =? 400 then str "Bad Request"
  else if status =? 401 then str "Unauthorized"
  else if status =? 403 then str "Forbidden"
  else if status =? 404 then str "Not Found"
  else if status =? 405 then str "Method Not Allowed"
  else if status =? 500 then str "Internal Server Error"
  else if (200 <=? status) && (status <? 300) then str "OK"
  else if (300 <=? status) && (status <? 400) then str "Redirect"
  else if (400 <=? status) && (status <? 500) then str "Client Error"
  else str "Server Error".

(** ** The end of a head *)

Lemma header_end_from_find data i :
  header_end_from data i =
  match find_str blank_line data with Some k => (i + k + 4)%nat | None => 0%nat end.
Proof.
  revert i. induction data as [|b data IH]; intros i; [done|].
  cbn [header_end_from find_str]. destruct (starts_with blank_line (b :: data)); [lia|].
  rewrite IH. destruct (find_str blank_line data); cbn [fmap option_fmap option_map]; lia.
Qed.

Lemma http_header_end_find data :
  http_header_end data =
  match find_str blank_line data with Some k => (k + 4)%nat | None => 0%nat end.
Proof.
  unfold http_header_end. rewrite header_end_from_find.
  destruct (Nat.ltb_spec (length data) 4); [|done].
  destruct (find_str blank_line data) eqn:E; [|done].
  apply find_str_bound in E. cbn in E. lia.
Qed.

(** ** Texts made of lines *)

Definition lines_text (lines : list bytes) : bytes := concat (map (fun l => l ++ CRLF) lines).

(** A line with no carriage return that is not the empty one. *)
Definition plain_line (l : bytes) : Prop := l <> [] /\ CR ∉ l.

Lemma lines_text_cons l lines : lines_text (l :: lines) = l ++ CRLF ++ lines_text lines.
Proof. unfold lines_text. cbn [map concat]. by rewrite <- app_assoc. Qed.

Lemma lines_text_app a b : lines_text (a ++ b) = lines_text a ++ lines_text b.
Proof. unfold lines_text. by rewrite map_app, concat_app. Qed.

Lemma blank_line_behind l r :
  CR ∉ l -> starts_with CRLF r = false ->
  find_str blank_line (l ++ CRLF ++ r) = (fun k => length l + 2 + k)%nat <$> find_str blank_line r.
Proof.
  unfold blank_line, CRLF. intros Hl Hr. induction l as [|b l IH]; cbn [app length find_str] in *.
  - rewrite !starts_with_cons, !bool_decide_eq_true_2, (bool_decide_eq_false_2 (CR = LF)), Hr by done.
    cbn [andb]. by destruct (find_str _ r).
  - apply not_elem_of_cons in Hl as [Hb Hl].
    rewrite starts_with_cons, bool_decide_eq_false_2 by done.
    cbn [andb]. rewrite (IH Hl). by destruct (find_str _ r).
Qed.

Lemma lines_not_blank lines r :
  Forall plain_line lines -> lines <> [] -> starts_with CRLF (lines_text lines ++ r) = false.
Proof.
  intros [|l ls [Hl Hcr] _] Hne; [done|]. rewrite lines_text_cons.
  destruct l as [|b l]; [done|]. apply not_elem_of_cons in Hcr as [Hb _].
  cbn [app]. unfold CRLF. by rewrite starts_with_cons, bool_decide_eq_false_2.
Qed.

Lemma header_end_lines lines body :
  Forall plain_line lines -> lines <> [] ->
  http_header_end (lines_text lines ++ CRLF ++ body) = length (lines_text lines ++ CRLF).
Proof.
  intros Hlines Hne. rewrite http_header_end_find.
  enough (find_str blank_line (lines_text lines ++ CRLF ++ body) =
          Some (length (lines_text lines) - 2)%nat) as ->.
  { destruct lines as [|l ls]; [done|]. rewrite lines_text_cons, !length_app. cbn. lia. }
  induction Hlines as [|l ls [Hl Hcr] Hls IH]; [done|].
  rewrite lines_text_cons, <- !app_assoc. destruct ls as [|l2 ls].
  - change (lines_text [] ++ CRLF ++ body) with (CRLF ++ body).
    pose proof (find_str_app CR [LF; CR; LF] l body Hcr) as E. cbn [app] in E.
    unfold blank_line, CRLF. cbn [app]. rewrite E. f_equal.
    rewrite length_app. cbn. lia.
  - rewrite blank_line_behind; [|done|by apply lines_not_blank].
    rewrite IH by done. cbn [fmap option_fmap option_map]. f_equal.
    rewrite lines_text_cons, !length_app. cbn. lia.
Qed.

(** ** The header loop on a text made of lines *)

Definition add_headers (out : HttpRequest) (lines : list bytes) : HttpRequest :=
  fold_left (fun out l => add_header out (header_of_line l)) lines out.

Lemma find_at_behind pat pre r k :
  find_str pat r = Some k -> find_at pat (pre ++ r) (length pre) = Some (length pre + k)%nat.
Proof. intros H. unfold find_at. by rewrite drop_app_length, H. Qed.

Lemma header_loop_lines fuel pre lines out :
  Forall plain_line lines -> (length lines < fuel)%nat ->
  header_loop fuel (pre ++ lines_text lines ++ CRLF) (length pre) out = add_headers out lines.
Proof.
  intros Hlines. revert fuel pre out. induction Hlines as [|l ls [Hl Hcr] Hls IH];
    intros fuel pre out Hf; (destruct fuel as [|fuel]; [cbn in Hf; lia|]); cbn [header_loop].
  - change (lines_text [] ++ CRLF) with CRLF. rewrite length_app. cbn [length CRLF].
    replace (length pre <? length pre + 2)%nat with true by (symmetry; apply Nat.ltb_lt; lia).
    rewrite (find_at_behind CRLF pre CRLF 0) by done. cbn [default id].
    by rewrite Nat.add_0_r, Nat.eqb_refl.
  - rewrite lines_text_cons, <- !app_assoc.
    replace (length pre <? length (pre ++ l ++ CRLF ++ lines_text ls ++ CRLF))%nat with true
      by (symmetry; apply Nat.ltb_lt; rewrite !length_app; cbn; lia).
    rewrite (find_at_behind CRLF pre _ (length l)) by (by apply find_str_app).
    cbn [default id]. replace (length pre + length l =? length pre)%nat with false
      by (symmetry; apply Nat.eqb_neq; destruct l; [done|cbn; lia]).
    unfold substr. rewrite drop_app_length.
    replace (length pre + length l - length pre)%nat with (length l) by lia.
    rewrite take_app_length. cbn [add_headers fold_left].
    specialize (IH fuel (pre ++ l ++ CRLF) (add_header out (header_of_line l))).
    rewrite <- !app_assoc in IH. rewrite !length_app in IH. cbn [length CRLF] in IH.
    rewrite <- Nat.add_assoc. apply IH. cbn in Hf. lia.
Qed.

Lemma add_headers_fields out lines :
  add_headers out lines =
  {| rq_method := rq_method out; rq_target := rq_target out; rq_path := rq_path out;
     rq_version := rq_version out; rq_headers := rq_headers out ++ omap header_of_line lines |}.
Proof.
  unfold add_headers. revert out. induction lines as [|l ls IH]; intros out; cbn [fold_left].
  - cbn [omap list_omap]. rewrite app_nil_r. by destruct out.
  - rewrite IH. cbn [omap list_omap]. destruct (header_of_line l) as [h|]; [|done].
    cbn [add_header rq_method rq_target rq_path rq_version rq_headers]. by rewrite <- app_assoc.
Qed.

(** ** Parsing a printed head *)

Definition cut_query (target : bytes) : bytes :=
  match find_str [question] target with None => target | Some query => take query target end.

Definition print_head (method target version : bytes) (lines : list bytes) : bytes :=
  lines_text ((method ++ [sp] ++ target ++ [sp] ++ version) :: lines) ++ CRLF.

(** A word of the request line. *)
Definition word_text (s : bytes) : Prop := s <> [] /\ sp ∉ s /\ CR ∉ s.

Lemma first_line_plain method target version :
  word_text method -> word_text target -> CR ∉ version ->
  plain_line (method ++ [sp] ++ target ++ [sp] ++ version).
Proof.
  intros (Hm & Hms & Hmc) (Ht & Hts & Htc) Hv. split.
  - destruct method; [done|discriminate].
  - rewrite !not_elem_of_app, !not_elem_of_cons. repeat split; try done; apply not_elem_of_nil.
Qed.

Lemma parse_print_head method target version lines out :
  word_text method -> word_text target -> CR ∉ version -> Forall plain_line lines ->
  parse_http_request (print_head method target version lines) out =
  ({| rq_method := method; rq_target := target; rq_path := cut_query target;
      rq_version := version; rq_headers := rq_headers out ++ omap header_of_line lines |}, true).
Proof.
  intros Hm Ht Hv Hlines. pose proof (first_line_plain _ _ _ Hm Ht Hv) as [_ Hcr].
  unfold parse_http_request, print_head. rewrite lines_text_cons, <- !app_assoc.
  set (line := method ++ [sp] ++ target ++ [sp] ++ version) in *.
  replace (method ++ [sp] ++ target ++ [sp] ++ version ++ CRLF ++ lines_text lines ++ CRLF)
    with (line ++ CRLF ++ lines_text lines ++ CRLF) by (unfold line; by rewrite <- !app_assoc).
  unfold CRLF at 1 2. rewrite (find_str_app CR [LF]) by done. fold CRLF.
  rewrite take_app_length. destruct Hm as (Hm & Hms & Hmc), Ht as (Ht & Hts & Htc).
  replace (find_str [sp] line) with (Some (length method))
    by (symmetry; by apply (find_str_app sp [])).
  assert (Hline : line = (method ++ [sp]) ++ target ++ [sp] ++ version)
    by (unfold line; by rewrite <- !app_assoc).
  replace (find_at [sp] line (length method + 1)) with
    (Some (length method + 1 + length target)%nat).
  2:{ rewrite Hline. replace (length method + 1)%nat with (length (method ++ [sp]))
        by (rewrite length_app; done). symmetry. apply find_at_behind. by apply (find_str_app sp []). }
  cbn [rq_path rq_version rq_headers].
  replace (take (length method) line) with method by (unfold line; by rewrite take_app_length).
  assert (Hd : drop (length method + 1) line = target ++ [sp] ++ version).
  { rewrite Hline. replace (length method + 1)%nat with (length (method ++ [sp]))
      by (rewrite length_app; done). by rewrite drop_app_length. }
  replace (substr line (length method + 1) (length method + 1 + length target - length method - 1))
    with target.
  2:{ unfold substr. rewrite Hd. replace (length method + 1 + length target - length method - 1)%nat
        with (length target) by lia. by rewrite take_app_length. }
  replace (drop (length method + 1 + length target + 1) line) with version.
  2:{ replace (length method + 1 + length target + 1)%nat with
        (length method + 1 + (length (target ++ [sp])))%nat by (rewrite length_app; cbn; lia).
      rewrite <- drop_drop, Hd, app_assoc. by rewrite drop_app_length. }
  rewrite !bool_decide_eq_false_2 by done. cbn [orb]. f_equal.
  pose proof (header_loop_lines (length (line ++ CRLF ++ lines_text lines ++ CRLF)) (line ++ CRLF)
    lines {| rq_method := method; rq_target := target; rq_path := cut_query target;
             rq_version := version; rq_headers := rq_headers out |} Hlines) as E.
  rewrite <- app_assoc, (length_app line CRLF) in E. cbn [length CRLF] in E. cbv zeta.
  unfold cut_query in *. rewrite E; [by rewrite add_headers_fields|].
  rewrite !length_app. cbn [length CRLF].
  enough (length lines <= length (lines_text lines))%nat by lia. clear.
  induction lines as [|l ls IH]; [done|]. rewrite lines_text_cons, !length_app. cbn. lia.
Qed.

(** ** Header lines *)

Definition header_line (h : bytes * bytes) : bytes := h.1 ++ colon :: sp :: h.2.

(** A text the reader keeps as it is: no carriage return, no blank around it. *)
Definition kept_text (s : bytes) : Prop := CR ∉ s /\ trim s = s.

Record clean_header (h : bytes * bytes) : Prop := {
  clean_name : kept_text h.1;
  clean_colon : colon ∉ h.1;
  clean_lower : lower h.1 = h.1;
  clean_value : kept_text h.2;
}.

Lemma trim_blank_front s : trim (sp :: s) = trim s.
Proof. reflexivity. Qed.

(** Absence of a byte from a literal, by computation. *)
Ltac absent := apply (bool_decide_unpack _); vm_compute; exact I.

Lemma header_of_line_split n v :
  colon ∉ n -> header_of_line (n ++ colon :: sp :: v) = Some (lower (trim n), trim v).
Proof.
  intros Hc. unfold header_of_line.
  change (n ++ colon :: sp :: v) with (n ++ [colon] ++ sp :: v).
  rewrite (find_str_app colon []) by done. rewrite take_app_length.
  replace (length n + 1)%nat with (length (n ++ [colon])) by (rewrite length_app; done).
  by rewrite app_assoc, drop_app_length, trim_blank_front.
Qed.

Lemma trim_solid s : forallb (fun b => negb (is_blank b)) s = true -> trim s = s.
Proof.
  assert (H : forall s, forallb (fun b => negb (is_blank b)) s = true -> drop_blanks s = s).
  { intros [|b s']; [done|]. cbn [forallb drop_blanks]. by destruct (is_blank b). }
  intros Hs. unfold trim. rewrite (H s Hs), H; [by apply rev_involutive|].
  rewrite forallb_forall in *. intros x Hx. apply Hs. by apply in_rev.
Qed.

Lemma digits_solid s : forallb is_digit s = true -> trim s = s.
Proof.
  intros H. apply trim_solid. rewrite forallb_forall in *. intros b Hb.
  specialize (H b Hb). unfold is_blank, negb. by destruct b.
Qed.

Lemma header_of_clean_line h : clean_header h -> header_of_line (header_line h) = Some h.
Proof.
  destruct h as [n v]. intros [[Hn1 Hn2] Hc Hl [Hv1 Hv2]]. cbn [fst snd] in *.
  unfold header_line. cbn [fst snd]. by rewrite header_of_line_split, Hn2, Hl, Hv2.
Qed.

Lemma clean_line_plain h : clean_header h -> plain_line (header_line h).
Proof.
  destruct h as [n v]. intros [[Hn _] _ _ [Hv _]]. split; [by destruct n|].
  unfold header_line. cbn [fst snd] in *. rewrite not_elem_of_app, !not_elem_of_cons.
  repeat split; done.
Qed.

Lemma clean_lines hs :
  Forall clean_header hs ->
  Forall plain_line (map header_line hs) /\ omap header_of_line (map header_line hs) = hs.
Proof.
  induction 1 as [|h hs Hh _ [IH1 IH2]]; [done|]. cbn [map]. split.
  - constructor; [by apply clean_line_plain|done].
  - change (omap header_of_line (header_line h :: map header_line hs) = h :: hs).
    cbn [omap list_omap]. rewrite header_of_clean_line by done. f_equal. exact IH2.
Qed.

(** The head the server looks for ends with the first empty line of the
    data: the result is the position behind it, and 0 exactly when no empty
    line has arrived yet. *)
Theorem http_header_end_first (data : bytes) :
  (http_header_end data = 0%nat <-> forall j, starts_with blank_line (drop j data) = false) /\
  (forall k, http_header_end data = (k + 4)%nat <->
     starts_with blank_line (drop k data) = true /\
     forall j, (j < k)%nat -> starts_with blank_line (drop j data) = false).
Proof.
  rewrite http_header_end_find. split.
  - rewrite <- find_str_None. destruct (find_str blank_line data); split; try done; lia.
  - intros k. destruct (find_str blank_line data) as [i|] eqn:E.
    + apply find_str_Some in E as (E1 & E2 & E3). split.
      * intros H. assert (i = k) as -> by lia. done.
      * intros [H1 H2]. destruct (Nat.lt_trichotomy i k) as [H|[->|H]]; [|done|].
        -- rewrite H2 in E1 by done. done.
        -- rewrite E3 in H1 by done. done.
    + rewrite find_str_None in E. rewrite E. split; [lia|]. by intros [? _].
Qed.

(** C30: a request written with one space between its words and [": "] in its
    headers, whatever follows it, is recognised at its exact length and parsed
    back to its method, target, version and headers in order. *)
Theorem http_request_round_trip (method target version rest : bytes) (hs : list (bytes * bytes)) :
  word_text method -> word_text target -> CR ∉ version -> Forall clean_header hs ->
  let head := print_head method target version (map header_line hs) in
  http_header_end (head ++ rest) = length head /\
  parse_http_request (take (http_header_end (head ++ rest)) (head ++ rest)) new_request =
  ({| rq_method := method; rq_target := target; rq_path := cut_query target;
      rq_version := version; rq_headers := hs |}, true).
Proof.
  intros Hm Ht Hv Hhs head. destruct (clean_lines hs Hhs) as [Hp Ho].
  assert (E : http_header_end (head ++ rest) = length head).
  { unfold head, print_head. rewrite <- app_assoc. apply header_end_lines; [|done].
    constructor; [by apply first_line_plain|done]. }
  split; [done|]. rewrite E, take_app_length. unfold head.
  rewrite parse_print_head by done. by rewrite Ho.
Qed.

(** ** Responses *)

Lemma response_lines status reason content_type content_length extra :
  0 <= content_length ->
  http_response_headers status reason content_type content_length extra =
  lines_text ([str "HTTP/1.1 " ++ to_string status ++ [sp] ++ reason] ++
              (if bool_decide (content_type = []) then [] else [str "Content-Type: " ++ content_type]) ++
              [str "Content-Length: " ++ to_string content_length; str "Server: dicker"] ++
              map header_line extra) ++ CRLF.
Proof.
  intros Hl. unfold http_response_headers. replace (content_length <? 0) with false by lia.
  cbv zeta. f_equal.
  assert (Hfold : forall e o, fold_left (fun out h => out ++ h.1 ++ str ": " ++ h.2 ++ CRLF) e o =
    o ++ lines_text (map header_line e)).
  { induction e as [|h e IH]; intros o; cbn [fold_left map].
    - unfold lines_text. cbn [map concat]. by rewrite app_nil_r.
    - rewrite IH, lines_text_cons. unfold header_line. by rewrite <- !app_assoc. }
  rewrite Hfold, !lines_text_app. destruct (bool_decide (content_type = [])).
  - unfold lines_text. cbn [map concat]. by rewrite !app_nil_r, <- !app_assoc.
  - unfold lines_text. cbn [map concat]. by rewrite !app_nil_r, <- !app_assoc.
Qed.

(** A response head with fields free of carriage returns is framed: its
    reader finds the body right behind it and, in the headers, the body's
    length, whatever the body is. *)
Theorem http_response_framed (status : Z) (reason content_type body : bytes)
    (extra : list (bytes * bytes)) :
  0 <= status -> CR ∉ reason -> CR ∉ content_type -> Forall (fun h => CR ∉ h.1 /\ CR ∉ h.2) extra ->
  let head := http_response_headers status reason content_type (Z.of_nat (length body)) extra in
  http_header_end (head ++ body) = length head /\
  header (parse_http_request head new_request).1 (str "content-length") =
    Some (to_string (Z.of_nat (length body))).
Proof.
  intros Hs Hr Hc He head. unfold head. rewrite response_lines by lia.
  set (tail := _ ++ [str "Content-Length: " ++ _; _] ++ _).
  assert (Hav : forall z, 0 <= z -> CR ∉ to_string z) by (intros; by apply to_string_avoids).
  assert (Hlen : plain_line (str "Content-Length: " ++ to_string (Z.of_nat (length body)))).
  { split; [done|]. rewrite not_elem_of_app. split; [absent|].
    apply Hav. lia. }
  assert (Htail : Forall plain_line tail).
  { unfold tail. rewrite !Forall_app. repeat split.
    - destruct (bool_decide (content_type = [])); [done|]. constructor; [|done]. split; [done|].
      rewrite not_elem_of_app. split; [|done]. absent.
    - constructor; [done|]. constructor; [|done]. split; [done|]. absent.
    - apply Forall_map. eapply Forall_impl; [exact He|]. intros [n v] [Hn Hv]. cbn [fst snd] in *.
      split; [by destruct n|]. unfold header_line. cbn [fst snd].
      rewrite not_elem_of_app, !not_elem_of_cons. done. }
  assert (Hword : word_text (str "HTTP/1.1") /\ word_text (to_string status)).
  { split; [|split; [|split; by apply to_string_avoids]].
    - split; [done|]. split; absent.
    - intros E. apply (f_equal length) in E. revert E. unfold to_string.
      replace (status <? 0) with false by lia. cbn [dec_digits].
      assert (H : forall f z a, (length a <= length (dec_digits f z a))%nat).
      { induction f as [|f IH]; intros z a; [done|]. cbn [dec_digits].
        destruct (z <? 10); [cbn; lia|]. etransitivity; [|apply IH]. cbn. lia. }
      destruct (status <? 10); [done|]. specialize (H (Z.to_nat (Z.log2 status)) (status / 10) [digit (status mod 10)]).
      cbn in *. lia. }
  destruct Hword as [Hw1 Hw2]. split.
  - rewrite <- app_assoc. apply header_end_lines; [|done]. cbn [app]. constructor; [|done].
    change (str "HTTP/1.1 ") with (str "HTTP/1.1" ++ [sp]). rewrite <- app_assoc.
    by apply first_line_plain.
  - pose proof (parse_print_head (str "HTTP/1.1") (to_string status) reason tail new_request
      Hw1 Hw2 Hr Htail) as E.
    unfold print_head in E. cbn [app].
    change (str "HTTP/1.1 ") with (str "HTTP/1.1" ++ [sp]).
    rewrite <- app_assoc. cbn [app] in E |- *. rewrite E.
    unfold header. cbn [fst rq_headers new_request app]. unfold tail.
    change (str "Content-Length: ") with (str "Content-Length" ++ [colon; sp]).
    change (str "Content-Type: ") with (str "Content-Type" ++ [colon; sp]).
    rewrite <- !app_assoc. cbn [app].
    assert (Hcl := header_of_line_split (str "Content-Length") (to_string (Z.of_nat (length body))) ltac:(absent)).
    assert (Hct := header_of_line_split (str "Content-Type") content_type ltac:(absent)).
    rewrite (digits_solid (to_string (Z.of_nat (length body)))) in Hcl by (apply to_string_digits; lia).
    destruct (bool_decide (content_type = [])); cbn [app omap list_omap];
      rewrite ?Hct, Hcl; reflexivity.
Qed.

(** ** Concrete inputs *)

Lemma http_request_round_trip_witness :
  let hs := [(str "host", str "example.org:7000"); (str "authorization", str "Bearer 0a1b")] in
  let head := print_head (str "GET") (str "/uploads?x=1") (str "HTTP/1.1") (map header_line hs) in
  http_header_end (head ++ str "tail") = length head /\
  parse_http_request (take (http_header_end (head ++ str "tail")) (head ++ str "tail")) new_request =
  ({| rq_method := str "GET"; rq_target := str "/uploads?x=1"; rq_path := str "/uploads";
      rq_version := str "HTTP/1.1"; rq_headers := hs |}, true).
Proof.
  apply (http_request_round_trip (str "GET") (str "/uploads?x=1") (str "HTTP/1.1") (str "tail")
    [(str "host", str "example.org:7000"); (str "authorization", str "Bearer 0a1b")]);
    [repeat split; try done; absent|repeat split; try done; absent|absent|].
  repeat constructor; try done; absent.
Defined.

Lemma http_response_framed_witness :
  let head := http_response_headers 405 (reason_phrase 405) (str "text/plain; charset=utf-8")
                (Z.of_nat (length (str "method not allowed"))) [(str "Connection", str "close")] in
  http_header_end (head ++ str "method not allowed") = length head /\
  header (parse_http_request head new_request).1 (str "content-length") = Some (str "18").
Proof.
  apply (http_response_framed 405 (reason_phrase 405) (str "text/plain; charset=utf-8")
    (str "method not allowed") [(str "Connection", str "close")]); [done|absent|absent|].
  repeat constructor; cbn [fst snd]; absent.
Defined.
