(* ===== verification/CNum.v ===== *)
(** * CNum: numbers on the command line ([parseSize] of [client/cli.cxx])

    [strtoul], [atoi] and [strtod] of the C library, and [parseSize], which
    multiplies what [strtod] gives by the unit behind it. A double is the
    library's [spec_float] with 53 digits and exponents below 1024; [strtod]
    rounds to the nearest one, ties to even, as the product does. *)

From S2P Require Import Prelude Text.
From Stdlib Require Import SpecFloat.

(** What a parser of a command line comes to; [Overflow]: a number that the C
    library has no defined result for. *)
Inductive parsed (A E : Type) := Parsed (a : A) | Refused (e : E) | Overflow.
Arguments Parsed {A E} a.
Arguments Refused {A E} e.
Arguments Overflow {A E}.

(** ** Integers *)

(** [isspace] in the C locale. *)
Definition is_space (b : byte) : bool := ((9 <=? b2z b) && (b2z b <=? 13)) || (b2z b =? 32).

Fixpoint skip_spaces (s : bytes) : bytes :=
  match s with
  | b :: s' => if is_space b then skip_spaces s' else s
  | [] => []
  end.

(** An optional sign: whether it is a minus. *)
Definition sign_of (s : bytes) : bool * bytes :=
  match s with
  | b :: s' => if bool_decide (b = x2d) then (true, s') else if bool_decide (b = x2b) then (false, s') else (false, s)
  | [] => (false, [])
  end.

Definition ULONG_MAX : Z := 2 ^ 64 - 1.

(** [std::strtoul] and [std::strtoull] with base 10, both of 64 bits. *)
Definition strtoul (s : bytes) : Z :=
  let '(neg, s) := sign_of (skip_spaces s) in
  let v := atoi_digits s 0 in
  if ULONG_MAX <? v then ULONG_MAX else if neg then wrap 64 (- v) else v.

(** [std::atoi]; [None]: the value is not an [int], which has no defined result. *)
Definition atoi (s : bytes) : option Z :=
  let '(neg, s) := sign_of (skip_spaces s) in
  let v := if neg then - atoi_digits s 0 else atoi_digits s 0 in
  if (- 2 ^ 31 <=? v) && (v <? 2 ^ 31) then Some v else None.

(** ** Doubles *)

Definition double_prec : Z := 53.
Definition double_emax : Z := 1024.

Definition double_of (n : Z) : spec_float := binary_normalize double_prec double_emax n 0 false.

(** The double nearest to [m * 2 ^ e]. *)
Definition binary_double (neg : bool) (m e : Z) : spec_float :=
  match m with
  | Zpos p => binary_round double_prec double_emax neg p e
  | _ => S754_zero neg
  end.

(** The double nearest to [m * 10 ^ e]. *)
Definition decimal_double (neg : bool) (m e : Z) : spec_float :=
  if m =? 0 then S754_zero neg
  else if 0 <=? e then binary_double neg (m * 10 ^ e) 0
  else
    let '(q, e', l) := SFdiv_core_binary double_prec double_emax m 0 (10 ^ (- e)) 0 in
    binary_round_aux double_prec double_emax neg q e' l.

(** A run of digits: the value with them, how many, and the rest. *)
Fixpoint digits (value : byte -> option Z) (base : Z) (s : bytes) (acc : Z) : Z * nat * bytes :=
  match s with
  | b :: s' =>
      match value b with
      | Some d => let '(v, n, r) := digits value base s' (acc * base + d) in (v, S n, r)
      | None => (acc, 0%nat, s)
      end
  | [] => (acc, 0%nat, [])
  end.

Definition dec_value (b : byte) : option Z := if is_digit b then Some (b2z b - 48) else None.

(** Digits with an optional point, at least one digit: the value without the
    point and the number of digits behind it. *)
Definition significand (value : byte -> option Z) (base : Z) (s : bytes) : option (Z * nat * bytes) :=
  let '(v, n, r) := digits value base s 0 in
  match r with
  | b :: r' =>
      if bool_decide (b = x2e) then
        let '(v, k, r) := digits value base r' v in
        if (n + k =? 0)%nat then None else Some (v, k, r)
      else if (n =? 0)%nat then None else Some (v, 0%nat, r)
  | [] => if (n =? 0)%nat then None else Some (v, 0%nat, [])
  end.

(** An optional exponent behind its letter; one without digits is not taken. *)
Definition exponent (letter : byte) (s : bytes) : Z * bytes :=
  match s with
  | b :: s' =>
      if bool_decide (tolower b = letter) then
        let '(neg, t) := sign_of s' in
        let '(v, n, r) := digits dec_value 10 t 0 in
        if (n =? 0)%nat then (0, s) else (if neg then - v else v, r)
      else (0, s)
  | [] => (0, [])
  end.

Definition has_word (w s : bytes) : bool := bool_decide (map tolower (take (length w) s) = w).

(** The optional characters in parentheses behind [nan]. *)
Definition word_char (b : byte) : bool :=
  is_digit b || ((97 <=? b2z (tolower b)) && (b2z (tolower b) <=? 122)) || bool_decide (b = x5f).

Fixpoint skip_word (s : bytes) : bytes :=
  match s with
  | b :: s' => if word_char b then skip_word s' else s
  | [] => []
  end.

Definition nan_tail (s : bytes) : bytes :=
  match s with
  | b :: s' =>
      if bool_decide (b = x28) then
        match skip_word s' with
        | c :: r => if bool_decide (c = x29) then r else s
        | [] => s
        end
      else s
  | [] => []
  end.

(** [0x] and a significand; the digits behind the point count four bits each. *)
Definition hex_number (neg : bool) (s : bytes) : option (spec_float * bytes) :=
  if has_word (str "0x") s then
    match significand nibble 16 (drop 2 s) with
    | Some (m, k, r) => let '(e, r) := exponent x70 r in Some (binary_double neg m (e - 4 * Z.of_nat k), r)
    | None => None
    end
  else None.

Definition dec_number (neg : bool) (s : bytes) : option (spec_float * bytes) :=
  match significand dec_value 10 s with
  | Some (m, k, r) => let '(e, r) := exponent x65 r in Some (decimal_double neg m (e - Z.of_nat k), r)
  | None => None
  end.

(** [std::strtod]: the value and where it stopped. *)
Definition strtod (s : bytes) : spec_float * bytes :=
  let '(neg, t) := sign_of (skip_spaces s) in
  if has_word (str "infinity") t then (S754_infinity neg, drop 8 t)
  else if has_word (str "inf") t then (S754_infinity neg, drop 3 t)
  else if has_word (str "nan") t then (S754_nan, nan_tail (drop 3 t))
  else
    match hex_number neg t with
    | Some r => r
    | None => match dec_number neg t with Some r => r | None => (S754_zero false, s) end
    end.

(** ** [parseSize] *)

(** [static_cast<std::size_t>]: the fraction is dropped; [None]: what is left
    does not fit, which has no defined result. *)
Definition to_size (v : spec_float) : option Z :=
  match v with
  | S754_zero _ => Some 0
  | S754_finite neg m e =>
      let t := if 0 <=? e then Zpos m * 2 ^ e else Zpos m / 2 ^ (- e) in
      let t := if neg then - t else t in
      if (0 <=? t) && (t <? 2 ^ 64) then Some t else None
  | _ => None
  end.

Definition size_unit (rest : bytes) : Z :=
  match rest with
  | b :: _ =>
      if bool_decide (tolower b = x6b) then 1024
      else if bool_decide (tolower b = x6d) then 1024 * 1024
      else if bool_decide (tolower b = x67) then 1024 * 1024 * 1024
      else 1
  | [] => 1
  end.

Definition parseSize (s : bytes) : option Z :=
  let '(v, rest) := strtod s in
  to_size (SFmul double_prec double_emax v (double_of (size_unit rest))).

Example parse_sizes :
  map parseSize [str "256M"; str "64mb"; str "1.5G"; str "0.1k"; str " +1e3"; str "0x10"; str "0x"; str "abc"; str "-0.5"] =
  Some <$> [268435456; 67108864; 1610612736; 102; 1000; 16; 0; 0; 0].
Proof. vm_compute. reflexivity. Qed.

(** The fraction 0.1 is the double nearest to it, 2^53 + 1 is rounded to even,
    and a size of 2^64 or more, a negative one and [inf] have no defined value. *)
Example strtod_rounds :
  strtod (str "0.1k") = (S754_finite false 7205759403792794 (-56), str "k") /\
  parseSize (str "9007199254740993") = Some (2 ^ 53) /\
  map parseSize [str "16777216T"; str "17179869184G"; str "-1"; str "inf"; str "nan(1)"] =
  [Some 16777216; None; None; None; None].
Proof. vm_compute. done. Qed.

(** ** Values that a double holds exactly *)

Lemma digits2_log2 p : Zpos (digits2_pos p) = Z.log2 (Zpos p) + 1.
Proof.
  induction p as [p IH|p IH|]; cbn [digits2_pos]; [| |done]; rewrite Pos2Z.inj_succ, IH.
  - rewrite (Pos2Z.inj_xI p), Z.log2_succ_double by lia. lia.
  - rewrite (Pos2Z.inj_xO p), Z.log2_double by lia. lia.
Qed.

Lemma shr_exact j m : 0 < m ->
  iter_pos shr_1 j {| shr_m := m * 2 ^ Zpos j; shr_r := false; shr_s := false |} =
  {| shr_m := m; shr_r := false; shr_s := false |}.
Proof.
  assert (Hone : forall n, 0 < n -> shr_1 {| shr_m := 2 * n; shr_r := false; shr_s := false |} =
    {| shr_m := n; shr_r := false; shr_s := false |}) by (by intros [|n|n]).
  revert m. induction j as [j IH|j IH|]; intros m Hm; cbn [iter_pos].
  - replace (m * 2 ^ Zpos j~1) with (2 * (m * 2 ^ Zpos j * 2 ^ Zpos j)).
    + rewrite Hone by (apply Z.mul_pos_pos; lia). rewrite IH by lia. by apply IH.
    + rewrite (Pos2Z.inj_xI j), Z.pow_add_r, (Z.mul_comm 2 (Zpos j)), Z.pow_mul_r, (Z.pow_2_r (2 ^ Zpos j)) by lia. lia.
  - replace (m * 2 ^ Zpos j~0) with (m * 2 ^ Zpos j * 2 ^ Zpos j).
    + rewrite IH by lia. by apply IH.
    + rewrite (Pos2Z.inj_xO j), (Z.mul_comm 2 (Zpos j)), Z.pow_mul_r, (Z.pow_2_r (2 ^ Zpos j)) by lia. lia.
  - replace (m * 2 ^ 1) with (2 * m) by lia. by apply Hone.
Qed.

(** A significand of 53 bits with zeros behind it is not rounded. *)
Lemma round_exact neg p j e :
  2 ^ 52 <= Zpos p < 2 ^ 53 -> 0 <= j -> -1074 <= e + j <= 971 ->
  binary_round_aux double_prec double_emax neg (Zpos p * 2 ^ j) e loc_Exact = S754_finite neg p (e + j).
Proof.
  intros Hp Hj He.
  assert (Hlog : forall i, 0 <= i -> Zdigits2 (Zpos p * 2 ^ i) = 53 + i).
  { intros i Hi. assert (0 < Zpos p * 2 ^ i) by (apply Z.mul_pos_pos; lia).
    destruct (Zpos p * 2 ^ i) as [|q|q] eqn:E; [lia| |lia]. cbn [Zdigits2].
    rewrite digits2_log2, <- E, Z.log2_mul_pow2 by lia.
    rewrite (Z.log2_unique (Zpos p) 52) by (rewrite ?Z.pow_succ_r; lia). lia. }
  assert (Hshr : forall i, 0 <= i -> -1074 <= e + j <= 971 ->
    shr_fexp double_prec double_emax (Zpos p * 2 ^ i) (e + j - i) loc_Exact =
    ({| shr_m := Zpos p; shr_r := false; shr_s := false |}, e + j)).
  { intros i Hi _. unfold shr_fexp. rewrite Hlog by done. cbn [shr_record_of_loc].
    replace (fexp double_prec double_emax (53 + i + (e + j - i)) - (e + j - i)) with i
      by (unfold fexp, emin, double_prec, double_emax; lia).
    unfold shr. destruct i as [|i|i]; [|rewrite shr_exact by lia; f_equal; lia|lia].
    rewrite Z.mul_1_r. f_equal. lia. }
  unfold binary_round_aux. pose proof (Hshr j Hj He) as H1. replace (e + j - j) with e in H1 by lia.
  rewrite H1. cbn [shr_m loc_of_shr_record round_nearest_even].
  pose proof (Hshr 0 ltac:(lia) He) as H2. rewrite Z.mul_1_r, Z.sub_0_r in H2. rewrite H2. cbn [shr_m].
  unfold double_emax, double_prec. by replace (e + j <=? 1024 - 53) with true by lia.
Qed.

Lemma iter_xO p n : Zpos (Pos.iter xO p n) = Zpos p * 2 ^ Zpos n.
Proof.
  induction n as [|n IH] using Pos.peano_ind; [cbn; lia|].
  rewrite Pos.iter_succ, Pos2Z.inj_xO, IH, Pos2Z.inj_succ, Z.pow_succ_r by lia. lia.
Qed.

(** An integer below 2^53 as a double: shifted until it has 53 bits. *)
Lemma integer_double n : 0 < n < 2 ^ 53 -> exists p d,
  binary_double false n 0 = S754_finite false p (- d) /\ Zpos p = n * 2 ^ d /\ 0 <= d <= 52 /\
  2 ^ 52 <= Zpos p < 2 ^ 53.
Proof.
  intros Hn. destruct n as [|n|n]; [lia| |lia]. pose proof (Z.log2_spec (Zpos n) ltac:(lia)) as [Hl Hu].
  assert (Z.log2 (Zpos n) < 53) by (apply Z.log2_lt_pow2; lia). pose proof (Z.log2_nonneg (Zpos n)).
  set (d := 52 - Z.log2 (Zpos n)).
  assert (Hr : 2 ^ 52 <= Zpos n * 2 ^ d < 2 ^ 53).
  { assert (Hp : forall a, 0 <= a -> 2 ^ (a + d) = 2 ^ a * 2 ^ d) by (intros; apply Z.pow_add_r; lia).
    pose proof (Hp (Z.log2 (Zpos n)) ltac:(lia)) as H1. pose proof (Hp (Z.succ (Z.log2 (Zpos n))) ltac:(lia)) as H2.
    replace (Z.log2 (Zpos n) + d) with 52 in H1 by lia.
    replace (Z.succ (Z.log2 (Zpos n)) + d) with 53 in H2 by lia.
    assert (0 < 2 ^ d) by (apply Z.pow_pos_nonneg; lia). nia. }
  assert (0 <= d <= 52) by lia. cbn [binary_double]. unfold binary_round. rewrite digits2_log2.
  replace (fexp double_prec double_emax (Z.log2 (Zpos n) + 1 + 0)) with (- d)
    by (unfold fexp, emin, double_prec, double_emax; lia). clearbody d.
  unfold shl_align. rewrite Z.sub_0_r. destruct d as [|d'|d'] eqn:Ed; cbn [Z.opp].
  - rewrite Z.mul_1_r in Hr. exists n, 0. split; [|lia].
    pose proof (round_exact false n 0 0 Hr ltac:(lia) ltac:(lia)) as E. by rewrite Z.mul_1_r in E.
  - exists (Pos.iter xO n d'), (Zpos d'). rewrite <- iter_xO in Hr. split; [|split; [apply iter_xO|lia]].
    pose proof (round_exact false (Pos.iter xO n d') 0 (Z.neg d') Hr ltac:(lia) ltac:(lia)) as E.
    by rewrite Z.mul_1_r, Z.add_0_r in E.
  - lia.
Qed.

Lemma unit_double k : 0 <= k <= 52 -> double_of (2 ^ k) = S754_finite false (2 ^ 52) (k - 52).
Proof.
  intros Hk. destruct (integer_double (2 ^ k)) as (p & d & E & Hp & Hd & Hr).
  { split; [apply Z.pow_pos_nonneg; lia|apply Z.pow_lt_mono_r; lia]. }
  assert (d = 52 - k) as ->.
  { rewrite Hp, <- Z.pow_add_r in Hr by lia. destruct Hr as [H1 H2].
    apply Z.pow_le_mono_r_iff in H1; [|lia..]. apply Z.pow_lt_mono_r_iff in H2; lia. }
  assert (p = 2 ^ 52)%positive as ->.
  { apply Pos2Z.inj. rewrite Hp, <- Z.pow_add_r by lia. by replace (k + (52 - k)) with 52 by lia. }
  unfold double_of, binary_normalize. unfold binary_double in E.
  assert (0 < 2 ^ k) by (apply Z.pow_pos_nonneg; lia). destruct (2 ^ k); [lia| |lia].
  rewrite E. f_equal. lia.
Qed.

(** A product with a unit is exact. *)
Lemma size_exact n k : 0 <= n < 2 ^ 53 -> 0 <= k <= 52 -> n * 2 ^ k < 2 ^ 64 ->
  to_size (SFmul double_prec double_emax (binary_double false n 0) (double_of (2 ^ k))) = Some (n * 2 ^ k).
Proof.
  intros Hn Hk Hsize. rewrite unit_double by done.
  destruct (Z.eq_dec n 0) as [->|Hz]; [done|].
  destruct (integer_double n) as (p & d & -> & Hp & Hd & Hr); [lia|].
  cbn [SFmul xorb]. pose proof (round_exact false p 52 (- d + (k - 52)) Hr ltac:(lia) ltac:(lia)) as E.
  rewrite (Pos2Z.inj_mul p (2 ^ 52)). change (Zpos (2 ^ 52)) with (2 ^ 52). rewrite E. unfold to_size. cbn [negb].
  replace (- d + (k - 52) + 52) with (k - d) by lia.
  assert (0 <= n * 2 ^ k) by (apply Z.mul_nonneg_nonneg; [lia|apply Z.pow_nonneg; lia]).
  replace (if 0 <=? k - d then Zpos p * 2 ^ (k - d) else Zpos p / 2 ^ - (k - d)) with (n * 2 ^ k).
  { by replace ((0 <=? n * 2 ^ k) && (n * 2 ^ k <? 2 ^ 64)) with true by lia. }
  rewrite Hp. destruct (Z.leb_spec 0 (k - d)).
  - rewrite <- Z.mul_assoc, <- Z.pow_add_r by lia. by replace (d + (k - d)) with k by lia.
  - replace (n * 2 ^ d) with (n * 2 ^ k * 2 ^ (- (k - d))).
    + rewrite Z.div_mul; [done|]. apply Z.pow_nonzero; lia.
    + rewrite <- Z.mul_assoc, <- Z.pow_add_r by lia. by replace (k + - (k - d)) with d by lia.
Qed.

(** ** Reading printed numbers *)

Definition no_digit (t : bytes) : Prop := forall b, head t = Some b -> is_digit b = false.

(** A text that adds nothing to the number in front of it. *)
Definition ends_number (t : bytes) : Prop :=
  forall b, head t = Some b -> is_digit b = false /\ b <> x2e /\ tolower b <> x65 /\ tolower b <> x78.

Lemma digits_dec s t : forall acc, forallb is_digit s = true -> no_digit t ->
  digits dec_value 10 (s ++ t) acc = (atoi_digits s acc, length s, t).
Proof.
  induction s as [|b s IH]; intros acc Hs Ht; cbn [app atoi_digits length].
  - destruct t as [|b t]; [done|]. cbn [digits]. unfold dec_value. by rewrite (Ht b eq_refl).
  - cbn [forallb] in Hs. apply andb_true_iff in Hs as [Hb Hs]. cbn [digits]. unfold dec_value at 1.
    by rewrite Hb, IH.
Qed.

Lemma digit_facts b : is_digit b = true ->
  is_space b = false /\ b <> x2d /\ b <> x2b /\ tolower b <> x69 /\ tolower b <> x6e /\ tolower b <> x78.
Proof. by destruct b. Qed.

Lemma has_word_head c w b s : head w = Some c -> tolower b <> c -> has_word w (b :: s) = false.
Proof.
  intros Hw H. unfold has_word. apply bool_decide_eq_false. destruct w as [|d w]; [done|]. injection Hw as ->.
  cbn [length firstn map take]. congruence.
Qed.

Lemma signed_digits b s : is_digit b = true -> sign_of (skip_spaces (b :: s)) = (false, b :: s).
Proof.
  intros Hb. destruct (digit_facts b Hb) as (Hsp & Hm & Hp & _). cbn [skip_spaces]. rewrite Hsp.
  cbn [sign_of]. by rewrite !bool_decide_eq_false_2.
Qed.

Lemma strtod_digits s t : s <> [] -> forallb is_digit s = true -> ends_number t ->
  strtod (s ++ t) = (decimal_double false (atoi_digits s 0) 0, t).
Proof.
  intros Hn Hs Ht. assert (Hd : no_digit t) by (intros b Hb; by destruct (Ht b Hb)).
  pose proof (digits_dec s t 0 Hs Hd) as Hv. destruct s as [|b s]; [done|].
  cbn [forallb] in Hs. apply andb_true_iff in Hs as [Hb Hs].
  destruct (digit_facts b Hb) as (_ & _ & _ & Hi & Hnan & _).
  unfold strtod. cbn [app]. rewrite signed_digits by done.
  rewrite (has_word_head x69 (str "infinity")), (has_word_head x69 (str "inf")), (has_word_head x6e (str "nan")) by done.
  assert (Hx : has_word (str "0x") (b :: s ++ t) = false).
  { unfold has_word. apply bool_decide_eq_false. change (length (str "0x")) with 2%nat.
    destruct s as [|c s]; cbn [app].
    - destruct t as [|c t]; [done|]. destruct (Ht c eq_refl) as (_ & _ & _ & Hc).
      cbn [firstn map take]. by intros [= _ ?].
    - cbn [forallb] in Hs. apply andb_true_iff in Hs as [Hc _].
      destruct (digit_facts c Hc) as (_ & _ & _ & _ & _ & Hc'). cbn [firstn map take]. by intros [= _ ?]. }
  unfold hex_number, dec_number, significand. rewrite Hx. cbn [app] in Hv. rewrite Hv.
  destruct t as [|c t]; [done|]. destruct (Ht c eq_refl) as (_ & Hp & He & _).
  rewrite bool_decide_eq_false_2 by done. cbn [length Nat.eqb exponent].
  by rewrite bool_decide_eq_false_2.
Qed.

Lemma to_string_nonempty n : 0 <= n -> to_string n <> [].
Proof.
  intros Hn E.
  unfold to_string in E. replace (n <? 0) with false in E by lia. revert E. cbn [dec_digits].
  destruct (n <? 10); [done|]. generalize (digit (n mod 10)), (n / 10), (Z.to_nat (Z.log2 n)).
  clear. intros d z fuel E. assert (H : forall f z acc, acc <> [] -> dec_digits f z acc <> []).
  { induction f as [|f IH]; intros z' acc Ha; [done|]. cbn [dec_digits]. destruct (z' <? 10); [done|]. by apply IH. }
  by apply (H fuel z [d]).
Qed.

(** The units of the usage text, in both cases, and no unit. *)
Definition size_units : list (bytes * Z) :=
  [([], 0); (str "k", 10); (str "K", 10); (str "m", 20); (str "M", 20); (str "g", 30); (str "G", 30)].

Lemma size_read (n k : Z) (unit_ : bytes) :
  (unit_, k) ∈ size_units -> 0 <= n < 2 ^ 53 -> n * 2 ^ k < 2 ^ 64 ->
  parseSize (to_string n ++ unit_) = Some (n * 2 ^ k).
Proof.
  intros Hu Hn Hs. unfold parseSize.
  assert (Hk : ends_number unit_ /\ size_unit unit_ = 2 ^ k /\ 0 <= k <= 52).
  { apply list_elem_of_In in Hu. cbn in Hu.
    repeat (destruct Hu as [[= <- <-]|Hu]; [split; [intros b E; by simplify_eq/=|by split]|]). done. }
  destruct Hk as (He & Hunit & Hk). assert (0 <= n) by lia.
  rewrite strtod_digits by auto using to_string_nonempty, to_string_digits. rewrite Hunit.
  pose proof (to_string_atoi n [] ltac:(lia) ltac:(done)) as E. rewrite app_nil_r in E. rewrite E.
  replace (decimal_double false n 0) with (binary_double false n 0); [by apply size_exact|].
  unfold decimal_double. destruct (Z.eqb_spec n 0) as [->|]; [done|]. by rewrite Z.mul_1_r.
Qed.

(** C26: a size is read exactly. A number below 2^53 with a unit K, M or G in
    either case, or without one, is that number of bytes whenever it fits 64
    bits, although it goes through a double on the way. *)
Theorem parse_size_exact (n k : Z) (unit_ : bytes) :
  (unit_, k) ∈ size_units -> 0 <= n < 2 ^ 53 -> n * 2 ^ k < 2 ^ 64 ->
  parseSize (to_string n ++ unit_) = Some (n * 2 ^ k).
Proof. apply size_read. Qed.

Lemma parse_size_exact_witness : parseSize (to_string 256 ++ str "M") = Some (256 * 2 ^ 20).
Proof. apply parse_size_exact; [|done..]. unfold size_units. apply list_elem_of_In. cbn. tauto. Defined.

(** Whatever the text is, a size is a 64-bit number. *)
Lemma parse_size_word s n : parseSize s = Some n -> is_word 64 n.
Proof.
  unfold parseSize, to_size, is_word. destruct (strtod s) as [v rest].
  destruct (SFmul _ _ v _) as [?|?| |neg m e]; [intros [= <-]; lia|done|done|].
  set (t := if neg then _ else _). destruct ((0 <=? t) && (t <? 2 ^ 64)) eqn:E; [|done].
  intros [= <-]. lia.
Qed.

Lemma strtoul_word s : is_word 64 (strtoul s).
Proof.
  unfold strtoul, is_word. destruct (sign_of _) as [neg t]. unfold ULONG_MAX.
  destruct (Z.ltb_spec (2 ^ 64 - 1) (atoi_digits t 0)); [lia|]. destruct neg; [apply wrap_range; lia|].
  assert (H0 : forall u acc, 0 <= acc -> 0 <= atoi_digits u acc).
  { induction u as [|b u IH]; intros acc Ha; cbn [atoi_digits]; [done|].
    destruct (is_digit b) eqn:Eb; [|done]. apply IH. unfold is_digit in Eb. lia. }
  specialize (H0 t 0). lia.
Qed.

Lemma to_string_head n : 0 <= n ->
  exists b s, to_string n = b :: s /\ is_digit b = true /\ atoi_digits (b :: s) 0 = n.
Proof.
  intros Hn. pose proof (to_string_atoi n [] Hn ltac:(done)) as E. rewrite app_nil_r in E.
  pose proof (to_string_digits n Hn) as Hd. pose proof (to_string_nonempty n Hn) as Hne.
  destruct (to_string n) as [|b s]; [done|]. cbn [forallb] in Hd. apply andb_true_iff in Hd as [Hb _]. eauto.
Qed.

Lemma strtoul_shown n : is_word 64 n -> strtoul (to_string n) = n.
Proof.
  intros Hn. unfold is_word in Hn. destruct (to_string_head n ltac:(lia)) as (b & s & -> & Hb & E). unfold strtoul.
  rewrite signed_digits, E by done. unfold ULONG_MAX. by replace (2 ^ 64 - 1 <? n) with false by lia.
Qed.

Lemma atoi_int s n : atoi s = Some n -> - 2 ^ 31 <= n < 2 ^ 31.
Proof.
  unfold atoi. destruct (sign_of _) as [neg t]. set (v := if neg then _ else _).
  destruct (_ && _) eqn:E; [|done]. intros [= <-]. lia.
Qed.

Lemma atoi_shown n : - 2 ^ 31 <= n < 2 ^ 31 -> atoi (to_string n) = Some n.
Proof.
  intros Hn. unfold atoi.
  destruct (Z.ltb_spec n 0) as [Hneg|Hpos].
  - destruct (to_string_head (- n) ltac:(lia)) as (b & s & Es & Hb & E).
    assert (to_string n = x2d :: to_string (- n)) as ->.
    { unfold to_string. replace (n <? 0) with true by lia. by replace (- n <? 0) with false by lia. }
    rewrite Es. cbn [skip_spaces]. change (is_space x2d) with false. cbn [sign_of].
    rewrite bool_decide_eq_true_2, E, Z.opp_involutive by done.
    by replace ((- 2 ^ 31 <=? n) && (n <? 2 ^ 31)) with true by lia.
  - destruct (to_string_head n Hpos) as (b & s & -> & Hb & E). rewrite signed_digits, E by done.
    by replace ((- 2 ^ 31 <=? n) && (n <? 2 ^ 31)) with true by lia.
Qed.

(** A count below 0 wraps around, and text without digits counts 0. *)
Example strtoul_edges :
  map strtoul [str "-1"; str "99999999999999999999"; str "abc"; str " 12x"] = [2 ^ 64 - 1; 2 ^ 64 - 1; 0; 12].
Proof. vm_compute. reflexivity. Qed.
