(* ===== verification/JsonDump.v ===== *)
(** * JsonDump: printing JSON (the class [serializer] of cxx_modules/json.hpp)

    The part of the vendored library the server prints its tokens, its session
    rows and its session list with: [dump] without indentation, its strict
    handling of UTF-8, and its integers. Binary values do not occur in the
    program; the digits of a floating-point number are left to an argument, as the
    program prints none. *)

From S2P Require Import Prelude Text Handshake CNum.
From Stdlib Require Import SpecFloat.

(** [basic_json]: the types a parser can produce. *)
Inductive value :=
  | VNull
  | VBool (b : bool)
  | VInteger (z : Z)
  | VUnsigned (n : Z)
  | VFloat (f : spec_float)
  | VString (s : bytes)
  | VArray (l : list value)
  | VObject (fields : list (bytes * value)).

(** Induction that reaches the values inside arrays and objects. *)
Section Induction.
Variable P : value -> Prop.
Hypothesis Hnull : P VNull.
Hypothesis Hbool : forall b, P (VBool b).
Hypothesis Hint : forall z, P (VInteger z).
Hypothesis Huns : forall n, P (VUnsigned n).
Hypothesis Hfloat : forall f, P (VFloat f).
Hypothesis Hstr : forall s, P (VString s).
Hypothesis Harr : forall l, Forall P l -> P (VArray l).
Hypothesis Hobj : forall fields, Forall (fun kv => P kv.2) fields -> P (VObject fields).

Fixpoint value_rect_in (v : value) : P v :=
  match v with
  | VNull => Hnull
  | VBool b => Hbool b
  | VInteger z => Hint z
  | VUnsigned n => Huns n
  | VFloat f => Hfloat f
  | VString s => Hstr s
  | VArray l => Harr l ((fix go l := match l return Forall P l with
      | [] => Forall_nil_2 _
      | v :: l => Forall_cons_2 _ _ _ (value_rect_in v) (go l)
      end) l)
  | VObject fields => Hobj fields ((fix go l := match l return Forall (fun kv => P kv.2) l with
      | [] => Forall_nil_2 _
      | kv :: l => Forall_cons_2 _ _ _ (value_rect_in kv.2) (go l)
      end) fields)
  end.
End Induction.

(** ** UTF-8 ([decode]) *)

Definition UTF8_ACCEPT : Z := 0.
Definition UTF8_REJECT : Z := 1.

(** The table of [decode]: the classes of the bytes, then a row per state. *)
Definition utf8d : list Z :=
  replicate 128 0 ++                                                            (* 00..7F *)
  replicate 16 1 ++ replicate 16 9 ++                                           (* 80..9F *)
  replicate 32 7 ++                                                             (* A0..BF *)
  replicate 2 8 ++ replicate 30 2 ++                                            (* C0..DF *)
  [10] ++ replicate 12 3 ++ [4] ++ replicate 2 3 ++                             (* E0..EF *)
  [11] ++ replicate 3 6 ++ [5] ++ replicate 11 8 ++                             (* F0..FF *)
  [0; 1; 2; 3; 5; 8; 7; 1; 1; 1; 4; 6; 1; 1; 1; 1] ++                           (* s0 *)
  [1; 1; 1; 1; 1; 1; 1; 1; 1; 1; 1; 1; 1; 1; 1; 1; 1; 0; 1; 1; 1; 1; 1; 0; 1; 0; 1; 1; 1; 1; 1; 1] ++  (* s1..s2 *)
  [1; 2; 1; 1; 1; 1; 1; 2; 1; 2; 1; 1; 1; 1; 1; 1; 1; 1; 1; 1; 1; 1; 1; 2; 1; 1; 1; 1; 1; 1; 1; 1] ++  (* s3..s4 *)
  [1; 2; 1; 1; 1; 1; 1; 1; 1; 2; 1; 1; 1; 1; 1; 1; 1; 1; 1; 1; 1; 1; 1; 3; 1; 3; 1; 1; 1; 1; 1; 1] ++  (* s5..s6 *)
  [1; 3; 1; 1; 1; 1; 1; 3; 1; 3; 1; 1; 1; 1; 1; 1; 1; 3; 1; 1; 1; 1; 1; 1; 1; 1; 1; 1; 1; 1; 1; 1].    (* s7..s8 *)

(** The new state and code point. *)
Definition decode (state codep : Z) (b : byte) : Z * Z :=
  let type := nth (Z.to_nat (b2z b)) utf8d 0 in
  let codep := if negb (state =? UTF8_ACCEPT)
               then Z.lor (Z.land (b2z b) 63) (wrap 32 (Z.shiftl codep 6))
               else Z.land (Z.shiftr 255 type) (b2z b) in
  (nth (Z.to_nat (256 + state * 16 + type)) utf8d 0, codep).

(** ** Strings ([dump_escaped]) *)

Definition quote : byte := x22.
Definition backslash : byte := x5c.

(** [snprintf] with ["\u%04x"] of a 16-bit number. *)
Definition hex4 (n : Z) : bytes := hex_byte (z2b (Z.shiftr (wrap 16 n) 8)) ++ hex_byte (z2b n).
Definition u_escape (n : Z) : bytes := [backslash; x75] ++ hex4 n.

(** [snprintf] into [size] bytes: what is cut off and the NUL it ends with. *)
Definition snprintf (size : nat) (text : bytes) : bytes := take (size - 1) text ++ [x00].

(** What is stored at [string_buffer.data() + bytes] for a code point that ends
    with the byte [c], and by how much [bytes] grows: the NUL of [snprintf] is
    stored but not kept. *)
Definition store (ensure_ascii : bool) (codepoint : Z) (c : byte) : bytes * nat :=
  if codepoint =? 8 then ([backslash; x62], 2%nat)
  else if codepoint =? 9 then ([backslash; x74], 2%nat)
  else if codepoint =? 10 then ([backslash; x6e], 2%nat)
  else if codepoint =? 12 then ([backslash; x66], 2%nat)
  else if codepoint =? 13 then ([backslash; x72], 2%nat)
  else if codepoint =? 34 then ([backslash; quote], 2%nat)
  else if codepoint =? 92 then ([backslash; backslash], 2%nat)
  else if (codepoint <=? 31) || (ensure_ascii && (127 <=? codepoint)) then
    if codepoint <=? 65535 then (snprintf 7 (u_escape codepoint), 6%nat)
    else (snprintf 13 (u_escape (55232 + Z.shiftr codepoint 10) ++
                       u_escape (56320 + Z.land codepoint 1023)), 12%nat)
  else ([c], 1%nat).

(** What the code point adds to the part of the buffer in use, to which its
    earlier bytes have been copied. *)
Definition escape (ensure_ascii : bool) (codepoint : Z) (c : byte) : bytes :=
  let '(stored, n) := store ensure_ascii codepoint c in take n stored.

Definition kStringBuffer : nat := 512.

(** The loop over the string: [out] is what was written, [buf] the part of
    [string_buffer] in use; [None]: an exception of type 316. *)
Fixpoint dump_chars (ensure_ascii : bool) (s : bytes) (state codepoint : Z) (out buf : bytes) :
    option (Z * bytes * bytes) :=
  match s with
  | [] => Some (state, out, buf)
  | c :: s =>
      let '(state, codepoint) := decode state codepoint c in
      if state =? UTF8_ACCEPT then
        let buf := buf ++ escape ensure_ascii codepoint c in
        if (kStringBuffer - length buf <? 13)%nat then dump_chars ensure_ascii s state codepoint (out ++ buf) []
        else dump_chars ensure_ascii s state codepoint out buf
      else if state =? UTF8_REJECT then None
      else dump_chars ensure_ascii s state codepoint out (if ensure_ascii then buf else buf ++ [c])
  end.

Definition dump_escaped (ensure_ascii : bool) (s : bytes) : option bytes :=
  match dump_chars ensure_ascii s UTF8_ACCEPT 0 [] [] with
  | Some (state, out, buf) => if state =? UTF8_ACCEPT then Some (out ++ buf) else None
  | None => None
  end.

(** ** Integers ([dump_integer]) *)

(** [count_digits]: four digits a round, so five rounds are enough below 2^64. *)
Fixpoint count_digits_loop (fuel : nat) (x n_digits : Z) : Z :=
  match fuel with
  | O => n_digits
  | S fuel =>
      if x <? 10 then n_digits
      else if x <? 100 then n_digits + 1
      else if x <? 1000 then n_digits + 2
      else if x <? 10000 then n_digits + 3
      else count_digits_loop fuel (x / 10000) (n_digits + 4)
  end.

Definition count_digits (x : Z) : Z := count_digits_loop 5 x 1.

Definition digits_to_99 : list (byte * byte) :=
  map (fun i => (digit (Z.of_nat i / 10), digit (Z.of_nat i mod 10))) (seq 0 100).

(** [number_buffer] and the pointer into it. *)
Definition NumberBuffer : Type := list byte * nat.

(** [*(--buffer_ptr) = c]. *)
Definition put (b : NumberBuffer) (c : byte) : NumberBuffer := (<[pred b.2 := c]> b.1, pred b.2).

Definition put_pair (b : NumberBuffer) (digits_index : Z) : NumberBuffer :=
  let pair := nth (Z.to_nat digits_index) digits_to_99 (x00, x00) in
  put (put b pair.2) pair.1.

(** Two digits a round: ten rounds are enough below 2^64. *)
Fixpoint digit_pairs (fuel : nat) (abs_value : Z) (b : NumberBuffer) : Z * NumberBuffer :=
  match fuel with
  | O => (abs_value, b)
  | S fuel =>
      if 100 <=? abs_value then digit_pairs fuel (abs_value / 100) (put_pair b (abs_value mod 100))
      else (abs_value, b)
  end.

(** [remove_sign]: the absolute value of a negative number, without overflow. *)
Definition remove_sign (x : Z) : Z := wrap 64 (wrap 64 (- (x + 1)) + 1).

(** [uninit] is what the buffer holds from earlier numbers. *)
Definition dump_integer (uninit : bytes) (x : Z) : bytes :=
  if x =? 0 then [x30]
  else
    let '(buffer, abs_value, n_chars) :=
      if x <? 0 then (<[0%nat := x2d]> uninit, remove_sign x, Z.to_nat (1 + count_digits (remove_sign x)))
      else (uninit, x, Z.to_nat (count_digits x)) in
    let '(abs_value, b) := digit_pairs 10 abs_value (buffer, n_chars) in
    let b := if 10 <=? abs_value then put_pair b abs_value else put b (digit abs_value) in
    take n_chars b.1.

(** ** Values ([dump] without indentation) *)

Section Dump.
(** The contents of [number_buffer] before a number, and the digits of a finite
    floating-point number. *)
Variables (uninit : bytes) (to_chars : spec_float -> bytes).
Variable ensure_ascii : bool.

Definition dump_float (f : spec_float) : bytes :=
  match f with
  | S754_zero _ | S754_finite _ _ _ => to_chars f
  | _ => str "null"
  end.

Definition in_quotes (s : bytes) : bytes := [quote] ++ s ++ [quote].

(** The loops over an object and over an array, behind the opening bracket. *)
Section Loops.
Variable dump : value -> option bytes.

Fixpoint dump_members (fields : list (bytes * value)) : option bytes :=
  match fields with
  | [] => Some [x7d]
  | (key, v) :: rest =>
      match dump v, dump_escaped ensure_ascii key, dump_members rest with
      | Some v, Some key, Some t =>
          Some (in_quotes key ++ [x3a] ++ v ++ match rest with [] => [] | _ => [x2c] end ++ t)
      | _, _, _ => None
      end
  end.

Fixpoint dump_elements (l : list value) : option bytes :=
  match l with
  | [] => Some [x5d]
  | v :: rest =>
      match dump v, dump_elements rest with
      | Some v, Some t => Some (v ++ match rest with [] => [] | _ => [x2c] end ++ t)
      | _, _ => None
      end
  end.
End Loops.

(** [None] is an exception of type 316, which a string that is not UTF-8 causes. *)
Fixpoint dump (v : value) : option bytes :=
  match v with
  | VObject fields => match dump_members dump fields with Some t => Some ([x7b] ++ t) | None => None end
  | VArray l => match dump_elements dump l with Some t => Some ([x5b] ++ t) | None => None end
  | VString s => match dump_escaped ensure_ascii s with Some t => Some (in_quotes t) | None => None end
  | VBool b => Some (if b then str "true" else str "false")
  | VInteger z => Some (dump_integer uninit z)
  | VUnsigned n => Some (dump_integer uninit n)
  | VFloat f => Some (dump_float f)
  | VNull => Some (str "null")
  end.
End Dump.
