(* ===== verification/JsonLex.v ===== *)
(** * JsonLex: the tokens of JSON (the class [lexer] of cxx_modules/json.hpp)

    A scan function takes the characters [get] has still to deliver and returns
    those behind the token; [unget] is to return the character with them. Behind an
    error nothing is read that counts, so a failed scan returns no characters. The
    locale is the C locale, comments are not ignored, and the strings kept for
    error messages are left out. *)

From S2P Require Import Prelude Text CNum JsonDump.
From Stdlib Require Import SpecFloat.

Inductive token :=
  | TBeginArray | TEndArray | TBeginObject | TEndObject | TNameSeparator | TValueSeparator
  | TTrue | TFalse | TNull
  | TString (s : bytes)
  | TUnsigned (n : Z)
  | TInteger (z : Z)
  | TFloat (f : spec_float)
  | TParseError
  | TEndOfInput.

(** ** Strings ([scan_string]) *)

(** [get_codepoint]: four hexadecimal characters; [None] is -1. *)
Fixpoint get_codepoint_loop (factors : list Z) (s : bytes) (codepoint : Z) : option (Z * bytes) :=
  match factors with
  | [] => Some (codepoint, s)
  | factor :: factors =>
      match s with
      | [] => None
      | current :: s =>
          let v := b2z current in
          if (48 <=? v) && (v <=? 57) then get_codepoint_loop factors s (codepoint + Z.shiftl (v - 0x30) factor)
          else if (65 <=? v) && (v <=? 70) then get_codepoint_loop factors s (codepoint + Z.shiftl (v - 0x37) factor)
          else if (97 <=? v) && (v <=? 102) then get_codepoint_loop factors s (codepoint + Z.shiftl (v - 0x57) factor)
          else None
      end
  end.

Definition get_codepoint (s : bytes) : option (Z * bytes) := get_codepoint_loop [12; 8; 4; 0] s 0.

(** [next_byte_in_range] behind its first [add]: the bytes it adds, and the rest. *)
Fixpoint next_byte_in_range (ranges : list (Z * Z)) (s : bytes) : option (bytes * bytes) :=
  match ranges with
  | [] => Some ([], s)
  | (lower, upper) :: ranges =>
      match s with
      | [] => None
      | current :: s =>
          if (lower <=? b2z current) && (b2z current <=? upper) then
            match next_byte_in_range ranges s with
            | Some (added, s) => Some (current :: added, s)
            | None => None
            end
          else None
      end
  end.

(** The cases of [scan_string] for a byte above 0x1F that is neither a quote nor
    a backslash: the ranges of the bytes behind it, [None] for an error. *)
Definition utf8_ranges (v : Z) : option (list (Z * Z)) :=
  if v <=? 0x7F then Some []
  else if (0xC2 <=? v) && (v <=? 0xDF) then Some [(0x80, 0xBF)]
  else if v =? 0xE0 then Some [(0xA0, 0xBF); (0x80, 0xBF)]
  else if ((0xE1 <=? v) && (v <=? 0xEC)) || (v =? 0xEE) || (v =? 0xEF) then Some [(0x80, 0xBF); (0x80, 0xBF)]
  else if v =? 0xED then Some [(0x80, 0x9F); (0x80, 0xBF)]
  else if v =? 0xF0 then Some [(0x90, 0xBF); (0x80, 0xBF); (0x80, 0xBF)]
  else if (0xF1 <=? v) && (v <=? 0xF3) then Some [(0x80, 0xBF); (0x80, 0xBF); (0x80, 0xBF)]
  else if v =? 0xF4 then Some [(0x80, 0x8F); (0x80, 0xBF); (0x80, 0xBF)]
  else None.

(** The code point as bytes. *)
Definition utf8_encode (codepoint : Z) : bytes :=
  if codepoint <? 0x80 then [z2b codepoint]
  else if codepoint <=? 0x7FF then
    [z2b (Z.lor 0xC0 (Z.shiftr codepoint 6)); z2b (Z.lor 0x80 (Z.land codepoint 0x3F))]
  else if codepoint <=? 0xFFFF then
    [z2b (Z.lor 0xE0 (Z.shiftr codepoint 12)); z2b (Z.lor 0x80 (Z.land (Z.shiftr codepoint 6) 0x3F));
     z2b (Z.lor 0x80 (Z.land codepoint 0x3F))]
  else
    [z2b (Z.lor 0xF0 (Z.shiftr codepoint 18)); z2b (Z.lor 0x80 (Z.land (Z.shiftr codepoint 12) 0x3F));
     z2b (Z.lor 0x80 (Z.land (Z.shiftr codepoint 6) 0x3F)); z2b (Z.lor 0x80 (Z.land codepoint 0x3F))].

(** The code point behind [\u], with its low surrogate if it is a high one. *)
Definition scan_codepoint (s : bytes) : option (Z * bytes) :=
  match get_codepoint s with
  | None => None
  | Some (codepoint1, s) =>
      if (0xD800 <=? codepoint1) && (codepoint1 <=? 0xDBFF) then
        match s with
        | b :: u :: s =>
            if bool_decide (b = backslash /\ u = x75) then
              match get_codepoint s with
              | None => None
              | Some (codepoint2, s) =>
                  if (0xDC00 <=? codepoint2) && (codepoint2 <=? 0xDFFF)
                  then Some (wrap 32 (wrap 32 (Z.shiftl codepoint1 10) + codepoint2 - 0x35FDC00), s)
                  else None
              end
            else None
        | _ => None
        end
      else if (0xDC00 <=? codepoint1) && (codepoint1 <=? 0xDFFF) then None
      else Some (codepoint1, s)
  end.

(** What follows a backslash: the bytes it stands for, and the rest. *)
Definition scan_escape (s : bytes) : option (bytes * bytes) :=
  match s with
  | [] => None
  | e :: s =>
      if bool_decide (e = quote) then Some ([quote], s)
      else if bool_decide (e = backslash) then Some ([backslash], s)
      else if bool_decide (e = x2f) then Some ([x2f], s)
      else if bool_decide (e = x62) then Some ([x08], s)
      else if bool_decide (e = x66) then Some ([x0c], s)
      else if bool_decide (e = x6e) then Some ([x0a], s)
      else if bool_decide (e = x72) then Some ([x0d], s)
      else if bool_decide (e = x74) then Some ([x09], s)
      else if bool_decide (e = x75) then
        match scan_codepoint s with
        | Some (codepoint, s) => Some (utf8_encode codepoint, s)
        | None => None
        end
      else None
  end.

(** One character or escape of a string: the bytes it adds to [token_buffer]. *)
Definition scan_char (c : byte) (s : bytes) : option (bytes * bytes) :=
  if bool_decide (c = backslash) then scan_escape s
  else if b2z c <=? 0x1F then None
  else
    match utf8_ranges (b2z c) with
    | None => None
    | Some ranges =>
        match next_byte_in_range ranges s with
        | Some (added, s) => Some (c :: added, s)
        | None => None
        end
    end.

(** Every round reads a character: the length of the input is enough fuel. *)
Fixpoint scan_string_loop (fuel : nat) (s : bytes) (token_buffer : bytes) : token * bytes :=
  match fuel with
  | O => (TParseError, [])
  | S fuel =>
      match s with
      | [] => (TParseError, [])
      | c :: s =>
          if bool_decide (c = quote) then (TString token_buffer, s)
          else
            match scan_char c s with
            | Some (added, s) => scan_string_loop fuel s (token_buffer ++ added)
            | None => (TParseError, [])
            end
      end
  end.

Definition scan_string (s : bytes) : token * bytes := scan_string_loop (length s) s [].

(** ** Numbers ([scan_number]) *)

(** The labels of the state machine. *)
Inductive number_state := NMinus | NZero | NAny1 | NDecimal1 | NDecimal2 | NExponent | NSign | NAny2.

Inductive number_type := NumUnsigned | NumInteger | NumFloat.

Inductive number_move := Goto (st : number_state) | NDone | NError.

Definition is_exponent (c : byte) : bool := bool_decide (c = x65) || bool_decide (c = x45).
Definition is_sign (c : byte) : bool := bool_decide (c = x2b) || bool_decide (c = x2d).

(** What a label does with the next character. *)
Definition number_next (st : number_state) (c : byte) : number_move :=
  match st with
  | NMinus => if bool_decide (c = x30) then Goto NZero else if is_digit c then Goto NAny1 else NError
  | NZero => if bool_decide (c = x2e) then Goto NDecimal1 else if is_exponent c then Goto NExponent else NDone
  | NAny1 =>
      if is_digit c then Goto NAny1
      else if bool_decide (c = x2e) then Goto NDecimal1 else if is_exponent c then Goto NExponent else NDone
  | NDecimal1 => if is_digit c then Goto NDecimal2 else NError
  | NDecimal2 => if is_digit c then Goto NDecimal2 else if is_exponent c then Goto NExponent else NDone
  | NExponent => if is_sign c then Goto NSign else if is_digit c then Goto NAny2 else NError
  | NSign => if is_digit c then Goto NAny2 else NError
  | NAny2 => if is_digit c then Goto NAny2 else NDone
  end.

(** The end of the input takes the default cases. *)
Definition number_end (st : number_state) : bool :=
  match st with NZero | NAny1 | NDecimal2 | NAny2 => true | _ => false end.

(** The assignments to [number_type] behind the labels. *)
Definition enter (st : number_state) (type : number_type) : number_type :=
  match st with NMinus => NumInteger | NDecimal1 | NExponent => NumFloat | _ => type end.

Fixpoint number_loop (st : number_state) (type : number_type) (s : bytes) (token_buffer : bytes) :
    option (number_type * bytes * bytes) :=
  match s with
  | [] => if number_end st then Some (type, token_buffer, []) else None
  | c :: rest =>
      match number_next st c with
      | Goto st => number_loop st (enter st type) rest (token_buffer ++ [c])
      | NDone => Some (type, token_buffer, s)
      | NError => None
      end
  end.

(** [scan_number_done]: [strtoull] and [strtoll] set [errno] when the number does
    not fit, which makes it a floating-point number. *)
Definition number_done (type : number_type) (token_buffer : bytes) : token :=
  let float := TFloat (strtod token_buffer).1 in
  match type with
  | NumUnsigned =>
      let x := atoi_digits token_buffer 0 in
      if x <=? ULONG_MAX then TUnsigned x else float
  | NumInteger =>
      let x := - atoi_digits (drop 1 token_buffer) 0 in
      if - 2 ^ 63 <=? x then TInteger x else float
  | NumFloat => float
  end.

Definition scan_number (current : byte) (s : bytes) : token * bytes :=
  let st := if bool_decide (current = x2d) then NMinus else if bool_decide (current = x30) then NZero else NAny1 in
  match number_loop st (enter st NumUnsigned) s [current] with
  | Some (type, token_buffer, s) => (number_done type token_buffer, s)
  | None => (TParseError, [])
  end.

(** ** Tokens ([scan]) *)

Fixpoint scan_literal (literal_text : bytes) (return_type : token) (s : bytes) : token * bytes :=
  match literal_text with
  | [] => (return_type, s)
  | l :: literal_text =>
      match s with
      | c :: s => if bool_decide (c = l) then scan_literal literal_text return_type s else (TParseError, [])
      | [] => (TParseError, [])
      end
  end.

Definition is_whitespace (c : byte) : bool :=
  bool_decide (c = x20) || bool_decide (c = x09) || bool_decide (c = x0a) || bool_decide (c = x0d).

Fixpoint skip_whitespace (s : bytes) : bytes :=
  match s with
  | c :: s' => if is_whitespace c then skip_whitespace s' else s
  | [] => []
  end.

Definition scan (s : bytes) : token * bytes :=
  match skip_whitespace s with
  | [] => (TEndOfInput, [])
  | current :: s =>
      if bool_decide (current = x5b) then (TBeginArray, s)
      else if bool_decide (current = x5d) then (TEndArray, s)
      else if bool_decide (current = x7b) then (TBeginObject, s)
      else if bool_decide (current = x7d) then (TEndObject, s)
      else if bool_decide (current = x3a) then (TNameSeparator, s)
      else if bool_decide (current = x2c) then (TValueSeparator, s)
      else if bool_decide (current = x74) then scan_literal (str "rue") TTrue s
      else if bool_decide (current = x66) then scan_literal (str "alse") TFalse s
      else if bool_decide (current = x6e) then scan_literal (str "ull") TNull s
      else if bool_decide (current = quote) then scan_string s
      else if bool_decide (current = x2d) || is_digit current then scan_number current s
      else if bool_decide (current = x00) then (TEndOfInput, s)
      else (TParseError, [])
  end.

(** The first token: a byte order mark is skipped, part of one is an error. *)
Definition skip_bom (s : bytes) : option bytes :=
  match s with
  | b0 :: s' =>
      if bool_decide (b0 = xef) then
        match s' with
        | b1 :: b2 :: s' => if bool_decide (b1 = xbb /\ b2 = xbf) then Some s' else None
        | _ => None
        end
      else Some s
  | [] => Some []
  end.

Definition scan_first (s : bytes) : token * bytes :=
  match skip_bom s with Some s => scan s | None => (TParseError, []) end.

(** ** The scanner ends *)

Definition rest_of {A} (r : option (A * bytes)) : bytes := match r with Some (_, s) => s | None => [] end.

Lemma get_codepoint_shorter factors : forall s cp, (length (rest_of (get_codepoint_loop factors s cp)) <= length s)%nat.
Proof.
  induction factors as [|f fs IH]; intros s cp; cbn [get_codepoint_loop]; [done|]. destruct s as [|c s]; [cbn; lia|].
  cbn [length]. destruct (_ && _); [etransitivity; [apply IH|lia]|]. destruct (_ && _); [etransitivity; [apply IH|lia]|].
  destruct (_ && _); [etransitivity; [apply IH|lia]|cbn; lia].
Qed.

Lemma next_byte_shorter ranges : forall s, (length (rest_of (next_byte_in_range ranges s)) <= length s)%nat.
Proof.
  induction ranges as [|[lo hi] rs IH]; intros s; cbn [next_byte_in_range]; [done|]. destruct s as [|c s]; [cbn; lia|].
  destruct (_ && _); [|cbn; lia]. specialize (IH s). destruct (next_byte_in_range rs s) as [[a t]|]; cbn in *; lia.
Qed.

Lemma scan_codepoint_shorter s : (length (rest_of (scan_codepoint s)) <= length s)%nat.
Proof.
  unfold scan_codepoint, get_codepoint. pose proof (get_codepoint_shorter [12; 8; 4; 0] s 0) as H.
  destruct (get_codepoint_loop _ s 0) as [[cp1 s1]|]; [|cbn; lia]. cbn [rest_of] in H.
  destruct (_ && _).
  - destruct s1 as [|b [|u s1]]; [cbn; lia..|]. destruct (bool_decide _); [|cbn; lia].
    pose proof (get_codepoint_shorter [12; 8; 4; 0] s1 0) as H2. destruct (get_codepoint_loop _ s1 0) as [[cp2 s2]|]; [|cbn; lia].
    destruct (_ && _); cbn in *; lia.
  - destruct (_ && _); cbn in *; lia.
Qed.

Lemma scan_char_shorter c s : (length (rest_of (scan_char c s)) <= length s)%nat.
Proof.
  unfold scan_char. destruct (bool_decide (c = backslash)).
  - unfold scan_escape. destruct s as [|e s]; [cbn; lia|]. pose proof (scan_codepoint_shorter s) as H.
    destruct (scan_codepoint s) as [[cp t]|]; cbn [rest_of] in H; repeat case_bool_decide; cbn; lia.
  - destruct (_ <=? _); [cbn; lia|]. destruct (utf8_ranges _) as [rs|]; [|cbn; lia].
    pose proof (next_byte_shorter rs s) as H. destruct (next_byte_in_range rs s) as [[a t]|]; cbn in *; lia.
Qed.

Lemma scan_string_shorter fuel : forall s buf, (length (scan_string_loop fuel s buf).2 <= pred (length s))%nat.
Proof.
  induction fuel as [|fuel IH]; intros s buf; cbn [scan_string_loop]; [cbn; lia|]. destruct s as [|c s]; [done|].
  destruct (bool_decide _); [done|]. pose proof (scan_char_shorter c s) as H.
  destruct (scan_char c s) as [[a t]|]; [|cbn; lia]. cbn [rest_of length pred] in *. specialize (IH t (buf ++ a)). lia.
Qed.

(** More fuel than characters changes nothing. *)
Lemma scan_string_fuel fuel : forall fuel' s buf, (length s <= fuel)%nat -> (length s <= fuel')%nat ->
  scan_string_loop fuel s buf = scan_string_loop fuel' s buf.
Proof.
  induction fuel as [|fuel IH]; intros fuel' s buf H H'.
  - destruct s; [|cbn in H; lia]. by destruct fuel'.
  - destruct s as [|c s]; [by destruct fuel'|]. cbn [length] in *. destruct fuel' as [|fuel']; [lia|]. cbn [scan_string_loop].
    destruct (bool_decide _); [done|]. pose proof (scan_char_shorter c s) as Hs.
    destruct (scan_char c s) as [[a t]|]; [|done]. cbn [rest_of] in Hs. apply IH; lia.
Qed.

Lemma number_loop_shorter s : forall st type buf, match number_loop st type s buf with Some (_, _, t) => (length t <= length s)%nat | None => True end.
Proof.
  induction s as [|c s IH]; intros st type buf; cbn [number_loop]; [by destruct (number_end st)|].
  destruct (number_next st c) as [st'| |]; [|done..]. specialize (IH st' (enter st' type) (buf ++ [c])).
  destruct (number_loop _ _ s _) as [[[? ?] t]|]; [cbn; lia|done].
Qed.

Lemma scan_literal_shorter l t : forall s, (length (scan_literal l t s).2 <= length s)%nat.
Proof.
  induction l as [|x l IH]; intros s; cbn [scan_literal]; [done|]. destruct s as [|c s]; [done|].
  destruct (bool_decide _); [|cbn; lia]. specialize (IH s). cbn. lia.
Qed.

Lemma skip_whitespace_shorter s : (length (skip_whitespace s) <= length s)%nat.
Proof. induction s as [|c s IH]; [done|]. cbn [skip_whitespace]. destruct (is_whitespace c); cbn [length]; lia. Qed.

(** A token takes at least a character, unless there is none. *)
Lemma scan_shorter s : (length (scan s).2 < length s)%nat \/ ((scan s).1 = TEndOfInput /\ (scan s).2 = []) \/ (scan s).1 = TParseError.
Proof.
  unfold scan. pose proof (skip_whitespace_shorter s) as H. destruct (skip_whitespace s) as [|c t]; [auto|]. cbn [length] in H.
  assert (Hlit : forall l k, (length (scan_literal l k t).2 < length s)%nat) by (intros l k; pose proof (scan_literal_shorter l k t); lia).
  assert (Hstr : (length (scan_string t).2 < length s)%nat).
  { unfold scan_string. pose proof (scan_string_shorter (length t) t []). lia. }
  assert (Hnum : (length (scan_number c t).2 < length s)%nat \/ (scan_number c t).1 = TParseError).
  { unfold scan_number. pose proof (number_loop_shorter t) as Hl. match goal with |- context [number_loop ?a ?b t ?d] => specialize (Hl a b d) end.
    destruct (number_loop _ _ _ _) as [[[? ?] r]|]; [left; cbn; lia|by right]. }
  repeat (match goal with |- context [if ?b then _ else _] => destruct b end); auto; try (left; cbn; lia); tauto.
Qed.
