(* ===== verification/JsonText.v ===== *)
(** * JsonText: strings in JSON

    The automaton of [dump_escaped] accepts UTF-8 and nothing else, its buffer is
    large enough, and what it prints is scanned back; what the scanner makes of any
    text is UTF-8 again. *)

From S2P Require Import Prelude Text Handshake CNum JsonDump JsonLex.

(** ** The automaton *)

Definition all_bytes : bytes := map (fun i => z2b (Z.of_nat i)) (seq 0 256).

Lemma all_bytes_in b : b ∈ all_bytes.
Proof.
  unfold all_bytes. apply list_elem_of_fmap. exists (Z.to_nat (b2z b)). pose proof (b2z_range b).
  split; [by rewrite Z2Nat.id, z2b_b2z by lia|]. apply elem_of_seq. lia.
Qed.

(** A property of all bytes, by computation. *)
Lemma byte_check (f : byte -> bool) : forallb f all_bytes = true -> forall b, f b = true.
Proof. rewrite forallb_forall. intros Hall b. apply Hall, list_elem_of_In, all_bytes_in. Qed.

(** The state [decode] goes to, which does not depend on the code point. *)
Definition step (state : Z) (b : byte) : Z := (decode state 0 b).1.

Lemma decode_step state codep b : (decode state codep b).1 = step state b.
Proof. done. Qed.

(** A state in the middle of a code point: the range of the next byte, and the
    state behind it. *)
Definition range_of (state : Z) : Z * Z :=
  if state =? 4 then (0xA0, 0xBF) else if state =? 5 then (0x80, 0x9F)
  else if state =? 6 then (0x90, 0xBF) else if state =? 8 then (0x80, 0x8F) else (0x80, 0xBF).
Definition next_of (state : Z) : Z := if state =? 2 then 0 else if state <=? 5 then 2 else 3.

Definition inside (r : Z * Z) (v : Z) : bool := (r.1 <=? v) && (v <=? r.2).

Lemma step_inside state b : 2 <= state <= 8 -> step state b = if inside (range_of state) (b2z b) then next_of state else UTF8_REJECT.
Proof.
  intros Hs. assert (H : Forall (fun st => forall b,
    (step st b =? if inside (range_of st) (b2z b) then next_of st else UTF8_REJECT) = true) [2; 3; 4; 5; 6; 7; 8]).
  { repeat constructor; apply byte_check; vm_compute; reflexivity. }
  apply Z.eqb_eq. revert b. apply (proj1 (Forall_forall _ _) H). rewrite !elem_of_cons. lia.
Qed.

(** The state behind a first byte. *)
Definition first_state (v : Z) : Z :=
  if v <=? 0x7F then 0 else if v <? 0xC2 then 1 else if v <=? 0xDF then 2 else if v =? 0xE0 then 4
  else if v =? 0xED then 5 else if v <=? 0xEF then 3 else if v =? 0xF0 then 6 else if v <=? 0xF3 then 7
  else if v =? 0xF4 then 8 else 1.

Lemma step_first b : step 0 b = first_state (b2z b).
Proof. apply Z.eqb_eq. revert b. apply byte_check. vm_compute. reflexivity. Qed.

(** The ranges of the bytes a state waits for. *)
Definition ranges_of (state : Z) : list (Z * Z) :=
  if state =? 0 then []
  else if state =? 2 then [range_of state]
  else if state <=? 5 then [range_of state; range_of 2]
  else [range_of state; range_of 3; range_of 2].

Lemma ranges_of_next state : 2 <= state <= 8 -> ranges_of state = range_of state :: ranges_of (next_of state).
Proof.
  intros H. assert (Hall : Forall (fun st => ranges_of st = range_of st :: ranges_of (next_of st)) [2; 3; 4; 5; 6; 7; 8])
    by (by repeat constructor).
  apply (proj1 (Forall_forall _ _) Hall). rewrite !elem_of_cons. lia.
Qed.

(** The scanner asks for the same bytes. *)
Lemma utf8_ranges_first b : utf8_ranges (b2z b) =
  if first_state (b2z b) =? UTF8_REJECT then None else Some (ranges_of (first_state (b2z b))).
Proof. refine (bool_decide_eq_true_1 (_ = _) _). revert b. apply byte_check. vm_compute. reflexivity. Qed.

Lemma first_state_range v : first_state v = 0 \/ first_state v = 1 \/ 2 <= first_state v <= 8.
Proof. unfold first_state. repeat case_match; lia. Qed.

(** ** Without the buffer *)

Fixpoint dump_text (s : bytes) (state codepoint : Z) : option bytes :=
  match s with
  | [] => if state =? UTF8_ACCEPT then Some [] else None
  | c :: s =>
      let '(state, codepoint) := decode state codepoint c in
      if state =? UTF8_REJECT then None
      else
        match dump_text s state codepoint with
        | Some t => Some ((if state =? UTF8_ACCEPT then escape false codepoint c else [c]) ++ t)
        | None => None
        end
  end.

Lemma dump_chars_text s : forall state cp out buf,
  match dump_chars false s state cp out buf with
  | Some (st, out', buf') => if st =? UTF8_ACCEPT then Some (out' ++ buf') else None
  | None => None
  end = match dump_text s state cp with Some t => Some (out ++ buf ++ t) | None => None end.
Proof.
  induction s as [|c s IH]; intros state cp out buf; cbn [dump_chars dump_text].
  { destruct (state =? UTF8_ACCEPT); [|done]. by rewrite app_nil_r. }
  destruct (decode state cp c) as [st cp']. unfold UTF8_ACCEPT, UTF8_REJECT in *. destruct (Z.eqb_spec st 0) as [->|Hne].
  - change (0 =? 1) with false. cbv iota.
    destruct (_ <? _)%nat; rewrite IH; destruct (dump_text s 0 cp'); try done; cbn [app]; by rewrite <- !app_assoc.
  - destruct (st =? 1); [done|]. rewrite IH. destruct (dump_text s st cp'); [|done]. by rewrite <- !app_assoc.
Qed.

Lemma dump_escaped_text s : dump_escaped false s = dump_text s UTF8_ACCEPT 0.
Proof.
  unfold dump_escaped. rewrite dump_chars_text. cbn [app]. by destruct (dump_text s UTF8_ACCEPT 0).
Qed.

(** ** Code points *)

(** What is known of the code point in a state. *)
Definition known (state codep : Z) : Prop :=
  (if state =? 2 then 2 else if (state =? 4) || (state =? 6) then 0 else 1) <= codep <
  (if state =? 2 then 2 ^ 15 else if state <=? 5 then 2 ^ 9 else 2 ^ 3).

Lemma append_bits codep v : 0 <= codep < 2 ^ 20 -> Z.lor (Z.land v 63) (wrap 32 (Z.shiftl codep 6)) = codep * 64 + v mod 64.
Proof.
  intros H. rewrite Z.shiftl_mul_pow2 by lia. change (2 ^ 6) with 64. rewrite wrap_small by (unfold is_word; lia).
  change 63 with (Z.ones 6). rewrite Z.land_ones by lia. change (2 ^ 6) with 64.
  replace (codep * 64) with (Z.shiftl codep 6) by (by rewrite Z.shiftl_mul_pow2).
  rewrite lor_shiftl_add by (change (2 ^ 6) with 64; zdm). rewrite Z.shiftl_mul_pow2 by lia. change (2 ^ 6) with 64. lia.
Qed.

Lemma first_codep b codep : first_state (b2z b) = 0 -> (decode 0 codep b).2 = b2z b.
Proof.
  change (decode 0 codep b) with (decode 0 0 b). intros H.
  assert (Hb : negb (first_state (b2z b) =? 0) || ((decode 0 0 b).2 =? b2z b) = true) by (revert b H; intros b _; revert b; apply byte_check; vm_compute; reflexivity).
  rewrite H in Hb. by apply Z.eqb_eq in Hb.
Qed.

Definition knownb (state codep : Z) : bool :=
  ((if state =? 2 then 2 else if (state =? 4) || (state =? 6) then 0 else 1) <=? codep) &&
  (codep <? (if state =? 2 then 2 ^ 15 else if state <=? 5 then 2 ^ 9 else 2 ^ 3)).

Lemma first_known b codep : 2 <= first_state (b2z b) -> known (first_state (b2z b)) (decode 0 codep b).2.
Proof.
  change (decode 0 codep b) with (decode 0 0 b). intros H.
  assert (Hb : (first_state (b2z b) <=? 1) || knownb (first_state (b2z b)) (decode 0 0 b).2 = true).
  { clear H. revert b. apply byte_check. vm_compute. reflexivity. }
  apply orb_true_iff in Hb as [Hb|Hb]; [lia|]. unfold knownb in Hb. unfold known. lia.
Qed.

Lemma more_known state codep b : 2 <= state <= 8 -> known state codep -> inside (range_of state) (b2z b) = true ->
  let codep' := (decode state codep b).2 in
  if next_of state =? 0 then 128 <= codep' else known (next_of state) codep'.
Proof.
  intros Hs Hk Hin. cbv zeta. unfold decode. cbn [snd]. replace (negb (state =? UTF8_ACCEPT)) with true by (unfold UTF8_ACCEPT; lia).
  assert (Hc : 0 <= codep < 2 ^ 20) by (unfold known in Hk; repeat case_match; lia). rewrite append_bits by done.
  unfold known, inside, range_of, next_of in *.
  assert (Hall : state = 2 \/ state = 3 \/ state = 4 \/ state = 5 \/ state = 6 \/ state = 7 \/ state = 8) by lia.
  destruct Hall as [-> | [-> | [-> | [-> | [-> | [-> | ->]]]]]]; cbn in Hk, Hin |- *; zdm.
Qed.

Lemma dump_text_start s codep : dump_text s 0 codep = dump_text s 0 0.
Proof. by destruct s. Qed.

(** The rest of a code point: its bytes are copied, and the scanner asks for them. *)
Lemma escape_copied cp c : 128 <= cp -> escape false cp c = [c].
Proof.
  intros H. unfold escape, store. cbn [andb]. rewrite orb_false_r.
  repeat match goal with |- context [if ?b then _ else _] => replace b with false by lia end. done.
Qed.

Lemma more_text s : forall state codep t, 2 <= state <= 8 -> known state codep -> dump_text s state codep = Some t ->
  exists tl s' t', s = tl ++ s' /\ t = tl ++ t' /\ dump_text s' 0 0 = Some t' /\
    forall z, next_byte_in_range (ranges_of state) (tl ++ z) = Some (tl, z).
Proof.
  induction s as [|c s IH]; intros state codep t Hs Hk Ht; cbn [dump_text] in Ht.
  { replace (state =? UTF8_ACCEPT) with false in Ht by (unfold UTF8_ACCEPT; lia). done. }
  destruct (decode state codep c) as [st cp] eqn:E. pose proof (decode_step state codep c) as Hst. rewrite E in Hst. cbn [fst] in Hst.
  rewrite step_inside in Hst by done. pose proof (more_known state codep c Hs Hk) as Hm. rewrite E in Hm. cbv zeta in Hm. cbn [snd] in Hm.
  destruct (inside (range_of state) (b2z c)) eqn:Ei; [|by subst st]. specialize (Hm eq_refl). subst st.
  rewrite ranges_of_next by done. destruct (range_of state) as [lo hi] eqn:Er. cbn [next_byte_in_range app].
  assert (Hn : next_of state = 0 \/ 2 <= next_of state <= 8) by (unfold next_of; repeat case_match; lia).
  unfold UTF8_REJECT, UTF8_ACCEPT in Ht. replace (next_of state =? 1) with false in Ht by lia.
  destruct (dump_text s (next_of state) cp) as [t1|] eqn:Et; [|done]. injection Ht as <-.
  destruct Hn as [Hn|Hn].
  - rewrite Hn in *. cbn [Z.eqb] in Hm. change (0 =? 0) with true in *. cbv iota in *. exists [c], s, t1. split; [done|]. split.
    { rewrite escape_copied by lia. done. }
    rewrite dump_text_start in Et. split; [done|]. intros z. change (ranges_of 0) with (@nil (Z * Z)). cbn [app next_byte_in_range].
    unfold inside in Ei. cbn in Ei. by rewrite Ei.
  - replace (next_of state =? 0) with false in * by lia. destruct (IH _ _ _ Hn Hm Et) as (tl & s' & t' & -> & -> & Ht' & Hz).
    exists (c :: tl), s', t'. split; [done|]. split; [done|]. split; [done|]. intros z. cbn [app].
    unfold inside in Ei. cbn in Ei. by rewrite Ei, Hz.
Qed.

(** An ASCII character, escaped or not, is scanned back. *)
Lemma ascii_scanned b : first_state (b2z b) = 0 -> exists e0 e, escape false (b2z b) b = e0 :: e /\ e0 <> quote /\
  forall z, scan_char e0 (e ++ z) = Some ([b], z).
Proof. intros H. destruct b; try (vm_compute in H; discriminate H); eexists _, _; (split; [vm_compute; reflexivity|split; [done|intros z; reflexivity]]). Qed.

Lemma scan_dumped n : forall s t, (length s <= n)%nat -> dump_text s 0 0 = Some t -> forall fuel buf rest, (length t < fuel)%nat ->
  scan_string_loop fuel (t ++ quote :: rest) buf = (TString (buf ++ s), rest).
Proof.
  induction n as [|n IH]; intros s t Hn Ht fuel buf rest Hf; (destruct s as [|c s]; [injection Ht as <-; destruct fuel; [cbn in Hf; lia|]; cbn; by rewrite app_nil_r|]); [cbn in Hn; lia|].
  cbn [length dump_text] in Hn, Ht. destruct (decode 0 0 c) as [st cp] eqn:E.
  pose proof (decode_step 0 0 c) as Hst. rewrite E, step_first in Hst. cbn [fst] in Hst. subst st.
  destruct (first_state_range (b2z c)) as [H0|[H1|H2]].
  - pose proof (first_codep c 0 H0) as Hcp. rewrite E in Hcp. cbn in Hcp. subst cp. rewrite H0 in Ht. cbn in Ht.
    rewrite dump_text_start in Ht. destruct (dump_text s 0 0) as [t1|] eqn:Et; [|done]. injection Ht as <-.
    destruct (ascii_scanned c H0) as (e0 & e & Ee & Hq & Hz). rewrite Ee in Hf |- *. cbn [app length] in Hf |- *. rewrite length_app in Hf.
    destruct fuel as [|fuel]; [lia|]. cbn [scan_string_loop]. rewrite bool_decide_eq_false_2 by done. rewrite <- app_assoc, Hz.
    rewrite (IH s t1 ltac:(lia) Et) by lia. by rewrite <- app_assoc.
  - by rewrite H1 in Ht.
  - pose proof (first_known c 0 ltac:(lia)) as Hk. rewrite E in Hk. cbn in Hk.
    unfold UTF8_REJECT, UTF8_ACCEPT in Ht. replace (first_state (b2z c) =? 1) with false in Ht by lia.
    replace (first_state (b2z c) =? 0) with false in Ht by lia.
    destruct (dump_text s (first_state (b2z c)) cp) as [t1|] eqn:Et; [|done]. injection Ht as <-.
    destruct (more_text s _ _ _ H2 Hk Et) as (tl & s' & t' & -> & -> & Ht' & Hz).
    destruct fuel as [|fuel]; [lia|]. cbn [app length scan_string_loop] in *. rewrite !length_app in *.
    assert (Hc : c <> quote /\ c <> backslash /\ ~ b2z c <= 0x1F).
    { unfold first_state in H2. destruct (Z.leb_spec (b2z c) 0x7F) as [|Hb]; [lia|]. split_and!; [intros ->; cbn in Hb; lia..|lia]. }
    destruct Hc as (Hq & Hbs & Hctl). rewrite bool_decide_eq_false_2 by done. unfold scan_char. rewrite bool_decide_eq_false_2 by done.
    replace (b2z c <=? 31) with false by lia. rewrite utf8_ranges_first. unfold UTF8_REJECT. replace (first_state (b2z c) =? 1) with false by lia.
    rewrite <- app_assoc, Hz, (IH s' t' ltac:(lia) Ht') by lia. by rewrite <- app_assoc.
Qed.

(** What [dump_escaped] prints between quotes is the string again. *)
Lemma dumped_string s t rest : dump_escaped false s = Some t -> scan_string (t ++ quote :: rest) = (TString s, rest).
Proof.
  rewrite dump_escaped_text. intros H. unfold scan_string. rewrite (scan_dumped (length s) s t ltac:(done) H); [done|].
  rewrite length_app. cbn. lia.
Qed.

(** ** UTF-8

    The code points of Unicode, and the texts that are made of their encodings:
    what [dump_escaped] accepts, and what the scanner yields. *)

Definition scalar (cp : Z) : Prop := 0 <= cp <= 0x10FFFF /\ ~ (0xD800 <= cp <= 0xDFFF).

Inductive utf8_text : bytes -> Prop :=
  | utf8_nil : utf8_text []
  | utf8_char cp s : scalar cp -> utf8_text s -> utf8_text (utf8_encode cp ++ s).

Lemma utf8_text_app s t : utf8_text s -> utf8_text t -> utf8_text (s ++ t).
Proof. induction 1; intros Ht; [done|]. rewrite <- app_assoc. constructor; auto. Qed.

(** The bytes behind a leading byte in arithmetic. *)
Lemma lead_byte m k a : 0 <= k -> 0 <= a < 2 ^ k -> Z.lor (m * 2 ^ k) a = m * 2 ^ k + a.
Proof. intros Hk Ha. rewrite Z.lor_comm, <- Z.shiftl_mul_pow2, lor_shiftl_add, Z.shiftl_mul_pow2 by done. lia. Qed.

Lemma trail_byte a : Z.lor 0x80 (Z.land a 0x3F) = 0x80 + a mod 64.
Proof.
  change 0x3F with (Z.ones 6). rewrite Z.land_ones by lia. change 0x80 with (2 * 2 ^ 6). apply lead_byte; [done|].
  apply Z.mod_pos_bound. done.
Qed.

Definition encode_spec (cp : Z) : bytes :=
  if cp <? 0x80 then [z2b cp]
  else if cp <=? 0x7FF then [z2b (0xC0 + cp / 64); z2b (0x80 + cp mod 64)]
  else if cp <=? 0xFFFF then [z2b (0xE0 + cp / 4096); z2b (0x80 + cp / 64 mod 64); z2b (0x80 + cp mod 64)]
  else [z2b (0xF0 + cp / 262144); z2b (0x80 + cp / 4096 mod 64); z2b (0x80 + cp / 64 mod 64); z2b (0x80 + cp mod 64)].

Lemma utf8_encode_arith cp : 0 <= cp <= 0x10FFFF -> utf8_encode cp = encode_spec cp.
Proof.
  intros H. unfold utf8_encode, encode_spec. rewrite !trail_byte, !Z.shiftr_div_pow2 by lia.
  change (2 ^ 6) with 64. change (2 ^ 12) with 4096. change (2 ^ 18) with 262144.
  destruct (Z.ltb_spec cp 128); [done|]. destruct (Z.leb_spec cp 0x7FF); [|destruct (Z.leb_spec cp 0xFFFF)].
  - change 0xC0 with (6 * 2 ^ 5) at 1. by rewrite lead_byte by (change (2 ^ 5) with 32; zdm).
  - change 0xE0 with (14 * 2 ^ 4) at 1. by rewrite lead_byte by (change (2 ^ 4) with 16; zdm).
  - change 0xF0 with (30 * 2 ^ 3) at 1. by rewrite lead_byte by (change (2 ^ 3) with 8; zdm).
Qed.

(** A leading byte and the bytes in the ranges it asks for. *)
Definition one_char (l : bytes) : Prop :=
  exists c tl rs, l = c :: tl /\ utf8_ranges (b2z c) = Some rs /\ next_byte_in_range rs tl = Some (tl, []).

Lemma next_byte_all rs : forall tl s r, next_byte_in_range rs s = Some (tl, r) ->
  s = tl ++ r /\ Forall2 (fun b lh => lh.1 <= b2z b <= lh.2) tl rs.
Proof.
  induction rs as [|[lo hi] rs IH]; intros tl s r H; cbn [next_byte_in_range] in H; [injection H as <- <-; by split|].
  destruct s as [|b s]; [done|]. destruct (_ && _) eqn:E; [|done]. destruct (next_byte_in_range rs s) as [[a t]|] eqn:En; [|done].
  injection H as <- <-. apply IH in En as [-> Hf]. split; [done|]. constructor; [cbn; lia|done].
Qed.

Lemma next_byte_in rs : forall tl r, Forall2 (fun b lh => lh.1 <= b2z b <= lh.2) tl rs ->
  next_byte_in_range rs (tl ++ r) = Some (tl, r).
Proof.
  intros tl r H. induction H as [|b [lo hi] tl rs Hb _ IH]; [done|]. cbn [app next_byte_in_range]. cbn in Hb.
  replace ((lo <=? b2z b) && (b2z b <=? hi)) with true by lia. by rewrite IH.
Qed.

Lemma z2b_eq z b : z = b2z b -> z2b z = b.
Proof. intros ->. apply z2b_b2z. Qed.

Lemma encode_spec_2 a b : 0xC2 <= b2z a <= 0xDF -> 0x80 <= b2z b <= 0xBF ->
  encode_spec ((b2z a - 0xC0) * 64 + (b2z b - 0x80)) = [a; b].
Proof.
  intros Ha Hb. set (cp := _ + _). assert (Hcp : 0x80 <= cp <= 0x7FF) by (unfold cp; lia). unfold encode_spec.
  repeat (case_match; [lia|]). replace (cp <=? 0x7FF) with true by lia.
  do 2 f_equal; [|f_equal]; apply z2b_eq; unfold cp; zdm.
Qed.

Lemma encode_spec_3 a b c : 0xE0 <= b2z a <= 0xEF -> 0x80 <= b2z b <= 0xBF -> 0x80 <= b2z c <= 0xBF ->
  (b2z a = 0xE0 -> 0xA0 <= b2z b) ->
  encode_spec ((b2z a - 0xE0) * 4096 + (b2z b - 0x80) * 64 + (b2z c - 0x80)) = [a; b; c].
Proof.
  intros Ha Hb Hc Hlo. set (cp := _ + _). assert (Hcp : 0x800 <= cp <= 0xFFFF) by (unfold cp; lia). unfold encode_spec.
  replace (cp <? 0x80) with false by lia. replace (cp <=? 0x7FF) with false by lia. replace (cp <=? 0xFFFF) with true by lia.
  f_equal; [|f_equal; [|f_equal]]; apply z2b_eq; unfold cp; zdm.
Qed.

Lemma encode_spec_4 a b c d : 0xF0 <= b2z a <= 0xF4 -> 0x80 <= b2z b <= 0xBF -> 0x80 <= b2z c <= 0xBF -> 0x80 <= b2z d <= 0xBF ->
  (b2z a = 0xF0 -> 0x90 <= b2z b) ->
  encode_spec ((b2z a - 0xF0) * 262144 + (b2z b - 0x80) * 4096 + (b2z c - 0x80) * 64 + (b2z d - 0x80)) = [a; b; c; d].
Proof.
  intros Ha Hb Hc Hd Hlo. set (cp := _ + _). assert (Hcp : 0x10000 <= cp) by (unfold cp; lia). unfold encode_spec.
  replace (cp <? 0x80) with false by lia. replace (cp <=? 0x7FF) with false by lia. replace (cp <=? 0xFFFF) with false by lia.
  f_equal; [|f_equal; [|f_equal; [|f_equal]]]; apply z2b_eq; unfold cp; zdm.
Qed.

(** A character of the scanner is the encoding of a code point. *)
Lemma one_char_code c tl rs s r : utf8_ranges (b2z c) = Some rs -> next_byte_in_range rs s = Some (tl, r) ->
  exists cp, scalar cp /\ c :: tl = utf8_encode cp.
Proof.
  intros Hr Hn. apply next_byte_all in Hn as [-> Hf]. unfold utf8_ranges in Hr. pose proof (b2z_range c) as Hc.
  assert (Hgo : forall cp, scalar cp -> encode_spec cp = c :: tl -> exists cp, scalar cp /\ c :: tl = utf8_encode cp).
  { intros cp Hs E. exists cp. split; [done|]. unfold scalar in Hs. by rewrite utf8_encode_arith by lia. }
  repeat (match type of Hr with context [if ?b then _ else _] => destruct b eqn:? end); try done; injection Hr as <-;
    repeat match goal with H : Forall2 _ _ (_ :: _) |- _ => apply Forall2_cons_inv_r in H as (? & ? & ? & ? & ->); cbn [fst snd] in * end;
    match goal with H : Forall2 _ _ [] |- _ => apply Forall2_nil_inv_r in H as -> end.
  - apply (Hgo (b2z c)); [unfold scalar; lia|]. unfold encode_spec. replace (b2z c <? 128) with true by lia. by rewrite (z2b_eq _ c).
  - eapply Hgo; [|apply encode_spec_2; lia]. unfold scalar. lia.
  - eapply Hgo; [|apply encode_spec_3; lia]. unfold scalar. lia.
  - eapply Hgo; [|apply encode_spec_3; lia]. unfold scalar. lia.
  - eapply Hgo; [|apply encode_spec_3; lia]. unfold scalar. lia.
  - eapply Hgo; [|apply encode_spec_4; lia]. unfold scalar. lia.
  - eapply Hgo; [|apply encode_spec_4; lia]. unfold scalar. lia.
  - eapply Hgo; [|apply encode_spec_4; lia]. unfold scalar. lia.
Qed.

(** ... and the encoding of a code point is one. *)
Lemma utf8_ranges_3 v : 0xE0 <= v <= 0xEF -> utf8_ranges v =
  Some [(if v =? 0xE0 then 0xA0 else 0x80, if v =? 0xED then 0x9F else 0xBF); (0x80, 0xBF)].
Proof. intros H. unfold utf8_ranges. repeat (case_match; try lia); done. Qed.

Lemma utf8_ranges_4 v : 0xF0 <= v <= 0xF4 -> utf8_ranges v =
  Some [(if v =? 0xF0 then 0x90 else 0x80, if v =? 0xF4 then 0x8F else 0xBF); (0x80, 0xBF); (0x80, 0xBF)].
Proof. intros H. unfold utf8_ranges. repeat (case_match; try lia); done. Qed.

Lemma one_char_ranges v rs tl : 0 <= v < 256 -> utf8_ranges v = Some rs ->
  Forall2 (fun z lh => (0 <= z < 256) /\ lh.1 <= z <= lh.2) tl rs -> one_char (z2b v :: map z2b tl).
Proof.
  intros Hv Hr Hf. exists (z2b v), (map z2b tl), rs. split; [done|]. rewrite b2z_z2b_small by done. split; [done|].
  rewrite <- (app_nil_r (map z2b tl)) at 1. apply next_byte_in. apply Forall2_fmap_l. eapply Forall2_impl; [done|].
  cbn. intros z lh [Hz Hb]. by rewrite b2z_z2b_small.
Qed.

Lemma code_one_char cp : scalar cp -> one_char (utf8_encode cp).
Proof.
  intros [H Hs]. rewrite utf8_encode_arith by done. unfold encode_spec.
  destruct (Z.ltb_spec cp 0x80); [|destruct (Z.leb_spec cp 0x7FF); [|destruct (Z.leb_spec cp 0xFFFF)]].
  - apply (one_char_ranges cp [] []); [lia|unfold utf8_ranges; by replace (cp <=? 127) with true by lia|constructor].
  - apply (one_char_ranges _ [(0x80, 0xBF)] [_]); [zdm| |repeat constructor; cbn; zdm].
    unfold utf8_ranges. replace (_ <=? 127) with false by zdm. by replace (_ && _) with true by zdm.
  - eapply (one_char_ranges _ _ [_; _]); [zdm|apply utf8_ranges_3; zdm|].
    repeat constructor; cbn [fst snd]; try zdm; case_match; zdm.
  - eapply (one_char_ranges _ _ [_; _; _]); [zdm|apply utf8_ranges_4; zdm|].
    repeat constructor; cbn [fst snd]; try zdm; case_match; zdm.
Qed.

(** The automaton on a character. *)
Lemma dump_text_more tl : forall state codep s, 2 <= state <= 8 -> next_byte_in_range (ranges_of state) tl = Some (tl, []) ->
  is_Some (dump_text s 0 0) -> is_Some (dump_text (tl ++ s) state codep).
Proof.
  induction tl as [|b tl IH]; intros state codep s Hs Hn Ht; rewrite ranges_of_next in Hn by done;
    destruct (range_of state) as [lo hi] eqn:Er; cbn [next_byte_in_range] in Hn; [done|].
  destruct (_ && _) eqn:Ei; [|done]. destruct (next_byte_in_range (ranges_of (next_of state)) tl) as [[a t]|] eqn:En; [|done].
  injection Hn as -> ->. cbn [app dump_text]. destruct (decode state codep b) as [st cp] eqn:E.
  pose proof (decode_step state codep b) as Hst. rewrite E in Hst. cbn [fst] in Hst. rewrite step_inside, Er in Hst by done.
  unfold inside in Hst. cbn [fst snd] in Hst. rewrite Ei in Hst. subst st.
  assert (Hn : next_of state = 0 \/ 2 <= next_of state <= 8) by (unfold next_of; repeat case_match; lia).
  unfold UTF8_REJECT. replace (next_of state =? 1) with false by lia.
  assert (Hd : is_Some (dump_text (tl ++ s) (next_of state) cp)).
  { destruct Hn as [Hn|Hn]; [|by apply IH]. rewrite Hn in *. change (ranges_of 0) with (@nil (Z * Z)) in En.
    injection En as <-. by rewrite dump_text_start. }
  destruct Hd as [x ->]. eauto.
Qed.

Lemma dump_text_char l s : one_char l -> is_Some (dump_text s 0 0) -> is_Some (dump_text (l ++ s) 0 0).
Proof.
  intros (c & tl & rs & -> & Hr & Hn) Ht. rewrite utf8_ranges_first in Hr. unfold UTF8_REJECT in Hr.
  destruct (Z.eqb_spec (first_state (b2z c)) 1) as [|H1]; [done|]. injection Hr as <-. cbn [app dump_text].
  destruct (decode 0 0 c) as [st cp] eqn:E. pose proof (decode_step 0 0 c) as Hst. rewrite E, step_first in Hst. cbn [fst] in Hst.
  subst st. unfold UTF8_REJECT. destruct (Z.eqb_spec (first_state (b2z c)) 1) as [|_]; [done|].
  assert (Hd : is_Some (dump_text (tl ++ s) (first_state (b2z c)) cp)).
  { destruct (first_state_range (b2z c)) as [H0|[?|H2]]; [|done|by apply dump_text_more].
    rewrite H0 in *. injection Hn as <-. by rewrite dump_text_start. }
  destruct Hd as [x ->]. eauto.
Qed.

(** [dump_escaped] prints UTF-8 and throws on anything else. *)
Lemma dump_text_utf8 n : forall s, (length s <= n)%nat -> is_Some (dump_text s 0 0) -> utf8_text s.
Proof.
  induction n as [|n IH]; intros [|c s] Hn [t Ht]; try constructor; cbn [length dump_text] in *; [lia|].
  destruct (decode 0 0 c) as [st cp] eqn:E. pose proof (decode_step 0 0 c) as Hst. rewrite E, step_first in Hst. cbn [fst] in Hst. subst st.
  destruct (first_state_range (b2z c)) as [H0|[H1|H2]]; [|by rewrite H1 in Ht|].
  - rewrite H0 in Ht. cbn in Ht. rewrite dump_text_start in Ht. destruct (dump_text s 0 0) eqn:Es; [|done].
    destruct (one_char_code c [] [] s s) as (k & Hk & Ek); [by rewrite utf8_ranges_first, H0|done|].
    change (c :: s) with ([c] ++ s). rewrite Ek. constructor; [done|]. apply IH; [lia|by eexists].
  - pose proof (first_known c 0 ltac:(lia)) as Hk. rewrite E in Hk. cbn [snd] in Hk. unfold UTF8_REJECT in Ht.
    replace (first_state (b2z c) =? 1) with false in Ht by lia.
    destruct (dump_text s (first_state (b2z c)) cp) as [t1|] eqn:Et; [|done].
    destruct (more_text s _ _ _ H2 Hk Et) as (tl & s' & t' & -> & _ & Ht' & Hz).
    destruct (one_char_code c tl (ranges_of (first_state (b2z c))) (tl ++ s') s') as (k & Hc & Ek).
    { rewrite utf8_ranges_first. unfold UTF8_REJECT. by replace (first_state (b2z c) =? 1) with false by lia. }
    { apply Hz. }
    rewrite app_comm_cons, Ek. constructor; [done|]. rewrite length_app in Hn. apply IH; [lia|by eexists].
Qed.

Lemma dump_escaped_utf8 s : is_Some (dump_escaped false s) <-> utf8_text s.
Proof.
  rewrite dump_escaped_text. split; [by apply (dump_text_utf8 (length s))|]. induction 1; [by eexists|].
  by apply dump_text_char; [apply code_one_char|].
Qed.

(** ** What the scanner makes of a text *)

Lemma utf8_char1 b : b2z b < 0x80 -> utf8_text [b].
Proof.
  intros H. pose proof (b2z_range b). change [b] with ([b] ++ []). replace [b] with (utf8_encode (b2z b)).
  - constructor; [unfold scalar; lia|constructor].
  - unfold utf8_encode. replace (b2z b <? 128) with true by lia. by rewrite z2b_b2z.
Qed.

Lemma utf8_ascii s : Forall (fun b => b2z b < 0x80) s -> utf8_text s.
Proof. induction 1 as [|b s Hb _ IH]; [constructor|]. apply (utf8_text_app [b]); [by apply utf8_char1|done]. Qed.

Lemma utf8_code cp : scalar cp -> utf8_text (utf8_encode cp).
Proof. intros H. rewrite <- (app_nil_r (utf8_encode cp)). apply utf8_char; [done|constructor]. Qed.

Lemma get_codepoint_range factors : forall s cp cp' s',
  get_codepoint_loop factors s cp = Some (cp', s') -> Forall (fun f => 0 <= f) factors ->
  cp <= cp' <= cp + fold_right (fun f acc => 15 * 2 ^ f + acc) 0 factors.
Proof.
  induction factors as [|f fs IH]; intros s cp cp' s' H Hf; cbn [get_codepoint_loop fold_right] in *; [injection H as <- _; lia|].
  apply Forall_cons in Hf as [Hf Hfs]. destruct s as [|c s]; [done|]. pose proof (Z.pow_pos_nonneg 2 f ltac:(lia) Hf) as Hp.
  assert (Hd : forall d, 0 <= d <= 15 -> get_codepoint_loop fs s (cp + Z.shiftl d f) = Some (cp', s') ->
    cp <= cp' <= cp + (15 * 2 ^ f + fold_right (fun f acc => 15 * 2 ^ f + acc) 0 fs)).
  { intros d Hd E. apply IH in E; [|done]. rewrite Z.shiftl_mul_pow2 in E by done. nia. }
  repeat (match type of H with context [if ?b then _ else _] => destruct b eqn:? end); try done; (eapply Hd; [|exact H]); lia.
Qed.

Lemma get_codepoint_word s cp s' : get_codepoint s = Some (cp, s') -> 0 <= cp <= 0xFFFF.
Proof. intros H. apply get_codepoint_range in H; [cbn in H; lia|]. repeat constructor; lia. Qed.

Lemma scan_codepoint_scalar s cp s' : scan_codepoint s = Some (cp, s') -> scalar cp.
Proof.
  unfold scan_codepoint. destruct (get_codepoint s) as [[c1 s1]|] eqn:E1; [|done]. apply get_codepoint_word in E1.
  destruct ((0xD800 <=? c1) && (c1 <=? 0xDBFF)) eqn:Eh.
  - destruct s1 as [|b [|u s1]]; try done. case_bool_decide; [|done].
    destruct (get_codepoint s1) as [[c2 s2]|] eqn:E2; [|done]. apply get_codepoint_word in E2.
    destruct ((0xDC00 <=? c2) && (c2 <=? 0xDFFF)) eqn:El; [|done]. intros Hcp. apply (inj Some), (f_equal fst) in Hcp. cbn [fst] in Hcp. subst cp. rewrite Z.shiftl_mul_pow2 by lia. change (2 ^ 10) with 1024.
    rewrite (wrap_small 32 (c1 * 1024)) by (unfold is_word; lia). rewrite wrap_small by (unfold is_word; lia). unfold scalar. lia.
  - destruct ((0xDC00 <=? c1) && (c1 <=? 0xDFFF)) eqn:El; [done|]. intros [= <- _]. unfold scalar. lia.
Qed.

Lemma scan_escape_utf8 s a s' : scan_escape s = Some (a, s') -> utf8_text a.
Proof.
  unfold scan_escape. destruct s as [|e s]; [done|].
  repeat (case_bool_decide; [intros [= <- _]; apply utf8_char1; by vm_compute|]).
  case_bool_decide; [|done].
  destruct (scan_codepoint s) as [[cp r]|] eqn:E; [|done]. intros [= <- _]. by eapply utf8_code, scan_codepoint_scalar.
Qed.

Lemma scan_char_utf8 c s a s' : scan_char c s = Some (a, s') -> utf8_text a.
Proof.
  unfold scan_char. case_bool_decide; [apply scan_escape_utf8|]. destruct (_ <=? _); [done|].
  destruct (utf8_ranges (b2z c)) as [rs|] eqn:Er; [|done]. destruct (next_byte_in_range rs s) as [[tl r]|] eqn:En; [|done].
  intros [= <- _]. destruct (one_char_code _ _ _ _ _ Er En) as (cp & Hs & ->). by apply utf8_code.
Qed.

Lemma scan_string_loop_utf8 fuel : forall s buf x s',
  scan_string_loop fuel s buf = (TString x, s') -> utf8_text buf -> utf8_text x.
Proof.
  induction fuel as [|fuel IH]; intros s buf x s' H Hb; [done|]. cbn [scan_string_loop] in H. destruct s as [|c s]; [done|].
  case_bool_decide; [by injection H as <- _|]. destruct (scan_char c s) as [[a r]|] eqn:E; [|done].
  eapply IH; [done|]. apply utf8_text_app; [done|]. by eapply scan_char_utf8.
Qed.

(** A string token is UTF-8, whatever the text. *)
Lemma scan_string_utf8 s x s' : scan_string s = (TString x, s') -> utf8_text x.
Proof. intros H. eapply scan_string_loop_utf8; [done|constructor]. Qed.

(** ** The buffer of [dump_escaped] *)

(** The longest is the escaped surrogate pair with the NUL. *)
Lemma stored_length ascii cp c : (length (store ascii cp c).1 <= 13)%nat.
Proof. unfold store. repeat case_match; cbn; lia. Qed.

Lemma stored_length_utf8 cp c : (length (store false cp c).1 <= 7)%nat.
Proof. unfold store. repeat case_match; cbn; lia. Qed.

(** The bytes a state still waits for. *)
Definition awaited (state : Z) : nat := length (ranges_of state).

Definition room_left (ensure_ascii : bool) (state : Z) (buf : bytes) : Prop :=
  if ensure_ascii then (length buf <= 499)%nat
  else (state = 0 /\ (length buf <= 499)%nat) \/ (2 <= state <= 8 /\ (length buf + awaited state <= 503)%nat).

Lemma awaited_next state : 2 <= state <= 8 -> awaited state = S (awaited (next_of state)).
Proof. intros H. unfold awaited. by rewrite ranges_of_next. Qed.

Lemma awaited_first v : 2 <= first_state v <= 8 -> (awaited (first_state v) <= 3)%nat.
Proof. unfold awaited, ranges_of. intros H. repeat case_match; cbn; lia. Qed.

Lemma dump_chars_room ascii s : forall state cp out buf state' out' buf',
  dump_chars ascii s state cp out buf = Some (state', out', buf') ->
  (state = 0 \/ 2 <= state <= 8) -> room_left ascii state buf -> room_left ascii state' buf'.
Proof.
  induction s as [|c s IH]; intros state cp out buf state' out' buf' H Hs Hr; cbn [dump_chars] in H; [by injection H as <- _ <-|].
  destruct (decode state cp c) as [st cp'] eqn:E. pose proof (decode_step state cp c) as Hst. rewrite E in Hst. cbn [fst] in Hst.
  unfold UTF8_ACCEPT, UTF8_REJECT in H.
  assert (Hst' : st = 0 \/ st = 1 \/ 2 <= st <= 8).
  { destruct Hs as [->|Hs]; [rewrite step_first in Hst; subst st; apply first_state_range|]. rewrite step_inside in Hst by done. subst st.
    unfold next_of, UTF8_REJECT. repeat case_match; lia. }
  destruct (Z.eqb_spec st 0) as [->|Hne].
  - destruct (Nat.ltb_spec (kStringBuffer - length (buf ++ escape ascii cp' c)) 13) as [Hf|Hf]; apply IH in H; try done; try (by left).
    + unfold room_left. destruct ascii; [cbn; lia|left; cbn; lia].
    + unfold kStringBuffer in Hf. unfold room_left. destruct ascii; [lia|left; split; [done|lia]].
  - destruct (Z.eqb_spec st 1) as [|H1]; [done|]. apply IH in H; [done|by right; lia|]. unfold room_left in *. destruct ascii; [done|].
    right. split; [lia|]. rewrite length_app. cbn [length]. destruct Hs as [->|Hs].
    + rewrite step_first in Hst. subst st. pose proof (awaited_first (b2z c) ltac:(lia)). destruct Hr as [[_ Hr]|[? _]]; lia.
    + rewrite step_inside in Hst by done. destruct (inside _ _); [|done]. destruct Hr as [[-> _]|[_ Hr]]; [lia|].
      rewrite awaited_next in Hr by done. subst st. lia.
Qed.

(** C36: nothing is written behind the end of [string_buffer]: whatever the part of
    the string that has been read, what the next character stores there fits, with
    the NUL that [snprintf] puts behind an escape, and so does a byte that is
    copied. *)
Theorem string_buffer_bound (ascii : bool) (s : bytes) (state cp : Z) (out buf : bytes) (c : byte) :
  dump_chars ascii s UTF8_ACCEPT 0 [] [] = Some (state, out, buf) ->
  (length (buf ++ (store ascii cp c).1) <= kStringBuffer /\ length (buf ++ [c]) <= kStringBuffer)%nat.
Proof.
  intros H. apply dump_chars_room in H; [|by left|destruct ascii; [cbn; lia|left; split; [done|cbn; lia]]].
  rewrite !length_app. unfold kStringBuffer. cbn [length].
  unfold room_left in H. pose proof (stored_length ascii cp c). destruct ascii; [lia|].
  pose proof (stored_length_utf8 cp c). destruct H as [[_ H]|[Hs H]]; [lia|]. rewrite awaited_next in H by done. lia.
Qed.

(** After 499 letters the surrogate pair of U+1F600 fills the buffer to its last
    byte: all of the 13 bytes the code keeps free are needed. *)
Lemma string_buffer_bound_witness :
  length (replicate 499 x61 ++ (store true 0x1f600 x80).1) = kStringBuffer /\
  (length (replicate 499 x61 ++ (store true 0x1f600 x80).1) <= kStringBuffer /\
   length (replicate 499 x61 ++ [x80]) <= kStringBuffer)%nat.
Proof.
  split; [vm_compute; reflexivity|].
  apply (string_buffer_bound true (replicate 499 x61) 0 0x1f600 [] (replicate 499 x61) x80). by vm_compute.
Defined.
