(* ===== verification/JsonParse.v ===== *)
(** * JsonParse: reading JSON (the classes [parser] and [json_sax_dom_parser] of
      cxx_modules/json.hpp)

    [parse] as the program calls it: without a callback, without exceptions, and
    to the end of the input. The library holds pointers into the value it builds;
    here the containers that are not yet closed are a stack, each put into the one
    below it when it is closed. A value that is discarded is never looked at, so
    what an error leaves of the stack does not matter. *)

From S2P Require Import Prelude Text CNum JsonDump JsonLex.
From Stdlib Require Import SpecFloat.

(** ** Building the value ([json_sax_dom_parser]) *)

(** [operator[]] of [std::map] and an assignment: the keys stay in order, the
    value of a key that is there is replaced. *)
Fixpoint map_assign (fields : list (bytes * value)) (key : bytes) (v : value) : list (bytes * value) :=
  match fields with
  | [] => [(key, v)]
  | (k, w) :: rest =>
      if bool_decide (k = key) then (key, v) :: rest
      else if bytes_leb key k then (key, v) :: fields
      else (k, w) :: map_assign rest key v
  end.

(** A container of [ref_stack]; [object_element] is the key of the next value. *)
Inductive frame :=
  | FArray (elements : list value)
  | FObject (fields : list (bytes * value)) (object_element : bytes).

Record Dom := { root : value; ref_stack : list frame }.

Definition handle_value (d : Dom) (v : value) : Dom :=
  match ref_stack d with
  | [] => {| root := v; ref_stack := [] |}
  | FArray l :: fs => {| root := root d; ref_stack := FArray (l ++ [v]) :: fs |}
  | FObject m k :: fs => {| root := root d; ref_stack := FObject (map_assign m k v) k :: fs |}
  end.

Definition start_object (d : Dom) : Dom := {| root := root d; ref_stack := FObject [] [] :: ref_stack d |}.
Definition start_array (d : Dom) : Dom := {| root := root d; ref_stack := FArray [] :: ref_stack d |}.

Definition set_key (d : Dom) (key : bytes) : Dom :=
  match ref_stack d with
  | FObject m _ :: fs => {| root := root d; ref_stack := FObject m key :: fs |}
  | _ => d
  end.

(** [end_object] and [end_array]. *)
Definition end_container (d : Dom) : Dom :=
  match ref_stack d with
  | FObject m _ :: fs => handle_value {| root := root d; ref_stack := fs |} (VObject m)
  | FArray l :: fs => handle_value {| root := root d; ref_stack := fs |} (VArray l)
  | [] => d
  end.

(** ** The parser ([sax_parse_internal]) *)

(** The last token, the characters behind it, the hierarchy ([states]; true is an
    array), and what is built. *)
Record Parser := { last_token : token; input : bytes; states : list bool; dom : Dom }.

(** [get_token]. *)
Definition get_token (p : Parser) : Parser :=
  let '(t, s) := scan (input p) in {| last_token := t; input := s; states := states p; dom := dom p |}.

Definition with_dom (p : Parser) (d : Dom) : Parser :=
  {| last_token := last_token p; input := input p; states := states p; dom := d |}.
Definition with_states (p : Parser) (st : list bool) : Parser :=
  {| last_token := last_token p; input := input p; states := st; dom := dom p |}.

(** How an iteration goes on: to the next one ([continue]), whether it is to skip
    to the evaluation of [states] or not, or out of the loop. *)
Inductive control := Continue (p : Parser) (skip_to_state_evaluation : bool) | Break (p : Parser) | Return (r : option Parser).

(** A key and the colon behind it; the last token is the key's. *)
Definition parse_key (p : Parser) : option Parser :=
  match last_token p with
  | TString key =>
      let p := get_token (with_dom p (set_key (dom p) key)) in
      match last_token p with TNameSeparator => Some p | _ => None end
  | _ => None
  end.

Definition is_finite (f : spec_float) : bool :=
  match f with S754_zero _ | S754_finite _ _ _ => true | _ => false end.

(** The [switch] over the last token; [Break] leaves it with a value parsed. *)
Definition parse_value (p : Parser) : control :=
  let value v := Break (with_dom p (handle_value (dom p) v)) in
  match last_token p with
  | TBeginObject =>
      let p := get_token (with_dom p (start_object (dom p))) in
      match last_token p with
      | TEndObject => Break (with_dom p (end_container (dom p)))
      | _ =>
          match parse_key p with
          | Some p => Continue (get_token (with_states p (false :: states p))) false
          | None => Return None
          end
      end
  | TBeginArray =>
      let p := get_token (with_dom p (start_array (dom p))) in
      match last_token p with
      | TEndArray => Break (with_dom p (end_container (dom p)))
      | _ => Continue (with_states p (true :: states p)) false
      end
  | TFloat f => if is_finite f then value (VFloat f) else Return None
  | TFalse => value (VBool false)
  | TNull => value VNull
  | TTrue => value (VBool true)
  | TInteger z => value (VInteger z)
  | TString s => value (VString s)
  | TUnsigned n => value (VUnsigned n)
  | _ => Return None
  end.

(** The evaluation of [states] behind a value. *)
Definition evaluate (p : Parser) : control :=
  match states p with
  | [] => Return (Some p)
  | is_array :: outer =>
      let p := get_token p in
      let closed := Continue (with_states (with_dom p (end_container (dom p))) outer) true in
      if (is_array : bool) then
        match last_token p with
        | TValueSeparator => Continue (get_token p) false
        | TEndArray => closed
        | _ => Return None
        end
      else
        match last_token p with
        | TValueSeparator =>
            match parse_key (get_token p) with
            | Some p => Continue (get_token p) false
            | None => Return None
            end
        | TEndObject => closed
        | _ => Return None
        end
  end.

(** The loop; [None]: not ended, [Some None]: a parse error. *)
Fixpoint sax_parse_internal (fuel : nat) (p : Parser) (skip_to_state_evaluation : bool) : option (option Parser) :=
  match fuel with
  | O => None
  | S fuel =>
      let c := if skip_to_state_evaluation then Break p else parse_value p in
      match match c with Break p => evaluate p | _ => c end with
      | Continue p skip => sax_parse_internal fuel p skip
      | Break p => Some (Some p)
      | Return r => Some r
      end
  end.

(** [parser::parser] reads the first token. *)
Definition new_parser (s : bytes) : Parser :=
  let '(t, s) := scan_first s in
  {| last_token := t; input := s; states := []; dom := {| root := VNull; ref_stack := [] |} |}.

(** [json::parse(text, nullptr, false)]; [None] is a discarded value. Each
    iteration takes a token, so the length of the text bounds their number. *)
Definition parse (text : bytes) : option value :=
  match sax_parse_internal (length text + 2) (new_parser text) false with
  | Some (Some p) =>
      match last_token (get_token p) with
      | TEndOfInput => Some (root (dom p))
      | _ => None
      end
  | _ => None
  end.

(** ** The parser ends *)

Definition dead (p : Parser) : Prop := last_token p = TParseError \/ last_token p = TEndOfInput.

Definition room (p : Parser) : nat := length (input p).

Lemma get_token_takes p : dead (get_token p) \/ (room (get_token p) < room p)%nat.
Proof.
  unfold get_token, dead, room. pose proof (scan_shorter (input p)) as H. destruct (scan (input p)) as [t s]. cbn in *.
  destruct H as [H|[[H _]|H]]; auto.
Qed.

Lemma get_token_below p t : last_token (get_token p) = t -> t <> TParseError -> t <> TEndOfInput ->
  (room (get_token p) < room p)%nat.
Proof. destruct (get_token_takes p) as [[E|E]|H]; congruence. Qed.

(** Fuel [n] is enough to go on from [p]. *)
Definition fits (n : nat) (p : Parser) (skip : bool) : Prop :=
  (dead p /\ skip = false /\ 1 <= n)%nat \/ (room p + (if skip then 1 else 2) <= n)%nat.

Lemma fits_get_token n p : (room p + 1 <= n)%nat -> fits n (get_token p) false.
Proof. intros H. destruct (get_token_takes p); [left|right; lia]. split; [done|]. split; [done|lia]. Qed.

Lemma parse_key_room p p' : parse_key p = Some p' -> (room p' < room p)%nat /\ exists key, last_token p = TString key.
Proof.
  unfold parse_key. destruct (last_token p) as [| | | | | | | | |key| | | | |] eqn:E; try done.
  set (q := with_dom p _). destruct (last_token (get_token q)) eqn:Eq; try done. intros [= <-].
  split; [by apply (get_token_below q TNameSeparator)|by exists key].
Qed.

Lemma evaluate_fits n p : (room p <= n)%nat ->
  match evaluate p with Continue p' skip => fits n p' skip | Break _ => False | Return _ => True end.
Proof.
  intros Hn. unfold evaluate. destruct (states p) as [|is_array outer]; [done|].
  assert (Hclosed : forall d, (room (get_token p) < room p)%nat -> fits n (with_states (with_dom (get_token p) d) outer) true).
  { intros d H. right. unfold room in *. cbn. lia. }
  destruct is_array; destruct (last_token (get_token p)) eqn:E; try done;
    pose proof (get_token_below p _ E ltac:(done) ltac:(done)) as Hb; try (by apply Hclosed).
  - apply fits_get_token. lia.
  - destruct (parse_key (get_token (get_token p))) as [p2|] eqn:Ek; [|done]. apply parse_key_room in Ek as (Hr & key & Et).
    pose proof (get_token_below (get_token p) _ Et ltac:(done) ltac:(done)). apply fits_get_token. lia.
Qed.

Lemma parse_value_fits n p : fits (S n) p false ->
  match parse_value p with Continue p' skip => fits n p' skip | Break p' => (room p' <= n)%nat | Return _ => True end.
Proof.
  intros Hf. unfold parse_value. destruct Hf as [[[E|E] _]|Hf]; [by rewrite E..|]. cbn in Hf.
  assert (Hv : forall d, (room (with_dom p d) <= n)%nat) by (intros d; unfold room in *; cbn; lia).
  destruct (last_token p) eqn:E; try done; try apply Hv.
  - set (q := with_dom p _). assert (Hq : room q = room p) by done.
    destruct (last_token (get_token q)) eqn:Eq; try (left; split; [by (left + right)|]; split; [done|lia]);
      try (pose proof (get_token_below q _ Eq ltac:(done) ltac:(done)); right; unfold room in *; cbn; lia).
    pose proof (get_token_below q _ Eq ltac:(done) ltac:(done)). unfold room in *. cbn. lia.
  - set (q := with_dom p _). assert (Hq : room q = room p) by done.
    assert (Hk : match parse_key (get_token q) with
      Some p2 => fits n (get_token (with_states p2 (false :: states p2))) false | None => True end).
    { destruct (parse_key (get_token q)) as [p2|] eqn:Ek; [|done]. apply parse_key_room in Ek as (Hr & key & Et).
      pose proof (get_token_below q _ Et ltac:(done) ltac:(done)). apply fits_get_token. unfold room in *. cbn. lia. }
    destruct (last_token (get_token q)) eqn:Eq; try (by destruct (parse_key (get_token q))).
    pose proof (get_token_below q _ Eq ltac:(done) ltac:(done)). unfold room in *. cbn. lia.
  - by destruct (is_finite f).
Qed.

Lemma sax_parse_ends n : forall p skip, fits n p skip -> exists r, sax_parse_internal n p skip = Some r.
Proof.
  induction n as [|n IH]; intros p skip Hf.
  { destruct Hf as [(_ & _ & ?)|?]; [lia|]. destruct skip; lia. }
  cbn [sax_parse_internal].
  assert (He : forall p, (room p <= n)%nat -> exists r,
    match evaluate p with Continue p skip => sax_parse_internal n p skip | Break p => Some (Some p) | Return r => Some r end = Some r).
  { intros q Hq. pose proof (evaluate_fits n q Hq) as H. destruct (evaluate q); [by apply IH|done|eauto]. }
  destruct skip.
  - apply He. destruct Hf as [(_ & ? & _)|?]; [done|lia].
  - pose proof (parse_value_fits n p Hf) as H. destruct (parse_value p) as [q skip|q|r]; [by apply IH|by apply He|eauto].
Qed.

(** More fuel than is needed changes nothing. *)
Lemma sax_parse_more n : forall m p skip r, sax_parse_internal n p skip = Some r -> (n <= m)%nat -> sax_parse_internal m p skip = Some r.
Proof.
  induction n as [|n IH]; intros m p skip r H Hm; [done|]. destruct m as [|m]; [lia|]. cbn [sax_parse_internal] in *.
  destruct (match (if skip then Break p else parse_value p) with Break p => evaluate p | _ => _ end); [|done|done].
  apply (IH m) in H; [done|lia].
Qed.

Lemma new_parser_fits s : fits (length s + 2) (new_parser s) false.
Proof.
  unfold new_parser, fits, room, dead. pose proof (scan_shorter s) as H. unfold scan_first.
  assert (Hs : forall t, (length t <= length s)%nat -> (length (scan t).2 <= length s)%nat \/ (scan t).1 = TParseError).
  { intros t Ht. destruct (scan_shorter t) as [?|[[_ ->]|?]]; [left; lia|left; cbn; lia|by right]. }
  destruct (skip_bom s) as [t|] eqn:E; [|cbn; right; lia].
  assert (Ht : (length t <= length s)%nat).
  { unfold skip_bom in E. destruct s as [|b0 s]; [by injection E as <-|]. case_bool_decide; [|by injection E as <-].
    destruct s as [|b1 [|b2 s]]; try done. case_bool_decide; [|done]. injection E as <-. cbn. lia. }
  destruct (Hs t Ht) as [Hl|Hl]; destruct (scan t) as [k r]; cbn in *; [right; lia|left]. subst k. split; [auto|]. split; [done|lia].
Qed.

(** The loop ends on every text, and what [parse] answers does not depend on its fuel. *)
Lemma parse_ends text : exists r, forall fuel, (length text + 2 <= fuel)%nat ->
  sax_parse_internal fuel (new_parser text) false = Some r.
Proof.
  destruct (sax_parse_ends _ _ _ (new_parser_fits text)) as [r H]. exists r. intros fuel Hf. by eapply sax_parse_more.
Qed.
