(* ===== verification/JsonRound.v ===== *)
(** * JsonRound: integers in JSON

    [dump_integer] writes the decimal digits of its number, and the scanner reads
    them back. *)

From S2P Require Import Prelude Text Handshake CNum JsonDump JsonLex JsonText JsonParse.
From Stdlib Require Import SpecFloat.

(** ** Integers *)

(** The digits of [n] in front of [acc]. *)
Definition digits_of (n : Z) (acc : bytes) : bytes := dec_digits (S (Z.to_nat (Z.log2 n))) n acc.

Lemma dec_digits_fuel f : forall f' n acc, 0 <= n < 2 ^ Z.of_nat (S f) -> n < 2 ^ Z.of_nat (S f') ->
  dec_digits (S f) n acc = dec_digits (S f') n acc.
Proof.
  induction f as [|f IH]; intros f' n acc Hn Hn'.
  - change (2 ^ Z.of_nat 1) with 2 in Hn. cbn [dec_digits]. by replace (n <? 10) with true by lia.
  - cbn [dec_digits]. destruct (Z.ltb_spec n 10); [done|]. rewrite Nat2Z.inj_succ, Z.pow_succ_r in Hn by lia.
    destruct f' as [|f']; [change (2 ^ Z.of_nat 1) with 2 in Hn'; lia|].
    rewrite Nat2Z.inj_succ, Z.pow_succ_r in Hn' by lia. apply IH; [split; [apply Z.div_pos; lia|]|]; apply Z.div_lt_upper_bound; lia.
Qed.

Lemma log2_room n : 0 <= n -> n < 2 ^ Z.of_nat (S (Z.to_nat (Z.log2 n))).
Proof.
  intros Hn. pose proof (Z.log2_nonneg n). rewrite Nat2Z.inj_succ, Z2Nat.id by lia.
  destruct (Z.eq_dec n 0) as [->|]; [done|]. pose proof (Z.log2_spec n ltac:(lia)). lia.
Qed.

Lemma digits_of_small n acc : 0 <= n < 10 -> digits_of n acc = digit n :: acc.
Proof. intros H. unfold digits_of. cbn [dec_digits]. replace (n <? 10) with true by lia. by rewrite Z.mod_small by lia. Qed.

Lemma digits_of_step n acc : 10 <= n -> digits_of n acc = digits_of (n / 10) (digit (n mod 10) :: acc).
Proof.
  intros H. unfold digits_of at 1. cbn [dec_digits]. replace (n <? 10) with false by lia.
  assert (Hl : exists k, Z.to_nat (Z.log2 n) = S k).
  { exists (pred (Z.to_nat (Z.log2 n))). pose proof (Z.log2_le_mono 2 n ltac:(lia)). change (Z.log2 2) with 1 in *. lia. }
  destruct Hl as [k Hk]. rewrite Hk. unfold digits_of.
  pose proof (log2_room n ltac:(lia)) as Hr. rewrite Hk, Nat2Z.inj_succ, Z.pow_succ_r in Hr by lia.
  apply dec_digits_fuel; [|apply log2_room; apply Z.div_pos; lia].
  split; [apply Z.div_pos; lia|]. apply Z.div_lt_upper_bound; lia.
Qed.

Lemma digits_of_app f : forall n acc, 0 <= n < 2 ^ Z.of_nat f -> digits_of n acc = digits_of n [] ++ acc.
Proof.
  induction f as [|f IH]; intros n acc Hn.
  - change (2 ^ Z.of_nat 0) with 1 in Hn. by rewrite !digits_of_small by lia.
  - destruct (Z.lt_ge_cases n 10); [by rewrite !digits_of_small by lia|]. rewrite !(digits_of_step n) by lia.
    rewrite Nat2Z.inj_succ, Z.pow_succ_r in Hn by lia.
    assert (0 <= n / 10 < 2 ^ Z.of_nat f) by (split; [apply Z.div_pos; lia|apply Z.div_lt_upper_bound; lia]).
    rewrite (IH _ (_ :: acc)), (IH _ [_]) by lia. by rewrite <- app_assoc.
Qed.

Definition n_digits (n : Z) : nat := length (digits_of n []).

Lemma n_digits_step n : 10 <= n -> n_digits n = S (n_digits (n / 10)).
Proof.
  intros H. unfold n_digits. rewrite digits_of_step by done.
  rewrite (digits_of_app _ (n / 10) [_]) by (split; [apply Z.div_pos; lia|apply log2_room; apply Z.div_pos; lia]).
  rewrite length_app. cbn. lia.
Qed.

Lemma n_digits_bound k : forall n, (1 <= k)%nat -> 0 <= n < 10 ^ Z.of_nat k -> (n_digits n <= k)%nat.
Proof.
  induction k as [|k IH]; intros n Hk Hn; [lia|]. destruct (Z.lt_ge_cases n 10).
  - unfold n_digits. rewrite digits_of_small by lia. cbn. lia.
  - rewrite n_digits_step by lia. rewrite Nat2Z.inj_succ, Z.pow_succ_r in Hn by lia.
    destruct k as [|k]; [change (10 ^ Z.of_nat 0) with 1 in Hn; lia|].
    assert (n_digits (n / 10) <= S k)%nat; [|lia]. apply IH; [lia|]. split; [apply Z.div_pos; lia|apply Z.div_lt_upper_bound; lia].
Qed.

Lemma count_digits_loop_spec fuel : forall x n, 0 <= x < 10000 ^ Z.of_nat fuel -> (1 <= fuel)%nat ->
  count_digits_loop fuel x n = n - 1 + Z.of_nat (n_digits x).
Proof.
  induction fuel as [|fuel IH]; intros x n Hx Hf; [lia|]. cbn [count_digits_loop].
  assert (H1 : forall y, 0 <= y < 10 -> n_digits y = 1%nat) by (intros y Hy; unfold n_digits; by rewrite digits_of_small by lia).
  destruct (Z.ltb_spec x 10); [rewrite H1; lia|]. rewrite n_digits_step by lia.
  destruct (Z.ltb_spec x 100); [rewrite H1 by zdm; lia|]. rewrite n_digits_step by zdm.
  destruct (Z.ltb_spec x 1000); [rewrite H1 by zdm; lia|]. rewrite n_digits_step by zdm.
  destruct (Z.ltb_spec x 10000); [rewrite H1 by zdm; lia|]. rewrite n_digits_step by zdm.
  rewrite !Z.div_div by lia. change (10 * (10 * (10 * 10))) with 10000.
  rewrite Nat2Z.inj_succ, Z.pow_succ_r in Hx by lia.
  destruct fuel as [|fuel]; [change (10000 ^ Z.of_nat 0) with 1 in Hx; lia|].
  rewrite IH; [lia|split; [apply Z.div_pos; lia|apply Z.div_lt_upper_bound; lia]|lia].
Qed.

Lemma count_digits_spec x : is_word 64 x -> count_digits x = Z.of_nat (n_digits x).
Proof.
  intros Hx. unfold count_digits. rewrite count_digits_loop_spec; [lia| |lia]. destruct Hx. split; [done|].
  eapply Z.lt_trans; [done|]. by vm_compute.
Qed.

(** The buffer while it is filled from the back: [acc] is written, the pointer at
    [k], and in front of it stands what was there before. *)
Definition filled (orig acc post : bytes) (k : nat) : NumberBuffer := (take k orig ++ acc ++ post, k).

Lemma put_here orig acc post k c : (k < length orig)%nat ->
  put (filled orig acc post (S k)) c = filled orig (c :: acc) post k.
Proof.
  intros Hk. unfold put, filled. cbn [fst snd pred]. f_equal.
  destruct (lookup_lt_is_Some_2 orig k Hk) as [x Hx]. rewrite (take_S_r _ _ _ Hx), <- app_assoc.
  rewrite insert_app_r_alt by (rewrite length_take; lia). rewrite length_take, Nat.min_l, Nat.sub_diag by lia. done.
Qed.

Lemma put_pair_here orig acc post k i : (S k < length orig)%nat -> 0 <= i < 100 ->
  put_pair (filled orig acc post (S (S k))) i = filled orig (digit (i / 10) :: digit (i mod 10) :: acc) post k.
Proof.
  intros Hk Hi. unfold put_pair, digits_to_99.
  rewrite (nth_indep _ _ ((fun i => (digit (Z.of_nat i / 10), digit (Z.of_nat i mod 10))) 0%nat)) by (rewrite length_map, length_seq; lia).
  rewrite (map_nth (fun i => (digit (Z.of_nat i / 10), digit (Z.of_nat i mod 10)))), seq_nth by lia. rewrite Nat.add_0_l, Z2Nat.id by lia.
  cbn [fst snd]. rewrite put_here by lia. by rewrite put_here by lia.
Qed.

Lemma digits_of_pair n acc : 100 <= n ->
  digits_of n acc = digits_of (n / 100) (digit (n mod 100 / 10) :: digit (n mod 100 mod 10) :: acc).
Proof.
  intros H. rewrite digits_of_step, digits_of_step by zdm. rewrite Z.div_div by lia. change (10 * 10) with 100.
  do 3 f_equal; f_equal; zdm.
Qed.

Lemma digit_pairs_spec fuel orig post m : forall n acc, 0 < n < 100 ^ Z.of_nat fuel ->
  (m + n_digits n <= length orig)%nat ->
  exists n' acc', digit_pairs fuel n (filled orig acc post (m + n_digits n)) = (n', filled orig acc' post (m + n_digits n')) /\
    0 < n' < 100 /\ digits_of n' acc' = digits_of n acc.
Proof.
  induction fuel as [|fuel IH]; intros n acc Hn Hm; [change (100 ^ Z.of_nat 0) with 1 in Hn; lia|]. cbn [digit_pairs].
  destruct (Z.leb_spec 100 n); [|exists n, acc; split; [done|]; split; [lia|done]].
  assert (E : n_digits n = S (S (n_digits (n / 100)))).
  { rewrite n_digits_step, n_digits_step by zdm. by rewrite Z.div_div by lia. }
  rewrite E in Hm |- *. rewrite !Nat.add_succ_r in Hm |- *. rewrite put_pair_here by zdm.
  rewrite Nat2Z.inj_succ, Z.pow_succ_r in Hn by lia.
  destruct (IH (n / 100) (digit (n mod 100 / 10) :: digit (n mod 100 mod 10) :: acc)) as (n' & acc' & -> & H1 & H2).
  { split; [zdm|]. apply Z.div_lt_upper_bound; lia. }
  { lia. }
  exists n', acc'. split; [done|]. split; [done|]. by rewrite H2, <- digits_of_pair.
Qed.

(** The digits of a number, behind what the first [m] places of the buffer hold. *)
Lemma write_digits orig m n : 0 < n -> is_word 64 n -> (m + n_digits n <= length orig)%nat ->
  let '(abs_value, b) := digit_pairs 10 n (orig, (m + n_digits n)%nat) in
  let b := if 10 <=? abs_value then put_pair b abs_value else put b (digit abs_value) in
  take (m + n_digits n) b.1 = take m orig ++ digits_of n [].
Proof.
  intros Hpos Hn Hm. set (post := drop (m + n_digits n) orig).
  assert (E : (orig, (m + n_digits n)%nat) = filled orig [] post (m + n_digits n)).
  { unfold filled, post. cbn [app]. by rewrite take_drop. }
  rewrite E. destruct (digit_pairs_spec 10 orig post m n []) as (n' & acc & -> & Hn' & Hd).
  { split; [done|]. destruct Hn. eapply Z.lt_trans; [done|]. by vm_compute. }
  { done. }
  set (b := if 10 <=? n' then _ else _).
  assert (Hb : b = filled orig (digits_of n []) post m).
  { unfold b. rewrite <- Hd. destruct (Z.leb_spec 10 n').
    - assert (E2 : n_digits n' = 2%nat) by (rewrite n_digits_step by lia; unfold n_digits; rewrite digits_of_small by zdm; done).
      rewrite E2, !Nat.add_succ_r, Nat.add_0_r. unfold n_digits in Hm. rewrite <- Hd, (digits_of_app _ n' acc) in Hm by (split; [lia|apply log2_room; lia]).
      rewrite length_app in Hm. fold (n_digits n') in Hm. rewrite put_pair_here by lia.
      rewrite digits_of_step, digits_of_small by zdm. done.
    - assert (E1 : n_digits n' = 1%nat) by (unfold n_digits; rewrite digits_of_small by lia; done).
      rewrite E1, Nat.add_1_r. unfold n_digits in Hm. rewrite <- Hd, (digits_of_app _ n' acc) in Hm by (split; [lia|apply log2_room; lia]).
      rewrite length_app in Hm. fold (n_digits n') in Hm. rewrite put_here by lia. by rewrite digits_of_small by lia. }
  rewrite Hb. unfold filled. cbn [fst]. rewrite app_assoc, take_app_length'; [done|].
  rewrite length_app, length_take, Nat.min_l by lia. done.
Qed.

Lemma remove_sign_spec x : - 2 ^ 63 <= x < 0 -> remove_sign x = - x.
Proof. intros H. unfold remove_sign. rewrite (wrap_small 64 (- (x + 1))), wrap_small by (unfold is_word; lia). lia. Qed.

(** [dump_integer] prints decimal digits, whatever its buffer held. *)
Lemma dump_integer_spec uninit x : length uninit = 64%nat -> - 2 ^ 63 <= x < 2 ^ 64 ->
  dump_integer uninit x = if x <? 0 then x2d :: digits_of (- x) [] else digits_of x [].
Proof.
  intros Hu Hx. unfold dump_integer. destruct (Z.eqb_spec x 0) as [->|Hne]; [done|].
  assert (Hlen : forall n, 0 <= n -> is_word 64 n -> (n_digits n <= 20)%nat).
  { intros n H0 Hn. apply (n_digits_bound 20); [lia|]. destruct Hn. split; [done|]. eapply Z.lt_trans; [done|]. by vm_compute. }
  destruct (Z.ltb_spec x 0).
  - assert (Hw : is_word 64 (- x)) by (split; lia). rewrite remove_sign_spec, count_digits_spec by (done || lia).
    replace (Z.to_nat (1 + Z.of_nat (n_digits (- x)))) with (1 + n_digits (- x))%nat by lia.
    pose proof (Hlen (- x) ltac:(lia) Hw). destruct uninit as [|u0 uninit]; [done|].
    pose proof (write_digits (x2d :: uninit) 1 (- x) ltac:(lia) Hw ltac:(cbn in *; lia)) as H1.
    change (<[0%nat := x2d]> (u0 :: uninit)) with (x2d :: uninit).
    destruct (digit_pairs _ _ _) as [n' b]. exact H1.
  - assert (Hw : is_word 64 x) by (split; lia). rewrite count_digits_spec, Nat2Z.id by done.
    pose proof (Hlen x ltac:(lia) Hw). pose proof (write_digits uninit 0 x ltac:(lia) Hw ltac:(lia)) as H1.
    cbn [Nat.add] in H1. destruct (digit_pairs _ _ _) as [n' b]. exact H1.
Qed.

(** ** Numbers are scanned back *)

(** What may follow a value. *)
Definition stops (rest : bytes) : Prop := forall c, head rest = Some c -> c = x2c \/ c = x5d \/ c = x7d.

Lemma digits_all n acc : 0 <= n -> forallb is_digit acc = true -> forallb is_digit (digits_of n acc) = true.
Proof. apply dec_digits_all. Qed.

Lemma digits_of_head f : forall n acc, 0 < n < 2 ^ Z.of_nat f ->
  exists d tl, digits_of n acc = digit d :: tl /\ 0 < d < 10.
Proof.
  induction f as [|f IH]; intros n acc Hn; [change (2 ^ Z.of_nat 0) with 1 in Hn; lia|].
  destruct (Z.lt_ge_cases n 10); [exists n, acc; rewrite digits_of_small by lia; split; [done|lia]|]. rewrite digits_of_step by lia.
  rewrite Nat2Z.inj_succ, Z.pow_succ_r in Hn by lia. apply IH. zdm.
Qed.

Lemma number_loop_digits ds : forall type rest buf, forallb is_digit ds = true -> stops rest ->
  number_loop NAny1 type (ds ++ rest) buf = Some (type, buf ++ ds, rest).
Proof.
  induction ds as [|c ds IH]; intros type rest buf Hd Hs.
  - cbn [app]. rewrite app_nil_r. destruct rest as [|c rest]; [done|]. cbn [number_loop].
    by destruct (Hs c eq_refl) as [->|[->| ->]].
  - cbn [forallb] in Hd. apply andb_prop in Hd as [Hc Hd]. cbn [app number_loop number_next]. rewrite Hc. cbn [enter].
    rewrite IH by done. by rewrite <- app_assoc.
Qed.

Lemma scan_digit_start c s : is_digit c = true -> scan (c :: s) = scan_number c s.
Proof. intros H. destruct c; try discriminate H; reflexivity. Qed.

Lemma digits_value n : 0 <= n -> atoi_digits (digits_of n []) 0 = n.
Proof.
  intros Hn. pose proof (to_string_atoi n [] Hn ltac:(done)) as H. rewrite app_nil_r in H. unfold to_string in H.
  by replace (n <? 0) with false in H by lia.
Qed.

Lemma digit_ne d c : 0 <= d < 10 -> is_digit c = false -> digit d <> c.
Proof. intros Hd Hc E. rewrite <- E in Hc. by rewrite digit_is_digit in Hc. Qed.

Lemma digit_ne_0 d : 0 < d < 10 -> digit d <> x30.
Proof. intros Hd E. apply (f_equal b2z) in E. rewrite digit_value in E by lia. cbn in E. lia. Qed.

Lemma scan_unsigned n rest : is_word 64 n -> stops rest -> scan (digits_of n [] ++ rest) = (TUnsigned n, rest).
Proof.
  intros Hn Hs. destruct Hn as [H0 Hn]. assert (Hval := digits_value n H0).
  assert (Hdone : number_done NumUnsigned (digits_of n []) = TUnsigned n).
  { unfold number_done. rewrite Hval. unfold ULONG_MAX. by replace (_ <=? _) with true by lia. }
  destruct (Z.eq_dec n 0) as [->|Hne].
  - cbn [digits_of] in *. change (digits_of 0 []) with [x30] in *. cbn [app]. rewrite scan_digit_start by done.
    unfold scan_number. change (number_loop _ _ rest [x30]) with (number_loop NZero NumUnsigned rest [x30]).
    assert (E : number_loop NZero NumUnsigned rest [x30] = Some (NumUnsigned, [x30], rest)).
    { destruct rest as [|c rest]; [done|]. cbn [number_loop]. by destruct (Hs c eq_refl) as [->|[->| ->]]. }
    by rewrite E, Hdone.
  - assert (H1 : 0 < n) by lia. destruct (digits_of_head _ n [] (conj H1 (log2_room n H0))) as (d & tl & E & Hd).
    pose proof (digits_all n [] H0 eq_refl) as Hall. rewrite E in *. cbn [forallb] in Hall. apply andb_prop in Hall as [_ Hall].
    cbn [app]. rewrite scan_digit_start by (apply digit_is_digit; lia). unfold scan_number.
    rewrite (bool_decide_eq_false_2 (digit d = x2d)) by (apply digit_ne; [lia|done]).
    rewrite (bool_decide_eq_false_2 (digit d = x30)) by (by apply digit_ne_0). cbn [enter].
    rewrite number_loop_digits by done. cbn [app]. by rewrite Hdone.
Qed.

Lemma scan_negative m rest : 0 < m <= 2 ^ 63 -> stops rest -> scan (x2d :: digits_of m [] ++ rest) = (TInteger (- m), rest).
Proof.
  intros Hm Hs. assert (Hval := digits_value m ltac:(lia)).
  assert (H0 : 0 <= m) by lia. destruct (digits_of_head _ m [] (conj (proj1 Hm) (log2_room m H0))) as (d & tl & E & Hd).
  pose proof (digits_all m [] ltac:(lia) eq_refl) as Hall. rewrite E in *. cbn [forallb] in Hall. apply andb_prop in Hall as [Hc Hall].
  change (scan (x2d :: (digit d :: tl) ++ rest)) with (scan_number x2d ((digit d :: tl) ++ rest)).
  unfold scan_number. rewrite (bool_decide_eq_true_2 (x2d = x2d)) by done. cbn [app number_loop number_next enter].
  rewrite (bool_decide_eq_false_2 (digit d = x30)) by (by apply digit_ne_0). rewrite Hc. cbn [enter].
  rewrite number_loop_digits by done. cbn [app number_done drop]. rewrite Hval. by replace (_ <=? _) with true by lia.
Qed.

(** The printer's own digits, written in pairs from the back of a reused buffer,
    are those of [std::to_string], for every integer of 64 bits, signed or not, and
    whatever the buffer held. *)
Theorem dump_integer_decimal (uninit : bytes) (x : Z) :
  length uninit = 64%nat -> - 2 ^ 63 <= x < 2 ^ 64 -> dump_integer uninit x = to_string x.
Proof. apply dump_integer_spec. Qed.

Lemma dump_integer_decimal_witness :
  dump_integer (repeat x7e 64) (- 2 ^ 63) = to_string (- 2 ^ 63).
Proof. apply (dump_integer_decimal (repeat x7e 64) (- 2 ^ 63)); [reflexivity|lia]. Defined.
