(* ===== verification/JsonValue.v ===== *)
(** * JsonValue: values printed and read back

    A value as the library keeps it (keys in order, numbers in their range) comes
    back from its text; and what is read from any text is such a value, in which
    all strings are UTF-8, so it can be printed again. *)

From S2P Require Import Prelude Text Handshake CNum JsonDump JsonLex JsonText JsonParse JsonRound.
From Stdlib Require Import SpecFloat.

(** ** Values as the library keeps them *)

(** The keys of a [std::map]: each is below those behind it. *)
Fixpoint keys_sorted (keys : list bytes) : bool :=
  match keys with
  | [] => true
  | k :: keys => forallb (fun k' => negb (bytes_leb k' k)) keys && keys_sorted keys
  end.

(** Numbers in their range. [loose] allows what a text may hold and does not come
    back as it was: a floating-point number, and the integer -0. *)
Fixpoint in_range (loose : bool) (v : value) : bool :=
  match v with
  | VNull | VBool _ | VString _ => true
  | VInteger z => (- 2 ^ 63 <=? z) && (z <? if loose then 1 else 0)
  | VUnsigned n => (0 <=? n) && (n <? 2 ^ 64)
  | VFloat _ => loose
  | VArray l => forallb (in_range loose) l
  | VObject fields => forallb (fun kv => in_range loose kv.2) fields
  end.

(** Keys in order, as [json] keeps them; [ordered_json] keeps them as they came. *)
Fixpoint ordered (v : value) : bool :=
  match v with
  | VArray l => forallb ordered l
  | VObject fields => keys_sorted (map fst fields) && forallb (fun kv => ordered kv.2) fields
  | _ => true
  end.

(** A value with its keys put in order, the last of two equal ones kept. *)
Fixpoint normal (v : value) : value :=
  match v with
  | VArray l => VArray (map normal l)
  | VObject fields => VObject (fold_left (fun m kv => map_assign m kv.1 (normal kv.2)) fields [])
  | _ => v
  end.

(** A key above all others goes to the end. *)
Lemma map_assign_last m key v : Forall (fun kv => bytes_leb key kv.1 = false) m -> map_assign m key v = m ++ [(key, v)].
Proof.
  induction 1 as [|[k w] m Hk _ IH]; [done|]. cbn [map_assign]. cbn in Hk. rewrite bool_decide_eq_false_2.
  - by rewrite Hk, IH.
  - intros ->. by rewrite bytes_leb_refl in Hk.
Qed.

Lemma keys_sorted_app (m r : list (bytes * value)) key v : keys_sorted (map fst (m ++ (key, v) :: r)) = true ->
  Forall (fun kv => bytes_leb key kv.1 = false) m /\ keys_sorted (map fst ((m ++ [(key, v)]) ++ r)) = true.
Proof.
  intros H. split; [|by rewrite <- app_assoc]. induction m as [|[k w] m IH]; [constructor|].
  cbn [app map fst keys_sorted] in H. apply andb_prop in H as [Ha H]. constructor; [|by apply IH]. cbn.
  rewrite forallb_forall in Ha. specialize (Ha key). rewrite map_app in Ha. apply negb_true_iff, Ha, in_or_app. right. by left.
Qed.

Lemma normal_members fields : Forall (fun kv => ordered kv.2 = true -> normal kv.2 = kv.2) fields -> forall m,
  forallb (fun kv => ordered kv.2) fields = true -> keys_sorted (map fst (m ++ fields)) = true ->
  fold_left (fun m kv => map_assign m kv.1 (normal kv.2)) fields m = m ++ fields.
Proof.
  induction 1 as [|[key v] fields Hv _ IH]; intros m Ho Hk; [by rewrite app_nil_r|].
  cbn [fold_left fst snd forallb] in *. apply andb_prop in Ho as [Hov Ho]. destruct (keys_sorted_app _ _ _ _ Hk) as [Hm Hk'].
  rewrite Hv, map_assign_last by done. rewrite IH by done. by rewrite <- app_assoc.
Qed.

Lemma normal_ordered v : ordered v = true -> normal v = v.
Proof.
  induction v as [|b|z|n|f|s|l IH|fields IH] using value_rect_in; try done; cbn [ordered normal].
  - intros H. f_equal. induction IH as [|v l Hv _ IHl]; [done|]. cbn [forallb map] in *. apply andb_prop in H as [H1 H2].
    by rewrite Hv, IHl.
  - intros [Hk Ho]%andb_prop. f_equal. by apply (normal_members fields IH []).
Qed.

(** ** A value behind the parser *)

Section RoundTrip.
Variables (uninit : bytes) (to_chars : spec_float -> bytes).
Hypothesis Huninit : length uninit = 64%nat.

Abbreviation dump := (dump uninit to_chars false).
Abbreviation dump_elements := (dump_elements dump).
Abbreviation dump_members := (dump_members false dump).

(** The state between two tokens. *)
Definition at_ (t : token) (s : bytes) (st : list bool) (d : Dom) : Parser :=
  {| last_token := t; input := s; states := st; dom := d |}.

(** A container that is being read, and those around it. *)
Definition inside_ (f : frame) (d : Dom) : Dom := {| root := root d; ref_stack := f :: ref_stack d |}.

(** Behind a value the parser goes on with the evaluation of [states]. *)
Definition runs (p q : Parser) : Prop :=
  exists n, forall fuel, sax_parse_internal (n + S fuel) p false = sax_parse_internal (S fuel) q true.

Definition reads (v : value) : Prop :=
  forall text t0 rest st d, in_range false v = true -> dump v = Some text -> stops rest ->
    exists t, runs (get_token (at_ t0 (text ++ rest) st d)) (at_ t rest st (handle_value d (normal v))).

Lemma get_token_at t0 s st d : get_token (at_ t0 s st d) = let '(t, s) := scan s in at_ t s st d.
Proof. unfold get_token, at_. cbn. by destruct (scan s). Qed.

(** A token that is a value of its own. *)
Lemma reads_token v t text t0 rest st d : scan (text ++ rest) = (t, rest) ->
  (forall p, last_token p = t -> parse_value p = Break (with_dom p (handle_value (dom p) (normal v)))) ->
  exists t, runs (get_token (at_ t0 (text ++ rest) st d)) (at_ t rest st (handle_value d (normal v))).
Proof.
  intros Hs Hp. exists t, 0%nat. intros fuel. rewrite get_token_at, Hs. cbn [Nat.add sax_parse_internal]. by rewrite Hp.
Qed.

Lemma reads_scalar v : match v with VArray _ | VObject _ => False | _ => True end -> reads v.
Proof.
  intros Hv text t0 rest st d Hw Hd Hs. destruct v; try done; cbn [JsonDump.dump in_range] in *.
  - injection Hd as <-. apply (reads_token VNull TNull); [done|]. intros p Hp. unfold parse_value. by rewrite Hp.
  - injection Hd as <-. destruct b; [apply (reads_token (VBool true) TTrue)|apply (reads_token (VBool false) TFalse)]; try done;
      intros p Hp; unfold parse_value; by rewrite Hp.
  - injection Hd as <-. apply (reads_token (VInteger z) (TInteger z)).
    + rewrite dump_integer_spec by (done || lia). replace (z <? 0) with true by lia. cbn [app].
      rewrite scan_negative by (done || lia). by rewrite Z.opp_involutive.
    + intros p Hp. unfold parse_value. by rewrite Hp.
  - injection Hd as <-. apply (reads_token (VUnsigned n) (TUnsigned n)).
    + rewrite dump_integer_spec by (done || lia). replace (n <? 0) with false by lia.
      by rewrite scan_unsigned by (done || split; lia).
    + intros p Hp. unfold parse_value. by rewrite Hp.
  - destruct (dump_escaped false s) as [e|] eqn:E; [|done]. injection Hd as <-.
    apply (reads_token (VString s) (TString s)).
    + unfold in_quotes. rewrite <- !app_assoc. exact (dumped_string s e rest E).
    + intros p Hp. unfold parse_value. by rewrite Hp.
Qed.

(** The first token of a value. *)
Lemma first_token v text rest : in_range false v = true -> dump v = Some text -> stops rest ->
  (scan (text ++ rest)).1 <> TEndArray /\ (scan (text ++ rest)).1 <> TParseError.
Proof.
  intros Hw Hd Hs. destruct v as [|b|z|n|f|s|l|fields]; try done; cbn [JsonDump.dump in_range] in *.
  - by injection Hd as <-.
  - injection Hd as <-. by destruct b.
  - injection Hd as <-. rewrite dump_integer_spec by (done || lia). replace (z <? 0) with true by lia. cbn [app].
    by rewrite scan_negative by (done || lia).
  - injection Hd as <-. rewrite dump_integer_spec by (done || lia). replace (n <? 0) with false by lia.
    by rewrite scan_unsigned by (done || split; lia).
  - destruct (dump_escaped false s) as [e|] eqn:E; [|done]. injection Hd as <-. unfold in_quotes. rewrite <- !app_assoc.
    change (scan ([quote] ++ e ++ [quote] ++ rest)) with (scan_string (e ++ quote :: rest)). by rewrite (dumped_string s e rest E).
  - destruct (dump_elements l); [|done]. by injection Hd as <-.
  - destruct (dump_members fields); [|done]. by injection Hd as <-.
Qed.

(** The elements of an array behind its bracket. *)
Lemma reads_elements l : Forall reads l -> forall done_ text t0 rest st d,
  l <> [] -> forallb (in_range false) l = true -> dump_elements l = Some text -> stops rest ->
  exists t, runs (get_token (at_ t0 (text ++ rest) (true :: st) (inside_ (FArray done_) d)))
    (at_ t rest st (handle_value d (VArray (done_ ++ map normal l)))).
Proof.
  induction 1 as [|v l Hv _ IH]; intros done_ text t0 rest st d Hne Hw Hd Hs; [done|].
  cbn [forallb JsonDump.dump_elements] in *. apply andb_prop in Hw as [Hwv Hw].
  destruct (dump v) as [tv|] eqn:Ev; [|done]. destruct (dump_elements l) as [tl|] eqn:El; [|done]. injection Hd as <-.
  destruct l as [|w l].
  - injection El as <-. cbn [app]. rewrite <- app_assoc. cbn [app].
    destruct (Hv tv t0 (x5d :: rest) (true :: st) (inside_ (FArray done_) d) Hwv Ev) as (t & n & Hn).
    { intros c [= <-]. auto. }
    exists TEndArray, (S n). intros fuel. rewrite Nat.add_succ_comm, Hn. by destruct d.
  - rewrite <- !app_assoc. cbn [app].
    destruct (Hv tv t0 (x2c :: tl ++ rest) (true :: st) (inside_ (FArray done_) d) Hwv Ev) as (t & n & Hn).
    { intros c [= <-]. auto. }
    destruct (IH (done_ ++ [normal v]) tl TValueSeparator rest st d ltac:(done) Hw eq_refl Hs) as (t' & m & Hm).
    exists t', (n + S m)%nat. intros fuel. rewrite <- Nat.add_assoc, Nat.add_succ_l, Hn. rewrite <- app_assoc in Hm.
    cbn [app] in Hm. rewrite <- Hm. reflexivity.
Qed.

(** The bracket behind another one is read as the end, anything else as an element. *)
Lemma parse_array p : last_token p = TBeginArray ->
  let q := get_token (with_dom p (start_array (dom p))) in
  last_token q <> TEndArray -> parse_value p = Continue (with_states q (true :: states q)) false.
Proof. intros Hp q Hq. unfold parse_value. rewrite Hp. fold q. by destruct (last_token q). Qed.

Lemma scan_bracket s : scan (x5b :: s) = (TBeginArray, s).
Proof. done. Qed.

Lemma scan_brace s : scan (x7b :: s) = (TBeginObject, s).
Proof. done. Qed.

Lemma reads_array l : Forall reads l -> reads (VArray l).
Proof.
  intros Hl text t0 rest st d Hw Hd Hs. cbn [JsonDump.dump] in Hd.
  destruct (dump_elements l) as [te|] eqn:E; [|done]. injection Hd as <-.
  rewrite get_token_at. cbn [app]. rewrite scan_bracket.
  destruct l as [|v l].
  - injection E as <-. exists TEndArray, 0%nat. intros fuel. by destruct d.
  - destruct (reads_elements (v :: l) Hl [] te TBeginArray rest st d ltac:(done) Hw E Hs) as (t & n & Hn).
    exists t, (S n). intros fuel. cbn [app] in Hn. rewrite <- Hn. cbn [Nat.add sax_parse_internal].
    assert (Hf : (scan (te ++ rest)).1 <> TEndArray).
    { cbn [JsonDump.dump_elements in_range forallb] in *. apply andb_prop in Hw as [Hw _].
      destruct (dump v) as [tv|] eqn:Ev; [|done]. destruct (dump_elements l) as [tl|] eqn:El; [|done]. injection E as <-.
      rewrite <- !app_assoc. apply (first_token v); [done|done|]. destruct l; [injection El as <-|]; intros c [= <-]; auto. }
    rewrite parse_array; [|done|]; unfold with_dom, start_array, get_token; cbn; destruct (scan (te ++ rest)); [|done]. done.
Qed.

(** ** Objects *)

(** A key and its colon. *)
Lemma parse_key_at key ek t0 r st m k d : dump_escaped false key = Some ek ->
  parse_key (get_token (at_ t0 (in_quotes ek ++ x3a :: r) st (inside_ (FObject m k) d))) =
  Some (at_ TNameSeparator r st (inside_ (FObject m key) d)).
Proof.
  intros Hk. rewrite get_token_at. unfold in_quotes. rewrite <- !app_assoc.
  change (scan ([quote] ++ ek ++ [quote] ++ x3a :: r)) with (scan_string (ek ++ quote :: x3a :: r)). by rewrite (dumped_string key ek _ Hk).
Qed.

Lemma evaluate_member key ek t0 r st m k d : dump_escaped false key = Some ek ->
  evaluate (at_ t0 (x2c :: in_quotes ek ++ x3a :: r) (false :: st) (inside_ (FObject m k) d)) =
  Continue (get_token (at_ TNameSeparator r (false :: st) (inside_ (FObject m key) d))) false.
Proof.
  intros Hk. unfold evaluate. change (states _) with (false :: st). cbv iota zeta. rewrite get_token_at.
  change (scan (x2c :: in_quotes ek ++ x3a :: r)) with (TValueSeparator, in_quotes ek ++ x3a :: r). cbv iota beta.
  cbn [last_token at_]. by rewrite (parse_key_at key).
Qed.

(** The members of an object behind the first key and its colon. *)
Lemma reads_members fields : Forall (fun kv => reads kv.2) fields -> forall m key v tv sep text t0 rest st d,
  reads v -> in_range false v = true -> dump v = Some tv ->
  forallb (fun kv => in_range false kv.2) fields = true ->
  dump_members fields = Some text -> sep = match fields with [] => [] | _ => [x2c] end -> stops rest ->
  exists t, runs (get_token (at_ t0 (tv ++ sep ++ text ++ rest) (false :: st) (inside_ (FObject m key) d)))
    (at_ t rest st (handle_value d (VObject (fold_left (fun m kv => map_assign m kv.1 (normal kv.2)) fields (map_assign m key (normal v)))))).
Proof.
  induction 1 as [|[key' v'] fields Hv' _ IH]; intros m key v tv sep text t0 rest st d Hv Hwv Ev Hw Hd -> Hs.
  - injection Hd as <-. cbn [app].
    destruct (Hv tv t0 (x7d :: rest) (false :: st) (inside_ (FObject m key) d) Hwv Ev) as (t & n & Hn).
    { intros c [= <-]. auto. }
    exists TEndObject, (S n). intros fuel. rewrite Nat.add_succ_comm, Hn. by destruct d.
  - cbn [JsonDump.dump_members forallb] in *. apply andb_prop in Hw as [Hwv' Hw].
    cbn [snd] in *. destruct (dump v') as [tv'|] eqn:Ev'; [|done]. destruct (dump_escaped false key') as [ek|] eqn:Ek; [|done].
    destruct (dump_members fields) as [tf|] eqn:Ef; [|done]. injection Hd as <-. cbn [app].
    destruct (Hv tv t0 (x2c :: (in_quotes ek ++ x3a :: tv' ++ match fields with [] => [] | _ => [x2c] end ++ tf) ++ rest) (false :: st)
      (inside_ (FObject m key) d) Hwv Ev) as (t & n & Hn).
    { intros c [= <-]. auto. }
    edestruct (IH (map_assign m key (normal v)) key' v' tv' _ tf TNameSeparator rest st d Hv' Hwv' Ev' Hw eq_refl eq_refl Hs) as (t' & n' & Hn').
    exists t', (n + S n')%nat. intros fuel. rewrite <- Nat.add_assoc, Nat.add_succ_l, Hn.
    rewrite <- Hn'. cbn [sax_parse_internal handle_value inside_ ref_stack].
    rewrite <- !app_assoc. cbn [app]. rewrite <- !app_assoc. cbn [app].
    change {| root := _; ref_stack := _ |} with (inside_ (FObject (map_assign m key (normal v)) key) d). by rewrite (evaluate_member key').
Qed.

Lemma parse_object p p' : last_token p = TBeginObject ->
  parse_key (get_token (with_dom p (start_object (dom p)))) = Some p' ->
  parse_value p = Continue (get_token (with_states p' (false :: states p'))) false.
Proof.
  intros Hp Hk. unfold parse_value. rewrite Hp. destruct (parse_key_room _ _ Hk) as (_ & key & Ht). by rewrite Ht, Hk.
Qed.

Lemma reads_object fields : Forall (fun kv => reads kv.2) fields -> reads (VObject fields).
Proof.
  intros Hl text t0 rest st d Hw Hd Hs. cbn [JsonDump.dump in_range] in *.
  destruct (dump_members fields) as [te|] eqn:E; [|done]. injection Hd as <-.
  rewrite get_token_at. cbn [app]. rewrite scan_brace.
  destruct Hl as [|[key v] fields Hv Hl].
  - injection E as <-. exists TEndObject, 0%nat. intros fuel. by destruct d.
  - cbn [JsonDump.dump_members forallb snd] in *. apply andb_prop in Hw as [Hwv Hw].
    destruct (dump v) as [tv|] eqn:Ev; [|done]. destruct (dump_escaped false key) as [ek|] eqn:Ek; [|done].
    destruct (dump_members fields) as [tf|] eqn:Ef; [|done]. apply (inj Some) in E. subst te. cbn [app].
    destruct (reads_members fields Hl [] key v tv _ tf TNameSeparator rest st d Hv Hwv Ev Hw Ef eq_refl Hs) as (t & n & Hn).
    exists t, (S n). intros fuel. cbn [app] in Hn. rewrite <- Hn. cbn [Nat.add sax_parse_internal].
    replace ((in_quotes ek ++ x3a :: tv ++ match fields with [] => [] | _ => [x2c] end ++ tf) ++ rest)
      with (in_quotes ek ++ x3a :: tv ++ match fields with [] => [] | _ => [x2c] end ++ tf ++ rest)
      by (rewrite <- !app_assoc; cbn [app]; by rewrite <- !app_assoc).
    set (r := tv ++ match fields with [] => [] | _ => [x2c] end ++ tf ++ rest). pose proof (parse_key_at key ek TBeginObject r st [] [] d Ek) as Hkey.
    change (parse_value _) with (parse_value (at_ TBeginObject (in_quotes ek ++ x3a :: r) st d)).
    by rewrite (parse_object (at_ TBeginObject (in_quotes ek ++ x3a :: r) st d) _ eq_refl Hkey).
Qed.

(** Every value is read back, with its keys in order. *)
Lemma reads_all v : reads v.
Proof.
  induction v as [|b|z|n|f|s|l IH|fields IH] using value_rect_in; try (by apply reads_scalar);
    [by apply reads_array|by apply reads_object].
Qed.

Lemma first_scan s : (scan s).1 <> TParseError -> scan_first s = scan s.
Proof.
  unfold scan_first. destruct s as [|c s]; [done|]. cbn [skip_bom]. case_bool_decide as E; [|done]. by rewrite E.
Qed.

Lemma new_parser_at text : (scan text).1 <> TParseError ->
  new_parser text = get_token (at_ TParseError text [] {| root := VNull; ref_stack := [] |}).
Proof. intros H. unfold new_parser. rewrite get_token_at, first_scan by done. by destruct (scan text). Qed.

Lemma parse_dumped v text : in_range false v = true -> dump v = Some text -> parse text = Some (normal v).
Proof.
  intros Hw Hd. assert (Hs : stops []) by done. destruct (first_token v text [] Hw Hd Hs) as [_ Hf]. rewrite app_nil_r in Hf.
  destruct (reads_all v text TParseError [] [] {| root := VNull; ref_stack := [] |} Hw Hd Hs) as (t & n & Hn).
  rewrite app_nil_r, <- new_parser_at in Hn by done. specialize (Hn 0%nat).
  unfold parse. destruct (sax_parse_ends _ _ _ (new_parser_fits text)) as [r Hr]. rewrite Hr.
  pose proof (sax_parse_more _ (length text + 2 + (n + 1)) _ _ _ Hr ltac:(lia)) as H1.
  apply (sax_parse_more (n + 1) (length text + 2 + (n + 1)) _ _ _) in Hn; [|lia].
  rewrite H1 in Hn. injection Hn as ->. reflexivity.
Qed.
End RoundTrip.

(** ** What is read from a text *)

Section Load.
Variables (uninit : bytes) (to_chars : spec_float -> bytes).
Abbreviation dump := (dump uninit to_chars false).

(** A value that is kept as it should be, and can be printed. *)
Definition good (v : value) : Prop := in_range true v = true /\ ordered v = true /\ is_Some (dump v).

Lemma good_array l : Forall good l -> good (VArray l).
Proof.
  intros H. repeat split; cbn [in_range ordered JsonDump.dump].
  - apply forallb_forall. intros v Hv. apply list_elem_of_In in Hv. by apply (proj1 (Forall_forall _ _) H v).
  - apply forallb_forall. intros v Hv. apply list_elem_of_In in Hv. by apply (proj1 (Forall_forall _ _) H v).
  - assert (Hd : is_Some (dump_elements dump l)); [|destruct Hd as [u ->]; eauto].
    induction H as [|v l (_ & _ & t & Ht) _ [u Hu]]; [by eexists|]. cbn [dump_elements]. rewrite Ht, Hu. eauto.
Qed.

Definition good_members (m : list (bytes * value)) : Prop :=
  keys_sorted (map fst m) = true /\ Forall (fun kv => utf8_text kv.1 /\ good kv.2) m.

Lemma good_object m : good_members m -> good (VObject m).
Proof.
  intros [Hk H]. repeat split; cbn [in_range ordered JsonDump.dump].
  - apply forallb_forall. intros v Hv. apply list_elem_of_In in Hv. by apply (proj1 (Forall_forall _ _) H v).
  - rewrite Hk. apply forallb_forall. intros v Hv. apply list_elem_of_In in Hv. by apply (proj1 (Forall_forall _ _) H v).
  - assert (Hd : is_Some (dump_members false dump m)); [|destruct Hd as [u ->]; eauto].
    clear Hk. induction H as [|[key v] m [Hu (_ & _ & t & Ht)] _ [u Hm]]; [by eexists|]. cbn [dump_members fst snd] in *.
    apply dump_escaped_utf8 in Hu as [e He]. rewrite Ht, He, Hm. eauto.
Qed.

Lemma good_string s : utf8_text s -> good (VString s).
Proof. intros H. repeat split. apply dump_escaped_utf8 in H as [t Ht]. cbn. rewrite Ht. eauto. Qed.

(** An assignment keeps the keys in order. *)
Lemma map_assign_keys m key v k : k ∈ map fst (map_assign m key v) -> k = key \/ k ∈ map fst m.
Proof.
  induction m as [|[k1 w] m IH]; cbn [map_assign map fst]; [rewrite list_elem_of_singleton; auto|].
  case_bool_decide; [cbn [map fst]; rewrite !elem_of_cons; tauto|].
  destruct (bytes_leb key k1); cbn [map fst]; rewrite !elem_of_cons; [tauto|]. intros [?|?%IH]; tauto.
Qed.

Lemma above_all k keys : forallb (fun k' => negb (bytes_leb k' k)) keys = true <-> forall k', k' ∈ keys -> bytes_leb k' k = false.
Proof.
  rewrite forallb_forall. split; intros H k' Hk; [apply negb_true_iff, H; by apply list_elem_of_In|].
  apply negb_true_iff, H. by apply list_elem_of_In.
Qed.

Lemma map_assign_sorted m key v : keys_sorted (map fst m) = true -> keys_sorted (map fst (map_assign m key v)) = true.
Proof.
  induction m as [|[k w] m IH]; [done|]. cbn [map fst keys_sorted map_assign]. intros [Ha Hs]%andb_prop.
  case_bool_decide as E; [subst k; cbn [map fst keys_sorted]; by rewrite Ha, Hs|].
  destruct (bytes_leb key k) eqn:El; cbn [map fst keys_sorted].
  - rewrite Hs, Ha, !andb_true_r. rewrite above_all in Ha. apply andb_true_iff. split.
    + apply negb_true_iff. destruct (bytes_leb k key) eqn:E2; [|done]. by destruct E; apply bytes_leb_antisym.
    + apply above_all. intros k' Hk'. destruct (bytes_leb k' key) eqn:E2; [|done].
      rewrite <- (Ha k' Hk'). symmetry. by eapply bytes_leb_trans.
  - rewrite IH, andb_true_r by done. apply above_all. rewrite above_all in Ha. intros k' [->|Hk']%map_assign_keys; auto.
Qed.

Lemma map_assign_good m key v : good_members m -> utf8_text key -> good v -> good_members (map_assign m key v).
Proof.
  intros [Hk Hm] Hu Hv. split; [by apply map_assign_sorted|]. clear Hk. induction Hm as [|[k w] m H Hm IH]; cbn [map_assign]; [by apply Forall_singleton|].
  case_bool_decide; [by apply Forall_cons|]. destruct (bytes_leb key k); rewrite !Forall_cons; done.
Qed.

(** The invariant of the parser. *)
Definition good_token (t : token) : Prop :=
  match t with
  | TString s => utf8_text s
  | TUnsigned n => is_word 64 n
  | TInteger z => - 2 ^ 63 <= z <= 0
  | _ => True
  end.

Definition good_frame (f : frame) : Prop :=
  match f with FArray l => Forall good l | FObject m key => good_members m /\ utf8_text key end.

Definition good_dom (d : Dom) : Prop := good (root d) /\ Forall good_frame (ref_stack d).

Definition good_parser (p : Parser) : Prop := good_token (last_token p) /\ good_dom (dom p).

Lemma atoi_digits_nonneg s : forall acc, 0 <= acc -> 0 <= atoi_digits s acc.
Proof.
  induction s as [|b s IH]; intros acc H; cbn [atoi_digits]; [done|]. destruct (is_digit b) eqn:E; [|done].
  apply IH. unfold is_digit in E. lia.
Qed.

Lemma number_done_good type s : good_token (number_done type s).
Proof.
  unfold number_done. pose proof (atoi_digits_nonneg s 0 ltac:(lia)). pose proof (atoi_digits_nonneg (drop 1 s) 0 ltac:(lia)).
  destruct type; [destruct (Z.leb_spec (atoi_digits s 0) ULONG_MAX)|destruct (_ <=? _) eqn:E|]; try done; cbn.
  - unfold ULONG_MAX in *. split; lia.
  - lia.
Qed.

Lemma scan_literal_good l t : good_token t -> forall s, good_token (scan_literal l t s).1.
Proof.
  intros Ht. induction l as [|x l IH]; intros s; cbn [scan_literal]; [done|]. destruct s as [|c s]; [done|]. by destruct (bool_decide _).
Qed.

Lemma scan_string_kind fuel : forall s buf, match (scan_string_loop fuel s buf).1 with TString _ | TParseError => True | _ => False end.
Proof.
  induction fuel as [|fuel IH]; intros s buf; cbn [scan_string_loop]; [done|]. destruct s as [|c s]; [done|].
  case_bool_decide; [done|]. destruct (scan_char c s) as [[a r]|]; [apply IH|done].
Qed.

Lemma scan_good s : good_token (scan s).1.
Proof.
  unfold scan. destruct (skip_whitespace s) as [|c t]; [done|].
  repeat match goal with |- context [if ?b then _ else _] => destruct b end; try done; try (by apply scan_literal_good).
  - pose proof (scan_string_kind (length t) t []) as Hk. fold (scan_string t) in Hk.
    destruct (scan_string t) as [k r] eqn:E. destruct k; try done. by eapply scan_string_utf8.
  - unfold scan_number. destruct (number_loop _ _ _ _) as [[[? ?] ?]|]; [apply number_done_good|done].
Qed.

Lemma get_token_good p : good_parser p -> good_parser (get_token p).
Proof. intros [_ Hd]. unfold get_token. pose proof (scan_good (input p)). by destruct (scan (input p)). Qed.

Lemma handle_value_good d v : good_dom d -> good v -> good_dom (handle_value d v).
Proof.
  intros [Hr Hs] Hv. unfold handle_value. destruct (ref_stack d) as [|f fs]; [by split|]. apply Forall_cons in Hs as [Hf Hs].
  destruct f as [l|m key]; (split; [done|]); constructor; try done; cbn in Hf |- *.
  - apply Forall_app. split; [done|]. by apply Forall_singleton.
  - destruct Hf. split; [by apply map_assign_good|done].
Qed.

Lemma end_container_good d : good_dom d -> good_dom (end_container d).
Proof.
  intros [Hr Hs]. unfold end_container. destruct (ref_stack d) as [|f fs] eqn:E; [by split; rewrite ?E|]. apply Forall_cons in Hs as [Hf Hs].
  destruct f as [l|m key]; (apply handle_value_good; [by split|]); [by apply good_array|by apply good_object, Hf].
Qed.

Lemma set_key_good d key : good_dom d -> utf8_text key -> good_dom (set_key d key).
Proof.
  intros [Hr Hs] Hk. unfold set_key. destruct (ref_stack d) as [|[l|m k] fs] eqn:E; [by split; rewrite ?E..|].
  apply Forall_cons in Hs as [[Hm _] Hs]. split; [done|]. by apply Forall_cons.
Qed.

Lemma parse_key_good p p' : good_parser p -> parse_key p = Some p' -> good_parser p'.
Proof.
  intros [Ht Hd] H. unfold parse_key in H. destruct (last_token p) as [| | | | | | | | |key| | | | |] eqn:E; try done.
  assert (Hq : good_parser (get_token (with_dom p (set_key (dom p) key)))).
  { apply get_token_good. split; cbn; [by rewrite E|by apply set_key_good]. }
  destruct (last_token (get_token _)); try done. by injection H as <-.
Qed.

Definition good_control (c : control) : Prop :=
  match c with
  | Continue p _ | Break p => good_parser p
  | Return (Some p) => good_parser p
  | Return None => True
  end.

Lemma parse_value_good p : good_parser p -> good_control (parse_value p).
Proof.
  intros Hp. pose proof Hp as [Ht Hd]. unfold parse_value.
  assert (Hv : forall v, good v -> good_parser (with_dom p (handle_value (dom p) v))).
  { intros v Hv. split; [done|]. by apply handle_value_good. }
  assert (Hs : forall f, good_frame f -> good_parser (get_token (with_dom p (inside_ f (dom p))))).
  { intros f Hf. apply get_token_good. split; [done|]. split; [apply Hd|]. constructor; [done|apply Hd]. }
  destruct (last_token p) eqn:E; try done; try (apply Hv; repeat split; by eexists).
  - specialize (Hs (FArray []) (Forall_nil_2 _)). change (inside_ _ _) with (start_array (dom p)) in Hs.
    set (q := get_token (with_dom p (start_array (dom p)))) in *. clearbody q.
    destruct (last_token q); try done. split; [apply Hs|apply end_container_good, Hs].
  - specialize (Hs (FObject [] [])). change (inside_ _ _) with (start_object (dom p)) in Hs.
    set (q := get_token (with_dom p (start_object (dom p)))) in *. clearbody q.
    assert (Hq : good_parser q) by (apply Hs; repeat constructor).
    assert (Hk : good_control match parse_key q with Some p => Continue (get_token (with_states p (false :: states p))) false | None => Return None end).
    { destruct (parse_key q) as [p'|] eqn:Ek; [|done]. apply parse_key_good in Ek; [|done]. by apply get_token_good. }
    destruct (last_token q); try done. split; [apply Hq|apply end_container_good, Hq].
  - by apply Hv, good_string.
  - apply Hv. destruct Ht. split; [cbn; lia|split; [done|by eexists]].
  - apply Hv. cbn in Ht. split; [cbn; lia|split; [done|by eexists]].
  - destruct (is_finite f); [|done]. apply Hv. split; [done|split; [done|by eexists]].
Qed.

Lemma evaluate_good p : good_parser p -> good_control (evaluate p).
Proof.
  intros Hp. unfold evaluate. destruct (states p) as [|is_array outer]; [done|]. pose proof (get_token_good p Hp) as Hq.
  set (q := get_token p) in *. clearbody q.
  assert (Hc : good_control (Continue (with_states (with_dom q (end_container (dom q))) outer) true)).
  { split; [apply Hq|]. apply end_container_good, Hq. }
  destruct is_array; destruct (last_token q); try done; [by apply get_token_good|].
  destruct (parse_key (get_token q)) as [p'|] eqn:Ek; [|done]. apply parse_key_good in Ek; by apply get_token_good.
Qed.

Lemma sax_parse_good fuel : forall p skip p', good_parser p -> sax_parse_internal fuel p skip = Some (Some p') -> good_parser p'.
Proof.
  induction fuel as [|fuel IH]; intros p skip p' Hp H; [done|]. cbn [sax_parse_internal] in H.
  assert (Hc : good_control (if skip then Break p else parse_value p)) by (destruct skip; [done|by apply parse_value_good]).
  destruct (if skip then Break p else parse_value p) as [q k|q|r]; [by eapply IH| |by injection H as ->].
  apply evaluate_good in Hc. destruct (evaluate q) as [q1 k|q1|r]; [by eapply IH|by injection H as <-|by injection H as ->].
Qed.

Lemma parse_good text v : parse text = Some v -> good v.
Proof.
  unfold parse. destruct (sax_parse_internal _ _ _) as [[p|]|] eqn:E; try done. apply sax_parse_good in E.
  - destruct (last_token (get_token p)); try done. intros [= <-]. apply E.
  - unfold new_parser, scan_first. assert (Hr : good_dom {| root := VNull; ref_stack := [] |}) by (repeat split; [by eexists|constructor]).
    destruct (skip_bom text) as [s|]; [pose proof (scan_good s); destruct (scan s)|]; by split.
Qed.
End Load.

(** ** The properties *)

(** The strings of a value, keys included. *)
Fixpoint strings (v : value) : list bytes :=
  match v with
  | VString s => [s]
  | VArray l => flat_map strings l
  | VObject fields => flat_map (fun kv => kv.1 :: strings kv.2) fields
  | _ => []
  end.

Section Claims.
Variables (uninit : bytes) (to_chars : spec_float -> bytes).
Abbreviation dump := (dump uninit to_chars false).

Lemma dumps_utf8 (v : value) : is_Some (dump v) <-> Forall utf8_text (strings v).
Proof.
  induction v as [|b|z|n|f|s|l IH|fields IH] using value_rect_in; cbn [strings JsonDump.dump];
    try (by split; [constructor|eexists]).
  - rewrite Forall_singleton, <- dump_escaped_utf8. destruct (dump_escaped false s); split; intros [t Ht]; try done; by eexists.
  - transitivity (is_Some (dump_elements dump l)).
    { destruct (dump_elements dump l); split; intros [t Ht]; try done; by eexists. }
    induction IH as [|v l Hv _ IHl]; [by split; [constructor|eexists]|]. cbn [flat_map dump_elements].
    rewrite Forall_app, <- Hv, <- IHl. destruct (dump v), (dump_elements dump l); unfold is_Some; naive_solver.
  - transitivity (is_Some (dump_members false dump fields)).
    { destruct (dump_members false dump fields); split; intros [t Ht]; try done; by eexists. }
    induction IH as [|[k v] l Hv _ IHl]; [by split; [constructor|eexists]|]. cbn [flat_map dump_members fst snd] in *.
    rewrite Forall_app, Forall_cons, <- Hv, <- IHl, <- dump_escaped_utf8.
    destruct (dump_escaped false k), (dump v), (dump_members false dump l); unfold is_Some; naive_solver.
Qed.

(** C33: what is printed is read back. The text of a value without floating-point
    numbers, all its integers in their 64 bits, is parsed to the same value, with
    the keys of its objects in the order of [std::map] and the last of two equal
    keys kept, whatever the number buffer of the printer held. *)
Theorem json_round_trip (v : value) (text : bytes) :
  length uninit = 64%nat -> in_range false v = true -> dump v = Some text -> parse text = Some (normal v).
Proof. intros Hu. by apply parse_dumped. Qed.

(** C34: whatever the text, a value that is read from it can be printed, its keys are
    in order, and unless it has floating-point numbers or the integer -0 its text
    is read as the same value. *)
Theorem parsed_reprints (text : bytes) (v : value) :
  length uninit = 64%nat -> parse text = Some v ->
  ordered v = true /\ exists text', dump v = Some text' /\ (in_range false v = true -> parse text' = Some v).
Proof.
  intros Hu Hp. destruct (parse_good uninit to_chars text v Hp) as (_ & Ho & t & Ht). split; [done|]. exists t.
  split; [done|]. intros Hw. rewrite (parse_dumped uninit to_chars Hu v t Hw Ht). by rewrite normal_ordered.
Qed.

(** C35: [dump] throws exactly on values with a string or a key that is not UTF-8,
    the texts made of encoded code points of Unicode. *)
Theorem dump_throws (v : value) : is_Some (dump v) <-> Forall utf8_text (strings v).
Proof. apply dumps_utf8. Qed.
End Claims.

(** C37: [parse] ends on every text: its loop stops after at most as many rounds as
    the text has characters and two, and with more rounds it answers the same. *)
Theorem parse_terminates (text : bytes) : exists r, forall fuel, (length text + 2 <= fuel)%nat ->
  sax_parse_internal fuel (new_parser text) false = Some r.
Proof. apply parse_ends. Qed.

(** A document with every kind of value but a floating-point number. *)
Definition sample : value :=
  VObject [(str "t", VArray [VString (str "a" ++ [quote; x0a; xc3; xa9]); VNull; VBool true; VArray []]);
           (str "b", VInteger (-17)); (str "a", VUnsigned 18446744073709551615); (str "b", VObject [])].

Definition sample_text : bytes := default [] (dump (replicate 64 x00) (fun _ => []) false sample).

Lemma json_round_trip_witness : parse sample_text = Some (normal sample).
Proof.
  apply (json_round_trip (replicate 64 x00) (fun _ => []) sample sample_text); by vm_compute.
Defined.

Lemma parsed_reprints_witness :
  ordered (normal sample) = true /\ exists text', dump (replicate 64 x00) (fun _ => []) false (normal sample) = Some text' /\
    (in_range false (normal sample) = true -> parse text' = Some (normal sample)).
Proof.
  apply (parsed_reprints (replicate 64 x00) (fun _ => []) sample_text (normal sample)); by vm_compute.
Defined.
