(* ===== verification/Db.v ===== *)
(** * Db: the token store and the session log ([server/db.cxx], [server/dbtool.cxx])

    Tokens are one sealed file replaced as a whole, sessions one sealed row per
    line. AES-GCM ([GcmLib]) and the system calls ([PosixOps]) are interfaces with
    the laws the code relies on; JSON is printed and read as in [JsonDump] and
    [JsonParse]. *)

From stdpp Require Import sorting.
From S2P Require Import Prelude Text Sha256 Hmac Handshake JsonDump JsonText JsonParse JsonValue.
From Stdlib Require Import SpecFloat.

(** ** Interfaces *)

(** [wc_AesGcmEncrypt] and [wc_AesGcmDecrypt]; [None] is a code other than 0. *)
Class GcmLib := {
  gcm_encrypt : bytes -> bytes -> bytes -> option (bytes * bytes);   (** key, nonce, plain *)
  gcm_decrypt : bytes -> bytes -> bytes -> bytes -> option bytes;    (** key, nonce, tag, cipher *)
}.

Class GcmLaws {Gcm : GcmLib} := {
  gcm_tag_length key nonce plain cipher tag :
    gcm_encrypt key nonce plain = Some (cipher, tag) -> length tag = 16%nat;
  gcm_inverse key nonce plain cipher tag :
    gcm_encrypt key nonce plain = Some (cipher, tag) ->
    gcm_decrypt key nonce tag cipher = Some plain;
}.

(** The digits of a floating-point number (Grisu2 in cxx_modules/json.hpp). The
    values the program prints hold none, so nothing depends on them. *)
Class JsonLib := { float_text : spec_float -> bytes }.

(** [dump] of a new [serializer], whose number buffer is zero; [None]: it throws. *)
Definition json_dump {Json : JsonLib} (v : value) : option bytes := dump (replicate 64 x00) float_text false v.

Definition tokens_key : bytes := str "tokens".
Definition session_key : bytes := str "sessionId".
Definition ip_key : bytes := str "ip".
Definition created_key : bytes := str "created".

(** The system calls; [px_read] is what a reader of the file sees, [None] when
    it cannot be opened. *)
Class PosixOps (W : Type) := {
  px_read : W -> bytes -> option bytes;
  px_open_trunc : W -> bytes -> W * Z;
  px_open_append : W -> bytes -> W * Z;
  px_open_dir : W -> bytes -> W * Z;
  px_write : W -> Z -> bytes -> W * Z;
  px_fsync : W -> Z -> W * Z;
  px_close : W -> Z -> W;
  px_unlink : W -> bytes -> W;
  px_rename : W -> bytes -> bytes -> W * Z;
}.

Section Laws.
Context {W : Type} {Px : PosixOps W}.

Definition same_files (w w' : W) : Prop := forall q, px_read w' q = px_read w q.
Definition same_but (p : bytes) (w w' : W) : Prop := forall q, q <> p -> px_read w' q = px_read w q.

Class PosixLaws := {
  px_fd : W -> Z -> option bytes;   (** the file a descriptor writes to the end of *)
  px_trunc_ok w p w' fd : px_open_trunc w p = (w', fd) -> 0 <= fd ->
    px_fd w' fd = Some p /\ px_read w' p = Some [] /\ same_but p w w';
  px_trunc_fail w p w' fd : px_open_trunc w p = (w', fd) -> fd < 0 -> same_files w w';
  px_append_ok w p w' fd : px_open_append w p = (w', fd) -> 0 <= fd ->
    px_fd w' fd = Some p /\ px_read w' p = Some (default [] (px_read w p)) /\ same_but p w w';
  px_append_fail w p w' fd : px_open_append w p = (w', fd) -> fd < 0 -> same_files w w';
  px_dir w p w' fd : px_open_dir w p = (w', fd) -> same_files w w';
  px_write_ok w fd data w' n p : px_write w fd data = (w', n) -> px_fd w fd = Some p -> 0 <= n ->
    n <= Z.of_nat (length data) /\ (data <> [] -> 0 < n) /\ px_fd w' fd = Some p /\
    px_read w' p = Some (default [] (px_read w p) ++ take (Z.to_nat n) data) /\ same_but p w w';
  px_write_fail w fd data w' n : px_write w fd data = (w', n) -> n < 0 -> same_files w w';
  px_fsync_frame w fd w' r : px_fsync w fd = (w', r) -> same_files w w';
  px_close_frame w fd : same_files w (px_close w fd);
  px_unlink_ok w p : px_read (px_unlink w p) p = None /\ same_but p w (px_unlink w p);
  px_rename_ok w a b w' : px_rename w a b = (w', 0) -> a <> b ->
    px_read w' b = px_read w a /\ px_read w' a = None /\
    forall q, q <> a -> q <> b -> px_read w' q = px_read w q;
  px_rename_fail w a b w' r : px_rename w a b = (w', r) -> r <> 0 -> same_files w w';
}.
End Laws.
Arguments PosixLaws W {Px}.

(** ** Sealing *)

Definition kNonceSize : nat := 12.
Definition kTagSize : nat := 16.
Definition kKeySize : nat := 32.

Definition derive_key (secret : bytes) : bytes := sha256 (repeat x00 64) secret.

Section Store.
Context {W : Type} {Px : PosixOps W} {Gcm : GcmLib} {Json : JsonLib}.

(** [rng] is what [wc_RNG_GenerateBlock] gave, [None] when a call before the
    encryption failed. *)
Definition gcm_seal (key : bytes) (rng : option bytes) (plain : bytes) : option bytes :=
  match rng with
  | None => None
  | Some nonce =>
      match gcm_encrypt key nonce plain with
      | None => None
      | Some (cipher, tag) => Some (nonce ++ tag ++ cipher)
      end
  end.

Definition gcm_open (key sealed : bytes) : option bytes :=
  if (length sealed <? kNonceSize + kTagSize)%nat then None
  else
    let nonce := take kNonceSize sealed in
    let tag := take kTagSize (drop kNonceSize sealed) in
    let cipher := drop (kNonceSize + kTagSize) sealed in
    gcm_decrypt key nonce tag cipher.

(** ** Hexadecimal *)

Definition hex_encode (data : bytes) : bytes := flat_map hex_byte data.

Fixpoint hex_pairs (s : bytes) : option bytes :=
  match s with
  | a :: b :: s =>
      match nibble a, nibble b with
      | Some hi, Some lo =>
          match hex_pairs s with
          | Some out => Some (z2b (Z.lor (Z.shiftl hi 4) lo) :: out)
          | None => None
          end
      | _, _ => None
      end
  | _ => Some []
  end.

Definition hex_decode (s : bytes) : option bytes :=
  if (length s mod 2 =? 0)%nat then hex_pairs s else None.

(** ** The token store *)

Definition tokens_to_json (tokens : list bytes) : option bytes :=
  json_dump (VObject [(tokens_key, VArray (map VString tokens))]).

Fixpoint json_find (fields : list (bytes * value)) (key : bytes) : option value :=
  match fields with
  | [] => None
  | (k, v) :: fields => if bool_decide (k = key) then Some v else json_find fields key
  end.

(** The loop over the array: the strings pushed so far, and whether it ended. *)
Fixpoint json_strings (l : list value) : list bytes * bool :=
  match l with
  | [] => ([], true)
  | VString s :: l => let '(out, ok) := json_strings l in (s :: out, ok)
  | _ :: _ => ([], false)
  end.

Definition tokens_from_json (text : bytes) : list bytes * bool :=
  match parse text with
  | Some (VObject fields) =>
      match json_find fields tokens_key with
      | None => ([], true)
      | Some (VArray l) => json_strings l
      | Some _ => ([], false)
      end
  | _ => ([], false)
  end.

(** The tokens left in [out], and the result. *)
Definition tokens_load (w : W) (path key : bytes) : list bytes * bool :=
  match px_read w path with
  | None | Some [] => ([], true)
  | Some sealed =>
      match gcm_open (derive_key key) sealed with
      | None => ([], false)
      | Some plain => tokens_from_json plain
      end
  end.

Fixpoint write_loop (fuel : nat) (w : W) (fd : Z) (data : bytes) : option (W * bool) :=
  match data with
  | [] => Some (w, true)
  | _ :: _ =>
      match fuel with
      | O => None
      | S fuel =>
          let '(w, n) := px_write w fd data in
          if n <? 0 then Some (w, false) else write_loop fuel w fd (drop (Z.to_nat n) data)
      end
  end.

(** [parent] is [path(path).parent_path()], or ["."]. *)
Definition write_file_atomic (w : W) (path parent : bytes) (pid : Z) (data : bytes) : option (W * bool) :=
  let tmp := path ++ str ".tmp." ++ to_string pid in
  let '(w, fd) := px_open_trunc w tmp in
  if fd <? 0 then Some (w, false)
  else
    match write_loop (length data) w fd data with
    | None => None
    | Some (w, false) => let w := px_close w fd in Some (px_unlink w tmp, false)
    | Some (w, true) =>
        let '(w, r) := px_fsync w fd in
        if negb (r =? 0) then let w := px_close w fd in Some (px_unlink w tmp, false)
        else
          let w := px_close w fd in
          let '(w, r) := px_rename w tmp path in
          if negb (r =? 0) then Some (px_unlink w tmp, false)
          else
            let '(w, dfd) := px_open_dir w parent in
            let w := if 0 <=? dfd then px_close (px_fsync w dfd).1 dfd else w in
            Some (w, true)
    end.

(** The result of [save], [None] when it throws. *)
Definition tokens_save (w : W) (path parent key : bytes) (pid : Z) (rng : option bytes)
    (tokens : list bytes) : option (W * option bool) :=
  match tokens_to_json tokens with
  | None => Some (w, None)
  | Some text =>
      match gcm_seal (derive_key key) rng text with
      | None => Some (w, Some false)
      | Some sealed =>
          match write_file_atomic w path parent pid sealed with
          | Some (w, ok) => Some (w, Some ok)
          | None => None
          end
      end
  end.

(** The exit code behind [save]: 0 or 1, and 128 + SIGABRT for an exception, which
    nothing catches. *)
Definition save_code (saved : option bool) : Z :=
  match saved with Some true => 0 | Some false => 1 | None => 134 end.

Definition tokens_verify (tokens : list bytes) (token : bytes) : bool :=
  fold_left (fun matched candidate =>
    if (length candidate =? length token)%nat && constant_time_equal candidate token (length token)
    then true else matched) tokens false.

(** [Server::verify_token]. *)
Definition verify_token (w : W) (path key token : bytes) : bool :=
  match tokens_load w path key with
  | (_, false) => false
  | (tokens, true) => tokens_verify tokens token
  end.

(** [dicker-dbtool add-token] and [del-token]: the files left and the exit code. *)
Definition add_token (w : W) (path parent key : bytes) (pid : Z) (rng : option bytes) (token : bytes) :
    option (W * Z) :=
  match tokens_load w path key with
  | (_, false) => Some (w, 1)
  | (tokens, true) =>
      if bool_decide (token ∈ tokens) then Some (w, 0)
      else
        match tokens_save w path parent key pid rng (tokens ++ [token]) with
        | None => None
        | Some (w, saved) => Some (w, save_code saved)
        end
  end.

Definition del_token (w : W) (path parent key : bytes) (pid : Z) (rng : option bytes) (token : bytes) :
    option (W * Z) :=
  match tokens_load w path key with
  | (_, false) => Some (w, 1)
  | (tokens, true) =>
      let left := filter (fun t => t <> token) tokens in
      if (length left =? length tokens)%nat then Some (w, 0)
      else
        match tokens_save w path parent key pid rng left with
        | None => None
        | Some (w, saved) => Some (w, save_code saved)
        end
  end.

(** ** The session log *)

Record SessionInfo := { si_ip : bytes; si_created : Z }.

(** An [ordered_json] keeps the order of its keys. *)
Definition row_value (session_id ip : bytes) (created : Z) : value :=
  VObject [(session_key, VString session_id); (ip_key, VString ip); (created_key, VUnsigned created)].

Definition session_row_to_json (session_id ip : bytes) (created : Z) : option bytes :=
  json_dump (row_value session_id ip created).

Definition session_row_from_json (text : bytes) : option (bytes * SessionInfo) :=
  match parse text with
  | Some (VObject row) =>
      match json_find row session_key with
      | Some (VString id) =>
          let ip := match json_find row ip_key with Some (VString ip) => ip | _ => [] end in
          let created := match json_find row created_key with Some (VUnsigned n) => n | _ => 0 end in
          Some (id, {| si_ip := ip; si_created := created |})
      | _ => None
      end
  | _ => None
  end.

(** The line [append] writes. *)
Definition session_line (key : bytes) (rng : option bytes) (row : bytes) : option bytes :=
  match gcm_seal (derive_key key) rng row with
  | None => None
  | Some sealed => Some (hex_encode sealed ++ [LF])
  end.

Definition append_line (w : W) (path line : bytes) : W * bool :=
  let '(w, fd) := px_open_append w path in
  if fd <? 0 then (w, false)
  else
    let '(w, n) := px_write w fd line in
    if (n <? 0) || negb (n =? Z.of_nat (length line)) then (px_close w fd, false)
    else
      let '(w, _) := px_fsync w fd in
      (px_close w fd, true).

(** The result of [append], [None] when it throws. *)
Definition session_append (w : W) (path key : bytes) (rng : option bytes)
    (session_id ip : bytes) (created : Z) : W * option bool :=
  match session_row_to_json session_id ip created with
  | None => (w, None)
  | Some row =>
      match session_line key rng row with
      | None => (w, Some false)
      | Some line => let '(w, ok) := append_line w path line in (w, Some ok)
      end
  end.

(** [std::getline]: the lines of a text, the last one with or without its
    newline; nothing behind a last newline. *)
Fixpoint getlines (s : bytes) : list bytes :=
  match s with
  | [] => []
  | c :: s =>
      if bool_decide (c = LF) then [] :: getlines s
      else match getlines s with
           | [] => [[c]]
           | l :: ls => (c :: l) :: ls
           end
  end.

Definition read_row (key line : bytes) : option (bytes * SessionInfo) :=
  match line with
  | [] => None
  | _ =>
      match hex_decode line with
      | None => None
      | Some sealed =>
          match gcm_open (derive_key key) sealed with
          | None => None
          | Some plain => session_row_from_json plain
          end
      end
  end.

Definition add_row (key : bytes) (out : gmap bytes SessionInfo) (line : bytes) :
    gmap bytes SessionInfo :=
  match read_row key line with
  | Some (session_id, info) => <[session_id := info]> out
  | None => out
  end.

Definition load_all (w : W) (path key : bytes) (out : gmap bytes SessionInfo) : gmap bytes SessionInfo :=
  match px_read w path with
  | None => out
  | Some file => fold_left (add_row key) (getlines file) out
  end.
End Store.

(** The entries of a [std::map] in its order. *)
Definition in_key_order (m : gmap bytes SessionInfo) : list (bytes * SessionInfo) :=
  merge_sort (fun a b => bytes_le a.1 b.1) (map_to_list m).

(** ** Hexadecimal *)

Lemma nibble_hex n : 0 <= n < 16 -> nibble (hex_digit n) = Some n.
Proof.
  intros Hn. assert (n ∈ seqZ 0 16) as Hin by (apply elem_of_seqZ; lia).
  revert Hin. clear. intros Hin. apply list_elem_of_In in Hin. cbn in Hin.
  by repeat (destruct Hin as [<-|Hin]; [reflexivity|]).
Qed.

Lemma nibbles_byte b : z2b (Z.lor (Z.shiftl (Z.shiftr (b2z b) 4) 4) (Z.land (b2z b) 0x0f)) = b.
Proof. by destruct b. Qed.

Lemma hex_pairs_encode s : hex_pairs (hex_encode s) = Some s.
Proof.
  induction s as [|b s IH]; [done|]. unfold hex_encode in *. cbn [flat_map hex_byte app hex_pairs].
  pose proof (b2z_range b). rewrite !nibble_hex, IH.
  - by rewrite nibbles_byte.
  - change 0x0f with (Z.ones 4). rewrite Z.land_ones by lia. apply Z.mod_pos_bound. lia.
  - rewrite Z.shiftr_div_pow2 by lia. split; [apply Z.div_pos; lia|apply Z.div_lt_upper_bound; lia].
Qed.

Lemma hex_decode_encode s : hex_decode (hex_encode s) = Some s.
Proof.
  unfold hex_decode. unfold hex_encode at 1. rewrite length_flat_hex.
  replace (2 * length s)%nat with (length s * 2)%nat by lia.
  by rewrite Nat.Div0.mod_mul, Nat.eqb_refl, hex_pairs_encode.
Qed.

Lemma hex_encode_no_lf s : LF ∉ hex_encode s.
Proof.
  intros Hin. pose proof (flat_hex_chars s) as H. rewrite Forall_forall in H.
  by specialize (H _ Hin).
Qed.

(** ** Sealing *)

Section Proofs.
Context {W : Type} {Px : PosixOps W} {Pl : PosixLaws W}.
Context {Gcm : GcmLib} {Gl : GcmLaws} {Json : JsonLib}.

Lemma gcm_open_seal key nonce plain sealed :
  length nonce = kNonceSize -> gcm_seal key (Some nonce) plain = Some sealed ->
  gcm_open key sealed = Some plain /\ sealed <> [].
Proof.
  unfold gcm_seal, gcm_open. intros Hn Hs.
  destruct (gcm_encrypt key nonce plain) as [[cipher tag]|] eqn:E; [|done].
  injection Hs as <-. pose proof (gcm_tag_length _ _ _ _ _ E) as Ht.
  rewrite !length_app, Hn, Ht. split; [|by destruct nonce].
  replace (kNonceSize + (16 + length cipher) <? kNonceSize + kTagSize)%nat with false
    by (symmetry; apply Nat.ltb_ge; unfold kTagSize; lia).
  rewrite <- Hn, take_app_length, drop_app_length.
  replace (length nonce + kTagSize)%nat with (length (nonce ++ tag)) by (rewrite length_app, Ht; done).
  rewrite app_assoc, drop_app_length. replace kTagSize with (length tag) by done.
  rewrite take_app_length. by eapply gcm_inverse.
Qed.

(** ** Replacing a file *)

Lemma same_files_but p w w' : same_files w w' -> same_but p w w'.
Proof. intros H q _. apply H. Qed.

Lemma same_but_trans p w1 w2 w3 : same_but p w1 w2 -> same_but p w2 w3 -> same_but p w1 w3.
Proof. intros H1 H2 q Hq. by rewrite H2, H1. Qed.

Lemma write_loop_ok fuel w fd data p :
  px_fd w fd = Some p -> (length data <= fuel)%nat ->
  exists w' ok, write_loop fuel w fd data = Some (w', ok) /\ same_but p w w' /\
    (ok = true -> px_fd w' fd = Some p /\
       px_read w' p = match data with [] => px_read w p
                      | _ => Some (default [] (px_read w p) ++ data) end).
Proof.
  revert w data. induction fuel as [|fuel IH]; intros w [|b data] Hfd Hlen; cbn [write_loop];
    [by exists w, true|cbn in Hlen; lia|by exists w, true|].
  destruct (px_write w fd (b :: data)) as [w1 n] eqn:E. destruct (n <? 0) eqn:En; bool_to_prop.
  - exists w1, false. split; [done|]. split; [|done]. eapply same_files_but, px_write_fail; eauto.
  - destruct (px_write_ok _ _ _ _ _ _ E Hfd En) as (Hn & Hpos & Hfd1 & Hr & Hs).
    specialize (Hpos ltac:(done)). set (m := Z.to_nat n) in *.
    assert (1 <= m <= length (b :: data))%nat by lia.
    destruct (IH w1 (drop m (b :: data)) Hfd1) as (w' & ok & E' & Hs' & Hok).
    { rewrite length_drop. cbn in *. lia. }
    exists w', ok. split; [done|]. split; [by eapply same_but_trans|].
    intros ->. destruct (Hok eq_refl) as [Hf Hr']. split; [done|]. rewrite Hr'.
    destruct (drop m (b :: data)) as [|c rest] eqn:Ed.
    + rewrite Hr, take_ge; [done|]. apply (f_equal length) in Ed. rewrite length_drop in Ed.
      cbn in *. lia.
    + rewrite Hr, <- Ed. cbn [default id]. by rewrite <- app_assoc, take_drop.
Qed.

Definition tmp_path (path : bytes) (pid : Z) : bytes := path ++ str ".tmp." ++ to_string pid.

Lemma tmp_path_other path pid : tmp_path path pid <> path.
Proof.
  intros H. apply (f_equal length) in H. unfold tmp_path in H. rewrite !length_app in H.
  cbn in H. lia.
Qed.

(** What one call leaves behind: the new contents or the old ones, and no other
    file changed but the temporary one. *)
Definition replaced (w w' : W) (path tmp data : bytes) (ok : bool) : Prop :=
  px_read w' path = (if ok then Some data else px_read w path) /\
  forall q, q <> path -> q <> tmp -> px_read w' q = px_read w q.

Lemma unlink_replaced w w' path tmp data :
  same_but tmp w w' -> path <> tmp -> replaced w (px_unlink w' tmp) path tmp data false.
Proof.
  intros Hs Hne. destruct (px_unlink_ok w' tmp) as [_ Hu]. split; [by rewrite Hu, Hs|].
  intros q _ Hq. by rewrite Hu, Hs.
Qed.

Lemma write_file_atomic_ok w path parent pid data :
  exists w' ok, write_file_atomic w path parent pid data = Some (w', ok) /\
    replaced w w' path (tmp_path path pid) data ok.
Proof.
  unfold write_file_atomic. fold (tmp_path path pid). set (tmp := tmp_path path pid).
  assert (Hne : path <> tmp) by (intros E; by apply (tmp_path_other path pid)).
  destruct (px_open_trunc w tmp) as [w1 fd] eqn:E1. destruct (fd <? 0) eqn:Efd; bool_to_prop.
  { exists w1, false. split; [done|]. assert (Hs := px_trunc_fail _ _ _ _ E1 Efd). by split; intros; rewrite Hs. }
  destruct (px_trunc_ok _ _ _ _ E1 Efd) as (Hfd1 & Hr1 & Hs1).
  destruct (write_loop_ok (length data) w1 fd data tmp Hfd1 ltac:(lia)) as (w2 & ok & -> & Hs2 & Hok).
  assert (Hs12 : same_but tmp w w2) by (by eapply same_but_trans).
  assert (Hc : forall v, same_but tmp w v -> same_but tmp w (px_close v fd)).
  { intros v Hv. eapply same_but_trans; [exact Hv|]. apply same_files_but, px_close_frame. }
  destruct ok; [|eexists _, false; split; [done|]; apply unlink_replaced; auto].
  destruct (Hok eq_refl) as [_ Hr2]. rewrite Hr1 in Hr2.
  assert (Htmp : px_read w2 tmp = Some data) by (rewrite Hr2; by destruct data).
  destruct (px_fsync w2 fd) as [w3 r3] eqn:E3. assert (Hs3 := px_fsync_frame _ _ _ _ E3).
  assert (Hs13 : same_but tmp w w3) by (eapply same_but_trans; [exact Hs12|]; by apply same_files_but).
  destruct (r3 =? 0); cbn [negb]; [|eexists _, false; split; [done|]; apply unlink_replaced; auto].
  destruct (px_rename (px_close w3 fd) tmp path) as [w4 r4] eqn:E4.
  destruct (r4 =? 0) eqn:Er; bool_to_prop; cbn [negb].
  - subst r4. destruct (px_rename_ok _ _ _ _ E4 ltac:(congruence)) as (Hr4 & _ & Hs4).
    destruct (px_open_dir w4 parent) as [w5 dfd] eqn:E5. assert (Hs5 := px_dir _ _ _ _ E5).
    set (w6 := if 0 <=? dfd then _ else w5).
    assert (H6 : same_files w5 w6).
    { unfold w6. destruct (0 <=? dfd); [|done]. intros q. rewrite px_close_frame.
      destruct (px_fsync w5 dfd) as [v r] eqn:E. by apply (px_fsync_frame _ _ _ _ E). }
    exists w6, true. split; [done|]. split.
    + by rewrite H6, Hs5, Hr4, px_close_frame, Hs3.
    + intros q Hq1 Hq2. by rewrite H6, Hs5, Hs4, (Hc _ Hs13).
  - assert (Hs4 := px_rename_fail _ _ _ _ _ E4 Er).
    eexists _, false. split; [done|]. apply unlink_replaced; [|done].
    eapply same_but_trans; [apply Hc, Hs13|]. by apply same_files_but.
Qed.

(** ** Tokens *)

Lemma tokens_verify_spec tokens token : tokens_verify tokens token = true <-> token ∈ tokens.
Proof.
  unfold tokens_verify.
  enough (H : forall m, fold_left (fun matched candidate =>
    if (length candidate =? length token)%nat && constant_time_equal candidate token (length token)
    then true else matched) tokens m = true <-> m = true \/ token ∈ tokens).
  { rewrite H. split; [by intros [?|?]|by right]. }
  induction tokens as [|c tokens IH]; intros m; cbn [fold_left].
  - rewrite elem_of_nil. tauto.
  - rewrite IH, elem_of_cons. clear IH.
    destruct (Nat.eqb_spec (length c) (length token)) as [Hl|Hl]; cbn [andb].
    + destruct (constant_time_equal c token (length token)) eqn:E.
      * apply constant_time_equal_spec in E; [|lia|lia]. rewrite firstn_all, take_ge in E by lia.
        subst. tauto.
      * split; [tauto|]. intros [?|[->|?]]; [tauto| |tauto].
        assert (constant_time_equal c c (length c) = true) by (by apply constant_time_equal_spec).
        congruence.
    + split; [tauto|]. intros [?|[->|?]]; tauto.
Qed.

Lemma json_strings_map ts : json_strings (map VString ts) = (ts, true).
Proof. induction ts as [|t ts IH]; [done|]. cbn [map json_strings]. by rewrite IH. Qed.

(** What is printed is read back. *)
Lemma json_dumped v text : in_range false v = true -> json_dump v = Some text -> parse text = Some (normal v).
Proof. apply parse_dumped. done. Qed.

Lemma strings_in_range ts : forallb (in_range false) (map VString ts) = true.
Proof. by induction ts. Qed.

Lemma tokens_json_round_trip ts text : tokens_to_json ts = Some text -> tokens_from_json text = (ts, true).
Proof.
  intros H. apply json_dumped in H; [|cbn [in_range forallb snd]; by rewrite strings_in_range].
  unfold tokens_from_json. rewrite H. cbn [normal fold_left fst snd map_assign json_find].
  rewrite bool_decide_eq_true_2, map_map by done. apply json_strings_map.
Qed.

Lemma keys_utf8 : Forall utf8_text [tokens_key; session_key; ip_key; created_key].
Proof. rewrite !Forall_cons. split_and!; [apply dump_escaped_utf8; eexists; vm_compute; reflexivity..|done]. Qed.

(** Nothing is written when a token is not UTF-8. *)
Lemma tokens_to_json_utf8 ts : is_Some (tokens_to_json ts) <-> Forall utf8_text ts.
Proof.
  unfold tokens_to_json, json_dump. rewrite dumps_utf8. cbn [strings flat_map fst snd]. rewrite app_nil_r, Forall_cons.
  pose proof (Forall_inv keys_utf8) as Hk.
  replace (flat_map strings (map VString ts)) with ts by (induction ts as [|t ts IH]; [done|]; cbn; by rewrite <- IH).
  tauto.
Qed.

Lemma tokens_save_load w path parent key pid nonce tokens w' :
  length nonce = kNonceSize ->
  tokens_save w path parent key pid (Some nonce) tokens = Some (w', Some true) ->
  tokens_load w' path key = (tokens, true).
Proof.
  intros Hn. unfold tokens_save. destruct (tokens_to_json tokens) as [text|] eqn:Et; [|done].
  destruct (gcm_seal _ _ _) as [sealed|] eqn:E; [|done]. intros Hw.
  destruct (gcm_open_seal _ _ _ _ Hn E) as [Ho Hne].
  destruct (write_file_atomic_ok w path parent pid sealed) as (w1 & ok & E1 & Hr & _).
  rewrite E1 in Hw. injection Hw as -> ->. unfold tokens_load. rewrite Hr.
  destruct sealed; [done|]. rewrite Ho. by apply tokens_json_round_trip.
Qed.

Lemma verify_loaded w path key ts token :
  tokens_load w path key = (ts, true) -> verify_token w path key token = true <-> token ∈ ts.
Proof. intros H. unfold verify_token. rewrite H. apply tokens_verify_spec. Qed.
End Proofs.

(** ** Rows *)

Section Rows.
Context {W : Type} {Px : PosixOps W} {Pl : PosixLaws W}.
Context {Gcm : GcmLib} {Gl : GcmLaws} {Json : JsonLib}.

(** A log whose last row, if any, is complete. *)
Definition complete_log (f : bytes) : Prop := f = [] \/ last f = Some LF.

Lemma getlines_line l : LF ∉ l -> getlines (l ++ [LF]) = [l].
Proof.
  induction l as [|b l IH]; [done|]. intros [Hb Hl]%not_elem_of_cons. cbn [app getlines].
  by rewrite bool_decide_eq_false_2, IH.
Qed.

Lemma getlines_rest l : l <> [] -> LF ∉ l -> getlines l = [l].
Proof.
  induction l as [|b l IH]; [done|]. intros _ [Hb Hl]%not_elem_of_cons. cbn [getlines].
  rewrite bool_decide_eq_false_2 by done. destruct l as [|c l]; [done|]. by rewrite IH.
Qed.

Lemma getlines_app f g : complete_log f -> getlines (f ++ g) = getlines f ++ getlines g.
Proof.
  induction f as [|c f IH]; [done|]. intros [?|Hl]; [done|]. cbn [app getlines].
  destruct f as [|d f].
  - injection Hl as ->. by rewrite bool_decide_eq_true_2.
  - rewrite IH by (right; exact Hl). case_bool_decide; [done|].
    assert (getlines (d :: f) <> []) as Hne.
    { cbn [getlines]. case_bool_decide; [done|]. by destruct (getlines f). }
    by destruct (getlines (d :: f)).
Qed.

(** A row is printed when its strings are UTF-8. *)
Lemma session_row_printed sid ip created : utf8_text sid -> utf8_text ip -> is_Some (session_row_to_json sid ip created).
Proof.
  intros Hs Hi. apply dumps_utf8. pose proof keys_utf8 as Hk. rewrite !Forall_cons in Hk.
  destruct Hk as (_ & H1 & H2 & H3 & _). cbn. by rewrite !Forall_cons.
Qed.

Lemma session_row_round_trip sid ip created row : is_word 64 created -> session_row_to_json sid ip created = Some row ->
  session_row_from_json row = Some (sid, {| si_ip := ip; si_created := created |}).
Proof.
  intros [H0 H1] H. apply json_dumped in H; [|cbn; lia]. unfold session_row_from_json. by rewrite H.
Qed.

Lemma read_row_sealed key nonce sid info row sealed :
  length nonce = kNonceSize -> session_row_from_json row = Some (sid, info) ->
  gcm_seal (derive_key key) (Some nonce) row = Some sealed ->
  read_row key (hex_encode sealed) = Some (sid, info).
Proof.
  intros Hn Hr Hs. destruct (gcm_open_seal _ _ _ _ Hn Hs) as [Ho Hne].
  unfold read_row. destruct (hex_encode sealed) eqn:E; [by destruct sealed|]. rewrite <- E.
  by rewrite hex_decode_encode, Ho.
Qed.

Lemma read_row_odd key l : (length l mod 2 <> 0)%nat -> read_row key l = None.
Proof.
  intros H. unfold read_row, hex_decode. destruct l; [done|].
  by replace (_ =? 0)%nat with false by (symmetry; by apply Nat.eqb_neq).
Qed.

(** A complete append puts its whole line behind the log. *)
Lemma append_line_file w path line w' : append_line w path line = (w', true) ->
  px_read w' path = Some (default [] (px_read w path) ++ line).
Proof.
  unfold append_line. destruct (px_open_append w path) as [w1 fd] eqn:E1. destruct (fd <? 0) eqn:Efd; [done|]. bool_to_prop.
  destruct (px_append_ok _ _ _ _ E1 Efd) as (Hfd & Hr & _).
  destruct (px_write w1 fd line) as [w2 n] eqn:E2.
  destruct ((n <? 0) || negb (n =? Z.of_nat (length line))) eqn:En; [done|]. bool_to_prop.
  destruct (px_write_ok _ _ _ _ _ _ E2 Hfd ltac:(lia)) as (_ & _ & _ & Hr2 & _).
  destruct (px_fsync w2 fd) as [w3 r] eqn:E3. intros [= <-].
  rewrite px_close_frame, (px_fsync_frame _ _ _ _ E3), Hr2, Hr. cbn [default id].
  rewrite take_ge by lia. done.
Qed.

Lemma session_append_file w path key nonce sid ip created w' :
  session_append w path key (Some nonce) sid ip created = (w', Some true) ->
  exists row sealed,
    (is_word 64 created -> session_row_from_json row = Some (sid, {| si_ip := ip; si_created := created |})) /\
    gcm_seal (derive_key key) (Some nonce) row = Some sealed /\
    px_read w' path = Some (default [] (px_read w path) ++ hex_encode sealed ++ [LF]).
Proof.
  unfold session_append, session_line. destruct (session_row_to_json _ _ _) as [row|] eqn:Er; [|discriminate].
  pose proof (fun H => session_row_round_trip _ _ _ _ H Er) as Hrow. clear Er.
  destruct (gcm_seal _ _ _) as [sealed|] eqn:E; [|done]. destruct (append_line _ _ _) as [w1 ok] eqn:Ea. intros [= -> ->].
  apply append_line_file in Ea. eauto.
Qed.

Lemma load_all_lines w path key out :
  load_all w path key out =
  fold_left (add_row key) (getlines (default [] (px_read w path))) out.
Proof. unfold load_all. by destruct (px_read w path). Qed.

Lemma session_append_row (w w' : W) (path key nonce sid ip : bytes) (created : Z)
    (out : gmap bytes SessionInfo) :
  complete_log (default [] (px_read w path)) ->
  length nonce = kNonceSize -> is_word 64 created ->
  session_append w path key (Some nonce) sid ip created = (w', Some true) ->
  load_all w' path key out =
    <[sid := {| si_ip := ip; si_created := created |}]> (load_all w path key out) /\
  complete_log (default [] (px_read w' path)).
Proof.
  intros Hlog Hn Hc (row & sealed & Hj & Hs & Hr)%session_append_file. specialize (Hj Hc).
  rewrite !load_all_lines, Hr. cbn [default id]. split.
  - rewrite getlines_app, fold_left_app, getlines_line by (done || apply hex_encode_no_lf).
    cbn [fold_left]. unfold add_row at 1. by erewrite read_row_sealed.
  - right. by rewrite app_assoc, last_snoc.
Qed.

(** C40: a row appended in full to a log of complete lines is there at the next
    load: the session maps to the recorded address and time, every other
    session to what the log said before, and the log stays complete. *)
Theorem session_append_loads (w w' : W) (path key nonce sid ip : bytes) (created : Z)
    (out : gmap bytes SessionInfo) :
  complete_log (default [] (px_read w path)) ->
  length nonce = kNonceSize -> is_word 64 created ->
  session_append w path key (Some nonce) sid ip created = (w', Some true) ->
  load_all w' path key out =
    <[sid := {| si_ip := ip; si_created := created |}]> (load_all w path key out) /\
  complete_log (default [] (px_read w' path)).
Proof. apply session_append_row. Qed.

(** A torn last line takes the next row with it. After a write that left an
    odd number of digits, an append that succeeds adds nothing to what the log
    is loaded as. *)
Theorem torn_row_hides_next (w w' : W) (path key nonce sid ip f torn : bytes) (created : Z)
    (out : gmap bytes SessionInfo) :
  px_read w path = Some (f ++ torn) -> complete_log f ->
  LF ∉ torn -> (length torn mod 2 = 1)%nat ->
  session_append w path key (Some nonce) sid ip created = (w', Some true) ->
  load_all w' path key out = load_all w path key out.
Proof.
  intros Hf Hlog Hlf Hodd (row & sealed & _ & Hs & Hr)%session_append_file.
  rewrite !load_all_lines, Hr, Hf. cbn [default id]. rewrite <- app_assoc, !(getlines_app f) by done.
  assert (torn <> []) by (intros ->; discriminate).
  rewrite !fold_left_app, app_assoc, (getlines_rest torn) by done.
  rewrite getlines_line by (rewrite not_elem_of_app; split; [done|apply hex_encode_no_lf]).
  cbn [fold_left]. unfold add_row. rewrite !read_row_odd; [done|lia|].
  unfold hex_encode. rewrite length_app, length_flat_hex, (Nat.mul_comm 2), Nat.Div0.mod_add. lia.
Qed.

(** [add-token] with exit code 0 grants exactly one more token: from then on
    the server accepts it, and answers for every other one as before. *)
Theorem add_token_grants (w w' : W) (path parent key nonce token other : bytes) (pid : Z) :
  length nonce = kNonceSize ->
  add_token w path parent key pid (Some nonce) token = Some (w', 0) ->
  verify_token w' path key other = true <-> other = token \/ verify_token w path key other = true.
Proof.
  intros Hn. unfold add_token. destruct (tokens_load w path key) as [ts [|]] eqn:E; [|done].
  rewrite (verify_loaded _ _ _ _ other E). case_bool_decide as Hin.
  - intros [= <-]. rewrite (verify_loaded _ _ _ _ other E). split; [tauto|]. by intros [->|?].
  - destruct (tokens_save _ _ _ _ _ _ _) as [[w1 ok]|] eqn:Es; [|done].
    destruct ok as [[|]|]; try done. intros [= ->]. apply tokens_save_load in Es; [|done].
    rewrite (verify_loaded _ _ _ _ other Es), elem_of_app, list_elem_of_singleton. tauto.
Qed.

(** [del-token] with exit code 0 revokes exactly that token. *)
Theorem del_token_revokes (w w' : W) (path parent key nonce token other : bytes) (pid : Z) :
  length nonce = kNonceSize ->
  del_token w path parent key pid (Some nonce) token = Some (w', 0) ->
  verify_token w' path key other = true <-> other <> token /\ verify_token w path key other = true.
Proof.
  intros Hn. unfold del_token. destruct (tokens_load w path key) as [ts [|]] eqn:E; [|done].
  rewrite (verify_loaded _ _ _ _ other E). set (left := filter _ ts).
  destruct (Nat.eqb_spec (length left) (length ts)) as [Hl|Hl].
  - intros [= <-]. rewrite (verify_loaded _ _ _ _ other E). split; [|tauto]. intros Hin.
    split; [|done]. intros ->. pose proof (length_filter_lt (fun t => t <> token) ts token Hin ltac:(by intros [])).
    unfold left in Hl. lia.
  - destruct (tokens_save _ _ _ _ _ _ _) as [[w1 ok]|] eqn:Es; [|done].
    destruct ok as [[|]|]; try done. intros [= ->]. apply tokens_save_load in Es; [|done].
    rewrite (verify_loaded _ _ _ _ other Es). unfold left. by rewrite list_elem_of_filter.
Qed.

(** ** What was read is UTF-8 *)

Lemma parsed_utf8 text v : parse text = Some v -> Forall utf8_text (strings v) /\ in_range true v = true.
Proof. intros H. destruct (parse_good (replicate 64 x00) float_text text v H) as (Hr & _ & Hd). by apply dumps_utf8 in Hd. Qed.

Lemma json_find_member fields key v : json_find fields key = Some v -> (key, v) ∈ fields.
Proof.
  induction fields as [|[k w] fields IH]; [done|]. cbn [json_find]. case_bool_decide as E; [intros [= <-]; subst k; by left|].
  intros H. right. by apply IH.
Qed.

Lemma member_utf8 fields key v : Forall utf8_text (strings (VObject fields)) -> json_find fields key = Some v ->
  Forall utf8_text (strings v).
Proof.
  intros H Hf%json_find_member. cbn [strings] in H. rewrite Forall_forall in H. apply Forall_forall. intros s Hs. apply H.
  apply list_elem_of_In, in_flat_map. exists (key, v). split; [by apply list_elem_of_In|]. right. by apply list_elem_of_In.
Qed.

Lemma json_strings_utf8 l : Forall utf8_text (strings (VArray l)) -> Forall utf8_text (json_strings l).1.
Proof.
  induction l as [|v l IH]; [done|]. cbn [strings flat_map]. rewrite Forall_app. intros [Hv Hl].
  destruct v; try constructor. cbn [json_strings]. specialize (IH Hl). destruct (json_strings l) as [out ok].
  apply Forall_cons. split; [by apply Forall_cons in Hv as [??]|done].
Qed.

Lemma tokens_load_utf8 w path key : Forall utf8_text (tokens_load w path key).1.
Proof.
  unfold tokens_load. destruct (px_read w path) as [[|b sealed]|]; try constructor.
  destruct (gcm_open _ _) as [plain|]; [|constructor]. unfold tokens_from_json.
  destruct (parse plain) as [v|] eqn:E; [|constructor]. apply parsed_utf8 in E as [Hu _]. destruct v as [| | | | | | |fields]; try constructor.
  destruct (json_find fields tokens_key) as [v|] eqn:Ef; [|constructor]. pose proof (member_utf8 _ _ _ Hu Ef) as Hm.
  destruct v; try constructor. by apply json_strings_utf8.
Qed.

(** A token of the command line that is not UTF-8 is not reported: the exception of
    [dump] ends the tool, with the store as it was. This is the only way to end it
    so. *)
Theorem add_token_aborts (w : W) (path parent key : bytes) (pid : Z) (rng : option bytes) (token : bytes) :
  (exists w', add_token w path parent key pid rng token = Some (w', save_code None)) <->
  (tokens_load w path key).2 = true /\ ~ utf8_text token.
Proof.
  pose proof (tokens_load_utf8 w path key) as Hu. unfold add_token. destruct (tokens_load w path key) as [ts [|]]; cbn [fst snd] in *.
  2:{ split; [by intros [? ?]|by intros [? _]]. }
  pose proof (tokens_to_json_utf8 (ts ++ [token])) as Hd. rewrite Forall_app, Forall_singleton in Hd.
  case_bool_decide as Hin.
  { split; [by intros [? ?]|]. intros [_ Hn]. destruct Hn. by apply (proj1 (Forall_forall _ _) Hu). }
  unfold tokens_save. destruct (tokens_to_json (ts ++ [token])) as [text|].
  - split; [|intros [_ Hn]; destruct Hn; by apply Hd].
    destruct (gcm_seal _ _ _) as [sealed|]; [|by intros [? ?]].
    destruct (write_file_atomic w path parent pid sealed) as [[w' [|]]|]; by intros [? ?].
  - split; [|by eexists]. intros _. split; [done|]. intros Ht. by destruct (proj2 Hd (conj Hu Ht)).
Qed.

(** A row as it can be printed. *)
Definition good_row (e : bytes * SessionInfo) : Prop :=
  utf8_text e.1 /\ utf8_text (si_ip e.2) /\ is_word 64 (si_created e.2).

Lemma row_good text id info : session_row_from_json text = Some (id, info) -> good_row (id, info).
Proof.
  unfold session_row_from_json. destruct (parse text) as [v|] eqn:E; [|done]. apply parsed_utf8 in E as [Hu Hr].
  destruct v as [| | | | | | |row]; try done. destruct (json_find row session_key) as [[]|] eqn:Ei; try done.
  pose proof (member_utf8 _ _ _ Hu Ei) as Hi. intros [= <- <-]. unfold good_row. cbn [fst snd si_ip si_created]. split_and!.
  - by apply Forall_cons in Hi as [??].
  - destruct (json_find row ip_key) as [[]|] eqn:Ep; try constructor. pose proof (member_utf8 _ _ _ Hu Ep) as Hp. by apply Forall_cons in Hp as [??].
  - destruct (json_find row created_key) as [[]|] eqn:Ec; try (unfold is_word; lia). apply json_find_member in Ec.
    cbn [in_range] in Hr. rewrite forallb_forall in Hr. apply list_elem_of_In in Ec. apply Hr in Ec. cbn in Ec. unfold is_word. lia.
Qed.

Lemma load_all_good w path key : Forall good_row (in_key_order (load_all w path key ∅)).
Proof.
  assert (H : map_Forall (fun id info => good_row (id, info)) (load_all w path key ∅)).
  { rewrite load_all_lines. generalize (getlines (default [] (px_read w path))). intros lines.
    assert (Hm : map_Forall (fun id info => good_row (id, info)) (∅ : gmap bytes SessionInfo)) by apply map_Forall_empty.
    revert Hm. generalize (∅ : gmap bytes SessionInfo). induction lines as [|l lines IH]; intros m Hm; [done|]. cbn [fold_left]. apply IH.
    unfold add_row, read_row. destruct l as [|b l]; [done|]. destruct (hex_decode _) as [sealed|]; [|done].
    destruct (gcm_open _ _) as [plain|]; [|done]. destruct (session_row_from_json plain) as [[id info]|] eqn:E; [|done].
    apply map_Forall_insert_2; [by eapply row_good|done]. }
  unfold in_key_order. apply Forall_forall. intros [id info] Hin. rewrite merge_sort_Permutation in Hin.
  apply elem_of_map_to_list in Hin. by apply H.
Qed.

(** C31: replacing a file is all or nothing: the call returns, and leaves either
    the new contents or, on every error path, the old ones; no file but the
    temporary one is touched. *)
Theorem write_file_atomic_all_or_nothing (w : W) (path parent data : bytes) (pid : Z) :
  exists w' ok, write_file_atomic w path parent pid data = Some (w', ok) /\
    replaced w w' path (tmp_path path pid) data ok.
Proof. apply write_file_atomic_ok. Qed.
End Rows.

(** ** Concrete libraries *)

(** Files in memory; a descriptor is an index into the list of opened paths. *)
Record MemPosix := { mp_files : gmap bytes bytes; mp_fds : list bytes }.

Definition mp_open (trunc : bool) (w : MemPosix) (p : bytes) : MemPosix * Z :=
  let old := if trunc then [] else default [] (mp_files w !! p) in
  ({| mp_files := <[p := old]> (mp_files w); mp_fds := mp_fds w ++ [p] |},
   Z.of_nat (length (mp_fds w))).

Definition mp_fd (w : MemPosix) (fd : Z) : option bytes :=
  if 0 <=? fd then mp_fds w !! Z.to_nat fd else None.

Definition mp_write (w : MemPosix) (fd : Z) (data : bytes) : MemPosix * Z :=
  match mp_fd w fd with
  | Some p =>
      ({| mp_files := <[p := default [] (mp_files w !! p) ++ data]> (mp_files w);
          mp_fds := mp_fds w |}, Z.of_nat (length data))
  | None => (w, -1)
  end.

Definition mp_rename (w : MemPosix) (a b : bytes) : MemPosix * Z :=
  match mp_files w !! a with
  | Some c => ({| mp_files := delete a (<[b := c]> (mp_files w)); mp_fds := mp_fds w |}, 0)
  | None => (w, -1)
  end.

#[export] Instance mem_posix : PosixOps MemPosix := {
  px_read w p := mp_files w !! p;
  px_open_trunc := mp_open true;
  px_open_append := mp_open false;
  px_open_dir w p := (w, -1);
  px_write := mp_write;
  px_fsync w fd := (w, 0);
  px_close w fd := w;
  px_unlink w p := {| mp_files := delete p (mp_files w); mp_fds := mp_fds w |};
  px_rename := mp_rename;
}.

Lemma mp_open_ok trunc w p w' fd :
  mp_open trunc w p = (w', fd) ->
  0 <= fd /\ mp_fd w' fd = Some p /\
  mp_files w' !! p = Some (if trunc then [] else default [] (mp_files w !! p)) /\
  same_but p w w'.
Proof.
  unfold mp_open. intros [= <- <-]. cbn. repeat split; [lia| | |].
  - unfold mp_fd. rewrite (proj2 (Z.leb_le _ _)) by apply Nat2Z.is_nonneg. cbn. rewrite Nat2Z.id.
    by rewrite lookup_app_r, Nat.sub_diag.
  - by rewrite lookup_insert_eq.
  - intros q Hq. cbn. by rewrite lookup_insert_ne.
Qed.

#[export] Instance mem_posix_laws : PosixLaws MemPosix.
Proof.
  refine {| px_fd := mp_fd |}; cbn.
  - intros * E _. apply mp_open_ok in E. tauto.
  - intros * E Hf. apply mp_open_ok in E. lia.
  - intros * E _. apply mp_open_ok in E. tauto.
  - intros * E Hf. apply mp_open_ok in E. lia.
  - intros w ? w' ? E q. by inversion E.
  - intros w fd data w' n p E Hp Hn. unfold mp_write in E. rewrite Hp in E. injection E as <- <-.
    cbn. repeat split; [lia|destruct data; [done|cbn; lia]|done| |].
    + rewrite lookup_insert_eq, Nat2Z.id, firstn_all. done.
    + intros q Hq. cbn. by rewrite lookup_insert_ne.
  - intros w fd data w' n E Hn. unfold mp_write in E.
    destruct (mp_fd w fd); [injection E as <- <-; lia|]. by injection E as <- _.
  - intros w ? w' ? E q. by inversion E.
  - by intros w fd q.
  - intros w p. split; [by rewrite lookup_delete_eq|]. intros q Hq. cbn. by rewrite lookup_delete_ne.
  - intros w a b w' E Hab. unfold mp_rename in E. destruct (mp_files w !! a) eqn:Ea; [|done].
    injection E as <-. cbn. repeat split.
    + rewrite lookup_delete_ne by done. by rewrite lookup_insert_eq.
    + by rewrite lookup_delete_eq.
    + intros q Hq1 Hq2. rewrite lookup_delete_ne by done. by rewrite lookup_insert_ne.
  - intros w a b w' r E Hr. unfold mp_rename in E.
    destruct (mp_files w !! a); [by injection E as <- <-|]. by injection E as <- _.
Defined.

(** An identity cipher with a tag of zeros. *)
#[export] Instance plain_gcm : GcmLib := {
  gcm_encrypt _ _ plain := Some (plain, repeat x00 16);
  gcm_decrypt _ _ tag cipher := if bool_decide (tag = repeat x00 16) then Some cipher else None;
}.

#[export] Instance plain_gcm_laws : GcmLaws.
Proof. split; intros *; cbn [gcm_encrypt gcm_decrypt plain_gcm]; intros [= <- <-]; reflexivity. Defined.

(** A printer for programs without floating-point numbers. *)
#[export] Instance no_floats : JsonLib := { float_text _ := [] }.

Definition nonce0 : bytes := repeat x07 12.
Definition log_path : bytes := str "r/.dicker-sessions.jsonl".
Definition tokens_path : bytes := str "r/.dicker-tokens.json".
Definition no_files : MemPosix := {| mp_files := ∅; mp_fds := [] |}.

Lemma session_append_loads_witness :
  let w' := (session_append no_files log_path (str "k") (Some nonce0) (str "ab") (str "1.2") 7).1 in
  load_all w' log_path (str "k") ∅ =
    <[str "ab" := {| si_ip := str "1.2"; si_created := 7 |}]> (load_all no_files log_path (str "k") ∅) /\
  complete_log (default [] (px_read w' log_path)).
Proof.
  apply (session_append_loads no_files
    (session_append no_files log_path (str "k") (Some nonce0) (str "ab") (str "1.2") 7).1
    log_path (str "k") nonce0 (str "ab") (str "1.2") 7 ∅);
    [by left|done|unfold is_word; lia|by vm_compute].
Defined.

(** A log that holds one digit of a row whose append was cut short. *)
Definition torn_log : MemPosix := {| mp_files := {[log_path := [x61]]}; mp_fds := [] |}.

Lemma torn_row_hides_next_witness :
  let w' := (session_append torn_log log_path (str "k") (Some nonce0) (str "ab") (str "1.2") 7).1 in
  load_all w' log_path (str "k") ∅ = load_all torn_log log_path (str "k") ∅.
Proof.
  apply (torn_row_hides_next torn_log
    (session_append torn_log log_path (str "k") (Some nonce0) (str "ab") (str "1.2") 7).1
    log_path (str "k") nonce0 (str "ab") (str "1.2") [] [x61] 7 ∅);
    [by vm_compute|by left|apply (bool_decide_unpack _); vm_compute; exact I|done|by vm_compute].
Defined.

Definition one_token : MemPosix :=
  match add_token no_files tokens_path (str "r") (str "k") 9 (Some nonce0) (str "t1") with
  | Some (w, _) => w
  | None => no_files
  end.

Definition two_tokens : MemPosix :=
  match add_token one_token tokens_path (str "r") (str "k") 9 (Some nonce0) (str "t2") with
  | Some (w, _) => w
  | None => no_files
  end.

Lemma add_token_grants_witness :
  verify_token two_tokens tokens_path (str "k") (str "t1") = true <->
  str "t1" = str "t2" \/ verify_token one_token tokens_path (str "k") (str "t1") = true.
Proof.
  apply (add_token_grants one_token two_tokens tokens_path (str "r") (str "k") nonce0 (str "t2") (str "t1") 9);
    [done|by vm_compute].
Defined.

Lemma del_token_revokes_witness :
  let w' := match del_token two_tokens tokens_path (str "r") (str "k") 9 (Some nonce0) (str "t2") with
            | Some (w, _) => w | None => no_files end in
  verify_token w' tokens_path (str "k") (str "t2") = true <->
  str "t2" <> str "t2" /\ verify_token two_tokens tokens_path (str "k") (str "t2") = true.
Proof.
  apply (del_token_revokes two_tokens
    (match del_token two_tokens tokens_path (str "r") (str "k") 9 (Some nonce0) (str "t2") with
     | Some (w, _) => w | None => no_files end)
    tokens_path (str "r") (str "k") nonce0 (str "t2") (str "t2") 9);
    [done|by vm_compute].
Defined.
