(* ===== verification/Cli.v ===== *)
(** * Cli: the client's program ([client/cli.cxx], [client/config.h])

    The command line, from the URL to the scheduler that [main] makes and
    starts: what a printed command line is read back as, when the scheduler
    can be made at all, which files end up queued, and that whatever is accepted
    is in range. The usage text is left
    out; a refused command line carries its reason. *)

From S2P Require Import Prelude Text CNum Protocol PosixPath StorageReader ConnUrl Scheduler Filter Walk.
From S2P Require Contexts.
From Stdlib Require Import Permutation.

(** ** The configuration *)

Record Config := {
  cf_conn : Conn;
  diskConcurrency : Z;
  cf_workers : Z;
  cf_bigFileThreshold : Z;
  cf_chunkSize : Z;
  verbose : bool;
}.

Definition default_config (conn : Conn) : Config :=
  {| cf_conn := conn; diskConcurrency := 1; cf_workers := 4; cf_bigFileThreshold := 256 * 1024 * 1024;
     cf_chunkSize := 64 * 1024 * 1024; verbose := false |}.

Definition set_disk (c : Config) (n : Z) : Config :=
  {| cf_conn := cf_conn c; diskConcurrency := n; cf_workers := cf_workers c;
     cf_bigFileThreshold := cf_bigFileThreshold c; cf_chunkSize := cf_chunkSize c; verbose := verbose c |}.
Definition set_workers (c : Config) (n : Z) : Config :=
  {| cf_conn := cf_conn c; diskConcurrency := diskConcurrency c; cf_workers := n;
     cf_bigFileThreshold := cf_bigFileThreshold c; cf_chunkSize := cf_chunkSize c; verbose := verbose c |}.
Definition set_threshold (c : Config) (n : Z) : Config :=
  {| cf_conn := cf_conn c; diskConcurrency := diskConcurrency c; cf_workers := cf_workers c;
     cf_bigFileThreshold := n; cf_chunkSize := cf_chunkSize c; verbose := verbose c |}.
Definition set_chunk (c : Config) (n : Z) : Config :=
  {| cf_conn := cf_conn c; diskConcurrency := diskConcurrency c; cf_workers := cf_workers c;
     cf_bigFileThreshold := cf_bigFileThreshold c; cf_chunkSize := n; verbose := verbose c |}.
Definition set_verbose (c : Config) : Config :=
  {| cf_conn := cf_conn c; diskConcurrency := diskConcurrency c; cf_workers := cf_workers c;
     cf_bigFileThreshold := cf_bigFileThreshold c; cf_chunkSize := cf_chunkSize c; verbose := true |}.

(** ** The command line *)

(** [PendingRoot]: the path and its rules in order. *)
Abbreviation PendingRoot := (bytes * list FilterRule)%type.

(** [roots.back().rules.push_back(...)]. *)
Fixpoint push_rule (roots : list PendingRoot) (r : FilterRule) : list PendingRoot :=
  match roots with
  | [] => []
  | [(p, rules)] => [(p, rules ++ [r])]
  | root :: roots => root :: push_rule roots r
  end.

Inductive CliError :=
  | UsageShown | NoKey | NeedsValue (arg : bytes) | MustFollowRoot (arg : bytes) | UnknownArgument (arg : bytes)
  | NoRoot | NoWorkers.

Fixpoint cli_loop (args : list bytes) (cfg : Config) (roots : list PendingRoot) :
    parsed (Config * list PendingRoot) CliError :=
  match args with
  | [] => Parsed (cfg, roots)
  | arg :: rest =>
      if bool_decide (arg = str "--verbose") || bool_decide (arg = str "-v") then cli_loop rest (set_verbose cfg) roots
      else
        match rest with
        | [] => Refused (NeedsValue arg)
        | val :: rest =>
            if bool_decide (arg = str "--root") then cli_loop rest cfg (roots ++ [(val, [])])
            else if bool_decide (arg = str "--include") || bool_decide (arg = str "--exclude") then
              match roots with
              | [] => Refused (MustFollowRoot arg)
              | _ => cli_loop rest cfg (push_rule roots {| fr_include := bool_decide (arg = str "--include"); pattern := val |})
              end
            else if bool_decide (arg = str "--workers") then cli_loop rest (set_workers cfg (strtoul val)) roots
            else if bool_decide (arg = str "--disk-concurrency") then cli_loop rest (set_disk cfg (strtoul val)) roots
            else if bool_decide (arg = str "--big-file-threshold") then
              match parseSize val with Some n => cli_loop rest (set_threshold cfg n) roots | None => Overflow end
            else if bool_decide (arg = str "--chunk-size") then
              match parseSize val with Some n => cli_loop rest (set_chunk cfg n) roots | None => Overflow end
            else Refused (UnknownArgument arg)
        end
  end.

Definition with_env_key (c : Conn) (env : option bytes) : Conn :=
  match env with
  | Some key =>
      {| cn_host := cn_host c; cn_port := cn_port c; cn_tls := cn_tls c; cn_proxy := cn_proxy c;
         cn_sessionId := cn_sessionId c; cn_key := key; cn_flags := cn_flags c; cn_algo := cn_algo c |}
  | None => c
  end.

(** [args] is [argv] without the program's name, [env] is [DICKER_KEY]. *)
Definition cli_options (env : option bytes) (random_id : bytes) (args : list bytes) :
    parsed (Config * list PendingRoot) CliError :=
  match args with
  | [] => Refused UsageShown
  | url :: rest =>
      if bool_decide (head url = Some x2d) then Refused UsageShown
      else
        let conn := with_env_key (conn_of random_id url []) env in
        if bool_decide (cn_key conn = []) then Refused NoKey
        else
          match cli_loop rest (default_config conn) [] with
          | Parsed (cfg, roots) =>
              if bool_decide (roots = []) then Refused NoRoot
              else if cf_workers cfg <? 1 then Refused NoWorkers
              else Parsed (cfg, roots)
          | r => r
          end
  end.

(** ** [main] *)

Section Main.
Context {Ch W : Type} {Ops : ChanOps Ch} {Ctx : Contexts.CtxOps W}.

(** Whether [readers] and [workers] can be reserved for a number of workers, and
    the readers made: what throws here (length_error, bad_alloc) nobody catches. *)
Variable reserve_ok : Z -> bool.

(** What the constructor leaves; [fresh i] is the channel of the [i]-th worker. *)
Definition scheduler_of (fresh : nat -> Ch) (cfg : Config) : Scheduler Ch :=
  {| chunkSize := cf_chunkSize cfg; bigFileThreshold := cf_bigFileThreshold cfg;
     workers := fresh <$> seq 0 (Z.to_nat (cf_workers cfg));
     workersStates := repeat PENDING (Z.to_nat (cf_workers cfg)) |}.

(** An exception, or a worker without a compressor: [Worker::init], which each
    worker's thread runs first, reads [compressor->algo]. *)
Inductive scheduler_result :=
  | SchedulerMade (s : Scheduler Ch) | SchedulerThrown | SchedulerNull.

(** [Scheduler(cfg)]. *)
Definition new_scheduler (fresh : nat -> Ch) (cfg : Config) (w : W) : W * scheduler_result :=
  if negb (reserve_ok (cf_workers cfg)) then (w, SchedulerThrown)
  else
    match Contexts.make_workers (Z.to_nat (cf_workers cfg)) (cn_algo (cf_conn cfg)) [] w with
    | (w, None) => (w, SchedulerThrown)
    | (w, Some compressors) =>
        if existsb (fun c => bool_decide (c = None)) compressors then (w, SchedulerNull)
        else (w, SchedulerMade (scheduler_of fresh cfg))
    end.

(** The exit code, what was queued, and whether every walk succeeded, which
    [start] only logs. [CliThrown]: an exception leaves [main]. [CliAborted]: a
    rule was refused, or the walk does not end. *)
Inductive cli_result :=
  | CliRefused (code : Z) (why : CliError) | CliUndefined | CliThrown | CliAborted
  | CliDone (code : Z) (cfg : Config) (s : Scheduler Ch) (walked : bool).

Definition cli_main (disk : bytes -> Dir) (fresh : nat -> Ch) (env : option bytes) (random_id : bytes)
    (args : list bytes) (w : W) : cli_result :=
  match cli_options env random_id args with
  | Refused why => CliRefused 2 why
  | Overflow => CliUndefined
  | Parsed (cfg, roots) =>
      match (new_scheduler fresh cfg w).2 with
      | SchedulerThrown => CliThrown
      | SchedulerNull => CliUndefined
      | SchedulerMade s =>
          match (rs ← add_roots [] roots; start disk rs s) with
          | Some (s, walked) => CliDone 0 cfg s walked
          | None => CliAborted
          end
      end
  end.
End Main.
Arguments cli_result : clear implicits.
Arguments scheduler_result : clear implicits.

(** ** Printed command lines *)

(** A size on the command line: a number and a unit. *)
Record SizeArg := { sa_number : Z; sa_unit : bytes; sa_bits : Z }.

Definition show_size (a : SizeArg) : bytes := to_string (sa_number a) ++ sa_unit a.
Definition size_value (a : SizeArg) : Z := sa_number a * 2 ^ sa_bits a.
Definition size_ok (a : SizeArg) : Prop :=
  (sa_unit a, sa_bits a) ∈ size_units /\ 0 <= sa_number a < 2 ^ 53 /\ size_value a < 2 ^ 64.

Inductive CliSetting :=
  | Verbose (short : bool) | Workers (n : Z) | DiskConcurrency (n : Z)
  | BigFileThreshold (a : SizeArg) | ChunkSize (a : SizeArg).

Definition show_cli (s : CliSetting) : list bytes :=
  match s with
  | Verbose short => [if short then str "-v" else str "--verbose"]
  | Workers n => [str "--workers"; to_string n]
  | DiskConcurrency n => [str "--disk-concurrency"; to_string n]
  | BigFileThreshold a => [str "--big-file-threshold"; show_size a]
  | ChunkSize a => [str "--chunk-size"; show_size a]
  end.

Definition apply_cli (c : Config) (s : CliSetting) : Config :=
  match s with
  | Verbose _ => set_verbose c
  | Workers n => set_workers c n
  | DiskConcurrency n => set_disk c n
  | BigFileThreshold a => set_threshold c (size_value a)
  | ChunkSize a => set_chunk c (size_value a)
  end.

Definition cli_ok (s : CliSetting) : Prop :=
  match s with
  | Verbose _ => True
  | Workers n | DiskConcurrency n => is_word 64 n
  | BigFileThreshold a | ChunkSize a => size_ok a
  end.

Definition show_rule (r : FilterRule) : list bytes :=
  [if fr_include r then str "--include" else str "--exclude"; pattern r].

Definition show_root (root : PendingRoot) : list bytes := str "--root" :: root.1 :: concat (map show_rule root.2).

(** Steps over conditions on a constant argument. *)
Ltac next_test :=
  first [rewrite bool_decide_eq_true_2 by done | rewrite bool_decide_eq_false_2 by done]; cbn [orb].

Lemma shown_size a : size_ok a -> parseSize (show_size a) = Some (size_value a).
Proof. intros (Hu & Hn & Hs). by apply size_read. Qed.

Lemma cli_loop_settings l rest roots : forall cfg, Forall cli_ok l ->
  cli_loop (concat (map show_cli l) ++ rest) cfg roots = cli_loop rest (fold_left apply_cli l cfg) roots.
Proof.
  induction l as [|s l IH]; intros cfg Hl; [done|]. apply Forall_cons in Hl as [Hs Hl].
  destruct s as [[|]|n|n|a|a]; cbn [map concat show_cli app cli_loop fold_left apply_cli];
    repeat next_test; rewrite ?strtoul_shown, ?shown_size by done; by apply IH.
Qed.

Lemma push_rule_last roots p rules r : push_rule (roots ++ [(p, rules)]) r = roots ++ [(p, rules ++ [r])].
Proof.
  induction roots as [|root roots IH]; [done|]. cbn [app push_rule]. rewrite IH.
  destruct roots; by destruct root.
Qed.

Lemma cli_loop_rules l rest cfg roots p : forall rules,
  cli_loop (concat (map show_rule l) ++ rest) cfg (roots ++ [(p, rules)]) =
  cli_loop rest cfg (roots ++ [(p, rules ++ l)]).
Proof.
  induction l as [|[inc pat] l IH]; intros rules; cbn [map concat app]; [by rewrite app_nil_r|].
  unfold show_rule. cbn [fr_include pattern app]. destruct inc; cbn [cli_loop]; repeat next_test;
    (destruct (roots ++ [(p, rules)]) eqn:E; [by destruct roots|]; rewrite <- E, push_rule_last, IH, <- app_assoc; done).
Qed.

Lemma cli_loop_roots l cfg : forall roots, cli_loop (concat (map show_root l)) cfg roots = Parsed (cfg, roots ++ l).
Proof.
  induction l as [|[p rules] l IH]; intros roots; cbn [map concat]; [by rewrite app_nil_r|].
  unfold show_root at 1. cbn [fst snd app cli_loop]. repeat next_test.
  rewrite (cli_loop_rules rules), IH, <- app_assoc. done.
Qed.

(** A URL, the settings in any order and number, then the roots with their
    rules: what is read back, the last setting of a kind counting. *)
Lemma cli_options_shown env rid url settings roots :
  let conn := with_env_key (conn_of rid url []) env in
  let cfg := fold_left apply_cli settings (default_config conn) in
  head url <> Some x2d -> cn_key conn <> [] -> Forall cli_ok settings -> roots <> [] -> 1 <= cf_workers cfg ->
  cli_options env rid (url :: concat (map show_cli settings) ++ concat (map show_root roots)) = Parsed (cfg, roots).
Proof.
  intros conn cfg Hurl Hkey Hs Hr Hw. unfold cli_options. fold conn.
  rewrite !bool_decide_eq_false_2, cli_loop_settings, cli_loop_roots by done. cbn [app].
  rewrite bool_decide_eq_false_2 by done. by replace (cf_workers (fold_left _ _ _) <? 1) with false by (unfold cfg in Hw; lia).
Qed.

(** ** What the program queues *)

(** The compressors: none is null but for the algorithm none, for which all are. *)
Lemma make_workers_null {W} {Ctx : Contexts.CtxOps W} n : forall made (w : W),
  exists w', Contexts.make_workers n AlgoNone made w = (w', Some (made ++ repeat None n)).
Proof.
  induction n as [|n IH]; intros made w; cbn [Contexts.make_workers Contexts.makeCompressor repeat].
  - exists w. by rewrite app_nil_r.
  - destruct (IH (made ++ [None]) w) as [w' ->]. exists w'. by rewrite <- app_assoc.
Qed.

Lemma make_workers_some {W} {Ctx : Contexts.CtxOps W} algo n : forall made (w w' : W) ws,
  algo <> AlgoNone -> existsb (fun c => bool_decide (c = None)) made = false ->
  Contexts.make_workers n algo made w = (w', Some ws) -> existsb (fun c => bool_decide (c = None)) ws = false.
Proof.
  induction n as [|n IH]; intros made w w' ws Ha Hm; cbn [Contexts.make_workers].
  - by intros [= _ <-].
  - assert (Hn : forall w2, Contexts.makeCompressor algo w <> (w2, Contexts.MadeNull)).
    { intros w2. destruct algo; [done|..]; cbn [Contexts.makeCompressor].
      - unfold Contexts.new_lz4_compressor. by repeat case_match.
      - unfold Contexts.new_zstd_compressor. by repeat case_match. }
    destruct (Contexts.makeCompressor algo w) as [w2 [c| |]]; [|by destruct (Hn w2)|done].
    apply IH; [done|]. rewrite existsb_app, Hm. reflexivity.
Qed.

Section Queued.
Context {Ch W : Type} {Ops : ChanOps Ch} {Laws : ChanLaws Ch} {Ctx : Contexts.CtxOps W}.
Variables (reserve_ok : Z -> bool) (disk : bytes -> Dir).

Lemma fresh_tasks (fresh : nat -> Ch) cfg : (forall i, ch_queue (fresh i) = []) -> all_tasks (scheduler_of fresh cfg) = [].
Proof using Type.
  intros Hf. unfold all_tasks. cbn [workers scheduler_of]. generalize (seq 0 (Z.to_nat (cf_workers cfg))).
  induction l as [|i l IH]; [done|]. cbn. by rewrite Hf.
Qed.

(** Whether the libraries give every worker its context. *)
Definition compressors_made (cfg : Config) (w : W) : Prop :=
  is_Some (Contexts.make_workers (Z.to_nat (cf_workers cfg)) (cn_algo (cf_conn cfg)) [] w).2.

Lemma new_scheduler_cases (fresh : nat -> Ch) cfg (w : W) :
  1 <= cf_workers cfg ->
  let made := (new_scheduler reserve_ok fresh cfg w).2 in
  (reserve_ok (cf_workers cfg) = false \/ ~ compressors_made cfg w -> made = SchedulerThrown) /\
  (reserve_ok (cf_workers cfg) = true -> cn_algo (cf_conn cfg) = AlgoNone -> made = SchedulerNull) /\
  (reserve_ok (cf_workers cfg) = true -> cn_algo (cf_conn cfg) <> AlgoNone -> compressors_made cfg w ->
     made = SchedulerMade (scheduler_of fresh cfg)).
Proof using Type.
  intros Hw made. unfold made, new_scheduler, compressors_made.
  destruct (reserve_ok (cf_workers cfg)); cbn [negb]; [|by split_and!].
  destruct (Contexts.make_workers _ _ _ w) as [w' [ws|]] eqn:E; cbn [snd]; split_and!.
  - intros [?|[]]; [done|]. by eexists.
  - intros _ Ha. rewrite Ha in E. destruct (make_workers_null (Z.to_nat (cf_workers cfg)) [] w) as [w2 E2].
    rewrite E2 in E. injection E as _ <-. destruct (Z.to_nat (cf_workers cfg)) eqn:En; [lia|]. done.
  - intros _ Ha _. by rewrite (make_workers_some _ _ [] _ _ _ Ha eq_refl E).
  - done.
  - intros _ Ha. rewrite Ha in E. destruct (make_workers_null (Z.to_nat (cf_workers cfg)) [] w) as [w2 E2]. by rewrite E2 in E.
  - by intros _ _ [].
Qed.

(** C15: from the command line to the queues. The program, started with a URL
    that has a key (or DICKER_KEY set), settings in any order (the last of a kind
    counts) that leave at least one worker, and roots with their rules, gets
    this far: if the vectors for so many workers cannot be reserved, or a library
    refuses a compressor's context, an exception leaves [main]; with the
    algorithm none each worker reads through a null compressor; otherwise, with
    a chunk size above 0 and files whose chunk offsets do not wrap, it ends with
    exit code 0, the scheduler has the chunk size, the threshold and the number
    of workers it was told, and when the walk went through, the workers' queues
    hold exactly the tasks of the files that the globs of their roots keep. *)
Theorem cli_queues_wanted (fresh : nat -> Ch) (env : option bytes) (rid url : bytes)
    (settings : list CliSetting) (roots : list PendingRoot) (w : W) :
  let conn := with_env_key (conn_of rid url []) env in
  let cfg := fold_left apply_cli settings (default_config conn) in
  let outcome := cli_main reserve_ok disk fresh env rid
                   (url :: concat (map show_cli settings) ++ concat (map show_root roots)) w in
  (forall i, ch_queue (fresh i) = []) ->
  head url <> Some x2d -> cn_key conn <> [] -> Forall cli_ok settings -> roots <> [] ->
  1 <= cf_workers cfg ->
  (reserve_ok (cf_workers cfg) = false \/ ~ compressors_made cfg w -> outcome = CliThrown) /\
  (reserve_ok (cf_workers cfg) = true -> cn_algo (cf_conn cfg) = AlgoNone -> outcome = CliUndefined) /\
  (reserve_ok (cf_workers cfg) = true -> cn_algo (cf_conn cfg) <> AlgoNone -> compressors_made cfg w ->
   0 < cf_chunkSize cfg ->
   Forall (fun root => sizes_ok (cf_chunkSize cfg) (listing [] (disk root.1))) roots ->
   exists s walked,
     outcome = CliDone 0 cfg s walked /\
     chunkSize s = cf_chunkSize cfg /\ bigFileThreshold s = cf_bigFileThreshold cfg /\
     Z.of_nat (length (workers s)) = cf_workers cfg /\
     (walked = true -> exists fss, Forall2 (rooted disk) roots fss /\
        all_tasks s ≡ₚ all_files (cf_chunkSize cfg) (cf_bigFileThreshold cfg) roots fss)).
Proof using Type.
  intros conn cfg outcome Hf Hurl Hkey Hs Hr Hw. unfold outcome, cli_main.
  rewrite (cli_options_shown env rid url settings roots Hurl Hkey Hs Hr Hw). fold conn. fold cfg.
  destruct (new_scheduler_cases fresh cfg w Hw) as (H1 & H2 & H3). split_and!.
  - intros H. by rewrite (H1 H).
  - intros Hres Ha. by rewrite (H2 Hres Ha).
  - intros Hres Ha Hm Hc Hsz. rewrite (H3 Hres Ha Hm).
    destruct (add_roots_app roots []) as (rs & -> & Hrs). cbn [mbind option_bind app].
    destruct (start_queue disk roots rs (scheduler_of fresh cfg) Hrs Hc Hsz) as (s & ok & E & (K1 & K2 & K3) & Hq).
    rewrite E. exists s, ok. split; [done|]. split; [done|]. split; [done|]. split.
    + rewrite K3. cbn [workers scheduler_of]. rewrite length_fmap, length_seq. lia.
    + intros Hok. destruct (Hq Hok) as (fss & Hfs & Hp). exists fss. split; [done|].
      by rewrite Hp, fresh_tasks, app_nil_r.
Qed.

(** The README's roots are files or directories, but a walk that starts at a
    file fails: nothing is queued, and the exit code is 0 all the same. *)
Lemma file_root_queues_nothing (fresh : nat -> Ch)
    (env : option bytes) (rid url : bytes) (settings : list CliSetting) (file : bytes) (w : W) :
  let conn := with_env_key (conn_of rid url []) env in
  let cfg := fold_left apply_cli settings (default_config conn) in
  head url <> Some x2d -> cn_key conn <> [] -> Forall cli_ok settings -> 1 <= cf_workers cfg ->
  reserve_ok (cf_workers cfg) = true -> cn_algo (cf_conn cfg) <> AlgoNone -> compressors_made cfg w ->
  disk file = DirEnd false ->
  cli_main reserve_ok disk fresh env rid (url :: concat (map show_cli settings) ++ show_root (file, [])) w =
    CliDone 0 cfg (scheduler_of fresh cfg) false.
Proof using Type.
  intros conn cfg Hurl Hkey Hs Hw Hres Ha Hm Hd. unfold cli_main.
  pose proof (cli_options_shown env rid url settings [(file, [])] Hurl Hkey Hs ltac:(done) Hw) as E.
  cbn [map concat] in E. rewrite app_nil_r in E. rewrite E. fold conn. fold cfg.
  destruct (new_scheduler_cases fresh cfg w Hw) as (_ & _ & H3). rewrite (H3 Hres Ha Hm).
  change (add_roots [] [(file, [])]) with (Some [{| r_path := file; r_rules := [] |}]).
  cbn [mbind option_bind start]. unfold run. cbn [r_path r_rules]. by rewrite Hd.
Qed.
End Queued.

(** ** Whatever the arguments are *)

Definition conn_typed (c : Conn) : Prop := length (cn_sessionId c) = kSessionIdSize /\ 0 <= cn_flags c < 256.

Lemma explicit_id_length sid : length (explicit_id sid) = kSessionIdSize.
Proof. unfold explicit_id. rewrite length_app, length_take, repeat_length. unfold kSessionIdSize. lia. Qed.

Lemma with_token_typed c token : conn_typed c -> conn_typed (with_token c token).
Proof.
  intros [Hl Hf]. unfold with_token. destruct (match cut_first equals token with Some _ => _ | None => _ end) as [k v].
  assert (Hor : 0 <= Z.lor (cn_flags c) (flag_bit IntegrityChecks) < 256).
  { change (flag_bit IntegrityChecks) with 1. split; [apply Z.lor_nonneg; lia|].
    destruct (Z.eq_dec (Z.lor (cn_flags c) 1) 0) as [->|Hz]; [lia|].
    change 256 with (2 ^ 8). apply Z.log2_lt_pow2; [pose proof (Z.lor_nonneg (cn_flags c) 1); lia|].
    rewrite Z.log2_lor by lia. change (Z.log2 1) with 0. apply Z.max_lub_lt; [|lia].
    destruct (Z.eq_dec (cn_flags c) 0) as [->|]; [done|]. apply Z.log2_lt_pow2; lia. }
  repeat case_bool_decide; cbn [orb]; by split.
Qed.

Lemma query_typed fuel : forall c query, conn_typed c -> conn_typed (query_loop fuel c query).
Proof.
  induction fuel as [|fuel IH]; intros c query Hc; [done|]. cbn [query_loop]. destruct query as [|b query]; [done|].
  destruct (cut_first amp (b :: query)) as [[token rest]|]; [apply IH|]; by apply with_token_typed.
Qed.

Lemma conn_of_typed rid url proxy : length rid = kSessionIdSize -> conn_typed (conn_of rid url proxy).
Proof.
  intros Hr. assert (Hp : conn_typed (parse (new_conn rid) url)).
  { unfold parse. destruct (match cut_str scheme_sep url with Some _ => _ | None => _ end) as [tls s].
    destruct (match cut_first question s with Some _ => _ | None => _ end) as [s' query].
    destruct (cut_last at_sign s') as [[u h]|].
    - apply query_typed. unfold with_hostport. destruct (match cut_last colon h with Some _ => _ | None => _ end).
      unfold with_userinfo. destruct (cut_first colon u) as [[[|b sid] key]|]; split;
        first [apply explicit_id_length | exact Hr | done].
    - apply query_typed. unfold with_hostport. destruct (match cut_last colon s' with Some _ => _ | None => _ end).
      by split. }
  unfold conn_of. destruct proxy; [done|]. apply Hp.
Qed.

(** The numbers of a configuration fit their types. *)
Definition config_typed (c : Config) : Prop :=
  conn_typed (cf_conn c) /\ is_word 64 (diskConcurrency c) /\ is_word 64 (cf_workers c) /\
  is_word 64 (cf_bigFileThreshold c) /\ is_word 64 (cf_chunkSize c).

Lemma push_rule_nonempty roots r : roots <> [] -> push_rule roots r <> [].
Proof. by destruct roots as [|[p rules] [|root roots]]. Qed.

Lemma cli_loop_typed n : forall args cfg roots cfg' roots', (length args <= n)%nat ->
  config_typed cfg -> cli_loop args cfg roots = Parsed (cfg', roots') ->
  config_typed cfg' /\ cf_conn cfg' = cf_conn cfg.
Proof.
  induction n as [|n IH]; intros args cfg roots cfg' roots' Hn Hc; destruct args as [|arg args];
    cbn [length] in Hn; try lia; cbn [cli_loop]; try (by intros [= <- <-]).
  assert (Hgo : forall l c r, (length l <= n)%nat -> config_typed c -> cf_conn c = cf_conn cfg ->
    cli_loop l c r = Parsed (cfg', roots') -> config_typed cfg' /\ cf_conn cfg' = cf_conn cfg).
  { intros l c r Hl Hct E H. rewrite <- E. by eapply IH. }
  unfold config_typed in Hc. destruct (_ || _); [apply Hgo; [lia|done|done]|].
  destruct args as [|val args]; [done|]. cbn [length] in Hn. pose proof (strtoul_word val).
  repeat case_bool_decide; cbn [orb];
    try (destruct roots as [|root roots]; [done|]);
    try (destruct (parseSize val) as [z|] eqn:Ez; [|done]; apply parse_size_word in Ez); try done;
    (apply Hgo; [lia|unfold config_typed; cbn; tauto|done]).
Qed.

(** C16: what a client is started with. Whatever the arguments, the environment
    and the random id: when the program gets as far as its scheduler there is a
    root, at least one worker and a key, every size and count fits 64 bits, the
    session id has 16 bytes and the flags one - as the handshake needs them. *)
Theorem cli_options_typed (env : option bytes) (rid : bytes) (args : list bytes) (cfg : Config)
    (roots : list PendingRoot) :
  length rid = kSessionIdSize -> cli_options env rid args = Parsed (cfg, roots) ->
  config_typed cfg /\ roots <> [] /\ 1 <= cf_workers cfg /\ cn_key (cf_conn cfg) <> [].
Proof.
  intros Hr. unfold cli_options. destruct args as [|url rest]; [done|]. case_bool_decide; [done|].
  set (conn := with_env_key _ _). case_bool_decide as Hk; [done|].
  destruct (cli_loop rest _ _) as [[cfg1 roots1]|e|] eqn:E; [|done..].
  assert (Hct : config_typed (default_config conn)).
  { split; [|unfold is_word; cbn; lia]. pose proof (conn_of_typed rid url [] Hr) as [H1 H2].
    unfold conn, with_env_key. by destruct env. }
  apply (cli_loop_typed _ _ _ _ _ _ (le_n _) Hct) in E as [Hc1 Hconn].
  case_bool_decide as Hroots; [done|]. destruct (Z.ltb_spec (cf_workers cfg1) 1); [done|].
  intros [= <- <-]. by rewrite Hconn.
Qed.

(** ** A concrete run *)

Definition demo_url : bytes := str "dicker://s3cret@host:5959?integrity".
Definition demo_settings : list CliSetting :=
  [Verbose true; Workers 9; ChunkSize {| sa_number := 4; sa_unit := []; sa_bits := 0 |};
   BigFileThreshold {| sa_number := 8; sa_unit := []; sa_bits := 0 |}; Workers 2].
Definition demo_rid : bytes := repeat xaa 16.
Definition demo_args : list bytes :=
  demo_url :: concat (map show_cli demo_settings) ++ concat (map show_root demo_specs).

(** Contexts that the libraries still give. *)
Definition demo_heap : Contexts.MemCtx := {| Contexts.mc_live := ∅; Contexts.mc_next := 7; Contexts.mc_refuse := [] |}.

Example demo_printed :
  demo_args =
    demo_url :: [str "-v"; str "--workers"; str "9"; str "--chunk-size"; str "4"; str "--big-file-threshold"; str "8";
      str "--workers"; str "2"; str "--root"; str "src"; str "--exclude"; str "build/"] /\
  match cli_main (Ops := ListChan.ops) (fun _ => true) demo_disk (fun _ => []) None demo_rid demo_args demo_heap with
  | CliDone code _ s walked => (code, length <$> workers s, walked) = (0, [2; 1]%nat, true)
  | _ => False
  end.
Proof. vm_compute. done. Qed.

(** No memory for the vectors, a context that is refused, and no compression. *)
Example cli_not_made :
  let run reserve_ok url refuse :=
    cli_main (Ops := ListChan.ops) reserve_ok demo_disk (fun _ => []) None demo_rid (url :: tail demo_args)
      {| Contexts.mc_live := ∅; Contexts.mc_next := 7; Contexts.mc_refuse := refuse |} in
  run (fun n => n <? 2) demo_url [] = CliThrown /\
  run (fun _ => true) demo_url [true] = CliThrown /\
  run (fun _ => true) (str "dicker://s3cret@host:5959?algo=none") [] = CliUndefined.
Proof. vm_compute. repeat split. Qed.

(** Nothing to do, an option without a value, a rule before the first root, no
    workers, a size that does not fit, and a count below 0, which does. *)
Example cli_edges :
  let run args := cli_options None demo_rid (demo_url :: args) in
  run [] = Refused NoRoot /\
  run [str "--root"] = Refused (NeedsValue (str "--root")) /\
  run [str "--include"; str "*"; str "--root"; str "a"] = Refused (MustFollowRoot (str "--include")) /\
  run [str "--root"; str "a"; str "--workers"; str "0"] = Refused NoWorkers /\
  run [str "--root"; str "a"; str "--chunk-size"; str "-1"] = Overflow /\
  cli_options (Some []) demo_rid [demo_url] = Refused NoKey /\
  match run [str "--root"; str "a"; str "--workers"; str "-1"; str "--chunk-size"; str "M"] with
  | Parsed (cfg, _) => cf_workers cfg = 2 ^ 64 - 1 /\ cf_chunkSize cfg = 0
  | _ => False
  end.
Proof. vm_compute. repeat split. Qed.

Lemma cli_queues_wanted_witness :
  let cfg := fold_left apply_cli demo_settings (default_config (conn_of demo_rid demo_url [])) in
  exists s walked,
    cli_main (Ops := ListChan.ops) (fun _ => true) demo_disk (fun _ => []) None demo_rid demo_args demo_heap =
      CliDone 0 cfg s walked /\
    chunkSize s = 4 /\ bigFileThreshold s = 8 /\ Z.of_nat (length (workers s)) = 2 /\
    (walked = true -> exists fss, Forall2 (rooted demo_disk) demo_specs fss /\
       @all_tasks _ _ ListChan.laws s ≡ₚ all_files 4 8 demo_specs fss).
Proof.
  apply (cli_queues_wanted (Laws := ListChan.laws) (fun _ => true) demo_disk (fun _ => []) None demo_rid demo_url
    demo_settings demo_specs demo_heap);
    [done|by vm_compute|by vm_compute| |done|by vm_compute|done|by vm_compute| |by vm_compute|].
  - repeat (apply Forall_cons; split; [|]); [done|by split| | |by split|by apply Forall_nil];
      (split; [apply list_elem_of_here|by vm_compute]).
  - unfold compressors_made. by eexists.
  - apply Forall_cons. split; [|by constructor]. unfold sizes_ok. cbn [demo_disk listing fst app].
    repeat (apply Forall_cons; split; [intros size E; cbn in E; simplify_eq; by split|]). constructor.
Defined.

Definition demo_config : Config :=
  match cli_options None demo_rid demo_args with
  | Parsed (cfg, _) => cfg
  | _ => default_config (new_conn [])
  end.

Lemma cli_options_typed_witness :
  config_typed demo_config /\ demo_specs <> [] /\ 1 <= cf_workers demo_config /\ cn_key (cf_conn demo_config) <> [].
Proof. apply (cli_options_typed None demo_rid demo_args); [reflexivity|by vm_compute]. Defined.
