(* ===== verification/Router.v ===== *)
(** * Router: routes, middleware chains and the built-in endpoints

    [server/router.cxx], [server/middleware], [server/controllers]. What the
    handlers use of a connection and its server is the class [ConnOps]; the
    connection's file gives the instance. *)

From S2P Require Import Prelude Text JsonDump JsonText JsonParse JsonValue Http Db.

Class ConnOps (C : Type) := {
  authorized : C -> HttpRequest -> bool;                       (** [Connection::authorized] *)
  load_sessions : C -> list (bytes * SessionInfo);             (** [Server::load_sessions], in key order *)
  session_dir : C -> bytes -> bytes;                           (** [config().root / session_id] *)
  is_directory : C -> bytes -> bool;                           (** [std::filesystem::is_directory] *)
  send_http_simple : C -> Z -> bytes -> bytes -> bytes -> list (bytes * bytes) -> C;
  begin_download_response : C -> bytes -> bytes -> C;
}.

Section Router.
Context {C : Type} {Ops : ConnOps C} {Json : JsonLib}.

(** The JSON text of the session list, an array of [ordered_json] rows; [None]: an
    exception. *)
Definition dump_sessions (sessions : list (bytes * SessionInfo)) : option bytes :=
  json_dump (VArray (map (fun entry => row_value entry.1 (si_ip entry.2) (si_created entry.2)) sessions)).

(** ** Contexts *)

Record HttpContext := {
  req : HttpRequest;
  param : bytes;
  ctx_status : Z;
  ctx_type : bytes;
  ctx_body : bytes;
  ctx_headers : list (bytes * bytes);
  respond : bool;
  conn : C;
}.

Definition text_plain : bytes := str "text/plain; charset=utf-8".

Definition new_context (conn : C) (request : HttpRequest) (param : bytes) : HttpContext :=
  {| req := request; param := param; ctx_status := 200; ctx_type := text_plain; ctx_body := [];
     ctx_headers := []; respond := true; conn := conn |}.

Definition reply (ctx : HttpContext) (status : Z) (type body : bytes) : HttpContext :=
  {| req := req ctx; param := param ctx; ctx_status := status; ctx_type := type; ctx_body := body;
     ctx_headers := ctx_headers ctx; respond := respond ctx; conn := conn ctx |}.

Definition ctx_set (ctx : HttpContext) (name value : bytes) : HttpContext :=
  {| req := req ctx; param := param ctx; ctx_status := ctx_status ctx; ctx_type := ctx_type ctx;
     ctx_body := ctx_body ctx; ctx_headers := ctx_headers ctx ++ [(name, value)];
     respond := respond ctx; conn := conn ctx |}.

Definition begin_download (ctx : HttpContext) (session_id dir_path : bytes) : HttpContext :=
  {| req := req ctx; param := param ctx; ctx_status := ctx_status ctx; ctx_type := ctx_type ctx;
     ctx_body := ctx_body ctx; ctx_headers := ctx_headers ctx; respond := false;
     conn := begin_download_response (conn ctx) session_id dir_path |}.

(** ** Routes *)

Inductive Match := Exact | Prefix.

Definition HttpHandler := HttpContext -> HttpContext.

(** A middleware is given the context and the continuation it may call. *)
Definition Middleware := HttpContext -> (HttpContext -> HttpContext) -> HttpContext.
Definition Chain := list Middleware.

Record Route := {
  rt_method : bytes;
  rt_match : Match;
  rt_path : bytes;
  rt_middleware : Chain;
  rt_handler : HttpHandler;
}.

Record Router := { routes : list Route; builtins : list Route }.

(** [Next::operator()]: the middleware from [index] on, then the handler. *)
Fixpoint next (middleware : Chain) (handler : HttpHandler) (ctx : HttpContext) : HttpContext :=
  match middleware with
  | current :: onward => current ctx (next onward handler)
  | [] => handler ctx
  end.

Definition path_matches (route : Route) (path : bytes) : bool :=
  match rt_match route with
  | Exact => bool_decide (path = rt_path route)
  | Prefix => (length (rt_path route) <=? length path)%nat && starts_with (rt_path route) path
  end.

(** The route found, and [path_matched], which is only ever set. *)
Fixpoint find (routes : list Route) (request : HttpRequest) (path_matched : bool) : option Route * bool :=
  match routes with
  | [] => (None, path_matched)
  | route :: routes =>
      if negb (path_matches route (rq_path request)) then find routes request path_matched
      else if bool_decide (rq_method request = rt_method route) then (Some route, true)
      else find routes request true
  end.

Definition method_not_allowed : bytes := str "method not allowed" ++ [LF].
Definition not_found : bytes := str "not found" ++ [LF].

Definition run_route (c : C) (request : HttpRequest) (matched : Route) : C :=
  let param := match rt_match matched with
               | Prefix => drop (length (rt_path matched)) (rq_path request)
               | Exact => []
               end in
  let ctx := new_context c request param in
  let ctx := next (rt_middleware matched) (rt_handler matched) ctx in
  if respond ctx
  then send_http_simple (conn ctx) (ctx_status ctx) (reason_phrase (ctx_status ctx)) (ctx_type ctx)
         (ctx_body ctx) (ctx_headers ctx)
  else conn ctx.

Definition dispatch (router : Router) (c : C) (request : HttpRequest) : C :=
  let '(matched, path_matched) := find (routes router) request false in
  let '(matched, path_matched) :=
    match matched with
    | Some _ => (matched, path_matched)
    | None => find (builtins router) request path_matched
    end in
  match matched with
  | None =>
      if path_matched
      then send_http_simple c 405 (str "Method Not Allowed") text_plain method_not_allowed []
      else send_http_simple c 404 (str "Not Found") text_plain not_found []
  | Some matched => run_route c request matched
  end.

(** ** Middleware and controllers *)

Definition unauthorized : bytes := str "unauthorized" ++ [LF].

Definition require_auth : Middleware := fun ctx next =>
  if negb (authorized (conn ctx) (req ctx))
  then ctx_set (reply ctx 401 text_plain unauthorized) (str "WWW-Authenticate") (str "Bearer")
  else next ctx.

Definition quote : byte := x22.
Definition root_body : bytes :=
  str "<!doctype html>" ++ [LF] ++ str "<html><head><meta charset=" ++ [quote] ++ str "utf-8" ++ [quote] ++
  str "><title>dicker</title></head><body><h1>dicker</h1><p>hello world</p></body></html>" ++ [LF].

Definition root : HttpHandler := fun ctx =>
  reply ctx (ctx_status ctx) (str "text/html; charset=utf-8") root_body.

Definition lower_hex (c : byte) : bool :=
  ((48 <=? b2z c) && (b2z c <=? 57)) || ((97 <=? b2z c) && (b2z c <=? 102)).

Definition valid_session_id (id : bytes) : bool :=
  if bool_decide (id = []) || (64 <? length id)%nat then false else forallb lower_hex id.

(** The rows of a log can always be printed ([sessions_listed]), so the exception is
    not modelled here. *)
Definition uploads_list : HttpHandler := fun ctx =>
  reply ctx (ctx_status ctx) (str "application/json") (default [] (dump_sessions (load_sessions (conn ctx)))).

Definition uploads_download : HttpHandler := fun ctx =>
  let session_id := param ctx in
  if negb (valid_session_id session_id) then reply ctx 404 (ctx_type ctx) not_found
  else
    let dir := session_dir (conn ctx) session_id in
    if negb (is_directory (conn ctx) dir) then reply ctx 404 (ctx_type ctx) not_found
    else begin_download ctx session_id dir.

(** ** Registration *)

Definition GET : bytes := str "GET".

Definition root_route : Route :=
  {| rt_method := GET; rt_match := Exact; rt_path := str "/"; rt_middleware := []; rt_handler := root |}.
Definition list_route : Route :=
  {| rt_method := GET; rt_match := Exact; rt_path := str "/uploads";
     rt_middleware := [require_auth]; rt_handler := uploads_list |}.
Definition download_route : Route :=
  {| rt_method := GET; rt_match := Prefix; rt_path := str "/uploads/";
     rt_middleware := [require_auth]; rt_handler := uploads_download |}.

Definition add_builtin_routes (router : Router) : Router :=
  {| routes := routes router;
     builtins := builtins router ++ [root_route; list_route; download_route] |}.

Definition add (router : Router) (method : bytes) (m : Match) (path : bytes) (handler : HttpHandler)
    (middleware : Chain) : Router :=
  {| routes := routes router ++
       [{| rt_method := method; rt_match := m; rt_path := path; rt_middleware := middleware;
           rt_handler := handler |}];
     builtins := builtins router |}.

(** ** Finding a route *)

(** The route answers the request. *)
Definition answers (request : HttpRequest) (r : Route) : bool :=
  path_matches r (rq_path request) && bool_decide (rq_method request = rt_method r).

Lemma find_spec rs request pm :
  find rs request pm =
  match List.find (answers request) rs with
  | Some r => (Some r, true)
  | None => (None, pm || existsb (fun r => path_matches r (rq_path request)) rs)
  end.
Proof.
  revert pm. induction rs as [|r rs IH]; intros pm; cbn [find List.find existsb].
  - by rewrite orb_false_r.
  - unfold answers at 1. destruct (path_matches r (rq_path request)) eqn:E; cbn [negb andb orb].
    + destruct (bool_decide (rq_method request = rt_method r)); [done|].
      rewrite IH. destruct (List.find _ rs); [done|]. by rewrite !orb_true_r.
    + apply IH.
Qed.

Lemma find_app {A} (f : A -> bool) l1 l2 :
  List.find f (l1 ++ l2) = match List.find f l1 with Some x => Some x | None => List.find f l2 end.
Proof. induction l1 as [|x l1 IH]; [done|]. cbn. by destruct (f x). Qed.

Lemma dispatch_spec router c request :
  dispatch router c request =
  match List.find (answers request) (routes router ++ builtins router) with
  | Some r => run_route c request r
  | None =>
      if existsb (fun r => path_matches r (rq_path request)) (routes router ++ builtins router)
      then send_http_simple c 405 (str "Method Not Allowed") text_plain method_not_allowed []
      else send_http_simple c 404 (str "Not Found") text_plain not_found []
  end.
Proof.
  unfold dispatch. rewrite find_spec, find_app, existsb_app. cbn [orb].
  destruct (List.find (answers request) (routes router)); [done|].
  rewrite find_spec. by destruct (List.find (answers request) (builtins router)).
Qed.

(** ** The built-in endpoints *)

Definition with_builtins : Router := add_builtin_routes {| routes := []; builtins := [] |}.

(** The server's own routes leave the path to the built-in ones. *)
Definition not_taken (router : Router) (request : HttpRequest) : Prop :=
  forall r, r ∈ routes router -> path_matches r (rq_path request) = false.

Lemma find_none {A} (f : A -> bool) l : (forall x, x ∈ l -> f x = false) -> List.find f l = None.
Proof.
  induction l as [|x l IH]; intros H; [done|]. cbn. rewrite H by left. apply IH.
  intros y Hy. apply H. by right.
Qed.

(** An upload path, on a router with the built-in routes in front of which no
    own route takes the path. *)
Lemma upload_dispatch router c request tail :
  builtins router = builtins with_builtins -> not_taken router request ->
  rq_method request = GET -> rq_path request = str "/uploads/" ++ tail ->
  dispatch router c request = run_route c request download_route.
Proof.
  intros Hb Ht Hm Hp. rewrite dispatch_spec, Hb, find_app.
  rewrite find_none by (intros r Hr; unfold answers; by rewrite (Ht r Hr)).
  cbn [builtins with_builtins add_builtin_routes app List.find].
  assert (Hn : forall q, length q <> length (rq_path request) -> bool_decide (rq_path request = q) = false).
  { intros q Hq. apply bool_decide_eq_false_2. congruence. }
  unfold answers, path_matches. cbn [root_route list_route download_route rt_match rt_path rt_method].
  rewrite (Hn (str "/")), (Hn (str "/uploads")) by (rewrite Hp; cbn; lia). cbn [andb].
  rewrite Hp, starts_with_app, Hm, length_app.
  replace (_ <=? _)%nat with true by (symmetry; apply Nat.leb_le; lia).
  by rewrite bool_decide_eq_true_2.
Qed.

Lemma list_dispatch router c request :
  builtins router = builtins with_builtins -> not_taken router request ->
  rq_method request = GET -> rq_path request = str "/uploads" ->
  dispatch router c request = run_route c request list_route.
Proof.
  intros Hb Ht Hm Hp. rewrite dispatch_spec, Hb, find_app.
  rewrite find_none by (intros r Hr; unfold answers; by rewrite (Ht r Hr)).
  unfold answers. cbn [builtins with_builtins add_builtin_routes app List.find].
  unfold path_matches. cbn [root_route list_route download_route rt_match rt_path rt_method].
  rewrite Hp, Hm. reflexivity.
Qed.

(** Dispatching is by registration order, own routes first: the first route
    that matches path and method is run; without one the answer is 405 when
    some route matches the path and 404 when none does. *)
Theorem dispatch_first_match (router : Router) (c : C) (request : HttpRequest) :
  (forall before r after, routes router ++ builtins router = before ++ r :: after ->
     (forall b, b ∈ before -> answers request b = false) -> answers request r = true ->
     dispatch router c request = run_route c request r) /\
  ((forall r, r ∈ routes router ++ builtins router -> answers request r = false) ->
     dispatch router c request =
     if existsb (fun r => path_matches r (rq_path request)) (routes router ++ builtins router)
     then send_http_simple c 405 (str "Method Not Allowed") text_plain method_not_allowed []
     else send_http_simple c 404 (str "Not Found") text_plain not_found []).
Proof.
  split.
  - intros before r after E Hb Hr. rewrite dispatch_spec, E, find_app, (find_none _ before) by done.
    cbn. by rewrite Hr.
  - intros H. by rewrite dispatch_spec, find_none.
Qed.

(** Without a valid token nothing below [/uploads] is reached: the answer to
    a GET is 401 with the challenge, no session is listed and no download
    begins, whatever the rest of the path says. *)
Theorem uploads_need_token (router : Router) (c : C) (request : HttpRequest) :
  builtins router = builtins with_builtins -> not_taken router request ->
  rq_method request = GET ->
  rq_path request = str "/uploads" \/ (exists tail, rq_path request = str "/uploads/" ++ tail) ->
  authorized c request = false ->
  dispatch router c request =
  send_http_simple c 401 (reason_phrase 401) text_plain unauthorized [(str "WWW-Authenticate", str "Bearer")].
Proof.
  intros Hb Ht Hm Hp Ha.
  assert (exists r, dispatch router c request = run_route c request r /\ rt_middleware r = [require_auth])
    as (r & -> & Hr).
  { destruct Hp as [Hp|[tail Hp]]; eexists; split;
      [by apply list_dispatch|done|by eapply upload_dispatch|done]. }
  unfold run_route. rewrite Hr. cbn [next]. unfold require_auth. cbn [conn req new_context].
  rewrite Ha. reflexivity.
Qed.

(** C29: a download begins only for an authorised request whose tail is a session
    id of 1 to 64 lower-case hexadecimal digits with a directory of that name
    below the root; every other one is answered 401 or 404. *)
Theorem download_exactly_when (router : Router) (c : C) (request : HttpRequest) (tail : bytes) :
  builtins router = builtins with_builtins -> not_taken router request ->
  rq_method request = GET -> rq_path request = str "/uploads/" ++ tail ->
  dispatch router c request =
  if negb (authorized c request)
  then send_http_simple c 401 (reason_phrase 401) text_plain unauthorized [(str "WWW-Authenticate", str "Bearer")]
  else if valid_session_id tail && is_directory c (session_dir c tail)
  then begin_download_response c tail (session_dir c tail)
  else send_http_simple c 404 (reason_phrase 404) text_plain not_found [].
Proof.
  intros Hb Ht Hm Hp. rewrite (upload_dispatch router c request tail) by done.
  unfold run_route. cbn [download_route rt_match rt_path rt_middleware rt_handler next].
  rewrite Hp, drop_app_length. unfold require_auth, uploads_download. cbn [new_context conn req param].
  destruct (authorized c request); cbn [negb]; [|done].
  destruct (valid_session_id tail); [|done]. cbn [andb negb].
  by destruct (is_directory c (session_dir c tail)).
Qed.

(** ** The session list *)

(** A row as it is parsed: its keys in order. *)
Definition listed_row (e : bytes * SessionInfo) : value :=
  VObject [(created_key, VUnsigned (si_created e.2)); (ip_key, VString (si_ip e.2)); (session_key, VString e.1)].

Lemma normal_row id ip created : normal (row_value id ip created) = listed_row (id, {| si_ip := ip; si_created := created |}).
Proof. reflexivity. Qed.

Lemma sessions_listed rows : Forall good_row rows ->
  exists body, dump_sessions rows = Some body /\ parse body = Some (VArray (map listed_row rows)).
Proof.
  intros Hrows. assert (Hd : is_Some (dump_sessions rows)).
  { apply dumps_utf8. cbn [strings]. induction Hrows as [|[id [ip created]] rows (Hi & Hp & _) _ IH]; [constructor|].
    cbn [map flat_map]. apply Forall_app. split; [|done]. cbn [fst snd si_ip] in Hi, Hp |- *.
    pose proof keys_utf8 as Hk. rewrite !Forall_cons in Hk. destruct Hk as (_ & H1 & H2 & H3 & _). cbn. by rewrite !Forall_cons. }
  destruct Hd as [body Hb]. exists body. split; [done|]. unfold dump_sessions in Hb. apply json_dumped in Hb.
  - rewrite Hb. cbn [normal]. by rewrite map_map.
  - clear body Hb. cbn [in_range]. induction Hrows as [|[id [ip created]] rows (_ & _ & Hc) _ IH]; [done|].
    cbn [map forallb]. rewrite IH, andb_true_r. unfold is_word in Hc. cbn in Hc |- *. lia.
Qed.

Lemma list_answer router c request :
  builtins router = builtins with_builtins -> not_taken router request ->
  rq_method request = GET -> rq_path request = str "/uploads" -> authorized c request = true -> Forall good_row (load_sessions c) ->
  exists body, dispatch router c request = send_http_simple c 200 (reason_phrase 200) (str "application/json") body [] /\
    parse body = Some (VArray (map listed_row (load_sessions c))).
Proof.
  intros Hb Ht Hm Hp Ha Hrows. destruct (sessions_listed _ Hrows) as (body & Hd & Hj). exists body. split; [|done].
  rewrite (list_dispatch router c request) by done. unfold run_route. cbn [list_route rt_match rt_path rt_middleware rt_handler next].
  unfold require_auth, uploads_list. cbn [new_context conn req]. rewrite Ha. cbn [negb new_context conn reply ctx_status ctx_body ctx_type ctx_headers respond].
  by rewrite Hd.
Qed.
End Router.

Lemma valid_session_id_plain id :
  valid_session_id id = true -> id <> [] /\ (length id <= 64)%nat /\ forallb lower_hex id = true.
Proof.
  unfold valid_session_id. case_bool_decide; [done|]. cbn [orb].
  destruct (Nat.ltb_spec 64 (length id)); [done|]. intros. repeat split; [done|lia|done].
Qed.

(** ** A recording connection *)

(** What a connection was asked to do, for the witnesses. *)
Inductive sent :=
  | SentSimple (status : Z) (body : bytes)
  | SentDownload (session_id dir : bytes).

#[local] Instance recording : ConnOps (list sent) := {
  authorized _ r := bool_decide (header r (str "authorization") = Some (str "Bearer t"));
  load_sessions _ := [];
  session_dir _ id := str "/srv/" ++ id;
  is_directory _ d := bool_decide (d = str "/srv/0a1b");
  send_http_simple c status _ _ body _ := c ++ [SentSimple status body];
  begin_download_response c id dir := c ++ [SentDownload id dir];
}.

Definition get_request (path : bytes) (headers : list (bytes * bytes)) : HttpRequest :=
  {| rq_method := GET; rq_target := path; rq_path := path; rq_version := str "HTTP/1.1"; rq_headers := headers |}.

Lemma dispatch_first_match_witness :
  dispatch with_builtins
    [] (get_request (str "/") []) = [SentSimple 200 root_body].
Proof.
  etransitivity.
  - apply (proj1 (dispatch_first_match 
      with_builtins [] (get_request (str "/") []))
      [] root_route [list_route; download_route]); [done| |done].
    intros b Hb. by apply elem_of_nil in Hb.
  - done.
Defined.

Lemma uploads_need_token_witness :
  dispatch with_builtins
    [] (get_request (str "/uploads/0a1b") []) = [SentSimple 401 unauthorized].
Proof.
  etransitivity; [apply (uploads_need_token
    with_builtins [] (get_request (str "/uploads/0a1b") []));
    [done|intros r Hr; by apply elem_of_nil in Hr|done|right; by exists (str "0a1b")|done]|reflexivity].
Defined.

Lemma download_exactly_when_witness :
  dispatch with_builtins
    [] (get_request (str "/uploads/0a1b") [(str "authorization", str "Bearer t")]) =
  [SentDownload (str "0a1b") (str "/srv/0a1b")].
Proof.
  etransitivity; [apply (download_exactly_when
    with_builtins [] (get_request (str "/uploads/0a1b") [(str "authorization", str "Bearer t")])
    (str "0a1b")); [done|intros r Hr; by apply elem_of_nil in Hr|done|done]|reflexivity].
Defined.
