(* ===== verification/Examples.v ===== *)
(** * The two example programs (src/server/example.cxx, src/client/example.cxx)

    What they show of the library in use: counters fed by the events of all
    connections, a filter that asks for each content once, and routes of their
    own. What they print to the terminal is left out. *)

From S2P Require Import Prelude Text Protocol FileSink Codec Upload Reports StorageReader Worker Http Db Router.

(** ** The server's counters *)

Record Stats := {
  clients : Z;
  uploads : Z;
  failed : Z;
  skipped : Z;
  s_bytes : Z;
  s_compressedBytes : Z;
}.

Definition zero_stats : Stats :=
  {| clients := 0; uploads := 0; failed := 0; skipped := 0; s_bytes := 0; s_compressedBytes := 0 |}.

Definition on_connected (st : Stats) : Stats :=
  {| clients := wrap 64 (clients st + 1); uploads := uploads st; failed := failed st; skipped := skipped st;
     s_bytes := s_bytes st; s_compressedBytes := s_compressedBytes st |}.

Definition on_finished (st : Stats) (wire n : Z) (ok : bool) : Stats :=
  {| clients := clients st; uploads := wrap 64 (uploads st + 1);
     failed := if ok then failed st else wrap 64 (failed st + 1); skipped := skipped st;
     s_bytes := wrap 64 (s_bytes st + n); s_compressedBytes := wrap 64 (s_compressedBytes st + wire) |}.

Definition on_skipped (st : Stats) : Stats :=
  {| clients := clients st; uploads := uploads st; failed := failed st; skipped := wrap 64 (skipped st + 1);
     s_bytes := s_bytes st; s_compressedBytes := s_compressedBytes st |}.

(** What the subscriptions of [main] make of an event of an upload. *)
Definition on_event (st : Stats) (e : event) : Stats :=
  match e with
  | UploadStarted _ _ _ => st
  | UploadFinished _ _ _ wire n ok _ => on_finished st wire n ok
  | UploadSkipped _ _ _ _ => on_skipped st
  end.

Definition json_field (name : bytes) (value : Z) : bytes := [x22] ++ name ++ [x22; x3a] ++ to_string value.

Definition stats_body (st : Stats) : bytes :=
  str "{" ++ json_field (str "clients") (clients st) ++
  str "," ++ json_field (str "uploads") (uploads st) ++
  str "," ++ json_field (str "failed") (failed st) ++
  str "," ++ json_field (str "skipped") (skipped st) ++
  str "," ++ json_field (str "bytes") (s_bytes st) ++
  str "," ++ json_field (str "compressedBytes") (s_compressedBytes st) ++ str "}" ++ [LF].

(** The events of several threads: the counters do not depend on the order. *)
Lemma on_event_comm st e1 e2 : on_event (on_event st e1) e2 = on_event (on_event st e2) e1.
Proof.
  destruct e1 as [|? ? ? ? ? ok1 ?|], e2 as [|? ? ? ? ? ok2 ?|]; try done; unfold on_event, on_finished, on_skipped; cbn [clients uploads failed skipped s_bytes s_compressedBytes];
    f_equal; try (destruct ok1, ok2; try done); rewrite !wrap_add_l; f_equal; lia.
Qed.

Lemma stats_any_order es es' : es ≡ₚ es' -> forall st, fold_left on_event es st = fold_left on_event es' st.
Proof.
  induction 1 as [|e es es' _ IH|e1 e2 es|es1 es2 es3 _ IH1 _ IH2]; intros st; cbn [fold_left]; [done|apply IH| |].
  - by rewrite on_event_comm.
  - by rewrite IH1.
Qed.

(** What is not failed is what the connection counted. *)
Lemma stats_tally n : forall es st units total units' total', (length es <= n)%nat ->
  tally es units total = Some (units', total') -> let st' := fold_left on_event es st in
  wrap 64 (uploads st' - failed st' + units) = wrap 64 (uploads st - failed st + units').
Proof.
  induction n as [|n IH]; intros es st units total units' total' Hn H;
    (destruct es as [|e es]; [by injection H as -> ->|]); [cbn in Hn; lia|]. cbn [length] in Hn.
  destruct e as [path type off|path type off wire m ok reason|path type off m]; [|done|].
  - destruct es as [|[|path' type' off' wire m ok reason|] es]; [done|done| |done]. cbn [tally length] in H, Hn.
    destruct (bool_decide _); [|done]. cbn [fold_left on_event]. destruct ok.
    + apply (IH es (on_finished st wire m true)) in H; [|lia]. cbn [on_finished uploads failed] in H. unfold wrap in *. zdm.
    + destruct es; [|done]. injection H as -> ->. cbn [fold_left on_finished uploads failed]. unfold wrap. zdm.
  - cbn [tally] in H. apply (IH es (on_skipped st)) in H; [|lia]. exact H.
Qed.

(** The counters and the connections agree: whatever the clients of any number of
    connections send and however their threads' events interleave, the uploads
    that did not fail are the units the connections counted, modulo 2^64. *)
Theorem example_stats_agree {W D : Type} {Ops : FsOps W} {Dec : Decompressor D}
    (mode : Z) (checks : bool) (filter_ : ProbeInfo -> bool) (ss : list (Consumer W D)) (es : list event) :
  Forall (fun s => units_done_ s = 0 /\ emitted s = []) ss ->
  let served := map (handle_upload mode checks filter_) ss in
  es ≡ₚ concat (map emitted served) ->
  let st := fold_left on_event es zero_stats in
  wrap 64 (uploads st - failed st) = wrap 64 (foldr Z.add 0 (map units_done_ served)).
Proof.
  cbv zeta. intros Hss Hes. rewrite (stats_any_order _ _ Hes). clear es Hes.
  enough (H : forall st, let st' := fold_left on_event (concat (map emitted (map (handle_upload mode checks filter_) ss))) st in
    wrap 64 (uploads st' - failed st') =
    wrap 64 (uploads st - failed st + foldr Z.add 0 (map units_done_ (map (handle_upload mode checks filter_) ss))))
    by exact (H zero_stats).
  induction Hss as [|s ss [Hu He] _ IH]; intros st; cbn [map concat foldr fold_left]; [by rewrite Z.add_0_r|].
  rewrite fold_left_app, IH. destruct (upload_loop_reports mode checks filter_ (S (length (input s))) s)
    as (es & _ & E & _ & Ht & _). fold (handle_upload mode checks filter_ s) in E, Ht. rewrite He in E. rewrite Hu in Ht.
  rewrite E. cbn [app]. apply (stats_tally (length es) _ st) in Ht; [|done]. cbv zeta in Ht. rewrite Z.add_0_r in Ht.
  rewrite <- wrap_add_l, Ht, wrap_add_l. f_equal. lia.
Qed.

(** ** The server's filter *)

(** The set of [Seen]: path, offset and hash with a NUL between them. *)
Definition seen_key (p : ProbeInfo) : bytes :=
  probe_path p ++ [x00] ++ to_string (probe_offset p) ++ [x00] ++ probe_hash p.

(** [Seen::add]: the set it leaves, and whether the key is new. *)
Definition seen_add (units : gset bytes) (p : ProbeInfo) : gset bytes * bool :=
  ({[seen_key p]} ∪ units, bool_decide (seen_key p ∉ units)).

(** What a sequence of probes is answered. *)
Fixpoint verdicts (units : gset bytes) (ps : list ProbeInfo) : list bool :=
  match ps with
  | [] => []
  | p :: ps => let '(units, fresh) := seen_add units p in fresh :: verdicts units ps
  end.

Definition content (p : ProbeInfo) : bytes * Z * bytes := (probe_path p, probe_offset p, probe_hash p).

Lemma to_string_inj a b : 0 <= a -> 0 <= b -> to_string a = to_string b -> a = b.
Proof.
  intros Ha Hb E. pose proof (to_string_atoi a [] Ha ltac:(done)) as E1.
  pose proof (to_string_atoi b [] Hb ltac:(done)) as E2. rewrite E in E1. congruence.
Qed.

Lemma last_separator (c : byte) a b r t : c ∉ r -> c ∉ t -> a ++ c :: r = b ++ c :: t -> a = b /\ r = t.
Proof.
  intros Hr Ht E. pose proof (rfind_char_app c a r Hr) as E1. rewrite E, rfind_char_app in E1 by done.
  apply app_inj_1 in E as [-> E]; [|congruence]. by injection E.
Qed.

Lemma seen_key_inj p q :
  0 <= probe_offset p -> 0 <= probe_offset q -> length (probe_hash p) = length (probe_hash q) ->
  seen_key p = seen_key q <-> content p = content q.
Proof.
  intros Hp Hq Hl. split; [|intros [= E1 E2 E3]; unfold seen_key; by rewrite E1, E2, E3].
  unfold seen_key, content. rewrite !app_assoc. intros E. apply app_inj_2 in E as [E ->]; [|done].
  apply app_inj_2 in E as [E _]; [|done]. rewrite <- !app_assoc in E.
  apply last_separator in E as [-> E]; [|by apply to_string_avoids..]. by apply to_string_inj in E as ->.
Qed.

Lemma verdicts_spec ps : forall units i p, ps !! i = Some p ->
  verdicts units ps !! i = Some (bool_decide (seen_key p ∉ units /\ seen_key p ∉ map seen_key (take i ps))).
Proof.
  induction ps as [|q ps IH]; intros units i p Hi; [done|]. cbn [verdicts]. destruct i as [|i].
  - injection Hi as ->. cbn. f_equal. apply bool_decide_ext. split; [intros H; split; [done|apply not_elem_of_nil]|by intros []].
  - cbn in Hi |- *. rewrite (IH _ _ _ Hi). f_equal. apply bool_decide_ext. rewrite not_elem_of_cons. set_solver.
Qed.

(** The filter asks for each content once: with hashes of one length, as under
    [ProbeHash::blake3], the n-th probe is accepted exactly when no earlier one
    had its path, offset and hash, whatever bytes the paths hold. *)
Theorem seen_asks_once (ps : list ProbeInfo) (k i : nat) (p : ProbeInfo) :
  Forall (fun p => 0 <= probe_offset p /\ length (probe_hash p) = k) ps -> ps !! i = Some p ->
  verdicts ∅ ps !! i = Some (bool_decide (content p ∉ map content (take i ps))).
Proof.
  intros Hps Hi. rewrite (verdicts_spec ps ∅ i p Hi). f_equal. apply bool_decide_ext.
  assert (Hin : forall q, q ∈ take i ps -> seen_key p = seen_key q <-> content p = content q).
  { intros q (j & Hj & _)%elem_of_take. pose proof (Forall_lookup_1 _ _ _ _ Hps Hi) as [H1 H2].
    pose proof (Forall_lookup_1 _ _ _ _ Hps Hj) as [H3 H4]. apply seen_key_inj; congruence. }
  split.
  - intros [_ H] (q & E & Hq)%list_elem_of_fmap. apply H. apply list_elem_of_fmap. exists q. split; [by apply Hin|done].
  - intros H. split; [apply not_elem_of_empty|]. intros (q & E & Hq)%list_elem_of_fmap. apply H.
    apply list_elem_of_fmap. exists q. split; [by apply Hin|done].
Qed.

(** ** The server's routes *)

Section Routes.
Context {C : Type} {Ops : ConnOps C}.

(** [server.stop()], and the counters at the time of the request. *)
Variables (server_stop : C -> C) (stats : Stats).

Definition with_body (ctx : HttpContext (C := C)) (body : bytes) : HttpContext :=
  reply ctx (ctx_status ctx) (ctx_type ctx) body.

Definition health_handler : HttpHandler (C := C) := fun ctx => with_body ctx (str "ok" ++ [LF]).
Definition stats_handler : HttpHandler (C := C) := fun ctx =>
  reply ctx (ctx_status ctx) (str "application/json") (stats_body stats).
Definition hello_handler : HttpHandler (C := C) := fun ctx => with_body ctx (str "hello, " ++ param ctx ++ [LF]).
Definition stop_handler : HttpHandler (C := C) := fun ctx =>
  let ctx := with_body ctx (str "stopping" ++ [LF]) in
  {| req := req ctx; param := param ctx; ctx_status := ctx_status ctx; ctx_type := ctx_type ctx; ctx_body := ctx_body ctx;
     ctx_headers := ctx_headers ctx; respond := respond ctx; conn := server_stop (conn ctx) |}.

Definition example_router (builtin : Router (C := C)) : Router :=
  let router := add builtin GET Exact (str "/health") health_handler [] in
  let router := add router GET Exact (str "/stats") stats_handler [] in
  let router := add router GET Prefix (str "/hello/") hello_handler [] in
  add router (str "POST") Exact (str "/stop") stop_handler [require_auth].
End Routes.

Definition stop_route {C} {Ops : ConnOps C} (server_stop : C -> C) : Route :=
  {| rt_method := str "POST"; rt_match := Exact; rt_path := str "/stop"; rt_middleware := [require_auth];
     rt_handler := stop_handler server_stop |}.

(** Only an authorised POST to /stop stops the server, whatever the handlers of
    the library's own endpoints do. *)
Theorem example_stop {C : Type} {Ops : ConnOps C} {Json : JsonLib}
    (stop1 stop2 : C -> C) (st : Stats) (c : C) (request : HttpRequest) :
  let router stop := example_router stop st with_builtins in
  if bool_decide (rq_method request = str "POST" /\ rq_path request = str "/stop") && authorized c request
  then dispatch (router stop1) c request =
    send_http_simple (stop1 c) 200 (reason_phrase 200) text_plain (str "stopping" ++ [LF]) []
  else dispatch (router stop1) c request = dispatch (router stop2) c request.
Proof.
  cbv zeta. destruct (bool_decide _) eqn:E; [apply bool_decide_eq_true_1 in E as [Hm Hp]|apply bool_decide_eq_false_1 in E].
  - assert (H : forall stop, dispatch (example_router stop st with_builtins) c request =
      run_route c request (stop_route stop)).
    { intros stop. rewrite dispatch_spec. cbn [example_router add routes builtins with_builtins add_builtin_routes app List.find].
      unfold answers, path_matches. cbn [rt_match rt_path rt_method]. rewrite Hp, Hm. reflexivity. }
    rewrite !H. unfold run_route. cbn [stop_route rt_match rt_path rt_middleware rt_handler next]. unfold require_auth.
    cbn [conn req new_context andb]. by destruct (authorized c request).
  - cbn [andb]. rewrite !dispatch_spec. cbn [example_router add routes builtins with_builtins add_builtin_routes app List.find].
    assert (H : forall stop, answers request (stop_route stop) = false).
    { intros stop. unfold answers, path_matches. cbn [stop_route rt_match rt_path rt_method]. apply andb_false_iff.
      destruct (decide (rq_path request = str "/stop")); [right|left]; apply bool_decide_eq_false_2; tauto. }
    unfold stop_route in H. rewrite !H. reflexivity.
Qed.

(** ** The client's counters *)

Record Progress := {
  pr_units : Z;
  pr_failed : Z;
  pr_skipped : Z;
  pr_bytes : Z;
  pr_compressedBytes : Z;
}.

Definition no_progress : Progress :=
  {| pr_units := 0; pr_failed := 0; pr_skipped := 0; pr_bytes := 0; pr_compressedBytes := 0 |}.

Definition on_client_event (pr : Progress) (e : client_event) : Progress :=
  match e with
  | CUploadStarted _ => pr
  | CUploadFinished t compressedBytes ok =>
      {| pr_units := wrap 64 (pr_units pr + 1); pr_failed := if ok then pr_failed pr else wrap 64 (pr_failed pr + 1);
         pr_skipped := pr_skipped pr; pr_bytes := wrap 64 (pr_bytes pr + t_length t);
         pr_compressedBytes := wrap 64 (pr_compressedBytes pr + compressedBytes) |}
  | CUploadSkipped _ =>
      {| pr_units := pr_units pr; pr_failed := pr_failed pr; pr_skipped := wrap 64 (pr_skipped pr + 1);
         pr_bytes := pr_bytes pr; pr_compressedBytes := pr_compressedBytes pr |}
  end.

Definition megabytes (n : Z) : Z := n / (1024 * 1024).

Definition exit_code (pr : Progress) : Z := if pr_failed pr =? 0 then 0 else 1.

Definition is_failure (e : client_event) : bool := match e with CUploadFinished _ _ ok => negb ok | _ => false end.

Lemma failures_counted es : forall pr,
  wrap 64 (pr_failed (fold_left on_client_event es pr)) =
  wrap 64 (pr_failed pr + Z.of_nat (length (filter (fun e => is_failure e = true) es))).
Proof.
  induction es as [|e es IH]; intros pr; cbn [fold_left]; [by rewrite Z.add_0_r|]. rewrite IH, filter_cons.
  destruct e as [t|t|t n []]; cbn [is_failure negb on_client_event pr_failed]; try (rewrite decide_False by done; done).
  rewrite decide_True by done. cbn [length]. rewrite wrap_add_l. f_equal. lia.
Qed.

Lemma failed_word es : forall pr, is_word 64 (pr_failed pr) -> is_word 64 (pr_failed (fold_left on_client_event es pr)).
Proof.
  induction es as [|e es IH]; intros pr H; [done|]. cbn [fold_left]. apply IH. destruct e as [t|t|t n []]; try done.
  apply wrap_range. lia.
Qed.

Lemma no_failures es : filter (fun e => is_failure e = true) es = [] <-> Forall (fun e => is_failure e = false) es.
Proof.
  induction es as [|e es IH]; [done|]. rewrite filter_cons, Forall_cons.
  destruct (is_failure e).
  - rewrite decide_True by done. split; [done|by intros []].
  - rewrite decide_False by done. tauto.
Qed.

(** The client's exit code says whether a unit failed; it says nothing of what
    never became a unit. *)
Theorem exit_code_iff (es : list client_event) :
  Z.of_nat (length es) < 2 ^ 64 ->
  exit_code (fold_left on_client_event es no_progress) = 0 <-> Forall (fun e => is_failure e = false) es.
Proof.
  intros Hn. rewrite <- no_failures. pose proof (failures_counted es no_progress) as H.
  rewrite wrap_small in H by (by apply failed_word). unfold exit_code. rewrite H. cbn [no_progress pr_failed].
  pose proof (length_filter (fun e => is_failure e = true) es) as Hl. rewrite wrap_small by (unfold is_word; lia).
  rewrite <- length_zero_iff_nil. destruct (Z.eqb_spec (0 + Z.of_nat (length (filter (fun e => is_failure e = true) es))) 0); [|lia].
  split; [lia|done].
Qed.
