(* ===== verification/Archive.v ===== *)
(** * Archive: a directory as a compressed tar stream ([server/archive.cxx])

    [refill_raw] is the loop that stages tar bytes, one step per iteration;
    [next] feeds them to the compressor. A file is read through [FileReader],
    the compressor is [ArchiveLib]; the tar format is stated by a reader,
    [untar]. *)

From S2P Require Import Prelude Text Sha256.

Definition kRawTarget : nat := Z.to_nat (2 ^ 18).
Definition kReadSize : nat := Z.to_nat 65536.

(** ** Headers *)

(** [n] octal digits of [v], the last one first written. *)
Fixpoint octal_digits (n : nat) (v : Z) : bytes :=
  match n with
  | O => []
  | S n => octal_digits n (Z.shiftr v 3) ++ [z2b (48 + Z.land v 7)]
  end.

Definition set_octal (h : bytes) (dst n : nat) (v : Z) : bytes :=
  memcpy h dst (octal_digits (n - 1) v ++ [x00]).

Definition slash : byte := x2f.

(** The last ['/'] with a suffix of at most 100 and a prefix of at most 155
    bytes; [p] is the position of the head of [s] in a name of [size] bytes. *)
Fixpoint split_loop (s : bytes) (p size : nat) (split : option nat) : option nat :=
  match s with
  | [] => split
  | c :: s =>
      let split :=
        if bool_decide (c = slash) && (size - (p + 1) <=? 100)%nat && (p <=? 155)%nat
        then Some p else split in
      split_loop s (S p) size split
  end.

(** [field_name] and [field_prefix]. *)
Definition split_name (name : bytes) : bytes * bytes :=
  if (100 <? length name)%nat then
    match split_loop name 0 (length name) None with
    | Some split => (drop (split + 1) name, take split name)
    | None => (drop (length name - 100) name, [])
    end
  else (name, []).

Definition byte_sum (h : bytes) : Z := fold_left (fun sum b => sum + b2z b) h 0.

(** The sum is below [8^6], so ["%06o"] prints six digits. *)
Definition header_fields (name : bytes) (size : Z) : bytes :=
  let h := repeat x00 512 in
  let '(field_name, field_prefix) := split_name name in
  let h := memcpy h 0 (take 100 field_name) in
  let h := memcpy h 345 (take 155 field_prefix) in
  let h := set_octal h 100 8 420 in
  let h := set_octal h 108 8 0 in
  let h := set_octal h 116 8 0 in
  let h := set_octal h 124 12 size in
  let h := set_octal h 136 12 0 in
  let h := memcpy h 156 [x30] in
  let h := memcpy h 257 (str "ustar") in
  let h := memcpy h 263 [x30] in
  let h := memcpy h 264 [x30] in
  memcpy h 148 (repeat x20 8).

Definition header (name : bytes) (size : Z) : bytes :=
  let h := header_fields name size in
  let sum := byte_sum h in
  let h := memcpy h 148 (octal_digits 6 (Z.land sum 0x1FFFFF)) in
  let h := memcpy h 154 [x00] in
  memcpy h 155 [x20].

(** ** The stream *)

Record Entry := { e_path : bytes; e_name : bytes; e_size : nat }.

(** [std::ifstream]: [fopen] fails on an unreadable file, [fread f n] gives at
    most [n] bytes, fewer at the end of the file. *)
Class FileReader (F : Type) := {
  fopen : bytes -> option F;
  fread : F -> nat -> F * bytes;
}.

(** [ZSTD_compressStream2] with [ZSTD_e_end] or [ZSTD_e_continue]: an error, or
    the value returned, the input read and the output. [enc_calls e n] bounds
    the calls that [n] bytes of input take. *)
Class ArchiveLib (E : Type) := {
  compress2 : E -> bytes -> bool -> E * option (nat * nat * bytes);
  enc_calls : E -> nat -> nat;
}.

Section Streamer.
Context {F E : Type} {Reader : FileReader F} {Lib : ArchiveLib E}.

Record ArchiveStreamer := {
  entries_ : list Entry;
  idx_ : nat;
  header_pending_ : bool;
  cur_ : option F;
  cur_remaining_ : nat;
  pad_remaining_ : nat;
  trailer_emitted_ : bool;
  raw_ : bytes;
  raw_pos_ : nat;
  input_done_ : bool;
  finished_ : bool;
  ok_ : bool;
  zcs_ : E;
}.

Definition new_streamer (entries : list Entry) (zcs : E) : ArchiveStreamer :=
  {| entries_ := entries; idx_ := 0; header_pending_ := true; cur_ := None; cur_remaining_ := 0;
     pad_remaining_ := 0; trailer_emitted_ := false; raw_ := []; raw_pos_ := 0;
     input_done_ := false; finished_ := false; ok_ := true; zcs_ := zcs |}.

(** The fields [refill_raw] changes, the others kept. *)
Definition staged (s : ArchiveStreamer) (idx : nat) (pending : bool) (cur : option F)
    (remaining pad : nat) (more : bytes) : ArchiveStreamer :=
  {| entries_ := entries_ s; idx_ := idx; header_pending_ := pending; cur_ := cur;
     cur_remaining_ := remaining; pad_remaining_ := pad; trailer_emitted_ := trailer_emitted_ s;
     raw_ := raw_ s ++ more; raw_pos_ := raw_pos_ s; input_done_ := input_done_ s;
     finished_ := finished_ s; ok_ := ok_ s; zcs_ := zcs_ s |}.

Definition end_input (s : ArchiveStreamer) : ArchiveStreamer :=
  {| entries_ := entries_ s; idx_ := idx_ s; header_pending_ := header_pending_ s; cur_ := cur_ s;
     cur_remaining_ := cur_remaining_ s; pad_remaining_ := pad_remaining_ s; trailer_emitted_ := true;
     raw_ := if trailer_emitted_ s then raw_ s else raw_ s ++ repeat x00 1024;
     raw_pos_ := raw_pos_ s; input_done_ := true;
     finished_ := finished_ s; ok_ := ok_ s; zcs_ := zcs_ s |}.

Definition padding (size : nat) : nat := (512 - size mod 512) mod 512.

(** One iteration of the loop of [refill_raw]. *)
Definition refill_step (s : ArchiveStreamer) : ArchiveStreamer :=
  match entries_ s !! idx_ s with
  | None => end_input s
  | Some entry =>
      if header_pending_ s then
        match fopen (e_path entry) with
        | None => staged s (S (idx_ s)) true None (cur_remaining_ s) (pad_remaining_ s) []
        | Some f =>
            staged s (idx_ s) false (Some f) (e_size entry) (padding (e_size entry))
              (header (e_name entry) (Z.of_nat (e_size entry)))
        end
      else if (0 <? cur_remaining_ s)%nat then
        match cur_ s with
        | None => staged s (idx_ s) false None 0 (pad_remaining_ s) (repeat x00 (cur_remaining_ s))
        | Some f =>
            let want := Nat.min (cur_remaining_ s) kReadSize in
            let '(f, got) := fread f want in
            let remaining := (cur_remaining_ s - length got)%nat in
            if (length got <? want)%nat
            then staged s (idx_ s) false (Some f) 0 (pad_remaining_ s) (got ++ repeat x00 remaining)
            else staged s (idx_ s) false (Some f) remaining (pad_remaining_ s) got
        end
      else if (0 <? pad_remaining_ s)%nat then
        staged s (idx_ s) false (cur_ s) (cur_remaining_ s) 0 (repeat x00 (pad_remaining_ s))
      else staged s (S (idx_ s)) true None (cur_remaining_ s) (pad_remaining_ s) []
  end.

(** Bounds the iterations left: every one of them lowers it. *)
Definition entry_steps (e : Entry) : nat := e_size e + 3.
Definition steps_left (s : ArchiveStreamer) : nat :=
  (if input_done_ s then 0
   else S (if header_pending_ s then sum_list_with entry_steps (drop (idx_ s) (entries_ s))
           else cur_remaining_ s + Nat.min 1 (pad_remaining_ s) + 1 +
                sum_list_with entry_steps (drop (S (idx_ s)) (entries_ s))))%nat.

Definition wants_raw (s : ArchiveStreamer) : bool :=
  (length (raw_ s) - raw_pos_ s <? kRawTarget)%nat && negb (input_done_ s).

Fixpoint refill_loop (fuel : nat) (s : ArchiveStreamer) : ArchiveStreamer :=
  match fuel with
  | O => s
  | S fuel => if wants_raw s then refill_loop fuel (refill_step s) else s
  end.

Definition refill_raw (s : ArchiveStreamer) : ArchiveStreamer := refill_loop (steps_left s) s.

(** The inner loop of [next] with the input not read yet: the context, the
    output, and the input left with whether the stream ended; [None] is an
    error. *)
Fixpoint compress_loop (fuel : nat) (e : E) (input : bytes) (ending : bool) (out : bytes) :
  E * bytes * option (bytes * bool) :=
  match fuel with
  | O => (e, out, None)
  | S fuel =>
      match compress2 e input ending with
      | (e, None) => (e, out, None)
      | (e, Some (rc, n, o)) =>
          let out := out ++ o in
          let rest := drop n input in
          if ending then
            if (rc =? 0)%nat then (e, out, Some (rest, true))
            else compress_loop fuel e rest ending out
          else if bool_decide (rest = []) then (e, out, Some (rest, false))
          else compress_loop fuel e rest ending out
      end
  end.

Definition compressed (s : ArchiveStreamer) (e : E) (rest : bytes) (finished : bool) : ArchiveStreamer :=
  let raw_pos := (length (raw_ s) - length rest)%nat in
  {| entries_ := entries_ s; idx_ := idx_ s; header_pending_ := header_pending_ s; cur_ := cur_ s;
     cur_remaining_ := cur_remaining_ s; pad_remaining_ := pad_remaining_ s;
     trailer_emitted_ := trailer_emitted_ s;
     raw_ := if (raw_pos =? length (raw_ s))%nat then [] else raw_ s;
     raw_pos_ := if (raw_pos =? length (raw_ s))%nat then 0 else raw_pos;
     input_done_ := input_done_ s; finished_ := finished_ s || finished; ok_ := ok_ s; zcs_ := e |}.

Definition failed (s : ArchiveStreamer) (e : E) : ArchiveStreamer :=
  {| entries_ := entries_ s; idx_ := idx_ s; header_pending_ := header_pending_ s; cur_ := cur_ s;
     cur_remaining_ := cur_remaining_ s; pad_remaining_ := pad_remaining_ s;
     trailer_emitted_ := trailer_emitted_ s; raw_ := raw_ s; raw_pos_ := raw_pos_ s;
     input_done_ := input_done_ s; finished_ := finished_ s; ok_ := false; zcs_ := e |}.

Fixpoint next_loop (fuel : nat) (s : ArchiveStreamer) (out : bytes) : ArchiveStreamer * bytes * bool :=
  if bool_decide (out = []) && negb (finished_ s) then
    match fuel with
    | O => (s, out, negb (finished_ s))
    | S fuel =>
        let s := refill_raw s in
        let input := drop (raw_pos_ s) (raw_ s) in
        let ending := input_done_ s && (length input =? 0)%nat in
        match compress_loop (enc_calls (zcs_ s) (length input)) (zcs_ s) input ending out with
        | (e, out, None) => (failed s e, out, false)
        | (e, out, Some (rest, finished)) => next_loop fuel (compressed s e rest finished) out
        end
    end
  else (s, out, negb (finished_ s)).

(** The chunk and whether more remain. *)
Definition next (s : ArchiveStreamer) : ArchiveStreamer * bytes * bool :=
  if negb (ok_ s) || finished_ s then (s, [], false)
  else next_loop (S (S (steps_left s))) s [].

(** [Connection::pump_download] until it tears the connection down: the chunks
    sent. *)
Fixpoint pump (fuel : nat) (s : ArchiveStreamer) : option (list bytes * ArchiveStreamer) :=
  match fuel with
  | O => None
  | S fuel =>
      let '(s, chunk, more) := next s in
      if negb (ok_ s) then Some ([], s)
      else if bool_decide (chunk = []) then Some ([], s)
      else if negb more then Some ([chunk], s)
      else match pump fuel s with
           | Some (chunks, s) => Some (chunk :: chunks, s)
           | None => None
           end
  end.
End Streamer.

(** ** Reading headers *)

Definition field (h : bytes) (off n : nat) : bytes := take n (drop off h).

Definition octal_value (s : bytes) : Z := fold_left (fun v b => v * 8 + (b2z b - 48)) s 0.

Fixpoint until_nul (s : bytes) : bytes :=
  match s with
  | [] => []
  | c :: s => if bool_decide (c = x00) then [] else c :: until_nul s
  end.

(** What a tar reader takes from a header block: the checksum is the sum with
    blanks in its own place. *)
Definition read_header (h : bytes) : option (bytes * Z) :=
  if bool_decide (field h 257 5 = str "ustar") &&
     (byte_sum (memcpy h 148 (repeat x20 8)) =? octal_value (field h 148 6))
  then
    let name := until_nul (field h 0 100) in
    let prefix := until_nul (field h 345 155) in
    Some (if bool_decide (prefix = []) then name else prefix ++ slash :: name,
          octal_value (field h 124 11))
  else None.

Lemma length_octal_digits n v : length (octal_digits n v) = n.
Proof.
  revert v. induction n as [|n IH]; intros v; [done|].
  cbn [octal_digits]. rewrite length_app, IH. cbn. lia.
Qed.

Lemma octal_digit v : b2z (z2b (48 + Z.land v 7)) - 48 = v mod 8.
Proof.
  change 7 with (Z.ones 3). rewrite Z.land_ones by lia. change (2 ^ 3) with 8.
  pose proof (Z.mod_pos_bound v 8 eq_refl). rewrite b2z_z2b_small by lia. lia.
Qed.

Lemma octal_value_digits n v : 0 <= v -> octal_value (octal_digits n v) = v mod 8 ^ Z.of_nat n.
Proof.
  revert v. induction n as [|n IH]; intros v Hv; [by rewrite Z.mod_1_r|].
  cbn [octal_digits]. unfold octal_value in *. rewrite fold_left_app. cbn [fold_left].
  rewrite IH, octal_digit by (by apply Z.shiftr_nonneg). rewrite Z.shiftr_div_pow2 by lia.
  change (2 ^ 3) with 8. rewrite Nat2Z.inj_succ, Z.pow_succ_r by lia.
  rewrite (Z.rem_mul_r v 8 (8 ^ Z.of_nat n)) by lia. lia.
Qed.

(** ** Fields of a block after a copy into it *)

Lemma field_memcpy_at h d x n :
  (length x <= n)%nat -> (d + length x <= length h)%nat ->
  field (memcpy h d x) d n = x ++ field h (d + length x) (n - length x).
Proof.
  intros Hn Hd. unfold field, memcpy.
  rewrite drop_app_ge, length_take, Nat.min_l by (rewrite ?length_take; lia).
  rewrite Nat.sub_diag, drop_0, take_app_ge by done. done.
Qed.

Lemma field_memcpy_off h d x off n :
  (off + n <= d \/ d + length x <= off)%nat -> (d + length x <= length h)%nat ->
  field (memcpy h d x) off n = field h off n.
Proof.
  intros Ho Hd. unfold field. apply list_eq. intros i.
  destruct (decide (i < n)%nat); [|by rewrite !lookup_take_ge by lia].
  rewrite !lookup_take_lt, !lookup_drop by done. unfold memcpy. destruct Ho.
  - rewrite lookup_app_l by (rewrite length_take; lia). by rewrite lookup_take_lt by lia.
  - rewrite lookup_app_r by (rewrite length_take; lia). rewrite length_take, Nat.min_l by lia.
    rewrite lookup_app_r by lia. rewrite lookup_drop. f_equal. lia.
Qed.

Lemma memcpy_inside h d x d' y :
  (d' <= d)%nat -> (d + length x <= d' + length y)%nat -> (d' + length y <= length h)%nat ->
  memcpy (memcpy h d x) d' y = memcpy h d' y.
Proof.
  intros H1 H2 H3. unfold memcpy. f_equal; [|f_equal].
  - rewrite take_app_le by (rewrite length_take; lia). rewrite take_take. f_equal. lia.
  - rewrite app_assoc, drop_app_ge by (rewrite length_app, length_take; lia).
    rewrite drop_drop, length_app, length_take. f_equal. lia.
Qed.

(** ** The header of a member *)

(** A name the ustar format can hold. *)
Definition storable (name : bytes) : Prop :=
  x00 ∉ name /\ head name <> Some slash /\
  ((length name <= 100)%nat \/ split_loop name 0 (length name) None <> None).

Lemma split_loop_spec name s p q split :
  drop p name = s -> (p <= length name)%nat ->
  split_loop s p (length name) split = Some q ->
  split = Some q \/
  (name !! q = Some slash /\ (length name - (q + 1) <= 100)%nat /\ (q <= 155)%nat).
Proof.
  revert p split. induction s as [|c s IH]; intros p split Hs Hp; cbn [split_loop]; [by left|].
  intros H. assert (Hc : name !! p = Some c).
  { rewrite <- (Nat.add_0_r p), <- lookup_drop, Hs. done. }
  assert (drop (S p) name = s) as Hs'.
  { replace (S p) with (p + 1)%nat by lia. by rewrite <- drop_drop, Hs. }
  apply IH in H as [H|H]; [|by right|done|apply lookup_lt_Some in Hc; lia].
  destruct (bool_decide (c = slash) && _ && _) eqn:E; [|by left].
  injection H as <-. bool_to_prop. subst. right. done.
Qed.

Lemma split_name_spec name fn fp :
  storable name -> split_name name = (fn, fp) ->
  x00 ∉ fn /\ x00 ∉ fp /\ (length fn <= 100)%nat /\ (length fp <= 155)%nat /\
  (if bool_decide (fp = []) then fn else fp ++ slash :: fn) = name.
Proof.
  unfold storable, split_name. intros (Hz & Hh & Hs).
  destruct (Nat.ltb_spec 100 (length name)) as [Hl|Hl].
  - destruct Hs as [Hs|Hs]; [lia|].
    destruct (split_loop name 0 (length name) None) as [q|] eqn:E; [|done].
    apply (split_loop_spec name) in E as [?|(Hq & Hf & Hp)]; [done| |done|lia].
    intros [= <- <-]. assert (Hname : take q name ++ slash :: drop (q + 1) name = name).
    { rewrite Nat.add_1_r. by apply take_drop_middle. }
    split; [|split; [|split; [|split]]].
    + intros ?. apply Hz. rewrite <- Hname. by apply elem_of_app; right; right.
    + intros ?. apply Hz. rewrite <- Hname. apply elem_of_app. by left.
    + rewrite length_drop. lia.
    + rewrite length_take. lia.
    + rewrite bool_decide_eq_false_2; [done|]. intros H0. rewrite <- Hname, H0 in Hh. done.
  - intros [= <- <-]. repeat split; try done; [apply not_elem_of_nil|cbn; lia].
Qed.

Lemma until_nul_zeros s k : x00 ∉ s -> until_nul (s ++ repeat x00 k) = s.
Proof.
  induction s as [|b s IH]; intros Hz.
  - by destruct k.
  - apply not_elem_of_cons in Hz as [Hb Hz]. cbn [app until_nul].
    rewrite bool_decide_eq_false_2 by congruence. by rewrite IH.
Qed.

Lemma field_zeros n off k : (off + k <= n)%nat -> field (repeat x00 n) off k = repeat x00 k.
Proof.
  intros H. unfold field. replace n with (off + (k + (n - off - k)))%nat by lia.
  rewrite !repeat_app. rewrite drop_app_length' by (by rewrite repeat_length).
  by rewrite take_app_length' by (by rewrite repeat_length).
Qed.

(** A block as a sequence of copies into it. *)
Definition copies (h : bytes) (cs : list (nat * bytes)) : bytes :=
  fold_left (fun h c => memcpy h c.1 c.2) cs h.

Definition fits (n : nat) (c : nat * bytes) : Prop := (c.1 + length c.2 <= n)%nat.
Definition apart (off n : nat) (c : nat * bytes) : Prop :=
  (off + n <= c.1 \/ c.1 + length c.2 <= off)%nat.

Lemma length_copies h cs : Forall (fits (length h)) cs -> length (copies h cs) = length h.
Proof.
  revert h. induction cs as [|c cs IH]; intros h H; [done|].
  apply Forall_cons in H as [Hc Hcs]. unfold copies in *. cbn [fold_left].
  rewrite IH; by rewrite length_memcpy.
Qed.

Lemma copies_snoc h cs c : copies h (cs ++ [c]) = memcpy (copies h cs) c.1 c.2.
Proof. unfold copies. by rewrite fold_left_app. Qed.

Lemma field_copies_apart h cs off n :
  Forall (fits (length h)) cs -> Forall (apart off n) cs ->
  field (copies h cs) off n = field h off n.
Proof.
  revert h. induction cs as [|c cs IH]; intros h H Ha; [done|].
  apply Forall_cons in H as [Hc Hcs], Ha as [Ha1 Ha2]. unfold copies in *. cbn [fold_left].
  rewrite IH by (by rewrite ?length_memcpy). by apply field_memcpy_off.
Qed.

Lemma field_copies_at h before c after n :
  Forall (fits (length h)) (before ++ c :: after) ->
  Forall (apart c.1 n) before -> Forall (apart c.1 n) after -> (length c.2 <= n)%nat ->
  field (copies h (before ++ c :: after)) c.1 n = c.2 ++ field h (c.1 + length c.2) (n - length c.2).
Proof.
  intros Hf Hb Ha Hn. apply Forall_app in Hf as [Hfb [Hfc Hfa]%Forall_cons].
  pose proof (length_copies h before Hfb) as Hl.
  unfold copies. rewrite fold_left_app. cbn [fold_left]. fold (copies h before).
  fold (copies (memcpy (copies h before) c.1 c.2) after).
  rewrite field_copies_apart; [|by rewrite length_memcpy, Hl by (by rewrite Hl)|done].
  rewrite field_memcpy_at by (rewrite ?Hl; done). f_equal.
  apply field_copies_apart; [done|]. eapply Forall_impl; [exact Hb|].
  intros [o x]. unfold apart. cbn [fst snd]. lia.
Qed.

Definition octal_field (n : nat) (v : Z) : bytes := octal_digits (n - 1) v ++ [x00].

Lemma length_octal_field n v : (0 < n)%nat -> length (octal_field n v) = n.
Proof. intros. unfold octal_field. rewrite length_app, length_octal_digits. cbn. lia. Qed.

Ltac solve_layout :=
  repeat (apply Forall_cons; split);
  first [ apply Forall_nil; exact I
        | unfold fits, apart; cbn [fst snd]; rewrite ?length_octal_field by lia;
          change (length (str "ustar")) with 5%nat; change (length (repeat x20 8)) with 8%nat;
          cbn [length]; lia ].

Section Header.
Variables (name fn fp : bytes) (size : Z).
Hypothesis split : split_name name = (fn, fp).
Hypothesis fn_short : (length fn <= 100)%nat.
Hypothesis fp_short : (length fp <= 155)%nat.

Definition field_copies : list (nat * bytes) :=
  [(0, fn); (345, fp); (100, octal_field 8 420); (108, octal_field 8 0); (116, octal_field 8 0);
   (124, octal_field 12 size); (136, octal_field 12 0); (156, [x30]); (257, str "ustar");
   (263, [x30]); (264, [x30]); (148, repeat x20 8)]%nat.

Lemma header_fields_copies : header_fields name size = copies (repeat x00 512) field_copies.
Proof using All.
  unfold header_fields. rewrite split, !take_ge by done. generalize (repeat x00 512). intros z.
  unfold set_octal, copies, field_copies, octal_field. cbn [fold_left fst snd]. reflexivity.
Qed.

Lemma field_copies_fit n : (512 <= n)%nat -> Forall (fits n) field_copies.
Proof using All. intros. unfold field_copies. solve_layout. Qed.

Lemma header_fields_field before c after n :
  field_copies = before ++ c :: after -> (length c.2 <= n)%nat -> (c.1 + n <= 512)%nat ->
  Forall (apart c.1 n) before -> Forall (apart c.1 n) after ->
  field (header_fields name size) c.1 n = c.2 ++ repeat x00 (n - length c.2).
Proof using All.
  intros E Hn Hc Hb Ha. rewrite header_fields_copies, E. rewrite field_copies_at; try done.
  - rewrite field_zeros by lia. done.
  - rewrite repeat_length, <- E. by apply field_copies_fit.
Qed.

Lemma header_name_field : field (header_fields name size) 0 100 = fn ++ repeat x00 (100 - length fn).
Proof using All.
  apply (header_fields_field [] (0%nat, fn) (tail field_copies)); try done; cbn [fst snd]; try lia.
  unfold field_copies. cbn [tail]. solve_layout.
Qed.

Lemma header_prefix_field : field (header_fields name size) 345 155 = fp ++ repeat x00 (155 - length fp).
Proof using All.
  apply (header_fields_field [(0%nat, fn)] (345%nat, fp) (tail (tail field_copies)));
    try done; cbn [fst snd]; try lia; unfold field_copies; cbn [tail]; solve_layout.
Qed.

Lemma header_size_field : field (header_fields name size) 124 12 = octal_field 12 size.
Proof using All.
  rewrite (header_fields_field (take 5 field_copies) (124%nat, octal_field 12 size) (drop 6 field_copies));
    unfold field_copies; cbn [take drop fst snd]; rewrite ?length_octal_field by lia; try done; try lia;
    solve_layout.
Qed.

Lemma header_magic_field : field (header_fields name size) 257 5 = str "ustar".
Proof using All.
  rewrite (header_fields_field (take 8 field_copies) (257%nat, str "ustar") (drop 9 field_copies));
    unfold field_copies; cbn [take drop fst snd]; try done; try (cbn; lia); solve_layout.
Qed.

Lemma header_fields_length : length (header_fields name size) = 512%nat.
Proof using All.
  rewrite header_fields_copies, length_copies; rewrite repeat_length; [done|by apply field_copies_fit].
Qed.

Lemma header_fields_blank : memcpy (header_fields name size) 148 (repeat x20 8) = header_fields name size.
Proof using All.
  rewrite header_fields_copies. assert (Hz : length (repeat x00 512) = 512%nat) by apply repeat_length.
  revert Hz. generalize (repeat x00 512) as z. intros z Hz.
  change field_copies with (take 11 field_copies ++ [(148%nat, repeat x20 8)]).
  rewrite copies_snoc. cbn [fst snd].
  assert (Hl : length (copies z (take 11 field_copies)) = 512%nat).
  { rewrite length_copies, Hz; [done|]. apply Forall_take, field_copies_fit. lia. }
  apply memcpy_inside; rewrite ?repeat_length; lia.
Qed.
End Header.

Lemma byte_sum_app a b : byte_sum (a ++ b) = byte_sum a + byte_sum b.
Proof.
  unfold byte_sum. rewrite fold_left_app. generalize (fold_left (fun sum b => sum + b2z b) a 0).
  induction b as [|x b IH]; intros z; cbn [fold_left]; [lia|].
  rewrite IH, (IH (0 + b2z x)). lia.
Qed.

Lemma byte_sum_bound h : 0 <= byte_sum h <= 255 * Z.of_nat (length h).
Proof.
  induction h as [|b h IH] using rev_ind; [done|]. rewrite byte_sum_app, length_app.
  pose proof (b2z_range b). change (byte_sum [b]) with (b2z b). cbn [length]. lia.
Qed.

Lemma header_spec name size fn fp :
  split_name name = (fn, fp) -> (length fn <= 100)%nat -> (length fp <= 155)%nat ->
  let g := header_fields name size in
  length (header name size) = 512%nat /\
  memcpy (header name size) 148 (repeat x20 8) = g /\
  field (header name size) 148 6 = octal_digits 6 (byte_sum g) /\
  forall off n, (off + n <= 148 \/ 156 <= off)%nat -> field (header name size) off n = field g off n.
Proof.
  intros Hs Hn Hp g. pose proof (header_fields_length name fn fp size Hs Hn Hp) as Hl. fold g in Hl.
  pose proof (byte_sum_bound g) as Hb. rewrite Hl in Hb.
  unfold header. fold g. change 0x1FFFFF with (Z.ones 21). rewrite Z.land_ones by lia.
  rewrite Z.mod_small by lia. set (ds := octal_digits 6 (byte_sum g)).
  assert (Hd : length ds = 6%nat) by apply length_octal_digits.
  assert (Hcs : memcpy (memcpy (memcpy g 148 ds) 154 [x00]) 155 [x20] =
                copies g [(148, ds); (154, [x00]); (155, [x20])]%nat) by done.
  rewrite Hcs.
  assert (Hfit : Forall (fits (length g)) [(148, ds); (154, [x00]); (155, [x20])]%nat).
  { solve_layout. }
  split; [by rewrite length_copies|]. split; [|split].
  - rewrite <- Hcs. rewrite !memcpy_inside; rewrite ?length_memcpy, ?repeat_length; cbn [length];
      rewrite ?length_memcpy; try lia. by eapply header_fields_blank.
  - pose proof (field_copies_at g [] (148%nat, ds) [(154, [x00]); (155, [x20])]%nat 6 Hfit) as E.
    cbn [app fst snd] in E. rewrite Hd, app_nil_r in E. apply E; [constructor| |done].
    solve_layout.
  - intros off n Ho. apply field_copies_apart; [done|].
    solve_layout.
Qed.

Lemma read_header_mod name size :
  storable name -> 0 <= size -> read_header (header name size) = Some (name, size mod 8 ^ 11).
Proof.
  intros Hst Hsize. destruct (split_name name) as [fn fp] eqn:Hs.
  destruct (split_name_spec _ _ _ Hst Hs) as (Hz1 & Hz2 & Hn & Hp & Hname).
  destruct (header_spec name size fn fp Hs Hn Hp) as (Hl & Hblank & Hsum & Hf).
  unfold read_header. rewrite Hblank, Hsum, octal_value_digits by apply byte_sum_bound.
  pose proof (byte_sum_bound (header_fields name size)) as Hb.
  erewrite header_fields_length in Hb by done. rewrite Z.mod_small by (cbn; lia).
  rewrite Z.eqb_refl, !Hf by lia.
  erewrite header_magic_field, header_name_field, header_prefix_field by done.
  rewrite bool_decide_eq_true_2 by done. cbn [andb]. rewrite !until_nul_zeros, Hname by done.
  do 2 f_equal. assert (Hsz : field (header_fields name size) 124 11 = octal_digits 11 size).
  { pose proof (header_size_field name fn fp size Hs Hn Hp) as E. unfold field in *.
    apply (f_equal (take 11)) in E. rewrite take_take in E. change (11 `min` 12)%nat with 11%nat in E. rewrite E. unfold octal_field.
    apply take_app_length'. symmetry. apply length_octal_digits. }
  by rewrite Hsz, octal_value_digits by lia.
Qed.

Lemma read_header_spec name size :
  storable name -> 0 <= size < 8 ^ 11 -> read_header (header name size) = Some (name, size).
Proof. intros Hn Hs. rewrite read_header_mod by (done || lia). by rewrite Z.mod_small. Qed.

(** ** What the reader of a tar stream finds *)

Definition zero_block : bytes := repeat x00 512.

(** The members up to the first zero block. *)
Fixpoint untar (fuel : nat) (t : bytes) : option (list (bytes * bytes)) :=
  match fuel with
  | O => None
  | S fuel =>
      if bool_decide (take 512 t = zero_block) then Some []
      else
        match read_header (take 512 t) with
        | None => None
        | Some (name, size) =>
            let n := Z.to_nat size in
            if (length t <? 512 + n + padding n)%nat then None
            else
              match untar fuel (drop (512 + n + padding n) t) with
              | None => None
              | Some members => Some ((name, field t 512 n) :: members)
              end
        end
  end.

Lemma zero_block_no_header : read_header zero_block = None.
Proof. by vm_compute. Qed.

Lemma untar_end fuel : untar (S fuel) (repeat x00 1024) = Some [].
Proof.
  cbn [untar]. change (repeat x00 1024) with (zero_block ++ zero_block).
  rewrite take_app_length' by (unfold zero_block; by rewrite repeat_length).
  by rewrite bool_decide_eq_true_2.
Qed.

Lemma untar_member fuel name data pad rest :
  storable name -> Z.of_nat (length data) < 8 ^ 11 -> pad = repeat x00 (padding (length data)) ->
  untar (S fuel) (header name (Z.of_nat (length data)) ++ data ++ pad ++ rest) =
  match untar fuel rest with Some ms => Some ((name, data) :: ms) | None => None end.
Proof.
  intros Hs Hd ->. cbn [untar]. set (h := header name _). set (n := length data).
  assert (Hr : read_header h = Some (name, Z.of_nat n)) by (apply read_header_spec; [done|lia]).
  assert (Hl : length h = 512%nat).
  { destruct (split_name name) as [fn fp] eqn:E.
    destruct (split_name_spec _ _ _ Hs E) as (_ & _ & H1 & H2 & _).
    by destruct (header_spec name (Z.of_nat n) fn fp E H1 H2). }
  rewrite (take_app_length' h) by done. rewrite bool_decide_eq_false_2.
  2:{ intros E. rewrite E, zero_block_no_header in Hr. done. }
  rewrite Hr, Nat2Z.id, !length_app, repeat_length, Hl.
  replace (512 + (length data + (padding n + length rest)) <? 512 + n + padding n)%nat with false
    by (symmetry; apply Nat.ltb_ge; unfold n; lia).
  replace (drop (512 + n + padding n) (h ++ data ++ repeat x00 (padding n) ++ rest)) with rest.
  2:{ rewrite !app_assoc. symmetry. apply drop_app_length'.
      rewrite !length_app, repeat_length. unfold n. lia. }
  replace (field (h ++ data ++ repeat x00 (padding n) ++ rest) 512 n) with data; [done|].
  unfold field. rewrite drop_app_length' by done. by rewrite take_app_length'.
Qed.

(** ** The tar bytes of a list of entries *)

Section Tar.
Context {F E : Type} {Reader : FileReader F} {Lib : ArchiveLib E}.

(** A file held open: what is left of it, given in the pieces asked for. *)
Class FileLaws := {
  contents : F -> bytes;
  fread_ok f n f' got : fread f n = (f', got) ->
    got = take n (contents f) /\ contents f' = drop n (contents f);
}.

Context {Files : FileLaws}.

(** The [size] bytes of a member: the file, cut or filled with zeros. *)
Definition fitted (size : nat) (c : bytes) : bytes := take size c ++ repeat x00 (size - length c).

Definition member (e : Entry) : bytes :=
  match fopen (e_path e) with
  | None => []
  | Some f => header (e_name e) (Z.of_nat (e_size e)) ++ fitted (e_size e) (contents f) ++
              repeat x00 (padding (e_size e))
  end.

Definition tar_of (entries : list Entry) : bytes := concat (map member entries) ++ repeat x00 1024.

(** The names and contents an archive of the entries holds. *)
Definition archived (entries : list Entry) : list (bytes * bytes) :=
  omap (fun e => (fun f => (e_name e, fitted (e_size e) (contents f))) <$> fopen (e_path e)) entries.

Definition entry_ok (e : Entry) : Prop := storable (e_name e) /\ Z.of_nat (e_size e) < 8 ^ 11.

Lemma length_fitted n c : length (fitted n c) = n.
Proof using Type. unfold fitted. rewrite length_app, length_take, repeat_length. lia. Qed.

Lemma untar_tar entries fuel :
  Forall entry_ok entries -> (length entries < fuel)%nat ->
  untar fuel (tar_of entries) = Some (archived entries).
Proof using Type.
  intros H. revert fuel. induction H as [|e entries [Hn Hs] _ IH]; intros fuel Hf.
  - destruct fuel; [cbn in Hf; lia|]. apply untar_end.
  - unfold tar_of in *. cbn [map concat]. unfold member at 1, archived. cbn [omap list_omap].
    fold (archived entries). destruct (fopen (e_path e)) as [f|]; cbn [fmap option_fmap option_map].
    + destruct fuel as [|fuel]; [cbn in Hf; lia|]. rewrite <- !app_assoc.
      pose proof (length_fitted (e_size e) (contents f)) as Hl. rewrite <- Hl at 1 3.
      rewrite untar_member by (rewrite ?Hl; done). rewrite IH by (cbn in Hf; lia). done.
    + apply IH. cbn in Hf. lia.
Qed.

(** ** Refilling *)

Definition data_rest (s : ArchiveStreamer (F := F) (E := E)) : bytes :=
  match cur_ s with
  | Some f => fitted (cur_remaining_ s) (contents f)
  | None => repeat x00 (cur_remaining_ s)
  end.

(** The tar bytes not staged yet. *)
Definition tar_rest (s : ArchiveStreamer (F := F) (E := E)) : bytes :=
  if input_done_ s then []
  else if header_pending_ s then tar_of (drop (idx_ s) (entries_ s))
  else data_rest s ++ repeat x00 (pad_remaining_ s) ++ tar_of (drop (S (idx_ s)) (entries_ s)).

(** The staging state: the trailer is written when the input is done, and a
    member is open only at an entry. *)
Definition staging (s : ArchiveStreamer (F := F) (E := E)) : Prop :=
  trailer_emitted_ s = input_done_ s /\
  (header_pending_ s = false -> (idx_ s < length (entries_ s))%nat).

Lemma fitted_split n m c :
  (n <= m)%nat -> (n <= length c)%nat -> take n c ++ fitted (m - n) (drop n c) = fitted m c.
Proof using Type.
  intros H1 H2. unfold fitted. rewrite app_assoc, length_drop. f_equal; [|f_equal; lia].
  replace m with (n + (m - n))%nat at 2 by lia. by rewrite take_take_drop.
Qed.

Lemma tar_of_drop entries i e :
  entries !! i = Some e -> tar_of (drop i entries) = member e ++ tar_of (drop (S i) entries).
Proof using Type.
  intros H. unfold tar_of. rewrite (drop_S _ _ _ H). cbn [map concat]. by rewrite app_assoc.
Qed.

#[local] Arguments tar_of : simpl never.
#[local] Arguments fitted : simpl never.
#[local] Arguments padding : simpl never.
#[local] Arguments header : simpl never.

Lemma refill_step_ok s :
  staging s -> input_done_ s = false ->
  staging (refill_step s) /\ raw_ (refill_step s) ++ tar_rest (refill_step s) = raw_ s ++ tar_rest s /\
  (steps_left (refill_step s) < steps_left s)%nat.
Proof using Type.
  intros [Ht Hi] Hd. unfold refill_step, staging. rewrite Hd in Ht.
  destruct (entries_ s !! idx_ s) as [e|] eqn:Ee.
  2:{ apply lookup_ge_None in Ee. destruct (header_pending_ s) eqn:Ep; [|specialize (Hi eq_refl); lia].
      unfold tar_rest, steps_left. cbn. rewrite Hd, Ht, Ep, drop_ge by done. cbn.
      rewrite app_nil_r. split_and!; [done|done|done|lia]. }
  pose proof (lookup_lt_Some _ _ _ Ee) as Hlt.
  assert (Hdrop : forall i, (sum_list_with entry_steps (drop i (entries_ s)) =
    match entries_ s !! i with
    | Some e => entry_steps e + sum_list_with entry_steps (drop (S i) (entries_ s))
    | None => 0 end)%nat).
  { intros i. destruct (entries_ s !! i) eqn:En; [by rewrite (drop_S _ _ _ En)|].
    apply lookup_ge_None in En. by rewrite drop_ge. }
  destruct (header_pending_ s) eqn:Ep.
  - destruct (fopen (e_path e)) as [f|] eqn:Ef; unfold tar_rest, steps_left, data_rest; cbn -[Nat.min];
      rewrite Hd, Ep, (tar_of_drop _ _ _ Ee); unfold member; rewrite Ef, (Hdrop (idx_ s)), Ee;
      unfold entry_steps; rewrite <- ?app_assoc; cbn [app]; rewrite ?app_nil_r.
    + split_and!; [done|by intros _|done|]. lia.
    + split_and!; [done|done|done|]. lia.
  - destruct (Nat.ltb_spec 0 (cur_remaining_ s)) as [Hr|Hr].
    + destruct (cur_ s) as [f|] eqn:Ef.
      * destruct (fread f (Nat.min (cur_remaining_ s) kReadSize)) as [f' got] eqn:Eg.
        destruct (fread_ok _ _ _ _ Eg) as [-> Hf']. rewrite length_take.
        assert ((0 < kReadSize)%nat) by (apply Nat.ltb_lt; vm_compute; reflexivity).
        assert (Hw : (0 < Nat.min (cur_remaining_ s) kReadSize <= cur_remaining_ s)%nat).
        { revert H. generalize kReadSize. lia. }
        set (w := Nat.min (cur_remaining_ s) kReadSize) in *. clearbody w.
        destruct (Nat.ltb_spec (Nat.min w (length (contents f))) w) as [Hm|Hm];
          unfold tar_rest, steps_left, data_rest; cbn -[Nat.min]; rewrite Hd, Ep, Ef, <- ?app_assoc.
        -- split; [by split|]. split; [|lia].
           f_equal. rewrite Hf', (take_ge (contents f)) by lia. unfold fitted at 1 2.
           rewrite take_0, (take_ge (contents f)), Nat.min_r by lia. cbn [app Nat.sub repeat].
           by rewrite <- !app_assoc.
        -- split; [by split|]. split; [|lia].
           f_equal. rewrite Hf', app_assoc, Nat.min_l by lia. f_equal. apply fitted_split; lia.
      * unfold tar_rest, steps_left, data_rest; cbn -[Nat.min]; rewrite Hd, Ep, Ef, <- ?app_assoc; cbn [app].
        split_and!; [done|by intros _|done|lia].
    + assert (Hz : cur_remaining_ s = 0%nat) by lia.
      assert (Hdata : data_rest s = []).
      { unfold data_rest. rewrite Hz. by destruct (cur_ s). }
      destruct (Nat.ltb_spec 0 (pad_remaining_ s)) as [Hp|Hp].
      * unfold tar_rest, steps_left. rewrite Hdata. unfold data_rest. cbn -[Nat.min].
        rewrite Hd, Ep, Hz, <- ?app_assoc.
        replace (match cur_ s with Some f => fitted 0 (contents f) | None => [] end) with ([] : bytes)
          by (by destruct (cur_ s)).
        cbn [app]. split_and!; [done|by intros _|done|lia].
      * unfold tar_rest, steps_left. rewrite Hdata. cbn -[Nat.min]. rewrite Hd, Ep, <- ?app_assoc.
        replace (pad_remaining_ s) with 0%nat by lia. cbn -[Nat.min]. split_and!; [done|done|done|].
        rewrite (Hdrop (S (idx_ s))). destruct (entries_ s !! S (idx_ s)); lia.
Qed.

Lemma refill_step_fields (s : ArchiveStreamer (F := F) (E := E)) :
  raw_pos_ (refill_step s) = raw_pos_ s /\ finished_ (refill_step s) = finished_ s /\
  ok_ (refill_step s) = ok_ s /\ zcs_ (refill_step s) = zcs_ s.
Proof using Type.
  unfold refill_step. destruct (entries_ s !! idx_ s) as [e|]; [|done].
  destruct (header_pending_ s); [by destruct (fopen (e_path e))|].
  destruct (0 <? cur_remaining_ s)%nat; [|by destruct (0 <? pad_remaining_ s)%nat].
  destruct (cur_ s) as [f|]; [|done]. destruct (fread f _) as [f' got].
  by destruct (length got <? _)%nat.
Qed.

Lemma wants_raw_done (s : ArchiveStreamer (F := F) (E := E)) :
  input_done_ s = true -> wants_raw s = false.
Proof using Type. intros H. unfold wants_raw. rewrite H. generalize kRawTarget. intros k. apply andb_false_r. Qed.

(** What [refill_raw] promises: enough raw bytes or the end of the input, no
    byte of the tar lost, and progress when there was room. *)
Lemma refill_loop_ok fuel (s : ArchiveStreamer (F := F) (E := E)) :
  staging s -> (steps_left s <= fuel)%nat ->
  let s' := refill_loop fuel s in
  staging s' /\ raw_ s' ++ tar_rest s' = raw_ s ++ tar_rest s /\ wants_raw s' = false /\
  (steps_left s' <= steps_left s)%nat /\ (wants_raw s = true -> (steps_left s' < steps_left s)%nat) /\
  raw_pos_ s' = raw_pos_ s /\ finished_ s' = finished_ s /\ ok_ s' = ok_ s /\ zcs_ s' = zcs_ s.
Proof using Type.
  revert s. induction fuel as [|fuel IH]; intros s Hs Hf; cbn [refill_loop].
  - assert (Hw : wants_raw s = false).
    { unfold steps_left in Hf. apply wants_raw_done. destruct (input_done_ s); [done|lia]. }
    split_and!; [exact Hs|done|exact Hw|lia|by rewrite Hw|done..].
  - destruct (wants_raw s) eqn:Hw; [|split_and!; [exact Hs|done|exact Hw|lia|done..]].
    assert (Hd : input_done_ s = false).
    { destruct (input_done_ s) eqn:Ed; [|done]. by rewrite wants_raw_done in Hw. }
    destruct (refill_step_ok s Hs Hd) as (Hs' & Hraw & Hlt).
    destruct (refill_step_fields s) as (F1 & F2 & F3 & F4).
    destruct (IH (refill_step s) Hs' ltac:(lia)) as (I1 & I2 & I3 & I4 & _ & I5 & I6 & I7 & I8).
    split_and!; [exact I1|by rewrite I2|exact I3|lia|intros; lia|by rewrite I5|by rewrite I6|by rewrite I7|by rewrite I8].
Qed.

(** ** The compressed stream *)

(** [unzip] reads a finished stream; [enc_at e p z]: the context has taken [p]
    and given [z]. Calls may fail; one that does not stays in range, and every
    call but the last one of a loop lowers the bound. *)
Class ArchiveLaws := {
  unzip : bytes -> option bytes;
  enc_at : E -> bytes -> bytes -> Prop;
  enc_calls_pos e n : (0 < enc_calls e n)%nat;
  compress2_ok e p z input ending e' rc n o :
    enc_at e p z -> compress2 e input ending = (e', Some (rc, n, o)) ->
    if ending then
      (rc = 0%nat -> input = [] -> unzip (z ++ o) = Some p) /\
      (rc <> 0%nat -> input = [] -> enc_at e' p (z ++ o) /\ (enc_calls e' 0 < enc_calls e 0)%nat)
    else
      (n <= length input)%nat /\ enc_at e' (p ++ take n input) (z ++ o) /\
      (drop n input <> [] -> (enc_calls e' (length input - n) < enc_calls e (length input))%nat);
}.

Context {Laws : ArchiveLaws}.

Lemma compress_loop_more fuel e p z input out e' out' r :
  enc_at e p z -> (enc_calls e (length input) <= fuel)%nat ->
  compress_loop fuel e input false out = (e', out', Some r) ->
  exists o, out' = out ++ o /\ r = ([], false) /\ enc_at e' (p ++ input) (z ++ o).
Proof using Type.
  revert e p z input out. induction fuel as [|fuel IH]; intros e p z input out He Hf; cbn [compress_loop];
    [pose proof (enc_calls_pos e (length input)); lia|].
  destruct (compress2 e input false) as [e1 [[[rc n] o]|]] eqn:Ec; [|done].
  destruct (compress2_ok _ _ _ _ _ _ _ _ _ He Ec) as (Hn & He1 & Hlt). case_bool_decide as Hd.
  - intros [= <- <- <-]. exists o. split; [done|]. split; [by rewrite Hd|].
    rewrite take_ge in He1; [done|]. apply (f_equal length) in Hd. rewrite length_drop in Hd. cbn in Hd. lia.
  - specialize (Hlt Hd). intros H. eapply IH in H as (o' & -> & -> & He'); [|exact He1|].
    + exists (o ++ o'). rewrite !app_assoc. split; [done|]. split; [done|].
      by rewrite <- (app_assoc p), take_drop in He'.
    + rewrite length_drop. lia.
Qed.

Lemma compress_loop_end fuel e p z out e' out' r :
  enc_at e p z -> (enc_calls e 0 <= fuel)%nat ->
  compress_loop fuel e [] true out = (e', out', Some r) ->
  exists o, out' = out ++ o /\ r = ([], true) /\ unzip (z ++ o) = Some p.
Proof using Type.
  revert e z out. induction fuel as [|fuel IH]; intros e z out He Hf; cbn [compress_loop];
    [pose proof (enc_calls_pos e 0); lia|].
  destruct (compress2 e [] true) as [e1 [[[rc n] o]|]] eqn:Ec; [|done].
  destruct (compress2_ok _ _ _ _ _ _ _ _ _ He Ec) as [H0 H1]. rewrite drop_nil.
  destruct (Nat.eqb_spec rc 0) as [Hrc|Hrc].
  - intros [= <- <- <-]. exists o. auto.
  - destruct (H1 Hrc eq_refl) as [He1 Hlt]. intros H.
    eapply IH in H as (o' & -> & -> & He'); [|exact He1|lia].
    exists (o ++ o'). rewrite !app_assoc in *. auto.
Qed.

(** Between two calls of [next]: everything staged has been given to the
    compressor, which has answered [z]; [t] is the whole tar stream. *)
Record streaming (t z : bytes) (s : ArchiveStreamer (F := F) (E := E)) : Prop := {
  st_staging : staging s;
  st_raw : raw_ s = [];
  st_pos : raw_pos_ s = 0%nat;
  st_ok : ok_ s = true;
  st_going : finished_ s = false;
  st_enc : exists p, enc_at (zcs_ s) p z /\ p ++ tar_rest s = t;
}.

Lemma kRawTarget_pos : (0 < kRawTarget)%nat.
Proof using Type. apply Nat.ltb_lt. vm_compute. reflexivity. Qed.

Lemma wants_raw_fresh (s : ArchiveStreamer (F := F) (E := E)) : raw_ s = [] -> wants_raw s = negb (input_done_ s).
Proof using Type.
  intros H. unfold wants_raw. rewrite H. pose proof kRawTarget_pos as Hk. revert Hk.
  generalize kRawTarget. intros [|k] Hk; [lia|done].
Qed.

Lemma refill_loop_done fuel (s : ArchiveStreamer (F := F) (E := E)) : input_done_ s = true -> refill_loop fuel s = s.
Proof using Type. intros H. destruct fuel; [done|]. cbn [refill_loop]. by rewrite wants_raw_done. Qed.

(** One iteration of the loop of [next]: an error, the end of the stream, or
    the same situation with fewer steps left. *)
Definition iterate (s : ArchiveStreamer (F := F) (E := E)) : ArchiveStreamer (F := F) (E := E) * bytes :=
  let s := refill_raw s in
  let input := drop (raw_pos_ s) (raw_ s) in
  let ending := input_done_ s && (length input =? 0)%nat in
  match compress_loop (enc_calls (zcs_ s) (length input)) (zcs_ s) input ending [] with
  | (e, out, None) => (failed s e, out)
  | (e, out, Some (rest, finished)) => (compressed s e rest finished, out)
  end.

Lemma iterate_ok t z s :
  streaming t z s ->
  let '(s', out) := iterate s in
  ok_ s' = false \/
  (ok_ s' = true /\ finished_ s' = true /\ unzip (z ++ out) = Some t) \/
  (streaming t (z ++ out) s' /\ (steps_left s' < steps_left s)%nat).
Proof using Type.
  intros [Hst Hraw Hpos Hok Hgo (p & He & Ht)]. unfold iterate, refill_raw.
  destruct (refill_loop_ok (steps_left s) s Hst ltac:(lia)) as (I1 & I2 & I3 & I4 & I5 & I6 & I7 & I8 & I9).
  set (s1 := refill_loop (steps_left s) s) in *. rewrite Hraw in I2. cbn [app] in I2.
  rewrite I6, Hpos, drop_0. destruct (input_done_ s1 && (length (raw_ s1) =? 0)%nat) eqn:Eend.
  - apply andb_prop in Eend as [Ed El]. apply Nat.eqb_eq, nil_length_inv in El. rewrite El. cbn [length].
    destruct (compress_loop _ _ _ _ _) as [[e out] [[rest fin]|]] eqn:Ec; [|by left].
    rewrite I9 in Ec. eapply compress_loop_end in Ec as (o & -> & [= -> ->] & Hu); [|exact He|lia].
    right. left. cbn. rewrite I8, I7, Hok, Hgo. split_and!; [done|done|]. rewrite Hu. f_equal.
    rewrite <- Ht, <- I2, El. unfold tar_rest. by rewrite Ed, app_nil_r.
  - destruct (compress_loop _ _ _ _ _) as [[e out] [[rest fin]|]] eqn:Ec; [|by left].
    rewrite I9 in Ec. eapply compress_loop_more in Ec as (o & -> & [= -> ->] & He'); [|exact He|lia].
    right. right. cbn [app].
    assert (Hsteps : steps_left (compressed s1 e [] false) = steps_left s1) by done.
    assert (Hrest : tar_rest (compressed s1 e [] false) = tar_rest s1) by done.
    split.
    + constructor; cbn [compressed raw_ raw_pos_ ok_ finished_ zcs_ length].
      * exact I1.
      * by rewrite Nat.sub_0_r, Nat.eqb_refl.
      * by rewrite Nat.sub_0_r, Nat.eqb_refl.
      * by rewrite I8.
      * by rewrite I7, Hgo.
      * exists (p ++ raw_ s1). split; [exact He'|]. by rewrite Hrest, <- app_assoc, I2.
    + rewrite Hsteps. apply I5. destruct (wants_raw s) eqn:Ew; [done|]. exfalso.
      rewrite (wants_raw_fresh s Hraw) in Ew. apply negb_false_iff in Ew.
      assert (Hs1 : s1 = s) by (by apply refill_loop_done).
      by rewrite Hs1, Ew, Hraw in Eend.
Qed.

Lemma next_loop_iterate fuel s :
  ok_ s = true -> finished_ s = false ->
  next_loop (S fuel) s [] =
  let '(s', out) := iterate s in
  if ok_ s' then next_loop fuel s' out else (s', out, false).
Proof using Type.
  intros Hok Hfin. cbn [next_loop]. rewrite bool_decide_eq_true_2, Hfin by done. cbn [andb negb].
  unfold iterate. assert (Hr : ok_ (refill_raw s) = ok_ s).
  { unfold refill_raw. generalize (steps_left s). intros k. revert s Hok Hfin.
    induction k as [|k IH]; intros s Hok Hfin; [done|]. cbn [refill_loop].
    destruct (wants_raw s); [|done]. destruct (refill_step_fields s) as (_ & F2 & F3 & _).
    rewrite IH; congruence. }
  destruct (compress_loop _ _ _ _ _) as [[e out] [[rest fin]|]]; [|done].
  cbn [compressed ok_]. by rewrite Hr, Hok.
Qed.

Lemma next_loop_stop fuel s out :
  out <> [] \/ finished_ s = true -> next_loop fuel s out = (s, out, negb (finished_ s)).
Proof using Type.
  intros H. assert (bool_decide (out = []) && negb (finished_ s) = false) as Hstop.
  { destruct H as [H| ->]; [by rewrite bool_decide_eq_false_2|by rewrite andb_comm]. }
  by destruct fuel; cbn [next_loop]; rewrite Hstop.
Qed.

(** What a call of [next] can answer. *)
Definition answered (t z : bytes) (s s' : ArchiveStreamer (F := F) (E := E)) (out : bytes) (more : bool) : Prop :=
  ok_ s' = false \/
  (ok_ s' = true /\ more = false /\ unzip (z ++ out) = Some t) \/
  (more = true /\ out <> [] /\ streaming t (z ++ out) s' /\ (steps_left s' < steps_left s)%nat).

Lemma next_loop_ok fuel t z s :
  streaming t z s -> (steps_left s < fuel)%nat ->
  let '(s', out, more) := next_loop fuel s [] in answered t z s s' out more.
Proof using Type.
  revert s. induction fuel as [|fuel IH]; intros s Hs Hf; [lia|].
  rewrite next_loop_iterate by apply Hs. pose proof (iterate_ok t z s Hs) as Hi.
  destruct (iterate s) as [s' out]. destruct (ok_ s') eqn:Hok; [|by left].
  destruct Hi as [Hi|[(_ & Hfin & Hu)|[Hs' Hlt]]]; [congruence| |].
  - rewrite next_loop_stop by (by right). right. left. by rewrite Hfin.
  - destruct (decide (out = [])) as [->|Hne].
    + rewrite app_nil_r in Hs'. specialize (IH s' Hs' ltac:(lia)).
      destruct (next_loop fuel s' []) as [[s2 o2] m2].
      destruct IH as [IH|[IH|(IH1 & IH2 & IH3 & IH4)]]; [by left|by right; left|].
      right. right. split_and!; try done. lia.
    + rewrite next_loop_stop by (by left). right. right. rewrite (st_going _ _ _ Hs'). done.
Qed.

Lemma next_ok t z s :
  streaming t z s -> let '(s', out, more) := next s in answered t z s s' out more.
Proof using Type.
  intros Hs. unfold next. rewrite (st_ok _ _ _ Hs), (st_going _ _ _ Hs). cbn [negb orb].
  apply next_loop_ok; [done|lia].
Qed.

Lemma pump_ok fuel t z s :
  streaming t z s -> (steps_left s < fuel)%nat ->
  exists chunks s', pump fuel s = Some (chunks, s') /\
    (ok_ s' = true -> unzip (z ++ concat chunks) = Some t).
Proof using Type.
  revert z s. induction fuel as [|fuel IH]; intros z s Hs Hf; [lia|]. cbn [pump].
  pose proof (next_ok t z s Hs) as Hn. destruct (next s) as [[s' out] more].
  destruct (ok_ s') eqn:Hok; cbn [negb].
  2:{ exists [], s'. split; [done|congruence]. }
  destruct Hn as [Hn|[(_ & -> & Hu)|(-> & Hne & Hs' & Hlt)]]; [congruence| |].
  - case_bool_decide as Ho.
    + exists [], s'. split; [done|]. by rewrite Ho in Hu.
    + exists [out], s'. split; [done|]. cbn [concat]. by rewrite app_nil_r.
  - rewrite bool_decide_eq_false_2 by done. cbn [negb].
    destruct (IH (z ++ out) s' Hs' ltac:(lia)) as (chunks & s2 & -> & Hu).
    exists (out :: chunks), s2. split; [done|]. cbn [concat]. by rewrite app_assoc.
Qed.

Lemma new_streaming entries zcs :
  enc_at zcs [] [] -> streaming (tar_of entries) [] (new_streamer entries zcs).
Proof using Type.
  intros He. constructor; try done. exists []. split; [done|]. cbn. by rewrite drop_0.
Qed.

(** The chunks a download sends are the archive: pumping ends, and unless
    the compressor failed, what was sent decompresses to a tar stream whose
    reader finds the readable entries in order, each with its name and its
    declared size of bytes, the file's own, filled with zeros where the file
    has become shorter. *)
Theorem archive_stream_unpacks (entries : list Entry) (zcs : E) :
  Forall entry_ok entries -> enc_at zcs [] [] ->
  let s := new_streamer entries zcs in
  exists chunks s' , pump (S (steps_left s)) s = Some (chunks, s') /\
    (ok_ s' = true -> exists tar, unzip (concat chunks) = Some tar /\
       untar (S (length entries)) tar = Some (archived entries)).
Proof using Type.
  intros Hent He s.
  destruct (pump_ok (S (steps_left s)) (tar_of entries) [] s (new_streaming entries zcs He) ltac:(lia))
    as (chunks & s' & Hp & Hu).
  exists chunks, s'. split; [done|]. intros Hok. exists (tar_of entries). split; [by apply Hu|].
  by apply untar_tar; [|lia].
Qed.
End Tar.

(** A member's header block is read back, its checksum right, for every name
    that fits the format and every size below 8 GiB; the twelve bytes of the
    size field keep a larger size only modulo 8 GiB. *)
Theorem header_round_trip (name : bytes) (size : Z) :
  storable name -> 0 <= size ->
  read_header (header name size) = Some (name, size mod 2 ^ 33) /\
  (size < 2 ^ 33 -> read_header (header name size) = Some (name, size)).
Proof.
  intros Hn Hs. change (2 ^ 33) with (8 ^ 11). split; [by apply read_header_mod|].
  intros. by apply read_header_spec.
Qed.

(** ** A stored archive *)

(** Files that can be read in any pieces, and a compressor that stores. *)
#[export] Instance one_file : FileReader bytes := {
  fopen p := if bool_decide (p = str "/r/ab/f") then Some (str "hello") else None;
  fread f n := (drop n f, take n f);
}.

#[export] Instance one_file_laws : FileLaws.
Proof. refine {| contents := fun f : bytes => f |}. by intros * [= <- <-]. Defined.

#[export] Instance store_lib : ArchiveLib unit := {
  compress2 e input ending := if ending then (e, Some (0%nat, 0%nat, [x45])) else (e, Some (0%nat, length input, input));
  enc_calls _ _ := 1%nat;
}.

#[export] Instance store_laws : ArchiveLaws.
Proof.
  refine {| unzip := fun z => Some (take (length z - 1) z); enc_at := fun _ p z => z = p |}.
  - intros. apply Nat.lt_0_1.
  - intros e p z input ending e' rc n o -> Hc. cbn in Hc. destruct ending; injection Hc as <- <- <- <-.
    + split; [|done]. intros _ _. rewrite length_app, Nat.add_sub. by rewrite take_app_length.
    + rewrite firstn_all. split_and!; [done|done|]. by rewrite drop_all.
Defined.

Definition two_entries : list Entry :=
  [{| e_path := str "/r/ab/f"; e_name := str "ab/f"; e_size := 7 |};
   {| e_path := str "/r/ab/gone"; e_name := str "ab/gone"; e_size := 9 |}].

Lemma archive_stream_unpacks_witness :
  exists chunks s', pump (S (steps_left (new_streamer (F := bytes) two_entries tt))) (new_streamer (F := bytes) two_entries tt) = Some (chunks, s') /\
    (ok_ s' = true -> exists tar, unzip (concat chunks) = Some tar /\
       untar 3 tar = Some [(str "ab/f", str "hello" ++ [x00; x00])]).
Proof.
  change [(str "ab/f", str "hello" ++ [x00; x00])] with (archived (F := bytes) two_entries).
  apply (archive_stream_unpacks (F := bytes) two_entries tt); [|done].
  repeat constructor; cbn; try (intros [=]); try lia;
    apply (bool_decide_unpack _); vm_compute; exact I.
Defined.

Lemma header_round_trip_witness :
  read_header (header (str "ab/f") (2 ^ 33 + 5)) = Some (str "ab/f", (2 ^ 33 + 5) mod 2 ^ 33) /\
  (2 ^ 33 + 5 < 2 ^ 33 -> read_header (header (str "ab/f") (2 ^ 33 + 5)) = Some (str "ab/f", 2 ^ 33 + 5)).
Proof.
  apply (header_round_trip (str "ab/f") (2 ^ 33 + 5)); [|lia].
  split; [apply (bool_decide_unpack _); vm_compute; exact I|]. split; [done|]. left. cbn. lia.
Defined.
