(* ===== verification/Download.v ===== *)
(** * Download: the directory walk of an archive ([server/archive.cxx]: begin)

    [ArchiveStreamer::begin] lists the regular files below a directory and sorts
    them by name; [Archive] streams them. What the iterator finds is a [Walk.Dir],
    [std::filesystem::relative], which resolves links, is an argument. *)

From S2P Require Import Prelude Text PosixPath Archive Walk.
From stdpp Require Import sorting.

Definition by_name (a b : Entry) : Prop := bytes_le (e_name a) (e_name b).

#[local] Instance by_name_dec a b : Decision (by_name a b).
Proof. unfold by_name. apply _. Defined.

#[local] Instance by_name_total : Total by_name.
Proof. intros a b. apply bytes_le_total. Qed.

#[local] Instance by_name_trans : Transitive by_name.
Proof. intros a b c. unfold by_name. apply (transitivity (R := bytes_le)). Qed.

Section Begin.
Context {F E : Type} {Reader : FileReader F} {Lib : ArchiveLib E}.
Variable relative : bytes -> bytes -> option bytes.     (** [relative(path, dir)] *)

(** One entry of the walk: [continue], or what is pushed. *)
Definition push_entry (dir prefix : bytes) (names : list bytes) (i : Info) : list Entry :=
  match i_is_regular_file i with
  | Some true =>
      match relative (entry_path dir names) dir with
      | Some (c :: rel) =>
          match i_size i with
          | Some size =>
              [{| e_path := entry_path dir names; e_name := prefix ++ slash :: c :: rel; e_size := Z.to_nat size |}]
          | None => []
          end
      | _ => []
      end
  | _ => []
  end.

(** The loop of the walk; an error of [increment] ends it. *)
Fixpoint collect (dir prefix : bytes) (dirs : list bytes) (d : Dir) : list Entry * bool :=
  match d with
  | DirEnd ok => ([], ok)
  | DirEntry i next =>
      let '(l, ok) := collect dir prefix dirs next in
      (push_entry dir prefix (dirs ++ [i_name i]) i ++ l, ok)
  | DirSub i sub next =>
      let '(l, ok) := collect dir prefix (dirs ++ [i_name i]) sub in
      let pushed := push_entry dir prefix (dirs ++ [i_name i]) i ++ l in
      if ok then let '(l', ok) := collect dir prefix dirs next in (pushed ++ l', ok) else (pushed, false)
  end.

(** [disk] gives [None] for what is not a directory, [encoder] is what
    [ZSTD_createCStream] gives; [None] is [return false]. *)
Definition begin (disk : bytes -> option Dir) (encoder : option E) (dir prefix : bytes) :
  option (ArchiveStreamer (F := F) (E := E)) :=
  d ← disk dir;
  zcs ← encoder;
  Some (new_streamer (merge_sort by_name (collect dir prefix [] d).1) zcs).

(** The name and the contents that a file of the listing puts in the archive. *)
Context {Files : FileLaws}.

Definition stored_file (dir prefix : bytes) (f : list Info * Info) : list (bytes * bytes) :=
  archived (push_entry dir prefix (names_of f.1 ++ [i_name f.2]) f.2).

Fixpoint no_errors (d : Dir) : Prop :=
  match d with
  | DirEnd ok => ok = true
  | DirEntry _ next => no_errors next
  | DirSub _ sub next => no_errors sub /\ no_errors next
  end.

Lemma archived_app l m : archived (l ++ m) = archived l ++ archived m.
Proof using Type. unfold archived. apply omap_app. Qed.

Lemma collect_all dir prefix d : forall above,
  no_errors d -> exists l, collect dir prefix (names_of above) d = (l, true) /\
    archived l = concat (map (stored_file dir prefix) (listing above d)).
Proof using Type.
  induction d as [ok|i next IH|i sub IHs next IH]; intros above; cbn [no_errors collect listing map concat].
  - intros ->. by exists [].
  - intros H. destruct (IH above H) as (l & -> & Hl). eexists. split; [done|]. by rewrite archived_app, Hl.
  - intros [Hs Hn]. replace (names_of above ++ [i_name i]) with (names_of (above ++ [i])) by
      (unfold names_of; by rewrite fmap_app).
    destruct (IHs (above ++ [i]) Hs) as (l & -> & Hl). destruct (IH above Hn) as (l' & -> & Hl'). eexists. split; [done|].
    rewrite map_app, concat_app, !archived_app, Hl, Hl', <- app_assoc. unfold stored_file at 3. cbn [fst snd].
    unfold names_of. by rewrite fmap_app.
Qed.

Lemma archived_perm l m : l ≡ₚ m -> archived l ≡ₚ archived m.
Proof using Type. unfold archived. by intros ->. Qed.

Lemma archived_names l : (archived l).*1 `sublist_of` e_name <$> l.
Proof using Type.
  unfold archived. induction l as [|e l IH]; [constructor|]. cbn [omap list_omap].
  destruct (fopen (e_path e)); cbn; by constructor.
Qed.

Lemma sorted_sublist {A} (R : A -> A -> Prop) l m : l `sublist_of` m -> StronglySorted R m -> StronglySorted R l.
Proof.
  induction 1 as [|x l m Hs IH|x l m Hs IH]; intros H; [constructor| |].
  - inversion_clear H as [|? ? Hm Hx]. constructor; [by apply IH|].
    rewrite Forall_forall in *. intros y Hy. apply Hx. by eapply elem_of_sublist.
  - inversion_clear H. by apply IH.
Qed.

Lemma sorted_names l : StronglySorted by_name l -> StronglySorted bytes_le (e_name <$> l).
Proof. induction 1 as [|e l _ IH Hl]; constructor; [done|]. by apply Forall_fmap. Qed.
End Begin.

Section Download.
Context {F E : Type} {Reader : FileReader F} {Lib : ArchiveLib E}.
Context {Files : FileLaws} {Laws : ArchiveLaws}.
Variable relative : bytes -> bytes -> option bytes.

(** C28: a download holds the directory. Where the walk meets no error and the
    names fit the format, [begin] succeeds, pumping ends, and unless the
    compressor failed, what was sent decompresses to a tar stream that unpacks
    to the readable regular files below the directory: each once, in the order
    of their names, with the declared size of the file's own bytes, zeros where
    it has become shorter. *)
Theorem download_holds_directory (disk : bytes -> option Dir) (dir prefix : bytes) (d : Dir) (zcs : E) :
  disk dir = Some d -> no_errors d -> enc_at zcs [] [] ->
  Forall entry_ok (collect relative dir prefix [] d).1 ->
  exists s chunks s' members,
    begin (F := F) relative disk (Some zcs) dir prefix = Some s /\
    pump (S (steps_left s)) s = Some (chunks, s') /\
    members ≡ₚ concat (map (stored_file relative dir prefix) (listing [] d)) /\
    StronglySorted bytes_le members.*1 /\
    (ok_ s' = true -> exists tar, unzip (concat chunks) = Some tar /\
       untar (S (length (entries_ s))) tar = Some members).
Proof.
  intros Hd Hn He Hent. destruct (collect_all (F := F) relative dir prefix d [] Hn) as (l & El & Hl).
  cbn [names_of fmap list_fmap] in El. rewrite El in Hent. cbn [fst] in Hent.
  set (sorted := merge_sort by_name l).
  assert (Hp : sorted ≡ₚ l) by apply merge_sort_Permutation.
  destruct (archive_stream_unpacks (F := F) sorted zcs) as (chunks & s' & Hpump & Hu); [by rewrite Hp|done|].
  exists (new_streamer sorted zcs), chunks, s', (archived (F := F) sorted). split_and!; [|done| | |done].
  - unfold begin. rewrite Hd. cbn [mbind option_bind]. by rewrite El.
  - rewrite <- Hl. by apply archived_perm.
  - eapply sorted_sublist; [apply archived_names|]. apply sorted_names, StronglySorted_merge_sort; apply _.
Qed.
End Download.

(** A directory in which one file is gone by the time it is opened. *)
Definition demo_tree : Dir :=
  DirEntry (demo_file (str "gone") 9) (DirEntry (demo_dir (str "sub")) (DirEntry (demo_file (str "f") 7) (DirEnd true))).
Definition demo_relative (p dir : bytes) : option bytes := Some (drop (S (length dir)) p).

Lemma download_holds_directory_witness :
  exists s chunks s' members,
    begin (F := bytes) demo_relative (fun _ => Some demo_tree) (Some tt) (str "/r/ab") (str "ab") = Some s /\
    pump (S (steps_left s)) s = Some (chunks, s') /\
    members ≡ₚ concat (map (stored_file (F := bytes) demo_relative (str "/r/ab") (str "ab")) (listing [] demo_tree)) /\
    StronglySorted bytes_le members.*1 /\
    (ok_ s' = true -> exists tar, unzip (concat chunks) = Some tar /\
       untar (S (length (entries_ s))) tar = Some members).
Proof.
  apply (download_holds_directory demo_relative (fun _ => Some demo_tree) (str "/r/ab") (str "ab") demo_tree tt);
    [done|done|done|].
  repeat constructor; cbn; try (intros [=]); try lia; apply (bool_decide_unpack _); vm_compute; exact I.
Defined.
