(* ===== verification/Server.v ===== *)
(** * Server: sinks, tokens, sessions and modes ([server/server.cxx], [server/server.h])

    What a server keeps for its connections: one sink per session id, the ids
    already in the session log, and whether clients have to probe. Sinks are
    shared pointers: a connection holds the name of its sink, the sink itself
    is in the table. *)

From S2P Require Import Prelude Protocol Handshake PosixPath FileSink JsonText Db.

Inductive ProbeHash := ProbeNone | ProbeBlake3.

Record ServerConfig := {
  cfg_key : bytes;
  cfg_root : path;
  channel_high_water : nat;
  channel_low_water : nat;
}.

Record Server := {
  config : ServerConfig;
  has_filter : bool;                       (** [filter_] is set *)
  probe_hash_ : ProbeHash;
  sinks_ : gmap bytes FileSink;
  tokens_path_ : bytes;
  sessions_path_ : bytes;
  logged_sessions_ : gset bytes;
}.

(** ['|='] on a byte whose bits are the modes. *)
Definition mode_for (s : Server) (version : Z) : Z :=
  if (version <? 2) || negb (has_filter s) then 0
  else
    let mode := mode_bit ModeAccept in
    match probe_hash_ s with
    | ProbeBlake3 => Z.lor mode (mode_bit HashFirst)
    | ProbeNone => mode
    end.

Section Server.
Context {W : Type} {Fs : FsOps W} {Px : PosixOps W} {Gcm : GcmLib} {Json : JsonLib}.

(** [root / ".dicker-tokens.json"] and its like. *)
Definition under_root (root : path) (name : bytes) : bytes := path_string (path_append root (path_of_string name)).

(** [Server::Server]: the ids already logged are loaded, so none is logged twice. *)
Definition new_server (w : W) (config : ServerConfig) : Server :=
  let sessions_path := under_root (cfg_root config) (str ".dicker-sessions.jsonl") in
  {| config := config; has_filter := false; probe_hash_ := ProbeNone; sinks_ := ∅;
     tokens_path_ := under_root (cfg_root config) (str ".dicker-tokens.json");
     sessions_path_ := sessions_path;
     logged_sessions_ := dom (load_all w sessions_path (cfg_key config) ∅) |}.

(** [Server::filter]. *)
Definition set_filter (s : Server) (hash : ProbeHash) : Server :=
  {| config := config s; has_filter := true; probe_hash_ := hash; sinks_ := sinks_ s;
     tokens_path_ := tokens_path_ s; sessions_path_ := sessions_path_ s;
     logged_sessions_ := logged_sessions_ s |}.

Definition with_sink (s : Server) (hex : bytes) (sink : FileSink) : Server :=
  {| config := config s; has_filter := has_filter s; probe_hash_ := probe_hash_ s;
     sinks_ := <[hex := sink]> (sinks_ s); tokens_path_ := tokens_path_ s;
     sessions_path_ := sessions_path_ s; logged_sessions_ := logged_sessions_ s |}.

Definition with_logged (s : Server) (hex : bytes) : Server :=
  {| config := config s; has_filter := has_filter s; probe_hash_ := probe_hash_ s; sinks_ := sinks_ s;
     tokens_path_ := tokens_path_ s; sessions_path_ := sessions_path_ s;
     logged_sessions_ := {[hex]} ∪ logged_sessions_ s |}.

Definition session_root (s : Server) (hex : bytes) : path :=
  path_append (cfg_root (config s)) (path_of_string hex).

(** The name of the sink, [None] for the null pointer. *)
Definition get_or_create_sink (w : W) (s : Server) (session_id : bytes) : W * Server * option bytes :=
  let hex := session_id_to_hex session_id in
  match sinks_ s !! hex with
  | Some _ => (w, s, Some hex)
  | None =>
      let root := session_root s hex in
      let '(w, error) := fs_create_directories w (path_string root) in
      if error && negb (fs_exists w (path_string root)) then (w, s, None)
      else (w, with_sink s hex (new_file_sink root), Some hex)
  end.

Definition server_verify_token (w : W) (s : Server) (token : bytes) : bool :=
  verify_token w (tokens_path_ s) (cfg_key (config s)) token.

(** [now] is [std::time]; [rng] what the random generator gives. An exception of
    [append] would end the server; ids are hexadecimal and addresses are printed
    by libuv, so there is none ([append_prints]). *)
Definition record_session (w : W) (s : Server) (rng : option bytes) (now : Z) (hex ip : bytes) : W * Server :=
  if bool_decide (hex ∈ logged_sessions_ s) then (w, s)
  else
    match session_append w (sessions_path_ s) (cfg_key (config s)) rng hex ip now with
    | (w, Some true) => (w, with_logged s hex)
    | (w, _) => (w, s)
    end.

Definition server_load_sessions (w : W) (s : Server) (out : gmap bytes SessionInfo) : gmap bytes SessionInfo :=
  load_all w (sessions_path_ s) (cfg_key (config s)) out.

(** ** Modes *)

(** The mode byte: clients of version 1 and servers without a filter get 0;
    otherwise the accept bit is set, and the hash bit exactly when the filter
    asked for hashes. *)
Theorem mode_for_spec (s : Server) (version : Z) :
  has_mode (mode_for s version) ModeAccept = (2 <=? version) && has_filter s /\
  has_mode (mode_for s version) HashFirst =
    (2 <=? version) && has_filter s && match probe_hash_ s with ProbeBlake3 => true | ProbeNone => false end /\
  (version < 2 -> mode_for s version = 0).
Proof.
  unfold mode_for. rewrite (Z.ltb_antisym 2 version).
  destruct (Z.leb_spec 2 version); destruct (has_filter s); destruct (probe_hash_ s);
    cbn [negb andb orb]; repeat split; try done; lia.
Qed.

(** ** Sinks *)

Lemma get_or_create_sink_spec w s sid w' s' r :
  get_or_create_sink w s sid = (w', s', r) ->
  let hex := session_id_to_hex sid in
  config s' = config s /\
  (forall h, h <> hex -> sinks_ s' !! h = sinks_ s !! h) /\
  (forall k, sinks_ s !! hex = Some k -> sinks_ s' !! hex = Some k) /\
  (r = None -> s' = s) /\
  (forall h, r = Some h -> h = hex /\ exists k, sinks_ s' !! hex = Some k /\
     (sinks_ s !! hex = Some k \/ k = new_file_sink (session_root s hex))).
Proof.
  unfold get_or_create_sink. set (hex := session_id_to_hex sid).
  destruct (sinks_ s !! hex) as [k|] eqn:E.
  - intros [= <- <- <-]. split; [done|]. split; [done|]. split; [by intros k' [= <-]|]. split; [done|].
    intros h [= <-]. split; [done|]. exists k. auto.
  - destruct (fs_create_directories w _) as [w1 err]. destruct (err && _).
    + intros [= <- <- <-]. split; [done|]. split; [done|]. split; [congruence|]. by split.
    + intros [= <- <- <-]. split; [done|]. split; [intros h Hh; cbn; by rewrite lookup_insert_ne|].
      split; [congruence|]. split; [done|].
      intros h [= <-]. split; [done|]. eexists. cbn. rewrite lookup_insert_eq. split; [done|]. by right.
Qed.

(** The connections of a session share its sink: asking again for the same
    id changes nothing and gives the same sink, so the descriptors of a file
    whose chunks come in over several connections are found again; the sinks of
    different ids have different names and different directories. *)
Theorem sink_is_shared (w w1 w2 : W) (s s1 s2 : Server) (sid sid' : bytes) (h : bytes) (r : option bytes) :
  get_or_create_sink w s sid = (w1, s1, Some h) ->
  get_or_create_sink w1 s1 sid' = (w2, s2, r) ->
  (sid' = sid -> w2 = w1 /\ s2 = s1 /\ r = Some h) /\
  (sid' <> sid -> r <> Some h /\ sinks_ s2 !! h = sinks_ s1 !! h).
Proof.
  intros H1 H2. destruct (get_or_create_sink_spec _ _ _ _ _ _ H1) as (_ & _ & _ & _ & Hr).
  destruct (Hr h eq_refl) as (-> & k & Hk & _). split.
  - intros ->. unfold get_or_create_sink in H2. rewrite Hk in H2. by injection H2 as <- <- <-.
  - intros Hne. destruct (get_or_create_sink_spec _ _ _ _ _ _ H2) as (_ & Hother & _ & _ & Hr2).
    assert (Hx : session_id_to_hex sid <> session_id_to_hex sid') by (intros ?; by apply Hne, eq_sym, flat_hex_inj).
    split; [|by apply Hother]. intros ->. by destruct (Hr2 _ eq_refl) as [? _].
Qed.

(** ** Sessions *)

Context {Pl : PosixLaws W} {Gl : GcmLaws}.

(** Appending the row of a connection never throws: its id is hexadecimal and its
    address ASCII. *)
Lemma append_prints (w : W) (path key session_id ip : bytes) (rng : option bytes) (now : Z) :
  Forall (fun b => b2z b < 0x80) ip -> (session_append w path key rng (session_id_to_hex session_id) ip now).2 <> None.
Proof.
  intros Hi. assert (Hs : utf8_text (session_id_to_hex session_id)).
  { apply utf8_ascii. eapply Forall_impl; [apply flat_hex_chars|]. intros b Hb. unfold is_hex_char in Hb. by destruct b. }
  destruct (session_row_printed _ _ now Hs (utf8_ascii _ Hi)) as [row Hr]. unfold session_append. rewrite Hr.
  destruct (session_line _ _ _) as [line|]; [|done]. by destruct (append_line _ _ _).
Qed.

(** A session that was recorded is in the log, and is never recorded again,
    neither by this server nor by one started on the same directory later. *)
Theorem session_recorded_once (w w' : W) (s s' : Server) (nonce hex ip : bytes) (now : Z) :
  complete_log (default [] (px_read w (sessions_path_ s))) ->
  sessions_path_ s = sessions_path_ (new_server w (config s)) ->
  length nonce = kNonceSize -> is_word 64 now ->
  hex ∉ logged_sessions_ s -> record_session w s (Some nonce) now hex ip = (w', s') ->
  hex ∈ logged_sessions_ s' ->
  server_load_sessions w' s' ∅ !! hex = Some {| si_ip := ip; si_created := now |} /\
  (forall rng later ip', record_session w' s' rng later hex ip' = (w', s')) /\
  (forall rng later ip', let restarted := new_server w' (config s') in
     record_session w' restarted rng later hex ip' = (w', restarted)).
Proof.
  intros Hlog Hpath Hn Hnow Hnew Hr Hin. unfold record_session in Hr.
  rewrite bool_decide_eq_false_2 in Hr by done.
  destruct (session_append w _ _ _ _ _ _) as [w1 [[|]|]] eqn:Ea; [|by injection Hr as <- <-..].
  injection Hr as <- <-. pose proof Ea as Hrow.
  eapply (session_append_row _ _ _ _ _ _ _ _ ∅) in Hrow as [Hload _]; try done.
  assert (Hget : server_load_sessions w1 (with_logged s hex) ∅ !! hex =
    Some {| si_ip := ip; si_created := now |}).
  { unfold server_load_sessions. cbn. by rewrite Hload, lookup_insert_eq. }
  split; [done|]. split.
  - intros rng later ip'. unfold record_session. by rewrite bool_decide_eq_true_2.
  - intros rng later ip' restarted. unfold record_session. rewrite bool_decide_eq_true_2; [done|].
    unfold restarted. cbn [new_server logged_sessions_]. apply elem_of_dom. eexists.
    unfold server_load_sessions in Hget. cbn in Hget. rewrite Hpath in Hget. exact Hget.
Qed.
End Server.

(** ** A concrete server *)

Definition small_config : ServerConfig :=
  {| cfg_key := str "k"; cfg_root := path_of_string (str "/srv"); channel_high_water := 16;
     channel_low_water := 4 |}.

Definition id1 : bytes := repeat x01 16.
Definition id2 : bytes := repeat x02 16.
Definition server0 : Server := new_server no_files small_config.
Definition server1 : Server := (get_or_create_sink empty_fs server0 id1).1.2.
Definition server2 : Server := (get_or_create_sink empty_fs server1 id2).1.2.

Lemma sink_is_shared_witness :
  (id2 = id1 -> empty_fs = empty_fs /\ server2 = server1 /\
     Some (session_id_to_hex id2) = Some (session_id_to_hex id1)) /\
  (id2 <> id1 -> Some (session_id_to_hex id2) <> Some (session_id_to_hex id1) /\
     sinks_ server2 !! session_id_to_hex id1 = sinks_ server1 !! session_id_to_hex id1).
Proof.
  apply (sink_is_shared empty_fs empty_fs empty_fs server0 server1 server2 id1 id2
    (session_id_to_hex id1) (Some (session_id_to_hex id2))); by vm_compute.
Defined.

Definition recorded : MemPosix * Server :=
  record_session no_files server0 (Some nonce0) 7 (str "ab") (str "1.2").

Lemma session_recorded_once_witness :
  server_load_sessions recorded.1 recorded.2 ∅ !! str "ab" = Some {| si_ip := str "1.2"; si_created := 7 |} /\
  (forall rng later ip', record_session recorded.1 recorded.2 rng later (str "ab") ip' = (recorded.1, recorded.2)) /\
  (forall rng later ip', let restarted := new_server recorded.1 (config server0) in
     record_session recorded.1 restarted rng later (str "ab") ip' = (recorded.1, restarted)).
Proof.
  apply (session_recorded_once no_files recorded.1 server0 recorded.2 nonce0 (str "ab") (str "1.2") 7);
    [by left|reflexivity|reflexivity|unfold is_word; lia| |apply surjective_pairing|].
  - apply (bool_decide_unpack _). vm_compute. exact I.
  - apply (bool_decide_unpack _). vm_compute. exact I.
Defined.
