(* ===== verification/DbTool.v ===== *)
(** * DbTool: the token tool ([server/dbtool.cxx])

    The command line, its four commands over [Db], and what they mean for a
    server that runs on the same directory with the same key. Standard output
    is modelled, the messages on standard error are not. *)

From S2P Require Import Prelude Text PosixPath Db Server.

(** ** The command line *)

Record ToolArgs := { ta_root : bytes; ta_key : bytes; positional : list bytes }.

Definition with_root (a : ToolArgs) (v : bytes) : ToolArgs :=
  {| ta_root := v; ta_key := ta_key a; positional := positional a |}.
Definition with_key (a : ToolArgs) (v : bytes) : ToolArgs :=
  {| ta_root := ta_root a; ta_key := v; positional := positional a |}.
Definition with_positional (a : ToolArgs) (v : bytes) : ToolArgs :=
  {| ta_root := ta_root a; ta_key := ta_key a; positional := positional a ++ [v] |}.

(** The loop over [argv]; [None]: an unknown or incomplete argument. *)
Fixpoint tool_loop (args : list bytes) (a : ToolArgs) : option ToolArgs :=
  match args with
  | [] => Some a
  | arg :: rest =>
      let other := if bool_decide (head arg = Some x2d) then None else tool_loop rest (with_positional a arg) in
      match rest with
      | v :: rest' =>
          if bool_decide (arg = str "--root") then tool_loop rest' (with_root a v)
          else if bool_decide (arg = str "--key") then tool_loop rest' (with_key a v)
          else other
      | [] => other
      end
  end.

(** [env] is [DICKER_KEY]. *)
Definition tool_args (env : option bytes) (args : list bytes) : option ToolArgs :=
  match tool_loop args {| ta_root := []; ta_key := []; positional := [] |} with
  | None => None
  | Some a =>
      let a := match ta_key a, env with [], Some key => with_key a key | _, _ => a end in
      if bool_decide (ta_root a = []) || bool_decide (ta_key a = []) || bool_decide (positional a = [])
      then None else Some a
  end.

(** ** The commands *)

Section Tool.
Context {W : Type} {Px : PosixOps W} {Gcm : GcmLib} {Json : JsonLib}.

(** The directory [write_file_atomic] syncs. *)
Definition sync_dir (path : bytes) : bytes :=
  match path_string (parent_path (path_of_string path)) with [] => [x2e] | dir => dir end.

(** [printf] of [%s] stops at a NUL. *)
Definition session_text (entry : bytes * SessionInfo) : bytes :=
  c_str entry.1 ++ [tab] ++ c_str (si_ip entry.2) ++ [tab] ++ to_string (si_created entry.2) ++ [LF].

Definition token_text (token : bytes) : bytes := c_str token ++ [LF].

(** [main]: the files it leaves, what it prints and its exit code. *)
Definition dbtool_main (w : W) (env : option bytes) (args : list bytes) (pid : Z) (rng : option bytes) :
    option (W * bytes * Z) :=
  match tool_args env args with
  | None => Some (w, [], 1)
  | Some a =>
      let root_path := path_of_string (ta_root a) in
      let tokens_path := under_root root_path (str ".dicker-tokens.json") in
      let sessions_path := under_root root_path (str ".dicker-sessions.jsonl") in
      let silent r := match r with Some (w, code) => Some (w, [], code) | None => None end in
      match positional a with
      | [] => Some (w, [], 1)
      | command :: rest =>
          if bool_decide (command = str "sessions") then
            Some (w, concat (map session_text (in_key_order (load_all w sessions_path (ta_key a) ∅))), 0)
          else if negb (tokens_load w tokens_path (ta_key a)).2 then Some (w, [], 1)
          else if bool_decide (command = str "list-tokens") then
            Some (w, concat (map token_text (tokens_load w tokens_path (ta_key a)).1), 0)
          else if bool_decide (command = str "add-token") then
            match rest with
            | [] => Some (w, [], 1)
            | token :: _ => silent (add_token w tokens_path (sync_dir tokens_path) (ta_key a) pid rng token)
            end
          else if bool_decide (command = str "del-token") then
            match rest with
            | [] => Some (w, [], 1)
            | token :: _ => silent (del_token w tokens_path (sync_dir tokens_path) (ta_key a) pid rng token)
            end
          else Some (w, [], 1)
      end
  end.
End Tool.

(** ** What the tool does to the store *)

Section Store.
Context {W : Type} {Px : PosixOps W} {Pl : PosixLaws W}.
Context {Gcm : GcmLib} {Gl : GcmLaws} {Json : JsonLib}.

Lemma tokens_save_ok w path parent key pid rng tokens : exists w' saved,
  tokens_save w path parent key pid rng tokens = Some (w', saved) /\
  (forall q, q <> path -> q <> tmp_path path pid -> px_read w' q = px_read w q) /\
  (saved <> Some true -> px_read w' path = px_read w path).
Proof.
  unfold tokens_save. destruct (tokens_to_json tokens) as [text|]; [|by exists w, None].
  destruct (gcm_seal _ _ _) as [sealed|]; [|by exists w, (Some false)].
  destruct (write_file_atomic_ok w path parent pid sealed) as (w' & ok & E & Hp & Hq).
  exists w', (Some ok). rewrite E. split; [done|]. split; [done|]. destruct ok; [by intros []|done].
Qed.

(** What a change to the store may do: it returns, touches the store and its
    temporary file only, and on failure the store is as before. *)
Definition guarded (w : W) (path : bytes) (pid : Z) (r : option (W * Z)) : Prop :=
  exists w' code, r = Some (w', code) /\
    (forall q, q <> path -> q <> tmp_path path pid -> px_read w' q = px_read w q) /\
    (code <> 0 -> px_read w' path = px_read w path).

Lemma guarded_same w path pid code : guarded w path pid (Some (w, code)).
Proof. by exists w, code. Qed.

Lemma guarded_save w path parent key pid rng tokens :
  guarded w path pid (match tokens_save w path parent key pid rng tokens with
                      | None => None
                      | Some (w, saved) => Some (w, save_code saved)
                      end).
Proof.
  destruct (tokens_save_ok w path parent key pid rng tokens) as (w' & saved & -> & Hq & Hp).
  exists w', (save_code saved). split; [done|]. split; [done|]. destruct saved as [[|]|]; auto.
Qed.

Lemma add_token_guarded w path parent key pid rng token : guarded w path pid (add_token w path parent key pid rng token).
Proof.
  unfold add_token. destruct (tokens_load w path key) as [ts [|]]; [|apply guarded_same].
  case_bool_decide; [apply guarded_same|apply guarded_save].
Qed.

Lemma del_token_guarded w path parent key pid rng token : guarded w path pid (del_token w path parent key pid rng token).
Proof.
  unfold del_token. destruct (tokens_load w path key) as [ts [|]]; [|apply guarded_same].
  destruct (_ =? _)%nat; [apply guarded_same|apply guarded_save].
Qed.

(** The store of a directory. *)
Definition store_path (root : bytes) : bytes := under_root (path_of_string root) (str ".dicker-tokens.json").

(** What a command leaves: nothing but the store and its temporary file is
    touched, and a failure leaves the store. *)
Definition kept_store (w w' : W) (path : bytes) (pid code : Z) : Prop :=
  (forall q, q <> path -> q <> tmp_path path pid -> px_read w' q = px_read w q) /\
  (code <> 0 -> px_read w' path = px_read w path).

Lemma silent_kept w path pid r : guarded w path pid r ->
  exists w' (out : bytes) code, match r with Some (w, code) => Some (w, [], code) | None => None end = Some (w', out, code) /\
    kept_store w w' path pid code.
Proof. intros (w' & code & -> & H). by exists w', [], code. Qed.

Lemma same_kept w path pid (out : bytes) code :
  exists w' out' code', Some (w, out, code) = Some (w', out', code') /\ kept_store w w' path pid code'.
Proof. by exists w, out, code. Qed.

(** Whatever the command line, the tool ends; it touches no file but the
    token store below its root and that store's temporary file, and unless it
    exits with 0 the store is what it was. *)
Theorem dbtool_keeps_store (w : W) (env rng : option bytes) (args : list bytes) (pid : Z) :
  exists w' out code, dbtool_main w env args pid rng = Some (w', out, code) /\
    match tool_args env args with
    | None => w' = w /\ code = 1
    | Some a => kept_store w w' (store_path (ta_root a)) pid code
    end.
Proof.
  unfold dbtool_main. destruct (tool_args env args) as [a|]; [|by exists w, [], 1].
  fold (store_path (ta_root a)). destruct (positional a) as [|command rest]; [apply same_kept|].
  repeat case_bool_decide; try (destruct (negb _)); try apply same_kept; destruct rest as [|token rest];
    try apply same_kept; apply silent_kept; [apply add_token_guarded|apply del_token_guarded].
Qed.

(** C32: the tool decides whom a server lets in that runs on the same directory
    with the same key, and was started before or after. A successful
    [add-token] adds exactly its token to what the server accepts, a successful
    [del-token] takes exactly its token away, and [list-tokens] changes nothing
    and prints one line for every accepted token. *)
Theorem dbtool_governs_server (w w' : W) (s : Server) (env : option bytes) (args : list bytes)
    (a : ToolArgs) (pid : Z) (nonce out other : bytes) :
  tool_args env args = Some a ->
  cfg_key (config s) = ta_key a -> tokens_path_ s = store_path (ta_root a) ->
  length nonce = kNonceSize ->
  dbtool_main w env args pid (Some nonce) = Some (w', out, 0) ->
  (forall token more, positional a = str "add-token" :: token :: more ->
     server_verify_token w' s other = true <-> other = token \/ server_verify_token w s other = true) /\
  (forall token more, positional a = str "del-token" :: token :: more ->
     server_verify_token w' s other = true <-> other <> token /\ server_verify_token w s other = true) /\
  (forall more, positional a = str "list-tokens" :: more ->
     w' = w /\ exists ts, out = concat (map token_text ts) /\
       (other ∈ ts <-> server_verify_token w s other = true)).
Proof.
  intros Ha Hk Hp Hn. unfold dbtool_main. rewrite Ha. fold (store_path (ta_root a)).
  unfold server_verify_token. rewrite Hk. rewrite Hp. set (path := store_path (ta_root a)) in *.
  assert (Hload : (tokens_load w path (ta_key a)).2 = true ->
    tokens_load w path (ta_key a) = ((tokens_load w path (ta_key a)).1, true)).
  { destruct (tokens_load w path (ta_key a)) as [ts ok]. by intros [= ->]. }
  intros Hm. split; [|split].
  - intros token more E. rewrite E in Hm. repeat (rewrite bool_decide_eq_false_2 in Hm by done).
    destruct (negb _); [done|]. rewrite bool_decide_eq_true_2 in Hm by done.
    destruct (add_token _ _ _ _ _ _ _) as [[w1 code]|] eqn:Et; [|done]. injection Hm as -> <- ->.
    by eapply add_token_grants.
  - intros token more E. rewrite E in Hm. repeat (rewrite bool_decide_eq_false_2 in Hm by done).
    destruct (negb _); [done|]. rewrite bool_decide_eq_true_2 in Hm by done.
    destruct (del_token _ _ _ _ _ _ _) as [[w1 code]|] eqn:Et; [|done]. injection Hm as -> <- ->.
    by eapply del_token_revokes.
  - intros more E. rewrite E in Hm. rewrite bool_decide_eq_false_2 in Hm by done.
    destruct (tokens_load w path (ta_key a)).2 eqn:El; [|done]. cbn [negb] in Hm.
    rewrite bool_decide_eq_true_2 in Hm by done. injection Hm as <- <-. split; [done|].
    eexists. split; [done|]. by rewrite (verify_loaded _ _ _ _ other (Hload eq_refl)).
Qed.
End Store.

(** ** A concrete run *)

Definition tool_server : Server :=
  new_server one_token {| cfg_key := str "k"; cfg_root := path_of_string (str "r"); channel_high_water := 16;
                          channel_low_water := 4 |}.

Definition add_args : list bytes := [str "--root"; str "r"; str "add-token"; str "t2"].

Definition after_add : option (MemPosix * bytes * Z) := dbtool_main one_token (Some (str "k")) add_args 9 (Some nonce0).

(** The added token is listed by the next run; an unknown command and an option
    without its value fail. *)
Example tool_runs :
  match after_add with
  | Some (w, out, code) =>
      (out, code) = ([], 0) /\
      match dbtool_main w None [str "--key"; str "k"; str "list-tokens"; str "--root"; str "r"] 10 None with
      | Some (_, out, code) => (out, code) = (str "t1" ++ [LF] ++ str "t2" ++ [LF], 0)
      | None => False
      end
  | None => False
  end /\
  snd <$> dbtool_main one_token (Some (str "k")) [str "--root"; str "r"; str "tokens"] 9 None = Some 1 /\
  snd <$> dbtool_main one_token (Some (str "k")) [str "list-tokens"; str "--root"] 9 None = Some 1.
Proof. vm_compute. done. Qed.

Lemma dbtool_governs_server_witness :
  server_verify_token (default one_token (fst ∘ fst <$> after_add)) tool_server (str "t2") = true <->
  str "t2" = str "t2" \/ server_verify_token one_token tool_server (str "t2") = true.
Proof.
  apply (proj1 (dbtool_governs_server one_token (default one_token (fst ∘ fst <$> after_add)) tool_server
    (Some (str "k")) add_args
    {| ta_root := str "r"; ta_key := str "k"; positional := [str "add-token"; str "t2"] |} 9 nonce0 [] (str "t2")
    ltac:(by vm_compute) ltac:(reflexivity) ltac:(by vm_compute) ltac:(reflexivity)
    ltac:(by vm_compute)) (str "t2") []); reflexivity.
Defined.
