(* ===== verification/ServerMain.v ===== *)
(** * ServerMain: the server's program ([server/main.cxx]) and its life

    The command line, and what a server does between its construction and its
    destruction ([listen], [run], [stop], [on_stop] and the destructor of
    [server/server.cxx]): the states of its two handles under libuv's calls. *)

From S2P Require Import Prelude Text CNum PosixPath Db Server.

(** ** The command line *)

Definition kDefaultPort : Z := 5959.

Record Options := {
  listen_address : bytes;
  o_port : Z;
  o_root : bytes;
  o_key : bytes;
  high_water : Z;
  low_water : Z;
}.

Definition default_options : Options :=
  {| listen_address := str "0.0.0.0"; o_port := kDefaultPort; o_root := []; o_key := [];
     high_water := 8 * 1024 * 1024; low_water := 2 * 1024 * 1024 |}.

Definition set_listen (o : Options) (v : bytes) : Options :=
  {| listen_address := v; o_port := o_port o; o_root := o_root o; o_key := o_key o;
     high_water := high_water o; low_water := low_water o |}.
Definition set_port (o : Options) (v : Z) : Options :=
  {| listen_address := listen_address o; o_port := v; o_root := o_root o; o_key := o_key o;
     high_water := high_water o; low_water := low_water o |}.
Definition set_root (o : Options) (v : bytes) : Options :=
  {| listen_address := listen_address o; o_port := o_port o; o_root := v; o_key := o_key o;
     high_water := high_water o; low_water := low_water o |}.
Definition set_key (o : Options) (v : bytes) : Options :=
  {| listen_address := listen_address o; o_port := o_port o; o_root := o_root o; o_key := v;
     high_water := high_water o; low_water := low_water o |}.
Definition set_high (o : Options) (v : Z) : Options :=
  {| listen_address := listen_address o; o_port := o_port o; o_root := o_root o; o_key := o_key o;
     high_water := v; low_water := low_water o |}.
Definition set_low (o : Options) (v : Z) : Options :=
  {| listen_address := listen_address o; o_port := o_port o; o_root := o_root o; o_key := o_key o;
     high_water := high_water o; low_water := v |}.

Inductive Complaint := BadArgument (arg : bytes) | MissingRoot | MissingKey.

(** The loop over [argv]. *)
Fixpoint option_loop (args : list bytes) (o : Options) : parsed Options Complaint :=
  match args with
  | [] => Parsed o
  | argument :: [] => Refused (BadArgument argument)
  | argument :: v :: rest =>
      if bool_decide (argument = str "--listen") then option_loop rest (set_listen o v)
      else if bool_decide (argument = str "--port") then
        match atoi v with Some n => option_loop rest (set_port o n) | None => Overflow end
      else if bool_decide (argument = str "--root") then option_loop rest (set_root o v)
      else if bool_decide (argument = str "--key") then option_loop rest (set_key o v)
      else if bool_decide (argument = str "--high-water") then option_loop rest (set_high o (strtoul v))
      else if bool_decide (argument = str "--low-water") then option_loop rest (set_low o (strtoul v))
      else Refused (BadArgument argument)
  end.

(** [env] is [DICKER_KEY]. *)
Definition parse_options (env : option bytes) (args : list bytes) : parsed Options Complaint :=
  match option_loop args default_options with
  | Parsed o =>
      let o := match o_key o, env with [], Some key => set_key o key | _, _ => o end in
      if bool_decide (o_root o = []) then Refused MissingRoot
      else if bool_decide (o_key o = []) then Refused MissingKey
      else Parsed o
  | r => r
  end.

Definition config_of (o : Options) : ServerConfig :=
  {| cfg_key := o_key o; cfg_root := path_of_string (o_root o);
     channel_high_water := Z.to_nat (high_water o); channel_low_water := Z.to_nat (low_water o) |}.

(** ** Handles *)

Inductive HandleState := HandleUnused | HandleOpen | HandleClosing | HandleClosed.

#[global] Instance handle_state_dec : EqDecision HandleState.
Proof. solve_decision. Defined.

Definition uv_is_closing (h : HandleState) : bool :=
  match h with HandleClosing | HandleClosed => true | _ => false end.

(** libuv asserts that a handle is closed once, and not before it is in use. *)
Definition uv_close (h : HandleState) : option HandleState :=
  match h with HandleOpen => Some HandleClosing | _ => None end.

Inductive Phase := Constructed | Running | Returned | Destroyed.

(** [sent]: [uv_async_send] was called and its callback has not run since;
    [stopped]: [uv_stop] was called. *)
Record Life := {
  phase : Phase;
  stop_async_ : HandleState;
  tcp_server_ : HandleState;
  tcp_initialized_ : bool;
  listening : bool;
  sent : bool;
  stopped : bool;
  accepted : nat;
}.

(** What [Server::Server] does to the loop. *)
Definition new_life : Life :=
  {| phase := Constructed; stop_async_ := HandleOpen; tcp_server_ := HandleUnused; tcp_initialized_ := false;
     listening := false; sent := false; stopped := false; accepted := 0 |}.

Definition with_phase (s : Life) (p : Phase) : Life :=
  {| phase := p; stop_async_ := stop_async_ s; tcp_server_ := tcp_server_ s; tcp_initialized_ := tcp_initialized_ s;
     listening := listening s; sent := sent s; stopped := stopped s; accepted := accepted s |}.
Definition with_handles (s : Life) (a t : HandleState) : Life :=
  {| phase := phase s; stop_async_ := a; tcp_server_ := t; tcp_initialized_ := tcp_initialized_ s;
     listening := listening s; sent := sent s; stopped := stopped s; accepted := accepted s |}.
Definition with_sent (s : Life) (b : bool) : Life :=
  {| phase := phase s; stop_async_ := stop_async_ s; tcp_server_ := tcp_server_ s; tcp_initialized_ := tcp_initialized_ s;
     listening := listening s; sent := b; stopped := stopped s; accepted := accepted s |}.
Definition with_stopped (s : Life) (b : bool) : Life :=
  {| phase := phase s; stop_async_ := stop_async_ s; tcp_server_ := tcp_server_ s; tcp_initialized_ := tcp_initialized_ s;
     listening := listening s; sent := sent s; stopped := b; accepted := accepted s |}.
Definition with_accepted (s : Life) (n : nat) : Life :=
  {| phase := phase s; stop_async_ := stop_async_ s; tcp_server_ := tcp_server_ s; tcp_initialized_ := tcp_initialized_ s;
     listening := listening s; sent := sent s; stopped := stopped s; accepted := n |}.

(** The codes of [uv_tcp_init], [uv_ip4_addr], [uv_tcp_bind] and [uv_listen]. *)
Record ListenCodes := { rc_init : Z; rc_addr : Z; rc_bind : Z; rc_listen : Z }.

Definition listen (s : Life) (rc : ListenCodes) : Life * bool :=
  if negb (rc_init rc =? 0) then (s, false)
  else
    let s := {| phase := phase s; stop_async_ := stop_async_ s; tcp_server_ := HandleOpen; tcp_initialized_ := true;
                listening := false; sent := sent s; stopped := stopped s; accepted := accepted s |} in
    if negb (rc_addr rc =? 0) then (s, false)
    else if negb (rc_bind rc =? 0) then (s, false)
    else if negb (rc_listen rc =? 0) then (s, false)
    else
      ({| phase := phase s; stop_async_ := stop_async_ s; tcp_server_ := tcp_server_ s;
          tcp_initialized_ := tcp_initialized_ s; listening := true; sent := sent s; stopped := stopped s;
          accepted := accepted s |}, true).

(** [Server::stop]. *)
Definition stop (s : Life) : Life := with_sent s true.

Definition on_stop (s : Life) : option Life :=
  tcp ← (if tcp_initialized_ s && negb (uv_is_closing (tcp_server_ s)) then uv_close (tcp_server_ s)
         else Some (tcp_server_ s));
  async ← uv_close (stop_async_ s);
  Some (with_stopped (with_handles s async tcp) true).

(** [Connection::accept] is called for every connection without an error. *)
Definition on_new_connection (s : Life) (status : Z) : Life :=
  if negb (status =? 0) then s else with_accepted s (S (accepted s)).

(** What an iteration of the loop makes of a handle that is closing. *)
Definition closed (h : HandleState) : HandleState :=
  match h with HandleClosing => HandleClosed | h => h end.

(** [Server::~Server]; the loop is run once more for the close callbacks. *)
Definition destroy (s : Life) : option Life :=
  async ← (if uv_is_closing (stop_async_ s) then Some (stop_async_ s) else uv_close (stop_async_ s));
  tcp ← (if tcp_initialized_ s && negb (uv_is_closing (tcp_server_ s)) then uv_close (tcp_server_ s)
         else Some (tcp_server_ s));
  Some (with_phase (with_handles s (closed async) (closed tcp)) Destroyed).

(** ** What can happen *)

(** The program calls [listen] once, then [run] if it likes; [stop] comes from
    any thread. An async's callback runs only while its handle is open, a
    listener's only while it listens, and [uv_run] returns when [uv_stop] was
    called and the close callbacks of the iteration have run; the open async
    keeps the loop alive until then. *)
Inductive life_step : Life -> Life -> Prop :=
  | life_listen s rc : phase s = Constructed -> tcp_initialized_ s = false -> life_step s (listen s rc).1
  | life_run s : phase s = Constructed -> life_step s (with_phase s Running)
  | life_stop s : phase s <> Destroyed -> life_step s (stop s)
  | life_on_stop s s' : phase s = Running -> sent s = true -> stop_async_ s = HandleOpen ->
      on_stop (with_sent s false) = Some s' -> life_step s s'
  | life_connection s status : phase s = Running -> listening s = true -> tcp_server_ s = HandleOpen ->
      life_step s (on_new_connection s status)
  | life_closed s : phase s = Running ->
      life_step s (with_handles s (closed (stop_async_ s)) (closed (tcp_server_ s)))
  | life_return s : phase s = Running -> stopped s = true ->
      stop_async_ s <> HandleClosing -> tcp_server_ s <> HandleClosing ->
      life_step s (with_stopped (with_phase s Returned) false)
  | life_destroy s s' : phase s = Constructed \/ phase s = Returned -> destroy s = Some s' -> life_step s s'.

(** [main]: the exit code, or the server that was started. *)
Inductive main_result := Exit (code : Z) | Started (config : ServerConfig) (s : Life) | Undefined.

Definition server_main (env : option bytes) (args : list bytes) (rc : ListenCodes) : main_result :=
  match parse_options env args with
  | Refused _ => Exit 1
  | Overflow => Undefined
  | Parsed o =>
      match listen new_life rc with
      | (_, false) => Exit 1
      | (s, true) => Started (config_of o) (with_phase s Running)
      end
  end.

(** One iteration of [uv_run] without new connections: the async's callback if
    it is due, the close callbacks, and the test of the stop flag. *)
Definition iteration (s : Life) : option Life :=
  s ← (if sent s && bool_decide (stop_async_ s = HandleOpen) then on_stop (with_sent s false) else Some s);
  let s := with_handles s (closed (stop_async_ s)) (closed (tcp_server_ s)) in
  Some (if stopped s then with_stopped (with_phase s Returned) false else s).

(** ** Handles are closed once *)

(** A handle that is gone for good, or never was. *)
Definition gone (h : HandleState) : Prop := h = HandleUnused \/ h = HandleClosed.

Definition goneb (h : HandleState) : bool := match h with HandleUnused | HandleClosed => true | _ => false end.
Definition is_open (h : HandleState) : bool := match h with HandleOpen => true | _ => false end.
Definition is_used (h : HandleState) : bool := match h with HandleUnused => false | _ => true end.

(** The flag says whether the listener was initialised; while the async is open
    nothing is closing and nobody has called [uv_stop], afterwards the listener
    is not open either; before [run] the async is open, and when [run] has
    returned both handles are gone. *)
Definition life_inv (s : Life) : bool :=
  is_used (stop_async_ s) && Bool.eqb (tcp_initialized_ s) (is_used (tcp_server_ s)) &&
  implb (listening s) (tcp_initialized_ s) &&
  (if is_open (stop_async_ s) then negb (uv_is_closing (tcp_server_ s)) && negb (stopped s)
   else negb (is_open (tcp_server_ s))) &&
  match phase s with
  | Constructed => is_open (stop_async_ s)
  | Running => is_open (stop_async_ s) || stopped s
  | Returned | Destroyed => goneb (stop_async_ s) && goneb (tcp_server_ s)
  end.

(** Every combination of phase, handles and flags. *)
Ltac life_cases s :=
  destruct s as [p a t i l b x n]; destruct p, a, t, i, l, x; cbn in *; try discriminate; try congruence.

Lemma on_stop_ok s : life_inv s = true -> stop_async_ s = HandleOpen ->
  on_stop s = Some (with_stopped (with_handles s HandleClosing
    (if tcp_initialized_ s then HandleClosing else HandleUnused)) true).
Proof. intros Hi Ha. life_cases s; reflexivity. Qed.

Lemma destroy_ok s : life_inv s = true ->
  exists s', destroy s = Some s' /\ life_inv s' = true.
Proof. intros Hi. life_cases s; eexists; split; reflexivity. Qed.

Lemma at_end s : life_inv s = true -> phase s = Returned \/ phase s = Destroyed ->
  stop_async_ s = HandleClosed /\ gone (tcp_server_ s).
Proof. unfold gone. intros Hi [Hp|Hp]; life_cases s; auto. Qed.

Lemma life_step_inv s s' : life_inv s = true -> life_step s s' -> life_inv s' = true.
Proof.
  intros Hi Hs. destruct Hs as [s rc Hp Ht|s Hp|s Hp|s s' Hp Hs Ha E|s status Hp Hl Ht|s Hp|s Hp Hst Ha Ht|s s' Hp E].
  - unfold listen. repeat destruct (negb _); life_cases s; reflexivity.
  - life_cases s; reflexivity.
  - life_cases s; reflexivity.
  - rewrite on_stop_ok in E; [|done..]. injection E as <-. life_cases s; reflexivity.
  - unfold on_new_connection. by destruct (negb _).
  - life_cases s; reflexivity.
  - life_cases s; reflexivity.
  - destruct (destroy_ok s Hi) as (s1 & E1 & H1). congruence.
Qed.

Lemma life_inv_reachable s : rtc life_step new_life s -> life_inv s = true.
Proof.
  intros Hr. assert (H : life_inv new_life = true) by done. revert H.
  induction Hr as [|s1 s2 s3 Hs _ IH]; [done|]. intros H. apply IH. by apply (life_step_inv s1).
Qed.

(** The end of an iteration after [uv_stop]. *)
Lemma iteration_returns s : life_inv s = true -> phase s = Running -> stopped s = true ->
  exists s', with_stopped (with_phase (with_handles s (closed (stop_async_ s)) (closed (tcp_server_ s))) Returned) false = s' /\
    rtc life_step s s' /\ phase s' = Returned /\ stop_async_ s' = HandleClosed /\ gone (tcp_server_ s').
Proof.
  intros Hi Hp Hst. set (s2 := with_handles s _ _). assert (H2 : life_step s s2) by by constructor.
  assert (H3 : life_step s2 (with_stopped (with_phase s2 Returned) false)).
  { constructor; [done|done|..]; subst s2; cbn; by destruct (stop_async_ s), (tcp_server_ s). }
  pose proof (life_step_inv _ _ (life_step_inv _ _ Hi H2) H3) as H4.
  eexists. split; [done|]. split; [by eapply rtc_l, rtc_once|]. split; [done|]. apply (at_end _ H4). by left.
Qed.

(** C39: the life of a server. On every reachable state the calls its methods
    make are legal: [on_stop], whenever libuv may call it, and the destructor
    close no handle twice and none that was not in use. After the destructor
    both handles are closed, as far as they were ever opened. And [stop] ends
    [run]: the next iteration of the loop closes both handles and is its last. *)
Theorem server_life (s : Life) : rtc life_step new_life s ->
  (stop_async_ s = HandleOpen -> is_Some (on_stop (with_sent s false))) /\
  is_Some (destroy s) /\
  (phase s = Destroyed -> stop_async_ s = HandleClosed /\ gone (tcp_server_ s)) /\
  (phase s = Running -> sent s = true ->
     exists s', iteration s = Some s' /\ rtc life_step s s' /\ phase s' = Returned /\
       stop_async_ s' = HandleClosed /\ gone (tcp_server_ s')).
Proof.
  intros Hr. pose proof (life_inv_reachable s Hr) as Hi. split; [|split; [|split]].
  - intros Ha. by rewrite on_stop_ok.
  - by destruct (destroy_ok s Hi) as (s' & -> & _).
  - intros Hp. apply at_end; auto.
  - intros Hp Hsent. unfold iteration. rewrite Hsent. cbn [andb]. case_bool_decide as Ha.
    + pose proof (on_stop_ok (with_sent s false) Hi Ha) as E. rewrite E. cbn [mbind option_bind].
      pose proof (life_on_stop s _ Hp Hsent Ha E) as Hs.
      destruct (iteration_returns _ (life_step_inv _ _ Hi Hs) Hp eq_refl) as (s' & <- & Hr' & H).
      eexists. split; [reflexivity|]. split; [by eapply rtc_l|exact H].
    + assert (Hst : stopped s = true) by (clear Hr; life_cases s).
      cbn [mbind option_bind stopped with_handles]. rewrite Hst.
      destruct (iteration_returns s Hi Hp Hst) as (s' & <- & H). eexists. by split.
Qed.

(** A server that listens, is told to stop while it runs, and is destroyed. *)
Definition all_ok : ListenCodes := {| rc_init := 0; rc_addr := 0; rc_bind := 0; rc_listen := 0 |}.
Definition told : Life := stop (with_phase (listen new_life all_ok).1 Running).

Lemma server_life_witness :
  (stop_async_ told = HandleOpen -> is_Some (on_stop (with_sent told false))) /\
  is_Some (destroy told) /\
  (phase told = Destroyed -> stop_async_ told = HandleClosed /\ gone (tcp_server_ told)) /\
  (phase told = Running -> sent told = true ->
     exists s', iteration told = Some s' /\ rtc life_step told s' /\ phase s' = Returned /\
       stop_async_ s' = HandleClosed /\ gone (tcp_server_ s')).
Proof.
  apply server_life. eapply rtc_l; [by apply (life_listen new_life all_ok)|].
  eapply rtc_l; [by apply life_run|]. apply rtc_once. by apply life_stop.
Defined.

(** ** The options *)

Inductive Setting :=
  | Listen (address : bytes) | Port (n : Z) | RootDir (dir : bytes) | Key (key : bytes)
  | HighWater (n : Z) | LowWater (n : Z).

Definition show_setting (s : Setting) : list bytes :=
  match s with
  | Listen a => [str "--listen"; a]
  | Port n => [str "--port"; to_string n]
  | RootDir d => [str "--root"; d]
  | Key k => [str "--key"; k]
  | HighWater n => [str "--high-water"; to_string n]
  | LowWater n => [str "--low-water"; to_string n]
  end.

Definition apply_setting (o : Options) (s : Setting) : Options :=
  match s with
  | Listen a => set_listen o a
  | Port n => set_port o n
  | RootDir d => set_root o d
  | Key k => set_key o k
  | HighWater n => set_high o n
  | LowWater n => set_low o n
  end.

Definition setting_ok (s : Setting) : Prop :=
  match s with
  | Port n => - 2 ^ 31 <= n < 2 ^ 31
  | HighWater n | LowWater n => is_word 64 n
  | _ => True
  end.

Definition settings_of (o : Options) : list Setting :=
  [Listen (listen_address o); Port (o_port o); RootDir (o_root o); Key (o_key o);
   HighWater (high_water o); LowWater (low_water o)].

Lemma option_loop_shown l : forall o, Forall setting_ok l ->
  option_loop (concat (map show_setting l)) o = Parsed (fold_left apply_setting l o).
Proof.
  induction l as [|s l IH]; intros o Hl; [done|]. apply Forall_cons in Hl as [Hs Hl].
  destruct s; cbn [map concat show_setting app option_loop fold_left apply_setting];
    repeat (rewrite bool_decide_eq_false_2 by done); rewrite bool_decide_eq_true_2 by done;
    rewrite ?atoi_shown, ?strtoul_shown by done; by apply IH.
Qed.

(** Settings of [o] that leave no field out make [o], in whatever order. *)
Lemma fold_settings o l : forall acc,
  Forall (fun s => s ∈ settings_of o) l ->
  Forall (fun s => s ∈ l \/ apply_setting acc s = acc) (settings_of o) -> fold_left apply_setting l acc = o.
Proof.
  induction l as [|s l IH]; intros acc Hl Ha; cbn [fold_left].
  - unfold settings_of in Ha. destruct o as [a p r k h w], acc as [a' p' r' k' h' w'].
    repeat (apply Forall_cons in Ha as [[Hin|E] Ha]; [by apply not_elem_of_nil in Hin|];
      cbn in E; injection E as ->). done.
  - apply Forall_cons in Hl as [Hs Hl]. apply IH; [done|].
    rewrite Forall_forall in Ha |- *. intros s' Hs'. destruct (Ha s' Hs') as [[->|Hin]%elem_of_cons|E]; [|by left|].
    + right. unfold settings_of in Hs. by destruct s.
    + right. unfold settings_of in Hs, Hs'. rewrite !elem_of_cons in Hs, Hs'.
      destruct acc as [a' p' r' k' h' w'].
      destruct Hs as [->|[->|[->|[->|[->|[->|Hs]]]]]]; [..|by apply not_elem_of_nil in Hs];
        (destruct Hs' as [->|[->|[->|[->|[->|[->|Hs']]]]]]; [..|by apply not_elem_of_nil in Hs']);
        cbv in E |- *; congruence.
Qed.

(** The options in any order, with any other valid ones in front of them, are
    read back; the environment does not count, as a key is given. *)
Theorem server_options_round_trip (o : Options) (env : option bytes) (earlier l : list Setting) :
  o_root o <> [] -> o_key o <> [] -> - 2 ^ 31 <= o_port o < 2 ^ 31 ->
  is_word 64 (high_water o) -> is_word 64 (low_water o) ->
  Forall setting_ok earlier -> l ≡ₚ settings_of o ->
  parse_options env (concat (map show_setting (earlier ++ l))) = Parsed o.
Proof.
  intros Hr Hk Hp Hh Hw He Hl. unfold parse_options.
  rewrite option_loop_shown.
  - rewrite fold_left_app, (fold_settings o l).
    + destruct (o_key o) eqn:Ek; [done|]. rewrite Ek.
      by rewrite !bool_decide_eq_false_2.
    + apply Forall_forall. intros s Hs. by rewrite <- Hl.
    + apply Forall_forall. intros s Hs. left. by rewrite Hl.
  - apply Forall_app. split; [done|]. rewrite Hl. unfold settings_of.
    repeat (apply Forall_cons; split; [done|]). by apply Forall_nil.
Qed.

(** What a server is started with: a root, a key, an [int] for a port and two
    64-bit marks. *)
Theorem server_options_typed (env : option bytes) (args : list bytes) (o : Options) :
  parse_options env args = Parsed o ->
  o_root o <> [] /\ o_key o <> [] /\ - 2 ^ 31 <= o_port o < 2 ^ 31 /\
  is_word 64 (high_water o) /\ is_word 64 (low_water o).
Proof.
  set (ranges o := - 2 ^ 31 <= o_port o < 2 ^ 31 /\ is_word 64 (high_water o) /\ is_word 64 (low_water o)).
  assert (Hl : forall n l o o', (length l <= n)%nat -> ranges o -> option_loop l o = Parsed o' -> ranges o').
  { induction n as [|n IH]; intros l o1 o2 Hn Ho; destruct l as [|a [|v l]]; cbn [length] in Hn; try lia;
      cbn [option_loop]; try (intros [= ->]; done); try done.
    assert (Hn' : (length l <= n)%nat) by lia. unfold ranges in Ho |- *.
    repeat case_bool_decide; try done;
      try (destruct (atoi v) as [z|] eqn:Ez; [|done]; apply atoi_int in Ez);
      apply (IH l _ o2 Hn'); unfold ranges; cbn; pose proof (strtoul_word v); tauto. }
  unfold parse_options. destruct (option_loop args default_options) as [o1|?|] eqn:E; [|done..].
  apply (Hl _ _ _ _ (le_n _)) in E; [|by unfold ranges, is_word].
  set (o2 := match o_key o1 with [] => _ | _ => _ end).
  assert (H2 : ranges o2) by (unfold o2; destruct (o_key o1), env; done).
  case_bool_decide as Hr; [done|]. case_bool_decide as Hk; [done|]. intros [= <-].
  unfold ranges in H2. tauto.
Qed.

(** An option without its value, a port that is no [int], and a mark below the
    other one, which is not refused. *)
Example option_edges :
  parse_options (Some (str "k")) [str "--root"; str "/srv"; str "--port"] = Refused (BadArgument (str "--port")) /\
  parse_options (Some (str "k")) [str "--port"; str "2147483648"] = Overflow /\
  parse_options None [str "--root"; str "/srv"] = Refused MissingKey /\
  parse_options (Some (str "k")) [str "--root"; str "r"; str "--high-water"; str "1"] =
    Parsed {| listen_address := str "0.0.0.0"; o_port := 5959; o_root := str "r"; o_key := str "k";
              high_water := 1; low_water := 2097152 |}.
Proof. vm_compute. done. Qed.
