(* ===== verification/Connection.v ===== *)
(** * Connection: the life of a server connection ([server/connection.cxx], [server/tls_layer.cxx])

    The loop thread's side: sniffing the preamble, the handshake, HTTP, the
    writes and their completions, and the teardown that ends in [delete]. The
    consumer thread's body is in [Upload]; here it is a thread that posts,
    asks for a resume and ends. Every handler is one function on the
    connection; libuv calls them in any order its contract allows, which is the
    step relation. *)

From coqutil Require Import Datatypes.RecordSetters.
From stdpp Require Import sorting.
From S2P Require Import Prelude Text Wire Protocol Handshake ByteChannel PosixPath FileSink Http Db Router Server.
Import TriangleBracketNotations.
Open Scope record_set.

(** ** What the handlers call *)

(** wolfSSL over the in-memory buffers: from the inbound bytes it is offered, a
    call takes some, puts ciphertext out, and gives a result. [ssl_calls]
    bounds the calls that a number of inbound bytes keeps it busy for. *)
Inductive ssl_result := SslOk | WantRead | WantWrite | SslError.

Class SslLib (S : Type) := {
  ssl_init : S -> S * bool;
  ssl_accept : S -> bytes -> S * nat * bytes * ssl_result;
  ssl_read : S -> bytes -> S * nat * bytes * bytes * ssl_result;   (** ..., out, plain text *)
  ssl_write : S -> bytes -> S * bytes * bool;
  ssl_calls : S -> nat -> nat;
}.

(** [ArchiveStreamer]. *)
Class DownloadOps (D : Type) := {
  dl_begin : bytes -> bytes -> option D;      (** directory, prefix *)
  dl_next : D -> D * bytes * bool;
  dl_ok : D -> bool;
}.

(** [uv_write] on an open handle: whether it was accepted. *)
Class UvLib (U : Type) := { uv_write : U -> bytes -> U * bool }.

(** ** State *)

Inductive State := Handshaking | Streaming | Closing.
Inductive Handle := Tcp | ResumeAsync | CloseAsync | OutboxAsync.

#[global] Instance state_eq_dec : EqDecision State.
Proof. solve_decision. Defined.
#[global] Instance handle_eq_dec : EqDecision Handle.
Proof. solve_decision. Defined.

(** The three request structures of pending writes. *)
Inductive Write :=
  | ReplyWrite (teardown_after : bool)
  | TlsWrite (teardown_after : bool)
  | DownloadWrite.

Inductive ConnEvent :=
  | ClientConnected (session : bytes) (algo : option CompressionAlgo) (integrity tls : bool)
  | ClientDisconnected (session : bytes).

Record TlsLayer (S : Type) := mkTls {
  ssl : S;
  in_buf : bytes;
  in_pos : nat;
  out_buf : bytes;
  handshake_done : bool;
}.
Arguments ssl {S}. Arguments in_buf {S}. Arguments in_pos {S}. Arguments out_buf {S}.
Arguments handshake_done {S}. Arguments mkTls {S}.

(** The members of [Connection]; then the state of libuv and of the thread: the
    environment of [uv_write], the writes it has accepted and not completed,
    everything ever written, the handles being closed and closed, the pending
    [uv_async_send]s, whether the consumer runs, and whether [delete] was done;
    and as history the bytes [handle_data] has been given, plain or decrypted. *)
Record Connection (W S D U : Type) := mkConn {
  server_ : Server;
  world_ : W;
  outbox_ : bytes;
  state_ : State;
  handshake_buffer_ : bytes;
  tls_ : TlsLayer S;
  tls_detected_ : bool;
  tls_active_ : bool;
  proto_decided_ : bool;
  http_mode_ : bool;
  http_done_ : bool;
  download_ : option D;
  download_last_ : bool;
  channel_ : ByteChannel;
  algo_ : option CompressionAlgo;
  sink_name_ : option bytes;
  integrity_checks_ : bool;
  protocol_version_ : Z;
  mode_ : Z;
  peer_ : bytes;
  session_hex_ : bytes;
  wire_bytes_ : Z;
  paused_ : bool;
  consumer_started_ : bool;
  teardown_started_ : bool;
  handles_closing_ : bool;
  pending_handle_closes_ : nat;
  uv : U;
  writes : list Write;
  written : list bytes;
  closing : list Handle;
  closed_handles : list Handle;
  resume_sent : bool;
  close_sent : bool;
  outbox_sent : bool;
  consumer_runs : bool;
  deleted : bool;
  events : list ConnEvent;
  handled : bytes;
}.

Arguments server_ {W S D U}. Arguments world_ {W S D U}. Arguments outbox_ {W S D U}.
Arguments state_ {W S D U}. Arguments handshake_buffer_ {W S D U}. Arguments tls_ {W S D U}.
Arguments tls_detected_ {W S D U}. Arguments tls_active_ {W S D U}. Arguments proto_decided_ {W S D U}.
Arguments http_mode_ {W S D U}. Arguments http_done_ {W S D U}. Arguments download_ {W S D U}.
Arguments download_last_ {W S D U}. Arguments channel_ {W S D U}. Arguments algo_ {W S D U}.
Arguments sink_name_ {W S D U}. Arguments integrity_checks_ {W S D U}. Arguments protocol_version_ {W S D U}.
Arguments mode_ {W S D U}. Arguments peer_ {W S D U}. Arguments session_hex_ {W S D U}.
Arguments wire_bytes_ {W S D U}. Arguments paused_ {W S D U}. Arguments consumer_started_ {W S D U}.
Arguments teardown_started_ {W S D U}. Arguments handles_closing_ {W S D U}.
Arguments pending_handle_closes_ {W S D U}. Arguments uv {W S D U}. Arguments writes {W S D U}.
Arguments written {W S D U}. Arguments closing {W S D U}. Arguments closed_handles {W S D U}.
Arguments resume_sent {W S D U}. Arguments close_sent {W S D U}. Arguments outbox_sent {W S D U}.
Arguments consumer_runs {W S D U}. Arguments deleted {W S D U}. Arguments events {W S D U}. Arguments handled {W S D U}.
Arguments mkConn {W S D U}.

Section Connection.
Context {W S D U : Type}.
Context {Fs : FsOps W} {Px : PosixOps W} {Gcm : GcmLib} {Json : JsonLib}.
Context {Ssl : SslLib S} {Dl : DownloadOps D} {Uv : UvLib U}.
Abbreviation Conn := (Connection W S D U).

(** Random bytes, the clock, and whether a directory exists. *)
Variables (rng_of : W -> option bytes) (now_of : W -> Z) (dir_exists : W -> bytes -> bool).

(** ** Teardown *)

(** [uv_is_closing] and [uv_close]. *)
Definition close_handle (h : Handle) (c : Conn) : Conn :=
  if bool_decide (h ∈ closing c) then c
  else c <| pending_handle_closes_ ::= Nat.succ |> <| closing := h :: closing c |>.

Definition finalize_close (c : Conn) : Conn :=
  if handles_closing_ c then c
  else
    let c := c <| handles_closing_ := true |> in
    close_handle OutboxAsync (close_handle CloseAsync (close_handle ResumeAsync (close_handle Tcp c))).

Definition begin_teardown (c : Conn) : Conn :=
  if teardown_started_ c then c
  else
    let c := c <| teardown_started_ := true |> <| state_ := Closing |> in
    if consumer_started_ c then c <| channel_ ::= ByteChannel.close |>
    else finalize_close c.

Definition on_close_async (c : Conn) : Conn :=
  finalize_close (c <| teardown_started_ := true |> <| state_ := Closing |>).

(** ** Writing *)

(** [uv_write]: refused on a closing handle. *)
Definition write_out (w : Write) (data : bytes) (c : Conn) : Conn * bool :=
  if bool_decide (Tcp ∈ closing c) then (c, false)
  else
    let '(u, ok) := uv_write (uv c) data in
    if ok then (c <| uv := u |> <| writes := writes c ++ [w] |> <| written := written c ++ [data] |>, true)
    else (c <| uv := u |>, false).

Definition tls_write (data : bytes) (teardown_after : bool) (c : Conn) : Conn :=
  match write_out (TlsWrite teardown_after) data c with
  | (c, true) => c
  | (c, false) => begin_teardown c
  end.

Definition kTlsChunk : nat := Z.to_nat 16384.

(** [TlsLayer::flush_out]: pieces of at most 16 KiB. *)
Fixpoint flush_pieces (fuel : nat) (out : bytes) (teardown_after : bool) (c : Conn) : Conn :=
  match fuel, out with
  | Datatypes.S fuel, _ :: _ =>
      flush_pieces fuel (drop kTlsChunk out) teardown_after (tls_write (take kTlsChunk out) teardown_after c)
  | _, _ => c
  end.

Definition set_tls (t : TlsLayer S) (c : Conn) : Conn := c <| tls_ := t |>.

Definition flush_out (teardown_after : bool) (c : Conn) : Conn :=
  let out := out_buf (tls_ c) in
  let c := flush_pieces (length out) out teardown_after c in
  c <| tls_ -> out_buf := [] |>.

(** [TlsLayer::send]. *)
Definition tls_send (data : bytes) (teardown_after : bool) (c : Conn) : Conn * bool :=
  let '(s, out, ok) := ssl_write (ssl (tls_ c)) data in
  let c := c <| tls_ -> ssl := s |> <| tls_ -> out_buf := out_buf (tls_ c) ++ out |> in
  if ok then (flush_out teardown_after c, true) else (c, false).

(** [TlsLayer::encrypt]: one [wolfSSL_write] per 16 KiB. *)
Fixpoint encrypt_pieces (fuel : nat) (data : bytes) (t : TlsLayer S) : TlsLayer S * bool :=
  match fuel, data with
  | Datatypes.S fuel, _ :: _ =>
      let '(s, out, ok) := ssl_write (ssl t) (take kTlsChunk data) in
      let t := mkTls s (in_buf t) (in_pos t) (out_buf t ++ out) (handshake_done t) in
      if ok then encrypt_pieces fuel (drop kTlsChunk data) t else (t, false)
  | _, _ => (t, true)
  end.

Definition tls_encrypt (data : bytes) (c : Conn) : Conn * option bytes :=
  match encrypt_pieces (length data) data (tls_ c) with
  | (t, false) => (set_tls t c, None)
  | (t, true) =>
      (set_tls (mkTls (ssl t) (in_buf t) (in_pos t) [] (handshake_done t)) c, Some (out_buf t))
  end.

(** [send_handshake_reply]. *)
Definition send_handshake_reply (status : HandshakeStatus) (c : Conn) : Conn :=
  let data := handshake_reply status (protocol_version_ c) (mode_ c) in
  let rejected := negb (bool_decide (status = Ok)) in
  if tls_active_ c then
    match tls_send data rejected c with
    | (c, true) => c
    | (c, false) => begin_teardown c
    end
  else
    match write_out (ReplyWrite rejected) data c with
    | (c, true) => c
    | (c, false) => begin_teardown c
    end.

(** ** HTTP *)

Definition bearer : bytes := str "Bearer ".

Definition conn_authorized (c : Conn) (request : HttpRequest) : bool :=
  match header request (str "authorization") with
  | None => false
  | Some auth =>
      if (length auth <=? length bearer)%nat || negb (starts_with bearer auth) then false
      else server_verify_token (world_ c) (server_ c) (drop (length bearer) auth)
  end.

Definition conn_send_http_simple (c : Conn) (status : Z) (reason content_type body : bytes)
    (extra : list (bytes * bytes)) : Conn :=
  let headers := extra ++ [(str "Connection", str "close")] in
  let head := http_response_headers status reason content_type (Z.of_nat (length body)) headers in
  let resp := head ++ body in
  if tls_active_ c then
    match tls_encrypt resp c with
    | (c, Some wire) => tls_write wire true c
    | (c, None) => begin_teardown c
    end
  else tls_write resp true c.

(** [pump_download], [download_send] and [download_write] call each other when
    there is nothing to write; [fuel] bounds the archive steps. *)
Fixpoint download_send (fuel : nat) (plain : bytes) (c : Conn) : Conn :=
  let '(c, wire) := if tls_active_ c then tls_encrypt plain c else (c, Some plain) in
  match wire with
  | None => begin_teardown c
  | Some [] =>
      if download_last_ c then begin_teardown c
      else
        match fuel with
        | O => c
        | Datatypes.S fuel =>
            match download_ c with
            | None => begin_teardown c
            | Some d =>
                let '(d, chunk, more) := dl_next d in
                let c := c <| download_ := Some d |> in
                if negb (dl_ok d) then begin_teardown c
                else if bool_decide (chunk = []) then begin_teardown c
                else download_send fuel chunk (c <| download_last_ := negb more |>)
            end
        end
  | Some (b :: bs) =>
      match write_out DownloadWrite (b :: bs) c with
      | (c, true) => c
      | (c, false) => begin_teardown c
      end
  end.

Definition pump_download (fuel : nat) (c : Conn) : Conn :=
  match download_ c with
  | None => begin_teardown c
  | Some d =>
      let '(d, chunk, more) := dl_next d in
      let c := c <| download_ := Some d |> in
      if negb (dl_ok d) then begin_teardown c
      else if bool_decide (chunk = []) then begin_teardown c
      else download_send fuel chunk (c <| download_last_ := negb more |>)
  end.

Definition quoted (s : bytes) : bytes := [quote] ++ s ++ [quote].

(** The head goes out first; the write's completion pumps the archive. A head
    is never empty, so no archive step is taken here. *)
Definition conn_begin_download (c : Conn) (session_id dir_path : bytes) : Conn :=
  match dl_begin dir_path session_id with
  | None =>
      conn_send_http_simple (c <| download_ := None |>) 500 (str "Internal Server Error") text_plain
        (str "archive error" ++ [LF]) []
  | Some d =>
      let disposition := str "attachment; filename=" ++ quoted (session_id ++ str ".tar.zst") in
      let head := http_response_headers 200 (str "OK") (str "application/zstd") (-1)
                    [(str "Content-Disposition", disposition); (str "Connection", str "close")] in
      download_send 0 head (c <| download_ := Some d |> <| download_last_ := false |>)
  end.

#[export] Instance conn_ops : ConnOps Conn := {
  authorized := conn_authorized;
  load_sessions c := in_key_order (server_load_sessions (world_ c) (server_ c) ∅);
  session_dir c id := path_string (session_root (server_ c) id);
  is_directory c d := dir_exists (world_ c) d;
  send_http_simple := conn_send_http_simple;
  begin_download_response := conn_begin_download;
}.
End Connection.

Section Handlers.
Context {W S D U : Type}.
Context {Fs : FsOps W} {Px : PosixOps W} {Gcm : GcmLib} {Json : JsonLib}.
Context {Ssl : SslLib S} {Dl : DownloadOps D} {Uv : UvLib U}.
Abbreviation Conn := (Connection W S D U).
Variables (rng_of : W -> option bytes) (now_of : W -> Z) (dir_exists : W -> bytes -> bool).

(** [server_->router]. *)
Variable router : Router.Router (C := Conn).

#[local] Instance ops : ConnOps Conn := conn_ops dir_exists.

(** ** Incoming bytes *)

Definition kMaxHttpHeaderBytes : nat := Z.to_nat (64 * 1024).

Definition dispatch_http (c : Conn) (request : HttpRequest) : Conn := Router.dispatch router c request.

Definition bad_request (c : Conn) : Conn :=
  send_http_simple (c <| http_done_ := true |>) 400 (str "Bad Request") text_plain (str "bad request" ++ [LF]) [].

Definition handle_http_data (c : Conn) : Conn :=
  if http_done_ c then c
  else
    let header_end := http_header_end (handshake_buffer_ c) in
    if (header_end =? 0)%nat then
      if (kMaxHttpHeaderBytes <? length (handshake_buffer_ c))%nat then bad_request c else c
    else
      match parse_http_request (take header_end (handshake_buffer_ c)) new_request with
      | (_, false) => bad_request c
      | (request, true) => dispatch_http (c <| http_done_ := true |>) request
      end.

(** [Connection::apply_backpressure]: the socket is not read while [paused_]. *)
Definition conn_backpressure (c : Conn) : Conn :=
  if negb (paused_ c) &&
     (channel_high_water (config (server_ c)) <=? buffered_bytes (channel_ c))%nat
  then c <| paused_ := true |>
  else c.

(** The decision of [handle_handshake_data] that is taken once. *)
Definition sniff (c : Conn) : Conn :=
  if proto_decided_ c then c
  else
    let n := Nat.min (length (handshake_buffer_ c)) (length kMagic) in
    if negb (bool_decide (take n (handshake_buffer_ c) = take n kMagic)) then
      c <| proto_decided_ := true |> <| http_mode_ := true |>
    else if (length kMagic <=? length (handshake_buffer_ c))%nat then
      c <| proto_decided_ := true |> <| http_mode_ := false |>
    else c.

(** The client's address up to its last colon. *)
Definition peer_ip (peer : bytes) : bytes :=
  match rfind_char colon peer with Some i => take i peer | None => peer end.

Definition new_handshake : HandshakeRequest :=
  {| version := 0; flags := 0; algo := None; session_id := repeat x00 kSessionIdSize |}.

(** The decompressor and the sink of an accepted request. *)
Definition prepare (request : HandshakeRequest) (c : Conn) : Conn * HandshakeStatus :=
  let decompressor := bool_decide (algo request = Some Lz4) || bool_decide (algo request = Some Zstd) in
  let '(w, s, sink) := get_or_create_sink (world_ c) (server_ c) (session_id request) in
  let c := c <| world_ := w |> <| server_ := s |> <| algo_ := algo request |> <| sink_name_ := sink |> in
  let status := if negb decompressor || bool_decide (sink = None) then ServerError else Ok in
  let c := c <| protocol_version_ := version request |> <| mode_ := mode_for (server_ c) (version request) |> in
  (c, status).

(** What follows an [Ok] reply, whether or not it could be written. *)
Definition start_streaming (request : HandshakeRequest) (c : Conn) : Conn :=
  let c := c <| integrity_checks_ := has_flag (flags request) IntegrityChecks |>
             <| session_hex_ := session_id_to_hex (session_id request) |> in
  let c := c <| events := events c ++ [ClientConnected (session_hex_ c) (algo request) (integrity_checks_ c) (tls_active_ c)] |>
             <| state_ := Streaming |> in
  let '(w, s) := record_session (world_ c) (server_ c) (rng_of (world_ c)) (now_of (world_ c))
                   (session_hex_ c) (peer_ip (peer_ c)) in
  let leftover := drop kHandshakeRequestSize (handshake_buffer_ c) in
  let c := c <| world_ := w |> <| server_ := s |> <| handshake_buffer_ := [] |>
             <| consumer_started_ := true |> <| consumer_runs := true |> in
  match leftover with
  | [] => c
  | _ => conn_backpressure (c <| channel_ ::= fun ch => push ch leftover |>)
  end.

Definition handle_handshake_data (data : bytes) (c : Conn) : Conn :=
  let c := sniff (c <| handshake_buffer_ ::= fun b => b ++ data |>) in
  if negb (proto_decided_ c) then c
  else if http_mode_ c then handle_http_data c
  else if (length (handshake_buffer_ c) <? kHandshakeRequestSize)%nat then c
  else
    let '(status, request) :=
      parse_and_verify_handshake (handshake_buffer_ c) (cfg_key (config (server_ c))) new_handshake in
    let '(c, status) :=
      if bool_decide (status = Ok) then prepare request c else (c, status) in
    let c := send_handshake_reply status c in
    if negb (bool_decide (status = Ok)) then c else start_streaming request c.

Definition handle_data (data : bytes) (c : Conn) : Conn :=
  let c := c <| handled ::= fun h => h ++ data |> in
  match state_ c with
  | Handshaking => handle_handshake_data data c
  | Streaming =>
      conn_backpressure (c <| wire_bytes_ := wrap 64 (wire_bytes_ c + Z.of_nat (length data)) |>
                           <| channel_ ::= fun ch => push ch data |>)
  | Closing => c
  end.

(** ** TLS *)

(** The bytes [tlsIoRecv] still has, and what a call leaves of them. *)
Definition inbound (c : Conn) : bytes := drop (in_pos (tls_ c)) (in_buf (tls_ c)).

Definition called (s : S) (n : nat) (out : bytes) (c : Conn) : Conn :=
  let t := tls_ c in
  set_tls (mkTls s (in_buf t) (in_pos t + n) (out_buf t ++ out) (handshake_done t)) c.

(** The two loops of [TlsLayer::ingest]; the first says whether to go on. *)
Fixpoint accept_loop (fuel : nat) (c : Conn) : Conn * bool :=
  match fuel with
  | O => (c, false)
  | Datatypes.S fuel =>
      let '(s, n, out, r) := ssl_accept (ssl (tls_ c)) (inbound c) in
      let c := called s n out c in
      match r with
      | SslOk => (flush_out false (c <| tls_ -> handshake_done := true |>), true)
      | WantRead => (flush_out false c, false)
      | WantWrite => accept_loop fuel (flush_out false c)
      | SslError => (begin_teardown c, false)
      end
  end.

Fixpoint read_plain_loop (fuel : nat) (c : Conn) : Conn :=
  match fuel with
  | O => c
  | Datatypes.S fuel =>
      let '(s, n, out, plain, r) := ssl_read (ssl (tls_ c)) (inbound c) in
      let c := called s n out c in
      match r with
      | SslOk => read_plain_loop fuel (handle_data plain c)
      | WantRead => flush_out false c
      | WantWrite => read_plain_loop fuel (flush_out false c)
      | SslError => begin_teardown c
      end
  end.

Definition ingest (data : bytes) (c : Conn) : Conn :=
  let t := tls_ c in
  let c := set_tls (mkTls (ssl t) (drop (in_pos t) (in_buf t) ++ data) 0 (out_buf t) (handshake_done t)) c in
  let fuel := ssl_calls (ssl t) (length (in_buf (tls_ c))) in
  if handshake_done (tls_ c) then read_plain_loop fuel c
  else
    match accept_loop fuel c with
    | (c, true) => read_plain_loop fuel c
    | (c, false) => c
    end.

(** [TlsLayer::init]. *)
Definition tls_init (c : Conn) : Conn * bool :=
  let '(s, ok) := ssl_init (ssl (tls_ c)) in (c <| tls_ -> ssl := s |>, ok).

Definition handle_raw (data : bytes) (c : Conn) : Conn :=
  let '(c, ok) :=
    if bool_decide (state_ c = Handshaking) && negb (tls_detected_ c) then
      let c := c <| tls_detected_ := true |> in
      let c := if bool_decide (head data = Some x16) then c <| tls_active_ := true |> else c in
      if tls_active_ c then tls_init c else (c, true)
    else (c, true) in
  if negb ok then begin_teardown c
  else if tls_active_ c then ingest data c
  else handle_data data c.

(** ** Callbacks *)

(** [on_read]: the bytes read, or the error. *)
Definition on_read (r : option bytes) (c : Conn) : Conn :=
  match r with
  | Some [] => c
  | Some data => handle_raw data c
  | None => begin_teardown c
  end.

(** [on_write_reply], [on_write_tls] and [on_write_download] for the write that
    completes; [fuel] is the one of [pump_download]. *)
Definition on_write (fuel : nat) (w : Write) (ok : bool) (c : Conn) : Conn :=
  match w with
  | ReplyWrite teardown_after | TlsWrite teardown_after =>
      if teardown_after || negb ok then begin_teardown c else c
  | DownloadWrite =>
      if negb ok || download_last_ c then begin_teardown c else pump_download fuel c
  end.

Definition on_resume_async (c : Conn) : Conn :=
  if bool_decide (state_ c = Streaming) && paused_ c then c <| paused_ := false |> else c.

(** [post], on the consumer's thread. *)
Definition conn_post (data : bytes) (c : Conn) : Conn :=
  c <| outbox_ ::= fun b => b ++ data |> <| outbox_sent := true |>.

Definition on_outbox_async (c : Conn) : Conn :=
  let pending := outbox_ c in
  let c := c <| outbox_ := [] |> in
  if bool_decide (pending = []) || teardown_started_ c then c
  else if tls_active_ c then
    match tls_send pending false c with
    | (c, true) => c
    | (c, false) => begin_teardown c
    end
  else tls_write pending false c.

(** [on_handle_closed] after the join; the event and [delete] of the last one. *)
Definition on_handle_closed (c : Conn) : Conn :=
  let c := c <| pending_handle_closes_ ::= Nat.pred |> in
  if (pending_handle_closes_ c =? 0)%nat then
    let c := if bool_decide (session_hex_ c = []) then c
             else c <| events := events c ++ [ClientDisconnected (session_hex_ c)] |> in
    c <| deleted := true |>
  else c.

(** ** The steps of a connection *)

Inductive label :=
  | LRead (r : option bytes)
  | LWritten (ok : bool)
  | LResume
  | LClose
  | LOutbox
  | LHandleClosed (h : Handle)
  | LPost (data : bytes)
  | LNotify
  | LEnd.

(** [Connection::accept]. *)
Definition fresh (server : Server) (w : W) (s : S) (u : U) (peer : bytes) : Conn :=
  {| server_ := server; world_ := w; outbox_ := []; state_ := Handshaking; handshake_buffer_ := [];
     tls_ := mkTls s [] 0 [] false; tls_detected_ := false; tls_active_ := false;
     proto_decided_ := false; http_mode_ := false; http_done_ := false;
     download_ := None; download_last_ := false;
     channel_ := new_channel (channel_low_water (config server)); algo_ := None; sink_name_ := None;
     integrity_checks_ := false; protocol_version_ := kMinProtocolVersion; mode_ := 0;
     peer_ := peer; session_hex_ := []; wire_bytes_ := 0; paused_ := false;
     consumer_started_ := false; teardown_started_ := false; handles_closing_ := false;
     pending_handle_closes_ := 0; uv := u; writes := []; written := []; closing := [];
     closed_handles := []; resume_sent := false; close_sent := false; outbox_sent := false;
     consumer_runs := false; deleted := false; events := []; handled := [] |}.

Definition accept (ok : bool) (server : Server) (w : W) (s : S) (u : U) (peer : bytes) : Conn :=
  if ok then fresh server w s u peer else begin_teardown (fresh server w s u []).

(** When libuv calls a handler: reads unless stopped, completions in the order
    of the writes, asynchronous callbacks after a send, all of them until the
    handle is closing; the close callback of the socket behind the completions
    of its writes. [on_handle_closed] of the last handle joins a consumer that
    was started, so it needs it to have ended. The consumer's own steps go on
    until it ends. *)
Inductive step (fuel : nat) : label -> Conn -> Conn -> Prop :=
  | step_read c r :
      Tcp ∉ closing c -> paused_ c = false -> r <> Some [] ->
      step fuel (LRead r) c (on_read r c)
  | step_written c w ws ok :
      writes c = w :: ws -> Tcp ∉ closed_handles c ->
      step fuel (LWritten ok) c (on_write fuel w ok (c <| writes := ws |>))
  | step_resume c :
      resume_sent c = true -> ResumeAsync ∉ closing c ->
      step fuel LResume c (on_resume_async (c <| resume_sent := false |>))
  | step_close c :
      close_sent c = true -> CloseAsync ∉ closing c ->
      step fuel LClose c (on_close_async (c <| close_sent := false |>))
  | step_outbox c :
      outbox_sent c = true -> OutboxAsync ∉ closing c ->
      step fuel LOutbox c (on_outbox_async (c <| outbox_sent := false |>))
  | step_handle_closed c h :
      h ∈ closing c -> h ∉ closed_handles c -> (h = Tcp -> writes c = []) ->
      (pending_handle_closes_ c = 1%nat -> consumer_started_ c = true -> consumer_runs c = false) ->
      step fuel (LHandleClosed h) c (on_handle_closed (c <| closed_handles := h :: closed_handles c |>))
  | step_post c data : consumer_runs c = true -> step fuel (LPost data) c (conn_post data c)
  | step_notify c : consumer_runs c = true -> step fuel LNotify c (c <| resume_sent := true |>)
  | step_end c :
      consumer_runs c = true ->
      step fuel LEnd c (c <| consumer_runs := false |> <| close_sent := true |>).

Definition any_step (fuel : nat) (c c' : Conn) : Prop := exists l, step fuel l c c'.
End Handlers.
