(* ===== verification/ConnLife.v ===== *)
(** * ConnLife: what holds in every reachable state of a connection

    The invariant [life] ties the state of [Connection] to the handles and to
    the consumer thread; every handler keeps it, so deletion is final and a
    teardown always has a next step. *)

From coqutil Require Import Datatypes.RecordSetters.
From S2P Require Import Prelude Text Protocol Hmac Handshake ByteChannel PosixPath FileSink Http Db Router Server Connection.
Import TriangleBracketNotations.
Open Scope record_set.

Section Life.
Context {W S D U : Type}.
Context {Fs : FsOps W} {Px : PosixOps W} {Gcm : GcmLib} {Json : JsonLib}.
Context {Ssl : SslLib S} {Dl : DownloadOps D} {Uv : UvLib U}.
Abbreviation Conn := (Connection W S D U).
Variables (rng_of : W -> option bytes) (now_of : W -> Z) (dir_exists : W -> bytes -> bool).
Variable router : Router.Router (C := Conn).

#[local] Existing Instance ops.

Definition all_handles : list Handle := [OutboxAsync; CloseAsync; ResumeAsync; Tcp].

(** The configuration of the server the connection was accepted by. *)
Variable cfg : ServerConfig.

(** The bytes a peer has sent begin with a whole request that carries an HMAC
    with the server's key, and the session is the one this request names. *)
Definition authenticated (key received session_hex : bytes) : Prop :=
  let request := take kHandshakeRequestSize received in
  length request = kHandshakeRequestSize /\ take (length kMagic) request = kMagic /\
  sub kHandshakeSignedPrefixSize kHmacSize request = hmac key (take kHandshakeSignedPrefixSize request) /\
  session_hex = session_id_to_hex (sub (length kMagic + 2 + 2) kSessionIdSize request).

Lemma authenticated_app key received data session_hex :
  authenticated key received session_hex -> authenticated key (received ++ data) session_hex.
Proof.
  unfold authenticated. cbv zeta. rewrite length_take. intros (H & Hrest).
  rewrite take_app_le by (unfold kHandshakeRequestSize in *; lia). by rewrite length_take.
Qed.

Lemma parsed_session_id key buf out req :
  parse_and_verify_handshake buf key out = (Ok, req) ->
  session_id req = sub (length kMagic + 2 + 2) kSessionIdSize buf.
Proof.
  unfold parse_and_verify_handshake. intros E.
  destruct (negb (magic_matches _)); [discriminate|]. destruct (negb (constant_time_equal _ _ _)); [discriminate|].
  cbv zeta in E. destruct (_ || _); [discriminate|].
  destruct (negb (algo_supported _)); [discriminate|]. injection E as <-. reflexivity.
Qed.

Lemma parsed_authenticated key buf req :
  (kHandshakeRequestSize <= length buf)%nat -> parse_and_verify_handshake buf key new_handshake = (Ok, req) ->
  authenticated key buf (session_id_to_hex (session_id req)).
Proof.
  intros Hlen E. pose proof (f_equal fst E) as Hok. cbn [fst] in Hok. apply parse_ok_iff in Hok as (Hm & Hmac & _); [|done].
  unfold authenticated. cbv zeta. unfold kHandshakeRequestSize in *.
  rewrite length_take, !take_take. split; [lia|]. split; [exact Hm|].
  assert (Hsub : forall o n, (o + n <= 56)%nat -> sub o n (take 56 buf) = sub o n buf).
  { intros o n Hn. unfold sub. rewrite skipn_firstn_comm, take_take. f_equal. lia. }
  rewrite !Hsub by (vm_compute; lia). split; [exact Hmac|]. f_equal. by eapply parsed_session_id.
Qed.

(** An accepting reply that could not be written on an open connection. *)
Definition reply_refused : Prop := exists c : Conn,
  closing c = [] /\ teardown_started_ c = false /\ teardown_started_ (send_handshake_reply Ok c) = true.

Record life (c : Conn) : Prop := {
  l_state : match state_ c with
            | Handshaking => consumer_started_ c = false /\ teardown_started_ c = false
            | Streaming => consumer_started_ c = true
            | Closing => teardown_started_ c = true
            end;
  l_closing : closing c = if handles_closing_ c then all_handles else [];
  l_torn : handles_closing_ c = true -> teardown_started_ c = true;
  l_closed : NoDup (closed_handles c) /\ forall h, h ∈ closed_handles c -> h ∈ closing c;
  l_pending : (pending_handle_closes_ c + length (closed_handles c) = length (closing c))%nat;
  l_lost : state_ c = Streaming -> teardown_started_ c = true -> handles_closing_ c = true /\ reply_refused;
  l_runs : consumer_runs c = true ->
    consumer_started_ c = true /\ close_sent c = false /\ deleted c = false /\
    (handles_closing_ c = true -> state_ c = Streaming);
  l_sent : close_sent c = true -> consumer_started_ c = true /\ consumer_runs c = false;
  l_ended : consumer_started_ c = true -> consumer_runs c = false -> handles_closing_ c = false ->
    close_sent c = true;
  l_alone : teardown_started_ c = true -> consumer_started_ c = false -> handles_closing_ c = true;
  l_channel : teardown_started_ c = true -> consumer_runs c = true -> state_ c <> Streaming ->
    closed_ (channel_ c) = true;
  l_writes : Tcp ∈ closed_handles c -> writes c = [];
  l_deleted : deleted c = true <-> length (closed_handles c) = 4%nat;
  l_quiet : consumer_started_ c = false -> blocks_ (channel_ c) = [] /\ closed_ (channel_ c) = false;
  l_buffer : state_ c = Handshaking -> handshake_buffer_ c = handled c;
  l_auth : consumer_started_ c = true -> authenticated (cfg_key cfg) (handled c) (session_hex_ c);
  l_chan : chan_inv (channel_ c);
  l_stream : state_ c = Streaming ->
    closed_ (channel_ c) = false /\ contents (channel_ c) = drop kHandshakeRequestSize (handled c);
  l_behind : consumer_started_ c = true ->
    contents (channel_ c) `prefix_of` drop kHandshakeRequestSize (handled c);
  l_config : config (server_ c) = cfg;
}.

(** The fields [life] speaks of. *)
Definition core (c : Conn) :=
  (state_ c, consumer_started_ c, teardown_started_ c, handles_closing_ c, pending_handle_closes_ c,
   closing c, closed_handles c, (close_sent c, consumer_runs c, deleted c, channel_ c, writes c,
   config (server_ c), session_hex_ c), (handshake_buffer_ c, handled c)).

Lemma life_core c c' : core c' = core c -> life c -> life c'.
Proof.
  unfold core. intros [= E1 E2 E3 E4 E5 E6 E7 E8 E9 E10 E11 E12 E13 E14 E15 E16] [].
  constructor; rewrite ?E1, ?E2, ?E3, ?E4, ?E5, ?E6, ?E7, ?E8, ?E9, ?E10, ?E11, ?E12, ?E13, ?E14, ?E15, ?E16; assumption.
Qed.

(** ** Teardown *)

Lemma finalize_close_open (c : Conn) :
  handles_closing_ c = false -> closing c = [] ->
  finalize_close c =
  c <| handles_closing_ := true |> <| pending_handle_closes_ ::= Nat.add 4 |> <| closing := all_handles |>.
Proof. intros H1 H2. destruct c. cbn in H1, H2. subst. reflexivity. Qed.

Lemma finalize_close_done (c : Conn) : handles_closing_ c = true -> finalize_close c = c.
Proof. intros H. unfold finalize_close. by rewrite H. Qed.

Lemma begin_teardown_life c : life c -> life (begin_teardown c).
Proof.
  intros H. unfold begin_teardown. destruct (teardown_started_ c) eqn:Et; [done|].
  assert (Hh : handles_closing_ c = false).
  { destruct (handles_closing_ c) eqn:E; [|done]. apply (l_torn c H) in E. congruence. }
  pose proof (l_closing c H) as Hc. rewrite Hh in Hc. destruct H.
  destruct (consumer_started_ c) eqn:Es.
  - destruct c. cbn in *. subst. constructor; cbn; auto; try congruence; try (intros E; discriminate E).
    + intros Hr. destruct (l_runs0 Hr) as (_ & ? & ? & _). by split_and!.
    + by apply close_inv.
  - rewrite finalize_close_open by (destruct c; cbn in *; auto).
    destruct c. cbn in *. subst. constructor; cbn; auto; try congruence; try (intros E; discriminate E).
    + split; [apply l_closed0|]. intros h Hin. exfalso. destruct l_closed0 as [_ Hx]. apply Hx in Hin.
      by apply elem_of_nil in Hin.
    + intros Hr. by destruct (l_runs0 Hr).
    + intros _ Hr. by destruct (l_runs0 Hr).
Qed.

Lemma on_close_async_life c :
  life c -> close_sent c = true -> life (on_close_async (c <| close_sent := false |>)).
Proof.
  intros H Hs. destruct (l_sent c H Hs) as [Hst Hr]. unfold on_close_async.
  destruct (handles_closing_ c) eqn:Eh.
  - rewrite finalize_close_done by done. pose proof (l_torn c H Eh).
    destruct H. destruct c. cbn in *. subst. constructor; cbn; auto; try congruence; intros E; discriminate E.
  - pose proof (l_closing c H) as Hc. rewrite Eh in Hc. rewrite finalize_close_open by done.
    destruct H. destruct c. cbn in *. subst. constructor; cbn; auto; try congruence; try (intros E; discriminate E).
    split; [apply l_closed0|]. intros h Hin. exfalso. destruct l_closed0 as [_ Hx]. apply Hx in Hin.
    by apply elem_of_nil in Hin.
Qed.

(** ** Writing *)

(** What the functions that write leave of the fields of [life]: a teardown, or
    everything but the pending writes as it was. *)
Definition writes_only (c c' : Conn) : Prop :=
  state_ c' = state_ c /\ consumer_started_ c' = consumer_started_ c /\
  teardown_started_ c' = teardown_started_ c /\ channel_ c' = channel_ c /\
  config (server_ c') = config (server_ c).

(** What they never touch, teardown or not. *)
Definition frame (c : Conn) :=
  (consumer_started_ c, handled c, handshake_buffer_ c, tls_active_ c, closed_handles c).

Definition safe (c c' : Conn) : Prop :=
  (life c -> life c') /\ frame c' = frame c /\ (teardown_started_ c' = true \/ writes_only c c').

Lemma safe_refl c : safe c c.
Proof. split; [done|]. split; [done|]. right. done. Qed.

Lemma close_handle_torn h (c : Conn) : teardown_started_ (close_handle h c) = teardown_started_ c.
Proof. unfold close_handle. by case_bool_decide. Qed.

Lemma begin_teardown_torn (c : Conn) : teardown_started_ (begin_teardown c) = true.
Proof.
  unfold begin_teardown. destruct (teardown_started_ c) eqn:E; [done|].
  cbv zeta. destruct (consumer_started_ _); [done|]. unfold finalize_close.
  destruct (handles_closing_ _); [done|]. by rewrite !close_handle_torn.
Qed.

Lemma close_handle_frame h (c : Conn) : frame (close_handle h c) = frame c.
Proof. unfold close_handle. by case_bool_decide. Qed.

Lemma finalize_close_frame (c : Conn) : frame (finalize_close c) = frame c.
Proof. unfold finalize_close. destruct (handles_closing_ c); [done|]. cbv zeta. by rewrite !close_handle_frame. Qed.

Lemma begin_teardown_frame (c : Conn) : frame (begin_teardown c) = frame c.
Proof.
  unfold begin_teardown. destruct (teardown_started_ c); [done|]. cbv zeta.
  destruct (consumer_started_ _); [done|]. by rewrite finalize_close_frame.
Qed.

Lemma begin_teardown_safe c : safe c (begin_teardown c).
Proof.
  split; [apply begin_teardown_life|]. split; [apply begin_teardown_frame|]. left. apply begin_teardown_torn.
Qed.

Lemma torn_stays (c c' : Conn) : safe c c' -> teardown_started_ c = true -> teardown_started_ c' = true.
Proof. intros (_ & _ & [?|(_ & _ & -> & _ & _)]) ?; done. Qed.

Lemma safe_trans c1 c2 c3 : safe c1 c2 -> safe c2 c3 -> safe c1 c3.
Proof.
  intros (H1 & F1 & R1) (H2 & F2 & R2). split; [auto|]. split; [congruence|]. destruct R2 as [?|(A & B & C & E & F)]; [by left|].
  destruct R1 as [?|(A' & B' & C' & E' & F')]; [left; congruence|]. right.
  unfold writes_only. repeat split; congruence.
Qed.

Lemma safe_core c c' : core c' = core c -> tls_active_ c' = tls_active_ c -> safe c c'.
Proof.
  intros H Ht. split; [by apply life_core|]. unfold core in H. split; [unfold frame; congruence|].
  right. unfold writes_only. repeat split; congruence.
Qed.

Lemma write_out_safe w data c : safe c (write_out w data c).1.
Proof.
  unfold write_out. case_bool_decide as Ht; [apply safe_refl|].
  destruct (uv_write (uv c) data) as [u [|]]; cbn [fst]; [|by apply safe_core].
  split; [|split; [done|by right]]. intros []. constructor; try assumption.
  intros Hin. exfalso. apply Ht. by apply l_closed0.
Qed.

Lemma write_or_teardown_safe w data c :
  safe c (match write_out w data c with (c, true) => c | (c, false) => begin_teardown c end).
Proof.
  pose proof (write_out_safe w data c) as H. destruct (write_out w data c) as [c' [|]]; [done|].
  eapply safe_trans; [exact H|apply begin_teardown_safe].
Qed.

Lemma tls_write_safe data after c : safe c (tls_write data after c).
Proof. apply write_or_teardown_safe. Qed.

Lemma flush_pieces_safe fuel out after c : safe c (flush_pieces fuel out after c).
Proof.
  revert out c. induction fuel as [|fuel IH]; intros [|b out] c; cbn [flush_pieces]; try apply safe_refl.
  eapply safe_trans; [apply tls_write_safe|apply IH].
Qed.

Lemma flush_out_safe after c : safe c (flush_out after c).
Proof. unfold flush_out. eapply safe_trans; [apply flush_pieces_safe|]. by apply safe_core. Qed.

Lemma tls_send_safe data after c : safe c (tls_send data after c).1.
Proof.
  unfold tls_send. destruct (ssl_write _ data) as [[s out] [|]]; cbn [fst]; [|by apply safe_core].
  eapply safe_trans; [|apply flush_out_safe]. by apply safe_core.
Qed.

Lemma tls_encrypt_safe data c : safe c (tls_encrypt data c).1.
Proof. unfold tls_encrypt. destruct (encrypt_pieces _ _ _) as [t [|]]; by apply safe_core. Qed.

Lemma tls_send_or_teardown_safe data after c :
  safe c (match tls_send data after c with (c, true) => c | (c, false) => begin_teardown c end).
Proof.
  pose proof (tls_send_safe data after c) as H. destruct (tls_send data after c) as [c' [|]]; [done|].
  eapply safe_trans; [exact H|apply begin_teardown_safe].
Qed.

Lemma send_handshake_reply_safe status c : safe c (send_handshake_reply status c).
Proof.
  unfold send_handshake_reply. destruct (tls_active_ c);
    [apply tls_send_or_teardown_safe|apply write_or_teardown_safe].
Qed.

(** ** HTTP *)

Lemma send_http_simple_safe c status reason type body extra :
  safe c (conn_send_http_simple c status reason type body extra).
Proof.
  unfold conn_send_http_simple. destruct (tls_active_ c); [|apply tls_write_safe].
  set (resp := _ ++ body). pose proof (tls_encrypt_safe resp c) as H.
  destruct (tls_encrypt resp c) as [c' [wire|]]; (eapply safe_trans; [exact H|]);
    [apply tls_write_safe|apply begin_teardown_safe].
Qed.

Lemma download_send_safe fuel plain c : safe c (download_send fuel plain c).
Proof.
  revert plain c. induction fuel as [|fuel IH]; intros plain c; cbn [download_send];
    (assert (Henc : safe c (if tls_active_ c then tls_encrypt plain c else (c, Some plain)).1)
       by (destruct (tls_active_ c); [apply tls_encrypt_safe|apply safe_refl]);
     destruct (if tls_active_ c then tls_encrypt plain c else (c, Some plain)) as [c1 [[|b bs]|]];
     (eapply safe_trans; [exact Henc|]); cbn [fst];
     [|apply write_or_teardown_safe|apply begin_teardown_safe]).
  - destruct (download_last_ c1); [apply begin_teardown_safe|apply safe_refl].
  - destruct (download_last_ c1); [apply begin_teardown_safe|].
    destruct (download_ c1) as [d|]; [|apply begin_teardown_safe].
    destruct (dl_next d) as [[d' chunk] more]. cbv zeta.
    destruct (negb (dl_ok d')); [eapply safe_trans; [|apply begin_teardown_safe]; by apply safe_core|].
    case_bool_decide; [eapply safe_trans; [|apply begin_teardown_safe]; by apply safe_core|].
    eapply safe_trans; [|apply IH]. by apply safe_core.
Qed.

Lemma pump_download_safe fuel c : safe c (pump_download fuel c).
Proof.
  unfold pump_download. destruct (download_ c) as [d|]; [|apply begin_teardown_safe].
  destruct (dl_next d) as [[d' chunk] more]. cbv zeta.
  destruct (negb (dl_ok d')); [eapply safe_trans; [|apply begin_teardown_safe]; by apply safe_core|].
  case_bool_decide; [eapply safe_trans; [|apply begin_teardown_safe]; by apply safe_core|].
  eapply safe_trans; [|apply download_send_safe]. by apply safe_core.
Qed.

Lemma begin_download_safe c id dir : safe c (conn_begin_download c id dir).
Proof.
  unfold conn_begin_download. destruct (dl_begin dir id) as [d|].
  - eapply safe_trans; [|apply download_send_safe]. by apply safe_core.
  - eapply safe_trans; [|apply send_http_simple_safe]. by apply safe_core.
Qed.

(** Handlers and middleware that touch the connection only through what it
    offers them, as the built-in ones do. *)
Definition handler_safe (h : HttpHandler (C := Conn)) : Prop := forall ctx, safe (conn ctx) (conn (h ctx)).

Definition middleware_safe (m : Middleware (C := Conn)) : Prop :=
  forall next, handler_safe next -> handler_safe (fun ctx => m ctx next).

Definition routes_safe : Prop :=
  forall r, r ∈ Router.routes router ++ Router.builtins router ->
    Forall middleware_safe (rt_middleware r) /\ handler_safe (rt_handler r).

Lemma next_safe ms h : Forall middleware_safe ms -> handler_safe h -> handler_safe (Router.next ms h).
Proof.
  induction 1 as [|m ms Hm _ IH]; intros Hh; cbn [Router.next]; [done|]. apply Hm. by apply IH.
Qed.

Lemma run_route_safe c request r :
  Forall middleware_safe (rt_middleware r) -> handler_safe (rt_handler r) ->
  safe c (run_route (Ops := ops dir_exists) c request r).
Proof.
  intros Hm Hh. unfold run_route. set (ctx := new_context _ _ _).
  pose proof (next_safe _ _ Hm Hh ctx) as H. cbv zeta.
  destruct (respond _); [|exact H]. eapply safe_trans; [exact H|apply send_http_simple_safe].
Qed.

Lemma dispatch_safe (c : Conn) request : routes_safe -> safe c (dispatch_http dir_exists router c request).
Proof.
  intros H. unfold dispatch_http. rewrite dispatch_spec.
  destruct (List.find _ _) as [r|] eqn:E.
  - apply List.find_some in E as [Hr _]. apply list_elem_of_In in Hr.
    destruct (H r Hr). by apply run_route_safe.
  - destruct (existsb _ _); apply send_http_simple_safe.
Qed.

Lemma require_auth_safe : middleware_safe (require_auth (Ops := ops dir_exists)).
Proof. intros next Hn ctx. unfold require_auth. destruct (negb _); [apply safe_refl|apply Hn]. Qed.

Lemma builtin_routes_safe r :
  r ∈ [root_route; list_route (Ops := ops dir_exists); download_route (Ops := ops dir_exists)] ->
  Forall middleware_safe (rt_middleware r) /\ handler_safe (rt_handler r).
Proof.
  rewrite !elem_of_cons, elem_of_nil. intros [->|[->|[->|[]]]].
  - split; [done|]. intros ctx. apply safe_refl.
  - split; [constructor; [apply require_auth_safe|done]|]. intros ctx. apply safe_refl.
  - split; [constructor; [apply require_auth_safe|done]|]. intros ctx.
    cbn [download_route rt_handler]. unfold uploads_download.
    destruct (negb (valid_session_id _)); [apply safe_refl|]. cbv zeta.
    destruct (negb (is_directory _ _)); [apply safe_refl|]. apply begin_download_safe.
Qed.

(** ** Incoming bytes *)

Hypothesis routes_ok : routes_safe.

Lemma handle_http_safe c : safe c (handle_http_data dir_exists router c).
Proof.
  unfold handle_http_data. destruct (http_done_ c); [apply safe_refl|].
  assert (Hbad : safe c (bad_request dir_exists c)).
  { unfold bad_request. eapply safe_trans; [|apply send_http_simple_safe]. by apply safe_core. }
  cbv zeta. destruct (_ =? 0)%nat.
  - destruct (_ <? _)%nat; [exact Hbad|apply safe_refl].
  - destruct (parse_http_request _ _) as [request [|]]; [|exact Hbad].
    eapply safe_trans; [|by apply dispatch_safe]. by apply safe_core.
Qed.

Lemma sniff_core (c : Conn) : core (sniff c) = core c.
Proof.
  unfold sniff. destruct (proto_decided_ c); [done|]. cbv zeta.
  destruct (negb _); [done|]. by destruct (_ <=? _)%nat.
Qed.

Lemma conn_backpressure_core (c : Conn) : core (conn_backpressure c) = core c.
Proof. unfold conn_backpressure. by destruct (_ && _). Qed.

Lemma push_keeps_closed ch data : closed_ (push ch data) = closed_ ch.
Proof. unfold push. destruct (_ =? _)%nat; [done|]. by destruct (closed_ ch) eqn:E; rewrite ?E. Qed.

Lemma prefix_grows (l h : bytes) n data :
  (n <= length h)%nat -> l `prefix_of` drop n h -> l `prefix_of` drop n (h ++ data).
Proof. intros Hn Hl. rewrite drop_app_le by done. etransitivity; [exact Hl|]. by apply prefix_app_r. Qed.

Lemma authenticated_long key received hex :
  authenticated key received hex -> (kHandshakeRequestSize <= length received)%nat.
Proof. intros [H _]. rewrite length_take in H. lia. Qed.

(** Data that comes while the connection streams goes into the channel. *)
Lemma push_life c data :
  life c -> state_ c = Streaming ->
  life (c <| handled ::= fun h => h ++ data |> <| channel_ ::= fun ch => push ch data |>).
Proof.
  intros H Hst. pose proof (l_state c H) as Hs. rewrite Hst in Hs. destruct (l_stream c H Hst) as [Hcl Hcont].
  pose proof (authenticated_long _ _ _ (l_auth c H Hs)) as Hlen.
  assert (Hnew : contents (push (channel_ c) data) = drop kHandshakeRequestSize (handled c ++ data)).
  { rewrite push_contents by (done || apply (l_chan c H)). by rewrite Hcont, drop_app_le. }
  destruct H. constructor; try assumption.
  - intros H1 H2 H3. by destruct H3.
  - intros H. change (consumer_started_ c = false) in H. congruence.
  - intros H. change (state_ c = Handshaking) in H. congruence.
  - intros _. by apply authenticated_app, l_auth0.
  - by apply push_inv.
  - intros _. split; [|exact Hnew]. change (closed_ (push (channel_ c) data) = false). by rewrite push_keeps_closed.
  - intros _. change (contents (push (channel_ c) data) `prefix_of` drop kHandshakeRequestSize (handled c ++ data)).
    by rewrite Hnew.
Qed.

(** While the handshake is awaited it goes into the buffer, afterwards nowhere. *)
Lemma buffer_life c data :
  life c -> state_ c = Handshaking ->
  life (c <| handled ::= fun h => h ++ data |> <| handshake_buffer_ ::= fun b => b ++ data |>).
Proof.
  intros H Hst. pose proof (l_state c H) as Hs. rewrite Hst in Hs. destruct Hs as [Hs _].
  destruct H. constructor; try assumption.
  - intros _. change (handshake_buffer_ c ++ data = handled c ++ data). by rewrite l_buffer0.
  - intros H. change (consumer_started_ c = true) in H. congruence.
  - intros H. change (state_ c = Streaming) in H. congruence.
  - intros H. change (consumer_started_ c = true) in H. congruence.
Qed.

Lemma ignored_life c data : life c -> state_ c = Closing -> life (c <| handled ::= fun h => h ++ data |>).
Proof.
  intros H Hst. destruct H. constructor; try assumption.
  - intros H. change (state_ c = Handshaking) in H. congruence.
  - intros H. by apply authenticated_app, l_auth0.
  - intros H. change (state_ c = Streaming) in H. congruence.
  - intros H. apply prefix_grows; [|by apply l_behind0]. by eapply authenticated_long, l_auth0.
Qed.

Lemma record_session_config w s rng now hex ip : config (record_session w s rng now hex ip).2 = config s.
Proof.
  unfold record_session. case_bool_decide; [done|].
  by destruct (session_append _ _ _ _ _ _ _) as [w' [[|]|]].
Qed.

(** Whether or not the reply could be written: if not, the handles are closing
    while the consumer starts. *)
Lemma start_streaming_life request c :
  life c -> consumer_started_ c = false -> closed_handles c = [] ->
  (teardown_started_ c = true -> reply_refused) ->
  handshake_buffer_ c = handled c ->
  authenticated (cfg_key cfg) (handled c) (session_id_to_hex (session_id request)) ->
  life (start_streaming rng_of now_of request c).
Proof.
  intros H Hs Hch Hlost Hb Ha. unfold start_streaming. cbv zeta.
  pose proof (record_session_config (world_ c) (server_ c) (rng_of (world_ c)) (now_of (world_ c))
    (session_id_to_hex (session_id request)) (peer_ip (peer_ c))) as Hcfg.
  destruct (record_session _ _ _ _ _ _) as [w s] eqn:E.
  change (record_session (world_ c) (server_ c) (rng_of (world_ c)) (now_of (world_ c))
    (session_id_to_hex (session_id request)) (peer_ip (peer_ c)) = (w, s)) in E.
  try rewrite E in Hcfg. cbn [snd] in Hcfg.
  set (c1 := c <| integrity_checks_ := _ |> <| session_hex_ := _ |> <| events := _ |> <| state_ := _ |>
    <| world_ := w |> <| server_ := s |> <| handshake_buffer_ := [] |> <| consumer_started_ := true |>
    <| consumer_runs := true |>).
  set (leftover := drop kHandshakeRequestSize (handshake_buffer_ c)).
  assert (H2 : life (c1 <| channel_ ::= fun ch => push ch leftover |>)).
  { destruct (l_quiet c H Hs) as [Hq Hcl]. pose proof (l_chan c H) as Hinv.
    assert (Hcont : contents (push (channel_ c) leftover) = drop kHandshakeRequestSize (handled c)).
    { rewrite push_contents by done. apply contents_nil in Hq as ->; [|done]. unfold leftover. by rewrite Hb. }
    assert (Hsent : close_sent c = false).
    { destruct (close_sent c) eqn:Ec; [|done]. destruct (l_sent c H Ec). congruence. }
    assert (Hdel : deleted c = false).
    { destruct (deleted c) eqn:Ed; [|done]. apply (l_deleted c H) in Ed. rewrite Hch in Ed. done. }
    destruct H. constructor; try assumption; try done.
    - intros _ Ht. split; [by apply l_alone0|by apply Hlost].
    - intros Hc. exfalso. change (close_sent c = true) in Hc. congruence.
    - by apply push_inv.
    - intros _. split; [|exact Hcont]. change (closed_ (push (channel_ c) leftover) = false). by rewrite push_keeps_closed.
    - intros _. change (contents (push (channel_ c) leftover) `prefix_of` drop kHandshakeRequestSize (handled c)).
      by rewrite Hcont.
    - change (config s = cfg). by rewrite Hcfg. }
  fold c1. change (drop kHandshakeRequestSize (handshake_buffer_ _)) with leftover.
  destruct leftover as [|b bs]; [exact (life_core _ c1 eq_refl H2)|].
  eapply life_core; [apply conn_backpressure_core|]. exact H2.
Qed.

Lemma prepare_core request (c : Conn) : core (prepare request c).1 = core c.
Proof.
  unfold prepare. destruct (get_or_create_sink _ _ _) as [[w s] sink] eqn:E.
  apply get_or_create_sink_spec in E as [E _]. unfold core. rewrite <- E. reflexivity.
Qed.

Lemma open_handles c : life c -> teardown_started_ c = false -> closing c = [].
Proof.
  intros H Ht. rewrite (l_closing c H). destruct (handles_closing_ c) eqn:E; [|done].
  apply (l_torn c H) in E. congruence.
Qed.

Abbreviation on_handshake := (handle_handshake_data rng_of now_of dir_exists router).

Lemma reply_frame status (c : Conn) : frame (send_handshake_reply status c) = frame c.
Proof. apply send_handshake_reply_safe. Qed.

(** [c] has the new bytes in its history and its buffer. *)
Lemma handshake_life c :
  life c -> state_ c = Handshaking -> life (on_handshake [] c).
Proof.
  intros H Hst. unfold handle_handshake_data. cbv zeta.
  set (c0 := c <| handshake_buffer_ ::= _ |>).
  assert (H0 : life c0).
  { eapply life_core; [|exact H]. unfold core, c0. cbn. by rewrite app_nil_r. }
  assert (Hst0 : state_ c0 = Handshaking) by done.
  clearbody c0. clear c H Hst.
  assert (Hc1 : core (sniff c0) = core c0) by apply sniff_core.
  assert (H1 : life (sniff c0)) by (by eapply life_core).
  set (c1 := sniff c0) in *. destruct (negb (proto_decided_ c1)); [exact H1|].
  destruct (http_mode_ c1); [by apply handle_http_safe|].
  destruct (Nat.ltb_spec (length (handshake_buffer_ c1)) kHandshakeRequestSize) as [|Hlen]; [exact H1|].
  destruct (parse_and_verify_handshake _ _ _) as [status request] eqn:Ep.
  assert (Hst1 : state_ c1 = Handshaking).
  { unfold core in Hc1. injection Hc1 as E1. by rewrite E1. }
  assert (Hh1 : consumer_started_ c1 = false /\ teardown_started_ c1 = false).
  { pose proof (l_state c1 H1) as Hl. by rewrite Hst1 in Hl. }
  case_bool_decide as Hok.
  - subst status. pose proof (prepare_core request c1) as Hcp.
    destruct (prepare request c1) as [c2 status]. cbn [fst] in Hcp.
    assert (H2 : life c2) by (by eapply life_core).
    destruct (send_handshake_reply_safe status c2) as (Hlife & _ & _). specialize (Hlife H2).
    case_bool_decide as Hs; [|exact Hlife]. cbn [negb]. subst status.
    pose proof (reply_frame Ok c2) as Hf. unfold frame in Hf. injection Hf as F1 F2 F3 F4 F5.
    unfold core in Hcp. injection Hcp as E1 E2 E3 E4 E5 E6 E7 E8 E9 E10 E11 E12 E13 E14 E15 E16.
    assert (Ht2 : teardown_started_ c2 = false) by (rewrite E3; apply Hh1).
    pose proof (open_handles c2 H2 Ht2) as Ho.
    apply start_streaming_life.
    + done.
    + rewrite F1, E2. apply Hh1.
    + rewrite F5. destruct (closed_handles c2) as [|h hs] eqn:Ech; [done|]. exfalso.
      destruct (l_closed c2 H2) as [_ Hin]. specialize (Hin h). rewrite Ech, Ho in Hin.
      specialize (Hin ltac:(by left)). by apply elem_of_nil in Hin.
    + intros Ht. by exists c2.
    + rewrite F2, F3, E15, E16. by apply (l_buffer c1 H1).
    + rewrite F2, E16, <- (l_buffer c1 H1 Hst1). apply parsed_authenticated; [done|].
      rewrite <- Ep. do 2 f_equal. symmetry. apply H1.
  - destruct (send_handshake_reply_safe status c1) as [Hlife _]. rewrite bool_decide_eq_false_2 by done.
    by apply Hlife.
Qed.

Lemma on_handshake_split data (c : Conn) :
  on_handshake data c = on_handshake [] (c <| handshake_buffer_ ::= fun b => b ++ data |>).
Proof.
  unfold handle_handshake_data. cbv zeta.
  replace (c <| handshake_buffer_ ::= fun b => b ++ data |> <| handshake_buffer_ ::= fun b => b ++ [] |>)
    with (c <| handshake_buffer_ ::= fun b => b ++ data |>); [done|].
  destruct c. cbn. by rewrite app_nil_r.
Qed.

Lemma handle_data_life data c : life c -> life (handle_data rng_of now_of dir_exists router data c).
Proof.
  intros H. unfold handle_data. cbv zeta. set (c0 := c <| handled ::= _ |>).
  change (state_ c0) with (state_ c). destruct (state_ c) eqn:Es.
  - rewrite on_handshake_split. apply handshake_life; [by apply buffer_life|done].
  - eapply life_core; [apply conn_backpressure_core|].
    apply (life_core (c <| handled ::= fun h => h ++ data |> <| channel_ ::= fun ch => push ch data |>)); [done|].
    by apply push_life.
  - by apply ignored_life.
Qed.

(** ** TLS *)

Lemma called_safe s n out (c : Conn) : safe c (called s n out c).
Proof. by apply safe_core. Qed.

Lemma accept_loop_life fuel c : life c -> life (accept_loop fuel c).1.
Proof.
  revert c. induction fuel as [|fuel IH]; intros c H; [done|]. cbn [accept_loop].
  destruct (ssl_accept _ _) as [[[s n] out] r]. cbv zeta.
  assert (Hc : life (called s n out c)) by (by apply called_safe).
  destruct r; cbn [fst].
  - apply flush_out_safe. by apply (life_core (called s n out c)).
  - by apply flush_out_safe.
  - apply IH. by apply flush_out_safe.
  - by apply begin_teardown_life.
Qed.

Lemma read_plain_loop_life fuel c :
  life c -> life (read_plain_loop rng_of now_of dir_exists router fuel c).
Proof.
  revert c. induction fuel as [|fuel IH]; intros c H; [done|]. cbn [read_plain_loop].
  destruct (ssl_read _ _) as [[[[s n] out] plain] r]. cbv zeta.
  assert (Hc : life (called s n out c)) by (by apply called_safe).
  destruct r.
  - apply IH. by apply handle_data_life.
  - by apply flush_out_safe.
  - apply IH. by apply flush_out_safe.
  - by apply begin_teardown_life.
Qed.

Lemma handle_raw_life data c : life c -> life (handle_raw rng_of now_of dir_exists router data c).
Proof.
  intros H. unfold handle_raw.
  assert (Hinit : forall c, life c -> life (tls_init c).1).
  { intros c' Hc. unfold tls_init. destruct (ssl_init _) as [s ok]. by apply (life_core c'). }
  set (r := if _ && _ then _ else _). assert (Hr : life r.1).
  { unfold r. destruct (_ && _); [|done]. cbv zeta. set (c1 := if bool_decide _ then _ else _).
    assert (H1 : life c1) by (unfold c1; case_bool_decide; by apply (life_core c)).
    destruct (tls_active_ c1); [by apply Hinit|done]. }
  destruct r as [c1 ok]. cbn [fst] in Hr. destruct ok; cbn [negb]; [|by apply begin_teardown_life].
  destruct (tls_active_ c1); [|by apply handle_data_life].
  unfold ingest. cbv zeta. set (c2 := set_tls _ c1). assert (H2 : life c2) by (by apply (life_core c1)).
  destruct (handshake_done (tls_ c2)); [by apply read_plain_loop_life|].
  pose proof (accept_loop_life (ssl_calls (ssl (tls_ c1)) (length (in_buf (tls_ c2)))) c2 H2) as H3.
  destruct (accept_loop _ c2) as [c3 [|]]; [by apply read_plain_loop_life|done].
Qed.

(** ** Every step *)

Lemma on_write_safe fuel w ok c : safe c (on_write fuel w ok c).
Proof.
  destruct w as [after|after|]; cbn [on_write];
    (destruct (_ || _); [apply begin_teardown_safe|]); [apply safe_refl..|apply pump_download_safe].
Qed.

Lemma on_outbox_safe c : safe c (on_outbox_async c).
Proof.
  unfold on_outbox_async. cbv zeta. destruct (_ || _); [by apply safe_core|].
  eapply safe_trans with (c <| outbox_ := [] |>); [by apply safe_core|].
  destruct (tls_active_ _); [apply tls_send_or_teardown_safe|apply tls_write_safe].
Qed.

Lemma pop_write_life c w ws : life c -> writes c = w :: ws -> Tcp ∉ closed_handles c -> life (c <| writes := ws |>).
Proof. intros [] Hw Ht. constructor; try assumption. by intros ?. Qed.

Lemma length_closed c : life c -> (length (closed_handles c) <= 4)%nat.
Proof.
  intros H. pose proof (l_pending c H) as Hp. rewrite (l_closing c H) in Hp.
  destruct (handles_closing_ c); cbn in Hp; lia.
Qed.

Lemma handle_closed_life c h :
  life c -> h ∈ closing c -> h ∉ closed_handles c -> (h = Tcp -> writes c = []) ->
  (pending_handle_closes_ c = 1%nat -> consumer_started_ c = true -> consumer_runs c = false) ->
  life (on_handle_closed (c <| closed_handles := h :: closed_handles c |>)).
Proof.
  intros H Hin Hnot Hw Hjoin. destruct (handles_closing_ c) eqn:Eh.
  2:{ rewrite (l_closing c H), Eh in Hin. by apply elem_of_nil in Hin. }
  pose proof (l_pending c H) as Hp. pose proof (l_closing c H) as Hc. rewrite Eh in Hc.
  assert (Hsub : (length (h :: closed_handles c) <= length (closing c))%nat).
  { apply submseteq_length, NoDup_submseteq.
    - constructor; [done|apply (l_closed c H)].
    - intros x [->|Hx]%elem_of_cons; [done|]. by apply (l_closed c H). }
  cbn [length] in Hsub. rewrite Hc in Hp, Hsub. cbn [length all_handles] in Hp, Hsub.
  assert (Hlife : forall ev del,
    del = bool_decide (pending_handle_closes_ c = 1%nat) ->
    life (c <| closed_handles := h :: closed_handles c |> <| pending_handle_closes_ ::= Nat.pred |>
            <| events := ev |> <| deleted := del |>)).
  { intros ev del ->. destruct H. constructor; try assumption.
    - change (NoDup (h :: closed_handles c) /\ forall x, x ∈ h :: closed_handles c -> x ∈ closing c).
      split; [by constructor; [|apply l_closed0]|]. intros x [->|Hx]%elem_of_cons; [done|]. by apply l_closed0.
    - change (Nat.pred (pending_handle_closes_ c) + Datatypes.S (length (closed_handles c)) = length (closing c))%nat.
      rewrite Hc. cbn. lia.
    - intros Hr. change (consumer_runs c = true) in Hr. destruct (l_runs0 Hr) as (H1 & H2 & _ & H4).
      split_and!; [done|done| |done]. change (bool_decide (pending_handle_closes_ c = 1%nat) = false).
      apply bool_decide_eq_false_2. intros E. rewrite (Hjoin E H1) in Hr. done.
    - change (Tcp ∈ h :: closed_handles c -> writes c = []).
      intros [<-|Hx]%elem_of_cons; [by apply Hw|by apply l_writes0].
    - change (bool_decide (pending_handle_closes_ c = 1%nat) = true <-> Datatypes.S (length (closed_handles c)) = 4%nat).
      rewrite bool_decide_eq_true. lia. }
  unfold on_handle_closed. cbv zeta.
  set (c1 := c <| closed_handles := _ |> <| pending_handle_closes_ ::= Nat.pred |>).
  destruct (Nat.eqb_spec (pending_handle_closes_ c1) 0) as [E|E];
    change (pending_handle_closes_ c1) with (Nat.pred (pending_handle_closes_ c)) in E.
  - assert (Hone : true = bool_decide (pending_handle_closes_ c = 1%nat)).
    { symmetry. apply bool_decide_eq_true_2. lia. }
    eapply life_core; [|apply (Hlife (events c) true Hone)].
    by destruct (bool_decide (session_hex_ c1 = [])).
  - assert (Hone : false = bool_decide (pending_handle_closes_ c = 1%nat)).
    { symmetry. apply bool_decide_eq_false_2. lia. }
    assert (Ed : deleted c = false) by (destruct (deleted c) eqn:Ed; [apply (l_deleted c H) in Ed; lia|done]).
    eapply life_core; [|apply (Hlife (events c) false Hone)].
    unfold c1. clear - Ed. destruct c. cbn in Ed. by subst.
Qed.

Lemma step_life fuel l c c' :
  step rng_of now_of dir_exists router fuel l c c' -> life c -> life c'.
Proof.
  intros Hs H. destruct Hs as [c r Ht Hp Hr|c w ws ok Hw Ht|c Hr Hc|c Hs Hc|c Ho Hc|c h Hin Hnot Hw Hj|c data Hr|c Hr|c Hr].
  - destruct r as [[|b data]|]; cbn [on_read]; [done|by apply handle_raw_life|by apply begin_teardown_life].
  - apply on_write_safe. by eapply pop_write_life.
  - unfold on_resume_async. destruct (_ && _); by apply (life_core c).
  - by apply on_close_async_life.
  - apply on_outbox_safe. by apply (life_core c).
  - by apply handle_closed_life.
  - by apply (life_core c).
  - by apply (life_core c).
  - destruct (l_runs c H Hr) as (H1 & H2 & H3). destruct H. constructor; try assumption; try done.
Qed.

(** ** The history *)

Lemma start_streaming_frame request (c : Conn) :
  tls_active_ (start_streaming rng_of now_of request c) = tls_active_ c /\
  handled (start_streaming rng_of now_of request c) = handled c.
Proof.
  unfold start_streaming. cbv zeta. destruct (record_session _ _ _ _ _ _) as [w s].
  destruct (drop _ _); [done|]. unfold conn_backpressure. by destruct (_ && _).
Qed.

Lemma sniff_tls (c : Conn) : tls_active_ (sniff c) = tls_active_ c.
Proof.
  unfold sniff. destruct (proto_decided_ c); [done|]. cbv zeta.
  destruct (negb _); [done|]. by destruct (_ <=? _)%nat.
Qed.

Lemma safe_history c c' : safe c c' -> tls_active_ c' = tls_active_ c /\ handled c' = handled c.
Proof. intros (_ & Hf & _). unfold frame in Hf. by injection Hf as _ -> _ -> _. Qed.

Lemma safe_tls (c0 c c' : Conn) : safe c0 c' -> tls_active_ c0 = tls_active_ c -> tls_active_ c' = tls_active_ c.
Proof. intros Hs <-. by apply safe_history. Qed.

Lemma handshake_history data (c : Conn) :
  tls_active_ (on_handshake data c) = tls_active_ c /\ handled (on_handshake data c) = handled c.
Proof.
  unfold handle_handshake_data. cbv zeta. set (c0 := c <| handshake_buffer_ ::= _ |>).
  change (tls_active_ c) with (tls_active_ c0). change (handled c) with (handled c0).
  assert (Hs : tls_active_ (sniff c0) = tls_active_ c0 /\ handled (sniff c0) = handled c0).
  { split; [apply sniff_tls|]. pose proof (sniff_core c0) as E. unfold core in E. congruence. }
  destruct Hs as [<- <-]. generalize (sniff c0) as c1. clear c c0. intros c.
  destruct (negb (proto_decided_ c)); [done|].
  destruct (http_mode_ c); [apply safe_history, handle_http_safe|]. destruct (_ <? _)%nat; [done|].
  destruct (parse_and_verify_handshake _ _ _) as [status request].
  assert (Hp : forall st (c' : Conn), (if bool_decide (status = Ok) then prepare request c else (c, status)) = (c', st) ->
    tls_active_ c' = tls_active_ c /\ handled c' = handled c).
  { intros st c'. case_bool_decide; [|by intros [= <- <-]]. unfold prepare.
    destruct (get_or_create_sink _ _ _) as [[w s] sink]. by intros [= <- _]. }
  destruct (if bool_decide (status = Ok) then _ else _) as [c' st]. destruct (Hp st c' eq_refl) as [<- <-].
  destruct (safe_history _ _ (send_handshake_reply_safe st c')) as [<- <-].
  destruct (negb _); [done|]. apply start_streaming_frame.
Qed.

Lemma handle_data_history data (c : Conn) :
  tls_active_ (handle_data rng_of now_of dir_exists router data c) = tls_active_ c /\
  handled (handle_data rng_of now_of dir_exists router data c) = handled c ++ data.
Proof.
  unfold handle_data. cbv zeta. destruct (state_ _); [exact (handshake_history data (c <| handled ::= fun h => h ++ data |>))| |done].
  unfold conn_backpressure. by destruct (_ && _).
Qed.

Lemma accept_loop_tls fuel (c : Conn) : tls_active_ (accept_loop fuel c).1 = tls_active_ c.
Proof.
  revert c. induction fuel as [|fuel IH]; intros c; [done|]. cbn [accept_loop].
  destruct (ssl_accept _ _) as [[[s n] out] r]. cbv zeta. destruct r; cbn [fst].
  - by eapply safe_tls; [apply flush_out_safe|].
  - by eapply safe_tls; [apply flush_out_safe|].
  - rewrite IH. by eapply safe_tls; [apply flush_out_safe|].
  - by eapply safe_tls; [apply begin_teardown_safe|].
Qed.

Lemma read_plain_loop_tls fuel (c : Conn) :
  tls_active_ (read_plain_loop rng_of now_of dir_exists router fuel c) = tls_active_ c.
Proof.
  revert c. induction fuel as [|fuel IH]; intros c; [done|]. cbn [read_plain_loop].
  destruct (ssl_read _ _) as [[[[s n] out] plain] r]. cbv zeta. destruct r.
  - rewrite IH. by rewrite (proj1 (handle_data_history _ _)).
  - by eapply safe_tls; [apply flush_out_safe|].
  - rewrite IH. by eapply safe_tls; [apply flush_out_safe|].
  - by eapply safe_tls; [apply begin_teardown_safe|].
Qed.

Lemma ingest_tls data (c : Conn) : tls_active_ (ingest rng_of now_of dir_exists router data c) = tls_active_ c.
Proof.
  unfold ingest. cbv zeta. set (c2 := set_tls _ c). change (tls_active_ c) with (tls_active_ c2).
  destruct (handshake_done (tls_ c2)); [apply read_plain_loop_tls|].
  pose proof (accept_loop_tls (ssl_calls (ssl (tls_ c)) (length (in_buf (tls_ c2)))) c2) as H.
  destruct (accept_loop _ c2) as [c3 [|]]; cbn [fst] in H; [|done]. by rewrite read_plain_loop_tls.
Qed.

(** Without TLS [handle_data] is given what was read. *)
Lemma handle_raw_history data (c : Conn) :
  tls_active_ (handle_raw rng_of now_of dir_exists router data c) = false ->
  tls_active_ c = false /\ handled (handle_raw rng_of now_of dir_exists router data c) = handled c ++ data.
Proof.
  unfold handle_raw. set (r := if _ && _ then _ else _).
  assert (Hr : (tls_active_ r.1 = false -> tls_active_ c = false /\ handled r.1 = handled c /\ r.2 = true)).
  { unfold r. destruct (_ && _); [|done]. cbv zeta. case_bool_decide; cbn [tls_active_].
    - unfold tls_init. destruct (ssl_init _). done.
    - change (tls_active_ (c <| tls_detected_ := true |>)) with (tls_active_ c).
      destruct (tls_active_ c) eqn:E; [|done]. unfold tls_init. destruct (ssl_init _).
      cbn [fst]. intros Ht. change (tls_active_ c = false) in Ht. congruence. }
  destruct r as [c1 ok]. cbn [fst snd] in Hr. destruct ok; cbn [negb].
  - destruct (tls_active_ c1) eqn:E; [by rewrite ingest_tls, E|].
    destruct (Hr eq_refl) as (H1 & H2 & _). intros _. split; [done|]. rewrite <- H2. apply handle_data_history.
  - intros Ht. destruct (safe_history _ _ (begin_teardown_safe c1)) as [E _]. rewrite E in Ht.
    by destruct (Hr Ht) as (_ & _ & ?).
Qed.

Lemma step_handled fuel l c c' :
  step rng_of now_of dir_exists router fuel l c c' -> tls_active_ c' = false ->
  tls_active_ c = false /\
  handled c' = handled c ++ match l with LRead (Some data) => data | _ => [] end.
Proof.
  intros Hs. destruct Hs as [c r Ht Hp Hr|c w ws ok Hw Ht|c Hr Hc|c Hs Hc|c Ho Hc|c h Hin Hnot Hw Hj|c data Hr|c Hr|c Hr];
    rewrite ?app_nil_r.
  - destruct r as [[|b data]|]; cbn [on_read].
    + done.
    + apply handle_raw_history.
    + rewrite app_nil_r. destruct (safe_history _ _ (begin_teardown_safe c)) as [-> ->]. done.
  - destruct (safe_history _ _ (on_write_safe fuel w ok (c <| writes := ws |>))) as [-> ->]. done.
  - unfold on_resume_async. by destruct (_ && _).
  - unfold on_close_async. set (c1 := _ <| state_ := Closing |>).
    assert (E1 : tls_active_ c1 = tls_active_ c /\ handled c1 = handled c) by done. clearbody c1.
    pose proof (finalize_close_frame c1) as Hf. unfold frame in Hf. injection Hf as _ E2 _ E4 _.
    destruct E1 as [<- <-]. by rewrite E2, E4.
  - destruct (safe_history _ _ (on_outbox_safe (c <| outbox_sent := false |>))) as [-> ->]. done.
  - unfold on_handle_closed. cbv zeta. destruct (_ =? _)%nat; [|done]. by destruct (bool_decide _).
  - done.
  - done.
  - done.
Qed.

Lemma fresh_life server w s u peer : config server = cfg -> life (fresh server w s u peer).
Proof.
  intros Hcfg. constructor; cbn; try done.
  split; [constructor|]. intros h Hh. by apply elem_of_nil in Hh.
Qed.

Lemma accept_life ok server w s u peer : config server = cfg -> life (accept ok server w s u peer).
Proof. intros Hcfg. destruct ok; [by apply fresh_life|]. by apply begin_teardown_life, fresh_life. Qed.

Lemma reachable_life fuel ok server w s u peer c :
  config server = cfg ->
  rtc (any_step rng_of now_of dir_exists router fuel) (accept ok server w s u peer) c -> life c.
Proof.
  remember (accept ok server w s u peer) as c0 eqn:E0. intros Hcfg Hr. assert (H0 : life c0) by (subst; by apply accept_life).
  clear E0. induction Hr as [|c1 c2 c3 [l Hs] _ IH]; [done|]. apply IH. by eapply step_life.
Qed.
End Life.
