(* ===== verification/ConnTeardown.v ===== *)
(** * ConnTeardown: how a connection ends

    On the invariant of [ConnLife]: deletion is final, a teardown comes to its
    end in a bounded number of steps once the consumer has ended, and the consumer
    only ever runs behind an authenticated handshake. A connection whose accepting
    reply could not be written is the one whose handles close while its consumer
    runs ([ConnHandshake.lost_reply_hangs] shows it). The session list a client
    gets is at the end. *)

From coqutil Require Import Datatypes.RecordSetters.
From S2P Require Import Prelude Text Protocol Handshake ByteChannel PosixPath FileSink JsonDump JsonParse Http Db Router Server Connection ConnLife.
Import TriangleBracketNotations.
Open Scope record_set.

Section Teardown.
Context {W S D U : Type}.
Context {Fs : FsOps W} {Px : PosixOps W} {Gcm : GcmLib} {Json : JsonLib}.
Context {Ssl : SslLib S} {Dl : DownloadOps D} {Uv : UvLib U}.
Abbreviation Conn := (Connection W S D U).
Variables (rng_of : W -> option bytes) (now_of : W -> Z) (dir_exists : W -> bytes -> bool).
Variable router : Router.Router (C := Conn).
Variable fuel : nat.

Abbreviation stepl := (step rng_of now_of dir_exists router fuel).
Abbreviation steps := (any_step rng_of now_of dir_exists router fuel).

(** ** Facts about states with the invariant *)

Section Invariant.
Variable cfg : ServerConfig.
Abbreviation life := (ConnLife.life cfg).

Lemma every_handle h : h ∈ all_handles.
Proof. destruct h; repeat constructor. Qed.

Lemma closing_all (c : Conn) h : life c -> handles_closing_ c = true -> h ∈ closing c.
Proof. intros H Hc. rewrite (l_closing _ c H), Hc. apply every_handle. Qed.

Lemma closed_all (c : Conn) h : life c -> length (closed_handles c) = 4%nat -> h ∈ closed_handles c.
Proof.
  intros H Hlen. destruct (l_closed _ c H) as [Hnd Hin].
  assert (Hsub : closed_handles c ⊆+ all_handles).
  { apply NoDup_submseteq; [done|]. intros x _. apply every_handle. }
  apply submseteq_length_Permutation in Hsub; [|by rewrite Hlen]. rewrite Hsub. apply every_handle.
Qed.

Lemma deleted_closing (c : Conn) : life c -> deleted c = true -> handles_closing_ c = true.
Proof.
  intros H Hd. apply (l_deleted _ c H) in Hd. pose proof (l_closing _ c H) as Hc.
  pose proof (l_pending _ c H) as Hp. destruct (handles_closing_ c); [done|]. rewrite Hc in Hp. cbn in Hp. lia.
Qed.

Lemma deleted_not_runs (c : Conn) : life c -> deleted c = true -> consumer_runs c = false.
Proof.
  intros H Hd. destruct (consumer_runs c) eqn:E; [|done]. destruct (l_runs _ c H E) as (_ & _ & ? & _). congruence.
Qed.

(** A write is refused, so its completion only pops it. *)
Lemma write_out_refused w data (c : Conn) : Tcp ∈ closing c -> write_out w data c = (c, false).
Proof. intros Ht. unfold write_out. by rewrite bool_decide_eq_true_2. Qed.

Lemma begin_teardown_done (c : Conn) : teardown_started_ c = true -> begin_teardown c = c.
Proof. intros Ht. unfold begin_teardown. by rewrite Ht. Qed.

(** What closing leaves to count down. *)
Definition remaining (c : Conn) : nat := (length (writes c) + (4 - length (closed_handles c)))%nat.

(** The fields a completion of a write cannot change while the socket closes. *)
Definition closing_core (c : Conn) :=
  (teardown_started_ c, handles_closing_ c, closing c, closed_handles c, writes c, consumer_runs c).

Lemma encrypted_core (plain : bytes) (c : Conn) :
  closing_core (if tls_active_ c then tls_encrypt plain c else (c, Some plain)).1 = closing_core c.
Proof.
  destruct (tls_active_ c); [|done]. unfold tls_encrypt. by destruct (encrypt_pieces _ _ _) as [t [|]].
Qed.

Lemma download_send_closing n plain (c : Conn) :
  teardown_started_ c = true -> Tcp ∈ closing c -> closing_core (download_send n plain c) = closing_core c.
Proof.
  revert plain c. induction n as [|n IH]; intros plain c Ht Hin; cbn [download_send];
    (pose proof (encrypted_core plain c) as Henc;
     destruct (if tls_active_ c then tls_encrypt plain c else (c, Some plain)) as [c1 wire];
     cbn [fst] in Henc; rewrite <- Henc;
     (assert (Ht1 : teardown_started_ c1 = true) by (unfold closing_core in Henc; congruence));
     (assert (Hin1 : Tcp ∈ closing c1) by (unfold closing_core in Henc; congruence));
     (destruct wire as [[|b bs]|];
       [|by rewrite write_out_refused, begin_teardown_done by done|by rewrite begin_teardown_done])).
  - destruct (download_last_ c1); [by rewrite begin_teardown_done|done].
  - destruct (download_last_ c1); [by rewrite begin_teardown_done|].
    destruct (download_ c1) as [d|]; [|by rewrite begin_teardown_done].
    destruct (dl_next d) as [[d' chunk] more]. cbv zeta.
    destruct (negb (dl_ok d')); [by rewrite begin_teardown_done|].
    case_bool_decide; [by rewrite begin_teardown_done|]. by rewrite IH.
Qed.

Lemma on_write_closing n w ok (c : Conn) :
  teardown_started_ c = true -> Tcp ∈ closing c -> closing_core (on_write n w ok c) = closing_core c.
Proof.
  intros Ht Hin. destruct w as [after|after|]; cbn [on_write];
    (destruct (_ || _); [by rewrite begin_teardown_done|]); [done..|].
  unfold pump_download. destruct (download_ c) as [d|]; [|by rewrite begin_teardown_done].
  destruct (dl_next d) as [[d' chunk] more]. cbv zeta.
  destruct (negb (dl_ok d')); [by rewrite begin_teardown_done|].
  case_bool_decide; [by rewrite begin_teardown_done|]. by rewrite download_send_closing.
Qed.

Lemma on_handle_closed_core (c : Conn) : closing_core (on_handle_closed c) = closing_core c.
Proof.
  unfold on_handle_closed. cbv zeta. destruct (_ =? _)%nat; [|done]. by destruct (bool_decide _).
Qed.

(** While the handles close, only completions of writes and close callbacks are
    left: the first pop a write, the second add a closed handle. *)
Lemma closing_step (c c' : Conn) l :
  life c -> handles_closing_ c = true -> consumer_runs c = false -> stepl l c c' ->
  handles_closing_ c' = true /\ consumer_runs c' = false /\
  ((exists w ok, l = LWritten ok /\ writes c = w :: writes c' /\ closed_handles c' = closed_handles c) \/
   (exists h, l = LHandleClosed h /\ writes c' = writes c /\ closed_handles c' = h :: closed_handles c)).
Proof.
  intros H Hc Hr Hs. pose proof (l_torn _ c H Hc) as Htorn.
  destruct Hs as [c r Ht _ _|c w ws ok Hw Ht|c _ Hn|c _ Hn|c _ Hn|c h _ Hnot _ _|c data Hrun|c Hrun|c Hrun];
    try (exfalso; by apply Ht, closing_all); try (exfalso; by apply Hn, closing_all); try congruence.
  - set (c0 := c <| writes := ws |>).
    pose proof (on_write_closing fuel w ok c0 Htorn (closing_all c Tcp H Hc)) as Hcore.
    unfold closing_core in Hcore. injection Hcore as _ E2 _ E4 E5 E6.
    split; [exact (eq_trans E2 Hc)|]. split; [exact (eq_trans E6 Hr)|]. left. exists w, ok.
    split; [done|]. split; [|exact E4]. rewrite Hw. f_equal. symmetry. exact E5.
  - pose proof (on_handle_closed_core (c <| closed_handles := h :: closed_handles c |>)) as Hcore.
    unfold closing_core in Hcore. injection Hcore as _ E2 _ E4 E5 E6.
    split; [exact (eq_trans E2 Hc)|]. split; [exact (eq_trans E6 Hr)|]. right. exists h. split; [done|]. by split; [exact E5|exact E4].
Qed.

(** Every step of a closing connection takes one off. *)
Lemma closing_counts_down (c c' : Conn) :
  life c -> life c' -> handles_closing_ c = true -> consumer_runs c = false -> steps c c' ->
  handles_closing_ c' = true /\ consumer_runs c' = false /\ Datatypes.S (remaining c') = remaining c.
Proof.
  intros H H' Hc Hr [l Hs]. unfold remaining. pose proof (length_closed _ c' H') as Hle.
  destruct (closing_step c c' l H Hc Hr Hs) as (Hc' & Hr' & [(w & ok & _ & -> & E)|(h & _ & -> & E)]);
    rewrite E in *; cbn [length] in *; split_and!; try done; lia.
Qed.

(** Unless it is deleted a closing connection has a step. *)
Lemma closing_has_step (c : Conn) :
  life c -> handles_closing_ c = true -> consumer_runs c = false -> deleted c = false -> exists c', steps c c'.
Proof.
  intros H Hc Hr Hd.
  destruct (decide (Tcp ∈ closed_handles c)) as [Ht|Ht].
  - assert (Hex : exists h, h ∉ closed_handles c).
    { destruct (decide (Forall (fun h => h ∈ closed_handles c) all_handles)) as [Hall|Hno].
      - exfalso. assert (Hlen : (length all_handles <= length (closed_handles c))%nat).
        { apply submseteq_length, NoDup_submseteq.
          - apply (bool_decide_unpack _). by vm_compute.
          - intros x Hx. by eapply Forall_forall in Hall. }
        cbn in Hlen. pose proof (length_closed _ c H).
        assert (deleted c = true) by (apply (l_deleted _ c H); lia). congruence.
      - apply not_Forall_Exists in Hno; [|intros h; apply _]. apply Exists_exists in Hno as (h & _ & Hh). by exists h. }
    destruct Hex as [h Hh]. eexists. exists (LHandleClosed h).
    apply step_handle_closed; [by apply closing_all|done| |done]. intros ->. done.
  - destruct (writes c) as [|w ws] eqn:Ew.
    + eexists. exists (LHandleClosed Tcp). by apply step_handle_closed; [apply closing_all| | |].
    + eexists. exists (LWritten true). by eapply step_written.
Qed.
End Invariant.

(** ** Every connection *)

Variables (accepted : bool) (server : Server) (w : W) (s : S) (u : U) (peer : bytes).

(** The routes are built from the handlers [ConnLife] allows. *)
Hypothesis routes_ok : routes_safe router (config server).

Definition reachable (c : Conn) : Prop := rtc steps (accept accepted server w s u peer) c.

Lemma reachable_has_life (c : Conn) : reachable c -> ConnLife.life (config server) c.
Proof using routes_ok. by apply (reachable_life _ _ _ _ _ routes_ok). Qed.

(** [delete] is done at most once and last: when the connection is deleted
    its four handles are closed, no write is pending, the consumer has ended and
    no asynchronous callback, completion or read can reach it any more. *)
Theorem deleted_is_final (c : Conn) :
  reachable c -> deleted c = true ->
  (forall h, h ∈ closed_handles c) /\ writes c = [] /\ consumer_runs c = false /\
  (forall l c', ~ stepl l c c').
Proof using routes_ok.
  intros H%reachable_has_life Hd. pose proof (deleted_closing _ c H Hd) as Hc.
  pose proof (deleted_not_runs _ c H Hd) as Hr. pose proof Hd as Hlen. apply (l_deleted _ c H) in Hlen.
  split; [intros h; by eapply closed_all|]. split; [apply (l_writes _ c H); by eapply closed_all|].
  split; [done|]. intros l c' Hs. pose proof (closed_all _ c Tcp H Hlen) as Htcp.
  assert (H' : ConnLife.life (config server) c') by (by eapply step_life).
  destruct (closing_step _ c c' l H Hc Hr Hs) as (_ & _ & [(w0 & ok & _ & E & _)|(h & _ & _ & E)]).
  - rewrite (l_writes _ c H Htcp) in E. done.
  - pose proof (length_closed _ c' H') as Hle. rewrite E in Hle. cbn [length] in Hle. lia.
Qed.

(** C11: what a teardown waits for, and that it ends. Once started, either the
    handles are closing, or the consumer still runs and its channel is closed, or
    its last notification is due and closes the handles. When the handles are
    closing and the consumer has ended, every step of the connection is one of at
    most (pending writes + 4) steps, and there is one until it is deleted. The
    handles close while the consumer still runs in one case only: the accepting
    reply could not be written on an open connection. Then the state stays
    Streaming, nothing has closed the channel the consumer reads, and [delete]
    waits for the consumer. (Here and below [routes_ok]: handlers touch the
    connection only through what it offers them; the built-in ones do,
    [ConnLife.builtin_routes_safe].) *)
Theorem teardown_terminates (c : Conn) :
  reachable c -> teardown_started_ c = true ->
  (handles_closing_ c = false ->
     consumer_runs c = true /\ closed_ (channel_ c) = true \/
     exists c', stepl LClose c c' /\ handles_closing_ c' = true) /\
  (handles_closing_ c = true -> consumer_runs c = false ->
     forall n c', nsteps steps n c c' ->
       (n <= length (writes c) + 4)%nat /\ (deleted c' = true \/ exists c'', steps c' c'')) /\
  (handles_closing_ c = true -> consumer_runs c = true ->
     reply_refused (W := W) (S := S) (D := D) (U := U) /\
     state_ c = Streaming /\ closed_ (channel_ c) = false /\ deleted c = false).
Proof using routes_ok.
  intros H%reachable_has_life Ht. split; [|split].
  - intros Hc. destruct (consumer_runs c) eqn:Er.
    { left. split; [done|]. apply (l_channel _ c H Ht Er). intros Hst.
      destruct (l_lost _ c H Hst Ht). congruence. }
    right. destruct (consumer_started_ c) eqn:Es; [|by rewrite (l_alone _ c H Ht Es) in Hc].
    assert (Hcl : closing c = []) by (by rewrite (l_closing _ c H), Hc).
    eexists. split.
    + apply step_close; [by apply (l_ended _ c H)|]. rewrite Hcl. apply not_elem_of_nil.
    + unfold on_close_async. by rewrite finalize_close_open.
  - intros Hc Hr n c' Hn. assert (Hrun : ConnLife.life (config server) c' /\ handles_closing_ c' = true /\
      consumer_runs c' = false /\ (n + remaining c' = remaining c)%nat).
    { clear Ht. induction Hn as [c|n c c1 c2 Hs _ IH]; [done|].
      assert (H1 : ConnLife.life (config server) c1) by (destruct Hs as [l Hs]; by eapply step_life).
      destruct (closing_counts_down _ c c1 H H1 Hc Hr Hs) as (Hc1 & Hr1 & Hm).
      destruct (IH H1 Hc1 Hr1) as (? & ? & ? & ?). split_and!; [done|done|done|lia]. }
    destruct Hrun as (H' & Hc' & Hr' & Hm). split; [unfold remaining in Hm; lia|].
    destruct (deleted c') eqn:Ed; [by left|]. right. by eapply closing_has_step.
  - intros Hc Hr. destruct (l_runs _ c H Hr) as (_ & _ & Hd & Hst). specialize (Hst Hc).
    destruct (l_lost _ c H Hst Ht) as [_ Hlost]. destruct (l_stream _ c H Hst) as [Hcl _]. done.
Qed.

(** ** What a connection has received *)

(** A run with its labels. *)
Inductive history : list label -> Conn -> Prop :=
  | history_start : history [] (accept accepted server w s u peer)
  | history_step ls c l c' : history ls c -> stepl l c c' -> history (ls ++ [l]) c'.

Definition read_bytes (l : label) : bytes :=
  match l with LRead (Some data) => data | _ => [] end.

(** What the peer has sent, as libuv has handed it over. *)
Definition received (ls : list label) : bytes := concat (map read_bytes ls).

Lemma history_reachable ls (c : Conn) : history ls c -> reachable c.
Proof using Type.
  induction 1 as [|ls c l c' _ IH Hs]; [apply rtc_refl|]. eapply rtc_r; [exact IH|]. by exists l.
Qed.

End Teardown.

(** ** A concrete environment *)

(** Writes are always accepted, records always encrypted. *)
Section Reliable.
Context {W S D U : Type} {Ssl : SslLib S} {Uv : UvLib U}.
Abbreviation Conn := (Connection W S D U).
Hypothesis uv_reliable : forall (u : U) d, (uv_write u d).2 = true.
Hypothesis ssl_reliable : forall (s : S) d, (ssl_write s d).2 = true.

Abbreviation opened c := (closing c = [] /\ teardown_started_ c = false).

Lemma write_out_reliable x d (c : Conn) :
  opened c -> (write_out x d c).2 = true /\ opened (write_out x d c).1.
Proof using uv_reliable.
  intros [Hc Ht]. unfold write_out. rewrite Hc. rewrite bool_decide_eq_false_2 by apply not_elem_of_nil.
  pose proof (uv_reliable (uv c) d). by destruct (uv_write (uv c) d) as [u' ?]; cbn in *; subst.
Qed.

Lemma tls_write_reliable d after (c : Conn) : opened c -> opened (tls_write d after c).
Proof using uv_reliable.
  intros H. destruct (write_out_reliable (TlsWrite after) d c H) as [H2 H1]. unfold tls_write.
  destruct (write_out _ _ _) as [c' ok]. cbn in *. by subst.
Qed.

Lemma flush_out_reliable after (c : Conn) : opened c -> opened (flush_out after c).
Proof using uv_reliable.
  intros H. unfold flush_out. enough (Hp : forall n out (c : Conn), opened c -> opened (flush_pieces n out after c)).
  { by apply (Hp (length (out_buf (tls_ c))) (out_buf (tls_ c))) in H. }
  clear c H. induction n as [|n IH]; intros [|b out] c H; cbn [flush_pieces]; try done.
  apply IH. by apply tls_write_reliable.
Qed.

Lemma reply_reliable (c : Conn) status :
  closing c = [] -> teardown_started_ c = false -> teardown_started_ (send_handshake_reply status c) = false.
Proof using uv_reliable ssl_reliable.
  intros Hc Ht. unfold send_handshake_reply. destruct (tls_active_ c).
  - unfold tls_send. set (data := handshake_reply _ _ _). pose proof (ssl_reliable (ssl (tls_ c)) data) as Hs.
    destruct (ssl_write _ data) as [[s out] ok]. cbn in Hs. subst ok. by apply flush_out_reliable.
  - set (x := ReplyWrite _). set (data := handshake_reply _ _ _).
    destruct (write_out_reliable x data c (conj Hc Ht)) as [H2 H1].
    destruct (write_out x data c) as [c' ok]. cbn in *. subst ok. apply H1.
Qed.

Lemma reliable_never_refused : ~ reply_refused (W := W) (S := S) (D := D) (U := U).
Proof using uv_reliable ssl_reliable. intros (c & Hc & Ht & E). rewrite reply_reliable in E by done. done. Qed.
End Reliable.

(** Files for the sinks beside files for the stores; TLS as the identity; no archive. *)
#[export] Instance pair_fs : FsOps (MemFs * MemPosix) := {
  fs_open w p t := let '(m, fd) := fs_open w.1 p t in ((m, w.2), fd);
  fs_write w fd d off := let '(m, n) := fs_write w.1 fd d off in ((m, w.2), n);
  fs_fsync w fd := let '(m, n) := fs_fsync w.1 fd in ((m, w.2), n);
  fs_close w fd := let '(m, n) := fs_close w.1 fd in ((m, w.2), n);
  fs_create_directories w p := let '(m, e) := fs_create_directories w.1 p in ((m, w.2), e);
  fs_exists w p := fs_exists w.1 p;
}.

#[export] Instance pair_posix : PosixOps (MemFs * MemPosix) := {
  px_read w := px_read w.2;
  px_open_trunc w p := let '(m, r) := px_open_trunc w.2 p in ((w.1, m), r);
  px_open_append w p := let '(m, r) := px_open_append w.2 p in ((w.1, m), r);
  px_open_dir w p := let '(m, r) := px_open_dir w.2 p in ((w.1, m), r);
  px_write w fd d := let '(m, r) := px_write w.2 fd d in ((w.1, m), r);
  px_fsync w fd := let '(m, r) := px_fsync w.2 fd in ((w.1, m), r);
  px_close w fd := (w.1, px_close w.2 fd);
  px_unlink w p := (w.1, px_unlink w.2 p);
  px_rename w a b := let '(m, r) := px_rename w.2 a b in ((w.1, m), r);
}.

#[export] Instance no_tls : SslLib unit := {
  ssl_init s := (s, true);
  ssl_accept s _ := (s, 0%nat, [], SslOk);
  ssl_read s b := (s, length b, [], b, match b with [] => WantRead | _ => SslOk end);
  ssl_write s d := (s, d, true);
  ssl_calls s n := Datatypes.S n;
}.

#[export] Instance no_downloads : DownloadOps unit := {
  dl_begin _ _ := None;
  dl_next d := (d, [], false);
  dl_ok d := true;
}.

#[export] Instance always_writes : UvLib unit := { uv_write u _ := (u, true) }.

Abbreviation MemConn := (Connection (MemFs * MemPosix) unit unit unit).

Definition no_dirs (w : MemFs * MemPosix) (d : bytes) : bool := false.
Definition zeros (w : MemFs * MemPosix) : option bytes := Some (repeat x00 12).
Definition epoch (w : MemFs * MemPosix) : Z := 7.
Definition mem_routes : Router.Router (C := MemConn) :=
  {| routes := [];
     builtins := [root_route; list_route (Ops := ops no_dirs); download_route (Ops := ops no_dirs)] |}.
Definition mem_world : MemFs * MemPosix := (empty_fs, no_files).
Definition mem_server : Server := new_server mem_world small_config.

Lemma mem_routes_safe cfg : routes_safe mem_routes cfg.
Proof. intros r. by apply (builtin_routes_safe no_dirs cfg). Qed.

Lemma mem_never_refused : ~ reply_refused (W := MemFs * MemPosix) (S := unit) (D := unit) (U := unit).
Proof. by apply reliable_never_refused. Qed.

Abbreviation mem_steps := (any_step zeros epoch no_dirs mem_routes 0).
Abbreviation mem_reachable := (reachable zeros epoch no_dirs mem_routes 0 true mem_server mem_world tt tt (str "1.2:3")).

(** The client hangs up; the handles close one after the other. *)
Definition hung_up : MemConn :=
  on_read zeros epoch no_dirs mem_routes None (accept true mem_server mem_world tt tt (str "1.2:3")).
Definition close_one (c : MemConn) (h : Handle) : MemConn :=
  on_handle_closed (c <| closed_handles := h :: closed_handles c |>).
Definition gone : MemConn := fold_left close_one [Tcp; CloseAsync; OutboxAsync; ResumeAsync] hung_up.

Lemma hung_up_reachable : mem_reachable hung_up.
Proof. apply rtc_once. exists (LRead None). apply step_read; [apply not_elem_of_nil|done|done]. Qed.

Lemma close_one_step (c : MemConn) h :
  bool_decide (h ∈ closing c) = true -> bool_decide (h ∈ closed_handles c) = false -> writes c = [] ->
  consumer_started_ c = false -> mem_steps c (close_one c h).
Proof.
  intros H1%bool_decide_eq_true H2%bool_decide_eq_false H3 H4. exists (LHandleClosed h).
  apply step_handle_closed; [done|done|done|]. intros _ ?. congruence.
Qed.

Lemma gone_steps : nsteps mem_steps 4 hung_up gone.
Proof.
  unfold gone. cbn [fold_left].
  eapply nsteps_l; [apply (close_one_step _ Tcp); by vm_compute|].
  eapply nsteps_l; [apply (close_one_step _ CloseAsync); by vm_compute|].
  eapply nsteps_l; [apply (close_one_step _ OutboxAsync); by vm_compute|].
  eapply nsteps_l; [apply (close_one_step _ ResumeAsync); by vm_compute|]. constructor.
Qed.

Lemma gone_reachable : mem_reachable gone.
Proof.
  unfold reachable. transitivity hung_up; [apply hung_up_reachable|].
  apply rtc_nsteps. eexists. apply gone_steps.
Qed.

Lemma deleted_is_final_witness :
  (forall h, h ∈ closed_handles gone) /\ writes gone = [] /\ consumer_runs gone = false /\
  (forall l c', ~ step zeros epoch no_dirs mem_routes 0 l gone c').
Proof.
  apply (deleted_is_final zeros epoch no_dirs mem_routes 0 true mem_server mem_world tt tt (str "1.2:3")
    (mem_routes_safe _) gone gone_reachable).
  by vm_compute.
Defined.

Lemma teardown_terminates_witness :
  (handles_closing_ hung_up = false ->
     consumer_runs hung_up = true /\ closed_ (channel_ hung_up) = true \/
     exists c', step zeros epoch no_dirs mem_routes 0 LClose hung_up c' /\ handles_closing_ c' = true) /\
  (handles_closing_ hung_up = true -> consumer_runs hung_up = false ->
     forall n c', nsteps mem_steps n hung_up c' ->
       (n <= length (writes hung_up) + 4)%nat /\ (deleted c' = true \/ exists c'', mem_steps c' c'')) /\
  (handles_closing_ hung_up = true -> consumer_runs hung_up = true ->
     reply_refused (W := MemFs * MemPosix) (S := unit) (D := unit) (U := unit) /\
     state_ hung_up = Streaming /\ closed_ (channel_ hung_up) = false /\ deleted hung_up = false).
Proof.
  apply (teardown_terminates zeros epoch no_dirs mem_routes 0 true mem_server mem_world tt tt (str "1.2:3")
    (mem_routes_safe _) hung_up hung_up_reachable).
  by vm_compute.
Defined.

(** A client of version 2 with the server's key. *)
Definition mem_request : bytes := handshake 2 1 Zstd id1 (str "k").
Definition served : MemConn :=
  on_read zeros epoch no_dirs mem_routes (Some mem_request) (accept true mem_server mem_world tt tt (str "1.2:3")).

Abbreviation mem_history := (history zeros epoch no_dirs mem_routes 0 true mem_server mem_world tt tt (str "1.2:3")).

Lemma served_history : mem_history [LRead (Some mem_request)] served.
Proof.
  apply (history_step _ _ _ _ _ _ _ _ _ _ _ [] _ (LRead (Some mem_request)) _ (history_start _ _ _ _ _ _ _ _ _ _ _)).
  unfold served. apply step_read; [apply not_elem_of_nil|done|].
  intros E. apply (f_equal (from_option length 0%nat)) in E. vm_compute in E. discriminate.
Qed.

Example served_streams : (state_ served, consumer_runs served, blocks_ (channel_ served)) = (Streaming, true, [[cmd_to_byte Upload]]).
Proof. by vm_compute. Qed.


(** ** The session list *)

Section Listing.
Context {W S D U : Type}.
Context {Fs : FsOps W} {Px : PosixOps W} {Gcm : GcmLib} {Json : JsonLib}.
Context {Ssl : SslLib S} {Dl : DownloadOps D} {Uv : UvLib U}.
Variable dir_exists : W -> bytes -> bool.
#[local] Existing Instance ops.

(** C38: an authorised GET of /uploads is answered with JSON, whatever the session
    log holds: the text parses to one row per session of the log, in the order of
    their ids, each with its id, address and time. No row makes the printer throw. *)
Theorem uploads_listing (router : Router.Router (C := Connection W S D U)) (c : Connection W S D U) (request : HttpRequest) :
  builtins router = builtins (with_builtins (Ops := ops dir_exists)) -> not_taken router request ->
  rq_method request = GET -> rq_path request = str "/uploads" -> conn_authorized c request = true ->
  exists body,
    dispatch_http dir_exists router c request =
      conn_send_http_simple c 200 (reason_phrase 200) (str "application/json") body [] /\
    parse body = Some (VArray (map listed_row (in_key_order (server_load_sessions (world_ c) (server_ c) ∅)))).
Proof.
  intros Hb Ht Hm Hp Ha. apply (list_answer (Ops := ops dir_exists) router c request Hb Ht Hm Hp Ha). apply load_all_good.
Qed.
End Listing.

(** A server with one token and one session. *)
Definition list_posix : MemPosix :=
  match add_token no_files (tokens_path_ mem_server) (str "/srv") (str "k") 9 (Some nonce0) (str "t1") with
  | Some (w, _) => (record_session w (new_server w small_config) (Some nonce0) 7 (str "ab") (str "1.2")).1
  | None => no_files
  end.

Definition list_conn : MemConn := accept true mem_server (empty_fs, list_posix) tt tt (str "1.2:3").
Definition list_request : HttpRequest := get_request (str "/uploads") [(str "authorization", str "Bearer t1")].

Lemma uploads_listing_witness : exists body,
  dispatch_http no_dirs mem_routes list_conn list_request =
    conn_send_http_simple list_conn 200 (reason_phrase 200) (str "application/json") body [] /\
  parse body = Some (VArray [VObject [(created_key, VUnsigned 7); (ip_key, VString (str "1.2")); (session_key, VString (str "ab"))]]).
Proof.
  destruct (uploads_listing no_dirs mem_routes list_conn list_request) as (body & Hd & Hj);
    [reflexivity|intros r Hr; by apply elem_of_nil in Hr|reflexivity|reflexivity|by vm_compute|].
  exists body. split; [exact Hd|]. rewrite Hj. vm_compute. reflexivity.
Defined.
