(* ===== verification/ConnHandshake.v ===== *)
(** * ConnHandshake: from the first byte of a client to its consumer

    A plain connection reads what the client's worker sends, cut into reads
    wherever the network cuts it. The composition of the client's [handshake]
    with the server's handlers: whatever the cuts, one reply goes out and the
    consumer's channel holds exactly what follows the request. The last section
    is the case of a reply that cannot be written. *)

From coqutil Require Import Datatypes.RecordSetters.
From S2P Require Import Prelude Text Protocol Wire Hmac Handshake ByteChannel PosixPath FileSink Http Db Router Server Connection ConnLife ConnTeardown.
Import TriangleBracketNotations.
Open Scope record_set.

Section Plain.
Context {W S D U : Type}.
Context {Fs : FsOps W} {Px : PosixOps W} {Gcm : GcmLib} {Json : JsonLib}.
Context {Ssl : SslLib S} {Dl : DownloadOps D} {Uv : UvLib U}.
Abbreviation Conn := (Connection W S D U).
Variables (rng_of : W -> option bytes) (now_of : W -> Z) (dir_exists : W -> bytes -> bool).
Variable router : Router.Router (C := Conn).

Abbreviation raw := (handle_raw rng_of now_of dir_exists router).
Abbreviation plain := (handle_data rng_of now_of dir_exists router).

(** The connection, and a request the server accepts. *)
Variables (server : Server) (w : W) (s : S) (u : U) (peer : bytes).
Variables (v f : Z) (a : CompressionAlgo) (sid : bytes).
Hypothesis v_word : is_word 16 v.
Hypothesis v_known : kMinProtocolVersion <= v <= kProtocolVersion.
Hypothesis f_byte : 0 <= f < 256.
Hypothesis sid_length : length sid = kSessionIdSize.
Hypothesis a_known : algo_supported (Some a) = true.

Definition accepted_request : HandshakeRequest :=
  {| version := v; flags := f; algo := Some a; session_id := sid |}.

(** The bytes of the request itself, without the command behind them. *)
Definition request_bytes : bytes :=
  signed_prefix v f a sid ++ hmac (cfg_key (config server)) (signed_prefix v f a sid).

Lemma length_request : length request_bytes = kHandshakeRequestSize.
Proof.
  unfold request_bytes. rewrite length_app, hmac_length, length_signed_prefix by done. done.
Qed.

Lemma request_magic : exists tail, request_bytes = kMagic ++ tail.
Proof. unfold request_bytes, signed_prefix. rewrite <- !app_assoc. by eexists. Qed.

Lemma parse_accepted tail :
  parse_and_verify_handshake (request_bytes ++ tail) (cfg_key (config server)) new_handshake =
  (Ok, accepted_request).
Proof. unfold request_bytes. rewrite <- app_assoc. by apply parse_request. Qed.

(** The directory of the session can be had. *)
Variables (w1 : W) (server1 : Server).
Hypothesis sink_ok : get_or_create_sink w server sid = (w1, server1, Some (session_id_to_hex sid)).

(** ** A connection that waits for its request *)

(** The side of the connection that faces the network, which the handlers of
    incoming data leave alone but for the reply. *)
Record Side := mkSide {
  sd_active : bool;
  sd_uv : U;
  sd_writes : list Write;
  sd_written : list bytes;
  sd_tls : TlsLayer S;
}.

Definition on_side (x : Side) (c : Conn) : Conn :=
  c <| tls_active_ := sd_active x |> <| uv := sd_uv x |> <| writes := sd_writes x |>
    <| written := sd_written x |> <| tls_ := sd_tls x |>.

Definition plain_side : Side := mkSide false u [] [] (mkTls s [] 0 [] false).

(** After the bytes [buf]; [dec]: four of them have been seen. *)
Definition waiting (x : Side) (tdet dec : bool) (buf : bytes) : Conn :=
  on_side x ((fresh server w s u peer) <| tls_detected_ := tdet |> <| proto_decided_ := dec |>
    <| handshake_buffer_ := buf |> <| handled := buf |>).

Lemma sniff_waiting x buf dec data :
  (dec = true -> 4 <= length buf)%nat ->
  (exists tail, (buf ++ data) ++ tail = request_bytes \/ buf ++ data = request_bytes ++ tail) ->
  sniff ((waiting x true dec buf) <| handled ::= fun h => h ++ data |> <| handshake_buffer_ ::= fun b => b ++ data |>) =
  waiting x true (dec || (4 <=? length (buf ++ data))%nat) (buf ++ data).
Proof.
  intros Hdec Hpre. destruct dec.
  - reflexivity.
  - assert (Hm : take (Nat.min (length (buf ++ data)) 4) (buf ++ data) =
                 take (Nat.min (length (buf ++ data)) 4) kMagic).
    { destruct request_magic as [t Et]. destruct Hpre as [tail [E|E]]; rewrite Et in E.
      - apply (f_equal (take (Nat.min (length (buf ++ data)) 4))) in E.
        rewrite take_app_le, (take_app_le kMagic) in E by (cbn; lia). exact E.
      - rewrite E, <- app_assoc. by rewrite (take_app_le kMagic) by (cbn; lia). }
    unfold sniff. change (proto_decided_ _) with false. cbv iota zeta.
    change (handshake_buffer_ _) with (buf ++ data). change (length kMagic) with 4%nat.
    rewrite Hm, bool_decide_eq_true_2 by done. cbn [negb orb]. by destruct (4 <=? length (buf ++ data))%nat.
Qed.

(** The first byte a client sends is not that of a TLS record. *)
Lemma raw_waiting buf data tdet dec :
  (tdet = false -> head data <> Some x16) ->
  raw data (waiting plain_side tdet dec buf) = plain data (waiting plain_side true dec buf).
Proof.
  intros Hhead. unfold handle_raw. change (state_ (waiting plain_side tdet dec buf)) with Handshaking.
  change (tls_detected_ (waiting plain_side tdet dec buf)) with tdet. destruct tdet; [reflexivity|].
  rewrite bool_decide_eq_true_2 by done. cbn [negb andb]. rewrite bool_decide_eq_false_2 by auto. reflexivity.
Qed.

Lemma request_incomplete x buf data dec tail :
  (dec = true -> 4 <= length buf)%nat -> (buf ++ data) ++ tail = request_bytes -> tail <> [] ->
  plain data (waiting x true dec buf) = waiting x true (dec || (4 <=? length (buf ++ data))%nat) (buf ++ data).
Proof.
  intros Hdec E Htail. unfold handle_data. cbv zeta. change (state_ _) with Handshaking. cbv iota. unfold handle_handshake_data.
  rewrite sniff_waiting by eauto. cbv zeta. set (d := dec || _). destruct d; [|reflexivity].
  change (proto_decided_ _) with true. change (http_mode_ _) with false. cbn [negb].
  change (handshake_buffer_ _) with (buf ++ data).
  apply (f_equal length) in E. rewrite length_app, length_request in E.
  destruct tail; [done|]. cbn [length] in E.
  destruct (Nat.ltb_spec (length (buf ++ data)) kHandshakeRequestSize); [done|]. lia.
Qed.

(** ... and when its request is in order. *)
Definition prepared (x : Side) (tail : bytes) : Conn :=
  (waiting x true true (request_bytes ++ tail))
  <| world_ := w1 |> <| server_ := server1 |> <| algo_ := Some a |>
  <| sink_name_ := Some (session_id_to_hex sid) |> <| protocol_version_ := v |> <| mode_ := mode_for server1 v |>.

Lemma request_complete x buf data dec tail :
  (dec = true -> 4 <= length buf)%nat -> buf ++ data = request_bytes ++ tail ->
  plain data (waiting x true dec buf) =
  start_streaming rng_of now_of accepted_request (send_handshake_reply Ok (prepared x tail)).
Proof.
  intros Hdec E. unfold handle_data. cbv zeta. change (state_ _) with Handshaking. cbv iota. unfold handle_handshake_data.
  rewrite sniff_waiting by eauto. cbv zeta. rewrite E.
  assert (Hlen : (length (request_bytes ++ tail) = kHandshakeRequestSize + length tail)%nat)
    by (by rewrite length_app, length_request).
  replace (dec || _) with true.
  2:{ symmetry. apply orb_true_iff. right. apply Nat.leb_le. rewrite Hlen. unfold kHandshakeRequestSize. cbn. lia. }
  change (proto_decided_ _) with true. change (http_mode_ _) with false. cbn [negb].
  set (c := waiting x true true (request_bytes ++ tail)).
  change (handshake_buffer_ c) with (request_bytes ++ tail).
  change (cfg_key (config (server_ c))) with (cfg_key (config server)).
  destruct (Nat.ltb_spec (length (request_bytes ++ tail)) kHandshakeRequestSize); [lia|].
  rewrite parse_accepted, bool_decide_eq_true_2 by done.
  unfold prepare. change (world_ c) with w. change (server_ c) with server.
  cbn [session_id accepted_request algo]. rewrite sink_ok.
  replace (bool_decide (Some a = Some Lz4) || bool_decide (Some a = Some Zstd)) with true.
  2:{ symmetry. apply algo_supported_inv in a_known as [->| ->]; reflexivity. }
  reflexivity.
Qed.

(** ** What the consumer gets *)

Abbreviation accept_reply := (handshake_reply Ok v (mode_for server1 v)).

(** Streaming, with these bytes received and not yet read by the consumer. *)
Record feeds (after : bytes) (c : Conn) : Prop := {
  fd_state : state_ c = Streaming;
  fd_open : teardown_started_ c = false /\ closing c = [];
  fd_runs : consumer_runs c = true;
  fd_chan : chan_inv (channel_ c);
  fd_chan_open : closed_ (channel_ c) = false;
  fd_contents : contents (channel_ c) = after;
  fd_session : session_hex_ c = session_id_to_hex sid /\ sink_name_ c = Some (session_id_to_hex sid);
  fd_request : algo_ c = Some a /\ integrity_checks_ c = has_flag f IntegrityChecks;
}.

(** The fields that [feeds] says nothing of. *)
Definition same_side (c c' : Conn) : Prop :=
  tls_active_ c' = tls_active_ c /\ tls_ c' = tls_ c /\ uv c' = uv c /\ writes c' = writes c /\ written c' = written c.

Lemma same_side_trans c1 c2 c3 : same_side c1 c2 -> same_side c2 c3 -> same_side c1 c3.
Proof. unfold same_side. intros (?&?&?&?&?) (?&?&?&?&?). by split_and!; etransitivity. Qed.

Lemma backpressure_feeds after c : feeds after c -> feeds after (conn_backpressure c) /\ same_side c (conn_backpressure c).
Proof. intros []. unfold conn_backpressure. destruct (_ && _); (split; [by constructor|done]). Qed.

Lemma push_feeds after data c :
  feeds after c -> feeds (after ++ data) (c <| channel_ ::= fun ch => push ch data |>).
Proof.
  intros []. constructor; try done.
  - by apply push_inv.
  - change (closed_ (push (channel_ c) data) = false). by rewrite push_keeps_closed.
  - change (contents (push (channel_ c) data) = after ++ data). rewrite push_contents by done. by f_equal.
Qed.

Lemma plain_feeds after data c :
  feeds after c -> feeds (after ++ data) (plain data c) /\ same_side c (plain data c).
Proof.
  intros H. unfold handle_data. cbv zeta. change (state_ (c <| handled ::= _ |>)) with (state_ c).
  rewrite (fd_state _ _ H). set (c1 := _ <| wire_bytes_ := _ |>). assert (H1 : feeds after c1) by by destruct H.
  by destruct (backpressure_feeds _ _ (push_feeds after data c1 H1)) as [H2 Hs].
Qed.

(** The reply has gone out and left the connection on the side [x]. *)
Lemma streaming_feeds x tail :
  let c := start_streaming rng_of now_of accepted_request (on_side x (prepared plain_side tail)) in
  feeds tail c /\ same_side (on_side x (prepared plain_side tail)) c.
Proof.
  cbv zeta. unfold start_streaming. cbv zeta. destruct (record_session _ _ _ _ _ _) as [w2 s2].
  change (drop kHandshakeRequestSize _) with (drop kHandshakeRequestSize (request_bytes ++ tail)).
  rewrite <- length_request, drop_app_length.
  set (c1 := _ <| consumer_runs := true |>). assert (H : feeds [] c1) by (constructor; try done; apply new_channel_inv).
  destruct tail as [|b tail]; [done|].
  by destruct (backpressure_feeds _ _ (push_feeds [] (b :: tail) c1 H)) as [H2 Hs].
Qed.

Section Accepted.
Variable u1 : U.
Hypothesis reply_written : uv_write u accept_reply = (u1, true).

(** On a plain connection, the reply sent. *)
Record streams (after : bytes) (c : Conn) : Prop := {
  st_feeds : feeds after c;
  st_plain : tls_active_ c = false;
  st_written : written c = [accept_reply];
}.

Lemma raw_streams after data c : streams after c -> streams (after ++ data) (raw data c).
Proof.
  intros [H Hp Hw]. unfold handle_raw. rewrite (fd_state _ _ H).
  change (bool_decide (Streaming = Handshaking)) with false. cbn [andb negb]. rewrite Hp.
  destruct (plain_feeds after data c H) as [H1 (E1 & _ & _ & _ & E2)]. constructor; [done|congruence..].
Qed.

Definition replied_side : Side := mkSide false u1 [ReplyWrite false] [accept_reply] (mkTls s [] 0 [] false).

Lemma reply_sent tail :
  send_handshake_reply Ok (prepared plain_side tail) = on_side replied_side (prepared plain_side tail).
Proof.
  unfold send_handshake_reply. change (tls_active_ _) with false. cbv iota.
  unfold write_out. change (closing _) with (@nil Handle). rewrite bool_decide_eq_false_2 by apply not_elem_of_nil.
  change (uv _) with u. change (handshake_reply _ _ _) with accept_reply. rewrite reply_written. reflexivity.
Qed.

Lemma complete_streams buf data tdet dec tail :
  (dec = true -> 4 <= length buf)%nat -> (tdet = false -> head data <> Some x16) ->
  buf ++ data = request_bytes ++ tail -> streams tail (raw data (waiting plain_side tdet dec buf)).
Proof.
  intros Hdec Hhead E. rewrite raw_waiting, (request_complete plain_side buf data dec tail), reply_sent by done.
  destruct (streaming_feeds replied_side tail) as [H (E1 & _ & _ & _ & E2)].
  constructor; [done|by rewrite E1|by rewrite E2].
Qed.

Lemma fold_streams ds after c :
  streams after c -> streams (after ++ concat ds) (fold_left (fun c d => raw d c) ds c).
Proof.
  revert after c. induction ds as [|d ds IH]; intros after c Hs; cbn [fold_left concat].
  - by rewrite app_nil_r.
  - rewrite app_assoc. apply IH. by apply raw_streams.
Qed.

Lemma cut_streams ds buf tdet dec tail :
  Forall (fun d => d <> []) ds -> buf ++ concat ds = request_bytes ++ tail ->
  (length buf < kHandshakeRequestSize)%nat -> (dec = true -> 4 <= length buf)%nat -> (tdet = false -> buf = []) ->
  streams tail (fold_left (fun c d => raw d c) ds (waiting plain_side tdet dec buf)).
Proof.
  intros Hds. revert buf tdet dec. induction Hds as [|d ds Hd Hds IH]; intros buf tdet dec E Hlen Hdec Hbuf.
  - exfalso. cbn [concat] in E. rewrite app_nil_r in E. subst buf.
    rewrite length_app, length_request in Hlen. lia.
  - cbn [fold_left concat] in *.
    assert (Hhead : tdet = false -> head d <> Some x16).
    { intros ->%Hbuf. destruct request_magic as [t Et]. rewrite Et in E. destruct d as [|b d]; [done|].
      injection E as -> _. done. }
    destruct (decide (length (buf ++ d) < kHandshakeRequestSize)%nat) as [Hlt|Hge].
    + rewrite raw_waiting by done.
      rewrite (request_incomplete plain_side buf d dec (drop (length (buf ++ d)) request_bytes)); try done.
      * apply IH; [by rewrite <- app_assoc|done| |done].
        intros [?%Hdec|?%Nat.leb_le]%orb_true_iff; [|done]. rewrite length_app. lia.
      * assert (Htake : take (length (buf ++ d)) request_bytes = buf ++ d).
        { rewrite app_assoc in E. apply (f_equal (take (length (buf ++ d)))) in E.
          rewrite take_app_length, take_app_le in E by (rewrite length_request; lia). done. }
        rewrite <- Htake at 1. apply take_drop.
      * intros Hnil. apply (f_equal length) in Hnil. rewrite length_drop, length_request in Hnil. cbn [length] in Hnil. lia.
    + assert (Hsplit : exists got, buf ++ d = request_bytes ++ got /\ got ++ concat ds = tail).
      { exists (drop kHandshakeRequestSize (buf ++ d)). rewrite app_assoc in E.
        assert (Htake : take kHandshakeRequestSize (buf ++ d) = request_bytes).
        { apply (f_equal (take kHandshakeRequestSize)) in E. rewrite take_app_le in E by lia.
          rewrite E, <- length_request. apply take_app_length. }
        split; [by rewrite <- Htake at 1; rewrite take_drop|].
        apply (f_equal (drop kHandshakeRequestSize)) in E. rewrite drop_app_le in E by lia.
        rewrite E, <- length_request. apply drop_app_length. }
      destruct Hsplit as (got & E1 & <-).
      apply fold_streams. by apply complete_streams.
Qed.

(** C13: the handshake does not depend on how the stream is cut into reads: after
    the client's request and whatever follows it have come in, one accepting
    reply has been sent, the consumer runs for the request's session with its
    algorithm and flags, and what it has to read is exactly what followed the
    request, starting with the command byte. *)
Theorem handshake_any_cut (ds : list bytes) (rest : bytes) :
  Forall (fun d => d <> []) ds ->
  concat ds = handshake v f a sid (cfg_key (config server)) ++ rest ->
  streams (cmd_to_byte Upload :: rest) (fold_left (fun c d => raw d c) ds (fresh server w s u peer)).
Proof using All.
  intros Hds E. apply (cut_streams ds [] false false); [done| |by apply Nat.ltb_lt|done|done].
  cbn [app]. rewrite E, handshake_layout. unfold request_bytes. by rewrite <- app_assoc.
Qed.
End Accepted.

(** ** A reply that cannot be written *)

Section Refused.
Variable (u1 : U) (fuel : nat).
Hypothesis reply_refused : uv_write u accept_reply = (u1, false).

(** The consumer has been started although the connection is being torn down. *)
Record stuck (c : Conn) : Prop := {
  sk_closing : closing c = all_handles;
  sk_started : consumer_started_ c = true;
  sk_runs : consumer_runs c = true;
  sk_writes : writes c = [];
  sk_pending : (1 <= pending_handle_closes_ c)%nat;
  sk_channel : closed_ (channel_ c) = false /\ blocks_ (channel_ c) = [];
  sk_alive : deleted c = false;
}.

Lemma refused_stuck : stuck (raw request_bytes (fresh server w s u peer)).
Proof.
  change (fresh server w s u peer) with (waiting plain_side false false []).
  rewrite raw_waiting by (intros _; by destruct request_magic as [t ->]).
  rewrite (request_complete plain_side [] request_bytes false []); [|done|by rewrite app_nil_r].
  assert (Hs : send_handshake_reply Ok (prepared plain_side []) = begin_teardown ((prepared plain_side []) <| uv := u1 |>)).
  { unfold send_handshake_reply. change (tls_active_ _) with false. cbv iota.
    unfold write_out. change (closing _) with (@nil Handle). rewrite bool_decide_eq_false_2 by apply not_elem_of_nil.
    change (uv _) with u. change (handshake_reply _ _ _) with accept_reply. by rewrite reply_refused. }
  rewrite Hs. unfold begin_teardown. change (teardown_started_ _) with false. cbv iota zeta.
  change (consumer_started_ _) with false. cbv iota. rewrite finalize_close_open by done.
  unfold start_streaming. cbv zeta. destruct (record_session _ _ _ _ _ _) as [w2 s2].
  change (drop kHandshakeRequestSize _) with (drop kHandshakeRequestSize (request_bytes ++ [])).
  rewrite <- length_request, drop_app_length. constructor; try done. cbn. lia.
Qed.

Lemma stuck_step (c c' : Conn) l :
  step rng_of now_of dir_exists router fuel l c c' -> l <> LEnd -> stuck c -> stuck c'.
Proof.
  intros Hs Hl H. pose proof (sk_closing c H) as Hc.
  destruct Hs as [c r Ht _ _|c x ws ok Hw _|c _ Hn|c _ Hn|c _ Hn|c h _ _ _ Hj|c data Hrun|c Hrun|c Hrun]; try done;
    try (exfalso; apply Hn; rewrite Hc; apply every_handle).
  - exfalso. apply Ht. rewrite Hc. apply every_handle.
  - rewrite (sk_writes c H) in Hw. done.
  - assert (Hp : (2 <= pending_handle_closes_ c)%nat).
    { pose proof (sk_pending c H). destruct (decide (pending_handle_closes_ c = 1%nat)) as [E|]; [|lia].
      specialize (Hj E (sk_started c H)). rewrite (sk_runs c H) in Hj. done. }
    unfold on_handle_closed. cbv zeta.
    set (c1 := c <| closed_handles := _ |> <| pending_handle_closes_ ::= Nat.pred |>).
    change (pending_handle_closes_ c1) with (Nat.pred (pending_handle_closes_ c)).
    destruct (Nat.eqb_spec (Nat.pred (pending_handle_closes_ c)) 0); [lia|].
    destruct H. constructor; try assumption.
    change (1 <= Nat.pred (pending_handle_closes_ c))%nat. lia.
  - destruct H. by constructor.
  - destruct H. by constructor.
Qed.

(** A lost accepting reply hangs the server. When the reply to a request
    cannot be written the teardown closes the handles, yet the consumer is
    started: its channel is never closed, so in every state it has not left by
    itself it waits for its command byte, and the loop thread, which joins it
    before the deletion, waits for it. *)
Theorem lost_reply_hangs (c : Conn) :
  rtc (fun c1 c2 => exists l, l <> LEnd /\ step rng_of now_of dir_exists router fuel l c1 c2)
    (on_read rng_of now_of dir_exists router (Some request_bytes) (fresh server w s u peer)) c ->
  consumer_runs c = true /\ read_iter (channel_ c) (start_read 1) = Waiting /\ deleted c = false /\
  (forall h c', step rng_of now_of dir_exists router fuel (LHandleClosed h) c c' -> deleted c' = false).
Proof using All.
  intros Hr. assert (H : stuck c).
  { assert (H0 : stuck (on_read rng_of now_of dir_exists router (Some request_bytes) (fresh server w s u peer))).
    { unfold on_read. pose proof refused_stuck as H. pose proof length_request as Hlen.
      by destruct request_bytes. }
    induction Hr as [|c1 c2 c3 (l & Hl & Hs) _ IH]; [done|]. apply IH. by eapply stuck_step. }
  split; [apply (sk_runs c H)|]. split; [|split; [apply (sk_alive c H)|]].
  - destruct (sk_channel c H) as [H1 H2]. unfold read_iter. cbn [copied start_read out count length Nat.leb].
    by rewrite H2, H1.
  - intros h c' Hs. apply (sk_alive c'). by eapply stuck_step.
Qed.
End Refused.
End Plain.

(** ** Concrete connections *)

Definition mem_sink : (MemFs * MemPosix) * Server := (get_or_create_sink mem_world mem_server id1).1.

(** The request and three more bytes, cut in five. *)
Definition cuts : list bytes :=
  let all := mem_request ++ str "abc" in
  [take 1 all; sub 1 2 all; sub 3 20 all; sub 23 34 all; drop 57 all].

Lemma handshake_any_cut_witness :
  streams 2 1 Zstd id1 mem_sink.2 (cmd_to_byte Upload :: str "abc")
    (fold_left (fun c d => handle_raw zeros epoch no_dirs mem_routes d c) cuts
       (fresh mem_server mem_world tt tt (str "1.2:3"))).
Proof.
  apply (handshake_any_cut zeros epoch no_dirs mem_routes mem_server mem_world tt tt (str "1.2:3") 2 1 Zstd id1)
    with (w1 := mem_sink.1) (u1 := tt).
  - split; lia.
  - split; discriminate.
  - lia.
  - reflexivity.
  - reflexivity.
  - by vm_compute.
  - reflexivity.
  - repeat constructor; by vm_compute.
  - by vm_compute.
Defined.

(** No write is ever accepted. *)
#[local] Instance never_writes : UvLib bool := { uv_write u _ := (u, false) }.

Definition bool_routes : Router.Router (C := Connection (MemFs * MemPosix) unit unit bool) :=
  {| routes := []; builtins := [] |}.

Definition lost : Connection (MemFs * MemPosix) unit unit bool :=
  on_read zeros epoch no_dirs bool_routes (Some (request_bytes mem_server 2 1 Zstd id1))
    (fresh mem_server mem_world tt true (str "1.2:3")).

Lemma lost_reply_hangs_witness :
  consumer_runs lost = true /\ read_iter (channel_ lost) (start_read 1) = Waiting /\ deleted lost = false /\
  (forall h c', step zeros epoch no_dirs bool_routes 0 (LHandleClosed h) lost c' -> deleted c' = false).
Proof.
  apply (lost_reply_hangs zeros epoch no_dirs bool_routes mem_server mem_world tt true (str "1.2:3") 2 1 Zstd id1)
    with (w1 := mem_sink.1) (server1 := mem_sink.2) (u1 := true).
  - split; lia.
  - split; discriminate.
  - lia.
  - reflexivity.
  - reflexivity.
  - by vm_compute.
  - reflexivity.
  - apply rtc_refl.
Defined.
