(* ===== verification/ConnTls.v ===== *)
(** * ConnTls: a client behind TLS ([server/tls_layer.cxx], [server/connection.cxx])

    The handlers of [ConnHandshake] under the TLS layer. What is asked of
    wolfSSL is that it is a channel: the ciphertext a client sends opens to the
    client's plain text, whatever the cuts, and what goes out is what the
    library has put out ([SslLaws]). *)

From coqutil Require Import Datatypes.RecordSetters.
From S2P Require Import Prelude Text Protocol Wire Hmac Handshake ByteChannel PosixPath FileSink Http Db Router Server Connection ConnLife ConnTeardown ConnHandshake.
Import TriangleBracketNotations.
Open Scope record_set.

(** [opens done s ct plain]: [ct] is the ciphertext to come of a client that
    finishes the handshake, unless it is [done], and then sends [plain]. [said]
    is the plain text written so far, [sent] the ciphertext put out for it and
    for the handshake; [busy] bounds the calls that still make progress. *)
Class SslLaws (S : Type) {Lib : SslLib S} := {
  opens : bool -> S -> bytes -> bytes -> Prop;
  said : S -> bytes;
  sent : S -> bytes;
  busy : S -> bytes -> nat;
  busy_calls s inb : (busy s inb < ssl_calls s (length inb))%nat;
  ssl_accept_ok s inb future plain s' n out r :
    opens false s (inb ++ future) plain -> ssl_accept s inb = (s', n, out, r) ->
    (n <= length inb)%nat /\ sent s' = sent s ++ out /\ said s' = said s /\
    match r with
    | SslOk => opens true s' (drop n inb ++ future) plain /\ (busy s' (drop n inb) < busy s inb)%nat
    | WantRead => opens false s' (drop n inb ++ future) plain /\ (future = [] -> plain = [])
    | WantWrite => opens false s' (drop n inb ++ future) plain /\ (busy s' (drop n inb) < busy s inb)%nat
    | SslError => False
    end;
  ssl_read_ok s inb future plain s' n out got r :
    opens true s (inb ++ future) plain -> ssl_read s inb = (s', n, out, got, r) ->
    (n <= length inb)%nat /\ sent s' = sent s ++ out /\ said s' = said s /\
    match r with
    | SslOk => exists more, plain = got ++ more /\ opens true s' (drop n inb ++ future) more /\
                            (busy s' (drop n inb) < busy s inb)%nat
    | WantRead => opens true s' (drop n inb ++ future) plain /\ (future = [] -> plain = [])
    | WantWrite => opens true s' (drop n inb ++ future) plain /\ (busy s' (drop n inb) < busy s inb)%nat
    | SslError => False
    end;
  ssl_write_ok s ct plain data :
    opens true s ct plain -> data <> [] -> exists s' out,
    ssl_write s data = (s', out, true) /\ opens true s' ct plain /\
    said s' = said s ++ data /\ sent s' = sent s ++ out /\ forall inb, (busy s' inb <= busy s inb)%nat;
}.

Section Side.
Context {W S D U : Type}.
Context {Fs : FsOps W} {Px : PosixOps W} {Gcm : GcmLib} {Json : JsonLib}.
Context {Ssl : SslLib S} {Dl : DownloadOps D} {Uv : UvLib U}.
Abbreviation Conn := (Connection W S D U).
(** [uv_write] accepts everything. *)
Hypothesis always_written : forall u data, exists u', uv_write u data = (u', true).

(** ** The outgoing side *)

Definition set_side (t : TlsLayer S) (c : Conn) : Side :=
  mkSide (tls_active_ c) (uv c) (writes c) (written c) t.

Lemma set_tls_side t c : set_tls t c = on_side (set_side t c) c.
Proof. by destruct c. Qed.

Lemma on_side_twice x y (c : Conn) : on_side y (on_side x c) = on_side y c.
Proof. by destruct c. Qed.

Lemma tls_write_side data ta (c : Conn) :
  closing c = [] -> exists u' ,
  tls_write data ta c =
  on_side (mkSide (tls_active_ c) u' (writes c ++ [TlsWrite ta]) (written c ++ [data]) (tls_ c)) c.
Proof using All.
  intros Hc. unfold tls_write, write_out. rewrite Hc, bool_decide_eq_false_2 by apply not_elem_of_nil.
  destruct (always_written (uv c) data) as [u' ->]. exists u'. by destruct c.
Qed.

Lemma flush_pieces_side fuel : forall out ta (c : Conn),
  closing c = [] -> (length out <= fuel)%nat -> exists x,
  flush_pieces fuel out ta c = on_side x c /\ sd_active x = tls_active_ c /\ sd_tls x = tls_ c /\
  concat (sd_written x) = concat (written c) ++ out.
Proof using All.
  induction fuel as [|fuel IH]; intros out ta c Hc Hl.
  - destruct out; [|cbn in Hl; lia]. exists (set_side (tls_ c) c). rewrite app_nil_r. by destruct c.
  - destruct out as [|b out]; [exists (set_side (tls_ c) c); rewrite app_nil_r; by destruct c|].
    cbn [flush_pieces]. set (piece := b :: out) in *.
    destruct (tls_write_side (take kTlsChunk piece) ta c Hc) as [u' ->].
    set (x1 := mkSide _ _ _ _ _).
    destruct (IH (drop kTlsChunk piece) ta (on_side x1 c)) as (x & E & Ea & Et & Ew); [by destruct c| |].
    { rewrite length_drop. unfold piece, kTlsChunk in *. cbn [length] in *. lia. }
    exists x. rewrite E, on_side_twice. split; [done|]. rewrite Ea, Et, Ew. subst x1. destruct c. cbn.
    split_and!; [done|done|]. rewrite concat_app, <- app_assoc. f_equal. cbn. rewrite app_nil_r. apply take_drop.
Qed.

Definition cleared (t : TlsLayer S) : TlsLayer S := mkTls (ssl t) (in_buf t) (in_pos t) [] (handshake_done t).

Lemma flush_side ta (c : Conn) :
  closing c = [] -> exists x, flush_out ta c = on_side x c /\ sd_active x = tls_active_ c /\
  sd_tls x = cleared (tls_ c) /\ concat (sd_written x) = concat (written c) ++ out_buf (tls_ c).
Proof using All.
  intros Hc. unfold flush_out.
  destruct (flush_pieces_side (length (out_buf (tls_ c))) (out_buf (tls_ c)) ta c Hc) as (x & E & Ea & Et & Ew);
    [done|]. cbv zeta. rewrite E.
  exists (mkSide (sd_active x) (sd_uv x) (sd_writes x) (sd_written x) (cleared (tls_ c))).
  split; [|done]. destruct x as [xa xu xs xw xt]. cbn in Et. subst xt. destruct c as []. by destruct tls_.
Qed.
End Side.

Section Tls.
Context {W S D U : Type}.
Context {Fs : FsOps W} {Px : PosixOps W} {Gcm : GcmLib} {Json : JsonLib}.
Context {Ssl : SslLib S} {Laws : SslLaws S} {Dl : DownloadOps D} {Uv : UvLib U}.
Abbreviation Conn := (Connection W S D U).
Variables (rng_of : W -> option bytes) (now_of : W -> Z) (dir_exists : W -> bytes -> bool).
Variable router : Router.Router (C := Conn).

Abbreviation raw := (handle_raw rng_of now_of dir_exists router).
Abbreviation plain := (handle_data rng_of now_of dir_exists router).

Variables (server : Server) (w : W) (s : S) (u : U) (peer : bytes).
Variables (v f : Z) (a : CompressionAlgo) (sid : bytes).
Hypothesis v_word : is_word 16 v.
Hypothesis v_known : kMinProtocolVersion <= v <= kProtocolVersion.
Hypothesis f_byte : 0 <= f < 256.
Hypothesis sid_length : length sid = kSessionIdSize.
Hypothesis a_known : algo_supported (Some a) = true.
Variables (w1 : W) (server1 : Server).
Hypothesis sink_ok : get_or_create_sink w server sid = (w1, server1, Some (session_id_to_hex sid)).

Hypothesis always_written : forall u data, exists u', uv_write u data = (u', true).

Abbreviation waiting := (waiting (D := D) server w s u peer).
Abbreviation plain_side := (plain_side s u).
Abbreviation prepared := (prepared (D := D) server w s u peer v f a sid w1 server1).
Abbreviation request := (request_bytes server v f a sid).
Abbreviation feeds := (feeds (W := W) (S := S) (D := D) (U := U) f a sid).
Abbreviation accept_reply := (handshake_reply Ok v (mode_for server1 v)).

(** ** Between two calls of the library *)

Implicit Types c : Connection W S D U.

Section Stream.
(** Everything the client says. *)
Variable rest : bytes.
Abbreviation all := (request ++ rest).

(** The plain text so far has made the connection what it is without TLS. *)
Inductive got (sofar : bytes) (c : Conn) : Prop :=
  | got_less x dec :
      c = waiting x true dec sofar -> sd_active x = true -> (length sofar < kHandshakeRequestSize)%nat ->
      (dec = true -> 4 <= length sofar)%nat -> said (ssl (tls_ c)) = [] -> got sofar c
  | got_all after :
      sofar = request ++ after -> feeds after c -> tls_active_ c = true ->
      said (ssl (tls_ c)) = accept_reply -> got sofar c.

Lemma got_active sofar c : got sofar c -> tls_active_ c = true.
Proof using All. by intros [x dec -> Hx _ _ _|]. Qed.

Lemma got_open sofar c : got sofar c -> closing c = [].
Proof using All. intros [x dec -> Hx _ _ _|after _ H _ _]; [done|apply (fd_open _ _ _ _ _ H)]. Qed.

Lemma feeds_side x after c : feeds after c -> feeds after (on_side x c).
Proof using All. intros []. by constructor. Qed.

Lemma got_side x sofar c :
  got sofar c -> sd_active x = true -> said (ssl (sd_tls x)) = said (ssl (tls_ c)) -> got sofar (on_side x c).
Proof using All.
  intros [y dec -> Hy Hl Hd Hs|after E H Ha Hs] Hx Hsaid.
  - apply (got_less _ _ x dec); [by unfold ConnHandshake.waiting; rewrite on_side_twice|done..|by rewrite <- Hs].
  - apply (got_all _ _ after); [done|by apply feeds_side|done|by rewrite <- Hs].
Qed.

(** What went out is what the library has put out. *)
Definition out_ok (c : Conn) : Prop := concat (written c) ++ out_buf (tls_ c) = sent (ssl (tls_ c)).

(** The state of the layer that a handler keeps, and of the channel below it. *)
Definition same_layer (c c' : Conn) : Prop :=
  in_buf (tls_ c') = in_buf (tls_ c) /\ in_pos (tls_ c') = in_pos (tls_ c) /\
  handshake_done (tls_ c') = handshake_done (tls_ c) /\
  (forall ct more, opens true (ssl (tls_ c)) ct more -> opens true (ssl (tls_ c')) ct more) /\
  (forall inb, (busy (ssl (tls_ c')) inb <= busy (ssl (tls_ c)) inb)%nat).

Lemma same_layer_refl c c' : tls_ c' = tls_ c -> same_layer c c'.
Proof using All. unfold same_layer. intros ->. by split_and!. Qed.

Lemma prepared_side x tail : prepared x tail = on_side x (prepared plain_side tail).
Proof using All. reflexivity. Qed.

(** The accepting reply, through the layer. *)
Lemma tls_reply_sent x tail ct more :
  sd_active x = true -> opens true (ssl (sd_tls x)) ct more ->
  concat (sd_written x) ++ out_buf (sd_tls x) = sent (ssl (sd_tls x)) ->
  exists y, send_handshake_reply Ok (prepared x tail) = on_side y (prepared plain_side tail) /\
    sd_active y = true /\ said (ssl (sd_tls y)) = said (ssl (sd_tls x)) ++ accept_reply /\
    out_ok (on_side y (prepared plain_side tail)) /\ same_layer (prepared x tail) (on_side y (prepared plain_side tail)).
Proof using All.
  intros Hx Ho Hout. unfold send_handshake_reply. change (tls_active_ (prepared x tail)) with (sd_active x).
  rewrite Hx. unfold tls_send. change (tls_ (prepared x tail)) with (sd_tls x).
  change (handshake_reply _ _ _) with accept_reply.
  destruct (ssl_write_ok (ssl (sd_tls x)) ct more accept_reply Ho) as (s' & out & Ew & _ & Hsaid & Hsent & Hbusy); [done|].
  rewrite Ew. set (t := mkTls s' (in_buf (sd_tls x)) (in_pos (sd_tls x)) (out_buf (sd_tls x) ++ out) (handshake_done (sd_tls x))).
  set (c1 := on_side (mkSide (sd_active x) (sd_uv x) (sd_writes x) (sd_written x) t) (prepared plain_side tail)).
  change (negb (bool_decide (Ok = Ok))) with false. cbv zeta.
  assert (Ec : (prepared x tail) <| tls_ -> ssl := s' |> <| tls_ -> out_buf := out_buf (sd_tls x) ++ out |> = c1)
    by (destruct x as [xa xu xs xw xt]; by destruct xt).
  match goal with |- context [flush_out false ?c] => change c with
    ((prepared x tail) <| tls_ -> ssl := s' |> <| tls_ -> out_buf := out_buf (sd_tls x) ++ out |>) end.
  rewrite Ec. destruct (flush_side always_written false c1 eq_refl) as (y & E & Hy & Ht & Hw). rewrite E.
  exists y. unfold c1 at 1. rewrite on_side_twice. split; [done|]. rewrite Ht. change (tls_ c1) with t in *.
  change (written c1) with (sd_written x) in Hw. split; [by rewrite Hy|]. cbn [ssl cleared t]. split; [done|].
  split.
  - unfold out_ok. change (written (on_side y _)) with (sd_written y). change (tls_ (on_side y _)) with (sd_tls y).
    rewrite Hw, Ht. cbn [cleared out_buf ssl t]. rewrite app_nil_r, Hsent, <- Hout. by rewrite app_assoc.
  - unfold same_layer. change (tls_ (on_side y _)) with (sd_tls y). change (tls_ (prepared x tail)) with (sd_tls x).
    rewrite Ht. cbn [cleared in_buf in_pos handshake_done ssl t]. split_and!; try done.
    intros ct' more' Ho'. destruct (ssl_write_ok _ ct' more' accept_reply Ho') as (s2 & out2 & E2 & Ho2 & _); [done|].
    rewrite Ew in E2. by simplify_eq.
Qed.

(** One piece of plain text. *)
Lemma got_data sofar c p more ct more' :
  got sofar c -> sofar ++ p ++ more = all -> opens true (ssl (tls_ c)) ct more' -> out_ok c ->
  got (sofar ++ p) (plain p c) /\ out_ok (plain p c) /\ same_layer c (plain p c).
Proof using All.
  intros [x dec -> Hx Hl Hd Hs|after -> Hf Ha Hs] Hall Ho Hout.
  - destruct (decide (length (sofar ++ p) < kHandshakeRequestSize)%nat) as [Hlt|Hge].
    + assert (Htake : take (length (sofar ++ p)) request = sofar ++ p).
      { rewrite app_assoc in Hall. apply (f_equal (take (length (sofar ++ p)))) in Hall.
        rewrite take_app_length, take_app_le in Hall by (rewrite length_request by done; lia). done. }
      rewrite (request_incomplete rng_of now_of dir_exists router server w s u peer v f a sid sid_length
                 x sofar p dec (drop (length (sofar ++ p)) request)).
      * split; [|split; [exact Hout|by apply same_layer_refl]].
        eapply got_less; [done|done|done| |done]. intros [?%Hd|?%Nat.leb_le]%orb_true_iff; [|done].
        rewrite length_app. lia.
      * done.
      * rewrite <- Htake at 1. apply take_drop.
      * intros Hnil. apply (f_equal length) in Hnil. rewrite length_drop, length_request in Hnil by done.
        cbn [length] in Hnil. lia.
    + assert (Hsplit : exists tail, sofar ++ p = request ++ tail).
      { exists (drop kHandshakeRequestSize (sofar ++ p)). rewrite app_assoc in Hall.
        assert (Htake : take kHandshakeRequestSize (sofar ++ p) = request).
        { apply (f_equal (take kHandshakeRequestSize)) in Hall. rewrite take_app_le in Hall by lia.
          rewrite Hall. rewrite <- (length_request server v f a sid) at 1 by done. apply take_app_length. }
        rewrite <- Htake at 1. by rewrite take_drop. }
      destruct Hsplit as [tail E].
      rewrite (request_complete rng_of now_of dir_exists router server w s u peer v f a sid v_word v_known f_byte
                 sid_length a_known w1 server1 sink_ok x sofar p dec tail Hd E).
      destruct (tls_reply_sent x tail ct more' Hx Ho Hout) as (y & -> & Hy & Hsaid & Hout' & Hsame).
      destruct (streaming_feeds (D := D) rng_of now_of server w s u peer v f a sid sid_length w1 server1 y tail) as [Hf (E1 & E2 & _ & _ & E5)].
      split; [|split].
      * apply (got_all _ _ tail); [done|done|by rewrite E1|].
        rewrite E2. change (tls_ (on_side y _)) with (sd_tls y). rewrite Hsaid.
        change (tls_ (waiting x true dec sofar)) with (sd_tls x) in Hs. by rewrite Hs.
      * unfold out_ok in *. by rewrite E2, E5.
      * unfold same_layer in *. rewrite E2. exact Hsame.
  - destruct (plain_feeds rng_of now_of dir_exists router f a sid after p c Hf) as [Hf' (E1 & E2 & _ & _ & E5)].
    split; [|split].
    + apply (got_all _ _ (after ++ p)); [by rewrite app_assoc|done|by rewrite E1|by rewrite E2].
    + unfold out_ok in *. by rewrite E2, E5.
    + by apply same_layer_refl.
Qed.

Lemma flush_got sofar c :
  got sofar c -> out_ok c ->
  got sofar (flush_out false c) /\ out_ok (flush_out false c) /\ tls_ (flush_out false c) = cleared (tls_ c).
Proof using All.
  intros Hg Ho. destruct (flush_side always_written false c (got_open _ _ Hg)) as (x & E & Ha & Ht & Hw).
  rewrite E. change (tls_ (on_side x c)) with (sd_tls x). split; [|split; [|done]].
  - apply got_side; [done|by rewrite Ha; eapply got_active|by rewrite Ht].
  - unfold out_ok. change (written (on_side x c)) with (sd_written x). change (tls_ (on_side x c)) with (sd_tls x).
    rewrite Hw, Ht. cbn [cleared out_buf ssl]. by rewrite app_nil_r.
Qed.

(** A call of the library that said nothing. *)
Lemma called_got sofar c s' n out :
  got sofar c -> out_ok c -> said s' = said (ssl (tls_ c)) -> sent s' = sent (ssl (tls_ c)) ++ out ->
  got sofar (called s' n out c) /\ out_ok (called s' n out c) /\ ssl (tls_ (called s' n out c)) = s' /\
  inbound (called s' n out c) = drop n (inbound c) /\
  handshake_done (tls_ (called s' n out c)) = handshake_done (tls_ c).
Proof using All.
  intros Hg Ho Hsaid Hsent. unfold called. rewrite set_tls_side.
  set (t := mkTls _ _ _ _ _). change (tls_ (on_side (set_side t c) c)) with t. split_and!; try done.
  - apply got_side; [done|by eapply got_active|done].
  - unfold out_ok in *. change (written (on_side (set_side t c) c)) with (written c).
    change (tls_ (on_side (set_side t c) c)) with t. unfold t. cbn [out_buf ssl].
    by rewrite Hsent, <- Ho, app_assoc.
  - unfold inbound. change (tls_ (on_side (set_side t c) c)) with t. unfold t. cbn [in_buf in_pos].
    by rewrite drop_drop.
Qed.

Lemma inbound_flush c (t : Connection W S D U) : tls_ t = cleared (tls_ c) -> inbound t = inbound c.
Proof using All. unfold inbound. by intros ->. Qed.

(** In the stream: [more] plain text to come, [future] ciphertext to arrive. *)
Record here (sofar more future : bytes) (c : Connection W S D U) : Prop := {
  h_got : got sofar c;
  h_all : sofar ++ more = all;
  h_opens : opens true (ssl (tls_ c)) (inbound c ++ future) more;
  h_out : out_ok c;
  h_done : handshake_done (tls_ c) = true;
}.

Lemma flush_here sofar more future c :
  here sofar more future c -> here sofar more future (flush_out false c) /\
  ssl (tls_ (flush_out false c)) = ssl (tls_ c) /\ inbound (flush_out false c) = inbound c.
Proof using All.
  intros [Hg Ha Ho Hout Hd]. destruct (flush_got _ _ Hg Hout) as (Hg' & Hout' & Ht).
  pose proof (inbound_flush c _ Ht) as Hi. rewrite Ht. split; [|done]. constructor; [done|done| |done|by rewrite Ht].
  by rewrite Ht, Hi.
Qed.

Lemma read_loop_here fuel : forall sofar more future c,
  here sofar more future c -> (busy (ssl (tls_ c)) (inbound c) < fuel)%nat -> exists sofar' more',
  here sofar' more' future (read_plain_loop rng_of now_of dir_exists router fuel c) /\ (future = [] -> more' = []).
Proof using All.
  induction fuel as [|fuel IH]; intros sofar more future c H Hfuel; [lia|].
  cbn [read_plain_loop]. destruct (ssl_read (ssl (tls_ c)) (inbound c)) as [[[[s' n] out] p] r] eqn:E.
  destruct H as [Hg Ha Ho Hout Hd].
  destruct (ssl_read_ok _ _ _ _ _ _ _ _ _ Ho E) as (_ & Hsent & Hsaid & Hr).
  destruct (called_got sofar c s' n out Hg Hout Hsaid Hsent) as (Hg1 & Hout1 & Hs1 & Hi1 & Hd1).
  destruct r; [| | |done].
  - destruct Hr as (more' & -> & Ho' & Hb). rewrite <- Hs1, <- Hi1 in Ho', Hb.
    destruct (got_data sofar _ p more' _ _ Hg1 Ha Ho' Hout1) as (Hg2 & Hout2 & Hin & Hpos & Hd2 & Hop & Hbusy).
    assert (Hi2 : inbound (plain p (called s' n out c)) = inbound (called s' n out c))
      by (unfold inbound; by rewrite Hin, Hpos).
    apply (IH (sofar ++ p) more' future).
    + constructor; [done|by rewrite <- app_assoc|rewrite Hi2; by apply Hop|done|congruence].
    + rewrite Hi2. specialize (Hbusy (inbound (called s' n out c))). lia.
  - destruct Hr as [Ho' Hnil]. rewrite <- Hs1, <- Hi1 in Ho'. exists sofar, more. split; [|done].
    apply flush_here. by constructor; rewrite ?Hd1.
  - destruct Hr as [Ho' Hb]. rewrite <- Hs1, <- Hi1 in Ho', Hb.
    destruct (flush_here sofar more future (called s' n out c)) as (H' & Es & Ei);
      [by constructor; rewrite ?Hd1|].
    apply (IH sofar more future); [done|]. rewrite Es, Ei. lia.
Qed.

(** Before that, in the TLS handshake. *)
Record shaking (future : bytes) (c : Connection W S D U) : Prop := {
  k_got : got [] c;
  k_opens : opens false (ssl (tls_ c)) (inbound c ++ future) all;
  k_out : out_ok c;
  k_done : handshake_done (tls_ c) = false;
}.

Lemma accept_loop_shaking fuel : forall future c,
  shaking future c -> (busy (ssl (tls_ c)) (inbound c) < fuel)%nat ->
  match accept_loop fuel c with
  | (c', true) => here [] all future c' /\ (busy (ssl (tls_ c')) (inbound c') < fuel)%nat
  | (c', false) => shaking future c' /\ (future = [] -> all = [])
  end.
Proof using All.
  induction fuel as [|fuel IH]; intros future c [Hg Ho Hout Hd] Hfuel; [lia|].
  cbn [accept_loop]. destruct (ssl_accept (ssl (tls_ c)) (inbound c)) as [[[s' n] out] r] eqn:E.
  destruct (ssl_accept_ok _ _ _ _ _ _ _ _ Ho E) as (_ & Hsent & Hsaid & Hr).
  destruct (called_got [] c s' n out Hg Hout Hsaid Hsent) as (Hg1 & Hout1 & Hs1 & Hi1 & Hd1).
  destruct r; [| | |done].
  - destruct Hr as [Ho' Hb]. rewrite <- Hs1, <- Hi1 in Ho', Hb. set (c1 := called s' n out c) in *.
    set (t := mkTls (ssl (tls_ c1)) (in_buf (tls_ c1)) (in_pos (tls_ c1)) (out_buf (tls_ c1)) true).
    assert (Ec : c1 <| tls_ -> handshake_done := true |> = on_side (set_side t c1) c1)
      by (subst t; destruct c1 as []; by destruct tls_).
    rewrite Ec. destruct (flush_here [] all future (on_side (set_side t c1) c1)) as (H' & Es & Ei).
    + constructor; [|done|done|done|done]. apply got_side; [done|by eapply got_active|done].
    + split; [done|]. rewrite Es, Ei. change (busy (ssl (tls_ c1)) (inbound c1) < Datatypes.S fuel)%nat. lia.
  - destruct Hr as [Ho' Hnil]. rewrite <- Hs1, <- Hi1 in Ho'. split; [|done].
    destruct (flush_got _ _ Hg1 Hout1) as (Hg' & Hout' & Ht). pose proof (inbound_flush _ _ Ht) as Hi.
    constructor; [done| |done|by rewrite Ht; cbn; congruence]. by rewrite Ht, Hi.
  - destruct Hr as [Ho' Hb]. rewrite <- Hs1, <- Hi1 in Ho', Hb.
    destruct (flush_got _ _ Hg1 Hout1) as (Hg' & Hout' & Ht). pose proof (inbound_flush _ _ Ht) as Hi.
    assert (H' : shaking future (flush_out false (called s' n out c))).
    { constructor; [done| |done|by rewrite Ht; cbn; congruence]. by rewrite Ht, Hi. }
    specialize (IH future _ H'). rewrite Ht, Hi in IH. cbn [cleared ssl] in IH.
    specialize (IH ltac:(lia)). destruct (accept_loop fuel _) as [c' [|]]; [|done].
    destruct IH as [IH1 IH2]. split; [done|lia].
Qed.

(** ** Reads *)

Definition phase (future : bytes) c : Prop :=
  shaking future c \/ exists sofar more, here sofar more future c.

Lemma ingest_phase data future c :
  phase (data ++ future) c ->
  phase future (ingest rng_of now_of dir_exists router data c) /\
  (future = [] -> exists sofar, here sofar [] [] (ingest rng_of now_of dir_exists router data c)).
Proof using All.
  intros H. unfold ingest. rewrite set_tls_side.
  set (t := mkTls _ _ _ _ _). set (c1 := on_side (set_side t c) c). cbv zeta.
  assert (Hi : inbound c1 = inbound c ++ data) by reflexivity.
  change (in_buf (tls_ c1)) with (inbound c1). change (ssl (tls_ c)) with (ssl (tls_ c1)).
  pose proof (busy_calls (ssl (tls_ c1)) (inbound c1)) as Hfuel. set (fuel := ssl_calls _ _) in *.
  assert (Hgot : forall sofar, got sofar c -> got sofar c1)
    by (intros sofar Hg; apply got_side; [done|by eapply got_active|done]).
  assert (Hend : forall sofar more c', here sofar more future c' -> (busy (ssl (tls_ c')) (inbound c') < fuel)%nat ->
    phase future (read_plain_loop rng_of now_of dir_exists router fuel c') /\
    (future = [] -> exists sofar, here sofar [] [] (read_plain_loop rng_of now_of dir_exists router fuel c'))).
  { intros sofar more c' Hh Hb. destruct (read_loop_here fuel sofar more future c' Hh Hb) as (sofar' & more' & Hh' & Hn).
    split; [right; by exists sofar', more'|]. intros E. pose proof (Hn E) as E'. subst. by exists sofar'. }
  destruct H as [[Hg Ho Hout Hd]|(sofar & more & [Hg Ha Ho Hout Hd])].
  - change (handshake_done (tls_ c1)) with (handshake_done (tls_ c)). rewrite Hd.
    assert (H1 : shaking future c1) by (constructor; [by apply Hgot|rewrite Hi, <- app_assoc; exact Ho|exact Hout|exact Hd]).
    pose proof (accept_loop_shaking fuel future c1 H1 Hfuel) as H2.
    destruct (accept_loop fuel c1) as [c' [|]].
    + destruct H2 as [H2 Hb]. by apply (Hend [] all).
    + destruct H2 as [H2 Hn]. split; [by left|]. intros E%Hn. apply (f_equal length) in E.
      rewrite length_app, length_request in E by done. cbn in E. lia.
  - change (handshake_done (tls_ c1)) with (handshake_done (tls_ c)). rewrite Hd.
    apply (Hend sofar more); [|done]. constructor; [by apply Hgot|done|rewrite Hi, <- app_assoc; exact Ho|exact Hout|exact Hd].
Qed.

Lemma raw_ingest data future c : phase future c -> raw data c = ingest rng_of now_of dir_exists router data c.
Proof using All.
  intros H. assert (Hg : exists sofar, got sofar c)
    by (destruct H as [H|(sofar & more & H)]; [exists []; apply H|exists sofar; apply H]).
  destruct Hg as [sofar Hg]. pose proof (got_active _ _ Hg) as Ha. unfold handle_raw.
  replace (bool_decide (state_ c = Handshaking) && negb (tls_detected_ c)) with false; [by rewrite Ha|].
  destruct Hg as [x dec -> _ _ _ _|after _ Hf _ _]; [done|]. by rewrite (fd_state _ _ _ _ _ Hf).
Qed.

Lemma fold_phase ds : forall c, phase (concat ds) c -> ds <> [] ->
  exists sofar, here sofar [] [] (fold_left (fun c d => raw d c) ds c).
Proof using All.
  induction ds as [|d ds IH]; intros c H Hne; [done|]. cbn [fold_left concat] in *.
  rewrite (raw_ingest d _ c H). destruct (ingest_phase d (concat ds) c H) as [H1 H2].
  destruct ds as [|d' ds]; [by apply H2|]. by apply IH.
Qed.

(** The first bytes of a TLS client start the layer. *)
Lemma raw_first s0 data :
  head data = Some x16 -> ssl_init s = (s0, true) ->
  raw data (fresh server w s u peer) =
  ingest rng_of now_of dir_exists router data (waiting (mkSide true u [] [] (mkTls s0 [] 0 [] false)) true false []).
Proof using Type.
  intros Hh Hinit. unfold handle_raw. change (state_ _) with Handshaking. change (tls_detected_ _) with false.
  cbv zeta.
  rewrite !bool_decide_eq_true_2 by done. cbn [negb andb]. set (c1 := _ <| tls_active_ := true |>).
  change (tls_active_ c1) with true. unfold tls_init. change (ssl (tls_ c1)) with s. rewrite Hinit. reflexivity.
Qed.

Lemma stream_opened s0 ds :
  Forall (fun d => d <> []) ds -> head (concat ds) = Some x16 -> ssl_init s = (s0, true) ->
  said s0 = [] -> sent s0 = [] -> opens false s0 (concat ds) all ->
  exists sofar, here sofar [] [] (fold_left (fun c d => raw d c) ds (fresh server w s u peer)).
Proof using All.
  intros Hds Hh Hinit Hsaid Hsent Ho. destruct Hds as [|d ds Hd Hds]; [done|]. cbn [fold_left concat] in *.
  assert (Hhd : head d = Some x16) by (by destruct d).
  rewrite (raw_first s0 d Hhd Hinit). set (c0 := waiting _ _ _ _).
  assert (H : phase (d ++ concat ds) c0).
  { left. constructor; [|exact Ho|by change (@nil byte = sent s0)|done].
    eapply got_less; [done|done|apply Nat.ltb_lt; reflexivity|done|done]. }
  destruct (ingest_phase d (concat ds) c0 H) as [H1 H2].
  destruct ds as [|d' ds]; [by apply H2|]. by apply fold_phase.
Qed.

Lemma here_end sofar c : here sofar [] [] c ->
  feeds rest c /\ tls_active_ c = true /\ said (ssl (tls_ c)) = accept_reply /\
  concat (written c) ++ out_buf (tls_ c) = sent (ssl (tls_ c)).
Proof using sid_length.
  intros [Hg Ha _ Hout _]. rewrite app_nil_r in Ha. subst sofar.
  destruct Hg as [x dec _ _ Hl _ _|after E Hf Hact Hs].
  - rewrite length_app, length_request in Hl by done. lia.
  - apply app_inv_head in E as ->. by split_and!.
Qed.
End Stream.

(** C14: TLS is transparent to the handshake. When what a TLS client sends, cut
    into reads anywhere, opens to its request and some text behind it, the
    connection becomes exactly what a plain one does: streaming for the
    request's session, with that text, from the command byte on, to be read by
    the consumer; the library has been given one accepting reply to encrypt,
    and every byte of ciphertext it put out, the handshake's included, has been
    written, in order. *)
Theorem tls_handshake_any_cut (s0 : S) (ds : list bytes) (rest : bytes) :
  Forall (fun d => d <> []) ds -> head (concat ds) = Some x16 -> ssl_init s = (s0, true) ->
  said s0 = [] -> sent s0 = [] ->
  opens false s0 (concat ds) (handshake v f a sid (cfg_key (config server)) ++ rest) ->
  let c := fold_left (fun c d => raw d c) ds (fresh server w s u peer) in
  feeds (cmd_to_byte Upload :: rest) c /\ tls_active_ c = true /\ said (ssl (tls_ c)) = accept_reply /\
  concat (written c) ++ out_buf (tls_ c) = sent (ssl (tls_ c)).
Proof using All.
  intros Hds Hh Hinit Hsaid Hsent Ho. cbv zeta. rewrite handshake_layout in Ho.
  assert (Ho' : opens false s0 (concat ds) (request ++ cmd_to_byte Upload :: rest))
    by (unfold request_bytes; rewrite <- !app_assoc in *; exact Ho).
  destruct (stream_opened (cmd_to_byte Upload :: rest) s0 ds Hds Hh Hinit Hsaid Hsent Ho') as [sofar H].
  by eapply here_end.
Qed.
End Tls.

(** ** A channel without secrets *)

(** One byte is the handshake of either side, the rest is sent as it is. *)
Record ClearTls := { ct_said : bytes; ct_sent : bytes }.

#[export] Instance clear_tls : SslLib ClearTls := {
  ssl_init s := (s, true);
  ssl_accept s inb :=
    match inb with
    | [] => (s, 0%nat, [], WantRead)
    | _ :: _ => ({| ct_said := ct_said s; ct_sent := ct_sent s ++ [x16] |}, 1%nat, [x16], SslOk)
    end;
  ssl_read s inb :=
    match inb with
    | [] => (s, 0%nat, [], [], WantRead)
    | b :: _ => (s, 1%nat, [], [b], SslOk)
    end;
  ssl_write s data := ({| ct_said := ct_said s ++ data; ct_sent := ct_sent s ++ data |}, data, true);
  ssl_calls _ n := S (S n);
}.

#[export] Instance clear_laws : SslLaws ClearTls.
Proof.
  refine {| opens := fun done _ ct plain => ct = if done : bool then plain else x16 :: plain;
            said := ct_said; sent := ct_sent; busy := fun _ inb => S (length inb) |}.
  - intros s inb. apply Nat.lt_succ_diag_r.
  - intros s [|b inb] future plain s' n out r Ho [= <- <- <- <-]; cbn in *; rewrite ?app_nil_r.
    + split_and!; [lia|done|done|done|]. intros ->. done.
    + injection Ho as _ Ho. rewrite drop_0. split_and!; [lia|done|done|done|lia].
  - intros s [|b inb] future plain s' n out got r Ho [= <- <- <- <- <-]; cbn in *; rewrite ?app_nil_r.
    + split_and!; [lia|done|done|done|]. by intros ->.
    + rewrite drop_0. split_and!; [lia|done|done|]. exists (inb ++ future). split_and!; [done|done|lia].
  - intros s ct plain data Ho _. by eexists _, _.
Defined.

Definition clear_routes : Router.Router (C := Connection (MemFs * MemPosix) ClearTls unit unit) :=
  {| routes := []; builtins := [] |}.

Definition no_secrets : ClearTls := {| ct_said := []; ct_sent := [] |}.

(** The client's first byte and its request, cut in five. *)
Definition tls_cuts : list bytes :=
  let all := x16 :: mem_request ++ str "abc" in
  [take 1 all; sub 1 2 all; sub 3 20 all; sub 23 34 all; drop 57 all].

Lemma tls_handshake_any_cut_witness :
  let c := fold_left (fun c d => handle_raw zeros epoch no_dirs clear_routes d c) tls_cuts
             (fresh mem_server mem_world no_secrets tt (str "1.2:3")) in
  feeds 1 Zstd id1 (cmd_to_byte Upload :: str "abc") c /\ tls_active_ c = true /\
  said (ssl (tls_ c)) = handshake_reply Ok 2 (mode_for mem_sink.2 2) /\
  concat (written c) ++ out_buf (tls_ c) = sent (ssl (tls_ c)).
Proof.
  apply (tls_handshake_any_cut zeros epoch no_dirs clear_routes mem_server mem_world no_secrets tt (str "1.2:3")
           2 1 Zstd id1) with (w1 := mem_sink.1) (s0 := no_secrets).
  - split; lia.
  - split; discriminate.
  - lia.
  - reflexivity.
  - reflexivity.
  - by vm_compute.
  - intros [] data. by exists tt.
  - repeat constructor; by vm_compute.
  - by vm_compute.
  - reflexivity.
  - reflexivity.
  - reflexivity.
  - by vm_compute.
Defined.
